(* ===== verification/_CoqProject ===== *)
-Q . S2P
Prelude.v
Readiness.v
Replacement.v
Selection.v
Observation.v
Lifecycle.v
Text.v
Generation.v
Retry.v
Backoff.v
Admission.v
SocketPath.v
Identity.v
Files.v
Publication.v
Records.v
UnixSocket.v
Election.v
Process.v
ThreadPool.v
Children.v
Launch.v
UnixStream.v
ReadyPipe.v
Proto.v
ProtoTyping.v
Wire.v
Session.v
Shutdown.v
AsyncSession.v
Control.v
Transport.v
Channel.v
ChannelWaits.v
Signaled.v
CommandLine.v
WindowsRecords.v
Peer.v
Tokens.v
WindowsCalls.v
WindowsLaunch.v
WindowsUser.v
WindowsDaemon.v
PipeListener.v
Serve.v
Upgrade.v
Client.v
Connecting.v
