(* ===== verification/Prelude.v ===== *)
(** * kunobi-daemon: a verification of the library

    kunobi-daemon is a Rust library for programs that run as one long-lived daemon
    per user and are replaced while they serve: it elects and replaces daemons,
    admits, drains and retires sessions, speaks a versioned binary protocol over
    local sockets, and tells launchers what a starting daemon is doing. The parts
    are small state machines behind mutexes, atomics and channels, and loops that
    poll the operating system under deadlines. This library models those parts, one
    file each, and proves what they promise. Paths below are under [src/src/].

    ** How the code is modelled

    Every operation is an executable function. An operation under a mutex, or one
    atomic instruction, is one step; a component used by many tasks is a function
    from a list of such steps, in any order, to a state, and its invariants hold
    after every list. A task that waits on a condition variable or a watch channel
    is modelled by what it does each time it runs, with the number of notifications
    it has seen, so that lost wake-ups would show. Async code runs in a monad whose
    waits may be cancelled ([AsyncSession]). Loops carry a bound on their passes;
    the theorems give a number of passes that is enough, computed from the deadline
    and the shortest pause ([Prelude.polls], [Process.wait_passes],
    [UnixStream.io_passes]), or from a constant of the code (2001 passes for the two
    seconds of a Windows open, five for a pipe bind, four for a readiness read), and
    show that the loop then returns. Code that runs beside other processes on a file
    system is a program of system calls ([Files.prog]); any number of them are
    interleaved call by call, and each may fail or stop for good. Code that owns
    descriptors, handles, tokens or children works on a table of them, so that what
    it leaves behind is part of its result.
    Integers are [Z] with the width written out ([wrap64], [saturating_add],
    [checked_add]); instants and durations are nanoseconds. Text and paths are
    bytes; UTF-16 text is units. Errors are [io_error] values of [result], with
    their kind, OS number and an abridged text.

    The environment is a parameter: [Clock] with [ClockLaws] (time does not run
    backwards and sleeping lasts), [Evidence], [Discovery], [Stream] and
    [AsyncStream], [WriteHalf], [ChannelWorld], [ChannelTask],
    [TokenCalls] with [TokenLaws] and [Layouts] (the records of Win32),
    [UnixCalls] with [UnixLaws], [LockFile], [Daemon], [Connector],
    [Watched] with [ExitEvent] (a process and how a platform waits for it), [Child],
    [Socket], [Overlapped.Calls], [Opening.Replaced], the accounts of Windows
    ([Accounts] with [AccountLaws]) and, for the buffa protobuf runtime, [Buffa] with
    [BuffaLaws] and [BuffaReads]. Each has a concrete instance, used by the
    witnesses: a clock with scripted answers ([Sim]), an in-memory connection
    ([Pipe]), a sink, and the protobuf wire format itself ([Wireformat.protobuf], whose laws are proved).

    ** The files

    - [Prelude]: results, I/O errors, machine integers, clocks, bytes, tactics.
    - [Text]: decimal numbers, white space and UTF-8, as the standard library
      reads and prints them.
    - [Readiness] (readiness.rs): [wait_until] and [wait_until_async].
    - [Replacement] (replacement.rs): [Machine], [run], [run_async].
    - [Selection] (selection.rs): [Watch], [await_selection] and its async form,
      over the interface [Evidence].
    - [Observation] (observation.rs): [Observations], its event queue, and the
      observed streams [ObservedIo] and [AsyncObservedIo].
    - [Lifecycle] (lifecycle.rs): the request gate, its guards and its drain.
    - [Generation] (generation.rs): [Allocation] of epochs, sessions of a
      [Generation], and the loop [Retiring.run_until_retired].
    - [Retry] (retry.rs), [Backoff] (backoff.rs): attempt budgets and pauses.
    - [Admission] (admission.rs): the three capacity pools.
    - [Peer] (peer.rs, pid.rs): credentials, policies and grants; the class
      [ChecksUser] is what servers rely on.
    - [Serve] (serve.rs): the accept loop over [Lifecycle], [Admission], [Peer].
    - [Upgrade] (ownership.rs, upgrade.rs): process locks, opened privately on both
      platforms, and [ensure_current].
    - [SocketPath] (socket_path.rs), [Identity] (identity.rs, local/pipe_name.rs):
      names of sockets, files and pipes.
    - [Proto] (wire/generated.rs): the messages, their sizes and codecs;
      [ProtoTyping]: what any decoded bytes are.
    - [Wire], [Session] (wire.rs), [AsyncSession] (wire/asynchronous.rs):
      negotiation, frames, handshakes, refusals and sessions. [Shutdown]
      (local/unix.rs, local/windows.rs): requests to stop, from a signal or a console
      to the task that waits.
    - [Control] (control.rs, control/watch.rs): health, drain and the watch stream.
    - [Client] (client.rs, connecting in local/mod.rs): requests to a service;
      [Connecting] (local/unix.rs, local/windows.rs): one attempt to connect, the
      credentials of a Unix peer and the signal to a legacy one.
    - [Tokens] (local/security): comparing the tokens of two Windows processes, from
      the buffers the system fills to the verdict.
    - [Transport] (transport.rs): the replaceable writer, the pumps and the
      outstanding requests.
    - [Channel] (readiness/channel.rs): the launcher's readiness channel;
      [ChannelWaits]: its waiters, threads and tasks, beside its reader, as step
      relations; [Signaled]: its async waits, and selections wrapped with it.
    - [CommandLine] (local/command_line.rs): Windows command lines and
      environment blocks.
    - [Files]: a file system of names, inodes, locks and sockets, with the calls the
      code makes of it. [Publication] (publication.rs) and [UnixSocket]
      (local/unix_socket.rs) are programs over it; [Records] and [Election] prove
      what they promise when many run at once.
    - [WindowsRecords] (publication/windows.rs): opening and replacing records on
      Windows.
    - [Process] (local/process.rs and its platforms, [signal_state] of
      local/unix.rs): process handles and their waits; [ThreadPool]
      (local/process/windows.rs): the registered wait of Windows, its callback and its
      cancellation; [Children] (candidate.rs,
      warmup.rs, the waits of launch.rs): candidates, starting daemons and warm-up.
    - [Launch] (launch.rs, local/unix.rs, local/readiness.rs): launching on Unix;
      [WindowsLaunch] (local/windows_spawn.rs): on Windows; [WindowsUser]
      (local/windows.rs): the user behind a token, asked of the system;
      [WindowsDaemon] (launch.rs, local/windows.rs): a whole launch there;
      [ReadyPipe] (local/windows.rs, module ready): the readiness pipe there.
    - [UnixStream] (local/unix.rs): bounded reads and writes and the end of the
      setup. [WindowsCalls] (local/windows.rs, local/peer/windows.rs): overlapped
      transfers, the halves of a pipe, impersonation and credentials, inheritance
      flags and the spawn they guard. [PipeListener]
      (local/windows_socket.rs): binding a pipe.

    ** What is proved

    - Replacement calls its driver in the order of its mode, reports only what the
      calls show, and returns ([run_keeps_order], [run_async_keeps_order],
      [run_terminates], [run_async_terminates]). An observer of a selection claims
      only what its evidence shows, and stops ([await_selection_claims],
      [await_selection_ends]). An upgrade is serialized by its lock and ends
      ([upgrades_are_serialized], [guards_are_locks]), and the lock file is no link
      ([private_locks_follow_no_link]).
    - The gate counts its guards and wakes its waiters; a generation counts its
      sessions, retires once and when due, and allocates fresh epochs; the pools
      count their permits and do not disturb each other; a request to stop is not lost
      ([requests_to_stop_are_not_lost]); the accept loop accounts
      for every connection, admits only granted peers and gives everything back
      ([gate_counts_its_guards], [sleeping_tasks_are_woken], [sessions_are_counted],
      [superseded_generation_retires], [allocate_is_fresh],
      [pools_count_their_permits], [pools_are_independent],
      [served_peers_are_accounted_for], [drained_loops_give_everything_back],
      [grants_are_earned]).
    - Messages round-trip, and whatever bytes decode give well typed ones; both ends reach the same agreement and complete the
      handshake; refusals are reported; sessions deliver, and an error or a
      cancelled wait makes them unusable; async sessions refine blocking ones; a
      client's request reaches the service and its answer comes back, and is
      trusted only for what it shows; a watcher accepts every event it is sent and
      misses none ([messages_round_trip], [agreement_is_mutual],
      [handshake_is_mutual], [refusal_is_reported], [session_delivers],
      [an_error_poisons], [async_sessions_refine_blocking],
      [cancellation_poisons], [decoded_messages_are_well_typed],
      [requests_reach_the_service],
      [answers_are_trusted], [watch_stream_is_accepted], [watch_misses_nothing]).
    - A window is written at most once and pauses count what was written; a session
      is settled exactly when every request is answered; the pumps and the channel
      lose nothing; counters return to what they were ([windows_are_written_once],
      [settled_means_answered], [pumps_forward_every_byte],
      [channel_delivers_reports], [queue_accounts_for_every_event],
      [dropped_connection_leaves_no_count]). No waiter of the channel sleeps
      through a report; a channel that said ready adds nothing to a selection, and
      one that failed ends it unless a probe proves the daemon
      ([no_report_is_slept_through], [a_ready_channel_adds_nothing],
      [a_failed_daemon_ends_the_selection]). One theorem shows a defect: an empty
      window lets a writer be paused inside a record
      ([an_empty_window_hides_a_partial_record]).
    - Distinct services have distinct names; command lines and environment blocks
      read back as what they were made from; retries are limited
      ([service_files_are_disjoint], [pipe_names_are_disjoint],
      [arguments_survive], [blocks_hold_the_last_change], [campaign_is_limited]).
    - One daemon wins an endpoint, whoever else acquires, leaves or crashes; the
      operations of a record slot take effect one after another and readers see
      whole records ([election_is_exclusive], [acquire_decides],
      [slots_are_atomic], [readers_see_whole_records]); on Windows a record being
      replaced is waited for, its publication recognised and its rename request well
      formed ([replacements_are_waited_out], [publications_are_recognised],
      [rename_requests_fit]). One theorem shows a limit: with inode numbers reused a
      guard removes its successor's socket ([a_late_guard_removes_its_successor]).
    - Waits for a process report what happened and end; a candidate that is not
      selected is stopped and reaped; a starting daemon is judged by its probe; the
      warm-up child is reaped; an exit wakes the task registered for it and no
      callback outlives its registration ([process_waits_are_faithful],
      [exits_wake_their_waiter], [zombies_are_recognised], [candidates_end_unless_selected],
      [startup_is_judged_by_a_probe], [warmup_children_are_reaped]). One theorem
      shows a defect: a name cut inside a character hides a zombie
      ([a_cut_name_hides_a_zombie]).
    - A daemon inherits its streams and its readiness channel only, on both
      platforms, and a launch that fails leaves nothing; the readiness pipe delivers
      ([daemons_start_with_their_streams_only], [failed_launches_leave_nothing],
      [windows_daemons_inherit_their_streams_only], [windows_launches_are_whole],
      [user_queries_leave_nothing], [ready_pipe_delivers]). One theorem shows a
      defect: a directory is cut at its first NUL unit
      ([a_directory_is_cut_at_nul]).
    - The comparison of two tokens decides by their access and their generations,
      alike both ways round, and reads nothing outside its buffers
      ([token_comparisons_decide], [token_reads_stay_inside]); an attempt to connect
      keeps its descriptors and its deadline, and a signal reaches one process
      ([attempts_keep_their_promises], [signals_reach_one_process]).
    - Setup reads and writes are bounded and the modes of the two halves fit; an
      overlapped transfer is over when it returns; impersonation and inheritance
      flags are undone; the halves of a pipe share one connection and its deadline; a
      closing pipe is waited for ([established_io_is_bounded],
      [setup_modes_fit], [transfers_are_over], [pipe_halves_agree],
      [pipe_credentials_leave_no_token], [inheritance_comes_back],
      [children_get_no_standard_handle], [a_closing_listener_is_waited_for]). One theorem
      shows a defect: a setup deadline of 50 days never ends
      ([a_long_setup_deadline_never_ends]).

    ** What is not modelled

    The named-pipe listener (serve/windows.rs), one call of the interprocess crate; the
    crate root; the examples, benchmarks and code generator, which hold no logic of
    the library. Display texts, serde derives, declarations of foreign functions, and the
    reflection, views and text formats of the generated messages. Which console
    handlers Windows runs and when it ends the process are the system's; so is the
    five-second limit on each watch event, which is a tokio timeout around a write.
    Panics while a guard is held are not modelled; what its drop does is. Relaxed
    atomics are modelled as one value each, so reorderings between different
    counters are not seen. *)
From Stdlib Require Export Strings.Byte.
From stdpp Require Export base list strings option numbers relations.
From Stdlib Require Export ZArith Lia.

#[global] Open Scope Z_scope.

(** ** Results: Rust's [Result<A, E>] *)

Inductive result (E A : Type) : Type :=
| Ok (a : A)
| Err (e : E).
Arguments Ok {E A} a.
Arguments Err {E A} e.

#[export] Instance result_eq_dec `{EqDecision E, EqDecision A} : EqDecision (result E A).
Proof. solve_decision. Defined.

#[export] Instance result_ret {E} : MRet (result E) := λ A a, Ok a.
#[export] Instance result_bind {E} : MBind (result E) := λ A B f r,
  match r with Ok a => f a | Err e => Err e end.
#[export] Instance result_fmap {E} : FMap (result E) := λ A B f r,
  match r with Ok a => Ok (f a) | Err e => Err e end.

Definition map_err {E F A} (f : E → F) (r : result E A) : result F A :=
  match r with Ok a => Ok a | Err e => Err (f e) end.

Definition ok_or {E A} (o : option A) (e : E) : result E A :=
  match o with Some a => Ok a | None => Err e end.

Definition is_ok {E A} (r : result E A) : bool :=
  match r with Ok _ => true | Err _ => false end.

Lemma result_bind_Ok {E A B} (r : result E A) (f : A → result E B) b :
  (r ≫= f) = Ok b ↔ ∃ a, r = Ok a ∧ f a = Ok b.
Proof. destruct r; simpl; naive_solver. Qed.

Lemma result_bind_Err {E A B} (r : result E A) (f : A → result E B) e :
  (r ≫= f) = Err e ↔ r = Err e ∨ ∃ a, r = Ok a ∧ f a = Err e.
Proof. destruct r; simpl; naive_solver. Qed.

Lemma map_err_Ok {E F A} (f : E → F) (r : result E A) a :
  map_err f r = Ok a ↔ r = Ok a.
Proof. destruct r; simpl; naive_solver. Qed.

Lemma ok_or_Ok {E A} (o : option A) (e : E) a : ok_or o e = Ok a ↔ o = Some a.
Proof. destruct o; simpl; naive_solver. Qed.

(** ** Lists *)

(** Consecutive repetitions removed, as [Vec::dedup]. *)
Fixpoint dedup `{EqDecision A} (l : list A) : list A :=
  match l with
  | x :: (y :: _) as t => if decide (x = y) then dedup t else x :: dedup t
  | _ => l
  end.

Lemma last_dedup `{EqDecision A} (l : list A) : last (dedup l) = last l.
Proof.
  induction l as [|x [|y t] IH]; [done..|].
  change (last (if decide (x = y) then dedup (y :: t) else x :: dedup (y :: t)) = last (y :: t)).
  case_decide; [done|]. rewrite <- IH.
  destruct (dedup (y :: t)) eqn:E; [|done].
  rewrite last_cons in IH. by destruct (last t).
Qed.

Lemma dedup_snoc `{EqDecision A} (l : list A) (x : A) :
  dedup (l ++ [x]) = if decide (last l = Some x) then dedup l else dedup l ++ [x].
Proof.
  induction l as [|y [|z t] IH].
  - done.
  - simpl. repeat case_decide; congruence.
  - change (dedup ((y :: z :: t) ++ [x])) with
      (if decide (y = z) then dedup ((z :: t) ++ [x]) else y :: dedup ((z :: t) ++ [x])).
    rewrite IH. change (last (y :: z :: t)) with (last (z :: t)).
    change (dedup (y :: z :: t)) with (if decide (y = z) then dedup (z :: t) else y :: dedup (z :: t)).
    repeat case_decide; done.
Qed.

Lemma dedup_nil `{EqDecision A} (l : list A) : dedup l = [] → l = [].
Proof. intros E. apply last_None. by rewrite <- last_dedup, E. Qed.

Lemma dedup_singleton `{EqDecision A} (l : list A) (x y : A) :
  dedup l = [x] → y ∈ l → y = x.
Proof.
  induction l as [|a [|b t] IH]; [set_solver..|].
  change (dedup (a :: b :: t)) with (if decide (a = b) then dedup (b :: t) else a :: dedup (b :: t)).
  case_decide as Hab; [subst; set_solver|].
  intros Heq. assert (dedup (b :: t) = []) as E by congruence.
  by apply dedup_nil in E.
Qed.

(** ** I/O errors *)

(** The kinds of [std::io::ErrorKind] the crate names; any other kind is [OtherKind]. *)
Inductive ErrorKind : Type :=
| NotFound | PermissionDenied | ConnectionRefused | ConnectionReset
| ConnectionAborted | NotConnected | AddrInUse | BrokenPipe | AlreadyExists | WouldBlock
| InvalidInput | InvalidData | TimedOut | WriteZero | Interrupted | Unsupported
| UnexpectedEof | IsADirectory | ExecutableFileBusy | Other
| OtherKind (n : nat).

#[export] Instance ErrorKind_eq_dec : EqDecision ErrorKind.
Proof. solve_decision. Defined.

(** [std::io::Error]: its kind, the OS error number if it came from the OS, and its text. *)
Record io_error : Type := IoError {
  kind : ErrorKind;
  raw_os_error : option Z;
  message : string;
}.

#[export] Instance io_error_eq_dec : EqDecision io_error.
Proof. solve_decision. Defined.

(** [io::Error::new], [io::Error::from(kind)], [io::Error::other]. *)
Definition error_new (k : ErrorKind) (text : string) : io_error := IoError k None text.
Definition error_of_kind (k : ErrorKind) : io_error := IoError k None "".
Definition error_other (text : string) : io_error := error_new Other text.

Abbreviation io_result := (result io_error).

(** ** Machine integers *)

Definition u32_max : Z := 2 ^ 32 - 1.
Definition u64_max : Z := 2 ^ 64 - 1.
(** [usize] on the 64-bit targets the crate supports. *)
Definition usize_max : Z := 2 ^ 64 - 1.

Definition is_u16 (n : Z) : Prop := 0 ≤ n < 2 ^ 16.
Definition is_u32 (n : Z) : Prop := 0 ≤ n ≤ u32_max.
Definition is_u64 (n : Z) : Prop := 0 ≤ n ≤ u64_max.

(** Wrap-around of a 64-bit operation, as in a release build. *)
Definition wrap64 (n : Z) : Z := n mod 2 ^ 64.

Definition saturating_add (a b : Z) : Z := Z.min (a + b) u64_max.
Definition saturating_mul (a b : Z) : Z := Z.min (a * b) u64_max.
Definition checked_add (a b : Z) : option Z :=
  if a + b <=? u64_max then Some (a + b) else None.

Lemma wrap64_small n : is_u64 n → wrap64 n = n.
Proof. unfold is_u64, u64_max, wrap64. intros. apply Z.mod_small. lia. Qed.

Lemma wrap64_range n : is_u64 (wrap64 n).
Proof. unfold is_u64, wrap64, u64_max. pose proof (Z.mod_pos_bound n (2 ^ 64)). lia. Qed.

(** Increments of a wrapped counter wrap once. *)
Lemma wrap64_succ n : wrap64 (wrap64 n + 1) = wrap64 (n + 1).
Proof. unfold wrap64. by rewrite Zplus_mod_idemp_l. Qed.

Lemma checked_add_Some a b c :
  checked_add a b = Some c ↔ c = a + b ∧ a + b ≤ u64_max.
Proof. unfold checked_add. destruct (Z.leb_spec (a + b) u64_max); naive_solver lia. Qed.

Lemma checked_add_None a b : checked_add a b = None ↔ u64_max < a + b.
Proof. unfold checked_add. destruct (Z.leb_spec (a + b) u64_max); naive_solver lia. Qed.

(** ** Time

    [Duration] and [Instant] are whole nanoseconds. A [Duration] is at most
    [u64::MAX] seconds and 999999999 nanoseconds. *)

Definition DURATION_MAX : Z := u64_max * 1000000000 + 999999999.
Definition is_duration (d : Z) : Prop := 0 ≤ d ≤ DURATION_MAX.

Definition from_millis (n : Z) : Z := n * 1000000.
Definition from_secs (n : Z) : Z := n * 1000000000.

(** [Duration::saturating_add], [Duration::saturating_sub] and
    [Instant::saturating_duration_since]. *)
Definition dur_saturating_add (a b : Z) : Z := Z.min (a + b) DURATION_MAX.
Definition saturating_sub (a b : Z) : Z := Z.max 0 (a - b).

(** What the code uses of the system: reading the monotonic clock and sleeping
    for a duration ([std::thread::sleep], [tokio::time::sleep]) or until an
    instant ([tokio::time::sleep_until]).
    The world [W] is everything outside the modelled code; every call may move
    it on. *)
Class Clock (W : Type) : Type := {
  now : W → Z * W;
  sleep : Z → W → W;
  sleep_until : Z → W → W;
}.

(** What the standard library documents of both: time never runs backwards, and
    a sleep lasts at least as long as asked. [time] is the true time of a world,
    which no code can read except through [now]. *)
Class ClockLaws (W : Type) `{Clock W} : Type := {
  time : W → Z;
  now_after w : time w ≤ (now w).1;
  now_before w : (now w).1 ≤ time (now w).2;
  sleep_lasts d w : time w + Z.max 0 d ≤ time (sleep d w);
  sleep_until_lasts t w : Z.max (time w) t ≤ time (sleep_until t w);
}.

(** [deadline.is_some_and(|limit| Instant::now() >= limit)]. The clock is read
    only when there is a deadline. *)
Definition expired `{Clock W} (deadline : option Z) (w : W) : bool * W :=
  match deadline with
  | None => (false, w)
  | Some limit => let '(t, w) := now w in (limit <=? t, w)
  end.

Section clock_lemmas.
Context `{ClockLaws W}.

Lemma now_mono (w : W) t w' : now w = (t, w') → time w ≤ t ≤ time w'.
Proof. intros E. pose proof (now_after w). pose proof (now_before w). rewrite E in *. simpl in *; lia. Qed.

Lemma sleep_mono (w : W) d : time w ≤ time (sleep d w).
Proof. pose proof (sleep_lasts d w). lia. Qed.

Lemma expired_mono d (w : W) b w' : expired d w = (b, w') → time w ≤ time w'.
Proof.
  destruct d as [limit|]; simpl; [|naive_solver lia].
  destruct (now w) as [t w1] eqn:E. apply now_mono in E. naive_solver lia.
Qed.

(** A deadline that has not been seen to pass had not passed before the check. *)
Lemma expired_false limit (w : W) w' :
  expired (Some limit) w = (false, w') → time w < limit.
Proof.
  simpl. destruct (now w) as [t w1] eqn:E. apply now_mono in E.
  intros [= Hle ->]. apply Z.leb_gt in Hle. lia.
Qed.

Lemma expired_true limit (w : W) w' :
  expired (Some limit) w = (true, w') → limit ≤ time w'.
Proof.
  simpl. destruct (now w) as [t w1] eqn:E. apply now_mono in E.
  intros [= Hle ->]. apply Z.leb_le in Hle. lia.
Qed.
End clock_lemmas.

(** Intervals of length [step] left until [limit]: the passes a loop can still
    make that sleeps [step], or up to [limit], each time. *)
Definition polls `{ClockLaws W} (step limit : Z) (w : W) : nat :=
  Z.to_nat ((Z.max 0 (limit - time w) + step - 1) / step).

Lemma ceil_lt step a b :
  0 < step → 0 ≤ a → 0 < b → a + step ≤ b ∨ a = 0 →
  (a + step - 1) / step < (b + step - 1) / step.
Proof.
  intros Hs Ha Hb [Hab|Hab].
  - apply Z.lt_le_trans with ((a + step - 1) / step + 1); [lia|].
    rewrite <- Z.div_add by lia. apply Z.div_le_mono; lia.
  - rewrite (Z.div_small (a + step - 1)) by lia.
    apply Z.lt_le_trans with 1; [lia|]. apply Z.div_le_lower_bound; lia.
Qed.

Lemma polls_wait `{ClockLaws W} step limit (w w' : W) :
  0 < step → time w < limit → time w ≤ time w' →
  time w + step ≤ time w' ∨ limit ≤ time w' →
  (polls step limit w' < polls step limit w)%nat.
Proof.
  intros Hs Hl Ht Hw. unfold polls. apply Z2Nat.inj_lt; [apply Z.div_pos; lia..|].
  apply ceil_lt; lia.
Qed.

Lemma polls_mono `{ClockLaws W} step limit limit' (w w' : W) :
  0 < step → limit' ≤ limit → time w ≤ time w' →
  (polls step limit' w' ≤ polls step limit w)%nat.
Proof.
  intros Hs Hl Ht. unfold polls. apply Z2Nat.inj_le; [apply Z.div_pos; lia..|].
  apply Z.div_le_mono; lia.
Qed.

(** A world that also keeps a log. Instrumenting the environment with it leaves
    the modelled code unchanged and makes its calls observable. *)
#[export] Instance logged_clock `{Clock W} {L : Type} : Clock (W * L) := {
  now w := let '(t, w') := now w.1 in (t, (w', w.2));
  sleep d w := (sleep d w.1, w.2);
  sleep_until t w := (sleep_until t w.1, w.2);
}.

#[export, refine] Instance logged_clock_laws `{ClockLaws W} {L : Type} : ClockLaws (W * L) := {
  time w := time w.1;
}.
Proof.
  - intros [w l]. simpl. pose proof (now_after w). by destruct (now w).
  - intros [w l]. simpl. pose proof (now_before w). by destruct (now w).
  - intros d [w l]. apply sleep_lasts.
  - intros t [w l]. apply sleep_until_lasts.
Defined.

Lemma now_logged `{Clock W} {L} (w : W * L) t w' : now w = (t, w') → w'.2 = w.2.
Proof. destruct w as [w l]. simpl. destruct (now w). naive_solver. Qed.

Lemma expired_logged `{Clock W} {L} d (w : W) (l : L) b w' :
  expired d (w, l) = (b, w') → w'.2 = l.
Proof.
  destruct d; simpl; [|naive_solver]. destruct (now w). naive_solver.
Qed.

(** A concrete world: a clock, and a script of the answers the environment
    still has to give. Reading the clock takes one nanosecond. *)
Record Sim (A : Type) : Type := MkSim { sim_time : Z; sim_script : list A }.
Arguments MkSim {A} _ _.
Arguments sim_time {A} _.
Arguments sim_script {A} _.

#[export] Instance sim_clock {A} : Clock (Sim A) := {
  now w := (sim_time w, MkSim (sim_time w + 1) (sim_script w));
  sleep d w := MkSim (sim_time w + Z.max 0 d) (sim_script w);
  sleep_until t w := MkSim (Z.max (sim_time w) t) (sim_script w);
}.

#[export, refine] Instance sim_clock_laws {A} : ClockLaws (Sim A) := {
  time := sim_time;
}.
Proof. all: intros; simpl; lia. Defined.

(** The next scripted answer, or [d] when the script is used up. *)
Definition next_answer {A} (d : A) (w : Sim A) : A * Sim A :=
  match sim_script w with
  | [] => (d, MkSim (sim_time w + 1) [])
  | a :: l => (a, MkSim (sim_time w + 1) l)
  end.

Lemma next_answer_time {A} (d : A) w : time w ≤ time (next_answer d w).2.
Proof. unfold next_answer. destruct (sim_script w); simpl; lia. Qed.

(** ** Bytes and text *)

(** A Rust [str] or [[u8]] as its bytes. *)
Abbreviation bytes := (list byte).
#[export] Instance byte_eq_dec : EqDecision byte := Byte.byte_eq_dec.

Definition bs (s : string) : bytes := String.list_byte_of_string s.
Definition byte_val (b : byte) : Z := Z.of_N (Byte.to_N b).

Lemma byte_val_range b : 0 ≤ byte_val b < 256.
Proof. unfold byte_val. pose proof (Byte.to_N_bounded b). lia. Qed.

Lemma byte_val_inj b c : byte_val b = byte_val c → b = c.
Proof.
  unfold byte_val. intros E%N2Z.inj.
  apply (f_equal Byte.of_N) in E. rewrite !Byte.of_to_N in E. congruence.
Qed.

(** [n as u8] for [n] that fits. *)
Definition byte_of (n : Z) : byte := default x00 (Byte.of_N (Z.to_N n)).

Lemma byte_val_byte_of n : 0 ≤ n < 256 → byte_val (byte_of n) = n.
Proof.
  intros Hn. unfold byte_of, byte_val. destruct (Byte.of_N (Z.to_N n)) as [b|] eqn:E; simpl.
  - apply Byte.to_of_N in E. lia.
  - apply Byte.of_N_None_iff in E. lia.
Qed.

Lemma byte_of_byte_val b : byte_of (byte_val b) = b.
Proof. apply byte_val_inj, byte_val_byte_of, byte_val_range. Qed.

(** [b.is_ascii_lowercase()], [b.is_ascii_digit()], [b.is_ascii_alphanumeric()]. *)
Definition is_ascii_lowercase (b : byte) : bool := (97 <=? byte_val b) && (byte_val b <=? 122).
Definition is_ascii_uppercase (b : byte) : bool := (65 <=? byte_val b) && (byte_val b <=? 90).
Definition is_ascii_digit (b : byte) : bool := (48 <=? byte_val b) && (byte_val b <=? 57).
Definition is_ascii_alphanumeric (b : byte) : bool :=
  is_ascii_lowercase b || is_ascii_uppercase b || is_ascii_digit b.

(** [slice.starts_with(prefix)] and [slice.strip_prefix(prefix)]. *)
Fixpoint strip_prefix `{EqDecision A} (prefix l : list A) : option (list A) :=
  match prefix, l with
  | [], _ => Some l
  | p :: ps, x :: xs => if decide (p = x) then strip_prefix ps xs else None
  | _ :: _, [] => None
  end.

Lemma strip_prefix_Some `{EqDecision A} (prefix l rest : list A) :
  strip_prefix prefix l = Some rest ↔ l = prefix ++ rest.
Proof.
  revert l. induction prefix as [|p ps IH]; intros l; simpl; [naive_solver|].
  destruct l as [|x xs]; [naive_solver|].
  case_decide as Heq; [subst; rewrite IH; naive_solver|naive_solver].
Qed.

(** ** Automation *)

(** Splits the matches and conditionals in the goal and hypotheses, closing what
    computation closes. *)
Ltac split_step :=
  match goal with
  | H : context [match ?x with _ => _ end] |- _ =>
      first [is_var x; destruct x | destruct x eqn:?]; simplify_eq/=
  | |- context [match ?x with _ => _ end] =>
      first [is_var x; destruct x | destruct x eqn:?]; simplify_eq/=
  end.
Ltac split_all := repeat split_step.

(** Turns the boolean comparisons of the code into propositions. *)
Ltac bools :=
  repeat match goal with
  | H : (_ && _) = true |- _ => apply andb_true_iff in H as [? ?]
  | H : (_ && _) = false |- _ => apply andb_false_iff in H
  | H : (_ || _) = true |- _ => apply orb_true_iff in H
  | H : (_ || _) = false |- _ => apply orb_false_iff in H as [? ?]
  | H : negb _ = true |- _ => apply negb_true_iff in H
  | H : negb _ = false |- _ => apply negb_false_iff in H
  | H : (_ <=? _) = true |- _ => apply Z.leb_le in H
  | H : (_ <=? _) = false |- _ => apply Z.leb_gt in H
  | H : (_ <? _) = true |- _ => apply Z.ltb_lt in H
  | H : (_ <? _) = false |- _ => apply Z.ltb_ge in H
  | H : (_ =? _) = true |- _ => apply Z.eqb_eq in H
  | H : (_ =? _) = false |- _ => apply Z.eqb_neq in H
  | H : bool_decide _ = true |- _ => apply bool_decide_eq_true in H
  | H : bool_decide _ = false |- _ => apply bool_decide_eq_false in H
  end.

(** A counter that stays in range does not wrap. *)
Ltac in_range := rewrite wrap64_small; unfold is_u64, u64_max, usize_max in *; lia.

(** Facts that hold without looking: ranges, and that time moves forward. *)
Create HintDb daemon discriminated.
#[export] Hint Resolve wrap64_range byte_val_range next_answer_time sleep_mono : daemon.
Create Rewrite HintDb daemon.
#[export] Hint Rewrite wrap64_succ Z.add_0_r : daemon.
