(* ===== verification/Readiness.v ===== *)
(** * Deadline-bounded probes (src/readiness.rs) *)
From S2P Require Import Prelude.

(** Interval between unsuccessful probes. *)
Definition POLL_INTERVAL : Z := from_millis 25.

Section wait.
Context {W P E : Type} `{Clock W}.

(** One pass of [wait_until]: an answer, or [None] to go round again. *)
Definition wait_pass (probe : Z → W → result E (option P) * W) (deadline : Z) (w : W) :
    option (result E (option P)) * W :=
  let '(late, w) := expired (Some deadline) w in
  if late then (Some (Ok None), w) else
  let '(proof, w) := probe deadline w in
  match proof with
  | Err e => (Some (Err e), w)
  | Ok proof =>
      let '(late, w) := expired (Some deadline) w in
      if late then (Some (Ok None), w) else
      if decide (is_Some proof) then (Some (Ok proof), w) else
      let '(t, w) := now w in
      (None, sleep (Z.min POLL_INTERVAL (saturating_sub deadline t)) w)
  end.

(** One pass of [wait_until_async]; the probe runs under [timeout_at], which
    answers [None] when it elapsed first. *)
Definition wait_pass_async (probe_until : Z → W → option (result E (option P)) * W)
    (deadline : Z) (w : W) : option (result E (option P)) * W :=
  let '(late, w) := expired (Some deadline) w in
  if late then (Some (Ok None), w) else
  let '(proof, w) := probe_until deadline w in
  match proof with
  | None => (Some (Ok None), w)
  | Some (Err e) => (Some (Err e), w)
  | Some (Ok proof) =>
      let '(late, w) := expired (Some deadline) w in
      if late then (Some (Ok None), w) else
      if decide (is_Some proof) then (Some (Ok proof), w) else
      let '(t, w) := now w in
      (None, sleep_until (Z.min (t + POLL_INTERVAL) deadline) w)
  end.

Fixpoint passes (pass : W → option (result E (option P)) * W) (fuel : nat) (w : W) :
    option (result E (option P)) * W :=
  match fuel with
  | O => (None, w)
  | S fuel =>
      let '(r, w) := pass w in
      match r with
      | Some r => (Some r, w)
      | None => passes pass fuel w
      end
  end.

Definition wait_until (probe : Z → W → result E (option P) * W) (fuel : nat)
    (deadline : Z) (w : W) : option (result E (option P)) * W :=
  passes (wait_pass probe deadline) fuel w.

Definition wait_until_async (probe_until : Z → W → option (result E (option P)) * W)
    (fuel : nat) (deadline : Z) (w : W) : option (result E (option P)) * W :=
  passes (wait_pass_async probe_until deadline) fuel w.
End wait.

(** ** The verifier is polled within its budget *)

Section bounded.
Context {W P E : Type} `{ClockLaws W}.
Context (probe : Z → W → result E (option P) * W).
Hypothesis probe_time : ∀ u w, time w ≤ time (probe u w).2.

(** A pass that goes round again brings the deadline nearer by an interval, or
    reaches it. *)
Lemma wait_pass_decreases deadline w w' :
  wait_pass probe deadline w = (None, w') →
  (polls POLL_INTERVAL deadline w' < polls POLL_INTERVAL deadline w)%nat.
Proof.
  unfold wait_pass. destruct (expired _ w) as [late w1] eqn:He1. destruct late; [done|].
  pose proof (expired_false _ _ _ He1). apply expired_mono in He1.
  pose proof (probe_time deadline w1) as Hp. destruct (probe deadline w1) as [r w2].
  simpl in Hp. destruct r as [proof|]; [|done].
  destruct (expired _ w2) as [late w3] eqn:He2. destruct late; [done|].
  apply expired_mono in He2. case_decide; [done|].
  destruct (now w3) as [t w4] eqn:Hn. apply now_mono in Hn. intros [= <-].
  pose proof (sleep_lasts (Z.min POLL_INTERVAL (saturating_sub deadline t)) w4).
  unfold saturating_sub in *. apply polls_wait; unfold POLL_INTERVAL, from_millis in *; lia.
Qed.

(** An answer is an error of the probe, its proof before the deadline, or
    nothing once the deadline has passed. *)
Definition answer_ok (deadline : Z) (r : result E (option P)) (w' : W) : Prop :=
  match r with
  | Err e => ∃ w1, (probe deadline w1).1 = Err e
  | Ok (Some p) => ∃ w1, (probe deadline w1).1 = Ok (Some p) ∧ time (probe deadline w1).2 < deadline
  | Ok None => deadline ≤ time w'
  end.

Lemma wait_pass_answer deadline w r w' :
  wait_pass probe deadline w = (Some r, w') → answer_ok deadline r w'.
Proof.
  unfold wait_pass. destruct (expired _ w) as [late w1] eqn:He1. destruct late.
  { intros [= <- <-]. by apply expired_true in He1. }
  destruct (probe deadline w1) as [a w2] eqn:Hp. destruct a as [proof|e].
  - destruct (expired _ w2) as [late w3] eqn:He2. destruct late.
    { intros [= <- <-]. by apply expired_true in He2. }
    apply expired_false in He2. case_decide as Hs.
    + intros [= <- <-]. destruct Hs as [p ->]. exists w1. by rewrite Hp.
    + by destruct (now w3).
  - intros [= <- <-]. exists w1. by rewrite Hp.
Qed.

(** [wait_until] returns after at most one pass per poll interval left, and
    its answer is the probe's error, a proof obtained before the deadline, or
    nothing once the deadline has passed. *)
Theorem wait_until_answers deadline w :
  ∃ r w', wait_until probe (S (polls POLL_INTERVAL deadline w)) deadline w = (Some r, w') ∧
    answer_ok deadline r w'.
Proof.
  unfold wait_until. remember (polls POLL_INTERVAL deadline w) as n eqn:Hn.
  assert (polls POLL_INTERVAL deadline w < S n)%nat as Hlt by lia. clear Hn.
  revert w Hlt. generalize (S n) as fuel. induction fuel as [|fuel IH]; intros w Hlt; [lia|].
  simpl. destruct (wait_pass probe deadline w) as [[r|] w1] eqn:Hp.
  - do 2 eexists. split; [done|]. by eapply wait_pass_answer.
  - apply wait_pass_decreases in Hp. apply IH. lia.
Qed.
End bounded.

Definition scripted_probe (deadline : Z) (w : Sim (result string (option nat))) :
    result string (option nat) * Sim (result string (option nat)) := next_answer (Ok None) w.

Definition second_try : Sim (result string (option nat)) :=
  MkSim 0 [Ok None; Ok (Some 7%nat)].

Lemma wait_until_answers_witness :
  ∃ r w', wait_until scripted_probe
      (S (polls POLL_INTERVAL (from_millis 100) second_try)) (from_millis 100) second_try
      = (Some r, w') ∧
    answer_ok scripted_probe (from_millis 100) r w'.
Proof.
  apply (wait_until_answers scripted_probe). intros u w. unfold scripted_probe. auto with daemon.
Defined.
