(* ===== verification/Replacement.v ===== *)
(** * Replacement ordering (src/replacement.rs)

    The transition machine that orders one replacement transaction, and the
    blocking and async loops that drive it. *)
From S2P Require Import Prelude Readiness.

Module Mode.
Inductive t := Overlap | Exclusive.
#[global] Instance eq_dec : EqDecision t.
Proof. solve_decision. Defined.
End Mode.

Module Step.
Inductive t := Recheck | Prepare | Drain | Start | Verify | Validate | Commit | Retire.
#[global] Instance eq_dec : EqDecision t.
Proof. solve_decision. Defined.
End Step.

Module Progress.
Inductive t := Done | Pending | Unchanged.
#[global] Instance eq_dec : EqDecision t.
Proof. solve_decision. Defined.
End Progress.

Module Outcome.
Inductive t := Unchanged | Complete | RetirementPending.
#[global] Instance eq_dec : EqDecision t.
Proof. solve_decision. Defined.
End Outcome.

Module Reason.
Inductive t (E : Type) := Deadline | Adapter (e : E) | InvalidProgress.
Arguments Deadline {E}.
Arguments Adapter {E} e.
Arguments InvalidProgress {E}.
End Reason.

Module Failure.
Record t (E : Type) := mk { step : Step.t; committed : bool; reason : Reason.t E }.
Arguments mk {E} _ _ _.
Arguments step {E} _.
Arguments committed {E} _.
Arguments reason {E} _.
End Failure.

(** Setup budget, and the drain budget if there is one. *)
Module Budgets.
Record t := mk { setup : Z; drain : option Z }.
End Budgets.

Import Step.

Module Machine.
Record t := mk { mode : Mode.t; step : Step.t; committed : bool }.

Definition new (m : Mode.t) : t := mk m Recheck false.

Definition failure {E} (m : t) (r : Reason.t E) : Failure.t E :=
  Failure.mk (step m) (committed m) r.

(** The first match of [advance]: an answer that ends or repeats the step, or
    [None] to go on to the next step. *)
Definition early {E} (m : t) (p : Progress.t) :
    option (result (Failure.t E) (option Outcome.t)) :=
  match step m, p with
  | Recheck, Progress.Unchanged => Some (Ok (Some Outcome.Unchanged))
  | (Recheck | Verify | Drain), Progress.Pending => Some (Ok None)
  | Retire, Progress.Pending => Some (Ok (Some Outcome.RetirementPending))
  | _, Progress.Done => None
  | _, _ => Some (Err (failure m Reason.InvalidProgress))
  end.

(** [advance]: the machine after the answer, and what the answer means. *)
Definition advance {E} (m : t) (p : Progress.t) :
    t * result (Failure.t E) (option Outcome.t) :=
  match early m p with
  | Some r => (m, r)
  | None =>
      let go s := (mk (mode m) s (committed m), Ok None) in
      match step m with
      | Recheck => go Prepare
      | Prepare => if decide (mode m = Mode.Exclusive) then go Drain else go Start
      | Drain => go Start
      | Start => go Verify
      | Verify => go Validate
      | Validate => go Commit
      | Commit =>
          if decide (mode m = Mode.Exclusive)
          then (mk (mode m) Commit true, Ok (Some Outcome.Complete))
          else (mk (mode m) Retire true, Ok None)
      | Retire => (m, Ok (Some Outcome.Complete))
      end
  end.
End Machine.

(** ** The loops *)

Section loops.
Context {W E : Type} `{Clock W}.
(** [driver.perform], and under [tokio::time::timeout_at]: [None] when the
    timeout elapsed first. *)
Context (perform : Step.t * option Z → W → result E Progress.t * W).
Context (perform_until : Z → Step.t * option Z → W → option (result E Progress.t) * W).
(** [prefault_all(driver.warmup_paths())], whose errors are discarded. *)
Context (prefault : W → W).
Context (budgets : Budgets.t).

(** What one pass of the loop decides: return, or go round again. *)
Definition verdict : Type := result (Failure.t E) Outcome.t + (Machine.t * option Z).

(** The pause of the blocking loop before a step is tried again. *)
Definition pause (deadline : option Z) (w : W) : W :=
  match deadline with
  | None => sleep POLL_INTERVAL w
  | Some limit =>
      let '(t, w) := now w in
      sleep (Z.min POLL_INTERVAL (saturating_sub limit t)) w
  end.

(** The pause of the async loop. *)
Definition pause_async (deadline : option Z) (w : W) : W :=
  let '(t, w) := now w in
  let wake := t + POLL_INTERVAL in
  sleep_until (match deadline with None => wake | Some limit => Z.min limit wake end) w.

(** The deadline of the step the machine moved to. *)
Definition next_deadline (from to : Step.t) (deadline : option Z) (w : W) : option Z * W :=
  if decide (to = Drain ∨ to = Retire) then
    match Budgets.drain budgets with
    | None => (None, w)
    | Some budget => let '(t, w) := now w in (Some (t + budget), w)
    end
  else if decide (from = Drain) then
    let '(t, w) := now w in (Some (t + Budgets.setup budgets), w)
  else (deadline, w).

(** What both loops do with the driver's answer. *)
Definition after_progress (wait : option Z → W → W) (m : Machine.t)
    (deadline : option Z) (p : Progress.t) (w : W) : verdict * W :=
  let '(m', r) := Machine.advance m p in
  match r with
  | Err f => (inl (Err f), w)
  | Ok outcome =>
      let w := if Machine.committed m' && negb (Machine.committed m)
               then prefault w else w in
      match outcome with
      | Some o => (inl (Ok o), w)
      | None =>
          if decide (Machine.step m' = Machine.step m) then
            (inr (m', deadline), wait deadline w)
          else
            let '(d, w) := next_deadline (Machine.step m) (Machine.step m') deadline w in
            (inr (m', d), w)
      end
  end.

(** [step != Step::Commit && deadline.is_some_and(|limit| now >= limit)]. *)
Definition late_answer (s : Step.t) (deadline : option Z) (w : W) : bool * W :=
  if decide (s = Commit) then (false, w) else expired deadline w.

(** One pass of the loop of [run]. *)
Definition iteration (m : Machine.t) (deadline : option Z) (w : W) : verdict * W :=
  let '(late, w) := expired deadline w in
  if late then (inl (Err (Machine.failure m Reason.Deadline)), w) else
  let '(answer, w) := perform (Machine.step m, deadline) w in
  match answer with
  | Err e => (inl (Err (Machine.failure m (Reason.Adapter e))), w)
  | Ok p =>
      let '(late, w) := late_answer (Machine.step m) deadline w in
      if late then (inl (Err (Machine.failure m Reason.Deadline)), w) else
      after_progress pause m deadline p w
  end.

(** One pass of the loop of [run_async]. *)
Definition iteration_async (m : Machine.t) (deadline : option Z) (w : W) : verdict * W :=
  let '(late, w) := expired deadline w in
  if late then (inl (Err (Machine.failure m Reason.Deadline)), w) else
  let s := Machine.step m in
  let '(answer, w) :=
    match deadline with
    | Some limit =>
        if decide (s = Commit)
        then let '(r, w) := perform (s, deadline) w in (Some r, w)
        else perform_until limit (s, deadline) w
    | None => let '(r, w) := perform (s, deadline) w in (Some r, w)
    end in
  match answer with
  | None => (inl (Err (Machine.failure m Reason.Deadline)), w)
  | Some (Err e) => (inl (Err (Machine.failure m (Reason.Adapter e))), w)
  | Some (Ok p) =>
      let '(late, w) := late_answer s deadline w in
      if late then (inl (Err (Machine.failure m Reason.Deadline)), w) else
      after_progress pause_async m deadline p w
  end.

(** [loop { ... }]. [None]: the fuel ran out before the loop returned. *)
Fixpoint loop (body : Machine.t → option Z → W → verdict * W) (fuel : nat)
    (m : Machine.t) (deadline : option Z) (w : W) :
    option (result (Failure.t E) Outcome.t) * W :=
  match fuel with
  | O => (None, w)
  | S fuel =>
      let '(v, w) := body m deadline w in
      match v with
      | inl r => (Some r, w)
      | inr (m, deadline) => loop body fuel m deadline w
      end
  end.

Definition run (fuel : nat) (mode : Mode.t) (w : W) :
    option (result (Failure.t E) Outcome.t) * W :=
  let '(t, w) := now w in
  loop iteration fuel (Machine.new mode) (Some (t + Budgets.setup budgets)) w.

Definition run_async (fuel : nat) (mode : Mode.t) (w : W) :
    option (result (Failure.t E) Outcome.t) * W :=
  let '(t, w) := now w in
  loop iteration_async fuel (Machine.new mode) (Some (t + Budgets.setup budgets)) w.
End loops.

(** ** What a replacement promises *)

(** The steps of a replacement in each mode, in order. *)
Definition plan (mode : Mode.t) : list Step.t :=
  match mode with
  | Mode.Exclusive => [Recheck; Prepare; Drain; Start; Verify; Validate; Commit]
  | Mode.Overlap => [Recheck; Prepare; Start; Verify; Validate; Commit; Retire]
  end.

(** The steps that precede [s]. *)
Definition before (mode : Mode.t) (s : Step.t) : list Step.t :=
  (fix go (l : list Step.t) := match l with
   | [] => []
   | x :: l => if decide (x = s) then [] else x :: go l
   end) (plan mode).

Section promise.
Context {E : Type}.

(** One call of the driver: the step and its answer, [None] for a call that a
    timeout cut short. *)
Definition call : Type := Step.t * option (result E Progress.t).
Definition completed (s : Step.t) (log : list call) : Prop :=
  (s, Some (Ok Progress.Done)) ∈ log.

(** What the calls a replacement made say about the result it reports. *)
Definition justified (mode : Mode.t) (r : result (Failure.t E) Outcome.t)
    (log : list call) : Prop :=
  match r with
  | Ok Outcome.Unchanged =>
      (∀ c, c ∈ log → c.1 = Recheck) ∧
      last log = Some (Recheck, Some (Ok Progress.Unchanged))
  | Ok Outcome.Complete =>
      dedup log.*1 = plan mode ∧ ∀ s, s ∈ plan mode → completed s log
  | Ok Outcome.RetirementPending =>
      mode = Mode.Overlap ∧ dedup log.*1 = plan mode ∧
      (∀ s, s ∈ plan mode → s ≠ Retire → completed s log) ∧
      last log = Some (Retire, Some (Ok Progress.Pending))
  | Err f =>
      (Failure.committed f = true ↔ completed Commit log) ∧
      (∀ s, s ∈ before mode (Failure.step f) → completed s log)
  end.

(** A machine between two calls, and the calls that brought it there. *)
Record tracks (mode : Mode.t) (m : Machine.t) (log : list call) : Prop := {
  tracks_mode : Machine.mode m = mode;
  tracks_step : Machine.step m ∈ plan mode;
  tracks_committed : Machine.committed m = bool_decide (Machine.step m = Retire);
  tracks_order :
    dedup log.*1 = before mode (Machine.step m) ∨
    dedup log.*1 = before mode (Machine.step m) ++ [Machine.step m];
  tracks_done s : completed s log ↔ s ∈ before mode (Machine.step m);
}.

(** Calling the current step once more. *)
Lemma tracks_call mode m log a :
  tracks mode m log →
  dedup (log ++ [(Machine.step m, a)]).*1 =
    before mode (Machine.step m) ++ [Machine.step m].
Proof.
  intros [_ Hs _ Ho _]. rewrite fmap_app; simpl. rewrite dedup_snoc.
  assert (Hl := last_dedup log.*1).
  destruct Ho as [Ho|Ho]; rewrite Ho in *; revert Hl.
  - intros <-. rewrite decide_False; [done|].
    destruct mode, m as [? [] ?]; simpl in *; set_solver.
  - rewrite last_snoc. intros <-. by rewrite decide_True.
Qed.

Lemma completed_snoc s s' a (log : list call) :
  completed s (log ++ [(s', a)]) ↔ completed s log ∨ (s = s' ∧ a = Some (Ok Progress.Done)).
Proof. unfold completed. rewrite elem_of_app, list_elem_of_singleton. naive_solver. Qed.

Lemma before_plan mode s : s ∈ plan mode → before mode s ++ [s] `prefix_of` plan mode.
Proof. destruct mode, s; intros Hs; simpl; solve [set_solver | eexists; reflexivity]. Qed.

(** A call whose answer is not accepted ends the replacement where it stands. *)
Lemma tracks_failure mode m log a (r : Reason.t E) :
  tracks mode m log → (a = Some (Ok Progress.Done) → Machine.step m ≠ Commit) →
  justified mode (Err (Machine.failure m r)) (log ++ [(Machine.step m, a)]).
Proof.
  intros [Hm Hs Hc _ Hd] Ha. simpl. rewrite Hc.
  setoid_rewrite completed_snoc. setoid_rewrite Hd. split; [|naive_solver].
  rewrite bool_decide_eq_true.
  destruct mode, m as [? [] ?]; simpl in *; set_solver.
Qed.
End promise.

(** ** The loops keep the promise *)

Section order.
Context {W E : Type} `{Clock W}.
Context (perform : Step.t * option Z → W → result E Progress.t * W).
Context (prefault : W → W) (budgets : Budgets.t).

(** The environment with every call of the driver recorded. *)
Definition log_perform (q : Step.t * option Z) (w : W * list call) :
    result E Progress.t * (W * list call) :=
  let '(a, w') := perform q w.1 in (a, (w', w.2 ++ [(q.1, Some a)])).
Definition log_prefault (w : W * list (@call E)) : W * list (@call E) := (prefault w.1, w.2).

(** What holds of a pass that started with [tracks]. *)
Definition pass_ok (mode : Mode.t) (v : @verdict E) (log : list call) : Prop :=
  dedup log.*1 `prefix_of` plan mode ∧
  match v with
  | inl r => justified mode r log
  | inr (m, _) => tracks mode m log
  end.

Lemma tracks_prefix mode m (log : list (@call E)) :
  tracks mode m log → dedup log.*1 `prefix_of` plan mode.
Proof.
  intros Ht. pose proof (before_plan mode _ (tracks_step _ _ _ Ht)) as Hp.
  destruct (tracks_order _ _ _ Ht) as [->| ->]; [|done].
  etrans; [|exact Hp]. by eexists.
Qed.

Lemma tracks_late mode m (log : list (@call E)) :
  tracks mode m log → justified mode (Err (Machine.failure m Reason.Deadline)) log.
Proof.
  intros [Hm Hs Hc _ Hd]. simpl. rewrite Hc. setoid_rewrite Hd.
  rewrite bool_decide_eq_true. destruct mode, m as [? [] ?]; simpl in *; set_solver.
Qed.

Lemma tracks_unchanged mode m (log : list (@call E)) :
  tracks mode m log → Machine.step m = Recheck →
  justified mode (Ok Outcome.Unchanged)
    (log ++ [(Recheck, Some (Ok Progress.Unchanged))]).
Proof.
  intros Ht Hs. simpl. rewrite last_snoc. split; [|done].
  intros c [Hc|Hc]%elem_of_app; [|set_solver].
  pose proof (tracks_order _ _ _ Ht) as Ho. rewrite Hs in Ho.
  assert (before mode Recheck = []) as Hb by by destruct mode.
  rewrite Hb in Ho. simpl in Ho.
  assert (c.1 ∈ log.*1) as Hc1 by (apply list_elem_of_fmap; eauto).
  destruct Ho as [Ho|Ho]; [|by eapply dedup_singleton].
  apply dedup_nil in Ho. rewrite Ho in Hc1. set_solver.
Qed.

(** The current step completed and the machine moved to the next one. *)
Lemma tracks_next mode m (log : list (@call E)) s' c' :
  tracks mode m log → s' ∈ plan mode →
  before mode s' = before mode (Machine.step m) ++ [Machine.step m] →
  c' = bool_decide (s' = Retire) →
  tracks mode (Machine.mk mode s' c')
    (log ++ [(Machine.step m, Some (Ok Progress.Done))]).
Proof.
  intros Ht Hin Hb ->. split; simpl; [done..| |].
  - left. rewrite (tracks_call mode m log _ Ht). done.
  - intros s. rewrite completed_snoc, (tracks_done _ _ _ Ht), Hb, elem_of_app,
      list_elem_of_singleton. naive_solver.
Qed.

(** The current step is to be repeated. *)
Lemma tracks_again mode m (log : list (@call E)) p :
  tracks mode m log → p ≠ Progress.Done →
  tracks mode m (log ++ [(Machine.step m, Some (Ok p))]).
Proof.
  intros Ht Hp. destruct (Ht) as [Hm Hin Hc _ Hd]. split; [done..| |].
  - right. by apply tracks_call.
  - intros s. rewrite completed_snoc, Hd. naive_solver.
Qed.

(** The last step completed. *)
Lemma tracks_complete mode m (log : list (@call E)) :
  tracks mode m log → before mode (Machine.step m) ++ [Machine.step m] = plan mode →
  justified mode (Ok Outcome.Complete)
    (log ++ [(Machine.step m, Some (Ok Progress.Done))]).
Proof.
  intros Ht Hb. simpl. rewrite (tracks_call mode m log _ Ht). split; [done|].
  intros s. rewrite <- Hb, elem_of_app, list_elem_of_singleton, completed_snoc,
    (tracks_done _ _ _ Ht). naive_solver.
Qed.

Lemma tracks_retiring m (log : list (@call E)) :
  tracks Mode.Overlap m log → Machine.step m = Retire →
  justified Mode.Overlap (Ok Outcome.RetirementPending)
    (log ++ [(Retire, Some (Ok Progress.Pending))]).
Proof.
  intros Ht Hs. simpl. pose proof (tracks_call _ m log (Some (Ok Progress.Pending)) Ht) as Ho.
  pose proof (tracks_done _ _ _ Ht) as Hd. rewrite Hs in Ho, Hd.
  rewrite Ho, last_snoc. split_and!; [done..| |done].
  intros s Hin Hr. rewrite completed_snoc, Hd. left. apply (bool_decide_eq_true_2 _) in Hin.
  destruct s; solve [done | by apply (bool_decide_unpack _)].
Qed.

Lemma advance_ok mode m log p m' r :
  tracks mode m log → Machine.advance (E := E) m p = (m', r) →
  let log' := log ++ [(Machine.step m, Some (Ok p))] in
  match r with
  | Err f => justified mode (Err f) log'
  | Ok (Some o) => justified mode (Ok o) log'
  | Ok None => tracks mode m' log'
  end.
Proof.
  intros Ht Ha log'. subst log'. destruct (Ht) as [Hm Hin Hc _ _].
  apply (bool_decide_eq_true_2 _) in Hin. unfold Machine.advance, Machine.early in Ha.
  destruct m as [md s c]; simpl in *; subst md c.
  destruct mode, s; try discriminate Hin; clear Hin; destruct p; simpl in Ha; simplify_eq;
    first [ by apply tracks_failure
          | by apply (tracks_again _ _ _ _ Ht)
          | by apply (tracks_next _ _ _ _ _ Ht); [apply (bool_decide_unpack _)|..]
          | by apply (tracks_complete _ _ _ Ht)
          | by apply (tracks_unchanged _ _ _ Ht)
          | by apply (tracks_retiring _ _ Ht) ].
Qed.

Abbreviation LW := (W * list (@call E))%type.

Lemma next_deadline_log from to d (w : LW) d' w' :
  next_deadline budgets from to d w = (d', w') → w'.2 = w.2.
Proof.
  unfold next_deadline. destruct w as [w log]; simpl.
  repeat case_decide; [destruct (Budgets.drain budgets)| |];
    try destruct (now w); naive_solver.
Qed.

Lemma pause_log d (w : LW) : (pause d w).2 = w.2.
Proof. unfold pause. destruct d, w; simpl; [|done]. by destruct (now _). Qed.

Lemma pause_async_log d (w : LW) : (pause_async d w).2 = w.2.
Proof. unfold pause_async. destruct w; simpl. by destruct (now _). Qed.

Lemma expired_log d (w : LW) b w' : expired d w = (b, w') → w'.2 = w.2.
Proof. destruct w as [w l]. apply expired_logged. Qed.

Lemma late_answer_log s d (w : LW) b w' : late_answer s d w = (b, w') → w'.2 = w.2.
Proof. unfold late_answer. case_decide; [naive_solver|apply expired_log]. Qed.

Lemma justified_prefix mode m log a r :
  tracks mode m log → justified mode r (log ++ [(Machine.step m, a)]) →
  pass_ok mode (inl r) (log ++ [(Machine.step m, a)]).
Proof.
  intros Ht Hj. split; [|done].
  rewrite (tracks_call mode m log a Ht). by apply before_plan, (tracks_step _ _ log).
Qed.

Lemma after_progress_ok wait mode m d p (w : LW) log v w' :
  (∀ d w, (wait d w).2 = w.2) →
  tracks mode m log → w.2 = log ++ [(Machine.step m, Some (Ok p))] →
  after_progress log_prefault budgets wait m d p w = (v, w') →
  pass_ok mode v w'.2.
Proof.
  intros Hwait Ht Hlog. unfold after_progress.
  destruct (Machine.advance m p) as [m' r] eqn:Ha.
  pose proof (advance_ok mode m log p m' r Ht Ha) as Hok. simpl in Hok.
  assert (∀ b : bool, (if b then log_prefault w else w).2 =
    log ++ [(Machine.step m, Some (Ok p))]) as Hw1 by (by intros []).
  specialize (Hw1 (Machine.committed m' && negb (Machine.committed m))).
  set (w1 := if Machine.committed m' && negb (Machine.committed m)
             then log_prefault w else w) in *.
  destruct r as [[o|]|f].
  - intros [= <- <-]. rewrite Hw1. by apply justified_prefix.
  - intros Hv.
    assert (w'.2 = w1.2 ∧ ∃ d', v = inr (m', d')) as [Hw' [d' ->]].
    { case_decide; [simplify_eq; rewrite Hwait; eauto|].
      destruct (next_deadline _ _ _ _ _) eqn:Hn; simplify_eq.
      apply next_deadline_log in Hn. eauto. }
    rewrite Hw', Hw1. split; [by eapply tracks_prefix|done].
  - intros [= <- <-]. rewrite Hlog. by apply justified_prefix.
Qed.

Lemma iteration_ok mode m d (w : LW) v w' :
  tracks mode m w.2 →
  iteration log_perform log_prefault budgets m d w = (v, w') →
  pass_ok mode v w'.2.
Proof.
  intros Ht. unfold iteration. destruct (expired d w) as [late w1] eqn:He.
  apply expired_log in He. rewrite <- He in Ht. destruct late.
  { intros [= <- <-]. split; [by eapply tracks_prefix|by apply tracks_late]. }
  unfold log_perform; simpl. destruct (perform (Machine.step m, d) w1.1) as [a w2] eqn:Hp.
  destruct a as [p|e].
  - destruct (late_answer _ _ _) as [late w3] eqn:Hl.
    assert (Hlog := late_answer_log _ _ _ _ _ Hl). simpl in Hlog. destruct late.
    + intros [= <- <-]. rewrite Hlog. apply justified_prefix, tracks_failure; [done..|].
      intros _ Hc. rewrite Hc in Hl. unfold late_answer in Hl. by rewrite decide_True in Hl.
    + by eapply after_progress_ok; eauto using pause_log.
  - intros [= <- <-]. by apply justified_prefix, tracks_failure.
Qed.

Lemma loop_ok body mode :
  (∀ m d (w : LW) v w', tracks mode m w.2 → body m d w = (v, w') → pass_ok mode v w'.2) →
  ∀ fuel m d (w : LW) o w', tracks mode m w.2 → loop body fuel m d w = (o, w') →
    dedup w'.2.*1 `prefix_of` plan mode ∧ ∀ r, o = Some r → justified mode r w'.2.
Proof.
  intros Hbody fuel. induction fuel as [|fuel IH]; intros m d w o w' Ht; simpl.
  { intros [= <- <-]. split; [by eapply tracks_prefix|done]. }
  destruct (body m d w) as [v w1] eqn:Hb. apply Hbody in Hb as [Hpre Hv]; [|done].
  destruct v as [r|[m' d']]; [|by apply IH].
  intros [= <- <-]. split; [done|]. by intros ? [= <-].
Qed.

Lemma tracks_new mode : tracks mode (Machine.new mode) (@nil (@call E)).
Proof.
  split; [done|by destruct mode; left|done|by left; destruct mode|].
  intros s. unfold completed. destruct mode; simpl; set_solver.
Qed.

(** C1: every replacement calls the driver in the order of its mode's plan,
    repeating a step only in place, and the result it reports is justified by
    those calls: Unchanged comes from Recheck alone, Complete after every step
    completed, RetirementPending only in overlap mode with everything but the
    retirement completed, and a failure says [committed] exactly when the
    driver committed. It holds for every driver, clock and fuel. *)
Theorem run_keeps_order mode fuel (w : W) o w' log :
  run log_perform log_prefault budgets fuel mode (w, []) = (o, (w', log)) →
  dedup log.*1 `prefix_of` plan mode ∧ ∀ r, o = Some r → justified mode r log.
Proof.
  unfold run. simpl. destruct (now w) as [t w1]. intros Hl.
  apply (loop_ok _ mode) in Hl; [done| |apply tracks_new].
  intros. by eapply iteration_ok.
Qed.

Context (perform_until : Z → Step.t * option Z → W → option (result E Progress.t) * W).
(** A call that may be cut short is recorded without an answer. *)
Definition log_perform_until (limit : Z) (q : Step.t * option Z) (w : W * list call) :
    option (result E Progress.t) * (W * list call) :=
  let '(a, w') := perform_until limit q w.1 in (a, (w', w.2 ++ [(q.1, a)])).

Lemma iteration_async_ok mode m d (w : LW) v w' :
  tracks mode m w.2 →
  iteration_async log_perform log_perform_until log_prefault budgets m d w = (v, w') →
  pass_ok mode v w'.2.
Proof.
  intros Ht. unfold iteration_async. destruct (expired d w) as [late w1] eqn:He.
  apply expired_log in He. rewrite <- He in Ht. destruct late.
  { intros [= <- <-]. split; [by eapply tracks_prefix|by apply tracks_late]. }
  set (att := match d with Some _ => _ | None => _ end).
  assert (∃ a w2, att = (a, (w2, w1.2 ++ [(Machine.step m, a)]))) as (a & w2 & ->).
  { unfold att, log_perform, log_perform_until. destruct d; [case_decide|]; simpl;
      [destruct (perform _ _)|destruct (perform_until _ _ _)|destruct (perform _ _)];
      eauto. }
  destruct a as [[p|e]|].
  - destruct (late_answer _ _ _) as [late w3] eqn:Hl.
    assert (Hlog := late_answer_log _ _ _ _ _ Hl). simpl in Hlog. destruct late.
    + intros [= <- <-]. rewrite Hlog. apply justified_prefix, tracks_failure; [done..|].
      intros _ Hc. rewrite Hc in Hl. unfold late_answer in Hl. by rewrite decide_True in Hl.
    + by eapply after_progress_ok; eauto using pause_async_log.
  - intros [= <- <-]. by apply justified_prefix, tracks_failure.
  - intros [= <- <-]. by apply justified_prefix, tracks_failure.
Qed.

(** The async loop, whose driver calls a timeout may cut short, keeps the
    same order and justifies its results the same way. *)
Theorem run_async_keeps_order mode fuel (w : W) o w' log :
  run_async log_perform log_perform_until log_prefault budgets fuel mode (w, [])
    = (o, (w', log)) →
  dedup log.*1 `prefix_of` plan mode ∧ ∀ r, o = Some r → justified mode r log.
Proof.
  unfold run_async. simpl. destruct (now w) as [t w1]. intros Hl.
  apply (loop_ok _ mode) in Hl; [done| |apply tracks_new].
  intros. by eapply iteration_async_ok.
Qed.
End order.

(** ** Termination *)

(** The longest a phase may last, and the passes that are enough for a
    replacement: in each of the eight steps, one pass per poll interval of the
    longest budget, and one more to move on. *)
Definition longest_phase (b : Budgets.t) : Z :=
  Z.max (Budgets.setup b) (default 0 (Budgets.drain b)).
Definition phase_passes (b : Budgets.t) : nat :=
  S (Z.to_nat ((Z.max 0 (longest_phase b) + POLL_INTERVAL - 1) / POLL_INTERVAL)).
Definition enough_passes (b : Budgets.t) : nat := 9 * phase_passes b.

Section termination.
Context {W E : Type} `{ClockLaws W}.
Context (perform : Step.t * option Z → W → result E Progress.t * W).
Context (prefault : W → W) (budgets : Budgets.t) (mode : Mode.t).
(** Time does not run backwards during the calls the loop makes. *)
Hypothesis perform_time : ∀ q w, time w ≤ time (perform q w).2.
Hypothesis prefault_time : ∀ w, time w ≤ time (prefault w).
(** Only a drain without a budget may take arbitrarily long. *)
Hypothesis bounded_drain : mode = Mode.Exclusive → is_Some (Budgets.drain budgets).

Definition rank (s : Step.t) : nat :=
  match s with
  | Recheck => 8 | Prepare => 7 | Drain => 6 | Start => 5
  | Verify => 4 | Validate => 3 | Commit => 2 | Retire => 1
  end.

Definition passes_left (m : Machine.t) (d : option Z) (w : W) : nat :=
  rank (Machine.step m) * phase_passes budgets + from_option (λ l, polls POLL_INTERVAL l w) O d.

Definition bounded (m : Machine.t) (d : option Z) (w : W) : Prop :=
  Machine.mode m = mode ∧
  (mode = Mode.Overlap → Machine.step m ≠ Drain) ∧
  match d with
  | Some l => l - time w ≤ longest_phase budgets
  | None => Machine.step m = Retire
  end.

Definition waits (wait : option Z → W → W) : Prop := ∀ d w,
  time w ≤ time (wait d w) ∧
  (∀ l, d = Some l → time w + POLL_INTERVAL ≤ time (wait d w) ∨ l ≤ time (wait d w)).

Lemma pause_waits : waits pause.
Proof.
  intros d w. unfold pause. destruct d as [l|].
  - destruct (now w) as [t w1] eqn:En. apply now_mono in En.
    pose proof (sleep_lasts (Z.min POLL_INTERVAL (saturating_sub l t)) w1).
    unfold saturating_sub in *. split; [lia|]. intros ? [= <-].
    unfold POLL_INTERVAL, from_millis in *. lia.
  - pose proof (sleep_lasts POLL_INTERVAL w). split; [|done]. lia.
Qed.

Lemma pause_async_waits : waits pause_async.
Proof.
  intros d w. unfold pause_async. destruct (now w) as [t w1] eqn:En.
  apply now_mono in En. destruct d as [l|].
  - pose proof (sleep_until_lasts (Z.min l (t + POLL_INTERVAL)) w1).
    split; [lia|]. intros ? [= <-]. lia.
  - pose proof (sleep_until_lasts (t + POLL_INTERVAL) w1). split; [lia|done].
Qed.

Lemma polls_bound l w : l - time w ≤ longest_phase budgets → (polls POLL_INTERVAL l w < phase_passes budgets)%nat.
Proof.
  intros Hl. unfold polls, phase_passes. apply Nat.lt_succ_r.
  apply Z2Nat.inj_le; [apply Z.div_pos; unfold POLL_INTERVAL, from_millis; lia..|].
  apply Z.div_le_mono; unfold POLL_INTERVAL, from_millis; lia.
Qed.

(** Moving on always pays for a whole phase. *)
Lemma passes_left_next m d w m' d' w' :
  bounded m' d' w' → (rank (Machine.step m') < rank (Machine.step m))%nat →
  (passes_left m' d' w' < passes_left m d w)%nat.
Proof.
  intros (_ & _ & Hd) Hr. unfold passes_left.
  assert (from_option (λ l, polls POLL_INTERVAL l w') O d' < phase_passes budgets)%nat as Hp.
  { destruct d'; simpl; [by apply polls_bound|unfold phase_passes; lia]. }
  nia.
Qed.

Lemma advance_continues m p m' :
  Machine.advance (E := E) m p = (m', Ok None) →
  Machine.step m ≠ Retire ∧ Machine.mode m' = Machine.mode m ∧
  (m' = m ∨
   (rank (Machine.step m') < rank (Machine.step m))%nat ∧
   (Machine.step m' = Drain → Machine.mode m = Mode.Exclusive)).
Proof.
  destruct m as [md s c]. unfold Machine.advance, Machine.early; simpl.
  destruct s, p; simpl; intros Ha; try discriminate Ha; repeat case_decide;
    simplify_eq/=; split_and!; auto; right; split; try lia; done.
Qed.

(** The deadline of the next step is set afresh or kept. *)
Lemma next_deadline_bounded m m' d w w0 d' w' :
  bounded m d w0 → time w0 ≤ time w → Machine.step m ≠ Retire →
  Machine.mode m' = mode → (Machine.step m' = Drain → mode = Mode.Exclusive) →
  next_deadline budgets (Machine.step m) (Machine.step m') d w = (d', w') →
  bounded m' d' w'.
Proof.
  intros (Hm & _ & Hd) Ht Hr Hm' Hdr Hn. unfold bounded.
  assert (mode = Mode.Overlap → Machine.step m' ≠ Drain) as Hov
    by (intros ? Hd'; specialize (Hdr Hd'); congruence).
  split; [done|]. split; [done|]. clear Hov. unfold next_deadline in Hn.
  case_decide as Hto; [|case_decide].
  - destruct (Budgets.drain budgets) as [b|] eqn:Eb.
    + destruct (now w) as [t w1] eqn:En. apply now_mono in En. simplify_eq.
      unfold longest_phase. rewrite Eb. simpl. lia.
    + simplify_eq. destruct Hto as [Hto|Hto]; [|done].
      destruct bounded_drain; [by apply Hdr|]. congruence.
  - destruct (now w) as [t w1] eqn:En. apply now_mono in En. simplify_eq.
    unfold longest_phase. lia.
  - simplify_eq. destruct d'; [lia|done].
Qed.

Lemma after_progress_decreases wait m d p w0 w m' d' w' :
  waits wait → bounded m d w0 → time w0 ≤ time w →
  (∀ l, d = Some l → time w0 < l) →
  after_progress (E := E) prefault budgets wait m d p w = (inr (m', d'), w') →
  bounded m' d' w' ∧ (passes_left m' d' w' < passes_left m d w0)%nat.
Proof.
  intros Hwait Hb Ht Hl. unfold after_progress.
  destruct (Machine.advance m p) as [m1 r] eqn:Ha. destruct r as [[o|]|f]; [done| |done].
  apply advance_continues in Ha as (Hr & Hm & Hcase).
  set (w1 := if Machine.committed m1 && negb (Machine.committed m) then prefault w else w).
  assert (time w0 ≤ time w1) as Ht1.
  { unfold w1. destruct (_ && _); [|done]. pose proof (prefault_time w). lia. }
  destruct Hcase as [->|[Hrank Hdr]].
  - rewrite decide_True by done. intros [= <- <- <-].
    destruct (Hwait d w1) as [Hw1 Hw2]. destruct d as [l|]; [|by destruct Hb as (_ & _ & ?)].
    specialize (Hl l eq_refl). specialize (Hw2 l eq_refl). split.
    + destruct Hb as (? & ? & ?). split_and!; [done..|lia].
    + unfold passes_left; simpl. apply Nat.add_lt_mono_l. apply polls_wait; [done|lia..].
  - rewrite decide_False by (intros Heq; rewrite Heq in Hrank; lia).
    destruct (next_deadline _ _ _ _ _) as [d1 w2] eqn:Hn. intros [= <- <- <-].
    destruct (Hb) as (Hmode & _ & _).
    assert (bounded m1 d1 w2) as Hb1.
    { eapply next_deadline_bounded; eauto; [congruence|]. intros. rewrite <- Hmode. auto. }
    split; [done|]. by apply passes_left_next.
Qed.

Lemma late_answer_mono s d (w : W) b w' : late_answer s d w = (b, w') → time w ≤ time w'.
Proof. unfold late_answer. case_decide; [naive_solver lia|apply expired_mono]. Qed.

Lemma expired_some d (w : W) w' : expired d w = (false, w') → ∀ l, d = Some l → time w < l.
Proof. intros He l ->. by eapply expired_false. Qed.

Lemma iteration_decreases m d w m' d' w' :
  bounded m d w → iteration perform prefault budgets m d w = (inr (m', d'), w') →
  bounded m' d' w' ∧ (passes_left m' d' w' < passes_left m d w)%nat.
Proof.
  intros Hb. unfold iteration. destruct (expired d w) as [late w1] eqn:He.
  destruct late; [done|].
  destruct (perform _ _) as [a w2] eqn:Hp. destruct a as [p|e]; [|done].
  destruct (late_answer _ _ _) as [late w3] eqn:Hl. destruct late; [done|].
  pose proof (perform_time (Machine.step m, d) w1) as Ht. rewrite Hp in Ht. simpl in Ht.
  apply late_answer_mono in Hl. pose proof (expired_mono _ _ _ _ He).
  intros Ha. eapply (after_progress_decreases _ _ _ _ w w3);
    eauto using pause_waits, expired_some. lia.
Qed.

Lemma loop_returns body :
  (∀ m d w m' d' w', bounded m d w → body m d w = (inr (m', d'), w') →
    bounded m' d' w' ∧ (passes_left m' d' w' < passes_left m d w)%nat) →
  ∀ fuel m d w, bounded m d w → (passes_left m d w < fuel)%nat →
    ∃ r w', loop (E := E) body fuel m d w = (Some r, w').
Proof.
  intros Hbody fuel. induction fuel as [|fuel IH]; intros m d w Hb Hf; [lia|]. simpl.
  destruct (body m d w) as [[r|[m' d']] w1] eqn:Hs; [by eauto|].
  apply Hbody in Hs as [Hb' Hlt]; [|done]. apply IH; [done|lia].
Qed.

Lemma start_bounded (w : W) t w1 :
  now w = (t, w1) →
  bounded (Machine.new mode) (Some (t + Budgets.setup budgets)) w1 ∧
  (passes_left (Machine.new mode) (Some (t + Budgets.setup budgets)%Z) w1
    < enough_passes budgets)%nat.
Proof.
  intros En%now_mono.
  assert (bounded (Machine.new mode) (Some (t + Budgets.setup budgets)) w1) as Hb.
  { unfold bounded, longest_phase; simpl. split_and!; [done..|lia]. }
  split; [done|]. unfold passes_left, enough_passes. simpl rank. simpl from_option.
  destruct Hb as (_ & _ & Hb). apply polls_bound in Hb. lia.
Qed.

(** C2: a replacement whose drain is bounded (or that never drains) returns
    within [enough_passes], whatever the driver answers, as long as time moves
    forward. *)
Theorem run_terminates w :
  ∃ r w', run perform prefault budgets (enough_passes budgets) mode w = (Some r, w').
Proof.
  unfold run. destruct (now w) as [t w1] eqn:En. apply start_bounded in En as [Hb Hp].
  by apply (loop_returns _ iteration_decreases).
Qed.

Context (perform_until : Z → Step.t * option Z → W → option (result E Progress.t) * W).
Hypothesis perform_until_time : ∀ l q w, time w ≤ time (perform_until l q w).2.

Lemma iteration_async_decreases m d w m' d' w' :
  bounded m d w →
  iteration_async perform perform_until prefault budgets m d w = (inr (m', d'), w') →
  bounded m' d' w' ∧ (passes_left m' d' w' < passes_left m d w)%nat.
Proof.
  intros Hb. unfold iteration_async. destruct (expired d w) as [late w1] eqn:He.
  destruct late; [done|].
  set (att := match d with Some _ => _ | None => _ end).
  assert (time w1 ≤ time att.2) as Ht.
  { unfold att. pose proof (perform_time (Machine.step m, d) w1) as Ht.
    destruct d as [l|]; [case_decide|]; [|apply perform_until_time|];
      by destruct (perform _ _). }
  destruct att as [a w2]. simpl in Ht. destruct a as [[p|e]|]; [|done..].
  destruct (late_answer _ _ _) as [late w3] eqn:Hl. destruct late; [done|].
  apply late_answer_mono in Hl. pose proof (expired_mono _ _ _ _ He).
  intros Ha. eapply (after_progress_decreases _ _ _ _ w w3);
    eauto using pause_async_waits, expired_some. lia.
Qed.

(** So does the async loop. *)
Theorem run_async_terminates w :
  ∃ r w', run_async perform perform_until prefault budgets (enough_passes budgets) mode w
    = (Some r, w').
Proof.
  unfold run_async. destruct (now w) as [t w1] eqn:En. apply start_bounded in En as [Hb Hp].
  by apply (loop_returns _ iteration_async_decreases).
Qed.
End termination.

(** ** Examples and witnesses *)

(** A driver that gives scripted answers, each taking one nanosecond. *)
Definition scripted (q : Step.t * option Z) (w : Sim (result string Progress.t)) :
    result string Progress.t * Sim (result string Progress.t) :=
  next_answer (Ok Progress.Pending) w.
Definition scripted_until (limit : Z) (q : Step.t * option Z)
    (w : Sim (result string Progress.t)) :
    option (result string Progress.t) * Sim (result string Progress.t) :=
  let '(a, w) := next_answer (Ok Progress.Pending) w in
  if limit <=? sim_time w then (None, w) else (Some a, w).

Definition short_budgets : Budgets.t := Budgets.mk (from_millis 100) (Some (from_millis 60)).

Definition exclusive_script : list (result string Progress.t) :=
  [Ok Progress.Pending; Ok Progress.Done; Ok Progress.Done; Ok Progress.Pending;
   Ok Progress.Done; Ok Progress.Done; Ok Progress.Pending; Ok Progress.Done;
   Ok Progress.Done; Ok Progress.Done].

(** The whole exclusive plan, with retries of Recheck, Drain and Verify. *)
Example exclusive_run :
  let '(o, (_, log)) := run (log_perform scripted) (log_prefault id) short_budgets 20
    Mode.Exclusive (MkSim 0 exclusive_script, []) in
  o = Some (Ok Outcome.Complete) ∧
  log.*1 = [Recheck; Recheck; Prepare; Drain; Drain; Start; Verify; Verify; Validate; Commit].
Proof. by vm_compute. Qed.

(** A driver that never finishes its drain runs into the drain budget. *)
Example drain_expires :
  (run scripted id short_budgets 20 Mode.Exclusive
     (MkSim 0 [Ok Progress.Done; Ok Progress.Done])).1
  = Some (Err (Failure.mk Drain false Reason.Deadline)).
Proof. by vm_compute. Qed.

Lemma run_keeps_order_witness :
  ∃ o w' log,
    run (log_perform scripted) (log_prefault id) short_budgets 20 Mode.Exclusive
      (MkSim 0 exclusive_script, []) = (o, (w', log)) ∧
    o = Some (Ok Outcome.Complete) ∧
    (dedup log.*1 `prefix_of` plan Mode.Exclusive ∧
     ∀ r, o = Some r → justified Mode.Exclusive r log).
Proof.
  do 3 eexists. split; [vm_compute; reflexivity|]. split; [reflexivity|].
  eapply (run_keeps_order scripted id short_budgets Mode.Exclusive 20
    (MkSim 0 exclusive_script)). vm_compute; reflexivity.
Defined.

Lemma run_async_keeps_order_witness :
  ∃ o w' log,
    run_async (log_perform scripted) (log_perform_until scripted_until) (log_prefault id)
      short_budgets 20 Mode.Exclusive (MkSim 0 exclusive_script, []) = (o, (w', log)) ∧
    o = Some (Ok Outcome.Complete) ∧
    (dedup log.*1 `prefix_of` plan Mode.Exclusive ∧
     ∀ r, o = Some r → justified Mode.Exclusive r log).
Proof.
  do 3 eexists. split; [vm_compute; reflexivity|]. split; [reflexivity|].
  eapply (run_async_keeps_order scripted id short_budgets scripted_until Mode.Exclusive 20
    (MkSim 0 exclusive_script)). vm_compute; reflexivity.
Defined.

Lemma run_terminates_witness :
  ∃ r w', run scripted id short_budgets (enough_passes short_budgets) Mode.Exclusive
    (MkSim 0 [Ok Progress.Done; Ok Progress.Done]) = (Some r, w').
Proof.
  apply (run_terminates scripted id short_budgets Mode.Exclusive).
  - intros q w. apply next_answer_time.
  - intros w. reflexivity.
  - intros _. by eexists.
Defined.

Lemma scripted_until_time l q w : time w ≤ time (scripted_until l q w).2.
Proof.
  unfold scripted_until. pose proof (next_answer_time (Ok Progress.Pending) w) as Ht.
  destruct (next_answer _ _) as [a w']. by destruct (_ <=? _).
Qed.

Lemma run_async_terminates_witness :
  ∃ r w', run_async scripted scripted_until id short_budgets (enough_passes short_budgets)
    Mode.Overlap (MkSim 0 [Ok Progress.Done; Ok Progress.Done]) = (Some r, w').
Proof.
  apply (run_async_terminates scripted id short_budgets Mode.Overlap) with (perform_until := scripted_until).
  - intros q w. apply next_answer_time.
  - intros w. reflexivity.
  - discriminate.
  - apply scripted_until_time.
Defined.
