(* ===== verification/Selection.v ===== *)
(** * Waiting for a selection (src/selection.rs)

    An observer that does not drive the replacement reads the published record,
    then probes the service, round after round. *)
From S2P Require Import Prelude Readiness.

Module Selection.
Inductive t (P : Type) := Current (p : P) | Committed | NotCommitted.
Arguments Current {P} p.
Arguments Committed {P}.
Arguments NotCommitted {P}.
End Selection.

Module Budget.
Record t := mk { commit : Z; proof : Z }.
End Budget.

Module Decision.
Inductive t := Current | Committed | NotCommitted | Wait.
#[global] Instance eq_dec : EqDecision t.
Proof. solve_decision. Defined.
End Decision.

Module Watch.
Record t := mk { budget : Budget.t; committed_at : option Z }.

Definition new (b : Budget.t) : t := mk b None.

(** Time from the start by which the wait must end. *)
Definition until (w : t) : Z :=
  match committed_at w with
  | Some at_ => Z.min (dur_saturating_add at_ (Budget.proof (budget w))) (Budget.commit (budget w))
  | None => Budget.commit (budget w)
  end.

Definition record (w : t) (elapsed : Z) (committed : bool) : t :=
  if committed && bool_decide (committed_at w = None)
  then mk (budget w) (Some elapsed) else w.

Definition decide (w : t) (elapsed : Z) (proven : bool) : Decision.t :=
  if proven then Decision.Current else
  let expired := until w <=? elapsed in
  match committed_at w, expired with
  | _, false => Decision.Wait
  | Some _, true => Decision.Committed
  | None, true => Decision.NotCommitted
  end.
End Watch.

(** The evidence an observer gathers: the [Evidence] trait over a world [W]. *)
Class Evidence (W P E : Type) : Type := {
  committed : W → result E bool * W;
  probe : Z → W → result E (option P) * W;
  wait : Z → W → W;
}.

Section await.
Context {W P E : Type} `{Clock W}.
Context (committed : W → result E bool * W) (wait : Z → W → W).

(** [Evidence::wait] when the trait's default is kept. *)
Definition default_wait (until : Z) (w : W) : W :=
  let '(t, w) := now w in
  sleep (Z.min POLL_INTERVAL (saturating_sub until t)) w.

(** [AsyncEvidence::wait] when the trait's default is kept. *)
Definition default_wait_async (until : Z) (w : W) : W :=
  let '(t, w) := now w in
  sleep_until (Z.min (t + POLL_INTERVAL) until) w.

(** [proof.filter(|_| Instant::now() < until)]: a late proof is no proof. *)
Definition in_time (proof : option P) (until : Z) (w : W) : option P * W :=
  match proof with
  | None => (None, w)
  | Some p => let '(t, w) := now w in (if t <? until then Some p else None, w)
  end.

(** One round's probe in [await_selection]. *)
Definition attempt (probe : Z → W → result E (option P) * W) (until : Z) (w : W) :
    result E (option P) * W :=
  let '(r, w) := probe until w in
  match r with
  | Err e => (Err e, w)
  | Ok proof => let '(proof, w) := in_time proof until w in (Ok proof, w)
  end.

(** One round's probe in [await_selection_async], under [timeout_at]: [None] when
    the timeout elapsed first. *)
Definition attempt_async (probe_until : Z → W → option (result E (option P)) * W)
    (until : Z) (w : W) : result E (option P) * W :=
  let '(r, w) := probe_until until w in
  match r with
  | None => (Ok None, w)
  | Some (Err e) => (Err e, w)
  | Some (Ok proof) => let '(proof, w) := in_time proof until w in (Ok proof, w)
  end.

(** One round of either loop: the answer, or the watch for the next round. *)
Definition round (attempt : Z → W → result E (option P) * W) (start : Z)
    (watch : Watch.t) (w : W) : (result E (Selection.t P) + Watch.t) * W :=
  let '(c, w) := committed w in
  match c with
  | Err e => (inl (Err e), w)
  | Ok c =>
      let '(t, w) := now w in
      let watch := Watch.record watch (saturating_sub t start) c in
      let until := start + Watch.until watch in
      let '(r, w) := attempt until w in
      match r with
      | Err e => (inl (Err e), w)
      | Ok proof =>
          let '(t, w) := now w in
          match Watch.decide watch (saturating_sub t start) (bool_decide (is_Some proof)) with
          | Decision.Current =>
              match proof with
              | Some p => (inl (Ok (Selection.Current p)), w)
              | None => (inr watch, w) (* proven above, so there is a proof *)
              end
          | Decision.Committed => (inl (Ok Selection.Committed), w)
          | Decision.NotCommitted => (inl (Ok Selection.NotCommitted), w)
          | Decision.Wait => (inr watch, wait (start + Watch.until watch) w)
          end
      end
  end.

Fixpoint rounds (attempt : Z → W → result E (option P) * W) (fuel : nat) (start : Z)
    (watch : Watch.t) (w : W) : option (result E (Selection.t P)) * W :=
  match fuel with
  | O => (None, w)
  | S fuel =>
      let '(v, w) := round attempt start watch w in
      match v with
      | inl r => (Some r, w)
      | inr watch => rounds attempt fuel start watch w
      end
  end.

Definition await_selection (probe : Z → W → result E (option P) * W) (fuel : nat)
    (budget : Budget.t) (w : W) : option (result E (Selection.t P)) * W :=
  let '(start, w) := now w in
  rounds (attempt probe) fuel start (Watch.new budget) w.

Definition await_selection_async
    (probe_until : Z → W → option (result E (option P)) * W) (fuel : nat)
    (budget : Budget.t) (w : W) : option (result E (Selection.t P)) * W :=
  let '(start, w) := now w in
  rounds (attempt_async probe_until) fuel start (Watch.new budget) w.
End await.

(** ** What an observer may claim *)

Section claims.
Context {W P E : Type} `{ClockLaws W}.

(** What the observer asked and was told, in order: the record was read, or the
    service was probed with a deadline ([None] for a probe that timed out). *)
Inductive evidence :=
| Read (r : result E bool)
| Probed (until : Z) (r : option (result E (option P))).

Context (committed : W → result E bool * W) (wait : Z → W → W).

Definition log_committed (w : W * list evidence) : result E bool * (W * list evidence) :=
  let '(r, w') := committed w.1 in (r, (w', w.2 ++ [Read r])).
Definition log_wait (until : Z) (w : W * list evidence) : W * list evidence :=
  (wait until w.1, w.2).

(** A round that ended without an error. *)
Record round_log := Round {
  read_committed : bool;
  probe_until : Z;
  probed : option (option P);
}.
Definition events_of (r : round_log) : list evidence :=
  [Read (Ok (read_committed r)); Probed (probe_until r) (Ok <$> probed r)].

(** The claims a result makes, given the rounds that led to it. *)
Definition supported (budget : Budget.t) (start : Z) (rs : list round_log)
    (s : Selection.t P) (w' : W) : Prop :=
  match s with
  | Selection.Current p => (λ r, probed r) <$> last rs = Some (Some (Some p))
  | Selection.Committed =>
      (∃ r, r ∈ rs ∧ read_committed r = true) ∧
      (start + Z.min (Budget.commit budget) (Budget.proof budget) ≤ time w')
  | Selection.NotCommitted =>
      (∀ r, r ∈ rs → read_committed r = false) ∧ start + Budget.commit budget ≤ time w'
  end.

(** How a result is backed by everything the observer asked. *)
Definition backed (budget : Budget.t) (start : Z) (log : list evidence)
    (r : result E (Selection.t P)) (w' : W) : Prop :=
  ∃ rs, Forall (λ r, probe_until r ≤ start + Budget.commit budget) rs ∧
  match r with
  | Ok s => log = rs ≫= events_of ∧ supported budget start rs s w'
  | Err e => log = (rs ≫= events_of) ++ [Read (Err e)] ∨
      ∃ c u, log = (rs ≫= events_of) ++ [Read (Ok c); Probed u (Some (Err e))]
  end.

(** The watch between two rounds. *)
Record watching (budget : Budget.t) (start : Z) (rs : list round_log) (watch : Watch.t)
    (w : W * list evidence) : Prop := {
  watching_log : w.2 = rs ≫= events_of;
  watching_budget : Watch.budget watch = budget;
  watching_start : start ≤ time w;
  watching_bounds : Forall (λ r, probe_until r ≤ start + Budget.commit budget) rs;
  watching_read : match Watch.committed_at watch with
    | None => ∀ r, r ∈ rs → read_committed r = false
    | Some at_ => 0 ≤ at_ ∧ ∃ r, r ∈ rs ∧ read_committed r = true
    end;
}.

(** What a logged attempt must be like: one probe, and a proof only from it. *)
Definition faithful (attempt : Z → W * list evidence → result E (option P) * (W * list evidence)) :=
  ∀ u w r w', attempt u w = (r, w') → time w ≤ time w' ∧
    ∃ a, w'.2 = w.2 ++ [Probed u a] ∧
      match r with
      | Err e => a = Some (Err e)
      | Ok (Some p) => a = Some (Ok (Some p))
      | Ok None => ∃ o, a = Ok <$> o
      end.

Hypothesis committed_time : ∀ w, time w ≤ time (committed w).2.
Hypothesis wait_time : ∀ u w, time w ≤ time (wait u w).

Lemma until_commit watch : Watch.until watch ≤ Budget.commit (Watch.budget watch).
Proof. unfold Watch.until. destruct (Watch.committed_at watch); lia. Qed.

Lemma record_reads watch elapsed c rs u o :
  0 ≤ elapsed →
  match Watch.committed_at watch with
  | None => ∀ r, r ∈ rs → read_committed r = false
  | Some at_ => 0 ≤ at_ ∧ ∃ r, r ∈ rs ∧ read_committed r = true
  end →
  match Watch.committed_at (Watch.record watch elapsed c) with
  | None => ∀ r, r ∈ rs ++ [Round c u o] → read_committed r = false
  | Some at_ => 0 ≤ at_ ∧ ∃ r, r ∈ rs ++ [Round c u o] ∧ read_committed r = true
  end.
Proof.
  intros He. unfold Watch.record. destruct watch as [b [at_|]]; simpl.
  - rewrite andb_false_r. simpl.
    intros [? (r & Hr & Ht)]. split; [done|]. exists r. set_solver.
  - rewrite andb_true_r. destruct c; simpl.
    + intros _. split; [done|]. exists (Round true u o). set_solver.
    + intros Hall r [Hr|Hr]%elem_of_app; [auto|]. apply list_elem_of_singleton in Hr. by subst.
Qed.

Lemma record_budget watch elapsed c :
  Watch.budget (Watch.record watch elapsed c) = Watch.budget watch.
Proof. unfold Watch.record. by destruct (_ && _). Qed.

(** What the decision after a probe rests on. *)
Lemma decide_supported budget start rs watch c u o (w : W * list evidence) t w' proof :
  watching budget start (rs ++ [Round c u o]) watch w →
  is_duration (Budget.proof budget) → now w = (t, w') →
  (∀ p, proof = Some p → o = Some (Some p)) →
  match Watch.decide watch (saturating_sub t start) (bool_decide (is_Some proof)) with
  | Decision.Current => ∃ p, proof = Some p ∧
      supported budget start (rs ++ [Round c u o]) (Selection.Current p) w'.1
  | Decision.Committed => supported budget start (rs ++ [Round c u o]) Selection.Committed w'.1
  | Decision.NotCommitted =>
      supported budget start (rs ++ [Round c u o]) Selection.NotCommitted w'.1
  | Decision.Wait => True
  end.
Proof.
  intros [Hlog Hb Hs _ Hr] Hd Hn Hp. apply now_mono in Hn. simpl in Hs, Hn.
  unfold Watch.decide. destruct proof as [p|]; simpl.
  { exists p. rewrite last_snoc. simpl.
    split; [done|]. by rewrite (Hp p). }
  unfold Watch.until, saturating_sub, is_duration in *. rewrite <- Hb in *.
  destruct (Watch.committed_at watch) as [at_|]; simpl.
  - destruct Hr as [Hat Hr]. destruct (_ <=? _) eqn:Hle; [|done]. bools.
    unfold dur_saturating_add in Hle. split; [done|]. lia.
  - destruct (_ <=? _) eqn:Hle; [|done]. bools. split; [done|]. lia.
Qed.

Lemma round_backed attempt budget start rs watch (w : W * list evidence) v w' :
  faithful attempt → is_duration (Budget.proof budget) →
  watching budget start rs watch w →
  round log_committed log_wait attempt start watch w = (v, w') →
  match v with
  | inl r => backed budget start w'.2 r w'.1
  | inr watch' => ∃ rs', watching budget start rs' watch' w'
  end.
Proof.
  intros Hatt Hdur [Hlog Hb Hs Hbd Hr]. unfold round, log_committed.
  pose proof (committed_time w.1) as Hct. destruct (committed w.1) as [c w1]. simpl in Hs, Hct.
  destruct c as [c|e].
  2:{ intros [= <- <-]. exists rs. split; [done|]. left. simpl. by rewrite Hlog. }
  destruct (now _) as [t w2] eqn:Hn. pose proof (now_logged _ _ _ Hn) as Hl2.
  apply now_mono in Hn. simpl in Hl2, Hn.
  set (watch' := Watch.record watch (saturating_sub t start) c).
  destruct (attempt _ w2) as [r w3] eqn:Ha. apply Hatt in Ha as (Ht3 & a & Hl3 & Hra).
  pose proof (until_commit watch') as Hu. unfold watch' in Hu.
  rewrite record_budget, Hb in Hu. fold watch' in Hu.
  destruct r as [proof|e].
  2:{ intros [= <- <-]. exists rs. split; [done|]. right. eexists c, _.
      rewrite Hl3, Hl2, Hlog, Hra. by rewrite <- app_assoc. }
  destruct (now w3) as [t' w4] eqn:Hn4. pose proof (now_logged _ _ _ Hn4) as Hl4.
  assert (∃ o, a = Ok <$> o ∧ ∀ p, proof = Some p → o = Some (Some p)) as (o & -> & Ho).
  { destruct proof as [p|]; [exists (Some (Some p)); naive_solver|].
    destruct Hra as [o ->]. exists o. naive_solver. }
  assert (watching budget start (rs ++ [Round c (start + Watch.until watch') o]) watch' w3) as Hw.
  { split.
    - rewrite Hl3, Hl2, Hlog, bind_app. simpl. by rewrite <- app_assoc.
    - unfold watch'. by rewrite record_budget.
    - simpl in *. lia.
    - apply Forall_app. split; [done|]. apply Forall_singleton. simpl. lia.
    - apply record_reads; [|done]. unfold saturating_sub. lia. }
  pose proof (decide_supported _ _ _ _ _ _ _ _ _ _ proof Hw Hdur Hn4 Ho) as Hdec.
  apply now_mono in Hn4. simpl in Hn4.
  destruct (Hw) as [Hwl _ Hws Hwbd _]. simpl in Hws.
  destruct (Watch.decide _ _ _).
  - destruct Hdec as (p & -> & Hsup). intros [= <- <-]. eexists. split; [done|].
    by rewrite Hl4, Hwl.
  - intros [= <- <-]. eexists. split; [done|]. by rewrite Hl4, Hwl.
  - intros [= <- <-]. eexists. split; [done|]. by rewrite Hl4, Hwl.
  - intros [= <- <-]. eexists. destruct Hw as [? ? ? ? ?]. split; try done.
    + simpl. congruence.
    + simpl. pose proof (wait_time (start + Watch.until watch') w4.1). lia.
Qed.

Lemma rounds_backed attempt budget start :
  faithful attempt → is_duration (Budget.proof budget) →
  ∀ fuel rs watch (w : W * list evidence) r w',
  watching budget start rs watch w →
  rounds log_committed log_wait attempt fuel start watch w = (Some r, w') →
  backed budget start w'.2 r w'.1.
Proof.
  intros Hatt Hdur fuel. induction fuel as [|fuel IH]; intros rs watch w r w' Hw; [done|]. simpl.
  destruct (round _ _ _ _ _ _) as [v w1] eqn:Hr.
  pose proof (round_backed _ _ _ _ _ _ _ _ Hatt Hdur Hw Hr) as Hb.
  destruct v as [r'|watch']; [naive_solver|]. destruct Hb as [rs' Hw']. by apply (IH rs').
Qed.

Lemma watching_new budget (w : W) start w1 :
  now w = (start, w1) → watching budget start [] (Watch.new budget) (w1, []).
Proof.
  intros Hn%now_mono. split; simpl; [done..|lia|done|]. intros r Hr. by apply elem_of_nil in Hr.
Qed.

Lemma in_time_some (o : option P) u (w : W * list evidence) o' w' :
  in_time o u w = (o', w') → w'.2 = w.2 ∧ time w ≤ time w' ∧ (∀ p, o' = Some p → o = Some p).
Proof.
  unfold in_time. destruct o as [p|]; [|naive_solver lia].
  destruct (now w) as [t w1] eqn:Hn. pose proof (now_logged _ _ _ Hn).
  apply now_mono in Hn. destruct (_ <? _); naive_solver lia.
Qed.

Context (probe : Z → W → result E (option P) * W).
Hypothesis probe_time : ∀ u w, time w ≤ time (probe u w).2.

Definition log_probe (u : Z) (w : W * list evidence) : result E (option P) * (W * list evidence) :=
  let '(r, w') := probe u w.1 in (r, (w', w.2 ++ [Probed u (Some r)])).

Lemma attempt_faithful : faithful (attempt log_probe).
Proof.
  intros u w r w'. unfold attempt, log_probe. pose proof (probe_time u w.1) as Ht.
  destruct (probe u w.1) as [a w1]. simpl in Ht. destruct a as [o|e].
  - destruct (in_time _ _ _) as [o' w2] eqn:Hi. apply in_time_some in Hi as (Hl & Hm & Hp).
    simpl in *. intros [= <- <-]. split; [lia|]. exists (Some (Ok o)). split; [done|].
    destruct o' as [p|]; [by rewrite (Hp p)|by exists (Some o)].
  - intros [= <- <-]. simpl. split; [done|]. eauto.
Qed.


Context (probe_until' : Z → W → option (result E (option P)) * W).
Hypothesis probe_until_time : ∀ u w, time w ≤ time (probe_until' u w).2.

Definition log_probe_until (u : Z) (w : W * list evidence) :
    option (result E (option P)) * (W * list evidence) :=
  let '(r, w') := probe_until' u w.1 in (r, (w', w.2 ++ [Probed u r])).

Lemma attempt_async_faithful : faithful (attempt_async log_probe_until).
Proof.
  intros u w r w'. unfold attempt_async, log_probe_until.
  pose proof (probe_until_time u w.1) as Ht.
  destruct (probe_until' u w.1) as [a w1]. simpl in Ht. destruct a as [[o|e]|].
  - destruct (in_time _ _ _) as [o' w2] eqn:Hi. apply in_time_some in Hi as (Hl & Hm & Hp).
    simpl in *. intros [= <- <-]. split; [lia|]. exists (Some (Ok o)). split; [done|].
    destruct o' as [p|]; [by rewrite (Hp p)|by exists (Some o)].
  - intros [= <- <-]. simpl. split; [done|]. eauto.
  - intros [= <- <-]. simpl. split; [done|]. exists None. split; [done|]. by exists None.
Qed.

(** The async observer, whose probes a timeout may cut short, reports only
    what its evidence shows too. *)
Theorem await_selection_async_claims fuel budget w r w' log :
  is_duration (Budget.proof budget) →
  await_selection_async log_committed log_wait log_probe_until fuel budget (w, [])
    = (Some r, (w', log)) →
  ∃ start, time w ≤ start ∧ backed budget start log r w'.
Proof.
  intros Hd. unfold await_selection_async. simpl. destruct (now w) as [start w1] eqn:Hn.
  intros Hr. exists start. split; [apply now_mono in Hn; lia|].
  apply (rounds_backed _ _ _ attempt_async_faithful Hd _ [] _ _ _ _ (watching_new _ _ _ _ Hn) Hr).
Qed.
End claims.
Arguments evidence : clear implicits.
Arguments round_log : clear implicits.

(** ** The wait ends *)

(** Rounds that are enough for a commit budget: one per poll interval, the round
    that starts at the end of the last pause, and the one that is cut short. *)
Definition enough_rounds (b : Budget.t) : nat :=
  S (Z.to_nat ((Z.max 0 (Budget.commit b) + POLL_INTERVAL - 1) / POLL_INTERVAL)).

Section ends.
Context {W P E : Type} `{ClockLaws W}.
Context (committed : W → result E bool * W) (wait : Z → W → W).
Context (attempt : Z → W → result E (option P) * W).
Hypothesis committed_time : ∀ w, time w ≤ time (committed w).2.
Hypothesis attempt_time : ∀ u w, time w ≤ time (attempt u w).2.
(** A pause lasts for the poll interval, or until the round's deadline. *)
Hypothesis wait_polls : ∀ u w,
  time w ≤ time (wait u w) ∧ (time w + POLL_INTERVAL ≤ time (wait u w) ∨ u ≤ time (wait u w)).

Lemma record_until watch elapsed c :
  Watch.until (Watch.record watch elapsed c) ≤ Watch.until watch.
Proof.
  unfold Watch.record, Watch.until. destruct watch as [b [at_|]]; simpl.
  - by rewrite andb_false_r.
  - destruct c; simpl; lia.
Qed.

Lemma decide_current watch elapsed (proof : option P) :
  Watch.decide watch elapsed (bool_decide (is_Some proof)) = Decision.Current ↔ is_Some proof.
Proof.
  unfold Watch.decide. destruct proof; simpl; [naive_solver|].
  destruct (Watch.committed_at watch), (_ <=? _); split; naive_solver.
Qed.

Lemma decide_wait watch elapsed proven :
  Watch.decide watch elapsed proven = Decision.Wait → elapsed < Watch.until watch.
Proof.
  unfold Watch.decide. destruct proven; [done|].
  destruct (_ <=? _) eqn:He; bools; [by destruct (Watch.committed_at watch)|done].
Qed.

Lemma round_decreases start watch w watch' w' :
  start ≤ time w → round committed wait attempt start watch w = (inr watch', w') →
  start ≤ time w' ∧
  (polls POLL_INTERVAL (start + Watch.until watch') w'
    < polls POLL_INTERVAL (start + Watch.until watch) w)%nat.
Proof.
  intros Hs. unfold round. pose proof (committed_time w) as Hc.
  destruct (committed w) as [[c|e] w1]; [|done]. simpl in Hc.
  destruct (now w1) as [t w2] eqn:Hn2. apply now_mono in Hn2.
  pose proof (record_until watch (saturating_sub t start) c) as Hu.
  set (watch1 := Watch.record watch (saturating_sub t start) c) in *.
  pose proof (attempt_time (start + Watch.until watch1) w2) as Ha.
  destruct (attempt _ w2) as [[proof|e] w3]; [|done]. simpl in Ha.
  destruct (now w3) as [t' w4] eqn:Hn4. apply now_mono in Hn4.
  destruct (Watch.decide _ _ _) eqn:Hd; [|done..|].
  - apply decide_current in Hd as [p ->]. done.
  - apply decide_wait in Hd. intros [= <- <-]. unfold saturating_sub in Hd.
    destruct (wait_polls (start + Watch.until watch1) w4) as [Hw1 Hw2].
    split; [lia|].
    apply Nat.lt_le_trans with (polls POLL_INTERVAL (start + Watch.until watch1) w).
    + apply polls_wait; [done|lia..].
    + apply polls_mono; [done|lia..].
Qed.

Lemma rounds_end fuel start watch w :
  start ≤ time w → (polls POLL_INTERVAL (start + Watch.until watch) w < fuel)%nat →
  ∃ r w', rounds committed wait attempt fuel start watch w = (Some r, w').
Proof.
  revert watch w. induction fuel as [|fuel IH]; intros watch w Hs Hf; [lia|]. simpl.
  destruct (round _ _ _ _ _ _) as [[r|watch'] w1] eqn:Hr; [by eauto|].
  apply round_decreases in Hr as [Hs' Hlt]; [|done]. apply IH; [done|lia].
Qed.

Lemma rounds_start_end budget (w : W) start w1 :
  now w = (start, w1) →
  ∃ r w', rounds committed wait attempt (enough_rounds budget) start (Watch.new budget) w1
    = (Some r, w').
Proof.
  intros Hn%now_mono. apply rounds_end; [lia|]. unfold enough_rounds, polls. simpl.
  apply Nat.lt_succ_r, Z2Nat.inj_le; [apply Z.div_pos; unfold POLL_INTERVAL, from_millis; lia..|].
  apply Z.div_le_mono; unfold POLL_INTERVAL, from_millis, Watch.until; simpl; lia.
Qed.
End ends.

Lemma default_wait_polls `{ClockLaws W} u (w : W) :
  time w ≤ time (default_wait u w) ∧
  (time w + POLL_INTERVAL ≤ time (default_wait u w) ∨ u ≤ time (default_wait u w)).
Proof.
  unfold default_wait. destruct (now w) as [t w1] eqn:Hn. apply now_mono in Hn.
  pose proof (sleep_lasts (Z.min POLL_INTERVAL (saturating_sub u t)) w1).
  unfold saturating_sub, POLL_INTERVAL, from_millis in *. lia.
Qed.

Lemma default_wait_async_polls `{ClockLaws W} u (w : W) :
  time w ≤ time (default_wait_async u w) ∧
  (time w + POLL_INTERVAL ≤ time (default_wait_async u w) ∨ u ≤ time (default_wait_async u w)).
Proof.
  unfold default_wait_async. destruct (now w) as [t w1] eqn:Hn. apply now_mono in Hn.
  pose proof (sleep_until_lasts (Z.min (t + POLL_INTERVAL) u) w1). lia.
Qed.

Lemma attempt_mono `{ClockLaws W} {P E} (probe : Z → W → result E (option P) * W) :
  (∀ u w, time w ≤ time (probe u w).2) → ∀ u w, time w ≤ time (attempt probe u w).2.
Proof.
  intros Hp u w. unfold attempt, in_time. specialize (Hp u w).
  destruct (probe u w) as [[[p|]|e] w1]; simpl in *; [|done..].
  destruct (now w1) as [t w2] eqn:Hn. apply now_mono in Hn. simpl. lia.
Qed.

(** With the default pause the wait for a selection ends within
    [enough_rounds] of its commit budget, whatever the evidence says. *)
Theorem await_selection_ends {W P E} `{ClockLaws W}
    (committed : W → result E bool * W) (probe : Z → W → result E (option P) * W) budget w :
  (∀ w, time w ≤ time (committed w).2) → (∀ u w, time w ≤ time (probe u w).2) →
  ∃ r w', await_selection committed default_wait probe (enough_rounds budget) budget w
    = (Some r, w').
Proof.
  intros Hc Hp. unfold await_selection. destruct (now w) as [start w1] eqn:Hn.
  eapply rounds_start_end; eauto using default_wait_polls, attempt_mono.
Qed.

(** ** Witnesses *)

(** A scripted observer: reads of the record and probes answer from one script. *)
Definition scripted_committed (w : Sim (bool * option nat)) :
    result string bool * Sim (bool * option nat) :=
  match sim_script w with
  | [] => (Ok false, MkSim (sim_time w + 1) [])
  | (c, p) :: l => (Ok c, MkSim (sim_time w + 1) ((c, p) :: l))
  end.
Definition scripted_probe (u : Z) (w : Sim (bool * option nat)) :
    result string (option nat) * Sim (bool * option nat) :=
  let '((_, p), w) := next_answer (false, None) w in (Ok p, w).

Lemma scripted_committed_time w : time w ≤ time (scripted_committed w).2.
Proof. unfold scripted_committed. destruct (sim_script w) as [|[]]; simpl; lia. Qed.
Lemma scripted_probe_time u w : time w ≤ time (scripted_probe u w).2.
Proof.
  unfold scripted_probe. pose proof (next_answer_time (false, None) w) as Ht.
  by destruct (next_answer _ w) as [[? ?] ?].
Qed.

Definition wait_budget : Budget.t := Budget.mk (from_millis 100) (from_millis 50).
Definition proven_late : Sim (bool * option nat) :=
  MkSim 0 [(false, None); (true, None); (true, Some 7%nat)].


Definition scripted_probe_until (u : Z) (w : Sim (bool * option nat)) :
    option (result string (option nat)) * Sim (bool * option nat) :=
  let '(r, w) := scripted_probe u w in
  if u <=? sim_time w then (None, w) else (Some r, w).

Lemma scripted_probe_until_time u w : time w ≤ time (scripted_probe_until u w).2.
Proof.
  unfold scripted_probe_until. pose proof (scripted_probe_time u w) as Ht.
  destruct (scripted_probe u w) as [r w']. by destruct (_ <=? _).
Qed.

Lemma await_selection_async_claims_witness :
  ∃ w' log,
    await_selection_async (log_committed scripted_committed) (log_wait default_wait_async)
      (log_probe_until scripted_probe_until) 9 wait_budget (MkSim 0 [(true, None)], [])
      = (Some (Ok Selection.Committed), (w', log)) ∧
    ∃ start, 0 ≤ start ∧ backed wait_budget start log (Ok Selection.Committed) w'.
Proof.
  do 2 eexists. split; [vm_compute; reflexivity|].
  eapply (await_selection_async_claims scripted_committed default_wait_async
    scripted_committed_time (λ u w, proj1 (default_wait_async_polls u w)) scripted_probe_until
    scripted_probe_until_time 9 wait_budget (MkSim 0 [(true, None)])).
  - split; discriminate.
  - vm_compute. reflexivity.
Defined.

Lemma await_selection_ends_witness :
  ∃ r w', await_selection scripted_committed default_wait scripted_probe
    (enough_rounds wait_budget) wait_budget (MkSim 0 [(false, None)]) = (Some r, w').
Proof.
  apply (await_selection_ends scripted_committed scripted_probe).
  - apply scripted_committed_time.
  - apply scripted_probe_time.
Defined.
