(* ===== verification/Observation.v ===== *)
(** * Local observations (src/observation.rs)

    Counters and a bounded event queue, and the blocking and async I/O adapters
    that feed them. Counters are atomics, so they wrap at 64 bits. *)
From S2P Require Import Prelude.

Module Direction.
Inductive t := Read | Write.
#[global] Instance eq_dec : EqDecision t.
Proof. solve_decision. Defined.
End Direction.

Module Event.
Inductive t :=
| Connected | Disconnected | ReadClosed
| IoFailed (direction : Direction.t) (kind : ErrorKind)
| Rejected | DrainStarted | DrainCompleted | DrainTimedOut
| HandoffStarted | HandoffCompleted | HandoffAborted.
#[global] Instance eq_dec : EqDecision t.
Proof. solve_decision. Defined.
End Event.

Record TimedEvent : Type := MkTimedEvent { elapsed : Z; event : Event.t }.

Module Progress.
Record t := mk {
  bytes : Z; pending : Z; busy_since : Z; last_progress : Z; errors : Z;
}.
Definition default : t := mk 0 0 0 0 0.
End Progress.

Module ProgressSnapshot.
Record t := mk {
  bytes : Z; pending : Z; busy_for : option Z; since_progress : option Z; errors : Z;
}.
End ProgressSnapshot.

Module Snapshot.
Record t := mk {
  connections : Z; read : ProgressSnapshot.t; write : ProgressSnapshot.t; lost_events : Z;
}.
End Snapshot.

Module Observations.
(** [started] is the origin of every time below; [events] is the queue. *)
Record t := mk {
  started : Z;
  read : Progress.t;
  write : Progress.t;
  connections : Z;
  events : list TimedEvent;
  event_capacity : nat;
  lost_events : Z;
}.

Definition new (now : Z) (event_capacity : nat) : t :=
  mk now Progress.default Progress.default 0 [] event_capacity 0.

Definition progress (o : t) (d : Direction.t) : Progress.t :=
  match d with Direction.Read => read o | Direction.Write => write o end.

(** Updates of one field of the shared value. *)
Definition set_progress (d : Direction.t) (p : Progress.t) (o : t) : t :=
  match d with
  | Direction.Read =>
      mk (started o) p (write o) (connections o) (events o) (event_capacity o) (lost_events o)
  | Direction.Write =>
      mk (started o) (read o) p (connections o) (events o) (event_capacity o) (lost_events o)
  end.
Definition set_connections (n : Z) (o : t) : t :=
  mk (started o) (read o) (write o) n (events o) (event_capacity o) (lost_events o).
Definition set_events (l : list TimedEvent) (o : t) : t :=
  mk (started o) (read o) (write o) (connections o) l (event_capacity o) (lost_events o).
Definition set_lost (n : Z) (o : t) : t :=
  mk (started o) (read o) (write o) (connections o) (events o) (event_capacity o) n.

(** [self.started.elapsed()] at [now]. *)
Definition since_start (o : t) (now : Z) : Z := saturating_sub now (started o).

(** [record]; [free] says whether [try_lock] found the queue's lock free. *)
Definition record (now : Z) (free : bool) (e : Event.t) (o : t) : t :=
  if decide (event_capacity o = O) then o else
  if free && bool_decide (length (events o) < event_capacity o)%nat
  then set_events (events o ++ [MkTimedEvent (since_start o now) e]) o
  else set_lost (wrap64 (lost_events o + 1)) o.

Definition take_events (o : t) : list TimedEvent * t := (events o, set_events [] o).

Definition progress_snapshot (o : t) (now : Z) (p : Progress.t) : ProgressSnapshot.t :=
  let last := Progress.last_progress p in
  let pending := Progress.pending p in
  ProgressSnapshot.mk (Progress.bytes p) pending
    (if decide (pending = 0) then None
     else Some (saturating_sub (since_start o now) (Progress.busy_since p)))
    (if decide (last = 0) then None
     else Some (saturating_sub (since_start o now) (last - 1)))
    (Progress.errors p).

Definition snapshot (now : Z) (o : t) : Snapshot.t :=
  Snapshot.mk (connections o) (progress_snapshot o now (read o))
    (progress_snapshot o now (write o)) (lost_events o).

(** [start]: one more call in progress; the first one notes when it became busy. *)
Definition start (now : Z) (d : Direction.t) (o : t) : t :=
  let p := progress o d in
  let busy := if decide (Progress.pending p = 0)
              then Z.min (since_start o now) u64_max else Progress.busy_since p in
  set_progress d (Progress.mk (Progress.bytes p) (wrap64 (Progress.pending p + 1)) busy
    (Progress.last_progress p) (Progress.errors p)) o.

(** [pending.fetch_sub(1)], when a call ends. *)
Definition finish (d : Direction.t) (o : t) : t :=
  let p := progress o d in
  set_progress d (Progress.mk (Progress.bytes p) (wrap64 (Progress.pending p - 1))
    (Progress.busy_since p) (Progress.last_progress p) (Progress.errors p)) o.

Definition transferred (now : Z) (d : Direction.t) (n : Z) (o : t) : t :=
  if decide (n = 0) then o else
  let p := progress o d in
  let elapsed := Z.min (since_start o now) (u64_max - 1) in
  set_progress d (Progress.mk (wrap64 (Progress.bytes p + n)) (Progress.pending p)
    (Progress.busy_since p) (Z.max (Progress.last_progress p) (elapsed + 1))
    (Progress.errors p)) o.

Definition failed (now : Z) (free : bool) (d : Direction.t) (e : io_error) (o : t) : t :=
  if decide (kind e = Interrupted ∨ kind e = WouldBlock) then o else
  let p := progress o d in
  record now free (Event.IoFailed d (kind e))
    (set_progress d (Progress.mk (Progress.bytes p) (Progress.pending p)
      (Progress.busy_since p) (Progress.last_progress p) (wrap64 (Progress.errors p + 1))) o).
End Observations.

(** ** Adapters

    An adapter of one connection over shared observations. [now] and [free] are
    the clock and the queue's lock at the time of the call. *)
Module ObservedIo.
Import Observations.

(** [new] counts the connection; the second component is [read_closed]. *)
Definition new (now : Z) (free : bool) (o : t) : t * bool :=
  (record now free Event.Connected (set_connections (wrap64 (connections o + 1)) o), false).

Definition drop (now : Z) (free : bool) (o : t) : t :=
  record now free Event.Disconnected (set_connections (wrap64 (connections o - 1)) o).

(** [read] into a buffer of [len] bytes, given what the inner transport answers. *)
Definition read (now : Z) (free : bool) (len : Z) (inner : io_result Z)
    (o : t) (read_closed : bool) : t * bool :=
  let o := start now Direction.Read o in
  let '(o, read_closed) :=
    match inner with
    | Ok n =>
        if decide (n = 0 ∧ len ≠ 0 ∧ read_closed = false)
        then (record now free Event.ReadClosed o, true)
        else (transferred now Direction.Read n o, read_closed)
    | Err e => (failed now free Direction.Read e o, read_closed)
    end in
  (finish Direction.Read o, read_closed).

Definition write (now : Z) (free : bool) (inner : io_result Z) (o : t) : t :=
  let o := start now Direction.Write o in
  let o := match inner with
    | Ok n => transferred now Direction.Write n o
    | Err e => failed now free Direction.Write e o
    end in
  finish Direction.Write o.

Definition flush (now : Z) (free : bool) (inner : io_result unit) (o : t) : t :=
  let o := start now Direction.Write o in
  let o := match inner with
    | Ok _ => o
    | Err e => failed now free Direction.Write e o
    end in
  finish Direction.Write o.
End ObservedIo.

Module AsyncObservedIo.
Import Observations.

(** The adapter's own flags; [read_pending] and [write_pending] say that a call
    it counted is still pending. *)
Record adapter := mk { read_closed : bool; read_pending : bool; write_pending : bool }.

Definition pending_flag (a : adapter) (d : Direction.t) : bool :=
  match d with Direction.Read => read_pending a | Direction.Write => write_pending a end.
Definition set_flag (d : Direction.t) (b : bool) (a : adapter) : adapter :=
  match d with
  | Direction.Read => mk (read_closed a) b (write_pending a)
  | Direction.Write => mk (read_closed a) (read_pending a) b
  end.

Definition new (now : Z) (free : bool) (o : t) : t * adapter :=
  let '(o, closed) := ObservedIo.new now free o in (o, mk closed false false).

Definition begin (now : Z) (d : Direction.t) (s : t * adapter) : t * adapter :=
  let '(o, a) := s in
  if pending_flag a d then (o, a) else (start now d o, set_flag d true a).

Definition end_ (d : Direction.t) (s : t * adapter) : t * adapter :=
  let '(o, a) := s in
  if pending_flag a d then (finish d o, set_flag d false a) else (o, a).

(** [Drop for AsyncObservedIo], then of the adapter it wraps. *)
Definition drop (now : Z) (free : bool) (s : t * adapter) : t :=
  ObservedIo.drop now free (end_ Direction.Write (end_ Direction.Read s)).1.

(** [poll_read] with [capacity] bytes of room; [None] is [Poll::Pending], and an
    answer carries the bytes the inner transport filled in. *)
Definition poll_read (now : Z) (free : bool) (capacity : Z)
    (inner : option (io_result Z)) (s : t * adapter) : t * adapter :=
  let s := begin now Direction.Read s in
  match inner with
  | None => s
  | Some r =>
      let '(o, a) := end_ Direction.Read s in
      match r with
      | Ok n =>
          let o := transferred now Direction.Read n o in
          if decide (n = 0 ∧ capacity ≠ 0 ∧ read_closed a = false)
          then (record now free Event.ReadClosed o, mk true (read_pending a) (write_pending a))
          else (o, a)
      | Err e => (failed now free Direction.Read e o, a)
      end
  end.

Definition poll_write (now : Z) (free : bool) (inner : option (io_result Z))
    (s : t * adapter) : t * adapter :=
  let s := begin now Direction.Write s in
  match inner with
  | None => s
  | Some r =>
      let '(o, a) := end_ Direction.Write s in
      match r with
      | Ok n => (transferred now Direction.Write n o, a)
      | Err e => (failed now free Direction.Write e o, a)
      end
  end.

(** [poll_flush] and [poll_shutdown] count the same way. *)
Definition poll_flush (now : Z) (free : bool) (inner : option (io_result unit))
    (s : t * adapter) : t * adapter :=
  let s := begin now Direction.Write s in
  match inner with
  | None => s
  | Some r =>
      let '(o, a) := end_ Direction.Write s in
      match r with
      | Ok _ => (o, a)
      | Err e => (failed now free Direction.Write e o, a)
      end
  end.
Definition poll_shutdown := poll_flush.
End AsyncObservedIo.

(** ** The event queue *)

Module Queue.
Import Observations.

(** What producers and consumers do with the queue. *)
Inductive op := Record (now : Z) (free : bool) (e : Event.t) | Take.

Definition exec (s : t * list TimedEvent) (x : op) : t * list TimedEvent :=
  let '(o, taken) := s in
  match x with
  | Record now free e => (record now free e o, taken)
  | Take => let '(l, o) := take_events o in (o, taken ++ l)
  end.

Definition recorded (ops : list op) : list Event.t :=
  omap (λ x, match x with Record _ _ e => Some e | Take => None end) ops.

(** Everything that came out or still waits, in order. *)
Definition delivered (s : t * list TimedEvent) : list Event.t := event <$> s.2 ++ events s.1.

Record accounted (cap : nat) (s : t * list TimedEvent) (es : list Event.t) : Prop := {
  acc_cap : event_capacity s.1 = cap;
  acc_len : (length (events s.1) ≤ cap)%nat;
  acc_order : delivered s `sublist_of` es;
  acc_lost : cap ≠ O →
    lost_events s.1 = wrap64 (Z.of_nat (length es) - Z.of_nat (length (delivered s)));
}.

Lemma accounted_record cap s es now free e :
  accounted cap s es → accounted cap (exec s (Record now free e)) (es ++ [e]).
Proof.
  intros [Hc Hl Ho Hx]. destruct s as [o taken]. unfold exec, record. simpl in *.
  assert (∀ l : list Event.t, l `sublist_of` es → l `sublist_of` es ++ [e]) as Hskip.
  { intros l Hsub. etrans; [exact Hsub|]. by apply sublist_inserts_r. }
  case_decide as H0.
  { split; simpl; [done..|auto|]. rewrite Hc in H0. by intros. }
  destruct (free && _) eqn:Hf; split; simpl; try done.
  - bools. rewrite length_app. simpl. lia.
  - unfold delivered in *. simpl in *. rewrite app_assoc, fmap_app. simpl.
    by apply sublist_app.
  - intros Hcap. rewrite Hx by done. unfold delivered. simpl.
    rewrite !length_fmap, !length_app. simpl. f_equal. lia.
  - auto.
  - intros Hcap. rewrite Hx by done. rewrite wrap64_succ, !length_app. simpl.
    unfold delivered. simpl. f_equal. lia.
Qed.

Lemma accounted_take cap s es :
  accounted cap s es → accounted cap (exec s Take) es.
Proof.
  intros [Hc Hl Ho Hx]. destruct s as [o taken]. simpl in *.
  split; unfold delivered in *; simpl in *; rewrite ?app_nil_r; auto. lia.
Qed.

(** The event queue never holds more than its capacity, and delivers events
    in the order they were recorded; every event that was recorded and neither
    delivered nor still queued is counted as lost. *)
Theorem queue_accounts_for_every_event start cap ops :
  accounted cap (foldl exec (new start cap, []) ops) (recorded ops).
Proof.
  induction ops as [|x ops IH] using rev_ind.
  - split; simpl; [done|lia|done|]. by intros _.
  - rewrite foldl_app. simpl. unfold recorded in *. rewrite omap_app.
    destruct x as [now free e|]; simpl.
    + by apply accounted_record.
    + rewrite app_nil_r. by apply accounted_take.
Qed.
End Queue.

(** ** The counters *)

Module Balance.
Import Observations AsyncObservedIo.

Lemma wrap64_undo n : is_u64 n → wrap64 (wrap64 (n + 1) - 1) = n.
Proof.
  intros Hn. unfold wrap64. rewrite Zminus_mod_idemp_l, Z.add_simpl_r.
  by apply wrap64_small.
Qed.

(** The parts of the observations a call in progress is counted in. *)
Definition counts (o : t) : Z * Z * Z :=
  (Progress.pending (read o), Progress.pending (write o), connections o).

Lemma counts_record now free e o : counts (record now free e o) = counts o.
Proof. unfold record. case_decide; [done|]. by destruct (_ && _). Qed.
Lemma counts_transferred now d n o : counts (transferred now d n o) = counts o.
Proof. unfold transferred. case_decide; [done|]. by destruct d. Qed.
Lemma counts_failed now free d e o : counts (failed now free d e o) = counts o.
Proof. unfold failed. case_decide; [done|]. rewrite counts_record. by destruct d. Qed.

(** The counts of a connection's adapter over observations that counted [base]. *)
Definition carries (base : Z * Z * Z) (s : t * adapter) : Prop :=
  let '(r, w, c) := base in
  counts s.1 = (if read_pending s.2 then wrap64 (r + 1) else r,
                if write_pending s.2 then wrap64 (w + 1) else w,
                wrap64 (c + 1)).

Definition base_ok (base : Z * Z * Z) : Prop :=
  let '(r, w, c) := base in is_u64 r ∧ is_u64 w ∧ is_u64 c.

Lemma carries_begin base now d s : carries base s → carries base (begin now d s).
Proof.
  destruct base as [[r w] c], s as [o [cl rp wp]]. unfold carries, counts, begin; simpl.
  destruct d, rp, wp; simpl; intros [= Hr Hw Hc]; rewrite ?Hr, ?Hw, ?Hc; done.
Qed.

Lemma carries_end base d s : base_ok base → carries base s → carries base (end_ d s).
Proof.
  destruct base as [[r w] c], s as [o [cl rp wp]]. intros (Hr' & Hw' & Hc').
  unfold carries, counts, end_; simpl.
  destruct d, rp, wp; simpl; intros [= Hr Hw Hc]; rewrite ?Hr, ?Hw, ?Hc, ?wrap64_undo; done.
Qed.

Lemma carries_same base (s s' : t * adapter) :
  counts s'.1 = counts s.1 → read_pending s'.2 = read_pending s.2 →
  write_pending s'.2 = write_pending s.2 → carries base s → carries base s'.
Proof. destruct base as [[r w] c]. unfold carries. by intros -> -> ->. Qed.

(** Everything a task may do with its async connection. *)
Inductive poll :=
| PollRead (now : Z) (free : bool) (capacity : Z) (inner : option (io_result Z))
| PollWrite (now : Z) (free : bool) (inner : option (io_result Z))
| PollFlush (now : Z) (free : bool) (inner : option (io_result unit))
| PollShutdown (now : Z) (free : bool) (inner : option (io_result unit)).

Definition exec (s : t * adapter) (x : poll) : t * adapter :=
  match x with
  | PollRead now free capacity inner => poll_read now free capacity inner s
  | PollWrite now free inner => poll_write now free inner s
  | PollFlush now free inner => poll_flush now free inner s
  | PollShutdown now free inner => poll_shutdown now free inner s
  end.

Lemma carries_exec base s x : base_ok base → carries base s → carries base (exec s x).
Proof.
  intros Hb Hs.
  assert (∀ now d, carries base (end_ d (begin now d s))) as Hend
    by (intros; by apply carries_end, carries_begin).
  destruct x as [now free cap inner|now free inner|now free inner|now free inner];
    simpl; unfold poll_read, poll_write, poll_shutdown, poll_flush;
    (destruct inner as [r|]; [|by apply carries_begin]).
  - specialize (Hend now Direction.Read). destruct (end_ _ _) as [o a].
    destruct r as [n|e]; [case_decide|]; (eapply carries_same; [..|exact Hend]); simpl;
      rewrite ?counts_record, ?counts_failed, ?counts_transferred; done.
  - specialize (Hend now Direction.Write). destruct (end_ _ _) as [o a].
    destruct r as [n|e]; (eapply carries_same; [..|exact Hend]); simpl;
      rewrite ?counts_failed, ?counts_transferred; done.
  - specialize (Hend now Direction.Write). destruct (end_ _ _) as [o a].
    destruct r as [n|e]; (eapply carries_same; [..|exact Hend]); simpl;
      rewrite ?counts_failed; done.
  - specialize (Hend now Direction.Write). destruct (end_ _ _) as [o a].
    destruct r as [n|e]; (eapply carries_same; [..|exact Hend]); simpl;
      rewrite ?counts_failed; done.
Qed.

(** However an async connection is polled, and wherever its polls were left
    pending, dropping it leaves the number of connections and of calls in
    progress as they were before it was wrapped. *)
Theorem dropped_connection_leaves_no_count o now0 free0 polls now1 free1 :
  base_ok (counts o) →
  counts (drop now1 free1 (foldl exec (AsyncObservedIo.new now0 free0 o) polls)) = counts o.
Proof.
  intros Hb. assert (carries (counts o) (foldl exec (AsyncObservedIo.new now0 free0 o) polls)) as Hc.
  { induction polls as [|x polls IH] using rev_ind.
    - unfold carries. simpl. rewrite counts_record. done.
    - rewrite foldl_app. by apply carries_exec. }
  destruct (foldl _ _ _) as [o' [cl rp wp]]. unfold drop, ObservedIo.drop.
  rewrite counts_record. revert Hc. unfold counts in *. destruct Hb as (Hr & Hw & Hcn).
  unfold carries, end_, counts. simpl.
  destruct rp, wp; simpl; intros [= E1 E2 E3]; rewrite ?E1, ?E2, ?E3, ?wrap64_undo; done.
Qed.

Lemma dropped_connection_leaves_no_count_witness :
  counts (drop 9 true (foldl exec (AsyncObservedIo.new 1 true (Observations.new 0 4))
    [PollRead 2 true 8 None; PollWrite 3 true (Some (Ok 5)); PollWrite 4 false None]))
  = (0, 0, 0).
Proof.
  apply (dropped_connection_leaves_no_count (Observations.new 0 4)).
  repeat split; vm_compute; discriminate.
Defined.
End Balance.
