(* ===== verification/Lifecycle.v ===== *)
(** * Request admission and drain (src/lifecycle.rs)

    The admission gate every session of a daemon shares. All of its state is
    behind one mutex, so each operation is one atomic step, and concurrent use is
    a sequence of them. *)
From S2P Require Import Prelude Observation.

Module Lifecycle.
(** The mutex-protected state, and the version of the [watch] channel that
    wakes waiting tasks: [send_replace] advances it. *)
Record t := mk {
  draining : bool;
  active : Z;
  drain_started : option Z;
  changes : nat;
}.

Definition default : t := mk false 0 None 0.

(** Operations also say which events they record, in order; see [record]. *)

(** [begin]: a guard unless draining has started. *)
Definition begin (l : t) : bool * t :=
  if draining l then (false, l)
  else (true, mk (draining l) (wrap64 (active l + 1)) (drain_started l) (changes l)).

(** [start_drain] at [now]; only the first call is true. *)
Definition start_drain (now : Z) (l : t) : bool * t * list Event.t :=
  if draining l then (false, l, [])
  else (true, mk true (active l) (Some now) (S (changes l)),
        Event.DrainStarted ::
          (if decide (active l = 0) then [Event.DrainCompleted] else [])).

Definition accepting_calls (l : t) : bool := negb (draining l).

(** [Drop for RequestGuard]. *)
Definition drop_guard (l : t) : t * list Event.t :=
  let n := wrap64 (active l - 1) in
  if decide (draining l = true ∧ n = 0)
  then (mk (draining l) n (drain_started l) (S (changes l)), [Event.DrainCompleted])
  else (mk (draining l) n (drain_started l) (changes l), []).

Record LifecycleSnapshot := MkSnapshot {
  snap_active : Z; snap_draining : bool; draining_for : option Z;
}.

Definition snapshot (now : Z) (l : t) : LifecycleSnapshot :=
  MkSnapshot (active l) (draining l) (saturating_sub now <$> drain_started l).

(** What a task waiting on the [watch] channel does when it runs: mark the
    current version as seen, test its condition, and either finish or sleep
    until the version differs from the one it saw. *)
Inductive poll := Ready | Blocked (seen : nat).

Definition wait_for (condition : t → bool) (l : t) : poll :=
  if condition l then Ready else Blocked (changes l).

Definition runnable (p : poll) (l : t) : bool :=
  match p with Ready => true | Blocked seen => bool_decide (changes l ≠ seen) end.

(** The loop of [draining], and of [drain] once it has started the drain. *)
Definition poll_draining : t → poll := wait_for draining.
Definition poll_drained : t → poll := wait_for (λ l, bool_decide (active l = 0)).

(** [unless_draining]: the select is biased, so closed admission wins. [None]
    while neither is ready. *)
Definition unless_draining {A} (operation : option A) (l : t) : option (option A) :=
  if draining l then Some None else Some <$> operation.

Inductive DrainOutcome := Complete | TimedOut (active : Z).

(** [drain_until], after [timeout_at] ended: [finished] says the drain did, and
    [l] is the state read then. *)
Definition drain_until (finished : bool) (l : t) : DrainOutcome * list Event.t :=
  if finished then (Complete, []) else
  if decide (active l = 0) then (Complete, []) else (TimedOut (active l), [Event.DrainTimedOut]).

(** [record]: hand the events to the attached observations, if any. *)
Definition record (now : Z) (free : bool) (es : list Event.t)
    (o : option Observations.t) : option Observations.t :=
  (λ o, foldl (λ o e, Observations.record now free e o) o es) <$> o.
End Lifecycle.

(** ** Sequences of operations *)

Module Use.
Import Lifecycle.

(** What the sessions of a daemon do with the gate. A guard can be dropped only
    by a session that holds one. *)
Inductive op := Begin | StartDrain (now : Z) | DropGuard.

(** The gate, the guards that are held, and the events recorded so far. *)
Record sys := Sys { gate : t; guards : nat; log : list Event.t }.

Definition start : sys := Sys default 0 [].

Definition exec (s : sys) (x : op) : sys :=
  match x with
  | Begin =>
      let '(granted, l) := begin (gate s) in
      Sys l (if granted then S (guards s) else guards s) (log s)
  | StartDrain now =>
      let '(_, l, es) := start_drain now (gate s) in Sys l (guards s) (log s ++ es)
  | DropGuard =>
      match guards s with
      | O => s
      | S n => let '(l, es) := drop_guard (gate s) in Sys l n (log s ++ es)
      end
  end.

Definition run : sys → list op → sys := foldl exec.

(** The gate counts its guards, and has recorded exactly what happened. *)
Record sound (s : sys) : Prop := {
  sound_active : active (gate s) = Z.of_nat (guards s);
  sound_range : is_u64 (Z.of_nat (guards s));
  sound_log : log s =
    if draining (gate s) then
      Event.DrainStarted :: (if decide (guards s = O) then [Event.DrainCompleted] else [])
    else [];
  sound_started : is_Some (drain_started (gate s)) ↔ draining (gate s) = true;
}.

Lemma wrap64_pred n : is_u64 (Z.of_nat (S n)) → wrap64 (Z.of_nat (S n) - 1) = Z.of_nat n.
Proof. intros Hn. in_range. Qed.

Lemma gate_sound_exec s x :
  sound s → Z.of_nat (guards s) < usize_max → sound (exec s x).
Proof.
  intros [Ha Hr Hl Hs] Hlt. destruct s as [[d a st c] g lg], x as [|now|]; simpl in *.
  - unfold begin; simpl. destruct d; simpl; [by split|].
    split; simpl; [|unfold is_u64, u64_max, usize_max in *; lia|done..].
    in_range.
  - unfold start_drain; simpl. destruct d; simpl; [by rewrite app_nil_r; split|].
    split; simpl; [done|done| |by eauto]. rewrite Hl. simpl.
    repeat case_decide; done || lia.
  - destruct g as [|n]; [by split|]. unfold drop_guard; simpl.
    subst a. rewrite wrap64_pred by done.
    assert (is_u64 (Z.of_nat n)) by (unfold is_u64 in *; lia).
    destruct (decide (d = true ∧ Z.of_nat n = 0)) as [[-> Hn]|Hd]; split; simpl; try done; subst lg.
    + assert (n = O) as -> by lia. done.
    + destruct d; [|done]. rewrite app_nil_r. do 2 f_equal.
      rewrite decide_False by done. rewrite decide_False; [done|]. intros ->. by apply Hd.
Qed.

Lemma guards_exec s x : (guards (exec s x) ≤ S (guards s))%nat.
Proof.
  destruct s as [[d a st c] g lg], x as [|now|]; simpl.
  - unfold begin; simpl. destruct d; simpl; lia.
  - unfold start_drain; simpl. destruct d; simpl; lia.
  - destruct g; simpl; [lia|]. unfold drop_guard; simpl. case_decide; simpl; lia.
Qed.

Lemma guards_run ops : (guards (run start ops) ≤ length ops)%nat.
Proof.
  induction ops as [|x ops IH] using rev_ind; [done|].
  unfold run in *. rewrite foldl_app, length_app. simpl.
  pose proof (guards_exec (foldl exec start ops) x). lia.
Qed.

Lemma gate_run_sound ops : Z.of_nat (length ops) ≤ usize_max → sound (run start ops).
Proof.
  induction ops as [|x ops IH] using rev_ind.
  - intros _. split; simpl; [done|unfold is_u64, u64_max; lia|done|].
    by rewrite <- not_eq_None_Some.
  - rewrite length_app. simpl. intros Hlen. unfold run. rewrite foldl_app. simpl.
    apply gate_sound_exec; [apply IH; lia|]. pose proof (guards_run ops). unfold run in *. lia.
Qed.



(** Admission, once closed, stays closed, and no version is ever lost. *)
Lemma closed_exec s x :
  (draining (gate s) = true → draining (gate (exec s x)) = true) ∧
  (changes (gate s) ≤ changes (gate (exec s x)))%nat ∧
  (draining (gate s) = false → draining (gate (exec s x)) = true →
     (changes (gate s) < changes (gate (exec s x)))%nat).
Proof.
  destruct s as [[d a st c] g lg], x as [|now|]; simpl.
  - unfold begin; simpl. destruct d; simpl; split_and!; done || lia.
  - unfold start_drain; simpl. destruct d; simpl; split_and!; done || lia.
  - destruct g; simpl; [split_and!; naive_solver lia|].
    unfold drop_guard; simpl. case_decide; simpl; split_and!; naive_solver lia.
Qed.

(** While admission is closed, guards only go away, and the last one to go moves
    the version. *)
Lemma drained_exec s x :
  sound s → draining (gate s) = true →
  (guards (exec s x) ≤ guards s)%nat ∧
  (active (gate s) ≠ 0 → active (gate (exec s x)) = 0 →
     (changes (gate s) < changes (gate (exec s x)))%nat).
Proof.
  intros [Ha Hr _ _]. destruct s as [[d a st c] g lg], x as [|now|]; simpl in *; intros ->.
  - split; done || lia.
  - split; done || lia.
  - destruct g as [|n]; simpl; [split; done || lia|]. unfold drop_guard; simpl.
    destruct (decide _) as [Hd|Hd]; simpl; split; lia.
Qed.

Lemma draining_run s ops :
  draining (gate s) = true → draining (gate (run s ops)) = true.
Proof.
  revert s. induction ops as [|x ops IH]; intros s Hd; [done|]. simpl. apply IH.
  by apply closed_exec.
Qed.

Lemma changes_run s ops : (changes (gate s) ≤ changes (gate (run s ops)))%nat.
Proof.
  revert s. induction ops as [|x ops IH]; intros s; simpl; [lia|].
  etrans; [apply closed_exec|apply IH].
Qed.

(** A condition whose becoming true always moves the version wakes its waiters. *)
Lemma wakes (condition : t → bool) (P : sys → Prop) :
  (∀ s x, P s → P (exec s x) ∧
    (condition (gate s) = false → condition (gate (exec s x)) = true →
       (changes (gate s) < changes (gate (exec s x)))%nat)) →
  ∀ ops s, P s → condition (gate s) = false → condition (gate (run s ops)) = true →
    (changes (gate s) < changes (gate (run s ops)))%nat.
Proof.
  intros Hstep ops. induction ops as [|x ops IH]; intros s HP Hf Ht; [simpl in *; congruence|].
  simpl in *. destruct (Hstep s x HP) as [HP' Hmove].
  destruct (condition (gate (exec s x))) eqn:Hc.
  - pose proof (changes_run (exec s x) ops). specialize (Hmove Hf eq_refl). lia.
  - specialize (IH _ HP' Hc Ht). destruct (closed_exec s x) as (_ & Hle & _). lia.
Qed.

(** Admission is closed, the gate is sound and counts at most [n] guards. *)
Definition closing (n : nat) (s : sys) : Prop :=
  draining (gate s) = true ∧ (guards s ≤ n)%nat ∧ sound s.

Lemma closing_exec n s x :
  Z.of_nat n < usize_max → closing n s →
  closing n (exec s x) ∧
  (bool_decide (active (gate s) = 0) = false → bool_decide (active (gate (exec s x)) = 0) = true →
     (changes (gate s) < changes (gate (exec s x)))%nat).
Proof.
  intros Hn (Hd & Hle & Hs). destruct (drained_exec s x Hs Hd) as [Hgs Hmove]. split.
  - split_and!; [by apply closed_exec|lia|]. apply gate_sound_exec; [done|lia].
  - rewrite bool_decide_eq_false, bool_decide_eq_true. done.
Qed.

Lemma closing_run n s ops : Z.of_nat n < usize_max → closing n s → closing n (run s ops).
Proof.
  intros Hn. revert s. induction ops as [|x ops IH]; intros s Hc; [done|].
  simpl. apply IH. by apply closing_exec.
Qed.

(** C23: no wake-up is lost. A task that went to sleep in [draining] is runnable
    once admission has closed, and one asleep in [drain] is runnable once the
    last guard is gone, however its test and the other operations interleave. *)
Theorem sleeping_tasks_are_woken before after :
  Z.of_nat (length (before ++ after)) < usize_max →
  let s := run start before in
  let s' := run s after in
  (draining (gate s') = true → runnable (poll_draining (gate s)) (gate s') = true) ∧
  (draining (gate s) = true → guards s' = O → runnable (poll_drained (gate s)) (gate s') = true).
Proof.
  rewrite length_app. intros Hlen s s'. split.
  - intros Hd. unfold poll_draining, wait_for. destruct (draining (gate s)) eqn:Hs; [done|]. simpl.
    apply bool_decide_eq_true.
    assert (changes (gate s) < changes (gate s'))%nat; [|lia].
    apply (wakes draining (λ _, True)); [|done..]. intros s0 x _. split; [done|]. apply closed_exec.
  - intros Hdr Hg. unfold poll_drained, wait_for.
    case_bool_decide as Ha; [done|]. simpl. apply bool_decide_eq_true.
    assert (Z.of_nat (guards s) < usize_max) as Hlt.
    { pose proof (guards_run before). subst s. lia. }
    assert (closing (guards s) s) as Hc by (split_and!; [done..|apply gate_run_sound; lia]).
    assert (changes (gate s) < changes (gate s'))%nat; [|lia].
    apply (wakes (λ l, bool_decide (active l = 0)) (closing (guards s))); [|done| |].
    + intros s0 x. by apply closing_exec.
    + by apply bool_decide_eq_false.
    + apply bool_decide_eq_true. destruct (closing_run _ s after Hlt Hc) as (_ & _ & [Hact _ _ _]).
      fold s' in Hact. rewrite Hg in Hact. done.
Qed.

Lemma sleeping_tasks_are_woken_witness :
  runnable (poll_drained (gate (run start [Begin; StartDrain 5])))
           (gate (run (run start [Begin; StartDrain 5]) [DropGuard])) = true ∧
  poll_drained (gate (run start [Begin; StartDrain 5])) = Blocked 1.
Proof.
  split; [|reflexivity].
  apply (sleeping_tasks_are_woken [Begin; StartDrain 5] [DropGuard]); [vm_compute; reflexivity|done..].
Defined.
End Use.
