(* ===== verification/Text.v ===== *)
(** * Text of numbers and white space

    What the code uses of [str]: decimal integers ([u64::to_string] and
    [str::parse]), [str::trim] and the UTF-8 of white space. A [str] is its
    bytes. *)
From S2P Require Import Prelude.

(** ** Decimal integers *)

Definition digit (d : Z) : byte := byte_of (48 + d).

Lemma digit_val d : 0 ≤ d < 10 → byte_val (digit d) = 48 + d.
Proof. intros Hd. apply byte_val_byte_of. lia. Qed.

Lemma digit_is_digit d : 0 ≤ d < 10 → is_ascii_digit (digit d) = true.
Proof. intros Hd. unfold is_ascii_digit. rewrite digit_val by done. apply andb_true_intro; split; lia. Qed.

Fixpoint digits (fuel : nat) (n : Z) : bytes :=
  match fuel with
  | O => []
  | S fuel => if n <? 10 then [digit n] else digits fuel (n / 10) ++ [digit (n mod 10)]
  end.

(** [n.to_string()] of an unsigned integer. *)
Definition to_string (n : Z) : bytes := digits (S (Z.to_nat n)) n.

(** One digit of [from_str_radix]: multiply, then add, each checked. *)
Definition push_digit (limit : Z) (acc : option Z) (b : byte) : option Z :=
  acc ≫= λ a,
  if is_ascii_digit b then
    if a * 10 <=? limit then
      if a * 10 + (byte_val b - 48) <=? limit then Some (a * 10 + (byte_val b - 48)) else None
    else None
  else None.

Definition parse_digits (limit : Z) (l : bytes) : option Z :=
  foldl (push_digit limit) (Some 0) l.

(** [str::parse] of an unsigned integer of at most [limit]: at least one digit
    after an optional plus sign. *)
Definition parse_uint (limit : Z) (l : bytes) : option Z :=
  match l with
  | [] => None
  | b :: rest =>
      if decide (b = "+"%byte) then
        match rest with [] => None | _ => parse_digits limit rest end
      else parse_digits limit l
  end.

Definition parse_u64 : bytes → option Z := parse_uint u64_max.
Definition parse_u32 : bytes → option Z := parse_uint u32_max.

Lemma digits_fuel f g n :
  0 ≤ n → (Z.to_nat n < f)%nat → (Z.to_nat n < g)%nat → digits f n = digits g n.
Proof.
  revert g n. induction f as [|f IH]; intros [|g] n Hn Hf Hg; [lia..|]. simpl.
  destruct (Z.ltb_spec n 10); [done|]. f_equal.
  assert (n / 10 < n) by (apply Z.div_lt; lia). assert (0 ≤ n / 10) by (apply Z.div_pos; lia).
  apply IH; lia.
Qed.

(** Every number is one digit, or the digits of its tenth and its last digit. *)
Lemma to_string_step n :
  0 ≤ n → to_string n = if n <? 10 then [digit n] else to_string (n / 10) ++ [digit (n mod 10)].
Proof.
  intros Hn. unfold to_string at 1. simpl. destruct (Z.ltb_spec n 10); [done|]. f_equal.
  assert (n / 10 < n) by (apply Z.div_lt; lia). assert (0 ≤ n / 10) by (apply Z.div_pos; lia).
  apply digits_fuel; lia.
Qed.

Lemma decimal_ind (P : Z → Prop) :
  (∀ n, 0 ≤ n < 10 → P n) → (∀ n, 10 ≤ n → P (n / 10) → P n) → ∀ n, 0 ≤ n → P n.
Proof.
  intros Hbase Hstep n Hn. revert n Hn. apply (Zlt_0_ind P). intros n IH Hn. destruct (decide (n < 10)); [apply Hbase; lia|].
  apply Hstep; [lia|]. assert (0 ≤ n / 10) by (apply Z.div_pos; lia).
  apply IH. split; [done|]. apply Z.div_lt; lia.
Qed.

Lemma to_string_digits n : 0 ≤ n → Forall (λ b, is_ascii_digit b = true) (to_string n).
Proof.
  revert n. apply (decimal_ind (λ n, Forall _ (to_string n))); intros n Hn;
    rewrite (to_string_step n) by lia.
  - rewrite (proj2 (Z.ltb_lt _ _)) by lia. constructor; [|done]. by apply digit_is_digit.
  - intros IH. rewrite (proj2 (Z.ltb_ge _ _)) by lia. apply Forall_app. split; [done|].
    constructor; [|done]. apply digit_is_digit, Z.mod_pos_bound. lia.
Qed.

Lemma to_string_nonempty n : 0 ≤ n → to_string n ≠ [].
Proof.
  intros Hn. rewrite to_string_step by done. destruct (n <? 10); [done|]. by destruct (to_string _).
Qed.

Lemma parse_digits_to_string limit n : 0 ≤ n ≤ limit → parse_digits limit (to_string n) = Some n.
Proof.
  intros [Hn Hl]. revert Hl. revert n Hn. apply (decimal_ind (λ n, n ≤ limit → _ = Some n)); intros n Hn.
  - intros Hl. rewrite to_string_step by lia. rewrite (proj2 (Z.ltb_lt _ _)) by lia.
    unfold parse_digits, push_digit. simpl. rewrite digit_is_digit by done.
    rewrite digit_val by done. rewrite !(proj2 (Z.leb_le _ _)) by lia. f_equal. lia.
  - intros IH Hl. rewrite to_string_step by lia. rewrite (proj2 (Z.ltb_ge _ _)) by lia.
    unfold parse_digits in *. rewrite foldl_app.
    pose proof (Z.div_mod n 10). pose proof (Z.mod_pos_bound n 10). rewrite IH by lia. simpl.
    rewrite digit_is_digit by lia. rewrite digit_val by lia.
    rewrite !(proj2 (Z.leb_le _ _)) by lia. f_equal. lia.
Qed.

Lemma digit_not_plus b : is_ascii_digit b = true → b ≠ "+"%byte.
Proof. by intros Hb ->. Qed.

Lemma parse_to_string limit n : 0 ≤ n ≤ limit → parse_uint limit (to_string n) = Some n.
Proof.
  intros Hn. pose proof (to_string_digits n ltac:(lia)) as Hd.
  pose proof (to_string_nonempty n ltac:(lia)) as Hne. rewrite <- (parse_digits_to_string limit n Hn).
  unfold parse_uint. destruct (to_string n) as [|b rest]; [done|].
  rewrite decide_False; [done|]. apply digit_not_plus. by inversion Hd.
Qed.

Lemma to_string_inj m n : 0 ≤ m → 0 ≤ n → to_string m = to_string n → m = n.
Proof.
  intros Hm Hn E. pose proof (parse_to_string (Z.max m n) m ltac:(lia)) as H1.
  rewrite E, parse_to_string in H1 by lia. congruence.
Qed.

Lemma push_digit_range limit acc b n :
  0 ≤ limit → (∀ a, acc = Some a → 0 ≤ a ≤ limit) → push_digit limit acc b = Some n → 0 ≤ n ≤ limit.
Proof.
  intros Hl Hacc. unfold push_digit, is_ascii_digit. destruct acc as [a|]; [|done]. simpl.
  specialize (Hacc a eq_refl). repeat case_match; intros; simplify_eq; bools; lia.
Qed.

Lemma parse_digits_range limit l n : 0 ≤ limit → parse_digits limit l = Some n → 0 ≤ n ≤ limit.
Proof.
  intros Hl. unfold parse_digits. revert n.
  induction l as [|b l IH] using rev_ind; intros n; [simpl; intros; simplify_eq; lia|].
  rewrite foldl_app. simpl. apply push_digit_range; [done|]. intros a Ha. by apply IH.
Qed.

Lemma parse_uint_range limit l n : 0 ≤ limit → parse_uint limit l = Some n → 0 ≤ n ≤ limit.
Proof.
  intros Hl. unfold parse_uint. destruct l as [|b rest]; [done|].
  case_decide; [destruct rest; [done|]|]; by apply parse_digits_range.
Qed.

(** ** White space *)

(** The UTF-8 of every character with Unicode's [White_Space] property. *)
Definition white_space : list bytes :=
  [[x09]; [x0a]; [x0b]; [x0c]; [x0d]; [x20]; [xc2; x85]; [xc2; xa0]; [xe1; x9a; x80];
   [xe2; x80; x80]; [xe2; x80; x81]; [xe2; x80; x82]; [xe2; x80; x83]; [xe2; x80; x84];
   [xe2; x80; x85]; [xe2; x80; x86]; [xe2; x80; x87]; [xe2; x80; x88]; [xe2; x80; x89];
   [xe2; x80; x8a]; [xe2; x80; xa8]; [xe2; x80; xa9]; [xe2; x80; xaf]; [xe2; x81; x9f];
   [xe3; x80; x80]].

Fixpoint strip_any (prefixes : list bytes) (l : bytes) : option bytes :=
  match prefixes with
  | [] => None
  | p :: ps => match strip_prefix p l with Some rest => Some rest | None => strip_any ps l end
  end.

Fixpoint strip_while (fuel : nat) (prefixes : list bytes) (l : bytes) : bytes :=
  match fuel with
  | O => l
  | S fuel => match strip_any prefixes l with Some rest => strip_while fuel prefixes rest | None => l end
  end.

(** [str::trim]. In valid UTF-8 the bytes of a character occur only where that
    character is, so its end can be looked for from either side. *)
Definition trim_start (l : bytes) : bytes := strip_while (length l) white_space l.
Definition trim_end (l : bytes) : bytes :=
  reverse (strip_while (length l) (reverse <$> white_space) (reverse l)).
Definition trim (l : bytes) : bytes := trim_end (trim_start l).

Lemma strip_any_digit ps b l :
  Forall (λ p, ∃ c q, p = c :: q ∧ is_ascii_digit c = false) ps →
  is_ascii_digit b = true → strip_any ps (b :: l) = None.
Proof.
  intros Hps Hb. induction Hps as [|p ps (c & q & -> & Hc) _ IH]; [done|]. simpl.
  rewrite decide_False; [done|]. congruence.
Qed.

Lemma strip_while_digit fuel ps b l :
  Forall (λ p, ∃ c q, p = c :: q ∧ is_ascii_digit c = false) ps →
  is_ascii_digit b = true → strip_while fuel ps (b :: l) = b :: l.
Proof. intros. destruct fuel; [done|]. cbn [strip_while]. by rewrite strip_any_digit. Qed.

(** A text that starts and ends with a digit has no white space to trim. *)
Lemma trim_digits l : Forall (λ b, is_ascii_digit b = true) l → trim l = l.
Proof.
  intros Hl. unfold trim, trim_start.
  assert (strip_while (length l) white_space l = l) as ->.
  { destruct Hl as [|b l Hb _]; [done|]. apply strip_while_digit; [|done].
    unfold white_space. repeat constructor; eauto. }
  unfold trim_end. rewrite <- (reverse_involutive l) at 3. f_equal.
  rewrite <- Forall_reverse in Hl. destruct Hl as [|b r Hb _]; [by destruct (length l)|].
  apply strip_while_digit; [|done]. unfold white_space. repeat constructor; vm_compute; eauto.
Qed.

(** ** UTF-8 *)

(** A byte in a range, and a continuation byte. *)
Definition in_range (lo hi : Z) (b : byte) : bool := (lo <=? byte_val b) && (byte_val b <=? hi).
Definition continues (b : byte) : bool := in_range 128 191 b.

(** [str::from_utf8] accepts exactly the sequences of RFC 3629. *)
Fixpoint is_utf8 (l : bytes) : bool :=
  match l with
  | [] => true
  | a :: rest =>
      if byte_val a <? 128 then is_utf8 rest else
      match rest with
      | [] => false
      | b :: rest =>
          if in_range 194 223 a then continues b && is_utf8 rest else
          match rest with
          | [] => false
          | c :: rest =>
              if in_range 224 239 a then
                (if byte_val a =? 224 then in_range 160 191 b
                 else if byte_val a =? 237 then in_range 128 159 b else continues b)
                && continues c && is_utf8 rest
              else
              match rest with
              | [] => false
              | d :: rest =>
                  in_range 240 244 a &&
                  (if byte_val a =? 240 then in_range 144 191 b
                   else if byte_val a =? 244 then in_range 128 143 b else continues b)
                  && continues c && continues d && is_utf8 rest
              end
          end
      end
  end.

Lemma is_utf8_ascii l : Forall (λ b, byte_val b < 128) l → is_utf8 l = true.
Proof.
  induction 1 as [|b l Hb _ IH]; [done|]. simpl. by rewrite (proj2 (Z.ltb_lt _ _)) by done.
Qed.
