(* ===== verification/Generation.v ===== *)
(** * Generation selection and session retirement (src/generation.rs)

    A process generation admits sessions until it retires. Its counters are behind
    one mutex and its selected epoch changes only under that mutex, so every
    operation is one atomic step. Operations that read the clock take the instant
    they read. *)
From S2P Require Import Prelude Text.

(** ** Allocation of epochs *)

Module Allocation.
(** [Path::file_stem] of a file name: what is before the last dot, unless that
    is nothing. *)
Fixpoint split_last_dot (l : bytes) : option (bytes * bytes) :=
  match l with
  | [] => None
  | b :: rest =>
      match split_last_dot rest with
      | Some (before, after) => Some (b :: before, after)
      | None => if decide (b = "."%byte) then Some ([], rest) else None
      end
  end.

Definition file_stem (name : bytes) : bytes :=
  if decide (name = bs "..") then name else
  match split_last_dot name with Some ((_ :: _) as before, _) => before | _ => name end.

(** The epoch persisted by a directory entry, if its stem is a number. A name
    that is not UTF-8 is not a number either. *)
Definition epoch_of (name : bytes) : option Z := parse_u64 (file_stem name).

(** The loop over the directory, which stops at an entry that cannot be read. *)
Fixpoint maximum (m : Z) (entries : list (io_result bytes)) : io_result Z :=
  match entries with
  | [] => Ok m
  | Err e :: _ => Err e
  | Ok name :: rest =>
      maximum (match epoch_of name with Some v => Z.max m v | None => m end) rest
  end.

(** The counter file: absent counts as zero. *)
Definition prior (text : io_result bytes) : io_result Z :=
  match text with
  | Ok text => ok_or (parse_u64 (trim text)) (error_other "not a number")
  | Err e => if decide (kind e = NotFound) then Ok 0 else Err e
  end.

(** [allocate], given what reading the counter and the directory answered and
    what publishing the new counter will. *)
Definition allocate (text : io_result bytes) (directory : io_result (list (io_result bytes)))
    (publish_record : bytes → io_result unit) (selected : Z) : io_result Z :=
  p ← prior text;
  entries ← directory;
  m ← maximum (Z.max p selected) entries;
  next ← ok_or (checked_add m 1) (error_other "generation exhausted");
  _ ← publish_record (to_string next);
  Ok next.

Lemma maximum_spec m entries m' :
  maximum m entries = Ok m' →
  m ≤ m' ∧ (∀ name v, Ok name ∈ entries → epoch_of name = Some v → v ≤ m') ∧
  (m' = m ∨ ∃ name, Ok name ∈ entries ∧ epoch_of name = Some m').
Proof.
  revert m. induction entries as [|[name|e] rest IH]; intros m; simpl; [| |done].
  { intros [= ->]. split_and!; [lia|set_solver|by left]. }
  intros (Hle & Hall & Hin)%IH. destruct (epoch_of name) as [v|] eqn:Ev.
  - split_and!; [lia| |].
    + intros name' v' [[= ->]|Hr]%elem_of_cons Ev'; [simplify_eq; lia|eauto].
    + destruct Hin as [->|(n' & ? & ?)]; [|set_solver].
      destruct (Z.max_spec m v) as [[_ ->]|[_ ->]]; [set_solver|by left].
  - split_and!; [done| |set_solver].
    intros name' v' [[= ->]|Hr]%elem_of_cons Ev'; [congruence|eauto].
Qed.

Lemma prior_range text p : prior text = Ok p → is_u64 p.
Proof.
  unfold prior, is_u64, u64_max. destruct text as [text|e].
  - rewrite ok_or_Ok. apply parse_uint_range. done.
  - case_decide; [|done]. intros [= <-]. lia.
Qed.

Lemma maximum_range m entries m' : is_u64 m → maximum m entries = Ok m' → is_u64 m'.
Proof.
  intros Hm (Hle & _ & [->|(name & _ & Hn)])%maximum_spec; [done|].
  unfold is_u64, epoch_of in *. apply parse_uint_range in Hn; [done|]. done.
Qed.

Lemma allocate_spec text dir publish selected n :
  is_u64 selected → allocate text dir publish selected = Ok n →
  ∃ p entries, prior text = Ok p ∧ dir = Ok entries ∧ p < n ∧ selected < n ∧
    (∀ name v, Ok name ∈ entries → epoch_of name = Some v → v < n) ∧
    is_u64 n ∧ publish (to_string n) = Ok tt.
Proof.
  intros Hs. unfold allocate. rewrite result_bind_Ok. intros (p & Hp & H).
  apply result_bind_Ok in H as (entries & Hd & H).
  apply result_bind_Ok in H as (m & Hm & H).
  apply result_bind_Ok in H as (n' & [-> Hle]%ok_or_Ok%checked_add_Some & H).
  apply result_bind_Ok in H as ([] & Hpub & [= <-]).
  pose proof (prior_range _ _ Hp). assert (is_u64 m).
  { eapply maximum_range; [|done]. unfold is_u64 in *. lia. }
  apply maximum_spec in Hm as (Hge & Hall & _). exists p, entries.
  unfold is_u64 in *. split_and!; try done; try lia. intros name v Hin Hv.
  specialize (Hall name v Hin Hv). lia.
Qed.

(** A fresh epoch is above the selected one, above the counter and above
    every epoch that names a file of the directory; it is what the counter then
    holds, so the next allocation, whatever was deleted meanwhile, is above it. *)
Theorem allocate_is_fresh text dir publish selected n :
  is_u64 selected → allocate text dir publish selected = Ok n →
  (∃ p entries, prior text = Ok p ∧ dir = Ok entries ∧ p < n ∧ selected < n ∧
     ∀ name v, Ok name ∈ entries → epoch_of name = Some v → v < n) ∧
  publish (to_string n) = Ok tt ∧
  ∀ dir' publish' selected' n', is_u64 selected' →
    allocate (Ok (to_string n)) dir' publish' selected' = Ok n' → n < n'.
Proof.
  intros Hs H. destruct (allocate_spec _ _ _ _ _ Hs H) as (p & es & Hp & Hd & ? & ? & ? & Hn & Hpub).
  split; [by exists p, es|]. split; [done|]. intros dir' publish' selected' n' Hs' H'.
  destruct (allocate_spec _ _ _ _ _ Hs' H') as (p' & _ & Hp' & _ & Hlt & _).
  unfold prior in Hp'. rewrite trim_digits in Hp' by (apply to_string_digits; apply Hn).
  unfold parse_u64 in Hp'. rewrite parse_to_string in Hp' by done. simpl in Hp'. congruence.
Qed.

Lemma allocate_is_fresh_witness :
  allocate (Ok (bs " 7")) (Ok [Ok (bs "12.json"); Ok (bs ".lock"); Ok (bs "40.sock.tmp")])
    (λ _, Ok tt) 9 = Ok 13 ∧ 9 < 13.
Proof.
  assert (allocate (Ok (bs " 7")) (Ok [Ok (bs "12.json"); Ok (bs ".lock"); Ok (bs "40.sock.tmp")])
    (λ _, Ok tt) 9 = Ok 13) as H by (vm_compute; reflexivity).
  split; [exact H|].
  destruct (allocate_is_fresh _ _ _ 9 13 ltac:(unfold is_u64, u64_max; lia) H) as [(p & es & _ & _ & _ & Hs & _) _].
  exact Hs.
Defined.
End Allocation.

(** ** Sessions and retirement *)

Module Generation.
Inductive Retirement := Idle | DrainExpired (active legacy : Z).

#[global] Instance Retirement_eq_dec : EqDecision Retirement.
Proof. solve_decision. Defined.

(** [Sessions] and [Generation] together, with the version of the [watch] channel
    that [send_replace] advances. *)
Record t := mk {
  own : Z;
  selected : Z;
  active : Z;
  legacy : Z;
  retired : bool;
  superseded_since : option Z;
  changes : nat;
  started : Z;
  staged : bool;
  drain_limit : option Z;
}.

Definition new (now own selected : Z) (staged : bool) : t :=
  mk own selected 0 0 false (if own <? selected then Some now else None) 0 now staged None.

Definition with_drain_limit (limit : Z) (g : t) : t :=
  mk (own g) (selected g) (active g) (legacy g) (retired g) (superseded_since g)
     (changes g) (started g) (staged g) (Some limit).

Definition set_sessions (active legacy : Z) (retired : bool) (g : t) : t :=
  mk (own g) (selected g) active legacy retired (superseded_since g)
     (changes g) (started g) (staged g) (drain_limit g).

(** [send_replace]. *)
Definition notify (g : t) : t :=
  mk (own g) (selected g) (active g) (legacy g) (retired g) (superseded_since g)
     (S (changes g)) (started g) (staged g) (drain_limit g).

Definition select (now sel : Z) (g : t) : io_result unit * t :=
  if sel <? selected g
  then (Err (error_other "generation selection moved backwards"), g)
  else if decide (selected g = sel) then (Ok tt, g) else
    let since := if own g <? sel then Some (default now (superseded_since g)) else superseded_since g in
    (Ok tt, notify (mk (own g) sel (active g) (legacy g) (retired g) since
                       (changes g) (started g) (staged g) (drain_limit g))).

(** A lease is its [legacy] flag. *)
Definition admit_session (g : t) : option bool * t :=
  if retired g then (None, g)
  else (Some false, set_sessions (wrap64 (active g + 1)) (legacy g) (retired g) g).

Definition mark_legacy (lease : bool) (g : t) : bool * t :=
  if lease then (true, g)
  else (true, set_sessions (active g) (wrap64 (legacy g + 1)) (retired g) g).

(** [Drop for SessionLease]. *)
Definition drop_lease (lease : bool) (g : t) : t :=
  notify (set_sessions (wrap64 (active g - 1))
            (if lease then wrap64 (legacy g - 1) else legacy g) (retired g) g).

(** [elapsed]. *)
Definition elapsed (now since : Z) : Z := saturating_sub now since.

(** [try_retire]. [superseded_since] is only set when a newer generation is
    selected, so at most one of the two [elapsed] calls is made: [now] is what
    it reads. *)
Definition try_retire (now staging_lifetime : Z) (idle drain : bool) (g : t) : option Retirement * t :=
  if (selected g <=? own g) &&
     negb (staged g && (selected g <? own g) && (staging_lifetime <? elapsed now (started g)))
  then (None, g) else
  let expired := drain &&
    match drain_limit g, superseded_since g with
    | Some limit, Some since => limit <=? elapsed now since
    | _, _ => false
    end in
  let idle := idle && (active g =? 0) in
  if negb (expired || idle) then (None, g) else
  (Some (if active g =? 0 then Idle else DrainExpired (active g) (legacy g)),
   set_sessions (active g) (legacy g) true g).

Definition retire_if_idle (now staging_lifetime : Z) (g : t) : bool * t :=
  let '(r, g) := try_retire now staging_lifetime true false g in (bool_decide (is_Some r), g).

Definition retire (now staging_lifetime : Z) (g : t) : option Retirement * t :=
  try_retire now staging_lifetime true true g.

Definition drain_remaining (now : Z) (g : t) : option Z :=
  match drain_limit g, superseded_since g with
  | Some limit, Some since => Some (saturating_sub limit (elapsed now since))
  | _, _ => None
  end.

Record Snapshot := MkSnapshot {
  snap_own : Z; snap_selected : Z; snap_active : Z; snap_legacy : Z;
  snap_retired : bool; superseded_for : option Z;
}.

Definition snapshot (now : Z) (g : t) : Snapshot :=
  MkSnapshot (own g) (selected g) (active g) (legacy g) (retired g)
    (elapsed now <$> superseded_since g).
End Generation.

(** ** Concurrent use *)

Module Sessions.
Import Generation.

(** What the tasks of a process do with its generation, each with the instant it
    reads. A lease is named by its position among those held. *)
Inductive op :=
| Select (now sel : Z)
| Admit
| MarkLegacy (lease : nat)
| DropLease (lease : nat)
| Retire (now staging_lifetime : Z)
| RetireIfIdle (now staging_lifetime : Z).

Record sys := Sys { gen : t; leases : list bool }.

Definition exec (s : sys) (x : op) : sys :=
  match x with
  | Select now sel => Sys (select now sel (gen s)).2 (leases s)
  | Admit =>
      match admit_session (gen s) with
      | (Some lease, g) => Sys g (lease :: leases s)
      | (None, g) => Sys g (leases s)
      end
  | MarkLegacy i =>
      match leases s !! i with
      | Some lease => let '(lease, g) := mark_legacy lease (gen s) in Sys g (<[i:=lease]> (leases s))
      | None => s
      end
  | DropLease i =>
      match leases s !! i with
      | Some lease => Sys (drop_lease lease (gen s)) (delete i (leases s))
      | None => s
      end
  | Retire now staging => Sys (retire now staging (gen s)).2 (leases s)
  | RetireIfIdle now staging => Sys (retire_if_idle now staging (gen s)).2 (leases s)
  end.

Definition run : sys → list op → sys := foldl exec.

Definition count (l : list bool) : Z := Z.of_nat (length (filter (λ b, b = true) l)).

(** The counters count the leases; a generation is superseded exactly when a
    newer one is selected. *)
Record sound (s : sys) : Prop := {
  sound_active : active (gen s) = Z.of_nat (length (leases s));
  sound_legacy : legacy (gen s) = count (leases s);
  sound_since : is_Some (superseded_since (gen s)) ↔ own (gen s) < selected (gen s);
}.

Lemma count_le l : count l ≤ Z.of_nat (length l).
Proof. unfold count. pose proof (length_filter (λ b, b = true) l). lia. Qed.

Lemma count_cons b l : count (b :: l) = (if b then 1 else 0) + count l.
Proof. unfold count. rewrite filter_cons. destruct b; simpl; lia. Qed.

Lemma count_insert (i : nat) (l : list bool) (b : bool) : l !! i = Some b → count (<[i:=true]> l) = count l + (if b then 0 else 1).
Proof.
  revert i. induction l as [|c l IH]; intros [|i] Hi; simplify_eq/=.
  - rewrite !count_cons. destruct b; lia.
  - rewrite !count_cons, IH by done. lia.
Qed.

Lemma count_delete (i : nat) (l : list bool) (b : bool) : l !! i = Some b → count l = count (delete i l) + (if b then 1 else 0).
Proof.
  revert i. induction l as [|c l IH]; intros [|i] Hi; simplify_eq/=.
  - rewrite count_cons. lia.
  - rewrite !count_cons. rewrite (IH i) by done. lia.
Qed.

Lemma length_delete_lease (i : nat) (l : list bool) (b : bool) :
  l !! i = Some b → length l = S (length (delete i l)).
Proof. intros Hi. rewrite length_delete by eauto. apply lookup_lt_Some in Hi. lia. Qed.

(** [try_retire] changes the [retired] flag and nothing else. *)
Lemma try_retire_cases now staging idle drain g :
  try_retire now staging idle drain g = (None, g) ∨
  ∃ r, try_retire now staging idle drain g = (Some r, set_sessions (active g) (legacy g) true g).
Proof. unfold try_retire. repeat case_match; eauto. Qed.

Lemma retire_if_idle_cases now staging g :
  (retire_if_idle now staging g).2 = g ∨
  (retire_if_idle now staging g).2 = set_sessions (active g) (legacy g) true g.
Proof.
  unfold retire_if_idle. destruct (try_retire_cases now staging true false g) as [->|(r & ->)]; auto.
Qed.

Lemma set_retired_sound g l b :
  sound (Sys g l) → sound (Sys (set_sessions (active g) (legacy g) b g) l).
Proof. intros [? ? ?]. by split. Qed.

Lemma sessions_sound_exec s x :
  sound s → Z.of_nat (length (leases s)) < usize_max → sound (exec s x).
Proof.
  destruct s as [g l]. intros Hs Hlt. pose proof Hs as [Ha Hl Hsince]. simpl in *.
  pose proof (count_le l). unfold usize_max in *.
  destruct x as [now sel| |i|i|now st|now st]; simpl.
  - unfold select. case_match; [done|]. bools. case_decide; [done|]. split; simpl; [done..|].
    destruct (Z.ltb_spec (own g) sel).
    + split; [done|eauto].
    + rewrite Hsince. split; lia.
  - unfold admit_session. destruct (retired g); [done|]. split; simpl; [|by rewrite count_cons|done].
    in_range.
  - destruct (l !! i) as [b|] eqn:Hi; [|done]. unfold mark_legacy. destruct b; simpl.
    + rewrite list_insert_id by done. done.
    + split; simpl; [by rewrite length_insert| |done]. rewrite (count_insert i l false Hi).
      rewrite wrap64_small; unfold is_u64, u64_max, count in *; lia.
  - destruct (l !! i) as [b|] eqn:Hi; [|done].
    pose proof (count_delete i l b Hi). pose proof (length_delete_lease i l b Hi).
    pose proof (count_le (delete i l)). pose proof (length_filter (λ b, b = true) l).
    split; simpl; [| |done].
    + in_range.
    + destruct b; [|lia]. rewrite wrap64_small; unfold is_u64, u64_max, count in *; lia.
  - unfold retire. destruct (try_retire_cases now st true true g) as [->|(r & ->)]; simpl; [done|].
    by apply set_retired_sound.
  - destruct (retire_if_idle_cases now st g) as [->| ->]; [done|]. by apply set_retired_sound.
Qed.

(** What no operation undoes. *)
Lemma exec_keeps s x :
  own (gen (exec s x)) = own (gen s) ∧
  drain_limit (gen (exec s x)) = drain_limit (gen s) ∧
  selected (gen s) ≤ selected (gen (exec s x)) ∧
  (changes (gen s) ≤ changes (gen (exec s x)))%nat ∧
  (∀ since, superseded_since (gen s) = Some since → superseded_since (gen (exec s x)) = Some since) ∧
  (retired (gen s) = true → retired (gen (exec s x)) = true ∧
     (length (leases (exec s x)) ≤ length (leases s))%nat).
Proof.
  destruct s as [g l]. destruct x as [now sel| |i|i|now st|now st]; simpl.
  - unfold select. case_match; bools; [split_and!; naive_solver lia|].
    case_decide; simpl; split_and!; try naive_solver lia.
    intros since Hs. rewrite Hs. by case_match.
  - unfold admit_session. destruct (retired g) eqn:E; simpl; split_and!; naive_solver lia.
  - destruct (l !! i) as [b|]; [|split_and!; naive_solver lia]. unfold mark_legacy.
    destruct b; simpl; rewrite length_insert; split_and!; naive_solver lia.
  - destruct (l !! i) as [b|] eqn:Hi; [|split_and!; naive_solver lia]. simpl.
    pose proof (length_delete_lease i l b Hi). split_and!; naive_solver lia.
  - unfold retire. destruct (try_retire_cases now st true true g) as [->|(r & ->)]; simpl;
      split_and!; naive_solver lia.
  - destruct (retire_if_idle_cases now st g) as [->| ->]; simpl; split_and!; naive_solver lia.
Qed.
Lemma run_keeps s ops :
  own (gen (run s ops)) = own (gen s) ∧
  drain_limit (gen (run s ops)) = drain_limit (gen s) ∧
  selected (gen s) ≤ selected (gen (run s ops)) ∧
  (changes (gen s) ≤ changes (gen (run s ops)))%nat ∧
  (∀ since, superseded_since (gen s) = Some since → superseded_since (gen (run s ops)) = Some since) ∧
  (retired (gen s) = true → retired (gen (run s ops)) = true ∧
     (length (leases (run s ops)) ≤ length (leases s))%nat).
Proof.
  revert s. induction ops as [|x ops IH]; intros s; simpl; [split_and!; naive_solver lia|].
  destruct (exec_keeps s x) as (E1 & E2 & E3 & E4 & E5 & E6).
  destruct (IH (exec s x)) as (F1 & F2 & F3 & F4 & F5 & F6).
  rewrite F1, F2. split_and!; [done|done|lia|lia|auto|].
  intros [Hr Hl]%E6. destruct (F6 Hr). split; [done|lia].
Qed.

Lemma leases_exec s x : (length (leases (exec s x)) ≤ S (length (leases s)))%nat.
Proof.
  destruct s as [g l], x as [now sel| |i|i|now st|now st]; simpl; try lia.
  - unfold admit_session. destruct (retired g); simpl; lia.
  - destruct (l !! i); [|simpl; lia]. unfold mark_legacy. destruct b; simpl; rewrite length_insert; lia.
  - destruct (l !! i) eqn:Hi; simpl; [|lia]. apply length_delete_lease in Hi. lia.
Qed.

(** A process starts with no session and, perhaps, a drain limit. *)
Definition start (now own selected : Z) (staged : bool) (limit : option Z) : sys :=
  let g := new now own selected staged in
  Sys (match limit with Some d => with_drain_limit d g | None => g end) [].

Lemma start_sound now own selected staged limit : sound (start now own selected staged limit).
Proof.
  unfold start. assert (is_Some (if own <? selected then Some now else None) ↔ own < selected).
  { destruct (Z.ltb_spec own selected); [naive_solver|]. rewrite <- not_eq_None_Some. split; [done|lia]. }
  destruct limit; split; done.
Qed.

Lemma sessions_run_sound s0 ops :
  sound s0 → leases s0 = [] → Z.of_nat (length ops) ≤ usize_max →
  sound (run s0 ops) ∧ (length (leases (run s0 ops)) ≤ length ops)%nat.
Proof.
  intros H0 Hl0. unfold run. induction ops as [|x ops IH] using rev_ind; intros Hlen.
  { simpl. rewrite Hl0. done. }
  rewrite length_app in *. simpl in *. rewrite foldl_app. simpl.
  destruct IH as [Hs Hl]; [lia|]. pose proof (leases_exec (foldl exec s0 ops) x).
  split; [|lia]. apply sessions_sound_exec; [done|lia].
Qed.

(** When [retire] may answer, and what. *)
Definition retirement_due (now staging : Z) (s : sys) (r : Retirement) : Prop :=
  (r = Idle ∧ leases s = [] ∧
    (own (gen s) < selected (gen s) ∨
     staged (gen s) = true ∧ selected (gen s) < own (gen s) ∧ staging < elapsed now (started (gen s)))) ∨
  (r = DrainExpired (Z.of_nat (length (leases s))) (count (leases s)) ∧ leases s ≠ [] ∧
    own (gen s) < selected (gen s) ∧
    ∃ limit since, drain_limit (gen s) = Some limit ∧ superseded_since (gen s) = Some since ∧
      limit ≤ elapsed now since).

Lemma retire_due now staging s r g :
  sound s → retire now staging (gen s) = (Some r, g) → retirement_due now staging s r.
Proof.
  intros [Ha Hl Hs] H. unfold retire, try_retire in H.
  destruct (_ && _) eqn:Helig in H; [done|].
  destruct (negb _) eqn:Hwhy in H; [done|]. injection H as Hr _. bools.
  unfold retirement_due. rewrite <- Ha, <- Hl.
  assert (active (gen s) = 0 ↔ leases s = []) as Hempty.
  { rewrite Ha. destruct (leases s); simpl; naive_solver lia. }
  destruct (Z.eqb_spec (active (gen s)) 0) as [Hz|Hz]; subst r.
  - left. split_and!; [done|by apply Hempty|]. destruct Helig; bools; [left; lia|right; split_and!; done || lia].
  - right. split_and!; [done|naive_solver| |]; destruct Hwhy as [Hwhy|Hwhy]; bools; try done;
      destruct (drain_limit (gen s)) as [limit|]; try done;
      destruct (superseded_since (gen s)) as [since|]; try done; bools.
    + apply Hs. eauto.
    + eauto 6.
Qed.

(** C24: after any use of a generation the counters count exactly the leases held,
    legacy ones among them, and it has been superseded exactly when a newer one
    is selected. It then retires only when it is superseded or an expired
    candidate, and with sessions still held only when it is superseded and its
    drain limit has passed; the counts it reports are those of the leases. *)
Theorem sessions_are_counted t0 own0 sel0 staged0 limit ops :
  Z.of_nat (length ops) ≤ usize_max →
  let s := run (start t0 own0 sel0 staged0 limit) ops in
  sound s ∧ legacy (gen s) ≤ active (gen s) ∧
  ∀ now staging r g, retire now staging (gen s) = (Some r, g) → retirement_due now staging s r.
Proof.
  intros Hlen s. destruct (sessions_run_sound (start t0 own0 sel0 staged0 limit) ops) as [Hs _]; [|by destruct limit|done|].
  { apply start_sound. }
  split; [done|]. split; [|intros; by eapply retire_due].
  destruct Hs as [Ha Hl _]. fold s in Ha, Hl. rewrite Ha, Hl. apply count_le.
Qed.

Lemma sessions_are_counted_witness :
  let s := run (start 0 3 3 false (Some 100)) [Admit; Admit; MarkLegacy 0; Select 50 4] in
  sound s ∧ retire 150 0 (gen s) = (Some (DrainExpired 2 1), set_sessions 2 1 true (gen s)).
Proof.
  split; [|reflexivity].
  apply (sessions_are_counted 0 3 3 false (Some 100) [Admit; Admit; MarkLegacy 0; Select 50 4]).
  vm_compute. discriminate.
Defined.

(** Retirement is final. Whatever the process does afterwards, also when it is
    selected again, no session is ever admitted, and the sessions held only end. *)
Theorem retirement_is_final s now staging r g ops :
  retire now staging (gen s) = (Some r, g) →
  let s' := run (Sys g (leases s)) ops in
  retired (gen s') = true ∧ (admit_session (gen s')).1 = None ∧
  (length (leases s') ≤ length (leases s))%nat ∧ selected (gen s) ≤ selected (gen s').
Proof.
  intros H s'. unfold retire in H.
  destruct (try_retire_cases now staging true true (gen s)) as [E|(r' & E)]; rewrite E in H; simplify_eq.
  destruct (run_keeps (Sys (set_sessions (active (gen s)) (legacy (gen s)) true (gen s)) (leases s)) ops)
    as (_ & _ & Hsel & _ & _ & Hr).
  destruct (Hr eq_refl) as [Hr' Hl]. fold s' in Hr', Hl, Hsel.
  split_and!; [done| |done|done]. unfold admit_session. by rewrite Hr'.
Qed.

Lemma retirement_is_final_witness :
  let s := run (start 0 3 0 true None) [] in
  let g := (retire 20 10 (gen s)).2 in
  retire 20 10 (gen s) = (Some Idle, g) ∧
  leases (run (Sys g []) [Select 30 3; Admit]) = [] ∧ selected (gen (run (Sys g []) [Select 30 3; Admit])) = 3.
Proof.
  split; [reflexivity|]. split; [|reflexivity]. apply nil_length_inv.
  destruct (retirement_is_final (start 0 3 0 true None) 20 10 Idle
    (retire 20 10 (gen (start 0 3 0 true None))).2 [Select 30 3; Admit] eq_refl) as (_ & _ & H & _).
  simpl in H. simpl. lia.
Defined.
End Sessions.

(** ** Waiting for retirement *)

Module Retiring.
Import Generation Sessions.

(** What happens outside [run_until_retired]: the refresh callback and the wait
    for a change or the end of a sleep. The other tasks of the process use the
    generation meanwhile; each answer lists what they did. *)
Class Discovery (W : Type) : Type := {
  refresh : W → list op * W;
  pause : Z → nat → sys → W → list op * W;
}.

(** [select!] over a sleep of [d] and [changed()]: it ends when the sleep has, or
    when the version is no longer the one last seen. *)
Class DiscoveryLaws (W : Type) `{ClockLaws W, !Discovery W} : Prop := {
  refresh_mono w : time w ≤ time (refresh w).2;
  pause_mono d seen s w : time w ≤ time (pause d seen s w).2;
  pause_lasts d seen s w : 0 ≤ d →
    time w + d ≤ time (pause d seen s w).2 ∨
    changes (gen (run s (pause d seen s w).1)) ≠ seen;
}.

Definition step_retire (r : t → option Retirement * t) (s : sys) : option Retirement * sys :=
  let '(a, g) := r (gen s) in (a, Sys g (leases s)).

Definition wait_for (interval now : Z) (g : t) : Z :=
  match drain_remaining now g with Some remaining => Z.min remaining interval | None => interval end.

(** One pass of the loop of [run_until_retired]. *)
Definition pass {W} `{Clock W, Discovery W} (interval staging : Z) (s : sys) (w : W)
    : option Retirement * sys * W :=
  let seen := changes (gen s) in
  let '(t, w) := now w in
  match step_retire (try_retire t staging false true) s with
  | (Some r, s) => (Some r, s, w)
  | (None, s) =>
      let '(ops, w) := refresh w in
      let s := run s ops in
      let '(t, w) := now w in
      match step_retire (retire t staging) s with
      | (Some r, s) => (Some r, s, w)
      | (None, s) =>
          let '(t, w) := now w in
          let '(ops, w) := pause (wait_for interval t (gen s)) seen s w in
          (None, run s ops, w)
      end
  end.

(** [run_until_retired], cut off after [passes]. *)
Fixpoint run_until_retired {W} `{Clock W, Discovery W} (passes : nat) (interval staging : Z)
    (s : sys) (w : W) : option Retirement * sys * W :=
  match passes with
  | O => (None, s, w)
  | S n =>
      match pass interval staging s w with
      | (None, s, w) => run_until_retired n interval staging s w
      | done => done
      end
  end.

Section proofs.
Context {W : Type} `{DiscoveryLaws W}.

(** Superseded at [since], with a drain limit. *)
Definition limited (limit since : Z) (s : sys) : Prop :=
  drain_limit (gen s) = Some limit ∧ superseded_since (gen s) = Some since ∧ own (gen s) < selected (gen s).

Lemma limited_run limit since s ops : limited limit since s → limited limit since (run s ops).
Proof.
  intros (Hl & Hs & Hlt). destruct (run_keeps s ops) as (E1 & E2 & E3 & _ & E5 & _).
  unfold limited. rewrite E1, E2. split_and!; [done|auto|lia].
Qed.

(** A superseded generation that does not retire still had time left. *)
Lemma not_retired limit since now staging idle s s' :
  limited limit since s → 0 ≤ limit →
  step_retire (try_retire now staging idle true) s = (None, s') → s' = s ∧ now < since + limit.
Proof.
  destruct s as [g l]. intros (Hl & Hs & Hlt) Hpos. unfold step_retire, try_retire. simpl in *.
  rewrite (proj2 (Z.leb_gt _ _)) by lia. simpl. rewrite Hl, Hs. simpl.
  destruct (Z.leb_spec limit (elapsed now since)) as [Hle|Hgt]; simpl; [done|].
  unfold elapsed, saturating_sub in Hgt.
  destruct (negb _); [|done]. intros [= <-]. split; [done|lia].
Qed.

(** A pass that does not retire either was woken by a change or has moved closer
    to the drain limit. *)
Lemma pass_progress interval staging limit since s w s' w' :
  0 < interval → 0 ≤ limit → since ≤ time w → limited limit since s →
  pass interval staging s w = (None, s', w') →
  limited limit since s' ∧ (changes (gen s) ≤ changes (gen s'))%nat ∧ time w ≤ time w' ∧
  ((polls interval (since + limit) w' < polls interval (since + limit) w)%nat ∨
   (changes (gen s) < changes (gen s'))%nat).
Proof.
  intros Hint Hpos Hpast Hlim. unfold pass. destruct (now w) as [t1 w1] eqn:E1.
  destruct (step_retire (try_retire t1 _ _ _) s) as [[r|] s1] eqn:R1; [done|].
  apply (not_retired limit since) in R1 as [-> Ht1]; [|done..].
  pose proof (refresh_mono w1). destruct (refresh w1) as [ops w2]. simpl in *.
  pose proof (limited_run limit since s ops Hlim) as Hlim2.
  destruct (run_keeps s ops) as (_ & _ & _ & Hch & _ & _). set (s2 := run s ops) in *.
  destruct (now w2) as [t2 w3] eqn:E2. unfold retire.
  destruct (step_retire (λ g, try_retire t2 staging true true g) s2) as [[r|] s3] eqn:R2; [done|].
  apply (not_retired limit since t2 staging true) in R2 as [-> Ht2]; [|done..].
  destruct (now w3) as [t3 w4] eqn:E3.
  apply now_mono in E1, E2, E3.
  unfold wait_for, drain_remaining. destruct Hlim2 as (Hl2 & Hs2 & Hlt2). rewrite Hl2, Hs2.
  set (d := Z.min (saturating_sub limit (elapsed t3 since)) interval).
  assert (0 ≤ d) as Hd by (unfold d, saturating_sub; lia).
  pose proof (pause_mono d (changes (gen s)) s2 w4).
  pose proof (pause_lasts d (changes (gen s)) s2 w4 Hd) as Hlast.
  destruct (pause d (changes (gen s)) s2 w4) as [ops2 w5]. simpl in *. intros [= <- <-].
  destruct (run_keeps s2 ops2) as (_ & _ & _ & Hch2 & _ & _).
  split_and!; [by apply limited_run|lia|lia|].
  destruct (decide (changes (gen (run s2 ops2)) = changes (gen s))) as [Heq|]; [left|right; lia].
  destruct Hlast as [Hlast|]; [|done]. apply polls_wait; [done|lia|lia|].
  unfold d, saturating_sub, elapsed, saturating_sub in Hlast. lia.
Qed.

Lemma unfinished passes interval staging limit since s w s' w' :
  0 < interval → 0 ≤ limit → since ≤ time w → limited limit since s →
  run_until_retired passes interval staging s w = (None, s', w') →
  (passes + changes (gen s) ≤ polls interval (since + limit) w + changes (gen s'))%nat.
Proof.
  intros Hint Hpos. revert s w. induction passes as [|n IH]; intros s w Hpast Hlim; simpl.
  { intros [= -> ->]. lia. }
  destruct (pass interval staging s w) as [[[r|] s1] w1] eqn:E; [done|]. intros Hrun.
  apply (pass_progress interval staging limit since) in E as (Hlim1 & Hch & Ht & Hp); [|done..].
  specialize (IH s1 w1 ltac:(lia) Hlim1 Hrun).
  pose proof (polls_mono interval (since + limit) (since + limit) w w1 Hint ltac:(lia) Ht).
  lia.
Qed.
End proofs.

(** C27: a superseded generation with a drain limit retires, whatever sessions are
    held and whatever the other tasks do: [run_until_retired] returns before it
    has made one pass for each interval left until the limit and one for each
    change it was told of. *)
Theorem superseded_generation_retires {W} `{DiscoveryLaws W} passes interval staging limit since s (w : W) :
  0 < interval → 0 ≤ limit → since ≤ time w →
  drain_limit (gen s) = Some limit → superseded_since (gen s) = Some since →
  own (gen s) < selected (gen s) →
  let '(r, s', w') := run_until_retired passes interval staging s w in
  (polls interval (since + limit) w + (changes (gen s') - changes (gen s)) < passes)%nat →
  is_Some r.
Proof.
  intros Hint Hpos Hpast Hl Hs Hlt. destruct (run_until_retired _ _ _ _ _) as [[[r|] s'] w'] eqn:E; [eauto|].
  intros Hn. apply (unfinished passes interval staging limit since) in E; [lia|done..].
Qed.

(** A process whose sessions never end, with a refresh that takes 5 ns. *)
#[global] Instance idle_discovery : Discovery (Sim unit) := {
  refresh w := ([], sleep 5 w);
  pause d _ _ w := ([], sleep d w);
}.

#[global] Instance idle_discovery_laws : DiscoveryLaws (Sim unit).
Proof. split; intros; simpl; [lia..|]. left. lia. Qed.

Lemma superseded_generation_retires_witness :
  run_until_retired 8 20 0 (run (start 0 3 3 false (Some 100)) [Admit; Select 50 4]) (MkSim 60 [])
    = (Some (DrainExpired 1 0), Sys (set_sessions 1 0 true
        (gen (run (start 0 3 3 false (Some 100)) [Admit; Select 50 4]))) [false], MkSim 151 []) ∧
  is_Some (run_until_retired 8 20 0 (run (start 0 3 3 false (Some 100)) [Admit; Select 50 4]) (MkSim 60 [])).1.1.
Proof.
  split; [vm_compute; reflexivity|].
  pose proof (superseded_generation_retires 8 20 0 100 50
    (run (start 0 3 3 false (Some 100)) [Admit; Select 50 4]) (MkSim 60 [])
    ltac:(done) ltac:(done) ltac:(done) eq_refl eq_refl ltac:(vm_compute; reflexivity)) as H.
  revert H. set (r := run_until_retired _ _ _ _ _). set (p := polls _ _ _).
  vm_compute in r, p. subst r p. cbn [fst]. intros H. apply H. simpl. lia.
Defined.
End Retiring.
