(* ===== verification/Retry.v ===== *)
(** * Persisted replacement attempt budgets (src/retry.rs) *)
From S2P Require Import Prelude.

Module Policy.
Record t := mk { limit : Z; delay : Z; maximum_delay : Z }.

Definition valid (p : t) : Prop := is_u64 (limit p) ∧ is_u64 (delay p) ∧ is_u64 (maximum_delay p).
End Policy.

Module State.
Import Policy.
Record t := mk { attempts : Z; next_attempt : Z }.

Definition default : t := mk 0 0.

Definition allowed (s : t) (policy : Policy.t) (now : Z) : bool :=
  (attempts s <? limit policy) && (next_attempt s <=? now).

Definition reserve (s : t) (policy : Policy.t) (now : Z) : t :=
  let attempts := saturating_add (attempts s) 1 in
  let multiplier := wrap64 (Z.shiftl 1 (Z.min attempts 63)) in
  mk attempts (saturating_add now
    (Z.min (saturating_mul (delay policy) multiplier) (maximum_delay policy))).

Definition exhaust (s : t) (policy : Policy.t) : t := mk (limit policy) (next_attempt s).

Definition next (s : t) (policy : Policy.t) : option Z :=
  if attempts s <? limit policy then Some (next_attempt s) else None.

Definition valid (s : t) : Prop := is_u64 (attempts s) ∧ is_u64 (next_attempt s).

(** The wait after the [n]-th attempt, before the clock saturates. *)
Definition wait (policy : Policy.t) (n : Z) : Z :=
  Z.min (delay policy * 2 ^ Z.min n 63) (maximum_delay policy).

Lemma reserve_wait s p now :
  valid s → Policy.valid p →
  reserve s p now = mk (Z.min (attempts s + 1) u64_max)
    (Z.min (now + wait p (Z.min (attempts s + 1) u64_max)) u64_max).
Proof.
  intros [Ha _] (_ & Hd & Hm). unfold reserve, wait, saturating_add, saturating_mul.
  set (n := Z.min (attempts s + 1) u64_max).
  assert (0 ≤ Z.min n 63 ≤ 63) as Hn by (subst n; unfold is_u64, u64_max in *; lia).
  rewrite Z.shiftl_1_l, wrap64_small.
  - f_equal. unfold is_u64 in Hm. lia.
  - unfold is_u64. split; [apply Z.pow_nonneg; lia|].
    transitivity (2 ^ 63); [apply Z.pow_le_mono_r; lia|done].
Qed.

Lemma wait_range p n : Policy.valid p → 0 ≤ n → Z.min (delay p) (maximum_delay p) ≤ wait p n ≤ maximum_delay p.
Proof.
  intros (_ & [Hd _] & _) Hn. unfold wait. assert (1 ≤ 2 ^ Z.min n 63) by (apply (Z.pow_le_mono_r 2 0); lia). nia.
Qed.

Lemma wait_mono p m n : Policy.valid p → 0 ≤ m ≤ n → wait p m ≤ wait p n.
Proof.
  intros (_ & [Hd _] & _) Hmn. unfold wait.
  assert (2 ^ Z.min m 63 ≤ 2 ^ Z.min n 63) by (apply Z.pow_le_mono_r; lia). nia.
Qed.

Lemma reserve_valid s p now : valid s → Policy.valid p → is_u64 now → valid (reserve s p now).
Proof.
  intros Hs Hp Hnow. rewrite reserve_wait by done. destruct Hs as [Ha _].
  unfold valid, is_u64 in *; simpl. unfold u64_max in *.
  pose proof (wait_range p (Z.min (attempts s + 1) u64_max) Hp ltac:(unfold u64_max; lia)).
  destruct Hp as (_ & ? & ?). unfold is_u64, u64_max in *. lia.
Qed.

(** A reservation spends one attempt and schedules the next one after the
    initial delay doubled once for each attempt spent, never later than the
    maximum delay allows, never earlier than the initial delay unless the maximum
    is lower, and never sooner than an earlier attempt would have. Nothing wraps,
    for every policy, clock reading and persisted state. *)
Theorem reservation_backs_off s p now :
  valid s → Policy.valid p → is_u64 now →
  let s' := reserve s p now in
  valid s' ∧ attempts s' = Z.min (attempts s + 1) u64_max ∧
  next_attempt s' = Z.min (now + wait p (attempts s')) u64_max ∧
  Z.min (now + Z.min (delay p) (maximum_delay p)) u64_max ≤ next_attempt s' ∧
  next_attempt s' ≤ Z.min (now + maximum_delay p) u64_max ∧
  ∀ later, valid later → attempts s ≤ attempts later →
    next_attempt s' ≤ next_attempt (reserve later p now).
Proof.
  intros Hs Hp Hnow s'. split; [by apply reserve_valid|]. subst s'.
  pose proof (reserve_wait s p now Hs Hp) as ->. cbn [attempts next_attempt].
  assert (0 ≤ Z.min (attempts s + 1) u64_max) by (destruct Hs; unfold is_u64, u64_max in *; lia).
  pose proof (wait_range p (Z.min (attempts s + 1) u64_max) Hp).
  split_and!; [done|done|lia|lia|]. intros later Hl Hle.
  rewrite reserve_wait by done. cbn [next_attempt].
  pose proof (wait_mono p (Z.min (attempts s + 1) u64_max) (Z.min (attempts later + 1) u64_max) Hp). lia.
Qed.

Lemma reservation_backs_off_witness :
  reserve (mk 0 0) (Policy.mk 6 30 300) 100 = mk 1 160 ∧
  next_attempt (reserve (mk 0 0) (Policy.mk 6 30 300) 100) ≤ Z.min (100 + 300) u64_max.
Proof.
  split; [reflexivity|].
  apply (reservation_backs_off (mk 0 0) (Policy.mk 6 30 300) 100);
    unfold valid, Policy.valid, is_u64, u64_max; simpl; lia.
Defined.
End State.

(** ** Campaigns *)

Module Campaign.
Import Policy State.

(** A controller that reserves only when allowed, consulted at the given times:
    the times of its attempts. *)
Fixpoint campaign (policy : Policy.t) (s : State.t) (times : list Z) : list Z :=
  match times with
  | [] => []
  | now :: rest =>
      if allowed s policy now then now :: campaign policy (reserve s policy now) rest
      else campaign policy s rest
  end.

(** The [n]-th and later attempts keep the distance their waits ask for. *)
Fixpoint spaced (policy : Policy.t) (n : Z) (l : list Z) : Prop :=
  match l with
  | t :: (u :: _) as rest => Z.min (t + wait policy n) u64_max ≤ u ∧ spaced policy (n + 1) rest
  | _ => True
  end.

Lemma campaign_after policy s times t :
  head (campaign policy s times) = Some t → next_attempt s ≤ t.
Proof.
  induction times as [|now rest IH]; simpl; [done|].
  destruct (allowed s policy now) eqn:Ha; [|done]. intros [= <-].
  unfold allowed in Ha. bools. lia.
Qed.

Lemma campaign_bound policy s times :
  Policy.valid policy → valid s → Forall is_u64 times →
  Z.of_nat (length (campaign policy s times)) ≤ Z.max 0 (limit policy - attempts s) ∧
  spaced policy (attempts s + 1) (campaign policy s times).
Proof.
  intros Hp. revert s. induction times as [|now rest IH]; intros s Hs Hts; [split; simpl; done || lia|].
  inversion Hts as [|? ? Hnow Hrest]; subst. simpl.
  destruct (allowed s policy now) eqn:Ha; [|by apply IH].
  pose proof (reserve_valid s policy now Hs Hp Hnow) as Hs'.
  destruct (IH _ Hs' Hrest) as [Hlen Hsp].
  unfold allowed in Ha. bools.
  assert (attempts (reserve s policy now) = attempts s + 1) as Hat.
  { rewrite reserve_wait by done. simpl. destruct Hp as [Hl _]. unfold is_u64 in *. lia. }
  rewrite Hat in *. split; [simpl; lia|].
  destruct (campaign policy (reserve s policy now) rest) as [|u us] eqn:E; [done|].
  split; [|done].
  pose proof (campaign_after policy (reserve s policy now) rest u) as Hu. rewrite E in Hu.
  specialize (Hu eq_refl). rewrite reserve_wait in Hu by done. simpl in Hu.
  assert (Z.min (attempts s + 1) u64_max = attempts s + 1) as Eq.
  { destruct Hp as [Hl _]. unfold is_u64 in *. lia. }
  by rewrite Eq in Hu.
Qed.

(** A controller that reserves only when allowed makes at most [limit]
    attempts, and waits after each of them at least as long as its doubled, capped
    delay, however often and whenever it asks; once exhausted, it makes none. *)
Theorem campaign_is_limited policy times :
  Policy.valid policy → Forall is_u64 times →
  Z.of_nat (length (campaign policy default times)) ≤ limit policy ∧
  spaced policy 1 (campaign policy default times) ∧
  (∀ s, campaign policy (exhaust s policy) times = []) ∧
  (∀ s now, allowed s policy now = match next s policy with Some at_ => at_ <=? now | None => false end).
Proof.
  intros Hp Hts. destruct (campaign_bound policy default times) as [Hlen Hsp];
    [done|by unfold valid, is_u64, u64_max|done|]. simpl in *.
  destruct Hp as [[? ?] _]. split_and!; [lia|done| |].
  - intros s. clear Hlen Hsp Hts. induction times as [|now rest IH]; simpl; [done|].
    unfold allowed; simpl. rewrite Z.ltb_irrefl. done.
  - intros s now. unfold allowed, next. destruct (attempts s <? limit policy); done.
Qed.

Lemma campaign_is_limited_witness :
  campaign (Policy.mk 2 30 300) default [100; 150; 160; 200; 279; 280; 900] = [100; 160] ∧
  Z.of_nat (length (campaign (Policy.mk 2 30 300) default [100; 150; 160; 200; 279; 280; 900])) ≤ 2.
Proof.
  split; [reflexivity|].
  assert (Policy.valid (Policy.mk 2 30 300)) as Hp by (unfold Policy.valid, is_u64, u64_max; simpl; lia).
  assert (Forall is_u64 [100; 150; 160; 200; 279; 280; 900]) as Ht
    by (unfold is_u64, u64_max; repeat constructor; lia).
  exact (proj1 (campaign_is_limited _ _ Hp Ht)).
Defined.
End Campaign.
