(* ===== verification/Backoff.v ===== *)
(** * A check repeated with a growing pause (src/backoff.rs)

    The check and the clock are the environment's; [poll] runs until the check
    holds, fails, or the deadline passes. *)
From S2P Require Import Prelude.

Definition FIRST : Z := from_millis 1.
Definition LONGEST : Z := from_millis 50.

Section backoff.
Context {W : Type} `{Clock W}.

(** [next_pause]: the nap, and the pause it leaves for the next time. *)
Definition next_pause (pause : Z) (deadline : option Z) (w : W) : option Z * Z * W :=
  match deadline with
  | Some d =>
      let '(t, w) := now w in
      let left := saturating_sub d t in
      if left =? 0 then (None, pause, w)
      else (Some (Z.min left pause), Z.min LONGEST (pause * 2), w)
  | None => (Some pause, Z.min LONGEST (pause * 2), w)
  end.

(** The test made after a nap. *)
Definition overrun (deadline : option Z) (w : W) : bool * W :=
  match deadline with
  | Some d => let '(t, w) := now w in (saturating_sub d t =? 0, w)
  | None => (false, w)
  end.

(** The loop of [poll], cut off after [passes]; [done] is the check. *)
Fixpoint poll_from (passes : nat) (done : W → io_result bool * W) (pause : Z)
    (deadline : option Z) (w : W) : option (io_result bool) * W :=
  match passes with
  | O => (None, w)
  | S passes =>
      match done w with
      | (Err e, w) => (Some (Err e), w)
      | (Ok true, w) => (Some (Ok true), w)
      | (Ok false, w) =>
          match next_pause pause deadline w with
          | (None, _, w) => (Some (Ok false), w)
          | (Some nap, pause, w) =>
              let w := sleep nap w in
              let '(late, w) := overrun deadline w in
              if late then (Some (Ok false), w) else poll_from passes done pause deadline w
          end
      end
  end.

Definition poll (passes : nat) (done : W → io_result bool * W) (deadline : option Z) (w : W)
    : option (io_result bool) * W := poll_from passes done FIRST deadline w.
End backoff.

Section proofs.
Context {W : Type} `{ClockLaws W}.
Context (done : W → io_result bool * W).
Hypothesis done_mono : ∀ w, time w ≤ time (done w).2.

Lemma next_pause_deadline pause d (w w' : W) nap pause' :
  FIRST ≤ pause → next_pause pause (Some d) w = (Some nap, pause', w') →
  0 < nap ≤ pause ∧ FIRST ≤ pause' ≤ LONGEST ∧ time w < d ∧ time w ≤ time w' ∧
  (nap = pause ∨ d ≤ time w' + nap).
Proof.
  unfold next_pause. destruct (now w) as [t w1] eqn:E. intros Hp. apply now_mono in E.
  unfold saturating_sub. destruct (Z.eqb_spec (Z.max 0 (d - t)) 0); [discriminate|].
  intros [= <- <- <-]. unfold FIRST, LONGEST, from_millis in *. lia.
Qed.

(** One more pass is possible only while a millisecond is left. *)
Lemma poll_terminates passes pause d (w : W) :
  FIRST ≤ pause → (polls FIRST d w < passes)%nat →
  is_Some (poll_from passes done pause (Some d) w).1.
Proof using done_mono.
  revert pause w. induction passes as [|n IH]; intros pause w Hp Hn; [lia|]. cbn [poll_from].
  pose proof (done_mono w) as Hd. destruct (done w) as [[[]|e] w1]; simpl in Hd; [by eauto| |by eauto].
  destruct (next_pause pause (Some d) w1) as [[[nap|] pause'] w2] eqn:E; [|by eauto].
  apply next_pause_deadline in E as (Hnap & Hp' & Hlt & Ht & Hcut); [|done].
  pose proof (sleep_lasts nap w2). cbn [overrun].
  destruct (now (sleep nap w2)) as [t w3] eqn:E3. apply now_mono in E3.
  destruct (_ =? 0); [by eauto|]. apply IH; [lia|].
  apply Nat.lt_le_trans with (polls FIRST d w); [|lia].
  apply polls_wait; unfold FIRST, from_millis in *; lia.
Qed.

(** What [poll] reports. *)
Lemma poll_answer passes pause deadline (w w' : W) r :
  poll_from passes done pause deadline w = (Some r, w') →
  match r with
  | Ok true => ∃ v, done v = (Ok true, w')
  | Ok false => ∃ d, deadline = Some d ∧ d ≤ time w'
  | Err e => ∃ v, done v = (Err e, w')
  end.
Proof using Type.
  revert pause w. induction passes as [|n IH]; intros pause w; simpl; [discriminate|].
  destruct (done w) as [[[]|e] w1] eqn:Ed; [by intros [= <- <-]; eauto| |by intros [= <- <-]; eauto].
  unfold next_pause, overrun. destruct deadline as [d|]; [|apply IH].
  destruct (now w1) as [t w2] eqn:E. apply now_mono in E. unfold saturating_sub.
  destruct (Z.eqb_spec (Z.max 0 (d - t)) 0).
  { intros [= <- <-]. exists d. split; [reflexivity|lia]. }
  destruct (now (sleep _ w2)) as [t' w3] eqn:E3. apply now_mono in E3.
  destruct (Z.eqb_spec (Z.max 0 (d - t')) 0); [|apply IH].
  intros [= <- <-]. exists d. split; [reflexivity|lia].
Qed.

(** The same with an invariant that the check, the clock and the naps keep. *)
Lemma poll_invariant (I : W → Prop) passes pause deadline (w w' : W) r :
  (∀ w w', I w → done w = (Ok false, w') → I w') → (∀ w, I w → I (now w).2) → (∀ d w, I w → I (sleep d w)) →
  I w → poll_from passes done pause deadline w = (Some r, w') →
  match r with
  | Ok true => ∃ v, I v ∧ done v = (Ok true, w')
  | Ok false => I w' ∧ ∃ d v v', deadline = Some d ∧ d ≤ time w' ∧ I v ∧ done v = (Ok false, v')
  | Err e => ∃ v, I v ∧ done v = (Err e, w')
  end.
Proof using Type.
  intros Hdone Hnow Hsleep. revert pause w. induction passes as [|n IH]; intros pause w HI; simpl; [discriminate|].
  destruct (done w) as [[[]|e] w1] eqn:Ed; [by intros [= <- <-]; eauto| |by intros [= <- <-]; eauto].
  pose proof (Hdone _ _ HI Ed) as HI1. unfold next_pause, overrun. destruct deadline as [d|]; [|by apply IH; auto].
  pose proof (Hnow _ HI1) as HI2. destruct (now w1) as [t w2] eqn:E. apply now_mono in E. simpl in HI2. unfold saturating_sub.
  destruct (Z.eqb_spec (Z.max 0 (d - t)) 0).
  { intros [= <- <-]. split; [done|]. exists d, w, w1. split_and!; [done|lia|done..]. }
  pose proof (Hnow _ (Hsleep (Z.min (Z.max 0 (d - t)) pause) _ HI2)) as HI3.
  destruct (now (sleep _ w2)) as [t' w3] eqn:E3. apply now_mono in E3. simpl in HI3.
  destruct (Z.eqb_spec (Z.max 0 (d - t')) 0); [|by apply IH].
  intros [= <- <-]. split; [done|]. exists d, w, w1. split_and!; [done|lia|done..].
Qed.
End proofs.

(** [poll] with a deadline returns within one pass for each millisecond left
    and one more, for every check; with or without one, it answers that the check
    held or failed only when its last call did, and that it did not only after the
    deadline. *)
Theorem poll_ends_and_answers {W} `{ClockLaws W} (done : W → io_result bool * W) passes deadline (w : W) :
  (∀ w, time w ≤ time (done w).2) →
  (∀ d, deadline = Some d → (polls FIRST d w < passes)%nat → is_Some (poll passes done deadline w).1) ∧
  ∀ r w', poll passes done deadline w = (Some r, w') →
    match r with
    | Ok true => ∃ v, done v = (Ok true, w')
    | Ok false => ∃ d, deadline = Some d ∧ d ≤ time w'
    | Err e => ∃ v, done v = (Err e, w')
    end.
Proof.
  intros Hmono. split.
  - intros d -> Hn. by apply poll_terminates.
  - intros r w'. apply poll_answer.
Qed.

Lemma poll_ends_and_answers_witness :
  let done := next_answer (Ok false) in
  is_Some (poll 41 done (Some (from_millis 40)) (MkSim 0 [Ok false; Ok false])).1 ∧
  (poll 41 done (Some (from_millis 40)) (MkSim 0 [Ok false; Ok true])).1 = Some (Ok true).
Proof.
  split; [|reflexivity].
  apply (poll_ends_and_answers (next_answer (Ok false)) 41 (Some (from_millis 40))
    (MkSim 0 [Ok false; Ok false])) with (d := from_millis 40);
    [auto with daemon|reflexivity|].
  apply Nat.ltb_lt. vm_compute. reflexivity.
Defined.
