(* ===== verification/Admission.v ===== *)
(** * Bounded capacity for three classes of connections (src/admission.rs)

    Each pool is a pair of atomic counters. Every atomic access is one step, so a
    concurrent use of the pools is a sequence of steps: a refusal and the counting
    of it are two of them. *)
From S2P Require Import Prelude.

Module Pool.
Inductive t := Handshake | Application | Control.

#[global] Instance eq_dec : EqDecision t.
Proof. solve_decision. Defined.
End Pool.

Module Limits.
Record t := mk { handshakes : Z; application : Z; control : Z }.

Definition default : t := mk 32 256 32.
End Limits.

Module Admission.
Record Capacity := MkCapacity { limit : Z; active : Z; rejected : Z }.

(** The array of three, indexed by [pool as usize]. *)
Record t := mk { handshake_ : Capacity; application_ : Capacity; control_ : Capacity }.

Definition pools (a : t) (p : Pool.t) : Capacity :=
  match p with
  | Pool.Handshake => handshake_ a
  | Pool.Application => application_ a
  | Pool.Control => control_ a
  end.

Definition set_pool (p : Pool.t) (c : Capacity) (a : t) : t :=
  match p with
  | Pool.Handshake => mk c (application_ a) (control_ a)
  | Pool.Application => mk (handshake_ a) c (control_ a)
  | Pool.Control => mk (handshake_ a) (application_ a) c
  end.

Definition new (l : Limits.t) : t :=
  mk (MkCapacity (Limits.handshakes l) 0 0) (MkCapacity (Limits.application l) 0 0)
     (MkCapacity (Limits.control l) 0 0).

(** [fetch_update] of [try_acquire]: true when the slot was taken. *)
Definition take (p : Pool.t) (a : t) : bool * t :=
  let c := pools a p in
  if active c <? limit c
  then (true, set_pool p (MkCapacity (limit c) (wrap64 (active c + 1)) (rejected c)) a)
  else (false, a).

(** [rejected.fetch_add(1)]. *)
Definition count_rejection (p : Pool.t) (a : t) : t :=
  let c := pools a p in set_pool p (MkCapacity (limit c) (active c) (wrap64 (rejected c + 1))) a.

(** [try_acquire], undisturbed: whether there is a permit. *)
Definition try_acquire (p : Pool.t) (a : t) : bool * t :=
  match take p a with
  | (true, a) => (true, a)
  | (false, a) => (false, count_rejection p a)
  end.

(** [Drop for Permit]. *)
Definition release (p : Pool.t) (a : t) : t :=
  let c := pools a p in set_pool p (MkCapacity (limit c) (wrap64 (active c - 1)) (rejected c)) a.

(** [PoolSnapshot] has the fields of [Capacity]; each is loaded on its own. *)
Definition snapshot (a : t) (p : Pool.t) : Capacity := pools a p.

Lemma pools_set p q c a : pools (set_pool p c a) q = if decide (q = p) then c else pools a q.
Proof. destruct p, q; done. Qed.
End Admission.

(** ** Concurrent use *)

Module Use.
Import Admission.

(** One atomic step of some task, on one pool. A permit is released by a task that
    holds one, a rejection counted by a task that was refused. *)
Inductive step := Take | CountRejection | Release.
Definition op : Type := Pool.t * step.

Record tasks := Tasks { held : nat; refused : nat; pending : nat }.

Record sys := Sys { adm : t; of_pool : Pool.t → tasks }.

Definition start (l : Limits.t) : sys := Sys (new l) (λ _, Tasks 0 0 0).

Definition set_tasks (p : Pool.t) (x : tasks) (f : Pool.t → tasks) : Pool.t → tasks :=
  λ q, if decide (q = p) then x else f q.

Definition exec (s : sys) (x : op) : sys :=
  let '(p, st) := x in
  let y := of_pool s p in
  match st with
  | Take =>
      match take p (adm s) with
      | (true, a) => Sys a (set_tasks p (Tasks (S (held y)) (refused y) (pending y)) (of_pool s))
      | (false, a) => Sys a (set_tasks p (Tasks (held y) (S (refused y)) (S (pending y))) (of_pool s))
      end
  | CountRejection =>
      match pending y with
      | O => s
      | S n => Sys (count_rejection p (adm s)) (set_tasks p (Tasks (held y) (refused y) n) (of_pool s))
      end
  | Release =>
      match held y with
      | O => s
      | S n => Sys (release p (adm s)) (set_tasks p (Tasks n (refused y) (pending y)) (of_pool s))
      end
  end.

Definition run : sys → list op → sys := foldl exec.

(** A pool and the tasks that use it. *)
Definition view (s : sys) (p : Pool.t) : Capacity * tasks := (pools (adm s) p, of_pool s p).

(** A step on a pool depends on that pool alone, and changes no other. *)
Lemma exec_view s s' p st q :
  view s q = view s' q → view (exec s (p, st)) q = view (if decide (p = q) then exec s' (p, st) else s') q.
Proof.
  intros E. destruct (decide (p = q)) as [->|Hpq].
  - unfold view in *. injection E as E1 E2. simpl. rewrite <- E2. unfold take, count_rejection, release.
    rewrite <- E1. destruct st; [destruct (_ <? _)|destruct (pending _)|destruct (held _)]; simpl;
      unfold set_tasks; rewrite ?pools_set, ?decide_True by done; congruence.
  - rewrite <- E. unfold view. simpl. unfold take, count_rejection, release.
    destruct st; repeat case_match; simpl; simplify_eq/=; unfold set_tasks;
      rewrite ?pools_set, ?decide_False by done; done.
Qed.

(** The pools are independent. What a pool admits, holds and has refused is
    decided by the steps on that pool alone: exhausted application capacity never
    refuses a control session. *)
Theorem pools_are_independent s ops q :
  view (run s ops) q = view (run s (filter (λ x, x.1 = q) ops)) q.
Proof.
  cut (∀ s', view s q = view s' q → view (run s ops) q = view (run s' (filter (λ x, x.1 = q) ops)) q).
  { intros Hc. by apply Hc. }
  revert s. induction ops as [|[p st] ops IH]; intros s s' E; [done|].
  rewrite filter_cons. simpl. pose proof (exec_view s s' p st q E) as Hx. simpl in Hx.
  case_decide; simpl; by apply IH.
Qed.

(** Each pool counts the permits held and the refusals counted so far. *)
Definition sound (l : Limits.t) (s : sys) : Prop :=
  ∀ p, let c := pools (adm s) p in let y := of_pool s p in
  limit c = limit (pools (new l) p) ∧
  active c = Z.of_nat (held y) ∧ Z.of_nat (held y) ≤ limit c ∧
  (pending y ≤ refused y)%nat ∧ rejected c = wrap64 (Z.of_nat (refused y - pending y)).

Definition valid_limits (l : Limits.t) : Prop := ∀ p, is_u64 (limit (pools (new l) p)).

Lemma pools_sound_exec l s x : valid_limits l → sound l s → sound l (exec s x).
Proof.
  intros Hv Hs. destruct x as [p st]. intros q.
  destruct (decide (p = q)) as [->|Hpq].
  2:{ pose proof (exec_view s s p st q eq_refl) as E. rewrite decide_False in E by done.
      unfold view in E. apply pair_equal_spec in E as [E1 E2]. cbv zeta. rewrite E1, E2. apply Hs. }
  destruct (Hs q) as (Hl & Ha & Hle & Hp & Hr). specialize (Hv q).
  assert (is_u64 (limit (pools (adm s) q))) as Hu by (by rewrite Hl).
  unfold is_u64 in Hu. destruct st; simpl.
  - unfold take. destruct (Z.ltb_spec (active (pools (adm s) q)) (limit (pools (adm s) q))); simpl;
      unfold set_tasks; rewrite ?pools_set, !decide_True by done; simpl; split_and!; try done; try lia.
    in_range.
  - destruct (pending (of_pool s q)) as [|n] eqn:En; [by apply (Hs q)|]. simpl.
    unfold count_rejection, set_tasks. rewrite ?pools_set, !decide_True by done. simpl.
    split_and!; try done; try lia. rewrite Hr, wrap64_succ. f_equal. lia.
  - destruct (held (of_pool s q)) as [|n] eqn:En; [by apply (Hs q)|]. simpl.
    unfold release, set_tasks. rewrite ?pools_set, !decide_True by done. simpl.
    split_and!; try done; try lia. in_range.
Qed.

(** Whatever the tasks of a process do, and in whatever order their atomic
    steps happen, a pool counts exactly the permits held, never more than its
    limit, and grants the next one exactly while some capacity is left. *)
Theorem pools_count_their_permits l ops p :
  valid_limits l →
  let s := run (start l) ops in
  sound l s ∧
  ((take p (adm s)).1 = true ↔ Z.of_nat (held (of_pool s p)) < limit (pools (new l) p)).
Proof.
  intros Hv s. assert (sound l s) as Hs.
  { subst s. unfold run. induction ops as [|x ops IH] using rev_ind.
    - intros []; simpl; pose proof (Hv Pool.Handshake); pose proof (Hv Pool.Application);
        pose proof (Hv Pool.Control); unfold is_u64 in *; simpl in *; split_and!; done || lia.
    - rewrite foldl_app. by apply pools_sound_exec. }
  split; [done|]. destruct (Hs p) as (Hl & Ha & _). unfold take. rewrite <- Hl, <- Ha.
  destruct (Z.ltb_spec (active (pools (adm s) p)) (limit (pools (adm s) p))); simpl; split; done || lia.
Qed.

Lemma pools_count_their_permits_witness :
  let s := run (start (Limits.mk 1 2 1)) [(Pool.Application, Take); (Pool.Application, Take);
    (Pool.Application, Take); (Pool.Control, Take); (Pool.Application, CountRejection)] in
  sound (Limits.mk 1 2 1) s ∧ pools (adm s) Pool.Application = MkCapacity 2 2 1.
Proof.
  split; [|reflexivity].
  apply (pools_count_their_permits (Limits.mk 1 2 1) [(Pool.Application, Take); (Pool.Application, Take);
    (Pool.Application, Take); (Pool.Control, Take); (Pool.Application, CountRejection)] Pool.Control).
  intros []; unfold is_u64, u64_max; simpl; lia.
Defined.
End Use.
