(* ===== verification/SocketPath.v ===== *)
(** * Unix socket paths that fit (src/socket_path.rs)

    A name is checked when it is written, and a directory once, against every
    socket it will hold. A path is its bytes, as on Unix. *)
From S2P Require Import Prelude.

(** The platforms the limit distinguishes. *)
Inductive Platform := Linux | OtherUnix | NonUnix.

Definition MAX_SOCKET_PATH_BYTES (p : Platform) : option nat :=
  match p with Linux => Some 107%nat | OtherUnix => Some 103%nat | NonUnix => None end.

Definition MAX_NAME_BYTES : nat := 48.

Definition slash : byte := x2f.

(** [Path::join] on Unix: an absolute path replaces, and a separator is added
    unless there is one. *)
Definition need_sep (dir : bytes) : bool :=
  match last dir with Some l => bool_decide (l ≠ slash) | None => false end.

Definition join (dir name : bytes) : bytes :=
  if decide (head name = Some slash) then name
  else dir ++ (if need_sep dir then [slash] else []) ++ name.

Module SocketName.
(** The bytes a name may not have: slash, backslash, colon and NUL. *)
Definition plain (b : byte) : bool := bool_decide (b ∉ [x2f; x5c; x3a; x00]).

(** [SocketName::new]; [None] is its panic. *)
Definition new (name : bytes) : option bytes :=
  if decide (name = []) then None else
  if decide (length name ≤ MAX_NAME_BYTES)%nat then
    if decide (name = bs "." ∨ name = bs "..") then None else
    if forallb plain name then Some name else None
  else None.

Definition valid (name : bytes) : Prop := new name = Some name.

Lemma new_valid name n : new name = Some n → n = name ∧ valid name.
Proof. intros H. assert (n = name) as -> by (unfold new in H; by repeat case_match; simplify_eq). done. Qed.

Lemma valid_spec name :
  valid name → name ≠ [] ∧ (length name ≤ MAX_NAME_BYTES)%nat ∧ slash ∉ name.
Proof.
  unfold valid, new. intros H. repeat case_decide; try done.
  destruct (forallb plain name) eqn:Hp; [|done]. split_and!; [done..|].
  intros Hin. rewrite forallb_forall in Hp. apply list_elem_of_In in Hin. by apply Hp in Hin.
Qed.
End SocketName.

(** [check_socket_path]. *)
Definition check_socket_path (p : Platform) (socket : bytes) : io_result unit :=
  match MAX_SOCKET_PATH_BYTES p with
  | None => Ok tt
  | Some limit =>
      if decide (limit < length socket)%nat
      then Err (error_new InvalidInput "socket path is too long")
      else Ok tt
  end.

(** The longest of the names, at least [m]. *)
Definition longest (names : list bytes) : nat := foldr (λ name m, Nat.max (length name) m) O names.

Definition max_dir_bytes (p : Platform) (names : list bytes) : option nat :=
  limit ← MAX_SOCKET_PATH_BYTES p; Some (limit - (longest names + 1))%nat.

Module SocketDir.
(** [Iterator::max_by_key] on the length: the last of the longest. *)
Definition max_by_len (names : list bytes) : option bytes :=
  foldl (λ best name, match best with
    | Some b => if decide (length b ≤ length name)%nat then Some name else Some b
    | None => Some name end) None names.

Definition new (p : Platform) (dir : bytes) (names : list bytes) : io_result bytes :=
  match MAX_SOCKET_PATH_BYTES p, max_by_len names with
  | Some limit, Some name =>
      if decide (limit < length (join dir name))%nat
      then Err (error_new InvalidInput "socket in this directory is too long")
      else Ok dir
  | _, _ => Ok dir
  end.

Definition path (p : Platform) (dir : bytes) (name : bytes) : io_result bytes :=
  let path := join dir name in
  _ ← check_socket_path p path; Ok path.
End SocketDir.

(** ** What the checks promise *)

Lemma max_by_len_spec names :
  match SocketDir.max_by_len names with
  | Some b => b ∈ names ∧ ∀ name, name ∈ names → (length name ≤ length b)%nat
  | None => names = []
  end.
Proof.
  unfold SocketDir.max_by_len. induction names as [|x names IH] using rev_ind; [done|].
  rewrite foldl_app. simpl. destruct (foldl _ None names) as [b|].
  - destruct IH as [Hin Hmax]. case_decide.
    + split; [set_solver|]. intros y [Hy| ->%list_elem_of_singleton]%elem_of_app; [|done].
      specialize (Hmax y Hy). lia.
    + split; [set_solver|]. intros y [Hy| ->%list_elem_of_singleton]%elem_of_app; [auto|lia].
  - subst. split; set_solver.
Qed.

Lemma longest_spec names b :
  b ∈ names → (∀ name, name ∈ names → (length name ≤ length b)%nat) → longest names = length b.
Proof.
  intros Hb Hmax. apply Nat.le_antisymm.
  - clear Hb. induction names as [|x names IH]; simpl; [lia|].
    pose proof (Hmax x ltac:(set_solver)). specialize (IH ltac:(set_solver)). lia.
  - clear Hmax. induction names as [|x names IH]; [set_solver|]. simpl.
    apply elem_of_cons in Hb as [->|Hb]; [|specialize (IH Hb)]; lia.
Qed.

(** The length a name adds to a directory. *)
Lemma join_length dir name :
  name ≠ [] → slash ∉ name →
  length (join dir name) =
    (length dir + (if decide (dir = [] ∨ last dir = Some slash) then 0 else 1) + length name)%nat.
Proof.
  intros Hne Hs. unfold join, need_sep. rewrite decide_False.
  2:{ destruct name; set_solver. }
  destruct (last dir) as [l|] eqn:El.
  - assert (dir ≠ []) by (by intros ->). case_bool_decide as Hl.
    + rewrite decide_False by naive_solver. rewrite length_app. simpl. lia.
    + subst l. rewrite decide_True by auto. rewrite length_app. simpl. lia.
  - apply last_None in El as ->. rewrite decide_True by auto. done.
Qed.

Lemma check_socket_path_iff p path limit :
  MAX_SOCKET_PATH_BYTES p = Some limit →
  (is_ok (check_socket_path p path) = true ↔ (length path ≤ limit)%nat).
Proof. intros E. unfold check_socket_path. rewrite E. case_decide; simpl; split; done || lia. Qed.

Lemma path_Ok p dir name :
  is_ok (check_socket_path p (join dir name)) = true → SocketDir.path p dir name = Ok (join dir name).
Proof. intros H. unfold SocketDir.path. by destruct (check_socket_path _ _). Qed.

(** Among names without a separator, the longest gives the longest path. *)
Lemma join_mono dir name b :
  SocketName.valid name → SocketName.valid b → (length name ≤ length b)%nat →
  (length (join dir name) ≤ length (join dir b))%nat.
Proof.
  intros (? & _ & ?)%SocketName.valid_spec (? & _ & ?)%SocketName.valid_spec Hle.
  rewrite !join_length by done. lia.
Qed.

(** A directory that passes [SocketDir::new] gives a path, short enough for
    the platform, to every socket declared for it; a name that was not declared
    gets one exactly if it fits. On a platform with the limit, a directory that
    does not end in a separator passes exactly when it is within the budget
    [max_dir_bytes] reports. *)
Theorem socket_dir_fits p dir names :
  Forall SocketName.valid names →
  (∀ d, SocketDir.new p dir names = Ok d → d = dir ∧
     (∀ name, name ∈ names → SocketDir.path p d name = Ok (join dir name)) ∧
     ∀ name q, SocketDir.path p d name = Ok q →
       q = join dir name ∧ ∀ limit, MAX_SOCKET_PATH_BYTES p = Some limit → (length q ≤ limit)%nat) ∧
  (∀ budget, max_dir_bytes p names = Some budget → names ≠ [] → dir ≠ [] → last dir ≠ Some slash →
     (is_ok (SocketDir.new p dir names) = true ↔ (length dir ≤ budget)%nat)).
Proof.
  intros Hv. rewrite Forall_forall in Hv. pose proof (max_by_len_spec names) as Hmax. split.
  - unfold SocketDir.new. intros d Hd. assert (d = dir) as -> by (by repeat case_match; simplify_eq).
    split; [done|]. split.
    + intros name Hin. apply path_Ok. destruct (MAX_SOCKET_PATH_BYTES p) as [limit|] eqn:El.
      * rewrite check_socket_path_iff by done. destruct (SocketDir.max_by_len names) as [b|]; [|set_solver].
        case_decide as Hlen; [done|]. destruct Hmax as [Hb Hmax].
        pose proof (join_mono dir name b (Hv _ Hin) (Hv _ Hb) (Hmax _ Hin)). lia.
      * unfold check_socket_path. by rewrite El.
    + intros name q Hq. unfold SocketDir.path in Hq. apply result_bind_Ok in Hq as ([] & Hc & [= <-]).
      split; [done|]. intros limit El. apply (check_socket_path_iff p); [done|]. by rewrite Hc.
  - unfold max_dir_bytes. intros budget Hb Hne Hdir Hlast.
    destruct (MAX_SOCKET_PATH_BYTES p) as [limit|] eqn:El; simplify_eq/=.
    unfold SocketDir.new. rewrite El. destruct (SocketDir.max_by_len names) as [b|]; [|done].
    destruct Hmax as [Hin Hmax]. rewrite (longest_spec names b) by done.
    destruct (SocketName.valid_spec b (Hv _ Hin)) as (? & Hb48 & ?).
    rewrite join_length by done. rewrite (decide_False (P := dir = [] ∨ _)) by (by intros []).
    assert (48 < limit)%nat by (destruct p; simplify_eq/=; lia). unfold MAX_NAME_BYTES in *.
    assert (0 < length dir)%nat by (destruct dir; simpl; [done|lia]).
    case_decide; simpl; split; done || lia.
Qed.

Lemma socket_dir_fits_witness :
  SocketDir.new Linux (bs "/run/kache") [bs "daemon.sock"; bs "ctl"] = Ok (bs "/run/kache") ∧
  SocketDir.path Linux (bs "/run/kache") (bs "ctl") = Ok (join (bs "/run/kache") (bs "ctl")).
Proof.
  assert (SocketDir.new Linux (bs "/run/kache") [bs "daemon.sock"; bs "ctl"] = Ok (bs "/run/kache"))
    as H by (vm_compute; reflexivity).
  split; [exact H|].
  apply (socket_dir_fits Linux (bs "/run/kache") [bs "daemon.sock"; bs "ctl"]).
  - repeat constructor; vm_compute; reflexivity.
  - exact H.
  - apply elem_of_cons. right. apply elem_of_cons. left. reflexivity.
Defined.
