(* ===== verification/Identity.v ===== *)
(** * Service identities and the names derived from them
    (src/identity.rs, src/local/pipe_name.rs)

    Identities are validated once; directories and pipe names derived from
    different ones are different. *)
From S2P Require Import Prelude Text SocketPath.

(** ** Text *)

Definition dot : byte := x2e.
Definition dash : byte := x2d.
Definition underscore : byte := x5f.

(** [str::split] at one byte. *)
Fixpoint split_on (sep : byte) (l : bytes) : list bytes :=
  match l with
  | [] => [[]]
  | b :: rest =>
      if decide (b = sep) then [] :: split_on sep rest else
      match split_on sep rest with part :: parts => (b :: part) :: parts | [] => [[b]] end
  end.

(** [u128::from_be_bytes], and a number in lowercase hexadecimal with leading
    zeros, as by the format [{:032x}]. *)
Definition from_be_bytes (l : bytes) : Z := foldl (λ acc b, acc * 256 + byte_val b) 0 l.

Definition hex_digit (d : Z) : byte := byte_of (if d <? 10 then 48 + d else 87 + d).

Fixpoint hex (width : nat) (n : Z) : bytes :=
  match width with O => [] | S w => hex w (n / 16) ++ [hex_digit (n mod 16)] end.

(** Text cut at the first separator is cut in one way. *)
Lemma app_sep_inj (sep : byte) a b a' b' :
  sep ∉ a → sep ∉ a' → a ++ sep :: b = a' ++ sep :: b' → a = a' ∧ b = b'.
Proof.
  revert a'. induction a as [|x a IH]; intros [|y a'] Ha Ha' E; simplify_eq/=; [done|set_solver..|].
  destruct (IH a') as [-> ->]; set_solver.
Qed.

Lemma from_be_bytes_snoc l b : from_be_bytes (l ++ [b]) = from_be_bytes l * 256 + byte_val b.
Proof. unfold from_be_bytes. by rewrite foldl_app. Qed.

Lemma from_be_bytes_range l : 0 ≤ from_be_bytes l < 256 ^ Z.of_nat (length l).
Proof.
  induction l as [|b l IH] using rev_ind; [by unfold from_be_bytes|].
  rewrite from_be_bytes_snoc, length_app. simpl. pose proof (byte_val_range b).
  rewrite Nat2Z.inj_add, Z.pow_add_r by lia. lia.
Qed.

Lemma from_be_bytes_inj l l' :
  length l = length l' → from_be_bytes l = from_be_bytes l' → l = l'.
Proof.
  revert l'. induction l as [|b l IH] using rev_ind; intros l' Hlen E.
  { symmetry. by apply nil_length_inv. }
  destruct l' as [|b' l' _] using rev_ind; [rewrite length_app in Hlen; simpl in Hlen; lia|].
  rewrite !length_app in Hlen. simpl in Hlen. rewrite !from_be_bytes_snoc in E.
  pose proof (byte_val_range b). pose proof (byte_val_range b').
  f_equal; [apply IH; lia|]. f_equal. apply byte_val_inj. lia.
Qed.

Lemma hex_digit_val d : 0 ≤ d < 16 → byte_val (hex_digit d) = if d <? 10 then 48 + d else 87 + d.
Proof. intros Hd. apply byte_val_byte_of. destruct (Z.ltb_spec d 10); lia. Qed.

Lemma hex_digit_inj d d' : 0 ≤ d < 16 → 0 ≤ d' < 16 → hex_digit d = hex_digit d' → d = d'.
Proof.
  intros Hd Hd' E. apply (f_equal byte_val) in E. rewrite !hex_digit_val in E by done.
  destruct (Z.ltb_spec d 10), (Z.ltb_spec d' 10); lia.
Qed.

Lemma hex_inj w n n' : 0 ≤ n < 16 ^ Z.of_nat w → 0 ≤ n' < 16 ^ Z.of_nat w → hex w n = hex w n' → n = n'.
Proof.
  revert n n'. induction w as [|w IH]; intros n n' Hn Hn' E; simpl in *; [lia|].
  rewrite Nat2Z.inj_succ, Z.pow_succ_r in * by lia.
  apply app_inj_tail in E as [E1 E2].
  pose proof (Z.div_mod n 16). pose proof (Z.div_mod n' 16).
  pose proof (Z.mod_pos_bound n 16). pose proof (Z.mod_pos_bound n' 16).
  apply hex_digit_inj in E2; [|lia..]. apply IH in E1; [lia| |].
  - split; [apply Z.div_pos; lia|apply Z.div_lt_upper_bound; lia].
  - split; [apply Z.div_pos; lia|apply Z.div_lt_upper_bound; lia].
Qed.

(** The bytes of identities and of hexadecimal numbers: lowercase letters and
    digits, and dashes and dots. *)
Definition tame (b : byte) : bool :=
  is_ascii_lowercase b || is_ascii_digit b || bool_decide (b = dash) || bool_decide (b = dot).

Lemma hex_digit_tame d : 0 ≤ d < 16 → tame (hex_digit d) = true.
Proof.
  intros Hd. unfold tame, is_ascii_lowercase, is_ascii_digit. rewrite hex_digit_val by done.
  destruct (Z.ltb_spec d 10).
  - rewrite (proj2 (Z.leb_le 48 _)), (proj2 (Z.leb_le _ 57)) by lia. by rewrite !orb_true_r.
  - rewrite (proj2 (Z.leb_le 97 _)), (proj2 (Z.leb_le _ 122)) by lia. done.
Qed.

Lemma hex_tame w n : Forall (λ b, tame b = true) (hex w n).
Proof.
  revert n. induction w as [|w IH]; intros n; simpl; [done|].
  apply Forall_app. split; [done|]. constructor; [|done]. apply hex_digit_tame, Z.mod_pos_bound. lia.
Qed.

Lemma tame_text l : forallb tame l = true → Forall (λ b, tame b = true) l.
Proof. rewrite forallb_forall, Forall_forall. intros Hl b Hb. by apply Hl, list_elem_of_In. Qed.

Lemma tame_not (c : byte) l : Forall (λ b, tame b = true) l → tame c = false → c ∉ l.
Proof. rewrite Forall_forall. intros Hl Hc Hin. apply Hl in Hin. congruence. Qed.

(** ** Identities *)

Module ServiceIdentity.
Record t := mk { id : bytes; application : bytes; profile : bytes; instance_ : bytes }.

(** One dot-separated part of a component is refused when it is empty or does not
    begin and end with a letter or digit. *)
Definition bad_part (part : bytes) : bool :=
  match head part, last part with
  | Some f, Some l => negb (is_ascii_alphanumeric f) || negb (is_ascii_alphanumeric l)
  | _, _ => true
  end.

Definition bad_component (c : bytes) : bool :=
  bool_decide (c = []) || bool_decide (64 < length c)%nat || negb (forallb tame c)
  || existsb bad_part (split_on dot c).

Definition nil_id : bytes := replicate 16 x00.

(** [ServiceIdentity::new]; [id] has 16 bytes. *)
Definition new (id application profile instance_ : bytes) : io_result t :=
  if decide (id = nil_id) then Err (error_new InvalidInput "service UUID must not be nil") else
  if existsb bad_component [application; profile; instance_]
  then Err (error_new InvalidInput "invalid service identity component")
  else Ok (mk id application profile instance_).

Definition service_dir (i : t) : bytes := bs "service-" ++ hex 32 (from_be_bytes (id i)).
Definition profile_dir (i : t) : bytes := bs "profile-" ++ profile i.
Definition instance_dir (i : t) : bytes := bs "instance-" ++ instance_ i.

Definition CONTROL_SOCKET : bytes := bs "control.sock".

(** [paths]: the directory, which has room for the control socket. *)
Definition paths (p : Platform) (i : t) (user_root : bytes) : io_result bytes :=
  let directory := join (join (join user_root (service_dir i)) (profile_dir i)) (instance_dir i) in
  _ ← SocketDir.new p directory [CONTROL_SOCKET]; Ok directory.
End ServiceIdentity.

Module ServicePaths.
Import ServiceIdentity.
Definition ownership_lock (directory : bytes) : bytes := join directory (bs "owner.lock").
Definition upgrade_lock (directory : bytes) : bytes := join directory (bs "upgrade.lock").
Definition discovery (directory : bytes) : bytes := join directory (bs "discovery").
Definition control_socket (directory : bytes) : bytes := join directory CONTROL_SOCKET.
Definition sockets (p : Platform) (directory : bytes) (names : list bytes) : io_result bytes :=
  SocketDir.new p directory (CONTROL_SOCKET :: names).

(** The files of a service, by name. *)
Definition resources : list bytes := [bs "owner.lock"; bs "upgrade.lock"; bs "discovery"; CONTROL_SOCKET].
End ServicePaths.

Module PipeName.
Import ServiceIdentity.
Definition MAX_PIPE_NAME_UNITS : nat := 247.

(** [encode_utf16().count()] of valid UTF-8: a unit for each byte that starts a
    character, and another for a character of four bytes. *)
Definition utf16_units (l : bytes) : nat :=
  length (filter (λ b, ¬ (128 ≤ byte_val b < 192)) l) + length (filter (λ b, 240 ≤ byte_val b) l).

Definition pipe (sid : bytes) (i : t) (name : bytes) : bytes :=
  sid ++ [underscore] ++ service_dir i ++ [underscore] ++ profile_dir i ++ [underscore]
    ++ instance_dir i ++ [underscore] ++ name.

Definition user_pipe_name (sid : bytes) (i : t) (name : bytes) : io_result bytes :=
  let pipe := pipe sid i name in
  if decide (MAX_PIPE_NAME_UNITS < utf16_units pipe)%nat
  then Err (error_new InvalidInput "pipe name is too long")
  else Ok pipe.
End PipeName.

(** ** Distinct identities have distinct names *)

Module Names.
Import ServiceIdentity ServicePaths PipeName.

Definition valid (i : t) : Prop :=
  length (id i) = 16%nat ∧ new (id i) (application i) (profile i) (instance_ i) = Ok i.

Lemma valid_tame i :
  valid i → Forall (λ b, tame b = true) (profile i) ∧ Forall (λ b, tame b = true) (instance_ i).
Proof.
  intros [_ H]. unfold new in H. case_decide; [done|].
  destruct (existsb _ _) eqn:E; [done|]. simpl in E. apply orb_false_iff in E as [_ E].
  apply orb_false_iff in E as [Ep E]. apply orb_false_iff in E as [Ei _].
  assert (∀ c, bad_component c = false → Forall (λ b, tame b = true) c) as Hc.
  { intros c Hc. unfold bad_component in Hc. bools. by apply tame_text. }
  auto.
Qed.

Lemma dirs_tame i : valid i →
  Forall (λ b, tame b = true) (service_dir i) ∧ Forall (λ b, tame b = true) (profile_dir i) ∧
  Forall (λ b, tame b = true) (instance_dir i).
Proof.
  intros [Hp Hi]%valid_tame. unfold service_dir, profile_dir, instance_dir.
  split_and!; apply Forall_app; (split; [by apply tame_text|]); try done.
  apply hex_tame.
Qed.

(** The three parts of a name determine what they were made of. *)
Lemma dirs_inj i j :
  valid i → valid j → service_dir i = service_dir j → profile_dir i = profile_dir j →
  instance_dir i = instance_dir j → id i = id j ∧ profile i = profile j ∧ instance_ i = instance_ j.
Proof.
  intros [Hi _] [Hj _] Es Ep Ei. unfold service_dir, profile_dir, instance_dir in *.
  apply app_inv_head in Es, Ep, Ei. split_and!; [|done..].
  pose proof (from_be_bytes_range (id i)) as Ri. pose proof (from_be_bytes_range (id j)) as Rj.
  rewrite Hi in Ri. rewrite Hj in Rj.
  apply hex_inj in Es; [|done..]. apply from_be_bytes_inj; congruence.
Qed.

Lemma tame_slash l : Forall (λ b, tame b = true) l → slash ∉ l.
Proof. intros Hl. by apply (tame_not slash l Hl). Qed.

Lemma tame_underscore l : Forall (λ b, tame b = true) l → underscore ∉ l.
Proof. intros Hl. by apply (tame_not underscore l Hl). Qed.

Lemma join_relative dir name :
  name ≠ [] → slash ∉ name → join dir name = (dir ++ if need_sep dir then [slash] else []) ++ name.
Proof.
  intros Hne Hs. unfold join. rewrite decide_False; [by rewrite app_assoc|].
  destruct name; set_solver.
Qed.

Lemma need_sep_app dir name : name ≠ [] → slash ∉ name → need_sep (dir ++ name) = true.
Proof.
  intros Hne Hs. unfold need_sep. destruct name as [|b name _] using rev_ind; [done|].
  rewrite app_assoc, last_snoc. apply bool_decide_eq_true. set_solver.
Qed.

(** Joining a name to a path that ends in a name adds one separator. *)
Lemma join_join dir name file :
  name ≠ [] → slash ∉ name → file ≠ [] → slash ∉ file →
  join (join dir name) file = join dir name ++ slash :: file.
Proof.
  intros Hn Hns Hf Hfs. rewrite (join_relative (join dir name)) by done.
  rewrite (join_relative dir name) by done. rewrite need_sep_app by done.
  by rewrite <- !app_assoc.
Qed.

Lemma dirs_nonempty i : service_dir i ≠ [] ∧ profile_dir i ≠ [] ∧ instance_dir i ≠ [].
Proof. done. Qed.

(** A file of a service, spelled out. *)
Lemma resource_path p i root dir file :
  valid i → paths p i root = Ok dir → file ∈ resources →
  join dir file = (root ++ if need_sep root then [slash] else [])
    ++ service_dir i ++ slash :: profile_dir i ++ slash :: instance_dir i ++ slash :: file.
Proof.
  intros (Hs & Hp & Hi)%dirs_tame Hdir Hfile. unfold paths in Hdir.
  apply result_bind_Ok in Hdir as (? & _ & [= <-]).
  apply tame_slash in Hs, Hp, Hi. destruct (dirs_nonempty i) as (Ns & Np & Ni).
  assert (file ≠ [] ∧ slash ∉ file) as [Nf Hf].
  { unfold resources in Hfile. repeat (apply elem_of_cons in Hfile as [->|Hfile]);
      [split; [done|by apply tame_slash, tame_text]..|set_solver]. }
  rewrite join_join, join_join, join_join by done.
  rewrite (join_relative root) by done. by rewrite <- !app_assoc.
Qed.

(** Services never share a file. If a file of one identity, below a root, has
    the path of a file of another below the same root, they have the same UUID,
    profile and instance, and it is the same file; the control socket fits the
    platform's socket addresses. *)
Theorem service_files_are_disjoint p i j root di dj f g :
  valid i → valid j → paths p i root = Ok di → paths p j root = Ok dj →
  f ∈ resources → g ∈ resources →
  (join di f = join dj g →
     (id i = id j ∧ profile i = profile j ∧ instance_ i = instance_ j) ∧ f = g) ∧
  SocketDir.path p di CONTROL_SOCKET = Ok (control_socket di).
Proof.
  intros Hi Hj Hdi Hdj Hf Hg. split.
  - rewrite (resource_path p i root), (resource_path p j root) by done.
    pose proof (dirs_tame i Hi) as (Si & Pi & Ii). pose proof (dirs_tame j Hj) as (Sj & Pj & Ij).
    apply tame_slash in Si, Pi, Ii, Sj, Pj, Ij.
    intros E%app_inv_head. apply app_sep_inj in E as [Es E]; [|done..].
    apply app_sep_inj in E as [Ep E]; [|done..]. apply app_sep_inj in E as [Ei E]; [|done..].
    split; [by apply dirs_inj|done].
  - unfold paths in Hdi. apply result_bind_Ok in Hdi as (d & Hd & [= <-]).
    unfold SocketDir.path, control_socket. unfold SocketDir.new in Hd. simpl in Hd.
    unfold check_socket_path. destruct (MAX_SOCKET_PATH_BYTES p); [|done]. by case_decide.
Qed.

Definition kache : t := mk (replicate 16 xab) (bs "ninja.kunobi.kache") (bs "stable") (bs "default").
Definition kache_dev : t := mk (replicate 16 xab) (bs "ninja.kunobi.kache") (bs "dev") (bs "default").

Lemma service_files_are_disjoint_witness :
  ∃ d d', paths Linux kache (bs "/run/user/1000") = Ok d ∧
  paths Linux kache_dev (bs "/run/user/1000") = Ok d' ∧ ownership_lock d ≠ ownership_lock d' ∧
  SocketDir.path Linux d CONTROL_SOCKET = Ok (control_socket d).
Proof.
  eexists _, _. split; [vm_compute; reflexivity|]. split; [vm_compute; reflexivity|]. split.
  - vm_compute. discriminate.
  - eapply (service_files_are_disjoint Linux kache kache_dev (bs "/run/user/1000") _ _
      (bs "owner.lock") (bs "owner.lock")); try (split; vm_compute; reflexivity);
      try (vm_compute; reflexivity); apply elem_of_cons; left; reflexivity.
Defined.

(** ** Pipe names *)

(** Windows compares pipe names without case; for these names that is ASCII case
    folding, applied to every byte. *)
Definition lower (b : byte) : byte :=
  if is_ascii_uppercase b then byte_of (byte_val b + 32) else b.

Lemma lower_tame b : tame b = true → lower b = b.
Proof.
  unfold lower, tame, is_ascii_uppercase, is_ascii_lowercase, is_ascii_digit. intros Hb.
  destruct ((65 <=? byte_val b) && (byte_val b <=? 90)) eqn:Hu; [|done]. exfalso. bools.
  repeat (destruct Hb as [Hb|Hb]; bools); try lia; subst b; vm_compute in *; congruence.
Qed.

Lemma lower_underscore b : lower b = underscore ↔ b = underscore.
Proof. split; [|by intros ->]. by destruct b. Qed.

Lemma lower_list_tame l : Forall (λ b, tame b = true) l → lower <$> l = l.
Proof.
  induction 1 as [|b l Hb _ IH]; [done|]. rewrite fmap_cons, IH, lower_tame by done. done.
Qed.

(** A pipe name determines, up to the case Windows ignores, its user, the
    service's UUID, profile and instance, and the endpoint, whatever the endpoint
    is called; and every name that is returned is short enough. An underscore
    occurs in no SID. *)
Theorem pipe_names_are_disjoint sid sid' i j name name' n n' :
  valid i → valid j → underscore ∉ sid → underscore ∉ sid' →
  user_pipe_name sid i name = Ok n → user_pipe_name sid' j name' = Ok n' →
  (utf16_units n ≤ MAX_PIPE_NAME_UNITS)%nat ∧
  (lower <$> n = lower <$> n' →
     lower <$> sid = lower <$> sid' ∧ id i = id j ∧ profile i = profile j ∧
     instance_ i = instance_ j ∧ lower <$> name = lower <$> name').
Proof.
  intros Hi Hj Hs Hs' Hn Hn'. unfold user_pipe_name in *. do 2 (case_decide; [done|]). simplify_eq.
  split; [lia|]. unfold pipe.
  pose proof (dirs_tame i Hi) as (Si & Pi & Ii). pose proof (dirs_tame j Hj) as (Sj & Pj & Ij).
  rewrite !fmap_app. rewrite !(lower_list_tame (service_dir _)), !(lower_list_tame (profile_dir _)),
    !(lower_list_tame (instance_dir _)) by done.
  apply tame_underscore in Si, Pi, Ii, Sj, Pj, Ij.
  assert (∀ l : bytes, underscore ∉ l → underscore ∉ lower <$> l) as Hl.
  { intros l Hl (b & Eb & Hb)%list_elem_of_fmap. by apply eq_sym, lower_underscore in Eb as ->. }
  intros E. apply app_sep_inj in E as [Esid E]; [|auto..].
  apply app_sep_inj in E as [Es E]; [|done..]. apply app_sep_inj in E as [Ep E]; [|done..].
  apply app_sep_inj in E as [Ei E]; [|done..].
  destruct (dirs_inj i j) as (? & ? & ?); done.
Qed.

Lemma pipe_names_are_disjoint_witness :
  ∃ n, user_pipe_name (bs "S-1-5-21-1001") kache (bs "daemon_a.sock") = Ok n ∧
  (utf16_units n ≤ MAX_PIPE_NAME_UNITS)%nat.
Proof.
  destruct (user_pipe_name (bs "S-1-5-21-1001") kache (bs "daemon_a.sock")) as [n|] eqn:E;
    [|vm_compute in E; discriminate].
  exists n. split; [reflexivity|].
  assert (underscore ∉ bs "S-1-5-21-1001") as Hs by (apply (bool_decide_unpack _); vm_compute; exact I).
  assert (valid kache) as Hv by (split; vm_compute; reflexivity).
  exact (proj1 (pipe_names_are_disjoint (bs "S-1-5-21-1001") (bs "S-1-5-21-1001") kache kache
    (bs "daemon_a.sock") (bs "daemon_a.sock") n n Hv Hv Hs Hs E E)).
Defined.
End Names.
