(* ===== verification/Files.v ===== *)
(** * Files, locks and local sockets

    What the crate uses of a Unix file system, one system call at a time, and
    programs over those calls: a program is its next call and what it does with
    the reply, so several of them can run side by side. A path is its normal
    components. Files are named by numbers of their own that are never reused;
    the inode number a file reports may be. *)
From stdpp Require Import gmap list.
From S2P Require Import Prelude.

#[export] Instance byte_countable : Countable byte :=
  inj_countable Byte.to_N Byte.of_N Byte.of_to_N.

Abbreviation path := (list bytes).

(** [OsString::push] on the last component of a path. *)
Fixpoint push_name (p : path) (suffix : bytes) : path :=
  match p with
  | [] => [suffix]
  | [name] => [name ++ suffix]
  | dir :: p => dir :: push_name p suffix
  end.

(** [Path::parent] and [Path::file_name]; [..] is not a file name. *)
Definition parent (p : path) : option path :=
  match p with [] => None | _ => Some (removelast p) end.

Definition file_name (p : path) : option bytes :=
  match last p with
  | Some name => if decide (name = bs "..") then None else Some name
  | None => None
  end.

Lemma parent_shorter p q : parent p = Some q → length p = S (length q).
Proof.
  unfold parent. destruct p as [|x p] using rev_ind; [done|]. intros E.
  assert (removelast (p ++ [x]) = q) as <- by (destruct p; naive_solver).
  rewrite removelast_last, length_app. simpl. lia.
Qed.

Lemma parent_snoc dir x : parent (dir ++ [x]) = Some dir.
Proof. unfold parent. rewrite removelast_last. by destruct dir. Qed.

(** Whose a socket is, and whether it listens. A closed one stays in the file
    system and refuses connections. *)
Inductive socket := Closed | Unlistening (owner : nat) | Listening (owner : nat).

Inductive contents :=
| Regular (data : bytes)
| Directory
| Symlink (target : path)
| Fifo
| Socket (s : socket).

Record node := Node { what : contents; mode : Z; uid : Z; number : Z }.

#[export] Instance socket_eq_dec : EqDecision socket.
Proof. solve_decision. Defined.
#[export] Instance contents_eq_dec : EqDecision contents.
Proof. solve_decision. Defined.
#[export] Instance node_eq_dec : EqDecision node.
Proof. solve_decision. Defined.

Definition is_file (n : node) : bool := match what n with Regular _ => true | _ => false end.
Definition is_dir (n : node) : bool := match what n with Directory => true | _ => false end.
Definition is_socket (n : node) : bool := match what n with Socket _ => true | _ => false end.

(** [locks] says which task holds a lock file; [counters] holds the counter of
    each process that has used its own. *)
Record world := World {
  names : gmap path nat;
  nodes : gmap nat node;
  locks : gmap path nat;
  counters : gmap Z Z;
}.

Definition set_names (m : gmap path nat) (w : world) : world := World m (nodes w) (locks w) (counters w).
Definition set_nodes (m : gmap nat node) (w : world) : world := World (names w) m (locks w) (counters w).
Definition set_locks (m : gmap path nat) (w : world) : world := World (names w) (nodes w) m (counters w).
Definition set_counters (m : gmap Z Z) (w : world) : world := World (names w) (nodes w) (locks w) m.

(** ** System calls *)

Inductive call : Type → Type :=
| FetchAdd : call Z
| CreateNew (p : path) (m : Z) : call (io_result nat)
| Open (follow : bool) (p : path) : call (io_result nat)
| Fchmod (i : nat) (m : Z) : call (io_result unit)
| Write (i : nat) (data : bytes) : call (io_result nat)
| Fsync (i : nat) : call (io_result unit)
| Rename (a b : path) : call (io_result unit)
| Unlink (p : path) : call (io_result unit)
| Read (i : nat) (offset limit : nat) : call (io_result bytes)
| Fstat (i : nat) : call (io_result node)
| Lstat (p : path) : call (io_result node)
| Mkdirs (p : path) : call (io_result unit)
| Chmod (p : path) (m : Z) : call (io_result unit)
| OpenPrivate (p : path) : call (io_result nat)
| Lock (p : path) : call (io_result bool)
| Unlock (p : path) : call unit
| Bind (p : path) : call (io_result nat)
| Listen (i : nat) : call (io_result unit)
| Connect (p : path) : call (io_result unit)
| Close (i : nat) : call unit.

(** What the system makes of a call: it fails without effect, or goes through,
    moving at most [n] bytes, or all of them for 0. *)
Inductive fate := Fails (e : io_error) | Goes (n : nat).

Definition moved (n len : nat) : nat := match n with O => len | _ => n `min` len end.

Definition ELOOP : Z := 40.
Definition no_entry : io_error := IoError NotFound (Some 2) "no such file".
Definition too_many_links : io_error := IoError (OtherKind 0) (Some ELOOP) "too many links".

(** The file a name leads to through symbolic links, 40 at most. *)
Fixpoint resolve (links : nat) (w : world) (p : path) : io_result nat :=
  match links with
  | O => Err too_many_links
  | S links =>
      match names w !! p with
      | None => Err no_entry
      | Some i =>
          match nodes w !! i with
          | Some (Node (Symlink target) _ _ _) => resolve links w target
          | Some _ => Ok i
          | None => Err no_entry
          end
      end
  end.

Definition open_file (follow : bool) (w : world) (p : path) : io_result nat :=
  if follow then resolve 40 w p else
  match names w !! p with
  | None => Err no_entry
  | Some i =>
      match nodes w !! i with
      | Some (Node (Symlink _) _ _ _) => Err too_many_links
      | Some _ => Ok i
      | None => Err no_entry
      end
  end.

Section calls.
(** The task that calls, the process it belongs to and its user; and the inode
    number the file system gives a new file. *)
Context (me : nat) (pid user : Z) (numbering : world → Z).

(** A new file under a name that is free. *)
Definition create (p : path) (c : contents) (m : Z) (w : world) : nat * world :=
  let i := fresh (dom (nodes w)) in
  (i, World (<[p := i]> (names w)) (<[i := Node c m user (numbering w)]> (nodes w)) (locks w) (counters w)).

Definition update (i : nat) (f : node → node) (w : world) : io_result unit * world :=
  match nodes w !! i with
  | Some n => (Ok tt, set_nodes (<[i := f n]> (nodes w)) w)
  | None => (Err no_entry, w)
  end.

Definition set_what (c : contents) (n : node) : node := Node c (mode n) (uid n) (number n).
Definition set_mode (m : Z) (n : node) : node := Node (what n) m (uid n) (number n).

Definition write (i n : nat) (data : bytes) (w : world) : io_result nat * world :=
  match nodes w !! i with
  | Some (Node (Regular old) m u k) =>
      let count := moved n (length data) in
      (Ok count, set_nodes (<[i := Node (Regular (old ++ take count data)) m u k]> (nodes w)) w)
  | _ => (Err no_entry, w)
  end.

Definition rename (a b : path) (w : world) : io_result unit * world :=
  match names w !! a with
  | None => (Err no_entry, w)
  | Some i =>
      match names w !! b ≫= λ j, nodes w !! j with
      | Some (Node Directory _ _ _) => (Err (error_of_kind IsADirectory), w)
      | _ => (Ok tt, set_names (<[b := i]> (delete a (names w))) w)
      end
  end.

Definition unlink (p : path) (w : world) : io_result unit * world :=
  match names w !! p with
  | None => (Err no_entry, w)
  | Some i =>
      match nodes w !! i with
      | Some (Node Directory _ _ _) => (Err (error_of_kind IsADirectory), w)
      | _ => (Ok tt, set_names (delete p (names w)) w)
      end
  end.

Definition read (i n offset limit : nat) (w : world) : io_result bytes :=
  match nodes w !! i with
  | Some (Node (Regular data) _ _ _) => let left := take limit (drop offset data) in Ok (take (moved n (length left)) left)
  | _ => Err no_entry
  end.

Definition node_at (p : path) (w : world) : option node := names w !! p ≫= λ i, nodes w !! i.

(** The call [c] and its reply. Opening a lock file creates it; a missing file and
    a refused connection are never passing failures. *)
Definition exec {B : Type} (f : fate) (c : call B) (w : world) : B * world :=
  match c in call B return B * world with
  | FetchAdd => let n := default 0 (counters w !! pid) in (n, set_counters (<[pid := wrap64 (n + 1)]> (counters w)) w)
  | CreateNew p m =>
      match f with
      | Fails e => (Err e, w)
      | Goes _ =>
          if decide (is_Some (names w !! p)) then (Err (error_of_kind AlreadyExists), w)
          else let '(i, w) := create p (Regular []) m w in (Ok i, w)
      end
  | Open follow p =>
      (match f with
       | Fails e => if decide (kind e = NotFound) then open_file follow w p else Err e
       | Goes _ => open_file follow w p
       end, w)
  | Fchmod i m => match f with Fails e => (Err e, w) | Goes _ => update i (set_mode m) w end
  | Write i data => match f with Fails e => (Err e, w) | Goes n => write i n data w end
  | Fsync _ => (match f with Fails e => Err e | Goes _ => Ok tt end, w)
  | Rename a b => match f with Fails e => (Err e, w) | Goes _ => rename a b w end
  | Unlink p => match f with Fails e => (Err e, w) | Goes _ => unlink p w end
  | Read i offset limit => (match f with Fails e => Err e | Goes n => read i n offset limit w end, w)
  | Fstat i => (match f with Fails e => Err e | Goes _ => ok_or (nodes w !! i) no_entry end, w)
  | Lstat p => (match f with Fails e => Err e | Goes _ => ok_or (node_at p w) no_entry end, w)
  | Mkdirs p =>
      match f with
      | Fails e => (Err e, w)
      | Goes _ =>
          match node_at p w with
          | Some (Node Directory _ _ _) | Some (Node (Symlink _) _ _ _) => (Ok tt, w)
          | Some _ => (Err (error_of_kind AlreadyExists), w)
          | None => let '(_, w) := create p Directory 493 w in (Ok tt, w)
          end
      end
  | Chmod p m =>
      match f, names w !! p with
      | Fails e, _ => (Err e, w)
      | Goes _, Some i => update i (set_mode m) w
      | Goes _, None => (Err no_entry, w)
      end
  | OpenPrivate p =>
      match f with
      | Fails e => (Err e, w)
      | Goes _ =>
          match open_file false w p with
          | Err e =>
              if decide (names w !! p = None) then let '(i, w) := create p (Regular []) 384 w in (Ok i, w)
              else (Err e, w)
          | Ok i => (Ok i, w)
          end
      end
  | Lock p =>
      match f with
      | Fails e => (Err e, w)
      | Goes _ =>
          let w := if decide (is_Some (names w !! p)) then w else (create p (Regular []) 384 w).2 in
          if decide (is_Some (locks w !! p)) then (Ok false, w)
          else (Ok true, set_locks (<[p := me]> (locks w)) w)
      end
  | Unlock p => (tt, if decide (locks w !! p = Some me) then set_locks (delete p (locks w)) w else w)
  | Bind p =>
      match f with
      | Fails e => (Err e, w)
      | Goes _ =>
          if decide (is_Some (names w !! p)) then (Err (error_of_kind AddrInUse), w)
          else let '(i, w) := create p (Socket (Unlistening me)) 493 w in (Ok i, w)
      end
  | Listen i => match f with Fails e => (Err e, w) | Goes _ => update i (set_what (Socket (Listening me))) w end
  | Connect p =>
      let answer :=
        i ← resolve 40 w p;
        match nodes w !! i with
        | Some (Node (Socket (Listening _)) _ _ _) => Ok tt
        | _ => Err (error_of_kind ConnectionRefused)
        end in
      (match f with Fails e => if decide (kind e = ConnectionRefused) then answer else Err e | Goes _ => answer end, w)
  | Close i => (tt, (update i (set_what (Socket Closed)) w).2)
  end.
End calls.

(** ** Programs *)

(** [Stop] is a program that does not go on: its loops have used up their passes,
    or its process has gone. *)
Inductive prog (A : Type) : Type :=
| Ret (a : A)
| Stop
| Do (B : Type) (c : call B) (k : B → prog A).
Arguments Ret {A} a.
Arguments Stop {A}.
Arguments Do {A B} c k.

Fixpoint prog_bind_ {A B} (f : A → prog B) (p : prog A) : prog B :=
  match p with
  | Ret a => f a
  | Stop => Stop
  | Do c k => Do c (λ r, prog_bind_ f (k r))
  end.
#[export] Instance prog_ret : MRet prog := λ A a, Ret a.
#[export] Instance prog_bind : MBind prog := λ A B, prog_bind_.
#[export] Instance prog_fmap : FMap prog := λ A B f, prog_bind_ (λ a, Ret (f a)).

Definition sys {B} (c : call B) : prog B := Do c (λ r, Ret r).

(** [?]: return an error at once. *)
Definition attempt {E A B} (p : prog (result E A)) (f : A → prog (result E B)) : prog (result E B) :=
  p ≫= λ r, match r with Ok a => f a | Err e => Ret (Err e) end.

Notation "x ←? p ; q" := (attempt p (λ x, q)) (at level 20, p at level 100, q at level 200, only parsing).
Notation "p ;;? q" := (attempt p (λ _, q)) (at level 100, q at level 200, right associativity, only parsing).

(** Run alone, under the fates given, and all of them good after those. *)
Fixpoint run {A} (me : nat) (pid user : Z) (numbering : world → Z) (p : prog A) (fates : list fate) (w : world)
    : option A * list fate * world :=
  match p with
  | Ret a => (Some a, fates, w)
  | Stop => (None, fates, w)
  | Do c k =>
      let '(f, fates) := match fates with [] => (Goes 0, []) | f :: fates => (f, fates) end in
      let '(r, w) := exec me pid user numbering f c w in
      run me pid user numbering (k r) fates w
  end.

Lemma run_bind {A B} me pid user numbering (p : prog A) (f : A → prog B) fates w :
  run me pid user numbering (p ≫= f) fates w =
  match run me pid user numbering p fates w with
  | (Some a, fates, w) => run me pid user numbering (f a) fates w
  | (None, fates, w) => (None, fates, w)
  end.
Proof.
  revert fates w. induction p as [a| |C c k IH]; intros fates w; [done..|]. simpl.
  destruct fates as [|f' fates]; simpl; destruct (exec _ _ _ _ _ c w); apply IH.
Qed.

Lemma run_fmap {A B} me pid user numbering (f : A → B) (p : prog A) fates w :
  run me pid user numbering (f <$> p) fates w =
  match run me pid user numbering p fates w with (a, fates, w) => (f <$> a, fates, w) end.
Proof. etrans; [exact (run_bind me pid user numbering p (λ a, Ret (f a)) fates w)|]. by destruct (run _ _ _ _ p _ _) as [[[a|] ?] ?]. Qed.

(** ** Tasks side by side *)

(** A task makes its next call, or its process goes: its locks are released and
    its sockets closed. *)
Inductive event := Step (i : nat) (f : fate) | Crash (i : nat).

Section tasks.
Context {R : Type} (pid_of : nat → Z) (user : Z) (numbering : world → Z).

Record system := System { shared : world; tasks : list (prog R) }.

Definition owned_by (i : nat) (n : node) : bool :=
  match what n with Socket (Unlistening j) | Socket (Listening j) => bool_decide (i = j) | _ => false end.

Definition close_all (i : nat) (m : gmap nat node) : gmap nat node :=
  (λ n, if owned_by i n then set_what (Socket Closed) n else n) <$> m.

Definition crash (i : nat) (w : world) : world :=
  World (names w) (close_all i (nodes w)) (filter (λ l, l.2 ≠ i) (locks w)) (counters w).

Definition happen (s : system) (e : event) : system :=
  match e with
  | Step i f =>
      match tasks s !! i with
      | Some (Do c k) =>
          let '(r, w) := exec i (pid_of i) user numbering f c (shared s) in
          System w (<[i := k r]> (tasks s))
      | _ => s
      end
  | Crash i => System (crash i (shared s)) (<[i := Stop]> (tasks s))
  end.

Definition happens : system → list event → system := foldl happen.
End tasks.
Arguments System {R} shared tasks.

(** ** Programs that keep to a discipline

    [asks] is what a task must know before a call and [learns] what the reply adds,
    whatever other tasks do in between. *)
Section keeping.
Context {G : Type} (asks : ∀ B, call B → G → Prop) (learns : ∀ B, call B → G → B → G → Prop).

Fixpoint keeping {A} (Post : G → A → Prop) (p : prog A) (g : G) : Prop :=
  match p with
  | Ret a => Post g a
  | Stop => True
  | Do c k => asks _ c g ∧ ∀ r g', learns _ c g r g' → keeping Post (k r) g'
  end.

Lemma keeps_bind {A B} (Post : G → B → Prop) (p : prog A) (f : A → prog B) g :
  keeping (λ g a, keeping Post (f a) g) p g → keeping Post (p ≫= f) g.
Proof. revert g. induction p as [a| |C c k IH]; intros g; simpl; [done..|]. intros [Ha Hk]. split; eauto. Qed.

Lemma keeps_mono {A} (P Q : G → A → Prop) (p : prog A) g :
  (∀ g a, P g a → Q g a) → keeping P p g → keeping Q p g.
Proof.
  intros HPQ. revert g. induction p as [a| |C c k IH]; intros g; simpl; [by apply HPQ|done|].
  intros [Ha Hk]. split; eauto.
Qed.

Lemma keeps_attempt {E A B} (Post : G → result E B → Prop) (p : prog (result E A)) (f : A → prog (result E B)) g :
  keeping (λ g r, match r with Ok a => keeping Post (f a) g | Err e => Post g (Err e) end) p g →
  keeping Post (attempt p f) g.
Proof. intros Hp. apply keeps_bind. eapply keeps_mono; [|exact Hp]. by intros g' [a|e]. Qed.

Lemma keeps_fmap {A B} (Post : G → B → Prop) (f : A → B) (p : prog A) g :
  keeping (λ g a, Post g (f a)) p g → keeping Post (f <$> p) g.
Proof. intros Hp. by apply keeps_bind. Qed.

Lemma keeps_sys {B} (Post : G → B → Prop) (c : call B) g :
  asks _ c g → (∀ r g', learns _ c g r g' → Post g' r) → keeping Post (sys c) g.
Proof. intros Ha Hl. by split. Qed.
End keeping.
