(* ===== verification/Publication.v ===== *)
(** * Publication of discovery records (src/publication.rs, on Unix)

    A record is written to a temporary file beside it and renamed over it; a
    [RecordSlot] does so under a lock. The operations are programs over the calls
    of [Files], so publishers, slot users and readers run side by side, call by
    call, any call may fail and any process may go. The private directories and
    files of the same component are here too ([open_private] of local/unix.rs). *)
From stdpp Require Import gmap list.
From S2P Require Import Prelude Text Files.

Module RecordOptions.
Record t := mk { durable : bool; mode : Z; read_limit : Z }.

Definition new : t := mk false 384 65536.
Definition set_durable (d : bool) (o : t) : t := mk d (mode o) (read_limit o).
Definition set_mode (m : Z) (o : t) : t := mk (durable o) m (read_limit o).
Definition set_read_limit (n : Z) (o : t) : t := mk (durable o) (mode o) n.
End RecordOptions.

(** [.<record>.<pid>.<n>.tmp]. *)
Definition temporary_name (filename : bytes) (pid n : Z) : bytes :=
  bs "." ++ filename ++ bs "." ++ to_string pid ++ bs "." ++ to_string n ++ bs ".tmp".

Definition not_regular : io_error := error_new InvalidData "record is not a regular file".

Section code.
(** The process that runs the code, its user, and the passes its loops get. *)
Context (pid user : Z) (passes : nat).

(** [Write::write_all]. *)
Fixpoint write_all (passes : nat) (file : nat) (data : bytes) : prog (io_result unit) :=
  match data, passes with
  | [], _ => Ret (Ok tt)
  | _, O => Stop
  | _, S passes =>
      r ← sys (Write file data);
      match r with
      | Ok O => Ret (Err (error_of_kind WriteZero))
      | Ok n => write_all passes file (drop n data)
      | Err e => if decide (kind e = Interrupted) then write_all passes file data else Ret (Err e)
      end
  end.

(** [file.take(limit).read_to_end]: [sofar] has been read. *)
Fixpoint read_to_end (passes : nat) (file limit : nat) (sofar : bytes) : prog (io_result bytes) :=
  match passes with
  | O => Stop
  | S passes =>
      if (limit <=? length sofar)%nat then Ret (Ok sofar) else
      r ← sys (Read file (length sofar) (limit - length sofar));
      match r with
      | Ok [] => Ret (Ok sofar)
      | Ok more => read_to_end passes file limit (sofar ++ more)
      | Err e => if decide (kind e = Interrupted) then read_to_end passes file limit sofar else Ret (Err e)
      end
  end.

(** The loop that creates the temporary file. *)
Fixpoint create_temporary (passes : nat) (dir : path) (filename : bytes) : prog (io_result (path * nat)) :=
  match passes with
  | O => Stop
  | S passes =>
      n ← sys FetchAdd;
      let temporary := dir ++ [temporary_name filename pid n] in
      r ← sys (CreateNew temporary 384);
      match r with
      | Ok file => Ret (Ok (temporary, file))
      | Err e => if decide (kind e = AlreadyExists) then create_temporary passes dir filename else Ret (Err e)
      end
  end.

(** Rename the written file over the record; with [durable], sync the directory. *)
Definition replace (from to : path) (durable : bool) : prog (io_result unit) :=
  sys (Rename from to) ;;?
  if durable then
    directory ←? sys (Open true (default [] (parent from)));
    sys (Fsync directory)
  else Ret (Ok tt).

(** No components is the current directory. The temporary file is removed on
    every path once it was created. *)
Definition publish_record_with (p : path) (data : bytes) (options : RecordOptions.t) : prog (io_result unit) :=
  let dir := default [] (parent p) in
  match file_name p with
  | None => Ret (Err (error_new InvalidInput "discovery path needs a filename"))
  | Some filename =>
      created ←? create_temporary passes dir filename;
      let '(temporary, file) := created in
      r ← (sys (Fchmod file (RecordOptions.mode options)) ;;?
           write_all passes file data ;;?
           sys (Fsync file) ;;?
           replace temporary p (RecordOptions.durable options));
      _ ← sys (Unlink temporary);
      Ret r
  end.

Definition publish_record (p : path) (data : bytes) : prog (io_result unit) :=
  publish_record_with p data RecordOptions.new.

(** A record that must be a regular file of at most [limit] bytes. *)
Definition read_regular (p : path) (limit : Z) : prog (io_result (option bytes)) :=
  r ← sys (Open false p);
  match r with
  | Err e =>
      Ret (if decide (kind e = NotFound) then Ok None
           else if decide (raw_os_error e = Some ELOOP) then Err not_regular else Err e)
  | Ok file =>
      metadata ←? sys (Fstat file);
      if negb (is_file metadata) then Ret (Err not_regular) else
      data ←? read_to_end passes file (Z.to_nat (saturating_add limit 1)) [];
      Ret (if limit <? Z.of_nat (length data)
           then Err (error_new InvalidData "record is longer than its read limit")
           else Ok (Some data))
  end.

Definition ensure_private_dir (dir : path) : prog (io_result unit) :=
  sys (Mkdirs dir) ;;?
  metadata ←? sys (Lstat dir);
  if negb (is_dir metadata) then Ret (Err (error_of_kind PermissionDenied)) else
  if negb (uid metadata =? user) then Ret (Err (error_of_kind PermissionDenied)) else
  sys (Chmod dir 448).

(** [local::unix::open_private]. *)
Definition open_private (p : path) : prog (io_result nat) :=
  r ← sys (OpenPrivate p);
  match r with
  | Err e => Ret (Err (if decide (raw_os_error e = Some ELOOP) then error_of_kind PermissionDenied else e))
  | Ok file =>
      metadata ←? sys (Fstat file);
      if negb (uid metadata =? user) then Ret (Err (error_of_kind PermissionDenied)) else
      sys (Fchmod file 384) ;;? Ret (Ok file)
  end.

(** ** [RecordSlot] *)

Record RecordSlot := Slot { slot_path : path; slot_options : RecordOptions.t }.

Definition lock_path (p : path) : path := push_name p (bs ".record.lock").

(** The guard of [lock], given back when [body] has returned. The attempts that
    [acquire_until] makes while another holds the lock change nothing: the call here
    is the last of them. *)
Definition with_lock {A} (s : RecordSlot) (body : prog (io_result A)) : prog (io_result A) :=
  locked ←? sys (Lock (lock_path (slot_path s)));
  if locked : bool then
    r ← body;
    _ ← sys (Unlock (lock_path (slot_path s)));
    Ret r
  else Ret (Err (error_of_kind TimedOut)).

Definition slot_publish (s : RecordSlot) (data : bytes) : prog (io_result unit) :=
  publish_record_with (slot_path s) data (slot_options s).

Definition matches (s : RecordSlot) (data : bytes) : prog (io_result bool) :=
  r ← sys (Open true (slot_path s));
  match r with
  | Err e => Ret (if decide (kind e = NotFound) then Ok false else Err e)
  | Ok file =>
      current ←? read_to_end passes file (S (length data)) [];
      Ret (Ok (bool_decide (current = data)))
  end.

Definition slot_replace (s : RecordSlot) (data : bytes) : prog (io_result unit) :=
  with_lock s (slot_publish s data).

Definition repair (s : RecordSlot) (data : bytes) : prog (io_result bool) :=
  with_lock s (
    same ←? matches s data;
    if same : bool then Ret (Ok false) else
    slot_publish s data ;;? Ret (Ok true)).

Definition replace_if (s : RecordSlot) (data : bytes) (accepts : option bytes → bool) : prog (io_result bool) :=
  with_lock s (
    current ←? read_regular (slot_path s) (RecordOptions.read_limit (slot_options s));
    if negb (accepts current) then Ret (Ok false) else
    slot_publish s data ;;? Ret (Ok true)).

Definition remove_if_matches (s : RecordSlot) (data : bytes) : prog (io_result bool) :=
  with_lock s (
    same ←? matches s data;
    if negb same then Ret (Ok false) else
    sys (Unlink (slot_path s)) ;;? Ret (Ok true)).

Definition remove_if (s : RecordSlot) (accepts : bytes → bool) : prog (io_result bool) :=
  with_lock s (
    current ←? read_regular (slot_path s) (RecordOptions.read_limit (slot_options s));
    match current with
    | None => Ret (Ok false)
    | Some current =>
        if negb (accepts current) then Ret (Ok false) else
        sys (Unlink (slot_path s)) ;;? Ret (Ok true)
    end).

Definition slot_read (s : RecordSlot) : prog (io_result (option bytes)) :=
  read_regular (slot_path s) (RecordOptions.read_limit (slot_options s)).
End code.

(** ** What a task is asked to do *)

Inductive job :=
| Publish (p : path) (data : bytes) (o : RecordOptions.t)
| Replace (s : RecordSlot) (data : bytes)
| Repair (s : RecordSlot) (data : bytes)
| ReplaceIf (s : RecordSlot) (data : bytes) (accepts : option bytes → bool)
| RemoveIfMatches (s : RecordSlot) (data : bytes)
| RemoveIf (s : RecordSlot) (accepts : bytes → bool)
| ReadRecord (s : RecordSlot).

Inductive outcome :=
| Published (r : io_result unit)
| Changed (r : io_result bool)
| Seen (r : io_result (option bytes)).

Definition program (pid : Z) (passes : nat) (j : job) : prog outcome :=
  match j with
  | Publish p data o => Published <$> publish_record_with pid passes p data o
  | Replace s data => Published <$> slot_replace pid passes s data
  | Repair s data => Changed <$> repair pid passes s data
  | ReplaceIf s data accepts => Changed <$> replace_if pid passes s data accepts
  | RemoveIfMatches s data => Changed <$> remove_if_matches passes s data
  | RemoveIf s accepts => Changed <$> remove_if passes s accepts
  | ReadRecord s => Seen <$> slot_read passes s
  end.

Definition job_path (j : job) : path :=
  match j with
  | Publish p _ _ => p
  | Replace s _ | Repair s _ | ReplaceIf s _ _ | RemoveIfMatches s _ | RemoveIf s _ | ReadRecord s => slot_path s
  end.

(** What a job may leave at its path. *)
Definition writes (j : job) : option bytes :=
  match j with
  | Publish _ data _ | Replace _ data | Repair _ data | ReplaceIf _ data _ => Some data
  | RemoveIfMatches _ _ | RemoveIf _ _ | ReadRecord _ => None
  end.

(** ** Reasoning about a task among others

    A task is described by what only it can change: its temporary file, the files
    it has open that nobody writes any more, and the record whose lock it holds.
    [asks] is what it must know before a call and [learns] what the reply tells it,
    whatever the other tasks do in between. *)

(** What a record path holds. *)
Inductive cell := Absent | Holds (d : bytes) | Odd.

#[export] Instance cell_eq_dec : EqDecision cell.
Proof. solve_decision. Defined.

Definition cell_at (w : world) (p : path) : cell :=
  match names w !! p with
  | None => Absent
  | Some i => match nodes w !! i with Some (Node (Regular d) _ _ _) => Holds d | _ => Odd end
  end.

Inductive phase :=
| Idle
| Reserved (n : Z)
| Owns (n : Z) (t : path) (f : nat) (d : bytes)
| Spent (n : Z) (t : path).

(** [held] is the record a task holds the lock of: its path, what it held when
    the lock was taken, and what it holds now; [past] is that after the release. *)
Record ghost := Ghost {
  temp : phase;
  known : gmap nat (option bytes);
  held : option (path * cell * cell);
  past : option (path * cell * cell);
}.

Definition no_ghost : ghost := Ghost Idle ∅ None None.
Definition set_temp (x : phase) (g : ghost) : ghost := Ghost x (known g) (held g) (past g).
Definition learn (f : nat) (o : option bytes) (g : ghost) : ghost := Ghost (temp g) (<[f := o]> (known g)) (held g) (past g).
Definition hold (h : option (path * cell * cell)) (g : ghost) : ghost := Ghost (temp g) (known g) h (past g).
Definition release (g : ghost) : ghost := Ghost (temp g) (known g) None (held g).

(** The record now holds [c]. *)
Definition change (c : cell) (h : option (path * cell * cell)) : option (path * cell * cell) :=
  match h with Some (p, s, _) => Some (p, s, c) | None => None end.

Section discipline.
(** What a record may hold; the paths only slots use; the task's job. *)
Context (versions : path → bytes → Prop) (slotted : path → Prop) (pid : Z) (j : job).

Definition removes : Prop := match j with RemoveIfMatches _ _ | RemoveIf _ _ => True | _ => False end.
Definition holds_lock (g : ghost) : Prop := ∃ s c, held g = Some (job_path j, s, c).

Definition asks {B} (c : call B) (g : ghost) : Prop :=
  match c with
  | FetchAdd => temp g = Idle
  | CreateNew t _ => ∃ n dir f, temp g = Reserved n ∧ t = dir ++ [temporary_name f pid n]
  | Open _ _ | Fsync _ | Read _ _ _ | Fstat _ => True
  | Fchmod i _ | Write i _ => ∃ n t d, temp g = Owns n t i d
  | Rename a b =>
      ∃ n f d, temp g = Owns n a f d ∧ b = job_path j ∧ writes j = Some d ∧ (slotted b → holds_lock g)
  | Unlink a =>
      (∃ n f d, temp g = Owns n a f d) ∨ (∃ n, temp g = Spent n a) ∨
      (a = job_path j ∧ removes ∧ (slotted a → holds_lock g))
  | Lock p => p = lock_path (job_path j) ∧ held g = None ∧ past g = None
  | Unlock p => p = lock_path (job_path j) ∧ holds_lock g
  | _ => False
  end.

(** The file opened at the record's path holds [o]. *)
Definition opened (f : nat) (o : option bytes) (g : ghost) : Prop :=
  (∀ d, o = Some d → versions (job_path j) d) ∧
  (∀ s c, slotted (job_path j) → held g = Some (job_path j, s, c) →
     c = match o with Some d => Holds d | None => Odd end).

Definition learns {B} (c : call B) (g : ghost) : B → ghost → Prop :=
  match c in call B return B → ghost → Prop with
  | FetchAdd => λ n g', 0 ≤ n ∧ g' = set_temp (Reserved n) g
  | CreateNew t _ => λ r g',
      match r with
      | Ok i => ∃ n, temp g = Reserved n ∧ g' = set_temp (Owns n t i []) g
      | Err _ => g' = set_temp Idle g
      end
  | Open follow p => λ r g',
      match r with
      | Ok f =>
          (g' = g ∧ (p = job_path j → follow = true ∧
             ∀ s c, slotted p → held g = Some (p, s, c) → c = Odd)) ∨
          (p = job_path j ∧ ∃ o, opened f o g ∧ g' = learn f o g)
      | Err e =>
          g' = g ∧ (p = job_path j → kind e = NotFound → ∀ s c, slotted p → held g = Some (p, s, c) →
                    c = Absent ∨ (follow = true ∧ c = Odd))
      end
  | Fchmod _ _ | Fsync _ => λ _ g', g' = g
  | Write i data => λ r g',
      match r with
      | Ok k => ∃ n t d, temp g = Owns n t i d ∧ g' = set_temp (Owns n t i (d ++ take k data)) g
      | Err _ => g' = g
      end
  | Rename a b => λ r g',
      match r with
      | Ok _ => ∃ n f d, temp g = Owns n a f d ∧ g' = set_temp (Spent n a) (hold (change (Holds d) (held g)) g)
      | Err _ => g' = g
      end
  | Unlink a => λ r g',
      match r with
      | Ok _ => g' = if decide (a = job_path j) then hold (change Absent (held g)) g else set_temp Idle g
      | Err _ => g' = g
      end
  | Read f offset limit => λ r g',
      g' = g ∧
      match known g !! f, r with
      | Some (Some d), Ok b =>
          ∃ m, b = take m (take limit (drop offset d)) ∧ (b = [] → take limit (drop offset d) = [])
      | _, _ => True
      end
  | Fstat f => λ r g',
      g' = g ∧ match r with Ok nd => ∀ o, known g !! f = Some o → is_file nd = bool_decide (is_Some o) | Err _ => True end
  | Lock _ => λ r g', match r with Ok true => ∃ c, g' = hold (Some (job_path j, c, c)) g | _ => g' = g end
  | Unlock _ => λ _ g', g' = release g
  | _ => λ _ _, False
  end.

Definition keeps {A} : (ghost → A → Prop) → prog A → ghost → Prop := keeping (λ B, @asks B) (λ B, @learns B).

(** What was read so far is the first part of the file. *)
Lemma read_extends (d b : bytes) (k m limit : nat) :
  (k ≤ limit)%nat → (k ≤ length d)%nat → b = take m (take (limit - k) (drop k d)) →
  take k d ++ b = take (k + length b) d ∧ (k + length b ≤ limit)%nat ∧ (k + length b ≤ length d)%nat.
Proof.
  intros Hk Hd ->. rewrite take_take, length_take, length_drop. split; [|lia].
  rewrite take_take_drop. destruct (decide (m `min` (limit - k) ≤ length d - k)%nat).
  - f_equal. lia.
  - rewrite !take_ge by lia. done.
Qed.

Lemma read_to_end_known n f limit sofar d g :
  known g !! f = Some (Some d) → sofar = take (length sofar) d → (length sofar ≤ limit)%nat →
  keeps (λ g' r, g' = g ∧ ∀ b, r = Ok b → b = take limit d) (read_to_end n f limit sofar) g.
Proof.
  intros Hf. revert sofar. induction n as [|n IH]; intros sofar Hs Hl; simpl; [done|].
  assert (length sofar ≤ length d)%nat as Hld.
  { rewrite Hs, length_take. lia. }
  destruct (Nat.leb_spec limit (length sofar)) as [Hle|Hle].
  - simpl. split; [done|]. intros b [= <-]. rewrite Hs. f_equal. lia.
  - split; [done|]. intros [b|e] g' Hread; cbn in Hread; rewrite Hf in Hread; revert Hread.
    + intros (-> & m & Hb & Hend). destruct b as [|x b].
      * simpl. split; [done|]. intros b [= <-]. specialize (Hend eq_refl).
        apply (f_equal length) in Hend. rewrite length_take, length_drop in Hend. simpl in Hend.
        rewrite Hs, take_ge, take_ge; [done|lia..].
      * apply (read_extends d (x :: b)) in Hb as (Ha & Hlim & Hlen); [|lia..].
        rewrite <- Hs in Ha. apply IH; rewrite length_app; [by rewrite <- Ha|lia].
    + intros [-> _]. case_decide; [by apply IH|]. done.
Qed.

Lemma read_to_end_quiet n f limit sofar g :
  keeps (λ g' r, g' = g) (read_to_end n f limit sofar) g.
Proof.
  revert sofar. induction n as [|n IH]; intros sofar; simpl; [done|].
  destruct (_ <=? _)%nat; [done|]. split; [done|]. intros [b|e] g' [-> _].
  - destruct b; [done|apply IH].
  - case_decide; [apply IH|done].
Qed.

Lemma write_all_keeps n k t f d data g :
  temp g = Owns k t f d →
  keeps (λ g' r, match r with
                 | Ok _ => g' = set_temp (Owns k t f (d ++ data)) g
                 | Err _ => ∃ d', g' = set_temp (Owns k t f d') g
                 end) (write_all n f data) g.
Proof.
  revert d data g. induction n as [|n IH]; intros d data g Hg.
  - destruct data; [|done]. simpl. rewrite app_nil_r, <- Hg. by destruct g.
  - destruct data as [|b data]; [simpl; rewrite app_nil_r, <- Hg; by destruct g|].
    change (write_all (S n) f (b :: data)) with
      (sys (Write f (b :: data)) ≫= λ r, match r with
       | Ok O => Ret (Err (error_of_kind WriteZero))
       | Ok m => write_all n f (drop m (b :: data))
       | Err e => if decide (kind e = Interrupted) then write_all n f (b :: data) else Ret (Err e) end).
    apply keeps_bind, keeps_sys; [by do 3 eexists|].
    intros [m|e] g' Hl; simpl in Hl.
    + destruct Hl as (k' & t' & d' & Hg' & ->). rewrite Hg in Hg'. simplify_eq.
      destruct m as [|m]; [simpl; by eexists|].
      eapply keeps_mono; [|apply (IH (d' ++ take (S m) (b :: data))); done].
      intros g2 [[]|e]; cbn [set_temp temp known held past].
      * intros ->. by rewrite <- app_assoc, take_drop.
      * intros [d2 ->]. by exists d2.
    + subst g'. case_decide; [by apply IH|]. simpl. exists d. rewrite <- Hg. by destruct g.
Qed.

Lemma create_temporary_keeps n dir filename g :
  temp g = Idle →
  keeps (λ g' r, match r with
                 | Ok (t, f) => ∃ k, g' = set_temp (Owns k t f []) g ∧ t = dir ++ [temporary_name filename pid k]
                 | Err _ => g' = g
                 end) (create_temporary pid n dir filename) g.
Proof.
  revert g. induction n as [|n IH]; intros g Hg; [done|]. split; [done|].
  intros k g1 [Hk ->]. split; [by do 3 eexists|].
  intros [f|e] g2 Hl; cbn in Hl.
  - destruct Hl as (k' & [= <-] & ->). simpl. eauto.
  - subst g2. assert (set_temp Idle (set_temp (Reserved k) g) = g) as -> by (rewrite <- Hg; by destruct g).
    simpl. case_decide; [by apply IH|done].
Qed.

Lemma replace_keeps k t f d durable g :
  temp g = Owns k t f d → writes j = Some d → (slotted (job_path j) → holds_lock g) →
  parent t ≠ Some (job_path j) → job_path j ≠ [] →
  keeps (λ g' r, match r with
                 | Ok _ => g' = set_temp (Spent k t) (hold (change (Holds d) (held g)) g)
                 | Err _ => g' = g ∨ (durable = true ∧ g' = set_temp (Spent k t) (hold (change (Holds d) (held g)) g))
                 end) (replace t (job_path j) durable) g.
Proof.
  intros Hg Hw Hlock Hp Hne. apply keeps_attempt, keeps_sys; [by do 3 eexists|].
  intros [[]|e] g' Hl; simpl in Hl; [|by left].
  destruct Hl as (k' & f' & d' & Hg' & ->). rewrite Hg in Hg'. simplify_eq.
  destruct durable; [|done]. apply keeps_attempt, keeps_sys; [done|].
  assert (default [] (parent t) ≠ job_path j) as Hd by (destruct (parent t); simpl; congruence).
  intros [dir|e] g' Hl; simpl in Hl.
  - destruct Hl as [[-> _]|[? _]]; [|done]. apply keeps_sys; [done|]. intros [[]|e] g'; simpl; intros ->; [done|by right].
  - destruct Hl as [-> _]. by right.
Qed.

(** A record's name is not that of a temporary or of a lock file. *)
Definition plain (p : path) : Prop :=
  ∃ name, last p = Some name ∧ name ≠ bs ".." ∧ head name ≠ Some "."%byte ∧ ¬ bs ".record.lock" `suffix_of` name.

Lemma plain_not_temporary p dir filename q n : plain p → p ≠ dir ++ [temporary_name filename q n].
Proof. intros (name & Hl & _ & Hh & _) ->. rewrite last_snoc in Hl. by simplify_eq. Qed.

Lemma publish_keeps n data options g :
  plain (job_path j) → temp g = Idle → writes j = Some data → (slotted (job_path j) → holds_lock g) →
  keeps (λ g' r, known g' = known g ∧ past g' = past g ∧
           match r with
           | Ok _ => held g' = change (Holds data) (held g)
           | Err _ => held g' = held g ∨
                      (RecordOptions.durable options = true ∧ held g' = change (Holds data) (held g))
           end)
    (publish_record_with pid n (job_path j) data options) g.
Proof.
  intros Hp Hg Hw Hlock. unfold publish_record_with. set (dir := default [] (parent (job_path j))).
  destruct (file_name (job_path j)) as [filename|]; [|by split_and!; try done; left].
  apply keeps_attempt. eapply keeps_mono; [|by apply create_temporary_keeps].
  intros g1 [[t f]|e]; [|by intros ->; split_and!; try done; left].
  intros (k & -> & Ht). set (g1 := set_temp (Owns k t f []) g).
  assert (t ≠ job_path j) as Htj by (intros Heq; by eapply plain_not_temporary; [apply Hp|rewrite <- Heq]).
  assert (job_path j ≠ []) as Hne by (intros E; rewrite E in Hp; by destruct Hp as (? & [=] & _)).
  assert (parent t ≠ Some (job_path j)) as Hpt.
  { rewrite Ht, parent_snoc. intros [= E]. unfold dir in E. destruct (parent (job_path j)) as [q|] eqn:Eq; simpl in E.
    - apply parent_shorter in Eq. rewrite <- E in Eq at 1. rewrite E in Eq. lia.
    - by rewrite <- E in Hne. }
  apply keeps_bind.
  apply (keeps_mono _ _ (λ g' r, (∃ f' d', temp g' = Owns k t f' d' ∨ temp g' = Spent k t) ∧
           known g' = known g ∧ past g' = past g ∧
           match r with
           | Ok _ => held g' = change (Holds data) (held g)
           | Err _ => held g' = held g ∨
                      (RecordOptions.durable options = true ∧ held g' = change (Holds data) (held g))
           end)).
  { intros g2 r (Htemp & Hk & Hpast & Hr). apply keeps_bind, keeps_sys.
    - destruct Htemp as (f' & d' & [Hx|Hx]); [left; eauto|right; left; eauto].
    - intros [[]|e] g3 Hl; simpl in Hl; [|by subst]. rewrite decide_False in Hl by done. by subst g3. }
  apply keeps_attempt, keeps_sys; [by do 3 eexists|].
  intros [[]|e] g2 Hl; simpl in Hl; subst g2; [|split_and!; simpl; eauto].
  apply keeps_attempt. eapply keeps_mono; [|by apply write_all_keeps].
  intros g2 [[]|e]; [|intros [d' ->]; split_and!; simpl; eauto]. intros ->.
  apply keeps_attempt, keeps_sys; [done|].
  intros [[]|e] g2 Hl; simpl in Hl; subst g2; [|split_and!; simpl; eauto].
  eapply keeps_mono; [|by eapply replace_keeps].
  intros g2 [[]|e]; simpl.
  - intros ->. split_and!; simpl; eauto.
  - intros [->|[Hd ->]]; split_and!; simpl; eauto.
  Unshelve. all: exact [] || exact O.
Qed.

(** [matches] and [read_regular] under the record's lock, or without it. *)
Lemma read_regular_keeps n limit g :
  0 ≤ limit < u64_max →
  keeps (λ g' r, temp g' = temp g ∧ held g' = held g ∧ past g' = past g ∧
           ∀ o, r = Ok o →
             (∀ d, o = Some d → versions (job_path j) d ∧ Z.of_nat (length d) ≤ limit) ∧
             (∀ s c, slotted (job_path j) → held g = Some (job_path j, s, c) →
                c = match o with Some d => Holds d | None => Absent end))
    (read_regular n (job_path j) limit) g.
Proof.
  intros Hlim. unfold read_regular. apply keeps_bind, keeps_sys; [done|].
  intros [f|e] g1 Hl; simpl in Hl.
  - destruct Hl as [[-> H]|(_ & o & Ho & ->)]; [by destruct (H eq_refl)|].
    apply keeps_attempt, keeps_sys; [done|]. intros [nd|e] g2 [-> Hnd]; [|split_and!; naive_solver].
    specialize (Hnd o). simpl in Hnd. rewrite lookup_insert_eq in Hnd. rewrite (Hnd eq_refl).
    destruct o as [d|]; simpl; [|split_and!; naive_solver].
    apply keeps_attempt. eapply keeps_mono;
      [|apply (read_to_end_known _ f _ [] d); [apply lookup_insert_eq|done|simpl; lia]].
    intros g2 [b|e] [-> Hb]; simpl; [|split_and!; naive_solver].
    split_and!; try done. intros o'. destruct (Z.ltb_spec limit (Z.of_nat (length b))) as [|Hle]; [done|].
    intros [= <-]. specialize (Hb b eq_refl). subst b.
    assert (take (Z.to_nat (saturating_add limit 1)) d = d) as Hd.
    { rewrite length_take in Hle. unfold saturating_add, u64_max in *. apply take_ge. lia. }
    rewrite Hd in *. destruct Ho as [Hv Hc]. split; [|intros; by eapply Hc].
    intros d' [= <-]. split; [by apply Hv|lia].
  - destruct Hl as [-> He]. simpl. split_and!; try done. intros o Ho. repeat case_decide; simplify_eq.
    split; [done|]. intros s c Hs Hh. destruct (He eq_refl ltac:(done) s c Hs Hh) as [?|[? _]]; done.
Qed.

Lemma matches_keeps n s0 data g :
  slot_path s0 = job_path j →
  keeps (λ g' r, temp g' = temp g ∧ held g' = held g ∧ past g' = past g ∧
           ∀ b, r = Ok b → ∀ s c, slotted (job_path j) → held g = Some (job_path j, s, c) →
             match c with Absent => b = false | Holds d => b = bool_decide (d = data) | Odd => True end)
    (matches n s0 data) g.
Proof.
  intros Hp. unfold matches. rewrite Hp. apply keeps_bind, keeps_sys; [done|].
  intros [f|e] g1 Hl; simpl in Hl.
  - apply keeps_attempt. destruct Hl as [[-> H]|(_ & o & Ho & ->)].
    + eapply keeps_mono; [|apply read_to_end_quiet]. intros g2 [b|e] ->; simpl; split_and!; try done.
      intros b' _ s c Hs Hh. by rewrite (proj2 (H eq_refl) s c Hs Hh).
    + destruct o as [d|].
      * eapply keeps_mono; [|apply (read_to_end_known _ f _ [] d); [apply lookup_insert_eq|done|simpl; lia]].
        intros g2 [b|e] [-> Hb]; simpl; split_and!; try done. specialize (Hb b eq_refl). subst b.
        intros b [= <-] s c Hs Hh. destruct Ho as [_ Hc]. rewrite (Hc s c Hs Hh).
        apply bool_decide_ext. destruct (decide (length d ≤ S (length data))%nat).
        -- by rewrite take_ge.
        -- split; [|by intros ->; simpl in *; lia]. intros E. apply (f_equal length) in E.
           rewrite length_take in E. lia.
      * eapply keeps_mono; [|apply read_to_end_quiet]. intros g2 [b|e] ->; simpl; split_and!; try done.
        intros b' _ s c Hs Hh. destruct Ho as [_ Hc]. by rewrite (Hc s c Hs Hh).
  - destruct Hl as [-> He]. simpl. split_and!; try done. intros b Hb s c Hs Hh. case_decide; [|done].
    injection Hb as <-. destruct (He eq_refl ltac:(done) s c Hs Hh) as [->|[_ ->]]; done.
Qed.

(** What an operation on a slot promises: the record held [start] when the lock
    was taken and holds [fin] when it is released. *)
Definition promised (start : cell) (o : outcome) (fin : cell) : Prop :=
  match j, o with
  | Replace _ d, Published (Ok _) => fin = Holds d
  | Replace s d, Published (Err _) | Repair s d, Changed (Err _) | ReplaceIf s d _, Changed (Err _) =>
      fin = start ∨ (RecordOptions.durable (slot_options s) = true ∧ fin = Holds d)
  | Repair _ d, Changed (Ok b) =>
      (start = Odd ∨ b = bool_decide (start ≠ Holds d)) ∧ fin = if b then Holds d else start
  | ReplaceIf _ d accepts, Changed (Ok b) =>
      match start with Absent => b = accepts None | Holds old => b = accepts (Some old) | Odd => False end ∧
      fin = if b then Holds d else start
  | RemoveIfMatches _ d, Changed (Ok b) =>
      (start = Odd ∨ b = bool_decide (start = Holds d)) ∧ fin = if b then Absent else start
  | RemoveIf _ accepts, Changed (Ok b) =>
      match start with Absent => b = false | Holds old => b = accepts old | Odd => False end ∧
      fin = if b then Absent else start
  | RemoveIfMatches _ _, Changed (Err _) | RemoveIf _ _, Changed (Err _) => fin = start
  | _, _ => False
  end.

Definition failed (o : outcome) : Prop :=
  match o with Published (Err _) | Changed (Err _) | Seen (Err _) => True | _ => False end.

Definition slot_job : Prop := match j with Publish _ _ _ | ReadRecord _ => False | _ => True end.

Definition job_limit : Z :=
  match j with
  | Publish _ _ _ => 0
  | Replace s _ | Repair s _ | ReplaceIf s _ _ | RemoveIfMatches s _ | RemoveIf s _ | ReadRecord s =>
      RecordOptions.read_limit (slot_options s)
  end.

(** How a task stands when it has returned. *)
Definition finished (g : ghost) (o : outcome) : Prop :=
  (∀ d, o = Seen (Ok (Some d)) → versions (job_path j) d ∧ Z.of_nat (length d) ≤ job_limit) ∧
  (slotted (job_path j) → slot_job →
   match past g with Some (p, s, c) => p = job_path j ∧ promised s o c | None => failed o end).

Lemma with_lock_keeps {A} (Post : ghost → io_result A → Prop) s0 (body : prog (io_result A)) g :
  slot_path s0 = job_path j → held g = None → past g = None →
  (∀ e, Post g (Err e)) →
  (∀ c, keeps (λ g' r, ∃ s' c', held g' = Some (job_path j, s', c') ∧ Post (release g') r) body
          (hold (Some (job_path j, c, c)) g)) →
  keeps Post (with_lock s0 body) g.
Proof.
  intros Hp Hh Hpast He Hb. unfold with_lock. rewrite Hp. apply keeps_attempt, keeps_sys; [done|].
  intros [[]|e] g1 Hl; cbn in Hl.
  - destruct Hl as [c ->]. apply keeps_bind. eapply keeps_mono; [|apply Hb].
    intros g2 r (s' & c' & Hg2 & Hpost). apply keeps_bind, keeps_sys; [by split; [|do 2 eexists]|].
    intros [] g3 ->. exact Hpost.
  - subst. apply He.
  - subst. apply He.
Qed.

End discipline.

Section jobs.
Context (versions : path → bytes → Prop) (slotted : path → Prop) (pid : Z) (n : nat).
Abbreviation kept j := (keeps versions slotted pid j (finished versions slotted j) (program pid n j) no_ghost).

Lemma publish_kept p d o : plain p → ¬ slotted p → kept (Publish p d o).
Proof.
  intros Hp Hs. apply keeps_fmap. eapply keeps_mono; [|apply (publish_keeps _ _ _ (Publish p d o)); done].
  intros g r _. split; [done|]. by intros ?.
Qed.

Lemma read_kept s : plain (slot_path s) → 0 ≤ RecordOptions.read_limit (slot_options s) < u64_max → kept (ReadRecord s).
Proof.
  intros Hp Hl. apply keeps_fmap. eapply keeps_mono; [|by apply (read_regular_keeps _ _ _ (ReadRecord s))].
  intros g r (_ & _ & _ & Hr). split; [|done]. intros d [= ->]. by apply (Hr (Some d) eq_refl).
Qed.

Lemma replace_kept s d : plain (slot_path s) → kept (Replace s d).
Proof.
  intros Hp. apply keeps_fmap, (with_lock_keeps _ _ _ (Replace s d)); [done..| |].
  { intros e. split; [done|]. by intros ??. }
  intros c. eapply keeps_mono; [|apply (publish_keeps _ _ _ (Replace s d)); try done; by do 2 eexists].
  intros g [[]|e] (_ & _ & Hh); simpl in Hh.
  - exists c, (Holds d). split; [done|]. split; [done|]. intros _ _. simpl. by rewrite Hh.
  - destruct Hh as [Hh|[Hd Hh]]; [exists c, c|exists c, (Holds d)]; (split; [done|]; split; [done|]);
      intros _ _; simpl; rewrite Hh; naive_solver.
Qed.

Lemma repair_kept s d : plain (slot_path s) → kept (Repair s d).
Proof.
  intros Hp. apply keeps_fmap, (with_lock_keeps _ _ _ (Repair s d)); [done..| |].
  { intros e. split; [done|]. by intros ??. }
  intros c. apply keeps_attempt. eapply keeps_mono; [|by apply (matches_keeps _ _ _ (Repair s d))].
  intros g [same|e] (Ht & Hh & _ & Hm); simpl in Ht, Hh.
  - specialize (Hm same eq_refl c c). destruct same.
    + exists c, c. split; [done|]. split; [done|]. intros Hs _. simpl. rewrite Hh. split; [done|].
      specialize (Hm Hs eq_refl). split; [|done]. destruct c; [done| |by left]. right.
      symmetry in Hm. apply bool_decide_eq_true in Hm as ->. by rewrite bool_decide_eq_false_2 by auto.
    + apply keeps_attempt.
      eapply keeps_mono; [|apply (publish_keeps _ _ _ (Repair s d)); try done; intros _; by do 2 eexists].
      intros g' [[]|e] (_ & _ & Hh'); rewrite Hh in Hh'; simpl in Hh'.
      * exists c, (Holds d). split; [done|]. split; [done|]. intros Hs _. simpl. rewrite Hh'. split; [done|].
        specialize (Hm Hs eq_refl). split; [|done]. destruct c; [by right; rewrite bool_decide_eq_true_2| |by left].
        right. symmetry in Hm. apply bool_decide_eq_false in Hm. rewrite bool_decide_eq_true_2; [done|congruence].
      * destruct Hh' as [Hh'|[Hd Hh']]; [exists c, c|exists c, (Holds d)]; (split; [done|]; split; [done|]);
          intros _ _; simpl; rewrite Hh'; naive_solver.
  - exists c, c. split; [done|]. split; [done|]. intros _ _. simpl. rewrite Hh. naive_solver.
Qed.

Lemma replace_if_kept s d accepts :
  plain (slot_path s) → 0 ≤ RecordOptions.read_limit (slot_options s) < u64_max → kept (ReplaceIf s d accepts).
Proof.
  intros Hp Hl. apply keeps_fmap, (with_lock_keeps _ _ _ (ReplaceIf s d accepts)); [done..| |].
  { intros e. split; [done|]. by intros ??. }
  intros c. apply keeps_attempt. eapply keeps_mono; [|by apply (read_regular_keeps _ _ _ (ReplaceIf s d accepts))].
  intros g [o|e] (Ht & Hh & _ & Hm); simpl in Ht, Hh.
  - destruct (Hm o eq_refl) as [_ Hc]. specialize (Hc c c). destruct (accepts o) eqn:Ea; simpl.
    + apply keeps_attempt.
      eapply keeps_mono; [|apply (publish_keeps _ _ _ (ReplaceIf s d accepts)); try done; intros _; by do 2 eexists].
      intros g' [[]|e] (_ & _ & Hh'); rewrite Hh in Hh'; simpl in Hh'.
      * exists c, (Holds d). split; [done|]. split; [done|]. intros Hs _. simpl. rewrite Hh'.
        rewrite (Hc Hs eq_refl). by destruct o.
      * destruct Hh' as [Hh'|[Hd Hh']]; [exists c, c|exists c, (Holds d)]; (split; [done|]; split; [done|]);
          intros _ _; simpl; rewrite Hh'; naive_solver.
    + exists c, c. split; [done|]. split; [done|]. intros Hs _. simpl. rewrite Hh, (Hc Hs eq_refl). by destruct o.
  - exists c, c. split; [done|]. split; [done|]. intros _ _. simpl. rewrite Hh. naive_solver.
Qed.

(** Removing the record under its lock. *)
Lemma unlink_record_keeps j (Post : ghost → outcome → Prop) g c0 c :
  removes j → held g = Some (job_path j, c0, c) →
  (∀ g', held g' = Some (job_path j, c0, Absent) → past g' = past g → Post (release g') (Changed (Ok true))) →
  (∀ e, Post (release g) (Changed (Err e))) →
  keeps versions slotted pid j
    (λ g' r, ∃ s' c', held g' = Some (job_path j, s', c') ∧ Post (release g') (Changed r))
    (sys (Unlink (job_path j)) ;;? Ret (Ok true)) g.
Proof.
  intros Hr Hh Hok Herr. apply keeps_attempt, keeps_sys.
  - right. right. split_and!; [done..|]. intros _. by do 2 eexists.
  - intros [[]|e] g' Hl; cbn in Hl.
    + rewrite decide_True in Hl by done. subst g'. exists c0, Absent. rewrite Hh. split; [done|]. by apply Hok; rewrite ?Hh.
    + subst g'. exists c0, c. split; [done|]. apply Herr.
Qed.

Lemma remove_if_matches_kept s d : plain (slot_path s) → kept (RemoveIfMatches s d).
Proof.
  intros Hp. apply keeps_fmap, (with_lock_keeps _ _ _ (RemoveIfMatches s d)); [done..| |].
  { intros e. split; [done|]. by intros ??. }
  intros c. apply keeps_attempt. eapply keeps_mono; [|by apply (matches_keeps _ _ _ (RemoveIfMatches s d))].
  intros g [same|e] (Ht & Hh & _ & Hm); simpl in Ht, Hh.
  - specialize (Hm same eq_refl c c). destruct same; simpl.
    + apply (unlink_record_keeps (RemoveIfMatches s d) (finished versions slotted (RemoveIfMatches s d)) g c c); [done..| |].
      * intros g' Hg' _. split; [done|]. intros Hs _. simpl. rewrite Hg'. split; [done|].
        specialize (Hm Hs eq_refl). split; [|done]. destruct c; [done| |by left]. right.
        symmetry in Hm. apply bool_decide_eq_true in Hm as ->. by rewrite bool_decide_eq_true_2.
      * intros e. split; [done|]. intros _ _. simpl. by rewrite Hh.
    + exists c, c. split; [done|]. split; [done|]. intros Hs _. simpl. rewrite Hh. split; [done|].
      specialize (Hm Hs eq_refl). split; [|done]. destruct c; [by right; rewrite bool_decide_eq_false_2| |by left].
      right. symmetry in Hm. apply bool_decide_eq_false in Hm. rewrite bool_decide_eq_false_2; [done|congruence].
  - exists c, c. split; [done|]. split; [done|]. intros _ _. simpl. by rewrite Hh.
Qed.

Lemma remove_if_kept s accepts :
  plain (slot_path s) → 0 ≤ RecordOptions.read_limit (slot_options s) < u64_max → kept (RemoveIf s accepts).
Proof.
  intros Hp Hl. apply keeps_fmap, (with_lock_keeps _ _ _ (RemoveIf s accepts)); [done..| |].
  { intros e. split; [done|]. by intros ??. }
  intros c. apply keeps_attempt. eapply keeps_mono; [|by apply (read_regular_keeps _ _ _ (RemoveIf s accepts))].
  intros g [o|e] (Ht & Hh & _ & Hm); simpl in Ht, Hh.
  - destruct (Hm o eq_refl) as [_ Hc]. specialize (Hc c c). destruct o as [d|].
    + destruct (accepts d) eqn:Ea; simpl.
      * apply (unlink_record_keeps (RemoveIf s accepts) (finished versions slotted (RemoveIf s accepts)) g c c); [done..| |].
        -- intros g' Hg' _. split; [done|]. intros Hs _. simpl. rewrite Hg', (Hc Hs eq_refl). done.
        -- intros e. split; [done|]. intros _ _. simpl. by rewrite Hh.
      * exists c, c. split; [done|]. split; [done|]. intros Hs _. simpl. by rewrite Hh, (Hc Hs eq_refl).
    + exists c, c. split; [done|]. split; [done|]. intros Hs _. simpl. by rewrite Hh, (Hc Hs eq_refl).
  - exists c, c. split; [done|]. split; [done|]. intros _ _. simpl. by rewrite Hh.
Qed.

(** Every job keeps to the discipline; the paths of slots are not published to
    directly. *)
Lemma job_kept j :
  plain (job_path j) → 0 ≤ job_limit j < u64_max → (slotted (job_path j) → slot_job j ∨ writes j = None) → kept j.
Proof.
  intros Hp Hl Hs. destruct j; simpl in *.
  - apply publish_kept; [done|]. intros [?|?]%Hs; done.
  - by apply replace_kept.
  - by apply repair_kept.
  - by apply replace_if_kept.
  - by apply remove_if_matches_kept.
  - by apply remove_if_kept.
  - by apply read_kept.
Qed.
End jobs.
