(* ===== verification/Records.v ===== *)
(** * Records under concurrency

    Any number of tasks of any number of processes publish, repair, remove and read
    records at the same time, call by call. A reader gets a whole version, and the
    operations of a slot take effect one after another. *)
From stdpp Require Import gmap list.
From S2P Require Import Prelude Text Files Publication.

(** ** Names *)

Lemma last_dot (x y : bytes) (a b : bytes) :
  "."%byte ∉ a → "."%byte ∉ b → x ++ "."%byte :: a = y ++ "."%byte :: b → x = y ∧ a = b.
Proof.
  intros Ha Hb. revert y. induction x as [|c x IH]; intros [|d y]; simpl; intros E; simplify_eq/=.
  - done.
  - set_solver.
  - set_solver.
  - destruct (IH y) as [-> ->]; done.
Qed.

Lemma to_string_no_dot n : 0 ≤ n → "."%byte ∉ to_string n.
Proof.
  intros Hn Hin. pose proof (to_string_digits n Hn) as H. rewrite Forall_forall in H.
  by specialize (H _ Hin).
Qed.

Lemma temporary_name_inj f p n f' p' n' :
  0 ≤ p → 0 ≤ n → 0 ≤ p' → 0 ≤ n' → temporary_name f p n = temporary_name f' p' n' → p = p' ∧ n = n'.
Proof.
  intros Hp Hn Hp' Hn'. unfold temporary_name. rewrite !app_assoc. intros E. apply app_inj_2 in E as [E _]; [|done].
  rewrite <- !app_assoc in E. simpl in E. injection E as E.
  change (f ++ ["."%byte] ++ to_string p ++ ["."%byte] ++ to_string n =
          f' ++ ["."%byte] ++ to_string p' ++ ["."%byte] ++ to_string n') in E.
  rewrite !(app_assoc f), !(app_assoc f'), !(app_assoc (f ++ _)), !(app_assoc (f' ++ _)) in E.
  apply last_dot in E as [E En]; [|by apply to_string_no_dot..].
  rewrite <- !app_assoc in E. apply last_dot in E as [_ Ep]; [|by apply to_string_no_dot..].
  split; by apply to_string_inj.
Qed.

Lemma last_push p suffix name : last p = Some name → last (push_name p suffix) = Some (name ++ suffix).
Proof.
  induction p as [|a [|b p] IH]; [done|simpl; congruence|]. intros Hl.
  change (push_name (a :: b :: p) suffix) with (a :: push_name (b :: p) suffix). by rewrite last_cons, IH.
Qed.

Lemma push_name_inj p q suffix : p ≠ [] → q ≠ [] → push_name p suffix = push_name q suffix → p = q.
Proof.
  revert q. induction p as [|a [|b p] IH]; [done| |]; intros [|c [|d q]] _ Hq E; try done.
  - assert (a ++ suffix = c ++ suffix) as E' by (simpl in E; congruence). apply app_inv_tail in E'. by subst.
  - exfalso. simpl in E. by destruct q.
  - exfalso. simpl in E. by destruct p.
  - change (a :: push_name (b :: p) suffix = c :: push_name (d :: q) suffix) in E.
    assert (a = c) as -> by congruence. f_equal. apply IH; [done..|congruence].
Qed.

Lemma plain_not_lock p q : plain p → q ≠ [] → p ≠ lock_path q.
Proof.
  intros (name & Hl & _ & _ & Hs) Hq ->. unfold lock_path in Hl.
  destruct (last q) as [x|] eqn:Ex; [|by apply last_None in Ex].
  rewrite (last_push _ _ x) in Hl by done. injection Hl as <-. apply Hs. by eexists.
Qed.

Lemma temporary_not_lock dir f p n q : q ≠ [] → dir ++ [temporary_name f p n] ≠ lock_path q.
Proof.
  intros Hq E. apply (f_equal last) in E. rewrite last_snoc in E. unfold lock_path in E.
  destruct (last q) as [x|] eqn:Ex; [|by apply last_None in Ex].
  rewrite (last_push _ _ x) in E by done. injection E as E. unfold temporary_name in E.
  change (bs ".record.lock") with (bs ".record." ++ bs "lock") in E. rewrite !app_assoc in E.
  apply app_inj_2 in E as [_ E]; done.
Qed.

Lemma plain_nonempty p : plain p → p ≠ [].
Proof. by intros (name & Hl & _) ->. Qed.

(** ** The invariant *)

(** What happened to the record of a slot: which task changed it, from what, to
    what. *)
Fixpoint chained (c : cell) (l : list (nat * cell * cell)) (e : cell) : Prop :=
  match l with
  | [] => c = e
  | (_, s, f) :: l => s = c ∧ chained f l e
  end.

Lemma chained_snoc c l i s f : chained c l s → chained c (l ++ [(i, s, f)]) f.
Proof. revert c. induction l as [|[[i' s'] f'] l IH]; intros c; simpl; [done|]. intros [-> H]. auto. Qed.

Section concurrency.
Context (jobs : list job) (pid_of : nat → Z) (user : Z) (numbering : world → Z) (slotted : path → Prop) (w0 : world).
Context (p0 : path).

Definition versions (p : path) (d : bytes) : Prop :=
  cell_at w0 p = Holds d ∨ ∃ j, j ∈ jobs ∧ job_path j = p ∧ writes j = Some d.

Definition numbered (x : phase) : option Z :=
  match x with Idle => None | Reserved n | Owns n _ _ _ | Spent n _ => Some n end.

Definition temporary_of (i : nat) (n : Z) (t : path) : Prop := ∃ dir f, t = dir ++ [temporary_name f (pid_of i) n].

Definition data_of (nd : node) : option bytes := match what nd with Regular d => Some d | _ => None end.

(** What a file holds: [None] for no file, [Some None] for one that is not regular. *)
Definition data (w : world) (f : nat) : option (option bytes) := data_of <$> nodes w !! f.

Definition unowned (G : nat → ghost) (f : nat) : Prop := ∀ i n t d, temp (G i) ≠ Owns n t f d.

(** What a task may have made of the record it holds the lock of. *)
Definition effect (i : nat) (s c : cell) : Prop :=
  c = s ∨ ∃ j, jobs !! i = Some j ∧ ((∃ d, writes j = Some d ∧ c = Holds d) ∨ (removes j ∧ c = Absent)).

Record sound (k : Z) (w : world) (G : nat → ghost) (log : list (nat * cell * cell)) (e : cell) : Prop := {
  s_counter q c : counters w !! q = Some c → 0 ≤ c ≤ k;
  s_number i n : numbered (temp (G i)) = Some n → 0 ≤ n < default 0 (counters w !! pid_of i);
  s_distinct i j n : numbered (temp (G i)) = Some n → numbered (temp (G j)) = Some n → pid_of i = pid_of j → i = j;
  s_owns i n t f d : temp (G i) = Owns n t f d →
    temporary_of i n t ∧ names w !! t = Some f ∧ data w f = Some (Some d);
  s_spent i n t : temp (G i) = Spent n t → temporary_of i n t;
  s_record p f : plain p → names w !! p = Some f →
    unowned G f ∧ ∃ o, data w f = Some o ∧ ∀ d, o = Some d → versions p d;
  s_files i j n t n' t' f d d' : temp (G i) = Owns n t f d → temp (G j) = Owns n' t' f d' → i = j;
  s_known i f o : known (G i) !! f = Some o → unowned G f ∧ data w f = Some o;
  s_held i p s c : held (G i) = Some (p, s, c) →
    past (G i) = None ∧ (∃ j, jobs !! i = Some j ∧ p = job_path j) ∧ locks w !! lock_path p = Some i ∧
    effect i s c ∧ (slotted p → cell_at w p = c);
  s_chain : slotted p0 → chained (cell_at w0 p0) log e;
  s_start i s c : slotted p0 → held (G i) = Some (p0, s, c) → s = e;
  s_free : (∀ i s c, held (G i) ≠ Some (p0, s, c)) → slotted p0 → cell_at w p0 = e;
  s_past i s c : past (G i) = Some (p0, s, c) → (i, s, c) ∈ log;
  s_log i s c : (i, s, c) ∈ log → past (G i) ≠ None ∧ effect i s c;
  s_once : NoDup log.*1.*1;
}.

(** The state of one task changes. *)
Definition upd (i : nat) (g : ghost) (G : nat → ghost) : nat → ghost := λ k, if decide (k = i) then g else G k.

Lemma upd_same i g G : upd i g G i = g.
Proof. unfold upd. by rewrite decide_True. Qed.

Lemma upd_other i g G k : k ≠ i → upd i g G k = G k.
Proof. intros. unfold upd. by rewrite decide_False. Qed.

Lemma cell_data w p :
  cell_at w p = match names w !! p with
                | None => Absent
                | Some f => match data w f with Some (Some d) => Holds d | _ => Odd end
                end.
Proof.
  unfold cell_at, data. destruct (names w !! p); [|done]. destruct (nodes w !! n) as [[[] ? ? ?]|]; done.
Qed.

Lemma cell_same w w' p :
  names w' !! p = names w !! p → (∀ f, names w !! p = Some f → data w' f = data w f) → cell_at w' p = cell_at w p.
Proof. intros Hn Hd. rewrite !cell_data, Hn. destruct (names w !! p) as [f|]; [|done]. by rewrite Hd. Qed.

(** Nothing the invariant speaks of changes. *)
Lemma sound_quiet k k' w w' G log e :
  sound k w G log e → k ≤ k' →
  names w' = names w → locks w' = locks w → counters w' = counters w → (∀ f, data w' f = data w f) →
  sound k' w' G log e.
Proof.
  intros [] Hk Hn Hl Hc Hd.
  assert (∀ p, cell_at w' p = cell_at w p) as Hcell by (intros; apply cell_same; [by rewrite Hn|done]).
  split; rewrite ?Hn, ?Hl, ?Hc; try done.
  - intros q c Hq%s_counter0. lia.
  - intros i n t f d ?. rewrite Hd. eauto.
  - intros p f ??. rewrite Hd. eauto.
  - intros i f o ?. rewrite Hd. eauto.
  - intros i p s c ?. rewrite Hcell. eauto.
  - rewrite Hcell. eauto.
Qed.

(** Case analysis on the task whose state changed. *)
Ltac by_task := unfold upd, unowned in *; repeat case_decide; simplify_eq/=.

Lemma upd_held i x G k : held (upd i (set_temp x (G i)) G k) = held (G k).
Proof. by_task; done. Qed.
Lemma upd_past i x G k : past (upd i (set_temp x (G i)) G k) = past (G k).
Proof. by_task; done. Qed.
Lemma upd_known i x G k : known (upd i (set_temp x (G i)) G k) = known (G k).
Proof. by_task; done. Qed.

(** The temporary of one task changes, and with it files no record names and no
    task has open. *)
Lemma sound_temp k w w' G i x log e :
  sound k w G log e → locks w' = locks w →
  (∀ q c, counters w' !! q = Some c → 0 ≤ c ≤ k) →
  (∀ q, default 0 (counters w !! q) ≤ default 0 (counters w' !! q)) →
  (∀ n, numbered x = Some n → 0 ≤ n < default 0 (counters w' !! pid_of i) ∧
     ∀ j, j ≠ i → numbered (temp (G j)) = Some n → pid_of i ≠ pid_of j) →
  (∀ n t f d, x = Owns n t f d → temporary_of i n t ∧ names w' !! t = Some f ∧ data w' f = Some (Some d) ∧
     (∀ j n' t' d', j ≠ i → temp (G j) ≠ Owns n' t' f d') ∧
     (∀ p, plain p → names w !! p ≠ Some f) ∧ (∀ j o, known (G j) !! f ≠ Some o)) →
  (∀ n t, x = Spent n t → temporary_of i n t) →
  (∀ j n t f d, j ≠ i → temp (G j) = Owns n t f d → names w' !! t = names w !! t ∧ data w' f = data w f) →
  (∀ p, plain p → names w' !! p = names w !! p) →
  (∀ p f, plain p → names w !! p = Some f → data w' f = data w f) →
  (∀ j f o, known (G j) !! f = Some o → data w' f = data w f) →
  (∀ j, j ∈ jobs → plain (job_path j)) → plain p0 →
  sound k w' (upd i (set_temp x (G i)) G) log e.
Proof.
  intros [] Hl Hc Hcm Hnum Howns Hspent Hother Hplain Hpd Hkd Hjobs Hp0.
  assert (∀ p, plain p → cell_at w' p = cell_at w p) as Hcell.
  { intros p Hp. apply cell_same; [by apply Hplain|]. eauto. }
  split; rewrite ?Hl; try done.
  - intros j n. by_task; [by apply Hnum|]. intros Hj%s_number0. specialize (Hcm (pid_of j)). lia.
  - intros a b n. by_task; intros Ha Hb Hpid; [done| | |by eapply (s_distinct0 a b n)].
    + exfalso. by eapply Hnum.
    + exfalso. eapply (proj2 (Hnum n Hb)); eauto.
  - intros j n t f d. by_task; [naive_solver|]. intros Hj. destruct (Hother _ _ _ _ _ ltac:(done) Hj) as [-> ->]. eauto.
  - intros j n t. by_task; [naive_solver|]. eauto.
  - intros p f Hp Hf. rewrite Hplain in Hf by done. destruct (s_record0 p f Hp Hf) as [Hu Ho]. split.
    + intros j n t d. by_task; [|eauto]. intros ->. destruct (Howns _ _ _ _ eq_refl) as (_ & _ & _ & _ & Hx & _). by apply (Hx p).
    + erewrite Hpd by done. done.
  - intros a b n t n' t' f d d'. by_task; [done| | |eauto].
    + intros -> Hb. destruct (Howns _ _ _ _ eq_refl) as (_ & _ & _ & Hx & _). by apply Hx in Hb.
    + intros Ha ->. destruct (Howns _ _ _ _ eq_refl) as (_ & _ & _ & Hx & _). by apply Hx in Ha.
  - intros j f o. rewrite upd_known. intros Hk. destruct (s_known0 j f o Hk) as [Hu Hd]. split; [|by erewrite Hkd].
    intros m n t d. by_task; [|eauto]. intros ->. destruct (Howns _ _ _ _ eq_refl) as (_ & _ & _ & _ & _ & Hx). by apply Hx in Hk.
  - intros j p s c. rewrite upd_held, upd_past. intros Hh.
    destruct (s_held0 j p s c Hh) as (Hp & (jb & Hj & ->) & Hlk & He & Hc'). split_and!; eauto.
    intros Hs. rewrite Hcell; [eauto|]. by eapply Hjobs, list_elem_of_lookup_2.
  - intros j s c. rewrite upd_held. eauto.
  - intros Hfree. rewrite Hcell by done. apply s_free0. intros j s c. rewrite <- (upd_held i x G j). apply Hfree.
  - intros j s c. rewrite upd_past. eauto.
  - intros j s c. rewrite upd_past. eauto.
Qed.

Hypothesis jobs_plain : ∀ j, j ∈ jobs → plain (job_path j).
Hypothesis p0_plain : plain p0.
Hypothesis pids : ∀ i, 0 ≤ pid_of i.

Lemma job_plain i j : jobs !! i = Some j → plain (job_path j).
Proof. intros Hj. by eapply jobs_plain, list_elem_of_lookup_2. Qed.

Lemma temporary_not_plain i n t p : temporary_of i n t → plain p → t ≠ p.
Proof. intros (dir & f & ->) Hp E. by eapply plain_not_temporary. Qed.

Lemma temporary_unique i j n m t :
  0 ≤ n → 0 ≤ m → temporary_of i n t → temporary_of j m t → pid_of i = pid_of j ∧ n = m.
Proof.
  intros Hn Hm (dir & f & ->) (dir' & f' & E). apply (f_equal last) in E. rewrite !last_snoc in E.
  assert (temporary_name f (pid_of i) n = temporary_name f' (pid_of j) m) as E' by congruence.
  by apply temporary_name_inj in E'.
Qed.

(** Two tasks have different temporaries. *)
Lemma temporaries_differ k w G log e i j n m t t' :
  sound k w G log e → i ≠ j → numbered (temp (G i)) = Some n → numbered (temp (G j)) = Some m →
  temporary_of i n t → temporary_of j m t' → t ≠ t'.
Proof.
  intros Hs Hij Hi Hj Ht Ht' <-. pose proof (s_number _ _ _ _ _ Hs _ _ Hi). pose proof (s_number _ _ _ _ _ Hs _ _ Hj).
  destruct (temporary_unique i j n m t) as [Hp ->]; [lia..|done|done|].
  by apply Hij, (s_distinct _ _ _ _ _ Hs i j m).
Qed.

Lemma sound_fetch_add k w G i log e n w' :
  sound k w G log e → 0 ≤ k < u64_max → temp (G i) = Idle →
  n = default 0 (counters w !! pid_of i) → w' = set_counters (<[pid_of i := wrap64 (n + 1)]> (counters w)) w →
  0 ≤ n ∧ sound (k + 1) w' (upd i (set_temp (Reserved n) (G i)) G) log e.
Proof.
  intros Hs Hk Ht -> ->. set (n := default 0 (counters w !! pid_of i)).
  assert (0 ≤ n ≤ k) as Hn.
  { unfold n. destruct (counters w !! pid_of i) eqn:E; simpl; [|lia].
    apply (s_counter _ _ _ _ _ Hs) in E. lia. }
  assert (sound (k + 1) w G log e) as Hs' by (eapply sound_quiet; [exact Hs|lia|done..]).
  split; [lia|]. apply (sound_temp (k + 1) w); try done.
  - intros q c. simpl. rewrite lookup_insert. case_decide; [|by apply (s_counter _ _ _ _ _ Hs')].
    intros [= <-]. rewrite wrap64_small; unfold is_u64; lia.
  - intros q. simpl. rewrite lookup_insert. case_decide; [subst q|done]. fold n. simpl.
    rewrite wrap64_small; unfold is_u64; lia.
  - intros m [= <-]. simpl. rewrite lookup_insert_eq. simpl. rewrite wrap64_small by (unfold is_u64; lia).
    split; [lia|]. intros j _ Hj%(s_number _ _ _ _ _ Hs) Hpid. rewrite <- Hpid in Hj. fold n in Hj. lia.
Qed.

Lemma fresh_data w : data w (fresh (dom (nodes w))) = None.
Proof. unfold data. by rewrite (not_elem_of_dom_1 _ _ (is_fresh (dom (nodes w)))). Qed.

Lemma data_insert w f nd g :
  data (set_nodes (<[f := nd]> (nodes w)) w) g = if decide (f = g) then Some (data_of nd) else data w g.
Proof. unfold data. simpl. rewrite lookup_insert. by case_decide. Qed.

(** A new file changes no other. *)
Lemma data_create p c m w f o :
  data w f = Some o → data (create user numbering p c m w).2 f = Some o.
Proof.
  unfold data, create. simpl. rewrite lookup_insert. case_decide as Hf; [|done].
  intros Ho. pose proof (fresh_data w) as Hn. unfold data in Hn. by rewrite Hf, Ho in Hn.
Qed.

Lemma sound_create k w G i log e n t m f w' :
  sound k w G log e → temp (G i) = Reserved n → temporary_of i n t → names w !! t = None →
  create user numbering t (Regular []) m w = (f, w') →
  sound k w' (upd i (set_temp (Owns n t f []) (G i)) G) log e.
Proof.
  intros Hs Ht Htn Hnone Hc. assert (∀ g o, data w g = Some o → data w' g = Some o) as Hold.
  { intros g o Hg. pose proof (data_create t (Regular []) m w g o Hg) as H. by rewrite Hc in H. }
  assert (data w f = None) as Hf by (unfold create in Hc; simplify_eq; apply fresh_data).
  assert (names w' = <[t := f]> (names w)) as Hnames by (unfold create in Hc; by simplify_eq).
  apply (sound_temp k w); try done.
  - unfold create in Hc. by simplify_eq.
  - intros q c. unfold create in Hc. simplify_eq/=. apply (s_counter _ _ _ _ _ Hs).
  - intros q. unfold create in Hc. by simplify_eq/=.
  - intros n' [= <-]. split.
    + assert (counters w' = counters w) as -> by (unfold create in Hc; by simplify_eq).
      apply (s_number _ _ _ _ _ Hs i). by rewrite Ht.
    + intros j Hj Hn Hp. apply Hj. symmetry. eapply (s_distinct _ _ _ _ _ Hs i j n); [by rewrite Ht|done..].
  - intros n' t' f' d [= <- <- <- <-]. rewrite Hnames, lookup_insert_eq. split_and!; try done.
    + unfold create in Hc. simplify_eq. unfold data. simpl. by rewrite lookup_insert_eq.
    + intros j n' t' d' _ Hj. apply (s_owns _ _ _ _ _ Hs) in Hj as (_ & _ & Hd). congruence.
    + intros p Hp Hpf. apply (s_record _ _ _ _ _ Hs) in Hpf as (_ & o & Ho & _); [congruence|done].
    + intros j o Hj. apply (s_known _ _ _ _ _ Hs) in Hj as [_ Hd]. congruence.
  - intros j n' t' f' d Hj Hown. apply (s_owns _ _ _ _ _ Hs) in Hown as (_ & Hn & Hd). split.
    + rewrite Hnames, lookup_insert_ne; [done|congruence].
    + rewrite Hd. by apply Hold.
  - intros p Hp. rewrite Hnames, lookup_insert_ne; [done|]. by eapply temporary_not_plain.
  - intros p g Hp Hg. apply (s_record _ _ _ _ _ Hs) in Hg as (_ & o & Ho & _); [|done]. rewrite Ho. by apply Hold.
  - intros j g o Hg. apply (s_known _ _ _ _ _ Hs) in Hg as [_ Ho]. rewrite Ho. by apply Hold.
Qed.

(** A task goes back to having no temporary, or to having done with it. *)
Lemma sound_forget k w G i x log e :
  sound k w G log e → (x = Idle ∨ ∃ n t, x = Spent n t ∧ temp (G i) = Spent n t) →
  sound k w (upd i (set_temp x (G i)) G) log e.
Proof.
  intros Hs Hx. apply (sound_temp k w); try done.
  - apply (s_counter _ _ _ _ _ Hs).
  - destruct Hx as [->|(n & t & -> & Ht)]; [done|]. intros m [= <-].
    split; [apply (s_number _ _ _ _ _ Hs); by rewrite Ht|].
    intros j Hj Hn Hp. apply Hj. symmetry. eapply (s_distinct _ _ _ _ _ Hs i j n); [by rewrite Ht|done..].
  - destruct Hx as [->|(n & t & -> & Ht)]; done.
  - destruct Hx as [->|(n & t & -> & Ht)]; [done|]. intros ?? [= <- <-]. by apply (s_spent _ _ _ _ _ Hs).
Qed.

(** The owner of a file adds to it. *)
Lemma sound_write k w G i log e n t f d d' nd :
  sound k w G log e → temp (G i) = Owns n t f d → data_of nd = Some d' →
  sound k (set_nodes (<[f := nd]> (nodes w)) w) (upd i (set_temp (Owns n t f d') (G i)) G) log e.
Proof.
  intros Hs Ht Hnd. pose proof (s_owns _ _ _ _ _ Hs _ _ _ _ _ Ht) as (Htn & Hn & Hd).
  apply (sound_temp k w); try done.
  - apply (s_counter _ _ _ _ _ Hs).
  - intros m [= <-]. split; [apply (s_number _ _ _ _ _ Hs); by rewrite Ht|].
    intros j Hj Hm Hp. apply Hj. symmetry. eapply (s_distinct _ _ _ _ _ Hs i j n); [by rewrite Ht|done..].
  - intros ? ? ? ? [= <- <- <- <-]. rewrite data_insert, decide_True by done. split_and!; try done.
    + by rewrite Hnd.
    + intros j n' t' d'' Hj Hown. apply Hj. symmetry. by eapply (s_files _ _ _ _ _ Hs i j).
    + intros p Hp Hpf. apply (s_record _ _ _ _ _ Hs) in Hpf as [Hu _]; [|done]. by eapply Hu.
    + intros j o Hj. apply (s_known _ _ _ _ _ Hs) in Hj as [Hu _]. by eapply Hu.
  - intros j n' t' f' d'' Hj Hown. split; [done|]. rewrite data_insert, decide_False; [done|]. intros <-.
    apply Hj. symmetry. by eapply (s_files _ _ _ _ _ Hs i j).
  - intros p g Hp Hg. apply (s_record _ _ _ _ _ Hs) in Hg as [Hu _]; [|done].
    rewrite data_insert, decide_False; [done|]. intros <-. by eapply Hu.
  - intros j g o Hg. apply (s_known _ _ _ _ _ Hs) in Hg as [Hu _].
    rewrite data_insert, decide_False; [done|]. intros <-. by eapply Hu.
Qed.

(** The name of a temporary goes. *)
Lemma sound_unlink_temporary k w G i log e n t :
  sound k w G log e → numbered (temp (G i)) = Some n → temporary_of i n t →
  sound k (set_names (delete t (names w)) w) (upd i (set_temp Idle (G i)) G) log e.
Proof.
  intros Hs Hi Ht. apply (sound_temp k w); try done.
  - apply (s_counter _ _ _ _ _ Hs).
  - intros j m t' f d Hj Hown. split; [|done]. simpl. apply lookup_delete_ne.
    pose proof (s_owns _ _ _ _ _ Hs _ _ _ _ _ Hown) as (Htn & _).
    eapply (temporaries_differ k w G log e i j n m); try done. by rewrite Hown.
  - intros p Hp. simpl. apply lookup_delete_ne. by eapply temporary_not_plain.
Qed.

Lemma lock_path_inj p q : plain p → plain q → lock_path p = lock_path q → p = q.
Proof. intros Hp Hq. apply push_name_inj; by apply plain_nonempty. Qed.

(** The record of a task's job changes. *)
Lemma sound_record k w G i j log e x nm c :
  sound k w G log e → jobs !! i = Some j → (slotted (job_path j) → holds_lock j (G i)) →
  let w' := set_names nm w in
  c = cell_at w' (job_path j) →
  (∃ d, writes j = Some d ∧ c = Holds d) ∨ (removes j ∧ c = Absent) →
  numbered x = numbered (temp (G i)) →
  (∀ n t f d, x = Owns n t f d → temp (G i) = x) → (∀ n t, x = Spent n t → temporary_of i n t) →
  (∀ q, plain q → q ≠ job_path j → nm !! q = names w !! q) →
  (∀ i' n t f d, temp (upd i (set_temp x (G i)) G i') = Owns n t f d → nm !! t = Some f) →
  (∀ f, nm !! job_path j = Some f →
     unowned (upd i (set_temp x (G i)) G) f ∧ ∃ o, data w f = Some o ∧ ∀ d, o = Some d → versions (job_path j) d) →
  sound k w' (upd i (set_temp x (hold (change c (held (G i))) (G i))) G) log e.
Proof.
  intros Hs Hj Hlock w' Hc Heff Hx Hxo Hxs Hplain Htemps Hrec.
  set (G' := upd i (set_temp x (hold (change c (held (G i))) (G i))) G).
  assert (∀ q, temp (G' q) = temp (upd i (set_temp x (G i)) G q)) as Htemp by (intros q; unfold G'; by_task; done).
  assert (∀ q, numbered (temp (G' q)) = numbered (temp (G q))) as Hnum by (intros q; unfold G'; by_task; done).
  assert (∀ q, known (G' q) = known (G q)) as Hknown by (intros q; unfold G'; by_task; done).
  assert (∀ q, past (G' q) = past (G q)) as Hpast by (intros q; unfold G'; by_task; done).
  assert (∀ q n t f d, temp (G' q) = Owns n t f d → temp (G q) = Owns n t f d) as Hown.
  { intros q n t f d. rewrite Htemp. by_task; [|done]. intros ->. by erewrite Hxo. }
  assert (∀ q, plain q → q ≠ job_path j → cell_at w' q = cell_at w q) as Hcell.
  { intros q Hq Hne. apply cell_same; [by apply Hplain|done]. }
  destruct Hs. split; try done.
  - intros q n. rewrite Hnum. apply s_number0.
  - intros a b n. rewrite !Hnum. apply s_distinct0.
  - intros q n t f d Hq. pose proof (Hown _ _ _ _ _ Hq) as Hq'. rewrite Htemp in Hq.
    destruct (s_owns0 _ _ _ _ _ Hq') as (Ht & _ & Hd). split_and!; [done| |done]. by eapply Htemps.
  - intros q n t. rewrite Htemp. by_task; [naive_solver|]. eauto.
  - intros p f Hp Hf. destruct (decide (p = job_path j)) as [->|Hne].
    + destruct (Hrec f Hf) as [Hu Ho]. split; [|done]. intros q n t d. rewrite Htemp. apply Hu.
    + simpl in Hf. rewrite Hplain in Hf by done. destruct (s_record0 p f Hp Hf) as [Hu Ho]. split; [|done].
      intros q n t d Hq%Hown. by eapply Hu.
  - intros a b n t n' t' f d d' Ha%Hown Hb%Hown. eauto.
  - intros q f o. rewrite Hknown. intros Hq. destruct (s_known0 q f o Hq) as [Hu Ho]. split; [|done].
    intros a n t d Ha%Hown. by eapply Hu.
  - intros q p s c' Hq. rewrite Hpast. unfold G' in Hq. destruct (decide (q = i)) as [->|Hne].
    + rewrite upd_same in Hq. simpl in Hq. destruct (held (G i)) as [[[p1 s1] c1]|] eqn:Eh; [|done]. simpl in Hq. simplify_eq.
      destruct (s_held0 i p s c1 Eh) as (Hp & (j' & Hj' & ->) & Hlk & _ & _). rewrite Hj in Hj'. simplify_eq.
      split_and!; eauto. right. exists j'. naive_solver.
    + rewrite upd_other in Hq by done. destruct (s_held0 q p s c' Hq) as (Hp & (j' & Hj' & ->) & Hlk & He & Hc').
      split_and!; eauto. intros Hsl. rewrite Hcell; [eauto|by eapply job_plain|].
      intros E. rewrite E in Hsl, Hlk. destruct (Hlock Hsl) as (s1 & c1 & Eh).
      destruct (s_held0 i _ s1 c1 Eh) as (_ & _ & Hlk' & _). by simplify_eq.
  - intros q s c' Hsl Hq. unfold G' in Hq. destruct (decide (q = i)) as [->|Hne].
    + rewrite upd_same in Hq. simpl in Hq. destruct (held (G i)) as [[[p1 s1] c1]|] eqn:Eh; [|done]. simpl in Hq. simplify_eq.
      by eapply s_start0.
    + rewrite upd_other in Hq by done. by eapply s_start0.
  - intros Hfree Hsl. rewrite Hcell; [apply s_free0|done|].
    + intros q s c'. specialize (Hfree q). unfold G' in Hfree. destruct (decide (q = i)) as [->|Hne].
      * rewrite upd_same in Hfree. simpl in Hfree. intros E. rewrite E in Hfree. by eapply Hfree.
      * rewrite upd_other in Hfree by done. apply Hfree.
    + done.
    + intros E. rewrite E in Hsl, Hfree. destruct (Hlock Hsl) as (s1 & c1 & Eh). apply (Hfree i s1 c).
      unfold G'. rewrite upd_same. simpl. by rewrite Eh.
  - intros q s c'. rewrite Hpast. eauto.
  - intros q s c'. rewrite Hpast. eauto.
Qed.

(** A task learns what a settled file holds. *)
Lemma sound_learn k w G i log e f o :
  sound k w G log e → unowned G f → data w f = Some o → sound k w (upd i (learn f o (G i)) G) log e.
Proof.
  intros [] Hu Ho. set (G' := upd i (learn f o (G i)) G).
  assert (∀ q, temp (G' q) = temp (G q)) as Htemp by (intros q; unfold G'; by_task; done).
  assert (∀ q, held (G' q) = held (G q)) as Hheld by (intros q; unfold G'; by_task; done).
  assert (∀ q, past (G' q) = past (G q)) as Hpast by (intros q; unfold G'; by_task; done).
  assert (∀ g, unowned G' g ↔ unowned G g) as Hun.
  { intros g. unfold unowned. split; intros H q n t d; specialize (H q n t d); by rewrite Htemp in *. }
  split; try done.
  - intros q n. rewrite Htemp. eauto.
  - intros a b n. rewrite !Htemp. eauto.
  - intros q n t g d. rewrite Htemp. eauto.
  - intros q n t. rewrite Htemp. eauto.
  - intros p g. rewrite Hun. eauto.
  - intros a b n t n' t' g d d'. rewrite !Htemp. eauto.
  - intros q g o' Hq. rewrite Hun. unfold G' in Hq. destruct (decide (q = i)) as [->|]; [|rewrite upd_other in Hq; eauto].
    rewrite upd_same in Hq. simpl in Hq. rewrite lookup_insert in Hq. case_decide; simplify_eq; eauto.
  - intros q p s c. rewrite Hheld, Hpast. eauto.
  - intros q s c. rewrite Hheld. eauto.
  - intros Hfree. apply s_free0. intros q s c. rewrite <- Hheld. apply Hfree.
  - intros q s c. rewrite Hpast. eauto.
  - intros q s c. rewrite Hpast. eauto.
Qed.

(** Opening a lock file that does not exist creates it. *)
Lemma sound_lock_file k w G log e p c m :
  sound k w G log e → plain p → names w !! lock_path p = None →
  sound k (create user numbering (lock_path p) c m w).2 G log e.
Proof.
  intros Hs Hp Hnone. set (w' := (create user numbering (lock_path p) c m w).2).
  assert (∀ q f, plain q → names w !! q = Some f → data w' f = data w f) as Hrec.
  { intros q f Hq Hf. apply (s_record _ _ _ _ _ Hs) in Hf as (_ & o & Ho & _); [|done]. rewrite Ho. by apply data_create. }
  assert (∀ q, plain q → names w' !! q = names w !! q) as Hplain.
  { intros q Hq. simpl. apply lookup_insert_ne. intros E. eapply plain_not_lock; [exact Hq| |by symmetry].
    by apply plain_nonempty. }
  assert (∀ q, plain q → cell_at w' q = cell_at w q) as Hcell by (intros; apply cell_same; eauto).
  destruct Hs. split; try done.
  - intros i n t f d Hi. destruct (s_owns0 _ _ _ _ _ Hi) as (Ht & Hn & Hd). split_and!; [done| |].
    + simpl. rewrite lookup_insert_ne; [done|]. destruct Ht as (dir & g & ->). intros E.
      eapply temporary_not_lock; [|by symmetry]. by apply plain_nonempty.
    + by apply data_create.
  - intros q f Hq Hf. rewrite Hplain in Hf by done. destruct (s_record0 q f Hq Hf) as (Hu & o & Ho & Hv).
    split; [done|]. exists o. split; [by apply data_create|done].
  - intros i f o Hi. destruct (s_known0 i f o Hi) as [Hu Ho]. split; [done|]. by apply data_create.
  - intros i q s c' Hi. destruct (s_held0 i q s c' Hi) as (Hq & (j & Hj & ->) & Hl & He & Hc). split_and!; eauto.
    rewrite Hcell; [done|]. by eapply job_plain.
  - rewrite Hcell by done. eauto.
Qed.

Lemma sound_lock k w G i j log e :
  sound k w G log e → jobs !! i = Some j → held (G i) = None → past (G i) = None →
  locks w !! lock_path (job_path j) = None →
  sound k (set_locks (<[lock_path (job_path j) := i]> (locks w)) w)
    (upd i (hold (Some (job_path j, cell_at w (job_path j), cell_at w (job_path j))) (G i)) G) log e.
Proof.
  intros Hs Hj Hh Hp Hl. set (c := cell_at w (job_path j)). set (G' := upd i (hold (Some (job_path j, c, c)) (G i)) G).
  assert (plain (job_path j)) as Hpl by by eapply job_plain.
  assert (∀ q, temp (G' q) = temp (G q)) as Htemp by (intros q; unfold G'; by_task; done).
  assert (∀ q, known (G' q) = known (G q)) as Hknown by (intros q; unfold G'; by_task; done).
  assert (∀ q, past (G' q) = past (G q)) as Hpast by (intros q; unfold G'; by_task; done).
  assert (∀ g, unowned G' g ↔ unowned G g) as Hun.
  { intros g. unfold unowned. split; intros H q n t d; specialize (H q n t d); by rewrite Htemp in *. }
  assert (∀ q s1 c1, held (G q) ≠ Some (job_path j, s1, c1)) as Hnobody.
  { intros q s1 c1 Hq. apply (s_held _ _ _ _ _ Hs) in Hq as (_ & _ & Hq & _). by rewrite Hl in Hq. }
  destruct Hs. split; try done.
  - intros q n. rewrite Htemp. eauto.
  - intros a b n. rewrite !Htemp. eauto.
  - intros q n t g d. rewrite Htemp. eauto.
  - intros q n t. rewrite Htemp. eauto.
  - intros p g. rewrite Hun. eauto.
  - intros a b n t n' t' g d d'. rewrite !Htemp. eauto.
  - intros q g o. rewrite Hun, Hknown. eauto.
  - intros q p s1 c1 Hq. rewrite Hpast. simpl. unfold G' in Hq. destruct (decide (q = i)) as [->|Hne].
    + rewrite upd_same in Hq. simpl in Hq. simplify_eq. rewrite lookup_insert_eq. split_and!; eauto. by left.
    + rewrite upd_other in Hq by done. destruct (s_held0 q p s1 c1 Hq) as (Hq1 & (j' & Hj' & ->) & Hlk & He & Hc').
      split_and!; eauto. rewrite lookup_insert_ne; [done|]. intros E. by rewrite <- E, Hl in Hlk.
  - intros q s1 c1 Hsl Hq. unfold G' in Hq. destruct (decide (q = i)) as [->|Hne].
    + rewrite upd_same in Hq. simpl in Hq. injection Hq as Hq1 <- <-. unfold c. rewrite Hq1. apply s_free0; [|done].
      intros r s1 c1. rewrite <- Hq1. apply Hnobody.
    + rewrite upd_other in Hq by done. eauto.
  - intros Hfree Hsl. apply s_free0; [|done]. intros q s1 c1 Hq. destruct (decide (q = i)) as [->|Hne]; [congruence|].
    apply (Hfree q s1 c1). unfold G'. by rewrite upd_other.
  - intros q s1 c1. rewrite Hpast. eauto.
  - intros q s1 c1. rewrite Hpast. eauto.
Qed.

(** A task gives its lock back, or its process goes: what it did is recorded. *)
Definition dismissed (x : phase) (kn : gmap nat (option bytes)) (g : ghost) : ghost :=
  Ghost x kn None (match held g with Some h => Some h | None => past g end).

Lemma sound_dismiss k w w' G i log e x kn :
  sound k w G log e →
  names w' = names w → counters w' = counters w → (∀ f, data w' f = data w f) →
  (∀ p q, q ≠ i → locks w !! p = Some q → locks w' !! p = Some q) →
  x = Idle ∨ x = temp (G i) → kn = ∅ ∨ kn = known (G i) →
  ∃ log' e', sound k w' (upd i (dismissed x kn (G i)) G) log' e' ∧ log `prefix_of` log'.
Proof.
  intros Hs Hn Hcnt Hd Hlk Hx Hkn. set (G' := upd i (dismissed x kn (G i)) G).
  assert (∀ q, temp (G' q) = Idle ∨ temp (G' q) = temp (G q)) as Htemp.
  { intros q. unfold G'. destruct (decide (q = i)) as [->|]; [rewrite upd_same; simpl; naive_solver|].
    rewrite upd_other by done. by right. }
  assert (∀ q n, numbered (temp (G' q)) = Some n → numbered (temp (G q)) = Some n) as Hnum.
  { intros q n. destruct (Htemp q) as [->| ->]; done. }
  assert (∀ q n t f d, temp (G' q) = Owns n t f d → temp (G q) = Owns n t f d) as Hown.
  { intros q n t f d. destruct (Htemp q) as [->| ->]; done. }
  assert (∀ g, unowned G g → unowned G' g) as Hun by (intros g H q n t d Hq%Hown; by eapply H).
  assert (∀ q f o, known (G' q) !! f = Some o → known (G q) !! f = Some o) as Hknown.
  { intros q f o. unfold G'. by_task; [|done]. destruct Hkn as [->| ->]; done. }
  assert (∀ q p s c, held (G' q) = Some (p, s, c) → q ≠ i ∧ held (G q) = Some (p, s, c)) as Hheld.
  { intros q p s c. unfold G'. by_task; done. }
  assert (∀ p, cell_at w' p = cell_at w p) as Hcell by (intros; apply cell_same; [by rewrite Hn|done]).
  assert (∀ log' e', (slotted p0 → chained (cell_at w0 p0) log' e') →
    (∀ q s c, slotted p0 → held (G' q) = Some (p0, s, c) → s = e') →
    ((∀ q s c, held (G' q) ≠ Some (p0, s, c)) → slotted p0 → cell_at w' p0 = e') →
    (∀ q s c, past (G' q) = Some (p0, s, c) → (q, s, c) ∈ log') →
    (∀ q s c, (q, s, c) ∈ log' → past (G' q) ≠ None ∧ effect q s c) → NoDup log'.*1.*1 →
    sound k w' G' log' e') as Hmk.
  { intros log' e' H1 H2 H3 H4 H5 H6. destruct Hs. split; rewrite ?Hn, ?Hcnt; try done.
    - intros q n Hq%Hnum. eauto.
    - intros a b n Ha%Hnum Hb%Hnum. eauto.
    - intros q n t f d Hq%Hown. rewrite Hd. eauto.
    - intros q n t. destruct (Htemp q) as [->| ->]; [done|]. eauto.
    - intros p f Hp Hf. destruct (s_record0 p f Hp Hf) as [Hu Ho]. rewrite Hd. eauto.
    - intros a b n t n' t' f d d' Ha%Hown Hb%Hown. eauto.
    - intros q f o Hq%Hknown. rewrite Hd. destruct (s_known0 _ _ _ Hq). eauto.
    - intros q p s c Hq. destruct (Hheld q p s c Hq) as [Hne Hq'].
      destruct (s_held0 q p s c Hq') as (Hp & Hj & Hl & He & Hc). rewrite Hcell. split_and!; try done.
      + unfold G'. by rewrite upd_other.
      + by apply Hlk. }
  assert (∀ q, q ≠ i → past (G' q) = past (G q) ∧ held (G' q) = held (G q)) as Hrest.
  { intros q Hq. unfold G'. by rewrite upd_other. }
  assert (past (G' i) = match held (G i) with Some h => Some h | None => past (G i) end ∧ held (G' i) = None) as [Hpi Hhi].
  { unfold G'. by rewrite upd_same. }
  assert (∀ q, past (G q) ≠ None → past (G' q) ≠ None) as Hpast.
  { intros q Hq. destruct (decide (q = i)) as [->|Hne]; [|by rewrite (proj1 (Hrest q Hne))].
    rewrite Hpi. by destruct (held (G i)). }
  destruct (held (G i)) as [[[p s] c]|] eqn:Hi; [destruct (decide (p = p0)) as [->|Hp]|].
  - exists (log ++ [(i, s, c)]), c. split; [|by apply prefix_app_r]. destruct Hs.
    destruct (s_held0 _ _ _ _ Hi) as (Hpn & _ & Hl & He & Hc). apply Hmk.
    + intros Hsl. apply chained_snoc. rewrite (s_start0 i s c Hsl Hi). by apply s_chain0.
    + intros q s' c' Hsl [Hne Hq]%Hheld. exfalso. apply s_held0 in Hq as (_ & _ & Hl' & _). congruence.
    + intros _ Hsl. rewrite Hcell. by apply Hc.
    + intros q s' c' Hq. apply elem_of_app. destruct (decide (q = i)) as [->|Hne].
      * rewrite Hpi in Hq. simplify_eq. right. by apply list_elem_of_singleton.
      * left. rewrite (proj1 (Hrest q Hne)) in Hq. eauto.
    + intros q s' c' [Hq|Hq%list_elem_of_singleton]%elem_of_app.
      * destruct (s_log0 q s' c' Hq). eauto.
      * simplify_eq. rewrite Hpi. done.
    + rewrite !fmap_app. apply NoDup_app. split_and!; [done| |simpl; apply NoDup_singleton].
      intros q Hq Hq'%list_elem_of_singleton. simpl in Hq'. subst q.
      apply list_elem_of_fmap in Hq as ([q' s'] & -> & Hq). apply list_elem_of_fmap in Hq as ([[q s1] c1] & [= -> ->] & Hq).
      by apply s_log0 in Hq as [? _].
  - exists log, e. split; [|done]. destruct Hs. apply Hmk; try done.
    + intros q s' c' Hsl [_ Hq]%Hheld. eauto.
    + intros Hfree Hsl. rewrite Hcell. apply s_free0; [|done]. intros q s' c' Hq.
      destruct (decide (q = i)) as [->|Hne]; [congruence|]. apply (Hfree q s' c'). by rewrite (proj2 (Hrest q Hne)).
    + intros q s' c' Hq. destruct (decide (q = i)) as [->|Hne]; [rewrite Hpi in Hq; congruence|].
      rewrite (proj1 (Hrest q Hne)) in Hq. eauto.
    + intros q s' c' Hq. destruct (s_log0 q s' c' Hq). eauto.
  - exists log, e. split; [|done]. destruct Hs. apply Hmk; try done.
    + intros q s' c' Hsl [_ Hq]%Hheld. eauto.
    + intros Hfree Hsl. rewrite Hcell. apply s_free0; [|done]. intros q s' c' Hq.
      destruct (decide (q = i)) as [->|Hne]; [congruence|]. apply (Hfree q s' c'). by rewrite (proj2 (Hrest q Hne)).
    + intros q s' c' Hq. destruct (decide (q = i)) as [->|Hne]; [rewrite Hpi in Hq; eauto|].
      rewrite (proj1 (Hrest q Hne)) in Hq. eauto.
    + intros q s' c' Hq. destruct (s_log0 q s' c' Hq). eauto.
Qed.

(** ** Every call keeps the invariant *)

Lemma sound_same k w G i log e : sound k w G log e → sound (k + 1) w (upd i (G i) G) log e.
Proof.
  intros Hs. assert (∀ q, upd i (G i) G q = G q) as Hq by (intros q; by_task; done).
  assert (∀ f, unowned (upd i (G i) G) f ↔ unowned G f) as Hu.
  { intros f. unfold unowned. by setoid_rewrite Hq. }
  apply (sound_quiet k (k + 1) w w) in Hs; [|lia|done..].
  destruct Hs. split; intros *; rewrite ?Hq, ?Hu; try done; eauto.
  intros Hfree. apply s_free0. intros q s c. rewrite <- Hq. apply Hfree.
Qed.

Lemma sound_next k w G i g log e : sound k w (upd i g G) log e → sound (k + 1) w (upd i g G) log e.
Proof. intros Hs. eapply sound_quiet; [exact Hs|lia|done..]. Qed.

(** What the system answers to an open of a record. *)
Lemma open_record_sound k w G i j log e follow f r :
  sound k w G log e → jobs !! i = Some j →
  r = (match f with
       | Fails er => if decide (kind er = NotFound) then open_file follow w (job_path j) else Err er
       | Goes _ => open_file follow w (job_path j)
       end) →
  match r with
  | Ok g => (∃ o, unowned G g ∧ data w g = Some o ∧ opened versions slotted j g o (G i)) ∨
            (follow = true ∧ cell_at w (job_path j) = Odd)
  | Err er => kind er = NotFound → cell_at w (job_path j) = Absent ∨ (follow = true ∧ cell_at w (job_path j) = Odd)
  end.
Proof.
  intros Hs Hj Hr. assert (plain (job_path j)) as Hp by by eapply job_plain.
  assert (∀ r, r = open_file follow w (job_path j) → match r with
    | Ok g => (∃ o, unowned G g ∧ data w g = Some o ∧ opened versions slotted j g o (G i)) ∨
              (follow = true ∧ cell_at w (job_path j) = Odd)
    | Err er => kind er = NotFound → cell_at w (job_path j) = Absent ∨ (follow = true ∧ cell_at w (job_path j) = Odd)
    end) as Hopen.
  { clear r Hr. intros r Hr. destruct (names w !! job_path j) as [g|] eqn:Eg.
    - destruct (s_record _ _ _ _ _ Hs _ _ Hp Eg) as (Hu & o & Ho & Hv).
      assert (opened versions slotted j g o (G i)) as Hop.
      { split; [done|]. intros s c Hsl Hh. apply (s_held _ _ _ _ _ Hs) in Hh as (_ & _ & _ & _ & Hc).
        rewrite <- (Hc Hsl), cell_data, Eg, Ho. done. }
      unfold data in Ho. destruct (nodes w !! g) as [[what ? ? ?]|] eqn:En; [|done]. simpl in Ho.
      assert (match what with Symlink _ => True | _ => False end ∨ open_file follow w (job_path j) = Ok g) as [Hsym|Hok].
      { destruct what; [right..|by left|right|right]; unfold open_file; destruct follow; simpl; rewrite Eg, En; done. }
      + assert (cell_at w (job_path j) = Odd) as Hodd by (unfold cell_at; rewrite Eg, En; by destruct what).
        destruct follow; [destruct r; naive_solver|]. unfold open_file in Hr. rewrite Eg, En in Hr.
        destruct what; try done. by subst r.
      + rewrite Hok in Hr. subst r. left. exists o. split_and!; [done| |done]. unfold data. by rewrite En.
    - assert (cell_at w (job_path j) = Absent) as Ha by (unfold cell_at; by rewrite Eg).
      assert (open_file follow w (job_path j) = Err no_entry) as Hno by (unfold open_file; destruct follow; simpl; by rewrite Eg).
      rewrite Hno in Hr. subst r. by left. }
  destruct f as [er|n]; [|by apply Hopen]. destruct (decide (kind er = NotFound)); [by apply Hopen|].
  subst r. done.
Qed.

(** The outcome of a call: what the task knows afterwards, and the log. *)
Definition answered {B} (k : Z) (c : call B) (r : B) (w' : world) (G : nat → ghost) (i : nat) (j : job)
    (log : list (nat * cell * cell)) : Prop :=
  ∃ g' log' e', learns versions slotted j c (G i) r g' ∧ sound (k + 1) w' (upd i g' G) log' e' ∧ log `prefix_of` log'.

Lemma answered_same {B} k w G log e i j (c : call B) r :
  sound k w G log e → learns versions slotted j c (G i) r (G i) → answered k c r w G i j log.
Proof. intros Hs Hl. exists (G i), log, e. split_and!; [done|by apply sound_same|done]. Qed.

Lemma answered_next {B} k w G log e i j (c : call B) r g' :
  sound k w (upd i g' G) log e → learns versions slotted j c (G i) r g' → answered k c r w G i j log.
Proof. intros Hs Hl. exists g', log, e. split_and!; [done|by apply sound_next|done]. Qed.

Lemma held_cell k w G i log e p s c :
  sound k w G log e → slotted p → held (G i) = Some (p, s, c) → cell_at w p = c.
Proof. intros Hs Hsl Hh. by apply (s_held _ _ _ _ _ Hs) in Hh as (_ & _ & _ & _ & Hc); [apply Hc|..]. Qed.

Lemma open_answered k w G log e i j f follow p r :
  sound k w G log e → jobs !! i = Some j →
  exec i (pid_of i) user numbering f (Open follow p) w = (r, w) → answered k (Open follow p) r w G i j log.
Proof.
  intros Hs Hj He. simpl in He. assert (Hr := f_equal fst He). simpl in Hr. clear He. destruct (decide (p = job_path j)) as [->|Hp].
  - symmetry in Hr. pose proof (open_record_sound k w G i j log e follow f r Hs Hj Hr) as H. destruct r as [g|er].
    + destruct H as [(o & Hu & Ho & Hop)|[-> Hodd]].
      * eapply answered_next; [by apply sound_learn|]. right. by split; [|eexists].
      * eapply answered_same; [done|]. left. split; [done|]. intros _. split; [done|]. intros s c Hsl Hh.
        by rewrite <- (held_cell _ _ _ _ _ _ _ _ _ Hs Hsl Hh).
    + eapply answered_same; [done|]. split; [done|]. intros _ Hn s c Hsl Hh.
      rewrite <- (held_cell _ _ _ _ _ _ _ _ _ Hs Hsl Hh). by apply H.
  - eapply answered_same; [done|]. destruct r; simpl; [left|]; by split.
Qed.

Lemma set_temp_same g : set_temp (temp g) g = g.
Proof. by destruct g. Qed.

Lemma fchmod_answered k w w' G log e i j f x m r :
  sound k w G log e → (∃ n t d, temp (G i) = Owns n t x d) →
  exec i (pid_of i) user numbering f (Fchmod x m) w = (r, w') → answered k (Fchmod x m) r w' G i j log.
Proof.
  intros Hs (n & t & d & Ht) He. simpl in He. destruct f as [er|n']; [injection He as <- <-; by eapply answered_same|].
  unfold update in He. pose proof (s_owns _ _ _ _ _ Hs _ _ _ _ _ Ht) as (_ & _ & Hd). unfold data in Hd.
  destruct (nodes w !! x) as [nd|] eqn:En; [|done]. injection He as <- <-. simpl in Hd. injection Hd as Hd.
  eapply answered_next; [|done]. rewrite <- (set_temp_same (G i)), Ht. by eapply sound_write.
Qed.

Lemma write_answered k w w' G log e i j f x payload r :
  sound k w G log e → (∃ n t d, temp (G i) = Owns n t x d) →
  exec i (pid_of i) user numbering f (Write x payload) w = (r, w') → answered k (Write x payload) r w' G i j log.
Proof.
  intros Hs (n & t & d & Ht) He. simpl in He. destruct f as [er|n']; [injection He as <- <-; by eapply answered_same|].
  unfold write in He. pose proof (s_owns _ _ _ _ _ Hs _ _ _ _ _ Ht) as (_ & _ & Hd). unfold data in Hd.
  destruct (nodes w !! x) as [[[] m u y]|] eqn:En; try done. injection He as <- <-. simpl in Hd. injection Hd as ->.
  eapply answered_next; [|by do 3 eexists]. by eapply sound_write.
Qed.

Lemma rename_answered k w w' G log e i j f a b r :
  sound k w G log e → jobs !! i = Some j → asks slotted (pid_of i) j (Rename a b) (G i) →
  exec i (pid_of i) user numbering f (Rename a b) w = (r, w') → answered k (Rename a b) r w' G i j log.
Proof.
  intros Hs Hj (n & x & d & Ht & -> & Hw & Hlock) He. simpl in He.
  destruct f as [er|n']; [injection He as <- <-; by eapply answered_same|]. unfold rename in He.
  pose proof (s_owns _ _ _ _ _ Hs _ _ _ _ _ Ht) as (Hta & Hna & Hd). rewrite Hna in He.
  assert (plain (job_path j)) as Hp by by eapply job_plain.
  assert (∀ nm, nm = <[job_path j:=x]> (delete a (names w)) → answered k (Rename a (job_path j)) (Ok tt) (set_names nm w) G i j log) as Hok.
  { intros nm Hnm. assert (nm !! job_path j = Some x) as Hx by (rewrite Hnm; apply lookup_insert_eq).
    eapply answered_next; [|by do 3 eexists]. apply (sound_record k w G i j log e (Spent n a) nm (Holds d)); try done.
    - rewrite cell_data. simpl. rewrite Hx. by unfold data in *; simpl; rewrite Hd.
    - left. by eexists.
    - by rewrite Ht.
    - by intros ?? [= <- <-].
    - intros q Hq Hne. rewrite Hnm, lookup_insert_ne, lookup_delete_ne; [done| |done]. by eapply temporary_not_plain.
    - intros q m t y d'. unfold upd. case_decide; [done|]. intros Hq. rewrite Hnm.
      pose proof (s_owns _ _ _ _ _ Hs _ _ _ _ _ Hq) as (Htq & Hnq & _).
      rewrite lookup_insert_ne, lookup_delete_ne; [done| |].
      + eapply (temporaries_differ k w G log e i q n m); try done; [by rewrite Ht|by rewrite Hq].
      + intros E. by eapply (temporary_not_plain q m t).
    - intros y Hy. rewrite Hx in Hy. injection Hy as <-. split.
      + intros q m t d'. unfold upd. case_decide; [done|]. intros Hq. by pose proof (s_files _ _ _ _ _ Hs i q _ _ _ _ _ _ _ Ht Hq).
      + exists (Some d). split; [done|]. intros ? [= <-]. right. exists j. split; [|done]. by eapply list_elem_of_lookup_2. }
  destruct (names w !! job_path j ≫= λ q, nodes w !! q) as [[[] ? ? ?]|]; simplify_eq; try by apply Hok.
  by eapply answered_same.
Qed.

Lemma unlink_answered k w w' G log e i j f a r :
  sound k w G log e → jobs !! i = Some j → asks slotted (pid_of i) j (Unlink a) (G i) →
  exec i (pid_of i) user numbering f (Unlink a) w = (r, w') → answered k (Unlink a) r w' G i j log.
Proof.
  intros Hs Hj Ha He. simpl in He. assert (plain (job_path j)) as Hp by by eapply job_plain.
  assert (r = Ok tt ∧ w' = set_names (delete a (names w)) w ∨ (∃ er, r = Err er) ∧ w' = w) as [[-> ->]|[[er ->] ->]].
  { destruct f as [er|n']; [injection He as <- <-; eauto|]. unfold unlink in He.
    destruct (names w !! a) as [y|]; [|simplify_eq; eauto]. destruct (nodes w !! y) as [[[] ? ? ?]|]; simplify_eq; eauto. }
  2: by eapply answered_same.
  assert (∀ n, numbered (temp (G i)) = Some n → temporary_of i n a → answered k (Unlink a) (Ok tt) (set_names (delete a (names w)) w) G i j log) as Htemp.
  { intros n Hn Hta. eapply answered_next; [by eapply sound_unlink_temporary|]. simpl.
    rewrite decide_False; [done|]. by eapply temporary_not_plain. }
  destruct Ha as [(n & x & d & Ht)|[(n & Ht)|(-> & Hr & Hlock)]].
  - apply (Htemp n); [by rewrite Ht|]. by apply (s_owns _ _ _ _ _ Hs) in Ht as [? _].
  - apply (Htemp n); [by rewrite Ht|]. by apply (s_spent _ _ _ _ _ Hs) in Ht.
  - eapply answered_next; [|simpl; rewrite decide_True by done; reflexivity].
    rewrite <- (set_temp_same (hold _ (G i))).
    apply (sound_record k w G i j log e (temp (G i)) (delete (job_path j) (names w)) Absent); try done.
    + rewrite cell_data. simpl. by rewrite lookup_delete_eq.
    + by right.
    + intros n t. apply (s_spent _ _ _ _ _ Hs).
    + intros q _ Hq. by apply lookup_delete_ne.
    + intros q m t y d. rewrite set_temp_same. unfold upd. case_decide; intros Hq; subst;
        pose proof (s_owns _ _ _ _ _ Hs _ _ _ _ _ Hq) as (Htq & Hnq & _);
        (rewrite lookup_delete_ne; [done|]); intros E; by eapply (temporary_not_plain _ m t).
    + intros y. by rewrite lookup_delete_eq.
Qed.

Lemma lock_answered k w w' G log e i j f p r :
  sound k w G log e → jobs !! i = Some j → asks slotted (pid_of i) j (Lock p) (G i) →
  exec i (pid_of i) user numbering f (Lock p) w = (r, w') → answered k (Lock p) r w' G i j log.
Proof.
  intros Hs Hj (-> & Hh & Hp) He. simpl in He. assert (plain (job_path j)) as Hpl by by eapply job_plain.
  destruct f as [er|n']; [injection He as <- <-; by eapply answered_same|].
  set (w1 := if decide (is_Some (names w !! lock_path (job_path j))) then w
             else (create user numbering (lock_path (job_path j)) (Regular []) 384 w).2) in He.
  assert (sound k w1 G log e) as Hs1.
  { unfold w1. destruct (decide (is_Some (names w !! lock_path (job_path j)))) as [Hn|Hn]; [done|]. apply sound_lock_file; [done..|]. by apply eq_None_not_Some. }
  case_decide as Hl; injection He as <- <-; [by eapply answered_same|].
  eapply answered_next; [|by eexists]. apply sound_lock; try done. by apply eq_None_not_Some.
Qed.

Lemma unlock_answered k w w' G log e i j f p r :
  sound k w G log e → asks slotted (pid_of i) j (Unlock p) (G i) →
  exec i (pid_of i) user numbering f (Unlock p) w = (r, w') → answered k (Unlock p) r w' G i j log.
Proof.
  intros Hs [-> (s & c & Hh)] He. simpl in He. injection He as <- <-.
  set (w1 := if decide _ then _ else w).
  destruct (sound_dismiss k w w1 G i log e (temp (G i)) (known (G i))) as (log' & e' & Hs' & Hpre); try (by right); try done.
  - unfold w1. by case_decide.
  - unfold w1. by case_decide.
  - intros g. unfold w1. by case_decide.
  - intros q m Hm Hq. unfold w1. case_decide as Hi; [|done]. simpl. rewrite lookup_delete_ne; [done|].
    intros <-. congruence.
  - exists (release (G i)), log', e'. split_and!; [done| |done]. apply sound_next.
    replace (release (G i)) with (dismissed (temp (G i)) (known (G i)) (G i)); [done|].
    unfold dismissed, release. by rewrite Hh.
Qed.

Lemma read_answered k w G log e i j f x offset limit r :
  sound k w G log e →
  exec i (pid_of i) user numbering f (Read x offset limit) w = (r, w) → answered k (Read x offset limit) r w G i j log.
Proof.
  intros Hs He. eapply answered_same; [done|]. split; [done|]. simpl in He. assert (Hr := f_equal fst He). simpl in Hr.
  destruct (known (G i) !! x) as [[d|]|] eqn:Ek; [|done..].
  apply (s_known _ _ _ _ _ Hs) in Ek as [_ Hd]. unfold data in Hd. destruct f as [er|n]; [by subst r|].
  unfold read in Hr. destruct (nodes w !! x) as [[[] ? ? ?]|]; try done. simpl in Hd. injection Hd as ->. subst r.
  eexists. split; [done|]. destruct (take limit (drop offset d)) as [|b l]; [done|]. by destruct n.
Qed.

Lemma fstat_answered k w G log e i j f x r :
  sound k w G log e → exec i (pid_of i) user numbering f (Fstat x) w = (r, w) → answered k (Fstat x) r w G i j log.
Proof.
  intros Hs He. eapply answered_same; [done|]. split; [done|]. simpl in He. assert (Hr := f_equal fst He). simpl in Hr.
  destruct f as [er|n]; [by subst r|]. destruct (nodes w !! x) as [nd|] eqn:En; simpl in Hr; subst r; [|done].
  intros o Ho. apply (s_known _ _ _ _ _ Hs) in Ho as [_ Hd]. unfold data in Hd. rewrite En in Hd. simpl in Hd.
  injection Hd as <-. unfold data_of, is_file. by destruct (what nd).
Qed.

Lemma call_answered {B} k w w' G log e i j f (c : call B) r :
  sound k w G log e → 0 ≤ k < u64_max → jobs !! i = Some j → asks slotted (pid_of i) j c (G i) →
  exec i (pid_of i) user numbering f c w = (r, w') → answered k c r w' G i j log.
Proof.
  intros Hs Hk Hj Ha He. destruct c; try done.
  - injection He as <- <-. destruct (sound_fetch_add k w G i log e _ _ Hs Hk Ha eq_refl eq_refl) as [Hn Hs'].
    by exists (set_temp (Reserved (default 0 (counters w !! pid_of i))) (G i)), log, e.
  - destruct Ha as (n & dir & fn & Ht & ->). simpl in He.
    assert (∀ er, answered k (CreateNew (dir ++ [temporary_name fn (pid_of i) n]) m) (Err er) w G i j log) as Hidle.
    { intros er. eapply answered_next; [|done]. apply sound_forget; [done|by left]. }
    destruct f as [er|x]; [injection He as <- <-; apply Hidle|].
    case_decide as Hn; injection He as <- <-; [apply Hidle|].
    eapply answered_next; [|by eexists].
    eapply sound_create; [done..| | |reflexivity]; [by do 2 eexists|by apply eq_None_not_Some].
  - assert (w' = w) as -> by by injection He. by eapply open_answered.
  - by eapply fchmod_answered.
  - by eapply write_answered.
  - injection He as <- <-. by eapply answered_same.
  - by eapply rename_answered.
  - by eapply unlink_answered.
  - assert (w' = w) as -> by by injection He. by eapply read_answered.
  - assert (w' = w) as -> by by injection He. by eapply fstat_answered.
  - by eapply lock_answered.
  - by eapply unlock_answered.
Qed.

(** A process goes. *)
Lemma data_crash i w f : data (crash i w) f = data w f.
Proof.
  unfold data, crash, close_all. simpl. rewrite lookup_fmap. destruct (nodes w !! f) as [nd|]; [|done]. simpl.
  destruct (owned_by i nd) eqn:E; [|done]. unfold owned_by in E. unfold data_of, set_what. simpl.
  by destruct (what nd).
Qed.

Lemma crash_sound k w G i log e :
  sound k w G log e →
  ∃ g' log' e', sound (k + 1) (crash i w) (upd i g' G) log' e' ∧ log `prefix_of` log'.
Proof.
  intros Hs. destruct (sound_dismiss k w (crash i w) G i log e Idle ∅) as (log' & e' & Hs' & Hpre);
    [done..|apply data_crash| |by left|by left|].
  - intros p q Hq Hl. simpl. by apply map_lookup_filter_Some.
  - exists (dismissed Idle ∅ (G i)), log', e'. split; [by apply sound_next|done].
Qed.

(** ** The system *)

Context (passes : nat).
Hypothesis limits : ∀ j, j ∈ jobs → 0 ≤ job_limit j < u64_max.
Hypothesis slots_only : ∀ j, j ∈ jobs → slotted (job_path j) → slot_job j ∨ writes j = None.
(** The names of records lead to files, and no process has counted yet. *)
Hypothesis names_lead : ∀ p f, plain p → names w0 !! p = Some f → is_Some (nodes w0 !! f).
Hypothesis no_counters : counters w0 = ∅.

Definition launch : system := System w0 (imap (λ i j, program (pid_of i) passes j) jobs).

(** Every task keeps to the discipline from where it is. *)
Definition disciplined (ts : list (prog outcome)) (G : nat → ghost) : Prop :=
  ∀ i t, ts !! i = Some t → ∃ j, jobs !! i = Some j ∧
    keeps versions slotted (pid_of i) j (finished versions slotted j) t (G i).

Lemma launch_sound : sound 0 w0 (λ _, no_ghost) [] (cell_at w0 p0) ∧ disciplined (tasks launch) (λ _, no_ghost).
Proof.
  split.
  - split; simpl; try done.
    + intros q c. by rewrite no_counters, lookup_empty.
    + intros p f Hp Hf. split; [done|]. unfold data. destruct (names_lead p f Hp Hf) as [nd Hn]. rewrite Hn.
      eexists. split; [done|]. intros d Hd. left. rewrite cell_data, Hf. unfold data. rewrite Hn. simpl. by rewrite Hd.
    + intros i s c Hi. set_solver.
    + constructor.
  - intros i t Ht. simpl in Ht. rewrite list_lookup_imap in Ht.
    destruct (jobs !! i) as [j|] eqn:Ej; [|done]. injection Ht as <-. exists j. split; [done|].
    apply list_elem_of_lookup_2 in Ej. apply job_kept; eauto.
Qed.

Lemma happen_sound k s G log e ev :
  sound k (shared s) G log e → disciplined (tasks s) G → 0 ≤ k < u64_max →
  ∃ G' log' e', sound (k + 1) (shared (happen pid_of user numbering s ev)) G' log' e' ∧
    disciplined (tasks (happen pid_of user numbering s ev)) G' ∧ log `prefix_of` log'.
Proof.
  intros Hs Hd Hk. destruct ev as [i f|i]; simpl.
  - assert (∃ G' log' e', sound (k + 1) (shared s) G' log' e' ∧ disciplined (tasks s) G' ∧ log `prefix_of` log') as Hsame.
    { exists G, log, e. split_and!; [eapply sound_quiet; [exact Hs|lia|done..]|done|done]. }
    destruct (tasks s !! i) as [[a| |B c kk]|] eqn:Et; try exact Hsame. clear Hsame.
    destruct (Hd i _ Et) as (j & Hj & Ha & Hlearn).
    destruct (exec i (pid_of i) user numbering f c (shared s)) as [r w'] eqn:Ee. simpl.
    destruct (call_answered k (shared s) w' G log e i j f c r Hs Hk Hj Ha Ee) as (g' & log' & e' & Hl & Hs' & Hpre).
    exists (upd i g' G), log', e'. split_and!; [done| |done].
    intros q t Hq. apply list_lookup_insert_Some in Hq as [(-> & <- & _)|[Hne Hq]].
    + exists j. split; [done|]. rewrite upd_same. by apply Hlearn.
    + rewrite upd_other by done. by apply Hd.
  - destruct (crash_sound k (shared s) G i log e Hs) as (g' & log' & e' & Hs' & Hpre).
    exists (upd i g' G), log', e'. split_and!; [done| |done].
    intros q t Hq. apply list_lookup_insert_Some in Hq as [(-> & <- & Hlt)|[Hne Hq]].
    + destruct (lookup_lt_is_Some_2 _ _ Hlt) as [t Ht]. destruct (Hd q t Ht) as (j & Hj & _). by exists j.
    + rewrite upd_other by done. by apply Hd.
Qed.

Lemma happens_sound evs k s G log e :
  sound k (shared s) G log e → disciplined (tasks s) G → 0 ≤ k → k + Z.of_nat (length evs) ≤ u64_max →
  ∃ k' G' log' e', sound k' (shared (happens pid_of user numbering s evs)) G' log' e' ∧
    disciplined (tasks (happens pid_of user numbering s evs)) G' ∧ log `prefix_of` log'.
Proof.
  revert k s G log e. induction evs as [|ev evs IH]; intros k s G log e Hs Hd Hk Hlen.
  - exists k, G, log, e. by split_and!.
  - simpl in Hlen. destruct (happen_sound k s G log e ev) as (G' & log' & e' & Hs' & Hd' & Hp); [done..|lia|].
    destruct (IH (k + 1) _ G' log' e' Hs' Hd') as (k2 & G2 & log2 & e2 & Hs2 & Hd2 & Hp2); [lia..|].
    exists k2, G2, log2, e2. split_and!; [done..|by etrans].
Qed.

Lemma system_sound evs :
  Z.of_nat (length evs) ≤ u64_max →
  ∃ k G log e, sound k (shared (happens pid_of user numbering launch evs)) G log e ∧
    disciplined (tasks (happens pid_of user numbering launch evs)) G.
Proof.
  intros Hlen. destruct launch_sound as [Hs Hd].
  destruct (happens_sound evs 0 launch _ _ _ Hs Hd) as (k & G & log & e & H1 & H2 & _); [done|lia|]. by exists k, G, log, e.
Qed.
End concurrency.

(** ** What readers see *)

(** C6: readers see whole records. However many tasks of however many processes
    publish to records, and repair, replace and remove them through slots, however
    their calls interleave, and whichever calls fail and processes go, a read that
    returns contents returns all the bytes of one version of that record: the
    version there was at the start, or one that a task was asked to write, and no
    longer than the read limit. *)
Theorem readers_see_whole_records (jobs : list job) (pid_of : nat → Z) (user : Z) (numbering : world → Z)
    (w0 : world) (passes : nat) (evs : list event) (i : nat) (s : RecordSlot) (d : bytes) :
  (∀ j, j ∈ jobs → plain (job_path j) ∧ 0 ≤ job_limit j < u64_max) → (∀ i, 0 ≤ pid_of i) →
  (∀ p f, plain p → names w0 !! p = Some f → is_Some (nodes w0 !! f)) → counters w0 = ∅ →
  Z.of_nat (length evs) ≤ u64_max →
  jobs !! i = Some (ReadRecord s) →
  tasks (happens pid_of user numbering (launch jobs pid_of w0 passes) evs) !! i = Some (Ret (Seen (Ok (Some d)))) →
  Z.of_nat (length d) ≤ RecordOptions.read_limit (slot_options s) ∧
  (cell_at w0 (slot_path s) = Holds d ∨ ∃ j, j ∈ jobs ∧ job_path j = slot_path s ∧ writes j = Some d).
Proof.
  intros Hjobs Hpid Hlead Hcnt Hlen Hi Ht.
  assert (plain (slot_path s)) as Hp by by eapply (Hjobs (ReadRecord s)), list_elem_of_lookup_2.
  destruct (system_sound jobs pid_of user numbering (λ _, False) w0 (slot_path s)) with (passes := passes) (evs := evs)
    as (k' & G' & log' & e' & _ & Hd'); try done; try by intros; apply Hjobs.
  destruct (Hd' i _ Ht) as (j & Hj & Hfin & _). rewrite Hi in Hj. injection Hj as <-.
  destruct (Hfin d eq_refl) as [Hv Hlim]. by split.
Qed.

(** ** Slots *)

(** C5: the operations of a slot take effect one after another. When a record is
    only changed through its slot, then whatever calls of however many tasks
    interleave and fail, and whichever processes go, there is a list of changes, at
    most one for each task, that leads from what the record held at the start to
    what it holds whenever its lock is free, each change starting where the one
    before it ended. Every operation that returned is in it and did what it
    promises from there - a repair and a conditional replacement or removal decided
    on what the record held then - or it failed and changed nothing; an operation
    cut short is in it only if it had the lock, and it changed nothing or did all
    of its change. *)
Theorem slots_are_atomic (jobs : list job) (pid_of : nat → Z) (user : Z) (numbering : world → Z)
    (w0 : world) (passes : nat) (evs : list event) (p : path) :
  (∀ j, j ∈ jobs → plain (job_path j) ∧ 0 ≤ job_limit j < u64_max) → (∀ i, 0 ≤ pid_of i) →
  (∀ q f, plain q → names w0 !! q = Some f → is_Some (nodes w0 !! f)) → counters w0 = ∅ →
  Z.of_nat (length evs) ≤ u64_max → plain p →
  (∀ j, j ∈ jobs → job_path j = p → slot_job j ∨ writes j = None) →
  let s := happens pid_of user numbering (launch jobs pid_of w0 passes) evs in
  ∃ (log : list (nat * cell * cell)) (e : cell),
    chained (cell_at w0 p) log e ∧ NoDup log.*1.*1 ∧
    (locks (shared s) !! lock_path p = None → cell_at (shared s) p = e) ∧
    (∀ i start fin, (i, start, fin) ∈ log → effect jobs i start fin) ∧
    (∀ i j o, jobs !! i = Some j → job_path j = p → slot_job j → tasks s !! i = Some (Ret o) →
       (failed o ∧ ∀ start fin, (i, start, fin) ∉ log) ∨
       ∃ start fin, (i, start, fin) ∈ log ∧ promised j start o fin).
Proof.
  intros Hjobs Hpid Hlead Hcnt Hlen Hp Hslot s.
  destruct (system_sound jobs pid_of user numbering (eq p) w0 p) with (passes := passes) (evs := evs)
    as (k' & G' & log & e & Hs & Hd); try done; try by intros; apply Hjobs.
  { intros j Hj Hpj. by apply Hslot. }
  exists log, e. destruct Hs. split_and!; [by apply s_chain0|done| | |].
  - intros Hl. apply s_free0; [|done]. intros i st c Hi. apply s_held0 in Hi as (_ & _ & Hi & _). unfold s in Hl. congruence.
  - intros i st c Hi. by apply s_log0.
  - intros i j o Hj Hjp Hsj Ht. destruct (Hd i _ Ht) as (j' & Hj' & _ & Hfin). rewrite Hj in Hj'. injection Hj' as <-.
    specialize (Hfin (eq_sym Hjp) Hsj). destruct (past (G' i)) as [[[q st] c]|] eqn:Epast.
    + destruct Hfin as [-> Hpr]. right. exists st, c. split; [|done]. apply s_past0. by rewrite Epast, Hjp.
    + left. split; [done|]. intros st c Hin. by apply s_log0 in Hin as [? _].
Qed.

(** ** Three tasks at one record *)

Module Example.
Definition dir : path := [bs "run"].
Definition record : path := [bs "run"; bs "record"].
Definition start : world :=
  World {[ dir := 0%nat; record := 1%nat ]}
    {[ 0%nat := Node Directory 448 1000 10; 1%nat := Node (Regular (bs "old")) 384 1000 11 ]} ∅ ∅.
Definition slot : RecordSlot := Slot record RecordOptions.new.
Definition jobs : list job := [ReadRecord slot; Replace slot (bs "newer"); RemoveIfMatches slot (bs "old")].
Definition pid (i : nat) : Z := 100 + Z.of_nat i.

(** The reader opens the record, the writer writes two bytes and then the rest and
    renames, the other slot user meets the lock, and the reader reads on. *)
Definition go (i : nat) : event := Step i (Goes 0).
Definition trace : list event :=
  [go 0; go 1; go 1; go 1; go 1; Step 1 (Goes 2); go 2; go 0; go 1; go 1; go 1; Step 0 (Goes 2); go 1; go 1; go 0; go 0].
Definition end_ : system := happens pid 1000 (λ _, 7) (launch jobs pid start 30) trace.

Lemma record_plain : plain record.
Proof.
  exists (bs "record"). split_and!; [done..|]. intros [k Hk]. apply (f_equal length) in Hk. rewrite length_app in Hk.
  simpl in Hk. lia.
Qed.

Lemma start_leads p f : plain p → names start !! p = Some f → is_Some (nodes start !! f).
Proof.
  intros _ Hf. unfold start, names in Hf. apply lookup_insert_Some in Hf as [[_ <-]|[_ Hf]]; [by eexists|].
  apply lookup_singleton_Some in Hf as [_ <-]. by eexists.
Qed.

Lemma jobs_fit j : j ∈ jobs → plain (job_path j) ∧ 0 ≤ job_limit j < u64_max.
Proof.
  intros Hj. assert (job_path j = record ∧ job_limit j = 65536) as [-> ->].
  { repeat (apply elem_of_cons in Hj as [->|Hj]; [done|]). by apply elem_of_nil in Hj. }
  split; [apply record_plain|]. unfold u64_max. lia.
Qed.
End Example.

Lemma readers_see_whole_records_witness :
  Example.jobs !! 0%nat = Some (ReadRecord Example.slot) ∧
  (cell_at Example.start Example.record = Holds (bs "old") ∨
   ∃ j, j ∈ Example.jobs ∧ job_path j = Example.record ∧ writes j = Some (bs "old")).
Proof.
  split; [done|].
  eapply (readers_see_whole_records Example.jobs Example.pid 1000 (λ _, 7) Example.start 30 Example.trace 0 Example.slot);
    [apply Example.jobs_fit|intros i; unfold Example.pid; lia|apply Example.start_leads|done|simpl; unfold u64_max; lia|done|].
  vm_compute. reflexivity.
Defined.

Lemma slots_are_atomic_witness :
  ∃ log, chained (Holds (bs "old")) log (Holds (bs "newer")) ∧
    ∃ start fin, (1%nat, start, fin) ∈ log ∧ fin = Holds (bs "newer").
Proof.
  destruct (slots_are_atomic Example.jobs Example.pid 1000 (λ _, 7) Example.start 30 Example.trace Example.record)
    as (log & e & Hc & _ & Hfree & _ & Hdone);
    [apply Example.jobs_fit|intros i; unfold Example.pid; lia|apply Example.start_leads|done|simpl; unfold u64_max; lia
    |apply Example.record_plain| |].
  - intros j Hj _. repeat (apply elem_of_cons in Hj as [->|Hj]; [simpl; tauto|]). by apply elem_of_nil in Hj.
  - exists log. assert (e = Holds (bs "newer")) as ->.
    { rewrite <- Hfree; vm_compute; reflexivity. }
    split; [exact Hc|].
    destruct (Hdone 1%nat (Replace Example.slot (bs "newer")) (Published (Ok tt))) as [[[] _]|(st & fin & Hin & Hp)];
      [done..|vm_compute; reflexivity|]. exists st, fin. split; [exact Hin|exact Hp].
Defined.
