(* ===== verification/UnixSocket.v ===== *)
(** * Unix listeners and endpoint cleanup (src/local/unix_socket.rs)

    Binding a socket elects the daemon: [acquire] reclaims a socket only when it
    refuses connections, under a lock, and a [SocketGuard] removes only the socket
    it observed. The operations are programs over the calls of [Files], which runs
    daemons side by side. All files are on one device. *)
From stdpp Require Import gmap list.
From S2P Require Import Prelude SocketPath Files Publication.

Inductive BindError := DirectoryFailed (e : io_error) | BindFailed (e : io_error) | UnlinkFailed (e : io_error).

Inductive Bound := Won (listener : nat) | AlreadyRunning.

Section code.
Context (platform : Platform) (user : Z).

(** An absolute path as its bytes. *)
Definition render (p : path) : bytes := concat (map (λ name, "/"%byte :: name) p).

Definition check_path (socket : path) : io_result unit := check_socket_path platform (render socket).

Definition lock_path (p : path) : path := push_name p (bs ".bind.lock").

(** [UnixListener::bind]: a socket that cannot listen is closed. *)
Definition listener_bind (socket : path) : prog (io_result nat) :=
  listener ←? sys (Bind socket);
  r ← sys (Listen listener);
  match r with
  | Ok _ => Ret (Ok listener)
  | Err e => _ ← sys (Close listener); Ret (Err e)
  end.

Definition bind_private (socket : path) : prog (io_result nat) :=
  listener ←? listener_bind socket;
  r ← sys (Chmod socket 384);
  match r with
  | Ok _ => Ret (Ok listener)
  | Err e => _ ← sys (Close listener); Ret (Err e)
  end.

(** What [acquire] does under the bind lock. *)
Definition acquire_locked (socket : path) : prog (result BindError Bound) :=
  r ← bind_private socket;
  match r with
  | Ok listener => Ret (Ok (Won listener))
  | Err e =>
      if negb (bool_decide (kind e = AddrInUse)) then Ret (Err (BindFailed e)) else
      metadata ← sys (Lstat socket);
      match metadata with
      | Err e => Ret (Err (BindFailed e))
      | Ok metadata =>
          if negb (is_socket metadata) then Ret (Err (BindFailed (error_of_kind AlreadyExists))) else
          probe ← sys (Connect socket);
          match probe with
          | Ok _ => Ret (Ok AlreadyRunning)
          | Err e =>
              if bool_decide (kind e = TimedOut ∨ kind e = WouldBlock) then Ret (Ok AlreadyRunning) else
              if negb (bool_decide (kind e = ConnectionRefused)) then Ret (Err (BindFailed e)) else
              removed ← sys (Unlink socket);
              match removed with
              | Err e => Ret (Err (UnlinkFailed e))
              | Ok _ => (λ r, map_err BindFailed (Won <$> r)) <$> bind_private socket
              end
          end
      end
  end.

Definition acquire (socket : path) : prog (result BindError Bound) :=
  match check_path socket with
  | Err e => Ret (Err (BindFailed e))
  | Ok _ =>
      match parent socket with
      | None => Ret (Err (DirectoryFailed (error_of_kind InvalidInput)))
      | Some dir =>
          ready ← ensure_private_dir user dir;
          match ready with
          | Err e => Ret (Err (DirectoryFailed e))
          | Ok _ =>
              locked ← sys (Lock (lock_path socket));
              match locked with
              | Err e => Ret (Err (BindFailed e))
              | Ok false => Ret (Ok AlreadyRunning)
              | Ok true =>
                  r ← acquire_locked socket;
                  _ ← sys (Unlock (lock_path socket));
                  Ret r
              end
          end
      end
  end.

(** ** [SocketGuard] *)

Record SocketGuard := Guard { guard_path : path; inode : Z }.

Definition capture (p : path) : prog (io_result SocketGuard) :=
  metadata ←? sys (Lstat p);
  Ret (if is_socket metadata then Ok (Guard p (number metadata)) else Err (error_of_kind InvalidInput)).

Definition drop_guard (g : SocketGuard) : prog unit :=
  locked ← sys (Lock (lock_path (guard_path g)));
  match locked with
  | Ok true =>
      metadata ← sys (Lstat (guard_path g));
      _ ← match metadata with
          | Ok n => if is_socket n && (number n =? inode g) then sys (Unlink (guard_path g)) else Ret (Ok tt)
          | Err e => Ret (Err e)
          end;
      sys (Unlock (lock_path (guard_path g)))
  | _ => Ret tt
  end.

(** ** Daemons *)

(** A daemon that serves until its process goes, or one that leaves: it closes its
    listener and drops its guard, in either order. *)
Inductive job := Serve | Leave (guard_first : bool).

(** What a daemon that leaves has to report is [None]. *)
Definition leave (p : path) (guard_first : bool) : prog (option (result BindError Bound)) :=
  r ← acquire p;
  match r with
  | Ok (Won listener) =>
      captured ← capture p;
      match captured with
      | Ok g =>
          if guard_first then
            _ ← drop_guard g; _ ← sys (Close listener); Ret None
          else
            _ ← sys (Close listener); _ ← drop_guard g; Ret None
      | Err _ => _ ← sys (Close listener); Ret None
      end
  | r => Ret (Some r)
  end.

Definition program (p : path) (j : job) : prog (option (result BindError Bound)) :=
  match j with Serve => Some <$> acquire p | Leave guard_first => leave p guard_first end.
End code.

(** ** Reasoning about a daemon among others

    As in [Publication]: what only this daemon can change, and what it knows of the
    endpoint while it has the bind lock. *)

Inductive mine := NoSocket | Fresh (x : nat) | Live (x : nat) | Given (x : nat).
Inductive view := Unseen | SocketAt (x : nat) | DeadAt (x : nat).

(** [guard] is the socket of a guard with its inode number. *)
Record ghost := Ghost { locked : bool; own : mine; seen : view; guard : option (nat * Z) }.

Definition no_ghost : ghost := Ghost false NoSocket Unseen None.
Definition set_locked (b : bool) (g : ghost) : ghost := Ghost b (own g) Unseen (guard g).
Definition set_own (m : mine) (g : ghost) : ghost := Ghost (locked g) m (seen g) (guard g).
Definition set_seen (v : view) (g : ghost) : ghost := Ghost (locked g) (own g) v (guard g).
Definition set_guard (x : nat * Z) (g : ghost) : ghost := Ghost (locked g) (own g) (seen g) (Some x).

Section discipline.
Context (p : path).

Definition asks {B} (c : call B) (g : ghost) : Prop :=
  match c with
  | Mkdirs q => q ≠ p
  | Chmod _ _ | Lstat _ | Connect _ => True
  | Lock q => q = lock_path p ∧ locked g = false
  | Unlock q => q = lock_path p ∧ locked g = true ∧ ∀ x, own g ≠ Fresh x
  | Bind q => q = p ∧ locked g = true ∧ guard g = None ∧ (own g = NoSocket ∨ ∃ x, own g = Given x)
  | Listen x => own g = Fresh x ∧ seen g = Unseen
  | Unlink q =>
      q = p ∧ locked g = true ∧ (∀ x, own g ≠ Fresh x) ∧
      ((∃ x, seen g = DeadAt x) ∨ ∃ x, seen g = SocketAt x ∧ (own g = Given x ∨ own g = Live x))
  | Close x => own g = Fresh x ∨ own g = Live x ∨ own g = Given x
  | _ => False
  end.

Definition give (m : mine) : mine := match m with Live x => Given x | m => m end.

Definition learns {B} (c : call B) (g : ghost) : B → ghost → Prop :=
  match c in call B return B → ghost → Prop with
  | Mkdirs _ => λ _ g', g' = g
  | Chmod _ _ => λ _ g', g' = g
  | Lstat q => λ r g',
      match r with
      | Err _ => g' = g
      | Ok nd =>
          if decide (q = p) then
            if locked g then
              if is_socket nd
              then ∃ y, g' = set_seen (SocketAt y) g ∧ ∀ x, guard g = Some (x, number nd) → y = x
              else g' = set_seen Unseen g
            else match own g with
                 | Live x => is_socket nd = true ∧ g' = set_guard (x, number nd) g
                 | _ => g' = g
                 end
          else g' = g
      end
  | Connect q => λ r g',
      match r with
      | Err e =>
          g' = if decide (q = p ∧ kind e = ConnectionRefused)
               then match seen g with SocketAt x => set_seen (DeadAt x) g | _ => g end else g
      | Ok _ => g' = g
      end
  | Lock _ => λ r g', match r with Ok true => g' = set_locked true g | _ => g' = g end
  | Unlock _ => λ _ g', g' = set_locked false g
  | Bind _ => λ r g', match r with Ok x => g' = set_seen Unseen (set_own (Fresh x) g) | Err _ => g' = g end
  | Listen x => λ r g', match r with Ok _ => g' = set_own (Live x) g | Err _ => g' = g end
  | Unlink _ => λ r g', match r with Ok _ => g' = set_seen Unseen (set_own (give (own g)) g) | Err _ => g' = g end
  | Close x => λ _ g', g' = set_own (Given x) g
  | _ => λ _ _, False
  end.

Definition keeps {A} : (ghost → A → Prop) → prog A → ghost → Prop := keeping (λ B, @asks B) (λ B, @learns B).

(** A daemon that has no live socket. *)
Definition settled (g : ghost) : Prop := own g = NoSocket ∨ ∃ x, own g = Given x.

Lemma bind_private_keeps g :
  locked g = true → guard g = None → settled g →
  keeps (λ g' r, locked g' = true ∧ guard g' = None ∧
           match r with Ok x => own g' = Live x | Err _ => settled g' end) (bind_private p) g.
Proof.
  intros Hl Hg Ho. unfold bind_private, listener_bind. apply keeps_attempt, keeps_attempt, keeps_sys; [done|].
  intros [x|e] g1 ->; [|done]. apply keeps_bind, keeps_sys; [done|].
  intros [[]|e] g2 ->.
  - apply keeps_bind, keeps_sys; [done|]. intros [[]|e] g3 ->; [done|].
    apply keeps_bind, keeps_sys; [by right; left|]. intros [] g4 ->. split_and!; [done..|]. right. by eexists.
  - apply keeps_bind, keeps_sys; [by left|]. intros [] g4 ->. split_and!; [done..|]. right. by eexists.
Qed.

Lemma acquire_locked_keeps g :
  locked g = true → guard g = None → settled g →
  keeps (λ g' r, locked g' = true ∧ guard g' = None ∧
           match r with Ok (Won x) => own g' = Live x | _ => settled g' end) (acquire_locked p) g.
Proof.
  intros Hl Hg Ho. apply keeps_bind. eapply keeps_mono; [|by apply bind_private_keeps].
  intros g1 [x|e] (Hl1 & Hg1 & Ho1); [done|]. destruct (negb _); [done|].
  apply keeps_bind, keeps_sys; [done|]. intros [nd|e'] g2 Hg2; simpl in Hg2; [|by subst].
  rewrite decide_True, Hl1 in Hg2 by done. destruct (is_socket nd); cbn [negb]; [|by subst].
  destruct Hg2 as (y & -> & _). apply keeps_bind, keeps_sys; [done|].
  intros [[]|e2] g3 Hg3; simpl in Hg3; [by subst|].
  destruct (bool_decide (_ ∨ _)) eqn:Et; [by repeat case_decide; subst|].
  destruct (bool_decide (kind e2 = ConnectionRefused)) eqn:Er; cbn [negb]; [|by repeat case_decide; subst].
  apply bool_decide_eq_true in Er. rewrite decide_True in Hg3 by done. subst g3.
  apply keeps_bind, keeps_sys.
  { split_and!; [done..| |left; by eexists]. intros x Hx. destruct Ho1 as [?|[? ?]]; simpl in *; congruence. }
  intros [[]|e3] g4 ->; [|done].
  apply keeps_fmap. eapply keeps_mono; [|apply bind_private_keeps; [done..|]].
  - by intros g5 [x|e4].
  - unfold settled in *. simpl. destruct Ho1 as [-> |[x ->]]; [by left|right; by eexists].
Qed.

Context (platform : Platform) (user : Z).

Lemma parent_differs q : parent p = Some q → q ≠ p.
Proof. intros Hq%parent_shorter ->. lia. Qed.

Lemma acquire_keeps :
  keeps (λ g r, locked g = false ∧ guard g = None ∧
           match r with Ok (Won x) => own g = Live x | _ => settled g end) (acquire platform user p) no_ghost.
Proof.
  unfold acquire. destruct (check_path platform p); [|by split_and!; [..|left]].
  destruct (parent p) as [dir|] eqn:Ed; [|by split_and!; [..|left]].
  apply parent_differs in Ed. apply keeps_bind. unfold ensure_private_dir.
  apply (keeps_mono _ _ (λ g r, g = no_ghost)).
  - intros g [[]|e] ->; [|by split_and!; [..|left]]. apply keeps_bind, keeps_sys; [done|].
    intros [[]|e] g1 Hg1; simpl in Hg1; subst g1; [|by split_and!; [..|left]..].
    apply keeps_bind. eapply keeps_mono; [|apply acquire_locked_keeps; [done..|by left]].
    intros g1 r (Hl & Hg & Hr). apply keeps_bind, keeps_sys.
    + split_and!; [done..|]. intros x Hx. destruct r as [[y|]|e]; [congruence|destruct Hr as [?|[? ?]]; congruence..].
    + intros [] g2 ->. split_and!; [done..|]. by destruct r as [[y|]|e].
  - apply keeps_attempt, keeps_sys; [done|]. intros [[]|e] g1 ->; [|done].
    apply keeps_attempt, keeps_sys; [done|]. intros [nd|e] g1 Hg1; simpl in Hg1; [|done].
    rewrite decide_False in Hg1 by done. subst g1. destruct (negb _); [done|]. destruct (negb _); [done|].
    apply keeps_sys; [done|]. by intros r g ->.
Qed.

Lemma drop_guard_keeps n x g :
  locked g = false → guard g = Some (x, n) → own g = Given x ∨ own g = Live x →
  keeps (λ g' _, own g' = Given x ∨ own g' = Live x) (drop_guard (Guard p n)) g.
Proof.
  intros Hl Hg Ho. unfold drop_guard. cbn [guard_path inode]. apply keeps_bind, keeps_sys; [done|].
  intros [[]|e] g1 Hg1; simpl in Hg1; subst g1; [|done..]. apply keeps_bind, keeps_sys; [done|].
  assert (∀ g', locked g' = true → own g' = Given x ∨ own g' = Live x →
    keeps (λ g' _, own g' = Given x ∨ own g' = Live x) (sys (Unlock (lock_path p))) g') as Hun.
  { intros g' Hl' Ho'. apply keeps_sys; [split_and!; [done..|intros y Hy; destruct Ho'; congruence]|]. by intros [] g2 ->. }
  intros [nd|e] g1 Hg1; simpl in Hg1; [|subst; apply Hun; done].
  rewrite decide_True in Hg1 by done. destruct (is_socket nd); cbn [andb]; [|subst; apply Hun; done].
  destruct Hg1 as (y & -> & Hy). apply keeps_bind. destruct (Z.eqb_spec (number nd) n) as [<-|]; [|apply Hun; done].
  specialize (Hy x Hg). subst y. apply keeps_sys.
  - split_and!; [done..| |right; by exists x]. intros y Hy. destruct Ho; simpl in *; congruence.
  - intros [[]|e] g2 ->; apply Hun; try done. left. simpl. by destruct Ho as [-> | ->].
Qed.

(** A daemon keeps to the discipline; one that reports that it won has a live
    socket. *)
Lemma program_keeps j :
  keeps (λ g r, ∀ x, r = Some (Ok (Won x)) → own g = Live x) (program platform user p j) no_ghost.
Proof.
  destruct j as [|guard_first]; simpl.
  - apply keeps_fmap. eapply keeps_mono; [|apply acquire_keeps]. by intros g r (_ & _ & Hr) x [= ->].
  - apply keeps_bind. eapply keeps_mono; [|apply acquire_keeps]. intros g [[x|]|e] (Hl & Hg & Ho); [|done..].
    apply keeps_bind. unfold capture. apply keeps_attempt, keeps_sys; [done|]. intros [nd|e] g1 Hg1; simpl in Hg1.
    + rewrite decide_True, Hl, Ho in Hg1 by done. destruct Hg1 as [Hs ->]. rewrite Hs. cbn [keeping]. destruct guard_first.
      * apply keeps_bind. eapply keeps_mono; [|eapply drop_guard_keeps; [done..|by right]].
        intros g2 [] Hg2. apply keeps_bind, keeps_sys; [simpl; tauto|]. by intros [] g3 ->.
      * apply keeps_bind, keeps_sys; [by right; left|]. intros [] g2 ->.
        apply keeps_bind. eapply keeps_mono; [|eapply drop_guard_keeps; [done..|by left]]. done.
    + subst g1. apply keeps_bind, keeps_sys; [by right; left|]. by intros [] g2 ->.
Qed.
End discipline.
