(* ===== verification/Election.v ===== *)
(** * Electing a daemon

    Any number of daemons acquire, serve, leave and crash at one endpoint, call by
    call ([UnixSocket]). While inode numbers are not reused, a daemon that won and
    serves is the only one, and its endpoint leads to it. *)
From stdpp Require Import gmap list.
From S2P Require Import Prelude SocketPath Files Publication UnixSocket.

Definition socket_of (w : world) (x : nat) : option socket :=
  nd ← nodes w !! x; match what nd with Socket s => Some s | _ => None end.

Definition number_of (w : world) (x : nat) : option Z := number <$> nodes w !! x.

Section election.
Context (p : path) (pid_of : nat → Z) (user : Z) (numbering : world → Z).

Record sound (w : world) (G : nat → ghost) : Prop := {
  e_lock i : locked (G i) = true → locks w !! lock_path p = Some i;
  e_live i x : own (G i) = Live x → names w !! p = Some x ∧ socket_of w x = Some (Listening i);
  e_fresh i x : own (G i) = Fresh x →
    locked (G i) = true ∧ names w !! p = Some x ∧ socket_of w x = Some (Unlistening i);
  e_given i x : own (G i) = Given x →
    ∃ s, socket_of w x = Some s ∧ ∀ k, s = Listening k ∨ s = Unlistening k → k = i;
  e_seen i x : seen (G i) = SocketAt x → locked (G i) = true ∧ names w !! p = Some x ∧ is_Some (socket_of w x);
  e_dead i x : seen (G i) = DeadAt x →
    locked (G i) = true ∧ names w !! p = Some x ∧ ∃ s, socket_of w x = Some s ∧ ∀ k, s ≠ Listening k;
  e_guard i x n : guard (G i) = Some (x, n) → number_of w x = Some n ∧ (own (G i) = Live x ∨ own (G i) = Given x);
  e_numbers x y n : number_of w x = Some n → number_of w y = Some n → x = y;
  e_names x : names w !! p = Some x → is_Some (nodes w !! x);
}.

Definition upd (i : nat) (g : ghost) (G : nat → ghost) : nat → ghost := λ k, if decide (k = i) then g else G k.

Ltac by_task := unfold upd in *; repeat case_decide; simplify_eq/=.

Lemma lock_path_differs : lock_path p ≠ p.
Proof.
  unfold lock_path. intros E. assert (∀ q, push_name q (bs ".bind.lock") ≠ q) as H; [|by eapply H].
  clear. induction q as [|a [|b q] IH]; [done| |].
  - simpl. intros E. assert (a ++ bs ".bind.lock" = a) as H by congruence. apply (f_equal length) in H.
    rewrite length_app in H. simpl in H. lia.
  - intros E. apply IH. change (a :: push_name (b :: q) (bs ".bind.lock") = a :: b :: q) in E. congruence.
Qed.

(** The lock has one holder. *)
Lemma one_holder w G i j : sound w G → locked (G i) = true → locked (G j) = true → i = j.
Proof. intros [] Hi%e_lock0 Hj%e_lock0. congruence. Qed.

(** Nothing the invariant speaks of changes. *)
Lemma sound_unchanged w w' G :
  sound w G → locks w' = locks w → names w' !! p = names w !! p →
  (∀ x, socket_of w' x = socket_of w x) → (∀ x, number_of w' x = number_of w x) → sound w' G.
Proof.
  intros [] Hl Hn Hs Hu. split; rewrite ?Hl, ?Hn; try done.
  - intros i x. rewrite Hs. eauto.
  - intros i x. rewrite Hs. eauto.
  - intros i x. rewrite Hs. eauto.
  - intros i x. rewrite Hs. eauto.
  - intros i x. rewrite Hs. eauto.
  - intros i x n. rewrite Hu. eauto.
  - intros x y n. rewrite !Hu. eauto.
  - intros x Hx%e_names0. specialize (Hu x). unfold number_of in Hu. destruct Hx as [nd Hx]. rewrite Hx in Hu.
    destruct (nodes w' !! x); [by eexists|done].
Qed.

(** A file of another name is created. *)
Hypothesis numbers_fresh : ∀ w x nd, nodes w !! x = Some nd → number nd ≠ numbering w.

Lemma created_other w q c m x :
  is_Some (nodes w !! x) → let w' := (create user numbering q c m w).2 in
  socket_of w' x = socket_of w x ∧ number_of w' x = number_of w x.
Proof.
  intros Hx. unfold socket_of, number_of. simpl. rewrite lookup_insert_ne; [done|].
  intros <-. apply elem_of_dom in Hx. by apply is_fresh in Hx.
Qed.

Lemma created_number w q c m x n :
  let w' := (create user numbering q c m w).2 in
  number_of w' x = Some n → (x = fresh (dom (nodes w)) ∧ n = numbering w) ∨ number_of w x = Some n.
Proof.
  unfold number_of. simpl. rewrite lookup_insert. case_decide; [|by right]. simpl. intros [= <-]. by left.
Qed.

Lemma numbers_created w q c m :
  (∀ x y n, number_of w x = Some n → number_of w y = Some n → x = y) →
  let w' := (create user numbering q c m w).2 in
  ∀ x y n, number_of w' x = Some n → number_of w' y = Some n → x = y.
Proof.
  intros Hu w' x y n Hx Hy. apply created_number in Hx as [[-> ->]|Hx], Hy as [[-> Hy]|Hy]; [done| | |by eapply Hu].
  - unfold number_of in Hy. apply fmap_Some in Hy as (nd & Hy & E). by apply numbers_fresh in Hy.
  - subst n. unfold number_of in Hx. apply fmap_Some in Hx as (nd & Hx & E). by apply numbers_fresh in Hx.
Qed.

Lemma socket_exists w x s : socket_of w x = Some s → is_Some (nodes w !! x).
Proof. unfold socket_of. destruct (nodes w !! x); [by eexists|done]. Qed.

Lemma number_exists w x n : number_of w x = Some n → is_Some (nodes w !! x).
Proof. unfold number_of. destruct (nodes w !! x); [by eexists|done]. Qed.

Lemma sound_other_file w G q c m : sound w G → q ≠ p → sound (create user numbering q c m w).2 G.
Proof.
  intros Hs Hq. set (w' := (create user numbering q c m w).2).
  assert (∀ x, is_Some (nodes w !! x) → socket_of w' x = socket_of w x ∧ number_of w' x = number_of w x) as Hold
    by (intros; by apply created_other).
  assert (∀ x s, socket_of w x = Some s → socket_of w' x = Some s) as Hsock.
  { intros x s Hx. destruct (Hold x) as [-> _]; [by eapply socket_exists|done]. }
  assert (names w' !! p = names w !! p) as Hn by (simpl; by rewrite lookup_insert_ne).
  pose proof (numbers_created w q c m (e_numbers _ _ Hs)) as Hnum. destruct Hs. split; rewrite ?Hn; try done.
  - intros i x Hi%e_live0. naive_solver.
  - intros i x Hi%e_fresh0. naive_solver.
  - intros i x Hi%e_given0. naive_solver.
  - intros i x Hi%e_seen0. destruct Hi as (? & ? & [s Hi]). split_and!; [done..|]. eexists. eauto.
  - intros i x Hi%e_dead0. naive_solver.
  - intros i x n Hi. destruct (e_guard0 i x n Hi) as [Hx Ho]. split; [|done].
    destruct (Hold x) as [_ ->]; [by eapply number_exists|done].
  - intros x Hx%e_names0. simpl. rewrite lookup_insert. case_decide; [by eexists|done].
Qed.

(** ** What a daemon comes to know *)

Lemma sound_see w G i v :
  sound w G → (∀ x, v = SocketAt x → locked (G i) = true ∧ names w !! p = Some x ∧ is_Some (socket_of w x)) →
  (∀ x, v = DeadAt x → locked (G i) = true ∧ names w !! p = Some x ∧ ∃ s, socket_of w x = Some s ∧ ∀ k, s ≠ Listening k) →
  sound w (upd i (set_seen v (G i)) G).
Proof. intros [] Hs Hd. split; try done; intros j x; by_task; eauto. Qed.

Lemma sound_guard w G i x n :
  sound w G → own (G i) = Live x → number_of w x = Some n → sound w (upd i (set_guard (x, n) (G i)) G).
Proof. intros [] Hs Hd. split; try done; intros j y; by_task; eauto. intros m [= <- <-]. eauto. Qed.

Lemma sound_still w G i : sound w G → sound w (upd i (G i) G).
Proof. intros []. split; try done; intros j y; by_task; eauto. Qed.

(** A call by daemon [i] was answered. *)
Definition answered {B} (c : call B) (r : B) (w' : world) (G : nat → ghost) (i : nat) : Prop :=
  ∃ g', learns p c (G i) r g' ∧ sound w' (upd i g' G).

Lemma lstat_answered w G i f q r :
  sound w G → exec i (pid_of i) user numbering f (Lstat q) w = (r, w) → answered (Lstat q) r w G i.
Proof.
  intros Hs He. assert (Hr := f_equal fst He). simpl in Hr. clear He. destruct f as [e|n].
  { subst r. exists (G i). split; [done|]. by apply sound_still. }
  unfold node_at in Hr. destruct (names w !! q ≫= λ j, nodes w !! j) as [nd|] eqn:En; simpl in Hr; subst r.
  2: { exists (G i). split; [done|]. by apply sound_still. }
  unfold answered. simpl. destruct (decide (q = p)) as [->|]; [|exists (G i); split; [done|]; by apply sound_still].
  apply bind_Some in En as (y & Hy & Hn). assert (socket_of w y = match what nd with Socket s => Some s | _ => None end) as Hsock.
  { unfold socket_of. by rewrite Hn. }
  destruct (locked (G i)) eqn:El.
  - destruct (is_socket nd) eqn:Es.
    + exists (set_seen (SocketAt y) (G i)). split.
      * exists y. split; [done|]. intros x Hx. apply (e_guard _ _ Hs) in Hx as [Hx _].
        eapply (e_numbers _ _ Hs y x); [|exact Hx]. unfold number_of. by rewrite Hn.
      * apply sound_see; [done| |done]. intros x [= <-]. split_and!; [done..|]. rewrite Hsock.
        unfold is_socket in Es. by destruct (what nd).
    + exists (set_seen Unseen (G i)). split; [done|]. by apply sound_see.
  - destruct (own (G i)) as [|x|x|x] eqn:Eo; try (exists (G i); split; [done|]; by apply sound_still).
    destruct (e_live _ _ Hs i x Eo) as [Hp Hx]. rewrite Hy in Hp. injection Hp as ->.
    exists (set_guard (x, number nd) (G i)). split.
    + split; [|done]. rewrite Hsock in Hx. unfold is_socket. by destruct (what nd).
    + apply sound_guard; [done..|]. unfold number_of. by rewrite Hn.
Qed.

Lemma connect_answered w G i f q r :
  sound w G → exec i (pid_of i) user numbering f (Connect q) w = (r, w) → answered (Connect q) r w G i.
Proof.
  intros Hs He. assert (Hr := f_equal fst He). unfold exec in Hr. cbn [fst] in Hr. clear He.
  set (answer := _ ← resolve 40 w q; _) in Hr. unfold answered. cbn [learns].
  destruct r as [[]|e]; [exists (G i); split; [done|]; by apply sound_still|].
  eexists. split; [reflexivity|]. destruct (decide (q = p ∧ kind e = ConnectionRefused)) as [[-> Hk]|]; [|by apply sound_still].
  destruct (seen (G i)) as [|x|x] eqn:Es; try by apply sound_still.
  destruct (e_seen _ _ Hs i x Es) as (Hl & Hn & [s Hx]). apply sound_see; [done..|].
  intros y [= <-]. split_and!; [done..|]. exists s. split; [done|]. intros k ->.
  assert (answer = Ok tt) as Ha.
  { unfold answer, socket_of in *. simpl. rewrite Hn. destruct (nodes w !! x) as [[[] ? ? ?]|] eqn:En; simplify_eq/=.
    by rewrite En. }
  destruct f as [e'|n]; [|congruence]. destruct (decide (kind e' = ConnectionRefused)); congruence.
Qed.

(** ** Calls that change the endpoint *)

Lemma update_number w x f w' y :
  update x f w = (Ok tt, w') → (∀ n, number (f n) = number n) → number_of w' y = number_of w y.
Proof.
  unfold update. destruct (nodes w !! x) as [nd|] eqn:E; [|done]. intros [= <-] Hf. unfold number_of. simpl.
  rewrite lookup_insert. case_decide as Hxy; [|done]. subst y. rewrite E. simpl. by rewrite Hf.
Qed.

Lemma update_socket w x s w' y :
  update x (set_what (Socket s)) w = (Ok tt, w') → socket_of w' y = if decide (x = y) then Some s else socket_of w y.
Proof.
  unfold update. destruct (nodes w !! x) as [nd|] eqn:E; [|done]. intros [= <-]. unfold socket_of. simpl.
  rewrite lookup_insert. by case_decide.
Qed.

Lemma update_mode w x m w' y : update x (set_mode m) w = (Ok tt, w') → socket_of w' y = socket_of w y.
Proof.
  unfold update. destruct (nodes w !! x) as [nd|] eqn:E; [|done]. intros [= <-]. unfold socket_of. simpl.
  rewrite lookup_insert. case_decide as Hxy; [|done]. subst y. by rewrite E.
Qed.

Lemma update_rest w x f r w' : update x f w = (r, w') → names w' = names w ∧ locks w' = locks w.
Proof. unfold update. destruct (nodes w !! x); by intros [= <- <-]. Qed.

Lemma update_names w x f w' y : update x f w = (Ok tt, w') → is_Some (nodes w !! y) → is_Some (nodes w' !! y).
Proof.
  unfold update. destruct (nodes w !! x) as [nd|] eqn:E; [|done]. intros [= <-] Hy. simpl. rewrite lookup_insert.
  case_decide; [by eexists|done].
Qed.

Lemma chmod_sound w G i f q m r w' :
  sound w G → exec i (pid_of i) user numbering f (Chmod q m) w = (r, w') → sound w' G.
Proof.
  intros Hs He. simpl in He. destruct f as [e|n]; [by simplify_eq|]. destruct (names w !! q) as [x|]; [|by simplify_eq].
  destruct r as [[]|e].
  - destruct (update_rest _ _ _ _ _ He) as [Hn Hl]. apply (sound_unchanged w); [done..|by rewrite Hn| |].
    + intros y. by eapply update_mode.
    + intros y. by eapply update_number.
  - unfold update in He. by destruct (nodes w !! x); simplify_eq.
Qed.

Lemma sound_listen w G i x w' :
  sound w G → own (G i) = Fresh x → seen (G i) = Unseen →
  update x (set_what (Socket (Listening i))) w = (Ok tt, w') → sound w' (upd i (set_own (Live x) (G i)) G).
Proof.
  intros Hs Ho Hv He. destruct (update_rest _ _ _ _ _ He) as [Hn Hl].
  destruct (e_fresh _ _ Hs i x Ho) as (Hlk & Hnx & Hx).
  assert (∀ j, j ≠ i → locked (G j) = false) as Hothers.
  { intros j Hj. apply not_true_is_false. intros H. by apply Hj, (one_holder w G). }
  assert (∀ y, socket_of w' y = if decide (x = y) then Some (Listening i) else socket_of w y) as Hsock by (intros; by apply update_socket).
  assert (∀ y, number_of w' y = number_of w y) as Hnum by (intros; by eapply update_number).
  pose proof (λ y, update_names _ _ _ _ y He) as Hsome.
  destruct Hs. split; rewrite ?Hn, ?Hl.
  - intros j. by_task; eauto.
  - intros j y. destruct (decide (j = i)) as [->|Hj]; unfold upd; [rewrite decide_True by done|rewrite decide_False by done].
    + simpl. intros [= <-]. rewrite Hsock, decide_True; done.
    + intros Hy%e_live0. destruct Hy as [Hy1 Hy2]. simplify_eq.
  - intros j y. by_task; [done|]. intros Hj%e_fresh0. destruct Hj as [Hj _]. by rewrite Hothers in Hj.
  - intros j y. by_task; [done|]. intros Hj%e_given0. destruct Hj as (s & Hs & Hk). rewrite Hsock. case_decide; [|eauto].
    simplify_eq. exfalso. specialize (Hk i). naive_solver.
  - intros j y. by_task; [congruence|]. intros Hj%e_seen0. destruct Hj as [Hj _]. by rewrite Hothers in Hj.
  - intros j y. by_task; [congruence|]. intros Hj%e_dead0. destruct Hj as [Hj _]. by rewrite Hothers in Hj.
  - intros j y n. rewrite Hnum. by_task; [|eauto]. intros Hj%e_guard0. destruct Hj as [_ [?|?]]; congruence.
  - intros y z n. rewrite !Hnum. eauto.
  - eauto.
Qed.

Lemma sound_close w G i x w' :
  sound w G → own (G i) = Fresh x ∨ own (G i) = Live x ∨ own (G i) = Given x →
  update x (set_what (Socket Closed)) w = (Ok tt, w') → sound w' (upd i (set_own (Given x) (G i)) G).
Proof.
  intros Hs Ho He. destruct (update_rest _ _ _ _ _ He) as [Hn Hl].
  assert (∀ s, socket_of w x = Some s → ∀ k, s = Listening k ∨ s = Unlistening k → k = i) as Hmine.
  { destruct Hs. intros s Hx k Hk. destruct Ho as [Ho|[Ho|Ho]].
    - apply e_fresh0 in Ho. naive_solver.
    - apply e_live0 in Ho. naive_solver.
    - apply e_given0 in Ho. naive_solver. }
  assert (∀ y, socket_of w' y = if decide (x = y) then Some Closed else socket_of w y) as Hsock by (intros; by apply update_socket).
  assert (∀ y, number_of w' y = number_of w y) as Hnum by (intros; by eapply update_number).
  pose proof (λ y, update_names _ _ _ _ y He) as Hsome.
  destruct Hs. split; rewrite ?Hn, ?Hl.
  - intros j. by_task; eauto.
  - intros j y. by_task; [done|]. intros Hy%e_live0. destruct Hy as [Hy1 Hy2]. split; [done|]. rewrite Hsock.
    case_decide; [|done]. subst y. specialize (Hmine _ Hy2 j). naive_solver.
  - intros j y. by_task; [done|]. intros Hy%e_fresh0. destruct Hy as (Hy1 & Hy2 & Hy3). split_and!; [done..|]. rewrite Hsock.
    case_decide; [|done]. subst y. specialize (Hmine _ Hy3 j). naive_solver.
  - intros j y. by_task.
    + intros [= <-]. rewrite Hsock, decide_True by done. exists Closed. naive_solver.
    + intros Hj%e_given0. destruct Hj as (s & Hs & Hk). rewrite Hsock. case_decide; [|eauto]. exists Closed. naive_solver.
  - intros j y Hj. assert (seen (G j) = SocketAt y ∧ (locked (G j) = locked (upd i (set_own (Given x) (G i)) G j))) as [Hj' <-] by (unfold upd in *; repeat case_decide; subst; done).
    destruct (e_seen0 j y Hj') as (H1 & H2 & H3). split_and!; [done..|]. rewrite Hsock. case_decide; [by eexists|done].
  - intros j y Hj. assert (seen (G j) = DeadAt y ∧ (locked (G j) = locked (upd i (set_own (Given x) (G i)) G j))) as [Hj' <-] by (unfold upd in *; repeat case_decide; subst; done).
    destruct (e_dead0 j y Hj') as (H1 & H2 & s & H3 & H4). split_and!; [done..|]. rewrite Hsock. case_decide; [|eauto].
    exists Closed. naive_solver.
  - intros j y n. rewrite Hnum. by_task; [|eauto]. intros Hj%e_guard0. destruct Hj as [? Hj]. split; [done|].
    right. destruct Ho as [Ho|[Ho|Ho]], Hj as [Hj|Hj]; congruence.
  - intros y z n. rewrite !Hnum. eauto.
  - eauto.
Qed.

Lemma sound_bind w G i m :
  sound w G → locked (G i) = true → guard (G i) = None → names w !! p = None →
  let x := fresh (dom (nodes w)) in
  sound (create user numbering p (Socket (Unlistening i)) m w).2 (upd i (set_seen Unseen (set_own (Fresh x) (G i))) G).
Proof.
  intros Hs Hl Hg Hp x. set (w' := (create user numbering p (Socket (Unlistening i)) m w).2).
  assert (∀ y, is_Some (nodes w !! y) → socket_of w' y = socket_of w y ∧ number_of w' y = number_of w y) as Hold
    by (intros; by apply created_other).
  assert (names w' !! p = Some x) as Hn by (simpl; by rewrite lookup_insert_eq).
  assert (socket_of w' x = Some (Unlistening i)) as Hx by (unfold socket_of; simpl; by rewrite lookup_insert_eq).
  pose proof (numbers_created w p (Socket (Unlistening i)) m (e_numbers _ _ Hs)) as Hnum. destruct Hs. split; rewrite ?Hn; try done.
  - intros j. by_task; eauto.
  - intros j y. by_task; [done|]. intros Hj%e_live0. destruct Hj. congruence.
  - intros j y. by_task; [naive_solver|]. intros Hj%e_fresh0. naive_solver congruence.
  - intros j y. by_task; [done|]. intros Hj%e_given0. destruct Hj as (s & Hs & Hk). exists s. split; [|done].
    destruct (Hold y) as [-> _]; [by eapply socket_exists|done].
  - intros j y. by_task; [done|]. intros Hj%e_seen0. naive_solver congruence.
  - intros j y. by_task; [done|]. intros Hj%e_dead0. naive_solver congruence.
  - intros j y n. by_task; [congruence|]. intros Hj%e_guard0. destruct Hj as [Hj ?]. split; [|done].
    destruct (Hold y) as [_ ->]; [by eapply number_exists|done].
  - intros y [= <-]. simpl. rewrite lookup_insert_eq. by eexists.
Qed.

Lemma sound_unlink w G i :
  sound w G → asks p (Unlink p) (G i) →
  sound (set_names (delete p (names w)) w) (upd i (set_seen Unseen (set_own (give (own (G i))) (G i))) G).
Proof.
  intros Hs (_ & Hl & Hf & Hv).
  assert (∀ j, j ≠ i → locked (G j) = false) as Hothers.
  { intros j Hj. apply not_true_is_false. intros H. by apply Hj, (one_holder w G). }
  assert (∀ j y, own (G j) = Live y → j = i) as Hnobody.
  { intros j y Hj. destruct (e_live _ _ Hs j y Hj) as [Hn Hy]. destruct Hv as [[x Hx]|(x & Hx & Hx')].
    - destruct (e_dead _ _ Hs i x Hx) as (_ & Hn' & s & Hs' & Hk). simplify_eq. by destruct (Hk j).
    - destruct (e_seen _ _ Hs i x Hx) as (_ & Hn' & _). rewrite Hn in Hn'. injection Hn' as ->. destruct Hx' as [Hx'|Hx'].
      + destruct (e_given _ _ Hs i x Hx') as (s & Hs' & Hk). rewrite Hy in Hs'. injection Hs' as <-. apply Hk. by left.
      + destruct (e_live _ _ Hs i x Hx') as [_ Hy']. rewrite Hy in Hy'. by injection Hy'. }
  destruct Hs. split; try done.
  - intros j. by_task; eauto.
  - intros j y. by_task; [by destruct (own (G i))|]. by intros Hj%Hnobody.
  - intros j y. by_task; [|by intros (Hj & _)%e_fresh0; rewrite Hothers in Hj].
    destruct (own (G i)) eqn:E; try done. by destruct (Hf x).
  - intros j y. by_task; [|eauto]. destruct (own (G i)) as [|x|x|x] eqn:E; try done; intros [= <-]; [|eauto].
    apply e_live0 in E as [_ E]. eexists. split; [exact E|]. naive_solver.
  - intros j y. by_task; [done|]. intros (Hj & _)%e_seen0. by rewrite Hothers in Hj.
  - intros j y. by_task; [done|]. intros (Hj & _)%e_dead0. by rewrite Hothers in Hj.
  - intros j y n. by_task; [|eauto]. intros Hj%e_guard0. destruct Hj as [? [-> | ->]]; simpl; auto.
  - intros y. simpl. by rewrite lookup_delete_eq.
Qed.

Lemma sound_locked w G i :
  sound w G → locks w !! lock_path p = None →
  sound (set_locks (<[lock_path p := i]> (locks w)) w) (upd i (set_locked true (G i)) G).
Proof.
  intros Hs Hn. assert (∀ j, locked (G j) = false) as Hfree.
  { intros j. apply not_true_is_false. intros Hj%(e_lock _ _ Hs). congruence. }
  destruct Hs. split; try done.
  - intros j. simpl. rewrite lookup_insert_eq. by_task; [done|]. by rewrite Hfree.
  - intros j x. by_task; eauto.
  - intros j x. by_task; intros (Hj & _)%e_fresh0; by rewrite Hfree in Hj.
  - intros j x. by_task; eauto.
  - intros j x. by_task; [done|]. intros (Hj & _)%e_seen0. by rewrite Hfree in Hj.
  - intros j x. by_task; [done|]. intros (Hj & _)%e_dead0. by rewrite Hfree in Hj.
  - intros j x n. by_task; eauto.
Qed.

Lemma sound_unlock w G i :
  sound w G → locked (G i) = true → (∀ x, own (G i) ≠ Fresh x) →
  sound (set_locks (delete (lock_path p) (locks w)) w) (upd i (set_locked false (G i)) G).
Proof.
  intros Hs Hl Hf. assert (∀ j, j ≠ i → locked (G j) = false) as Hothers.
  { intros j Hj. apply not_true_is_false. intros H. by apply Hj, (one_holder w G). }
  destruct Hs. split; try done.
  - intros j. by_task; [done|]. by rewrite Hothers.
  - intros j x. by_task; eauto.
  - intros j x. by_task; [by intros ?%Hf|]. intros (Hj & _)%e_fresh0. by rewrite Hothers in Hj.
  - intros j x. by_task; eauto.
  - intros j x. by_task; [done|]. intros (Hj & _)%e_seen0. by rewrite Hothers in Hj.
  - intros j x. by_task; [done|]. intros (Hj & _)%e_dead0. by rewrite Hothers in Hj.
  - intros j x n. by_task; eauto.
Qed.

Lemma crash_socket i w x :
  socket_of (crash i w) x =
  match socket_of w x with
  | Some (Unlistening j) => Some (if decide (i = j) then Closed else Unlistening j)
  | Some (Listening j) => Some (if decide (i = j) then Closed else Listening j)
  | s => s
  end.
Proof.
  unfold socket_of, crash, close_all. simpl. rewrite lookup_fmap. destruct (nodes w !! x) as [[[| | | |[|j|j]] ? ? ?]|]; try done;
    simpl; unfold owned_by; simpl; by destruct (decide (i = j)); [rewrite bool_decide_true|rewrite bool_decide_false].
Qed.

Lemma crash_number i w x : number_of (crash i w) x = number_of w x.
Proof.
  unfold number_of, crash, close_all. simpl. rewrite lookup_fmap. destruct (nodes w !! x) as [nd|]; [|done]. simpl.
  by destruct (owned_by i nd).
Qed.

Lemma sound_crash w G i : sound w G → sound (crash i w) (upd i no_ghost G).
Proof.
  intros []. split.
  - intros j. by_task; [done|]. intros Hj%e_lock0. simpl. by apply map_lookup_filter_Some.
  - intros j x. by_task; [done|]. intros [Hn Hx]%e_live0. split; [done|]. rewrite crash_socket, Hx, decide_False by done. done.
  - intros j x. by_task; [done|]. intros (Hl & Hn & Hx)%e_fresh0. split_and!; [done..|].
    rewrite crash_socket, Hx, decide_False by done. done.
  - intros j x. by_task; [done|]. intros (s & Hs & Hk)%e_given0. rewrite crash_socket, Hs.
    destruct s as [|k|k]; [eauto|..]; case_decide; eauto; exists Closed; naive_solver.
  - intros j x. by_task; [done|]. intros (Hl & Hn & [s Hx])%e_seen0. split_and!; [done..|]. rewrite crash_socket, Hx.
    destruct s as [|k|k]; by eexists.
  - intros j x. by_task; [done|]. intros (Hl & Hn & s & Hx & Hk)%e_dead0. split_and!; [done..|]. rewrite crash_socket, Hx.
    destruct s as [|k|k]; [eauto| |by destruct (Hk k)]. case_decide; eexists; (split; [done|]); done.
  - intros j x n. rewrite crash_number. by_task; [done|]. eauto.
  - intros x y n. rewrite !crash_number. eauto.
  - intros x Hx%e_names0. simpl. unfold close_all. rewrite lookup_fmap. by apply fmap_is_Some.
Qed.

Lemma socket_call_answered {B} w w' G i f (c : call B) r :
  sound w G → asks p c (G i) → exec i (pid_of i) user numbering f c w = (r, w') → answered c r w' G i.
Proof.
  intros Hs Ha He. destruct c; try done; try (assert (w' = w) as -> by by injection He).
  - (* Unlink *) destruct Ha as (-> & Ha). simpl in He.
    assert (r = Ok tt ∧ w' = set_names (delete p (names w)) w ∨ (∃ er, r = Err er) ∧ w' = w) as [[-> ->]|[[er ->] ->]].
    { destruct f as [er|n]; [injection He as <- <-; eauto|]. unfold unlink in He.
      destruct (names w !! p) as [y|]; [|simplify_eq; eauto]. destruct (nodes w !! y) as [[[] ? ? ?]|]; simplify_eq; eauto. }
    + eexists. split; [done|]. apply sound_unlink; done.
    + exists (G i). split; [done|]. by apply sound_still.
  - by eapply lstat_answered.
  - (* Mkdirs *) exists (G i). split; [done|]. apply sound_still. simpl in He. destruct f as [e|n]; [by simplify_eq|].
    destruct (node_at p0 w) as [[[] ? ? ?]|]; simplify_eq; try done. by apply sound_other_file.
  - exists (G i). split; [done|]. apply sound_still. by eapply chmod_sound.
  - (* Lock *) destruct Ha as [-> Hl]. simpl in He. destruct f as [e|n]; [simplify_eq; exists (G i); split; [done|]; by apply sound_still|].
    set (w1 := if decide (is_Some (names w !! lock_path p)) then w else _) in He.
    assert (sound w1 G) as Hs1.
    { unfold w1. destruct (decide (is_Some (names w !! lock_path p))); [done|]. apply sound_other_file; [done|apply lock_path_differs]. }
    destruct (decide (is_Some (locks w1 !! lock_path p))) as [Hk|Hk]; simplify_eq.
    + exists (G i). split; [done|]. by apply sound_still.
    + eexists. split; [done|]. apply sound_locked; [done|]. by apply eq_None_not_Some.
  - (* Unlock *) destruct Ha as (-> & Hl & Hf). injection He as <- <-. rewrite decide_True by by apply (e_lock _ _ Hs).
    eexists. split; [done|]. by apply sound_unlock.
  - (* Bind *) destruct Ha as (-> & Hl & Hg & Ho). simpl in He. destruct f as [e|n]; [simplify_eq; exists (G i); split; [done|]; by apply sound_still|].
    destruct (decide (is_Some (names w !! p))) as [Hn|Hn]; simplify_eq; [exists (G i); split; [done|]; by apply sound_still|].
    eexists. split; [done|]. apply sound_bind; [done..|]. by apply eq_None_not_Some.
  - (* Listen *) destruct Ha as [Ho Hv]. simpl in He. destruct f as [e|n]; [simplify_eq; exists (G i); split; [done|]; by apply sound_still|].
    destruct r as [[]|e]; [|unfold update in He; destruct (nodes w !! i0); simplify_eq; exists (G i); split; [done|]; by apply sound_still].
    eexists. split; [done|]. by eapply sound_listen.
  - by eapply connect_answered.
  - (* Close *) simpl in He. injection He as <- <-.
    assert (∃ w', update i0 (set_what (Socket Closed)) w = (Ok tt, w')) as [w' Hu].
    { assert (is_Some (nodes w !! i0)) as [nd Hn].
      { destruct Ha as [Ho|[Ho|Ho]].
        - apply (e_fresh _ _ Hs) in Ho as (_ & _ & Ho). by eapply socket_exists.
        - apply (e_live _ _ Hs) in Ho as [_ Ho]. by eapply socket_exists.
        - apply (e_given _ _ Hs) in Ho as (s & Ho & _). by eapply socket_exists. }
      unfold update. rewrite Hn. by eexists. }
    rewrite Hu. eexists. split; [done|]. by eapply sound_close.
Qed.
(** ** Daemons side by side *)

Context (platform : Platform) (jobs : list job) (w0 : world).
Hypothesis numbers_differ : ∀ x y n, number_of w0 x = Some n → number_of w0 y = Some n → x = y.
Hypothesis endpoint_leads : ∀ x, names w0 !! p = Some x → is_Some (nodes w0 !! x).

Abbreviation report := (option (result BindError Bound)).

Definition launch : system := System w0 (map (program platform user p) jobs).

Definition disciplined (ts : list (prog report)) (G : nat → ghost) : Prop :=
  ∀ i t, ts !! i = Some t → keeps p (λ g r, ∀ x, r = Some (Ok (Won x)) → own g = Live x) t (G i).

Lemma election_starts : sound w0 (λ _, no_ghost) ∧ disciplined (tasks launch) (λ _, no_ghost).
Proof.
  split; [by split|]. intros i t Ht. simpl in Ht. apply list_lookup_fmap_Some in Ht as (j & -> & _). apply program_keeps.
Qed.

Lemma disciplined_next ts G i t g :
  disciplined ts G → keeps p (λ g r, ∀ x, r = Some (Ok (Won x)) → own g = Live x) t g →
  disciplined (<[i := t]> ts) (upd i g G).
Proof.
  intros Hd Ht j t' Hj. unfold upd. apply list_lookup_insert_Some in Hj as [(-> & <- & _)|[Hne Hj]].
  - by rewrite decide_True.
  - rewrite decide_False by done. by apply Hd.
Qed.

Lemma election_goes_on evs s G :
  sound (shared s) G → disciplined (tasks s) G →
  let s' := happens pid_of user numbering s evs in ∃ G', sound (shared s') G' ∧ disciplined (tasks s') G'.
Proof.
  revert s G. induction evs as [|[i f|i] evs IH]; intros s G Hs Hd; simpl; [by exists G| |].
  - destruct (tasks s !! i) as [[a| |B c k]|] eqn:Et; try by eapply IH. destruct (Hd i _ Et) as [Ha Hk].
    destruct (exec i (pid_of i) user numbering f c (shared s)) as [r w'] eqn:Ee.
    destruct (socket_call_answered _ _ _ _ _ _ _ Hs Ha Ee) as (g' & Hl & Hs').
    apply (IH _ (upd i g' G)); [done|]. apply disciplined_next; [done|]. by apply Hk.
  - apply (IH _ (upd i no_ghost G)); [by apply sound_crash|]. by apply disciplined_next.
Qed.
End election.

(** C4: an election has one winner. However many daemons acquire the endpoint,
    serve, leave and crash, however their calls interleave and whichever of them
    fail, a daemon that won and still serves listens on the socket the endpoint
    leads to, so no other daemon has won and serves, and no daemon that found a
    dead socket or that cleaned up after itself removed this one. Inode numbers
    are not used twice. *)
Theorem election_is_exclusive (p : path) (pid_of : nat → Z) (user : Z) (numbering : world → Z)
    (platform : Platform) (jobs : list job) (w0 : world) (evs : list event) :
  (∀ w x nd, nodes w !! x = Some nd → number nd ≠ numbering w) →
  (∀ x y n, number_of w0 x = Some n → number_of w0 y = Some n → x = y) →
  (∀ x, names w0 !! p = Some x → is_Some (nodes w0 !! x)) →
  let s := happens pid_of user numbering (launch p user platform jobs w0) evs in
  ∀ i x, tasks s !! i = Some (Ret (Some (Ok (Won x)))) →
  names (shared s) !! p = Some x ∧ socket_of (shared s) x = Some (Listening i) ∧
  ∀ j y, tasks s !! j = Some (Ret (Some (Ok (Won y)))) → j = i.
Proof.
  intros Hfresh Hdiff Hlead s i x Hi. destruct (election_starts p user platform jobs w0 Hdiff Hlead) as [Hs0 Hd0].
  destruct (election_goes_on p pid_of user numbering Hfresh evs (launch p user platform jobs w0) _ Hs0 Hd0) as (G & Hs & Hd). fold s in Hs, Hd.
  destruct (e_live _ _ _ Hs i x (Hd i _ Hi x eq_refl)) as [Hn Hx]. split_and!; [done..|].
  intros j y Hj. destruct (e_live _ _ _ Hs j y (Hd j _ Hj y eq_refl)) as [Hn' Hy]. congruence.
Qed.

(** ** A daemon on its own

    What the endpoint is decides what [acquire] answers. *)

Definition what_at (w : world) (p : path) : option contents := what <$> node_at p w.

Section alone.
Context (me : nat) (pid user : Z) (numbering : world → Z).

Abbreviation runs p w := (run me pid user numbering p [] w).

Lemma dir_readied dir d m n w :
  names w !! dir = Some d → nodes w !! d = Some (Node Directory m user n) →
  runs (ensure_private_dir user dir) w = (Some (Ok tt), [], set_nodes (<[d := Node Directory 448 user n]> (nodes w)) w).
Proof.
  intros Hn Hd. assert (node_at dir w = Some (Node Directory m user n)) as Ha by (unfold node_at; by rewrite Hn).
  unfold ensure_private_dir, attempt. simpl. rewrite Ha. simpl. rewrite Ha. simpl. rewrite Z.eqb_refl. simpl. rewrite Hn.
  unfold update. by rewrite Hd.
Qed.

Lemma bind_private_wins p w :
  names w !! p = None →
  let x := fresh (dom (nodes w)) in
  runs (bind_private p) w =
  (Some (Ok x), [], World (<[p := x]> (names w)) (<[x := Node (Socket (Listening me)) 384 user (numbering w)]> (nodes w))
                      (locks w) (counters w)).
Proof.
  intros Hn x. unfold bind_private, listener_bind, attempt. simpl. rewrite decide_False by (rewrite Hn; intros [? [=]]).
  simpl. unfold update. simpl. rewrite lookup_insert_eq. simpl. rewrite lookup_insert_eq. simpl. unfold set_nodes. simpl.
  unfold update. simpl. rewrite lookup_insert_eq. simpl. unfold set_nodes. simpl. by rewrite !insert_insert_eq.
Qed.

Lemma bind_private_loses p w :
  is_Some (names w !! p) → runs (bind_private p) w = (Some (Err (error_of_kind AddrInUse)), [], w).
Proof. intros Hn. unfold bind_private, listener_bind, attempt. simpl. by rewrite decide_True. Qed.

(** What [acquire] makes of the endpoint once it has the bind lock. *)
Lemma endpoint_decides p w :
  (∀ x, names w !! p = Some x → is_Some (nodes w !! x)) →
  let '(r, rest, w') := runs (acquire_locked p) w in
  rest = [] ∧ locks w' = locks w ∧
  match what_at w p with
  | None | Some (Socket Closed) | Some (Socket (Unlistening _)) =>
      ∃ x, r = Some (Ok (Won x)) ∧ nodes w !! x = None ∧ names w' = <[p := x]> (names w) ∧
        nodes w' = <[x := Node (Socket (Listening me)) 384 user
                            (numbering (set_names (delete p (names w)) w))]> (nodes w)
  | Some (Socket (Listening _)) => r = Some (Ok AlreadyRunning) ∧ w' = w
  | Some _ => r = Some (Err (BindFailed (error_of_kind AlreadyExists))) ∧ w' = w
  end.
Proof.
  intros Hlead. unfold acquire_locked. rewrite run_bind.
  assert (∀ w : world, nodes w !! fresh (dom (nodes w)) = None) as Hfresh by (intros; apply not_elem_of_dom, is_fresh).
  destruct (names w !! p) as [y|] eqn:En.
  2: { rewrite bind_private_wins by done. simpl. unfold what_at, node_at. rewrite En. simpl. split_and!; [done..|].
       eexists. split_and!; [done|apply Hfresh|done|]. rewrite delete_id by done. by destruct w. }
  rewrite bind_private_loses by by rewrite En. destruct (Hlead y) as [nd Hy]; [done|].
  pose proof (run_fmap me pid user numbering (λ r, map_err BindFailed (Won <$> r)) (bind_private p) []
                (set_names (delete p (names w)) w)) as Hwin.
  rewrite bind_private_wins in Hwin by (simpl; by rewrite lookup_delete_eq). revert Hwin.
  generalize (bind_private p). intros again Hwin. simpl in Hwin.
  assert (node_at p w = Some nd) as Ha by (unfold node_at; by rewrite En).
  unfold what_at in *. rewrite Ha in *. simpl in *. rewrite Ha. simpl.
  destruct nd as [[d| |t| |s] m u n]; simpl in *; try done.
  rewrite En, Hy. simpl. rewrite Hy. destruct s as [|o|o]; simpl; [| |done].
  all: unfold unlink; rewrite En, Hy; simpl; rewrite Hwin; simpl; split_and!; [done..|].
  all: eexists; split_and!; [done|apply Hfresh|by rewrite insert_delete_eq|done].
Qed.

(** The directory is made private and the lock file is there. *)
Definition readied (w : world) (p : path) (d : nat) (n : Z) : world :=
  let w := set_nodes (<[d := Node Directory 448 user n]> (nodes w)) w in
  let w := if decide (is_Some (names w !! lock_path p)) then w
           else (create user numbering (lock_path p) (Regular []) 384 w).2 in
  set_locks (<[lock_path p := me]> (locks w)) w.

Lemma readied_endpoint w p d m n :
  nodes w !! d = Some (Node Directory m user n) → (∀ x, names w !! p = Some x → is_Some (nodes w !! x)) →
  names (readied w p d n) !! p = names w !! p ∧ what_at (readied w p d n) p = what_at w p ∧
  locks (readied w p d n) = <[lock_path p := me]> (locks w) ∧
  ∀ x, nodes (readied w p d n) !! x = None → nodes w !! x = None.
Proof.
  intros Hd Hlead.
  assert (∀ x, what <$> <[d := Node Directory 448 user n]> (nodes w) !! x = what <$> nodes w !! x) as Hwhat.
  { intros x. rewrite lookup_insert. case_decide; [|done]. subst. by rewrite Hd. }
  assert (∀ x, <[d := Node Directory 448 user n]> (nodes w) !! x = None → nodes w !! x = None) as Hnone.
  { intros x. by rewrite lookup_insert; case_decide. }
  assert (names (readied w p d n) !! p = names w !! p) as Hn.
  { unfold readied. case_decide; [done|]. simpl. rewrite lookup_insert_ne; [done|]. apply lock_path_differs. }
  split_and!; [done| |unfold readied; by case_decide|].
  - unfold what_at, node_at. rewrite Hn. destruct (names w !! p) as [x|] eqn:Ex; [|done]. simpl. destruct (Hlead x) as [nd Hx]; [done|].
    unfold readied. case_decide; simpl; [apply Hwhat|]. rewrite lookup_insert_ne; [apply Hwhat|].
    set (m' := <[d := _]> (nodes w)). intros E. eapply (is_fresh (dom m')). rewrite E. apply elem_of_dom.
    unfold m'. rewrite lookup_insert. case_decide; by eexists.
  - intros x. unfold readied. case_decide; simpl; [apply Hnone|]. rewrite lookup_insert. case_decide; [done|apply Hnone].
Qed.

Lemma lock_free q w :
  locks w !! q = None →
  runs (sys (Lock q)) w =
  (Some (Ok true), [],
   let w := if decide (is_Some (names w !! q)) then w else (create user numbering q (Regular []) 384 w).2 in
   set_locks (<[q := me]> (locks w)) w).
Proof.
  intros Hq. simpl. set (w1 := if decide _ then w else _).
  assert (locks w1 = locks w) as Hl by (unfold w1; by case_decide).
  by rewrite decide_False by (rewrite Hl, Hq; intros [? [=]]).
Qed.
End alone.

(** C7: what the endpoint is decides who serves. A daemon that acquires an endpoint
    whose directory is its user's and whose bind lock is free, and that no other
    call disturbs, wins where there is nothing and where there is a socket nobody
    listens on, and its new socket listens there, private; it reports a daemon that
    listens; it reports an error for any other file, a symbolic link too, and
    leaves that in its place. It gives the bind lock back in every case. *)
Theorem acquire_decides (me : nat) (pid user : Z) (numbering : world → Z) (platform : Platform)
    (p dir : path) (d : nat) (m n : Z) (w : world) :
  check_path platform p = Ok tt → parent p = Some dir → names w !! dir = Some d →
  nodes w !! d = Some (Node Directory m user n) → locks w !! lock_path p = None →
  (∀ x, names w !! p = Some x → is_Some (nodes w !! x)) →
  let '(r, _, w') := run me pid user numbering (acquire platform user p) [] w in
  locks w' = locks w ∧
  match what_at w p with
  | None | Some (Socket Closed) | Some (Socket (Unlistening _)) =>
      ∃ x number, r = Some (Ok (Won x)) ∧ nodes w !! x = None ∧ names w' !! p = Some x ∧
        nodes w' !! x = Some (Node (Socket (Listening me)) 384 user number)
  | Some (Socket (Listening _)) =>
      r = Some (Ok AlreadyRunning) ∧ names w' !! p = names w !! p ∧ what_at w' p = what_at w p
  | Some _ =>
      r = Some (Err (BindFailed (error_of_kind AlreadyExists))) ∧
      names w' !! p = names w !! p ∧ what_at w' p = what_at w p
  end.
Proof.
  intros Hok Hdir Hd Hnode Hlock Hlead. unfold acquire. rewrite Hok, Hdir, run_bind.
  rewrite (dir_readied me pid user numbering dir d m n w) by done.
  destruct (readied_endpoint me user numbering w p d m n) as (Hnames & Hwhat & Hlocks & Hnone); [done..|].
  rewrite run_bind, lock_free by (simpl; exact Hlock). fold (readied me user numbering w p d n).
  rewrite run_bind. pose proof (endpoint_decides me pid user numbering p (readied me user numbering w p d n)) as Hrest.
  destruct (run me pid user numbering (acquire_locked p) [] _) as [[r rest] w'].
  destruct Hrest as (-> & Hl & Hrest).
  { intros x. rewrite Hnames. intros Hx%Hlead. destruct (nodes (readied me user numbering w p d n) !! x) eqn:E; [by eexists|].
    apply Hnone in E. destruct Hx. congruence. }
  rewrite Hwhat in Hrest.
  assert (∀ a : result BindError Bound, run me pid user numbering (sys (Unlock (lock_path p)) ≫= λ _, Ret a) [] w' =
    (Some a, [], set_locks (delete (lock_path p) (locks w')) w')) as Hunlock.
  { intros a. simpl. rewrite decide_True; [done|]. by rewrite Hl, Hlocks, lookup_insert_eq. }
  assert (delete (lock_path p) (locks w') = locks w) as Hback by (by rewrite Hl, Hlocks, delete_insert_eq, delete_id).
  assert (∀ x, names w' = <[p := x]> (names (readied me user numbering w p d n)) → names w' !! p = Some x) as Hnew.
  { intros x ->. by rewrite lookup_insert_eq. }
  assert (w' = readied me user numbering w p d n → names w' !! p = names w !! p ∧ what_at w' p = what_at w p) as Hsame by by intros ->.
  destruct (what_at w p) as [[d'| |t| |[|o|o]]|].
  1-4,7: destruct Hrest as [-> Hw]; rewrite Hunlock; split; [exact Hback|split; [done|exact (Hsame Hw)]].
  all: destruct Hrest as (x & -> & Hx & Hn & Hnd); rewrite Hunlock; split; [exact Hback|]; exists x; eexists.
  all: split_and!; [done|exact (Hnone x Hx)|exact (Hnew x Hn)|simpl; by rewrite Hnd, lookup_insert_eq].
Qed.

(** A socket whose daemon has gone. *)
Definition abandoned : world :=
  World {[ [bs "run"] := 0%nat; [bs "run"; bs "sock"] := 1%nat ]}
    {[ 0%nat := Node Directory 493 1000 1; 1%nat := Node (Socket Closed) 384 1000 2 ]} ∅ ∅.

Lemma acquire_decides_witness :
  let '(r, _, w') := run 5 100 1000 (λ _, 9) (acquire Linux 1000 [bs "run"; bs "sock"]) [] abandoned in
  r = Some (Ok (Won 3%nat)) ∧ names w' !! [bs "run"; bs "sock"] = Some 3%nat.
Proof.
  pose proof (acquire_decides 5 100 1000 (λ _, 9) Linux [bs "run"; bs "sock"] [bs "run"] 0 493 1 abandoned
    eq_refl eq_refl eq_refl eq_refl eq_refl) as H.
  assert ((run 5 100 1000 (λ _, 9) (acquire Linux 1000 [bs "run"; bs "sock"]) [] abandoned).1.1 = Some (Ok (Won 3%nat)))
    as Hwon by (vm_compute; reflexivity).
  revert H Hwon. destruct (run 5 100 1000 (λ _, 9) (acquire Linux 1000 [bs "run"; bs "sock"]) [] abandoned) as [[r f] w'].
  cbn [fst]. intros H Hwon. destruct H as (_ & x & number & Hr & _ & Hn & _).
  - intros x Hx. unfold abandoned in Hx. simpl in Hx.
    apply lookup_insert_Some in Hx as [[_ <-]|[_ [_ <-]%lookup_singleton_Some]]; by eexists.
  - split; [exact Hwon|]. rewrite Hr in Hwon. injection Hwon as ->. exact Hn.
Defined.


(** ** Three daemons at one endpoint *)

Module Daemons.
Definition dir : path := [bs "run"].
Definition endpoint : path := [bs "run"; bs "sock"].
Definition start : world := World {[ dir := 0%nat ]} {[ 0%nat := Node Directory 448 1000 1 ]} ∅ ∅.
Definition pid (i : nat) : Z := 100 + Z.of_nat i.

(** Numbers that are never used twice, and the least number that no file in use has. *)
Definition next_number (w : world) : Z := map_fold (λ _ nd n, Z.max (number nd) n) 0 (nodes w) + 1.

Definition in_use (w : world) : list Z :=
  map (λ '(x, nd), if decide (x ∈ (map_to_list (names w)).*2) then number nd else
       match what nd with Socket (Listening _) | Socket (Unlistening _) => number nd | _ => 0 end) (map_to_list (nodes w)).

Definition least_free (w : world) : Z :=
  default 0 (head (filter (.∉ in_use w) (Z.of_nat <$> seq 1 (S (size (nodes w)))))).

Definition go (i : nat) : event := Step i (Goes 0).
Definition jobs : list job := [Leave false; Serve; Serve].

(** The first daemon serves and closes its listener; the second finds the endpoint
    dead and takes it over; the first drops its guard; the third finds the second
    in service, or wins too. *)
Definition trace : list event :=
  repeat (go 0) 10 ++ repeat (go 1) 15 ++ repeat (go 0) 5 ++ repeat (go 2) 15.

Definition ends (numbering : world → Z) : system :=
  happens pid 1000 numbering (launch endpoint 1000 Linux jobs start) trace.
End Daemons.

Lemma next_number_fresh (w : world) x nd : nodes w !! x = Some nd → number nd ≠ Daemons.next_number w.
Proof.
  intros Hx. unfold Daemons.next_number.
  assert (number nd ≤ map_fold (λ _ nd n, Z.max (number nd) n) 0 (nodes w)); [|lia].
  revert x nd Hx. apply (map_fold_weak_ind (λ r (m : gmap nat node), ∀ x nd, m !! x = Some nd → number nd ≤ r)).
  - intros x nd. by rewrite lookup_empty.
  - intros y nd' m r _ IH x nd [[_ ->]|[_ Hx]]%lookup_insert_Some; [lia|]. apply IH in Hx. lia.
Qed.

Lemma election_is_exclusive_witness :
  names (shared (Daemons.ends Daemons.next_number)) !! Daemons.endpoint = Some 3%nat.
Proof.
  apply (election_is_exclusive Daemons.endpoint Daemons.pid 1000 Daemons.next_number Linux Daemons.jobs Daemons.start
           Daemons.trace) with (i := 1%nat).
  - apply next_number_fresh.
  - intros x y n Hx Hy. unfold number_of, Daemons.start in *. simpl in *.
    apply fmap_Some in Hx as (? & [<- _]%lookup_singleton_Some & _).
    by apply fmap_Some in Hy as (? & [<- _]%lookup_singleton_Some & _).
  - intros x. unfold Daemons.start. simpl. intros [E _]%lookup_singleton_Some. discriminate E.
  - vm_compute. reflexivity.
Defined.

(** A guard can remove the endpoint of a successor. Where the file system
    gives a new file the number of one that is gone, a daemon that closes its
    listener before it drops its guard removes the socket of the daemon that has
    taken over in between: that daemon serves an endpoint nobody can find, and the
    next one wins beside it. *)
Theorem a_late_guard_removes_its_successor :
  let s := Daemons.ends Daemons.least_free in
  tasks s !! 0%nat = Some (Ret None) ∧
  tasks s !! 1%nat = Some (Ret (Some (Ok (Won 3)))) ∧ socket_of (shared s) 3 = Some (Listening 1) ∧
  tasks s !! 2%nat = Some (Ret (Some (Ok (Won 4)))) ∧ names (shared s) !! Daemons.endpoint = Some 4%nat.
Proof. vm_compute. split_and!; reflexivity. Qed.
