(* ===== verification/Process.v ===== *)
(** * Process exit as an event (src/local/process.rs and the files below it)

    A [ProcessHandle] waits for the exit of one process: through a pidfd, a kqueue
    or a Windows process handle ([Module Pidfd], [Kqueue], [WindowsHandle]), or by
    checking its PID. What the operating system does in one call is an interface of
    each platform, with the behaviour its manual documents as laws; the waits are
    the code's loops over those calls. [Module Stat] is the PID check itself. *)
From stdpp Require Import list.
From S2P Require Import Prelude Text Backoff.

(** ** The process that is watched *)

(** [running] says whether the process runs; an exit is for good. [hiccups] counts
    the interruptions and early wake-ups still to come; there are finitely many.
    No code can read either. *)
Class Watched (W : Type) : Type := {
  running : W → bool;
  hiccups : W → nat;
}.

(** What every call on the process keeps: time moves on, the process does not come
    back, and the hiccups do not multiply. *)
Definition moves_on `{ClockLaws W, !Watched W} (w w' : W) : Prop :=
  time w ≤ time w' ∧ (running w' = true → running w = true) ∧ (hiccups w' ≤ hiccups w)%nat.

#[export] Instance moves_on_preorder `{ClockLaws W, !Watched W} : PreOrder (moves_on (W := W)).
Proof.
  split; [by intros w|]. intros a b c (? & ? & ?) (? & ? & ?). unfold moves_on. split_and!; [lia|auto|lia].
Qed.

(** Reading the clock does not disturb the process. *)
Class WatchedClock (W : Type) `{ClockLaws W, !Watched W} : Prop := {
  now_moves w : moves_on w (now w).2;
  sleep_moves d w : moves_on w (sleep d w);
}.

(** What a wait that was asked to end at [deadline] may answer. *)
Definition wait_answer `{ClockLaws W, !Watched W} (deadline : option Z) (w : W) (r : io_result bool) (w' : W) : Prop :=
  moves_on w w' ∧
  match r with
  | Ok true => running w' = false
  | Ok false => running w = true ∧ ∃ d, deadline = Some d ∧ d ≤ time w'
  | Err _ => True
  end.

(** The passes a wait needs: one for each hiccup and each millisecond left. *)
Definition wait_passes `{ClockLaws W, !Watched W} (d : Z) (w : W) : nat :=
  hiccups w + polls (from_millis 1) d w.

(** A wait that goes on from [w3] answers for [w]. *)
Lemma wait_answer_later `{ClockLaws W, !Watched W} deadline (w w3 : W) r w' :
  moves_on w w3 → wait_answer deadline w3 r w' → wait_answer deadline w r w'.
Proof.
  intros Hm [Hm3 Hr]. split; [by etrans|]. destruct r as [[]|e]; [done| |done].
  destruct Hr as [Hr Hd]. split; [|done]. destruct Hm as (_ & Hk & _). auto.
Qed.

(** What a platform gives a handle: a wait on the exit event, cut off after
    [passes]. *)
Class ExitEvent (W : Type) : Type := {
  event_wait : nat → option Z → W → option (io_result bool) * W;
}.

Class ExitEventLaws (W : Type) `{ClockLaws W, !Watched W, !ExitEvent W} : Prop := {
  event_answers passes deadline w r w' :
    event_wait passes deadline w = (Some r, w') → wait_answer deadline w r w';
  event_ends passes d w :
    (wait_passes d w < passes)%nat → is_Some (event_wait passes (Some d) w).1;
}.

(** Whole milliseconds to the deadline, rounded up. *)
Definition millis_until (deadline t : Z) : Z := (saturating_sub deadline t + 999999) / 1000000.

(** A wait of that long does not end before the deadline, nor a millisecond after it. *)
Lemma millis_until_rounds_up deadline t :
  saturating_sub deadline t ≤ from_millis (millis_until deadline t) < saturating_sub deadline t + from_millis 1.
Proof.
  unfold millis_until, from_millis. pose proof (Z.div_mod (saturating_sub deadline t + 999999) 1000000).
  pose proof (Z.mod_pos_bound (saturating_sub deadline t + 999999) 1000000). lia.
Qed.

Lemma wait_passes_mono `{ClockLaws W, !Watched W} d (w w' : W) :
  moves_on w w' → (wait_passes d w' ≤ wait_passes d w)%nat.
Proof.
  intros (Ht & _ & Hh). unfold wait_passes. pose proof (polls_mono (from_millis 1) d d w w').
  unfold from_millis in *. lia.
Qed.

(** A pass that ends before the deadline and lasted a millisecond, or met a
    hiccup, leaves fewer. *)
Lemma wait_passes_less `{ClockLaws W, !Watched W} d (w w' : W) :
  moves_on w w' → time w < d → (hiccups w' < hiccups w)%nat ∨ time w + from_millis 1 ≤ time w' →
  (wait_passes d w' < wait_passes d w)%nat.
Proof.
  intros (Ht & _ & Hh) Hd Hless. unfold wait_passes. pose proof (polls_mono (from_millis 1) d d w w').
  destruct Hless as [?|Hlong]; [unfold from_millis in *; lia|].
  pose proof (polls_wait (from_millis 1) d w w'). unfold from_millis in *. lia.
Qed.

Definition c_int_max : Z := 2 ^ 31 - 1.

(** What opening a process found. *)
Inductive Opened := Watching | Gone | Unsupported.

(** ** pidfd *)

Module Pidfd.
Definition POLLIN : Z := 1.
Definition POLLERR : Z := 8.
Definition POLLHUP : Z := 16.
Definition POLLNVAL : Z := 32.
Definition ESRCH : Z := 3.
Definition EPERM : Z := 1.
Definition ENOSYS : Z := 38.

(** [poll] on the pidfd: the returned events. A timeout below zero is none. *)
Class Poll (W : Type) : Type := { poll : Z → W → io_result Z * W }.

(** poll(2) and pidfd_open(2): the descriptor is readable from the exit on, and a
    call that reports nothing lasted its whole timeout. *)
Class PollLaws (W : Type) `{ClockLaws W, !Watched W, !Poll W} : Prop := {
  poll_moves t w : moves_on w (poll t w).2;
  poll_reports t w revents w' :
    poll t w = (Ok revents, w') → Z.land revents POLLIN ≠ 0 ∨ Z.land revents POLLHUP ≠ 0 → running w' = false;
  poll_bits t w revents w' :
    poll t w = (Ok revents, w') → revents ≠ 0 →
    Z.land revents POLLIN ≠ 0 ∨ Z.land revents POLLHUP ≠ 0 ∨ Z.land revents POLLERR ≠ 0 ∨ Z.land revents POLLNVAL ≠ 0;
  poll_nothing t w w' :
    poll t w = (Ok 0, w') → running w = true ∧ 0 ≤ t ∧ time w + from_millis t ≤ time w';
  poll_interrupted t w e w' :
    poll t w = (Err e, w') → kind e = Interrupted → (hiccups w' < hiccups w)%nat;
}.

(** [opened_after]. *)
Definition opened_after (e : io_error) : io_result Opened :=
  match raw_os_error e with
  | Some n => if n =? ESRCH then Ok Gone else if (n =? ENOSYS) || (n =? EPERM) then Ok Unsupported else Err e
  | None => Err e
  end.

(** [open]; [pidfd_open] answers a new descriptor or the error. *)
Definition open {W} (pidfd_open : Z → W → io_result unit * W) (pid : Z) (w : W) : io_result Opened * W :=
  if c_int_max <? pid then (Err (error_of_kind InvalidInput), w) else
  match pidfd_open pid w with
  | (Ok _, w) => (Ok Watching, w)
  | (Err e, w) => (opened_after e, w)
  end.

Section wait.
Context {W : Type} `{Clock W, !Poll W}.

Definition poll_timeout (deadline : option Z) (t : Z) : Z :=
  match deadline with
  | None => -1
  | Some d => let millis := millis_until d t in if millis <=? c_int_max then millis else c_int_max
  end.

Definition waits_again (deadline : option Z) (t : Z) : bool :=
  match deadline with None => true | Some d => t <? d end.

(** The number in the message is left out. *)
Definition exited_from (revents : Z) : io_result bool :=
  if negb (Z.land revents POLLERR =? 0) || negb (Z.land revents POLLNVAL =? 0)
  then Err (error_other "polling the pidfd failed with events ")
  else Ok (negb (Z.land revents POLLIN =? 0) || negb (Z.land revents POLLHUP =? 0)).

Fixpoint restarting {T} (passes : nat) (call : W → io_result T * W) (w : W) : option (io_result T) * W :=
  match passes with
  | O => (None, w)
  | S passes =>
      match call w with
      | (Err e, w) => if decide (kind e = Interrupted) then restarting passes call w else (Some (Err e), w)
      | (Ok x, w) => (Some (Ok x), w)
      end
  end.

(** One call of [poll], with the timeout of the moment. *)
Definition poll_once (deadline : option Z) (w : W) : io_result Z * W :=
  let '(t, w) := now w in poll (poll_timeout deadline t) w.

Fixpoint wait_readable (passes : nat) (deadline : option Z) (w : W) : option (io_result bool) * W :=
  match passes with
  | O => (None, w)
  | S passes =>
      match restarting (S passes) (poll_once deadline) w with
      | (None, w) => (None, w)
      | (Some (Err e), w) => (Some (Err e), w)
      | (Some (Ok revents), w) =>
          if negb (revents =? 0) then (Some (exited_from revents), w) else
          let '(t, w) := now w in
          if waits_again deadline t then wait_readable passes deadline w
          else (Some (exited_from revents), w)
      end
  end.

#[export] Instance event : ExitEvent W := {| event_wait := wait_readable |}.
End wait.

Section proofs.
Context {W : Type} `{ClockLaws W, !Watched W, !WatchedClock W, !Poll W, !PollLaws W}.

Lemma poll_once_moves deadline (w : W) : moves_on w (poll_once deadline w).2.
Proof.
  unfold poll_once. pose proof (now_moves w) as Hn. destruct (now w) as [t w1]. etrans; [exact Hn|apply poll_moves].
Qed.

(** A restarted call ends where its last attempt, from [w1], ended. *)
Lemma restarting_last {T} passes (call : W → io_result T * W) w r w' :
  (∀ w, moves_on w (call w).2) → restarting passes call w = (Some r, w') →
  ∃ w1, moves_on w w1 ∧ call w1 = (r, w').
Proof.
  intros Hcall. revert w. induction passes as [|n IH]; intros w; simpl; [done|].
  pose proof (Hcall w) as Hw. destruct (call w) as [[x|e] w1] eqn:Ec; simpl in Hw.
  - intros [= <- <-]. by exists w.
  - case_decide; [|intros [= <- <-]; by exists w]. intros (w2 & ? & ?)%IH. exists w2. split; [by etrans|done].
Qed.

Lemma restarting_ends {T} passes (call : W → io_result T * W) w :
  (∀ w e w', call w = (Err e, w') → kind e = Interrupted → (hiccups w' < hiccups w)%nat) →
  (hiccups w < passes)%nat → is_Some (restarting passes call w).1.
Proof.
  intros Hcall. revert w. induction passes as [|n IH]; intros w Hn; [lia|]. simpl.
  destruct (call w) as [[x|e] w1] eqn:Ec; [by eexists|]. case_decide as Hi; [|by eexists].
  apply IH. specialize (Hcall _ _ _ Ec Hi). lia.
Qed.

Lemma exited_from_true revents :
  exited_from revents = Ok true → Z.land revents POLLIN ≠ 0 ∨ Z.land revents POLLHUP ≠ 0.
Proof. unfold exited_from. case_match; [done|]. intros [= E]. bools. destruct E as [E|E]; bools; auto. Qed.

Lemma wait_readable_answers passes deadline (w : W) r w' :
  wait_readable passes deadline w = (Some r, w') → wait_answer deadline w r w'.
Proof.
  revert w. induction passes as [|n IH]; intros w; cbn [wait_readable]; [done|].
  destruct (restarting (S n) (poll_once deadline) w) as [[r1|] w1] eqn:Er; [|done].
  apply restarting_last in Er as (w0 & Hm & Hp); [|apply poll_once_moves].
  unfold poll_once in Hp. pose proof (now_moves w0) as Hn. destruct (now w0) as [t0 w2]. simpl in Hn.
  pose proof (poll_moves (poll_timeout deadline t0) w2) as Hpm. rewrite Hp in Hpm. simpl in Hpm.
  assert (moves_on w w2) as Hw2 by by etrans. assert (moves_on w w1) as Hw1 by by etrans.
  destruct r1 as [revents|e]; [|by intros [= <- <-]].
  destruct (Z.eqb_spec revents 0) as [->|Hne]; cbn [negb].
  - pose proof (now_moves w1) as Hn1. destruct (now w1) as [t w3] eqn:En. apply now_mono in En. simpl in Hn1.
    destruct (poll_nothing _ _ _ Hp) as (Hrun & Ht & Hlast).
    assert (moves_on w w3) as Hw3 by by etrans. destruct (waits_again deadline t) eqn:Ea.
    + intros Hr%IH. by eapply wait_answer_later.
    + intros [= <- <-]. split; [done|]. unfold exited_from. rewrite !Z.land_0_l. simpl.
      destruct deadline as [d|]; [|done]. simpl in Ea. bools. destruct Hw2 as (_ & Hk & _). split; [auto|].
      exists d. split; [done|lia].
  - intros [= <- <-]. split; [done|]. destruct (exited_from revents) as [[]|] eqn:Ex; [| |done].
    + eapply poll_reports; [exact Hp|]. by apply exited_from_true.
    + exfalso. unfold exited_from in Ex. case_match eqn:E; [done|]. injection Ex as Ex.
      destruct (poll_bits _ _ _ _ Hp Hne) as [?|[?|[?|?]]]; bools; lia.
Qed.

Lemma wait_readable_ends passes d (w : W) :
  (wait_passes d w < passes)%nat → is_Some (wait_readable passes (Some d) w).1.
Proof.
  revert w. induction passes as [|n IH]; intros w Hn; [lia|]. cbn [wait_readable].
  assert (is_Some (restarting (S n) (poll_once (Some d)) w).1) as [r1 Hr].
  { apply restarting_ends; [|unfold wait_passes in Hn; lia]. intros w1 e w2 Hp Hk. unfold poll_once in Hp.
    pose proof (now_moves w1) as (_ & _ & Hh). destruct (now w1) as [t w3]. simpl in Hh.
    pose proof (poll_interrupted _ _ _ _ Hp Hk). lia. }
  destruct (restarting _ _ w) as [r w1] eqn:Er. simpl in Hr. subst r.
  destruct r1 as [revents|e]; [|by eexists]. destruct (Z.eqb_spec revents 0) as [->|]; cbn [negb]; [|by eexists].
  apply restarting_last in Er as (w0 & Hm & Hp); [|apply poll_once_moves]. unfold poll_once in Hp.
  pose proof (now_moves w0) as Hn0. destruct (now w0) as [t0 w2] eqn:E0. apply now_mono in E0. simpl in Hn0.
  pose proof (poll_moves (poll_timeout (Some d) t0) w2) as Hpm. rewrite Hp in Hpm. simpl in Hpm.
  pose proof (now_moves w1) as Hn1. destruct (now w1) as [t w3] eqn:En. apply now_mono in En. simpl in Hn1.
  destruct (poll_nothing _ _ _ Hp) as (_ & _ & Hlast).
  destruct (waits_again (Some d) t) eqn:Ea; [|by eexists]. simpl in Ea. bools.
  apply IH. assert (moves_on w w3) as Hw3 by (etrans; [|exact Hn1]; etrans; [|exact Hpm]; by etrans).
  enough (wait_passes d w3 < wait_passes d w)%nat by lia. apply wait_passes_less; [done| |right].
  - destruct Hm, Hn0, Hpm, Hn1. lia.
  - destruct Hm as [Hm _], Hn0 as [Hn0 _], Hpm as [Hpm _], Hn1 as [Hn1 _].
    simpl in Hlast. pose proof (millis_until_rounds_up d t0). unfold saturating_sub in *.
    destruct (millis_until d t0 <=? c_int_max) eqn:El; bools; unfold c_int_max, from_millis in *; lia.
Qed.

#[export] Instance event_laws : ExitEventLaws W.
Proof. split; [apply wait_readable_answers|apply wait_readable_ends]. Qed.
End proofs.
End Pidfd.

(** ** kqueue *)

Module Kqueue.
Definition EV_ERROR : Z := 16384.
Definition NOTE_EXIT : Z := 2147483648.
Definition ESRCH : Z := 3.
Definition EPERM : Z := 1.
Definition EACCES : Z := 13.
Definition time_t_max : Z := 2 ^ 63 - 1.

Record kevent := Kevent { flags : Z; fflags : Z; kdata : Z }.

(** [kevent] without changes: the event taken from the queue, if any. *)
Class Queue (W : Type) : Type := { take_event : option (Z * Z) → W → io_result (option kevent) * W }.

Definition lasting (timeout : Z * Z) : Z := from_secs timeout.1 + timeout.2.

(** kevent(2): an exit of the watched process is in the queue from then on until it
    is taken; nothing is returned only when the timeout is over. *)
Class QueueLaws (W : Type) `{ClockLaws W, !Watched W, !Queue W} : Prop := {
  take_moves t w : moves_on w (take_event t w).2;
  take_exit t w ev w' : take_event t w = (Ok (Some ev), w') → Z.land (fflags ev) NOTE_EXIT ≠ 0 → running w' = false;
  take_other t w ev w' :
    take_event t w = (Ok (Some ev), w') → Z.land (flags ev) EV_ERROR = 0 → Z.land (fflags ev) NOTE_EXIT = 0 →
    (hiccups w' < hiccups w)%nat;
  take_nothing t w w' :
    take_event t w = (Ok None, w') →
    running w = true ∧ ∃ timeout, t = Some timeout ∧ time w + lasting timeout ≤ time w';
  take_interrupted t w e w' : take_event t w = (Err e, w') → kind e = Interrupted → (hiccups w' < hiccups w)%nat;
}.

Definition from_raw_os_error (n : Z) : io_error := IoError Other (Some n) "".

(** [open]: [kqueue] makes a queue and [register] adds the filter. *)
Definition open {W} (kqueue : W → io_result unit * W) (register : Z → W → io_result unit * W) (pid : Z) (w : W)
    : io_result Opened * W :=
  if c_int_max <? pid then (Err (error_of_kind InvalidInput), w) else
  match kqueue w with
  | (Err e, w) => (Err e, w)
  | (Ok _, w) =>
      match register pid w with
      | (Ok _, w) => (Ok Watching, w)
      | (Err e, w) =>
          (if decide (kind e = Interrupted) then Ok Watching else
           match raw_os_error e with
           | Some n =>
               if n =? ESRCH then Ok Gone
               else if (n =? EPERM) || (n =? EACCES) then Ok Unsupported else Err e
           | None => Err e
           end, w)
      end
  end.

Definition timespec (left : Z) : Z * Z :=
  (let secs := left / 1000000000 in if secs <=? time_t_max then secs else time_t_max, left mod 1000000000).

Section wait.
Context {W : Type} `{Clock W, !Queue W}.

Definition timeout_now (deadline : option Z) (w : W) : option (Z * Z) * W :=
  match deadline with
  | None => (None, w)
  | Some d => let '(t, w) := now w in (Some (timespec (saturating_sub d t)), w)
  end.

(** [deadline.is_none_or(|deadline| Instant::now() >= deadline)]. *)
Definition over (deadline : option Z) (w : W) : bool * W :=
  match deadline with None => (true, w) | Some _ => expired deadline w end.

Fixpoint next_exit (passes : nat) (deadline : option Z) (w : W) : option (io_result bool) * W :=
  match passes with
  | O => (None, w)
  | S passes =>
      let '(timeout, w) := timeout_now deadline w in
      match take_event timeout w with
      | (Err e, w) => if decide (kind e = Interrupted) then next_exit passes deadline w else (Some (Err e), w)
      | (Ok None, w) =>
          let '(late, w) := over deadline w in
          if late then (Some (Ok false), w) else next_exit passes deadline w
      | (Ok (Some ev), w) =>
          if negb (Z.land (flags ev) EV_ERROR =? 0) then (Some (Err (from_raw_os_error (kdata ev))), w)
          else if negb (Z.land (fflags ev) NOTE_EXIT =? 0) then (Some (Ok true), w)
          else next_exit passes deadline w
      end
  end.

#[export] Instance event : ExitEvent W := {| event_wait := next_exit |}.
End wait.

Section proofs.
Context {W : Type} `{ClockLaws W, !Watched W, !WatchedClock W, !Queue W, !QueueLaws W}.

Lemma timeout_now_moves deadline (w : W) : moves_on w (timeout_now deadline w).2.
Proof.
  destruct deadline as [d|]; simpl; [|done]. pose proof (now_moves w). by destruct (now w).
Qed.

Lemma over_moves deadline (w : W) : moves_on w (over deadline w).2.
Proof. destruct deadline as [d|]; simpl; [|done]. pose proof (now_moves w). by destruct (now w). Qed.

Lemma next_exit_answers passes deadline (w : W) r w' :
  next_exit passes deadline w = (Some r, w') → wait_answer deadline w r w'.
Proof.
  revert w. induction passes as [|n IH]; intros w; cbn [next_exit]; [done|].
  pose proof (timeout_now_moves deadline w) as Hm1. destruct (timeout_now deadline w) as [t w1] eqn:Et. simpl in Hm1.
  pose proof (take_moves t w1) as Hm2. destruct (take_event t w1) as [[[ev|]|e] w2] eqn:Ee; simpl in Hm2;
    assert (moves_on w w2) as Hw by by etrans.
  - destruct (Z.eqb_spec (Z.land (flags ev) EV_ERROR) 0) as [H1|]; cbn [negb]; [|by intros [= <- <-]].
    destruct (Z.eqb_spec (Z.land (fflags ev) NOTE_EXIT) 0) as [H2|]; cbn [negb].
    + intros Hr%IH. by eapply wait_answer_later.
    + intros [= <- <-]. split; [done|]. by eapply take_exit.
  - pose proof (over_moves deadline w2) as Hm3. destruct (over deadline w2) as [late w3] eqn:Eo. simpl in Hm3.
    assert (moves_on w w3) as Hw3 by by etrans. destruct late.
    + intros [= <- <-]. split; [done|]. destruct (take_nothing _ _ _ Ee) as (Hrun & timeout & -> & _).
      split; [by apply Hm1|]. destruct deadline as [d|]; [|done]. exists d. split; [done|]. by apply expired_true in Eo.
    + intros Hr%IH. by eapply wait_answer_later.
  - case_decide; [|by intros [= <- <-]]. intros Hr%IH. by eapply wait_answer_later.
Qed.

Lemma timespec_lasts d t : Z.min (saturating_sub d t) (from_millis 1) ≤ lasting (timespec (saturating_sub d t)).
Proof.
  unfold timespec, lasting, saturating_sub, from_secs, from_millis. simpl. set (x := Z.max 0 (d - t)).
  pose proof (Z.div_mod x 1000000000). pose proof (Z.mod_pos_bound x 1000000000).
  destruct (Z.leb_spec (x / 1000000000) time_t_max); unfold time_t_max in *; lia.
Qed.

Lemma next_exit_ends passes d (w : W) :
  (wait_passes d w < passes)%nat → is_Some (next_exit passes (Some d) w).1.
Proof.
  revert w. induction passes as [|n IH]; intros w Hn; [lia|]. cbn [next_exit timeout_now].
  pose proof (now_moves w) as Hm1. destruct (now w) as [t w1] eqn:Et. apply now_mono in Et. simpl in Hm1.
  pose proof (take_moves (Some (timespec (saturating_sub d t))) w1) as Hm2.
  destruct (take_event _ w1) as [[[ev|]|e] w2] eqn:Ee; simpl in Hm2;
    assert (moves_on w w2) as Hw by by etrans.
  - destruct (Z.eqb_spec (Z.land (flags ev) EV_ERROR) 0) as [H1|]; cbn [negb]; [|by eexists].
    destruct (Z.eqb_spec (Z.land (fflags ev) NOTE_EXIT) 0) as [H2|]; cbn [negb]; [|by eexists].
    apply IH. pose proof (take_other _ _ _ _ Ee H1 H2). destruct Hm1 as (?&?&?), Hw as (?&?&?).
    unfold wait_passes in *. pose proof (polls_mono (from_millis 1) d d w w2). unfold from_millis in *. lia.
  - pose proof (over_moves (Some d) w2) as Hm3. destruct (over (Some d) w2) as [late w3] eqn:Eo. simpl in Hm3.
    destruct late; [by eexists|]. pose proof (expired_false _ _ _ Eo). apply IH.
    destruct (take_nothing _ _ _ Ee) as (_ & timeout & [= <-] & Hlast). pose proof (timespec_lasts d t).
    enough (wait_passes d w3 < wait_passes d w)%nat by lia.
    destruct Hm1 as [Hm1 _], Hm2 as [Hm2 _]. assert (moves_on w w3) as [Ht ?] by by etrans.
    apply wait_passes_less; [done|lia|right]. destruct Hm3 as [Hm3 _]. unfold saturating_sub, from_millis in *. lia.
  - case_decide as Hk; [|by eexists]. apply IH. pose proof (take_interrupted _ _ _ _ Ee Hk).
    destruct Hm1 as (?&?&?), Hw as (?&?&?).
    unfold wait_passes in *. pose proof (polls_mono (from_millis 1) d d w w2). unfold from_millis in *. lia.
Qed.

#[export] Instance event_laws : ExitEventLaws W.
Proof. split; [apply next_exit_answers|apply next_exit_ends]. Qed.
End proofs.
End Kqueue.

(** ** Windows process handles *)

Module WindowsHandle.
Definition ERROR_INVALID_PARAMETER : Z := 87.
Definition INFINITE : Z := u32_max.
Definition WAIT_OBJECT_0 : Z := 0.
Definition WAIT_TIMEOUT : Z := 258.

(** [WaitForSingleObject], with the error it left. *)
Class WaitObject (W : Type) : Type := { wait_object : Z → W → Z * io_error * W }.

(** The handle is signaled from the exit on. A wait may end early, but not for
    ever. *)
Class WaitObjectLaws (W : Type) `{ClockLaws W, !Watched W, !WaitObject W} : Prop := {
  object_moves ms w : moves_on w (wait_object ms w).2;
  object_signaled ms w e w' : wait_object ms w = (WAIT_OBJECT_0, e, w') → running w' = false;
  object_timed_out ms w e w' :
    wait_object ms w = (WAIT_TIMEOUT, e, w') →
    running w = true ∧ ms ≠ INFINITE ∧ (time w + from_millis ms ≤ time w' ∨ (hiccups w' < hiccups w)%nat);
}.

Definition opened_after (e : io_error) : io_result Opened :=
  if decide (raw_os_error e = Some ERROR_INVALID_PARAMETER) then Ok Gone else Err e.

(** [open]; [open_process] answers a handle or the error. *)
Definition open {W} (open_process : Z → W → io_result unit * W) (pid : Z) (w : W) : io_result Opened * W :=
  match open_process pid w with
  | (Ok _, w) => (Ok Watching, w)
  | (Err e, w) => (opened_after e, w)
  end.

Section wait.
Context {W : Type} `{Clock W, !WaitObject W}.

Definition milliseconds (deadline : option Z) (w : W) : Z * W :=
  match deadline with
  | None => (INFINITE, w)
  | Some d =>
      let '(t, w) := now w in
      let ms := millis_until d t in
      (Z.min (if ms <=? u32_max then ms else INFINITE) (INFINITE - 1), w)
  end.

Fixpoint wait (passes : nat) (deadline : option Z) (w : W) : option (io_result bool) * W :=
  match passes with
  | O => (None, w)
  | S passes =>
      let '(ms, w) := milliseconds deadline w in
      let '(code, e, w) := wait_object ms w in
      if code =? WAIT_OBJECT_0 then (Some (Ok true), w) else
      if code =? WAIT_TIMEOUT then
        let '(late, w) := Kqueue.over deadline w in
        if late then (Some (Ok false), w) else wait passes deadline w
      else (Some (Err e), w)
  end.

#[export] Instance event : ExitEvent W := {| event_wait := wait |}.
End wait.

Section proofs.
Context {W : Type} `{ClockLaws W, !Watched W, !WatchedClock W, !WaitObject W, !WaitObjectLaws W}.

Lemma milliseconds_moves deadline (w : W) : moves_on w (milliseconds deadline w).2.
Proof. destruct deadline as [d|]; simpl; [|done]. pose proof (now_moves w). by destruct (now w). Qed.

Lemma object_wait_answers passes deadline (w : W) r w' :
  wait passes deadline w = (Some r, w') → wait_answer deadline w r w'.
Proof.
  revert w. induction passes as [|n IH]; intros w; cbn [wait]; [done|].
  pose proof (milliseconds_moves deadline w) as Hm1. destruct (milliseconds deadline w) as [ms w1] eqn:Em. simpl in Hm1.
  pose proof (object_moves ms w1) as Hm2. destruct (wait_object ms w1) as [[code e] w2] eqn:Ee. simpl in Hm2.
  assert (moves_on w w2) as Hw by by etrans. destruct (Z.eqb_spec code WAIT_OBJECT_0) as [->|].
  { intros [= <- <-]. split; [done|]. by eapply object_signaled. }
  destruct (Z.eqb_spec code WAIT_TIMEOUT) as [->|]; [|by intros [= <- <-]].
  pose proof (Kqueue.over_moves deadline w2) as Hm3. destruct (Kqueue.over deadline w2) as [late w3] eqn:Eo. simpl in Hm3.
  assert (moves_on w w3) as Hw3 by by etrans. destruct late; [|intros Hr%IH; by eapply wait_answer_later].
  intros [= <- <-]. split; [done|]. destruct (object_timed_out _ _ _ _ Ee) as (Hrun & Hms & _).
  split; [by apply Hm1|]. destruct deadline as [d|].
  - exists d. split; [done|]. by apply expired_true in Eo.
  - by injection Em as <- <-.
Qed.

Lemma object_wait_ends passes d (w : W) :
  (wait_passes d w < passes)%nat → is_Some (wait passes (Some d) w).1.
Proof.
  revert w. induction passes as [|n IH]; intros w Hn; [lia|]. cbn [wait milliseconds].
  pose proof (now_moves w) as Hm1. destruct (now w) as [t w1] eqn:Et. apply now_mono in Et. simpl in Hm1.
  set (ms := Z.min _ _). pose proof (object_moves ms w1) as Hm2. destruct (wait_object ms w1) as [[code e] w2] eqn:Ee.
  simpl in Hm2. destruct (code =? WAIT_OBJECT_0); [by eexists|].
  destruct (Z.eqb_spec code WAIT_TIMEOUT) as [->|]; [|by eexists].
  pose proof (Kqueue.over_moves (Some d) w2) as Hm3. destruct (Kqueue.over (Some d) w2) as [late w3] eqn:Eo. simpl in Hm3.
  destruct late; [by eexists|]. pose proof (expired_false _ _ _ Eo). apply IH.
  destruct (object_timed_out _ _ _ _ Ee) as (_ & _ & Hlast).
  enough (wait_passes d w3 < wait_passes d w)%nat by lia.
  assert (moves_on w w3) as Hw3 by (etrans; [|exact Hm3]; by etrans).
  destruct Hm1 as (? & _ & ?), Hm2 as (? & _ & ?), Hm3 as (? & _ & ?).
  apply wait_passes_less; [done|lia|]. destruct Hlast as [Hlast|Hlast]; [right|left; lia].
  pose proof (millis_until_rounds_up d t). unfold ms, saturating_sub, from_millis, INFINITE in *.
  destruct (Z.leb_spec (millis_until d t) u32_max); unfold u32_max in *; lia.
Qed.

#[export] Instance event_laws : ExitEventLaws W.
Proof. split; [apply object_wait_answers|apply object_wait_ends]. Qed.
End proofs.
End WindowsHandle.

(** ** The PID check *)

Inductive ProcessState := Exited | Alive | Unknown.

#[export] Instance process_state_eq_dec : EqDecision ProcessState.
Proof. solve_decision. Defined.

(** [str::rsplit_once]: around the last occurrence. *)
Fixpoint rsplit_once (pattern l : bytes) : option (bytes * bytes) :=
  match l with
  | [] => None
  | b :: rest =>
      match rsplit_once pattern rest with
      | Some (before, after) => Some (b :: before, after)
      | None => (λ after, ([], after)) <$> strip_prefix pattern l
      end
  end.

Definition starts_with (prefix l : bytes) : bool := bool_decide (is_Some (strip_prefix prefix l)).

Module Stat.
Definition ESRCH : Z := 3.
Definition EPERM : Z := 1.

Definition liveness_from_errno (errno : option Z) : ProcessState :=
  match errno with
  | Some n => if n =? ESRCH then Exited else if n =? EPERM then Alive else Unknown
  | None => Unknown
  end.

(** A line of /proc/<pid>/stat that shows a zombie or a dead process.
    [read_to_string] refuses a file that is not UTF-8. *)
Definition shows_exit (stat : bytes) : bool :=
  is_utf8 stat &&
  match rsplit_once (bs ") ") stat with
  | Some (_, fields) => starts_with (bs "Z ") fields || starts_with (bs "X ") fields
  | None => false
  end.

(** [signal_state]: [read_stat] reads the file, on Linux, and [kill] sends signal
    0 and answers the error number it failed with. *)
Definition signal_state {W} (linux : bool) (read_stat : Z → W → option bytes * W)
    (kill : Z → W → option (option Z) * W) (pid : Z) (w : W) : ProcessState * W :=
  if (pid =? 0) || (c_int_max <? pid) then (Unknown, w) else
  let '(stat, w) := if linux then read_stat pid w else (None, w) in
  if match stat with Some stat => shows_exit stat | None => false end then (Exited, w) else
  match kill pid w with
  | (None, w) => (Alive, w)
  | (Some errno, w) => (liveness_from_errno errno, w)
  end.

Lemma rsplit_once_missing c pattern l : c ∉ l → rsplit_once (c :: pattern) l = None.
Proof.
  induction l as [|b l IH]; intros Hc; [done|]. cbn [rsplit_once]. apply not_elem_of_cons in Hc as [Hb Hl].
  rewrite IH by done. simpl. by rewrite decide_False.
Qed.

Lemma rsplit_once_last c pattern before after :
  c ∉ pattern → c ∉ after → rsplit_once (c :: pattern) (before ++ (c :: pattern) ++ after) = Some (before, after).
Proof.
  intros Hp Ha. induction before as [|b before IH].
  - cbn [app rsplit_once]. rewrite rsplit_once_missing by set_solver. cbn [strip_prefix]. rewrite decide_True by done.
    by rewrite (proj2 (strip_prefix_Some pattern (pattern ++ after) after) eq_refl).
  - cbn [app rsplit_once] in *. by rewrite IH.
Qed.

Lemma starts_with_two a b x y l : starts_with [a; b] (x :: y :: l) = bool_decide (a = x) && bool_decide (b = y).
Proof.
  unfold starts_with. simpl. destruct (decide (a = x)) as [<-|Ha]; [|by rewrite (bool_decide_false (a = x))].
  rewrite (bool_decide_true (a = a)) by done. destruct (decide (b = y)) as [<-|Hb].
  - by rewrite (bool_decide_true (b = b)).
  - by rewrite (bool_decide_false (b = y)).
Qed.
End Stat.

(** A line of the file: the PID, the command name in parentheses and the state
    before the other fields. *)
Definition stat_line (pid comm : bytes) (state : byte) (fields : bytes) : bytes :=
  pid ++ bs " (" ++ comm ++ bs ") " ++ state :: bs " " ++ fields.

(** A zombie is told by its state alone. Whatever the command name of the
    process is, parentheses, spaces and letters that read like a state included,
    the check for an exited process answers by the state field: it holds for a
    zombie and a dead process and for no other state. The line must be UTF-8. *)
Theorem zombies_are_recognised (pid comm : bytes) (state : byte) (fields : bytes) :
  state ≠ ")"%byte → ")"%byte ∉ fields → is_utf8 (stat_line pid comm state fields) = true →
  Stat.shows_exit (stat_line pid comm state fields) = bool_decide (state = "Z"%byte ∨ state = "X"%byte).
Proof.
  intros Hstate Hfields Hutf. unfold Stat.shows_exit. rewrite Hutf. unfold stat_line. cbn [andb].
  replace (pid ++ bs " (" ++ comm ++ bs ") " ++ state :: bs " " ++ fields)
    with ((pid ++ bs " (" ++ comm) ++ bs ") " ++ (state :: bs " " ++ fields)) by by rewrite <- !app_assoc.
  change (bs ") ") with [")"%byte; " "%byte] at 1 2. rewrite Stat.rsplit_once_last by set_solver.
  change (bs "Z ") with ["Z"%byte; " "%byte]. change (bs "X ") with ["X"%byte; " "%byte].
  change (state :: bs " " ++ fields) with (state :: " "%byte :: fields). rewrite !Stat.starts_with_two.
  rewrite !(bool_decide_true (" "%byte = " "%byte)), !andb_true_r by done.
  rewrite bool_decide_or. f_equal; apply bool_decide_ext; naive_solver.
Qed.

Lemma zombies_are_recognised_witness :
  Stat.shows_exit (stat_line (bs "42") (bs "a) Z (b") "S" (bs "1 42 0")) = false ∧
  Stat.shows_exit (stat_line (bs "42") (bs "a) S (b") "Z" (bs "1 42 0")) = true.
Proof.
  rewrite (zombies_are_recognised (bs "42") (bs "a) Z (b") "S" (bs "1 42 0")),
    (zombies_are_recognised (bs "42") (bs "a) S (b") "Z" (bs "1 42 0")) by (vm_compute; set_solver).
  by split.
Defined.

(** A zombie whose name is cut short can read as alive. The kernel cuts a
    command name after 15 bytes, where the name may be in the middle of a
    character; the check then does not read the line at all, and the signal a
    zombie still accepts makes it alive. *)
Theorem a_cut_name_hides_a_zombie :
  let line := stat_line (bs "42") (bs "helper-worker-" ++ ["195"%byte]) "Z" (bs "1 42 0") in
  is_utf8 line = false ∧
  Stat.signal_state true (λ _ (w : unit), (Some line, w)) (λ _ w, (None, w)) 42 tt = (Alive, tt).
Proof. by vm_compute. Qed.

(** ** [ProcessHandle] *)

Module ProcessHandle.
Inductive Source := Event | ExitedSource | Pid.

#[global] Instance source_eq_dec : EqDecision Source.
Proof. solve_decision. Defined.

Record t := mk { pid : Z; source : Source }.

Definition set_source (s : Source) (h : t) : t := mk (pid h) s.

(** [open], with the platform's [sys::open]. *)
Definition open {W} (sys_open : Z → W → io_result Opened * W) (p : Z) (w : W) : io_result t * W :=
  let '(r, w) := sys_open p w in
  ((λ o, mk p match o with Watching => Event | Gone => ExitedSource | Unsupported => Pid end) <$> r, w).

(** [map(drop)]. *)
Definition forget (r : io_result bool) : io_result unit := (λ _, tt) <$> r.

Definition is_pid_only (h : t) : bool := match source h with Pid => true | _ => false end.

Section waits.
Context {W : Type} `{Clock W, !ExitEvent W}.
(** [fallback_state] of the platform, and the passes of each loop. *)
Context (fallback_state : Z → W → ProcessState * W) (passes : nat).

Definition pid_exited (p : Z) (w : W) : io_result bool * W :=
  let '(s, w) := fallback_state p w in
  (match s with
   | Exited => Ok true
   | Alive => Ok false
   | Unknown => Err (error_other "the OS did not say whether the process exited")
   end, w).

Definition pid_wait (p : Z) (deadline : option Z) (w : W) : option (io_result bool) * W :=
  poll passes (pid_exited p) deadline w.

Definition wait_for (deadline : option Z) (h : t) (w : W) : option (io_result bool) * t * W :=
  let '(r, w) := match source h with
                 | Event => event_wait passes deadline w
                 | ExitedSource => (Some (Ok true), w)
                 | Pid => pid_wait (pid h) deadline w
                 end in
  match r with
  | Some (Ok true) => (r, set_source ExitedSource h, w)
  | _ => (r, h, w)
  end.

Definition has_exited (h : t) (w : W) : option (io_result bool) * t * W :=
  let '(t, w) := now w in wait_for (Some t) h w.

Definition wait (h : t) (w : W) : option (io_result unit) * t * W :=
  let '(r, h, w) := wait_for None h w in (forget <$> r, h, w).

Definition wait_until (deadline : Z) (h : t) (w : W) : option (io_result bool) * t * W :=
  wait_for (Some deadline) h w.

Definition process_state (sys_open : Z → W → io_result Opened * W) (p : Z) (w : W) : option ProcessState * W :=
  match open sys_open p w with
  | (Err _, w) => let '(s, w) := fallback_state p w in (Some s, w)
  | (Ok h, w) =>
      match has_exited h w with
      | (None, _, w) => (None, w)
      | (Some (Ok true), _, w) => (Some Exited, w)
      | (Some (Ok false), _, w) => (Some Alive, w)
      | (Some (Err _), _, w) => let '(s, w) := fallback_state p w in (Some s, w)
      end
  end.

Definition process_has_exited (sys_open : Z → W → io_result Opened * W) (p : Z) (w : W) : option bool * W :=
  let '(s, w) := process_state sys_open p w in ((λ s, bool_decide (s = Exited)) <$> s, w).

(** [wait_child]: [try_wait] asks the child itself. The handle is given back. *)
Definition wait_child (try_wait : W → io_result bool * W) (exit : option t) (deadline : Z) (w : W)
    : option (io_result bool) * option t * W :=
  match exit with
  | Some h =>
      if negb (is_pid_only h) then let '(r, h, w) := wait_until deadline h w in (r, Some h, w)
      else let '(r, w) := poll passes try_wait (Some deadline) w in (r, Some h, w)
  | None => let '(r, w) := poll passes try_wait (Some deadline) w in (r, None, w)
  end.

(** [exited]: the event is checked, then again each time the reactor reports the
    descriptor ready; [readable] registers it and waits for that. *)
Fixpoint event_loop (rounds : nat) (readable : W → io_result unit * W) (w : W) : option (io_result unit) * W :=
  match rounds with
  | O => (None, w)
  | S rounds =>
      match readable w with
      | (Err e, w) => (Some (Err e), w)
      | (Ok _, w) =>
          let '(t, w) := now w in
          match event_wait passes (Some t) w with
          | (Some (Ok true), w) => (Some (Ok tt), w)
          | (Some (Ok false), w) => event_loop rounds readable w
          | (Some (Err e), w) => (Some (Err e), w)
          | (None, w) => (None, w)
          end
      end
  end.

Definition event_exited (readable : W → io_result unit * W) (w : W) : option (io_result unit) * W :=
  let '(t, w) := now w in
  match event_wait passes (Some t) w with
  | (Some (Ok true), w) => (Some (Ok tt), w)
  | (Some (Ok false), w) => event_loop passes readable w
  | (Some (Err e), w) => (Some (Err e), w)
  | (None, w) => (None, w)
  end.

Definition exited (readable : W → io_result unit * W) (h : t) (w : W) : option (io_result unit) * t * W :=
  let '(r, w) := match source h with
                 | Event => event_exited readable w
                 | ExitedSource => (Some (Ok tt), w)
                 | Pid => let '(r, w) := poll passes (pid_exited (pid h)) None w in (forget <$> r, w)
                 end in
  match r with
  | Some (Ok _) => (r, set_source ExitedSource h, w)
  | _ => (r, h, w)
  end.
End waits.

(** ** What the waits promise *)

Section proofs.
Context {W : Type} `{ClockLaws W, !Watched W, !WatchedClock W, !ExitEvent W, !ExitEventLaws W}.
Context (fallback_state : Z → W → ProcessState * W).

(** The PID check: it says that the process exited only when it did. A PID that
    was given to another process reads as running. *)
Definition fallback_ok : Prop :=
  ∀ p w, moves_on w (fallback_state p w).2 ∧ ((fallback_state p w).1 = Exited → running (fallback_state p w).2 = false).

(** A handle that remembers an exit is right. *)
Definition remembers (h : t) (w : W) : Prop := source h = ExitedSource → running w = false.

Context (fallback : fallback_ok).

Lemma pid_exited_moves p (w : W) : moves_on w (pid_exited fallback_state p w).2.
Proof. unfold pid_exited. destruct (fallback p w) as [Hm _]. by destruct (fallback_state p w). Qed.

Lemma poll_moves_on (check : W → io_result bool * W) passes pause deadline w :
  (∀ w, moves_on w (check w).2) → moves_on w (poll_from passes check pause deadline w).2.
Proof.
  intros Hc. revert pause w. induction passes as [|n IH]; intros pause w; cbn [poll_from]; [done|].
  pose proof (Hc w) as Hm1. destruct (check w) as [[[]|e] w1]; simpl in Hm1; [done| |done].
  unfold next_pause, overrun. destruct deadline as [d|].
  - pose proof (now_moves w1) as Hm2. destruct (now w1) as [t w2]. simpl in Hm2. assert (moves_on w w2) by by etrans.
    destruct (_ =? 0); [done|]. set (nap := Z.min _ _). pose proof (sleep_moves nap w2) as Hm3.
    pose proof (now_moves (sleep nap w2)) as Hm4. destruct (now (sleep nap w2)) as [t' w3]. simpl in Hm4.
    assert (moves_on w w3) by (etrans; [|exact Hm4]; by etrans). destruct (_ =? 0); [done|]. by etrans; [|apply IH].
  - etrans; [exact Hm1|]. etrans; [apply (sleep_moves pause)|apply IH].
Qed.

(** What [wait_for] answers, and what the handle then remembers. *)
Lemma wait_for_answers passes deadline h (w : W) r h' w' :
  remembers h w → wait_for fallback_state passes deadline h w = (Some r, h', w') →
  moves_on w w' ∧ remembers h' w' ∧ pid h' = pid h ∧
  match r with
  | Ok true => running w' = false ∧ source h' = ExitedSource
  | Ok false => (is_pid_only h = true ∨ running w = true) ∧ ∃ d, deadline = Some d ∧ d ≤ time w'
  | Err _ => True
  end.
Proof using fallback ExitEventLaws0 WatchedClock0.
  intros Hr. unfold wait_for. destruct (source h) eqn:Es.
  - destruct (event_wait passes deadline w) as [[r1|] w1] eqn:Ee; [|done].
    destruct (event_answers _ _ _ _ _ Ee) as [Hm Ha]. unfold remembers.
    destruct r1 as [[]|e]; intros [= <- <- <-]; simpl.
    + by split_and!.
    + split_and!; [done|congruence|done|right; apply Ha|apply Ha].
    + split_and!; [done|congruence|done|done].
  - intros [= <- <- <-]. specialize (Hr Es). split_and!; [done|by intros _|done|done|done].
  - unfold pid_wait. destruct (poll passes (pid_exited fallback_state (pid h)) deadline w) as [[r1|] w1] eqn:Ep; [|done].
    assert (moves_on w w1) as Hm.
    { pose proof (poll_moves_on (pid_exited fallback_state (pid h)) passes FIRST deadline w (pid_exited_moves (pid h))) as Hm.
      unfold poll in Ep. by rewrite Ep in Hm. }
    unfold poll in Ep. apply poll_answer in Ep. unfold remembers, is_pid_only. rewrite Es.
    destruct r1 as [[]|e]; intros [= <- <- <-]; simpl.
    + destruct Ep as [v Ev]. unfold pid_exited in Ev. destruct (fallback (pid h) v) as [_ Hf].
      destruct (fallback_state (pid h) v) as [[] w2]; simplify_eq/=. specialize (Hf eq_refl). by split_and!.
    + split_and!; [done|congruence|done|by left|done].
    + split_and!; [done|congruence|done|done].
Qed.

Lemma wait_for_ends passes d h (w : W) :
  (wait_passes d w < passes)%nat → is_Some (wait_for fallback_state passes (Some d) h w).1.1.
Proof using fallback ExitEventLaws0.
  intros Hn. unfold wait_for. destruct (source h).
  - destruct (event_ends passes d w Hn) as [r Hr]. destruct (event_wait passes (Some d) w) as [r' w1]. simpl in Hr. subst r'.
    destruct r as [[]|]; by eexists.
  - by eexists.
  - assert (is_Some (pid_wait fallback_state passes (pid h) (Some d) w).1) as [r Hr].
    { apply poll_terminates; [|done|unfold wait_passes in Hn; unfold FIRST; lia].
      intros w1. by destruct (pid_exited_moves (pid h) w1). }
    destruct (pid_wait _ _ _ _ w) as [r' w1]. simpl in Hr. subst r'. destruct r as [[]|]; by eexists.
Qed.

(** The asynchronous wait ends only after the exit. *)
Lemma event_loop_exits passes rounds readable (w w' : W) :
  event_loop passes rounds readable w = (Some (Ok tt), w') → running w' = false.
Proof using ExitEventLaws0.
  revert w. induction rounds as [|n IH]; intros w; simpl; [done|].
  destruct (readable w) as [[[]|e] w1]; [|done]. destruct (now w1) as [t w2].
  destruct (event_wait passes (Some t) w2) as [[[[]|e]|] w3] eqn:Ee; try done; [|apply IH].
  intros [= <-]. by apply event_answers in Ee as [_ ?].
Qed.

Lemma exited_exits passes readable h (w : W) h' w' :
  remembers h w → exited fallback_state passes readable h w = (Some (Ok tt), h', w') →
  running w' = false ∧ source h' = ExitedSource.
Proof using fallback ExitEventLaws0.
  intros Hr. unfold exited. destruct (source h) eqn:Es.
  - unfold event_exited. destruct (now w) as [t w1].
    destruct (event_wait passes (Some t) w1) as [[[[]|e]|] w2] eqn:Ee; try done.
    + intros [= <- <-]. split; [|done]. by apply event_answers in Ee as [_ ?].
    + destruct (event_loop _ _ _ w2) as [[[[]|e]|] w3] eqn:El; try done. intros [= <- <-]. split; [|done].
      by eapply event_loop_exits.
  - intros [= <- <-]. split; [by apply Hr|done].
  - destruct (poll passes (pid_exited fallback_state (pid h)) None w) as [[[b|e]|] w1] eqn:Ep; try done. intros [= <- <-].
    split; [|done]. unfold poll in Ep. apply poll_answer in Ep. destruct b; [|by destruct Ep as (? & ? & _)].
    destruct Ep as [v Ev]. unfold pid_exited in Ev. destruct (fallback (pid h) v) as [_ Hf].
    destruct (fallback_state (pid h) v) as [[] w2]; simplify_eq/=. by apply Hf.
Qed.

(** [process_state] says that a process exited only when it did; [sys_open] finds
    it gone only then. *)
Lemma process_state_exited passes sys_open p (w w' : W) :
  (∀ w w', sys_open p w = (Ok Gone, w') → running w' = false) →
  process_state fallback_state passes sys_open p w = (Some Exited, w') → running w' = false.
Proof using fallback ExitEventLaws0 WatchedClock0.
  intros Hopen. unfold process_state, open. destruct (sys_open p w) as [[o|e] w1] eqn:Eo; simpl.
  - set (h := mk p _). unfold has_exited. pose proof (now_moves w1) as Hn. destruct (now w1) as [t w2]. simpl in Hn.
    destruct (wait_for fallback_state passes (Some t) h w2) as [[[[[]|e]|] h'] w3] eqn:Ew; try done.
    + intros [= <-]. apply wait_for_answers in Ew as (_ & _ & _ & [? _]); [done|]. intros Hs. unfold h in Hs. destruct o; try done.
      apply Hopen in Eo. destruct (running w2) eqn:E2; [|done]. destruct Hn as (_ & Hn & _). by rewrite Hn in Eo.
    + destruct (fallback p w3) as [_ Hf]. destruct (fallback_state p w3) as [s w4]. intros [= -> <-]. by apply Hf.
  - destruct (fallback p w1) as [_ Hf]. destruct (fallback_state p w1) as [s w4]. intros [= -> <-]. by apply Hf.
Qed.
End proofs.
End ProcessHandle.


(** ** A process that exits at a given time *)

Module Simulated.
(** [log] is what a parent did with it. *)
Record log := Log { was_reaped : bool; times_killed : nat; has_reaper : bool }.
Record t := mk { clock : Z; exit_at : option Z; interrupts : nat; parent_log : log }.

Definition runs (w : t) : bool := match exit_at w with Some e => clock w <? e | None => true end.
Definition at_time (n : Z) (w : t) : t := mk (Z.max (clock w) n) (exit_at w) (interrupts w) (parent_log w).

#[global] Instance clock_ : Clock t := {
  now w := (clock w, w);
  sleep d w := at_time (clock w + d) w;
  sleep_until n w := at_time n w;
}.

#[global, refine] Instance clock_laws : ClockLaws t := { time := clock }.
Proof. all: intros; simpl; lia. Defined.

#[global] Instance watched : Watched t := { running := runs; hiccups := interrupts }.

Lemma at_time_moves n w : moves_on w (at_time n w).
Proof.
  unfold moves_on. simpl. split_and!; [lia| |lia]. unfold runs. simpl. destruct (exit_at w) as [e|]; [|done].
  intros Hr. bools. apply Z.ltb_lt. lia.
Qed.

#[global] Instance watched_clock : WatchedClock t.
Proof. split; intros; simpl; [done|apply at_time_moves]. Qed.

(** Blocks until the exit, or for a time: the exit was seen, nothing was, or the
    call was interrupted. *)
Inductive blocked := Seen | Nothing | Broken.

Definition block (timeout : option Z) (w : t) : blocked * t :=
  match interrupts w with
  | S n => (Broken, mk (clock w) (exit_at w) n (parent_log w))
  | O =>
      match exit_at w, timeout with
      | Some e, None => (Seen, at_time e w)
      | Some e, Some n => if e <=? clock w + Z.max 0 n then (Seen, at_time e w) else (Nothing, at_time (clock w + n) w)
      | None, Some n => (Nothing, at_time (clock w + n) w)
      | None, None => (Nothing, w)
      end
  end.

Lemma block_moves n w : moves_on w (block n w).2.
Proof.
  unfold block. destruct (interrupts w) eqn:E.
  - repeat case_match; simpl; try apply at_time_moves. done.
  - unfold moves_on. simpl. split_and!; [lia|done|lia].
Qed.

Lemma block_seen n w w' : block n w = (Seen, w') → runs w' = false.
Proof.
  unfold block. destruct (interrupts w); [|done]. destruct (exit_at w) as [e|] eqn:Ee; [|by destruct n].
  assert (runs (at_time e w) = false) as Hr by (unfold runs; simpl; rewrite Ee; apply Z.ltb_ge; lia).
  destruct n as [n|]; [case_match; [|done]|]; by intros [= <-].
Qed.

Lemma block_nothing n w w' : block (Some n) w = (Nothing, w') → runs w = true ∧ clock w + n ≤ clock w'.
Proof.
  unfold block. destruct (interrupts w); [|done]. unfold runs. destruct (exit_at w) as [e|] eqn:Ee.
  - destruct (Z.leb_spec e (clock w + Z.max 0 n)); [done|]. intros [= <-]. simpl. split; [apply Z.ltb_lt; lia|lia].
  - intros [= <-]. simpl. split; [done|lia].
Qed.

Lemma block_broken n w w' : block n w = (Broken, w') → (interrupts w' < interrupts w)%nat.
Proof. unfold block. destruct (interrupts w); [repeat case_match; done|]. intros [= <-]. simpl. lia. Qed.

Definition forever : io_error := error_other "no event will come".

#[global] Instance polls_ : Pidfd.Poll t := {
  Pidfd.poll ms w :=
    match block (if ms <? 0 then None else Some (from_millis ms)) w with
    | (Seen, w) => (Ok Pidfd.POLLIN, w)
    | (Nothing, w) => (if ms <? 0 then Err forever else Ok 0, w)
    | (Broken, w) => (Err (error_of_kind Interrupted), w)
    end }.

#[global] Instance poll_laws : Pidfd.PollLaws t.
Proof.
  split.
  - intros ms w. simpl. pose proof (block_moves (if ms <? 0 then None else Some (from_millis ms)) w). by destruct (block _ w) as [[] ?].
  - intros ms w revents w'. simpl. destruct (block _ w) as [[] w1] eqn:E; [|by case_match; intros [= <- <-] [[]|[]]|done].
    intros [= <- <-] _. by eapply block_seen.
  - intros ms w revents w'. simpl. destruct (block _ w) as [[] w1] eqn:E; [|by case_match; intros [= <- <-] []|done].
    intros [= <- <-] _. by left.
  - intros ms w w'. simpl. destruct (Z.ltb_spec ms 0); destruct (block _ w) as [[] w1] eqn:E; try done.
    intros [= <-]. apply block_nothing in E as [? ?]. split_and!; [done|lia|done].
  - intros ms w e w'. simpl. destruct (block _ w) as [[] w1] eqn:E; [done|by case_match; [intros [= <- <-]|]|].
    intros [= <- <-] _. by eapply block_broken.
Qed.

#[global] Instance queue : Kqueue.Queue t := {
  Kqueue.take_event timeout w :=
    match block (Kqueue.lasting <$> timeout) w with
    | (Seen, w) => (Ok (Some (Kqueue.Kevent 0 Kqueue.NOTE_EXIT 0)), w)
    | (Nothing, w) => (match timeout with None => Err forever | Some _ => Ok None end, w)
    | (Broken, w) => (Err (error_of_kind Interrupted), w)
    end }.

#[global] Instance queue_laws : Kqueue.QueueLaws t.
Proof.
  split.
  - intros n w. simpl. pose proof (block_moves (Kqueue.lasting <$> n) w). by destruct (block _ w) as [[] ?].
  - intros n w ev w'. simpl. destruct (block _ w) as [[] w1] eqn:E; [|by destruct n|done].
    intros [= <- <-] _. by eapply block_seen.
  - intros n w ev w'. simpl. destruct (block _ w) as [[] w1] eqn:E; [|by destruct n|done]. by intros [= <- <-].
  - intros n w w'. simpl. destruct n as [n|]; simpl; destruct (block _ w) as [[] w1] eqn:E; try done.
    intros [= <-]. apply block_nothing in E as [? ?]. eauto.
  - intros n w e w'. simpl. destruct (block _ w) as [[] w1] eqn:E; [done|by destruct n; [|intros [= <- <-]]|].
    intros [= <- <-] _. by eapply block_broken.
Qed.

#[global] Instance object : WindowsHandle.WaitObject t := {
  WindowsHandle.wait_object ms w :=
    match block (if ms =? WindowsHandle.INFINITE then None else Some (from_millis ms)) w with
    | (Seen, w) => (WindowsHandle.WAIT_OBJECT_0, forever, w)
    | (Nothing, w) => (if ms =? WindowsHandle.INFINITE then 1 else WindowsHandle.WAIT_TIMEOUT, forever, w)
    | (Broken, w) => (1, forever, w)
    end }.

#[global] Instance object_laws : WindowsHandle.WaitObjectLaws t.
Proof.
  split.
  - intros ms w. simpl. pose proof (block_moves (if ms =? WindowsHandle.INFINITE then None else Some (from_millis ms)) w).
    by destruct (block _ w) as [[] ?].
  - intros ms w e w'. simpl. destruct (block _ w) as [[] w1] eqn:E; [|by case_match|done].
    intros [= <- <-]. by eapply block_seen.
  - intros ms w e w'. simpl. destruct (Z.eqb_spec ms WindowsHandle.INFINITE); destruct (block _ w) as [[] w1] eqn:E; try done.
    intros [= <- <-]. apply block_nothing in E as [? ?]. split_and!; [done..|by left].
Qed.

Definition fallback (p : Z) (w : t) : ProcessState * t := (if runs w then Alive else Exited, w).

Lemma fallback_fits : ProcessHandle.fallback_ok fallback.
Proof. intros p w. split; [done|]. simpl. by destruct (runs w) eqn:E. Qed.
End Simulated.

