(* ===== verification/ThreadPool.v ===== *)
(** * Waiting for a process on the Windows thread pool (src/local/process/windows.rs)

    [Event::exited] registers a thread-pool wait whose callback wakes the task through
    a [Notify] in an [Arc]; the callback holds a raw pointer to it. The task, the
    callback's thread and the process run concurrently: [step] is one step of one of
    them. *)
From stdpp Require Import list relations.
From S2P Require Import Prelude.

(** ** The state *)

(** What the thread pool does with the registered wait. [Notified]: the callback has
    called [notify_one] and not returned yet. [NoWait]: none is registered. *)
Inductive wait_state := NoWait | Armed | Running | Notified | Returned.

#[export] Instance wait_state_eq_dec : EqDecision wait_state.
Proof. solve_decision. Defined.

(** What a call of [exited] answered; [None] is no call, or one that was cancelled. *)
Definition answer : Type := option (io_result unit).

(** Where the task is: between calls; in [Registration::new]; in [notified().await],
    where it waits in the queue of the [Notify] once it has been polled; in
    [UnregisterWaitEx]; past it. *)
Inductive place :=
  | Idle (a : answer)
  | Registering
  | Waiting (queued : bool)
  | Unregistering (a : answer)
  | Releasing (a : answer).

(** [exited] is the process's state; [open] says whether the handle to it is open,
    which it is until [source] becomes [Source::Exited]. [refs] counts the references
    to the [Notify], which is freed with the last, and [permit] is the one it has
    stored or given to the waiter. [woken] says that the task will be polled.
    [misused] records a use of a freed [Notify] or of a closed handle. *)
Record state := State {
  exited : bool; open : bool; at_ : place; refs : nat; permit : bool; callback : wait_state;
  woken : bool; misused : bool;
}.

(** A process that runs, and a handle to it. *)
Definition start : state := State false true (Idle None) 0 false NoWait false false.

(** ** The steps *)

Inductive event :=
  | ExitEvent
  | Call (signaled : io_result bool)
  | Register (r : io_result unit)
  | Poll
  | Cancel
  | Unregistered
  | Release
  | Begin
  | Notify
  | Return.

(** [Arc::drop]. *)
Definition drop_ref (s : state) : state :=
  State (exited s) (open s) (at_ s) (pred (refs s)) (permit s) (callback s) (woken s) (misused s).

Definition move (p : place) (s : state) : state :=
  State (exited s) (open s) p (refs s) (permit s) (callback s) (woken s) (misused s).

(** A call that ends: [ProcessHandle::exited] turns its source into [Source::Exited],
    which closes the handle. *)
Definition finish (a : answer) (s : state) : state :=
  State (exited s) (match a with Some (Ok _) => false | _ => open s end) (Idle a) (refs s) (permit s) (callback s)
    (woken s) (misused s).

(** [Event::exited] up to the registration: the handle is asked without waiting; if
    the process runs there are a [Notify] and two references to it, [exited] and
    [context]. A handle whose process exited before answers at once. *)
Definition call (signaled : io_result bool) (s : state) : option state :=
  if open s then
    match signaled with
    | Ok true => if exited s then Some (finish (Some (Ok tt)) s) else None
    | Ok false =>
        if exited s then None else
        Some (State (exited s) (open s) Registering 2 false NoWait (woken s) (misused s))
    | Err e => Some (finish (Some (Err e)) s)
    end
  else Some (finish (Some (Ok tt)) s).

(** [Registration::new]: a failed registration gives its reference back, and the call
    the other. *)
Definition register (r : io_result unit) (s : state) : state :=
  match r with
  | Ok _ => State (exited s) (open s) (Waiting false) (refs s) (permit s) Armed true (misused s)
  | Err e => finish (Some (Err e)) (drop_ref (drop_ref s))
  end.

(** A poll of [notified()] takes a permit or enters the queue. *)
Definition poll (s : state) : state :=
  if permit s then State (exited s) (open s) (Unregistering (Some (Ok tt))) (refs s) false (callback s) false (misused s)
  else State (exited s) (open s) (Waiting true) (refs s) (permit s) (callback s) false (misused s).

(** [UnregisterWaitEx] with [INVALID_HANDLE_VALUE] returns once no callback runs; none
    starts after. *)
Definition unregistered (a : answer) (s : state) : option state :=
  if bool_decide (callback s = Running ∨ callback s = Notified) then None else
  Some (State (exited s) (open s) (Releasing a) (refs s) (permit s) NoWait (woken s) (misused s)).

(** The rest of [Registration::drop], and the drop of [exited]. *)
Definition release (a : answer) (s : state) : state := finish a (drop_ref (drop_ref s)).

(** A step of the callback, which uses the [Notify]. *)
Definition use (c : wait_state) (s : state) : state :=
  State (exited s) (open s) (at_ s) (refs s) (permit s) c (woken s)
    (misused s || bool_decide (refs s = 0%nat) || negb (open s)).

(** [notify_one]: a waiter in the queue is woken. *)
Definition notify (s : state) : state :=
  let s := use Notified s in
  State (exited s) (open s) (at_ s) (refs s) true (callback s)
    (match at_ s with Waiting true => true | _ => woken s end) (misused s).

Definition step (e : event) (s : state) : option state :=
  match e, at_ s with
  | ExitEvent, _ =>
      if exited s then None else
      Some (State true (open s) (at_ s) (refs s) (permit s) (callback s) (woken s) (misused s))
  | Call signaled, Idle _ => call signaled s
  | Register r, Registering => Some (register r s)
  | Poll, Waiting _ => Some (poll s)
  | Cancel, Waiting _ => Some (move (Unregistering None) s)
  | Unregistered, Unregistering a => unregistered a s
  | Release, Releasing a => Some (release a s)
  | Begin, _ => if bool_decide (callback s = Armed) && exited s then Some (use Running s) else None
  | Notify, _ => if bool_decide (callback s = Running) then Some (notify s) else None
  | Return, _ => if bool_decide (callback s = Notified) then Some (use Returned s) else None
  | _, _ => None
  end.

Definition steps (s s' : state) : Prop := ∃ e, step e s = Some s'.
Definition reachable : state → Prop := rtc steps start.

(** Steps that the system takes unasked: the runtime polls a task that was woken. *)
Definition unasked (e : event) (s : state) : bool :=
  match e with
  | ExitEvent | Call _ | Cancel => false
  | Poll => woken s
  | _ => true
  end.

(** ** No callback outlives its [Notify] *)

(** A wait that is registered, with its two references. *)
Definition registered (s : state) : Prop :=
  refs s = 2%nat ∧ open s = true ∧ callback s ≠ NoWait ∧ (callback s ≠ Armed → exited s = true) ∧
  (permit s = true → callback s = Notified ∨ callback s = Returned).

Definition good_answer (a : answer) (s : state) : Prop := a = Some (Ok tt) → exited s = true.

Record inv (s : state) : Prop := {
  inv_misused : misused s = false;
  inv_open : open s = false → exited s = true;
  inv_at : match at_ s with
           | Idle a => refs s = 0%nat ∧ callback s = NoWait ∧ good_answer a s
           | Registering => refs s = 2%nat ∧ callback s = NoWait ∧ open s = true ∧ permit s = false
           | Waiting queued =>
               registered s ∧ (callback s = Notified ∨ callback s = Returned → permit s = true) ∧
               (permit s = true ∨ queued = false → woken s = true)
           | Unregistering a => registered s ∧ good_answer a s
           | Releasing a => refs s = 2%nat ∧ callback s = NoWait ∧ open s = true ∧ good_answer a s
           end;
}.

Ltac step_cases :=
  repeat match goal with
  | H : Some _ = Some _ |- _ => injection H as <-
  | H : None = Some _ |- _ => discriminate H
  | H : context [match ?x with _ => _ end] |- _ => destruct x eqn:?; try discriminate H
  end.

Lemma inv_start : inv start.
Proof. by split. Qed.

(** A callback that is registered finds its [Notify] alive. *)
Lemma callback_registered s : inv s → callback s ≠ NoWait → registered s.
Proof. intros [_ _ Ha] Hc. destruct (at_ s); naive_solver. Qed.

(** The callback's steps other than [notify_one]: [p] says whether it has been called. *)
Lemma inv_use c p s :
  inv s → callback s ≠ NoWait → exited s = true →
  (p = false → callback s = Armed ∧ c = Running) → (p = true → callback s = Notified ∧ c = Returned) →
  inv (use c s).
Proof.
  intros Hi Hc He Hr Hn. pose proof (callback_registered s Hi Hc) as (Hrefs & Hopen & _ & _ & Hp).
  destruct Hi as [Hm Ho Ha]. split; simpl; [by rewrite Hm, Hrefs, Hopen|done|].
  assert (c ≠ NoWait) as Hc' by (destruct p; [destruct Hn|destruct Hr]; congruence).
  assert (registered (use c s)) as Hreg.
  { unfold registered. simpl. split_and!; try done. intros Hpt%Hp.
    destruct p; [right; by apply Hn|]. destruct Hr as [Hr _]; [done|]. rewrite Hr in Hpt. by destruct Hpt. }
  destruct (at_ s).
  - by destruct Ha as (_ & Hw & _).
  - by destruct Ha as (_ & Hw & _).
  - destruct Ha as (_ & Hpe & Hw). split_and!; [exact Hreg| |done]. intros Hcs. destruct p.
    + apply Hpe. left. by apply Hn.
    + destruct Hr as [_ ->]; [done|]. by destruct Hcs.
  - destruct Ha as [_ Hg]. by split.
  - by destruct Ha as (_ & Hw & _).
Qed.

Lemma inv_step e s s' : inv s → step e s = Some s' → inv s'.
Proof.
  intros Hi Hs. pose proof Hi as [Hm Ho Ha].
  destruct e; simpl in Hs.
  - destruct (exited s) eqn:He; [done|]. injection Hs as <-. split; simpl; [done..|].
    destruct (at_ s); unfold registered, good_answer in *; simpl; intuition.
  - destruct (at_ s) eqn:Hat; try done. destruct Ha as (Hr & Hc & _). unfold call in Hs.
    step_cases; split; simpl; unfold good_answer; intuition congruence.
  - destruct (at_ s) eqn:Hat; try done. destruct Ha as (Hr & Hc & Hop & Hp). destruct r; injection Hs as <-; split; simpl;
      unfold registered, good_answer; simpl; rewrite ?Hr, ?Hp; intuition congruence.
  - destruct (at_ s) eqn:Hat; try done. destruct Ha as ((Hr & Hop & Hc & He & Hp) & Hpe & Hw). unfold poll in Hs.
    destruct (permit s) eqn:Hpt; injection Hs as <-; split; simpl; unfold registered, good_answer; simpl; try done.
    + split_and!; try done. intros _. apply He. destruct (Hp eq_refl) as [-> | ->]; done.
    + split_and!; try done. intros [?|?]; done.
  - destruct (at_ s) eqn:Hat; try done. injection Hs as <-. destruct Ha as (Hreg & _). by split.
  - destruct (at_ s) eqn:Hat; try done. unfold unregistered in Hs. destruct Ha as ((Hr & Hop & _) & Hg).
    case_bool_decide; [done|]. injection Hs as <-. by split.
  - destruct (at_ s) eqn:Hat; try done. destruct Ha as (Hr & Hc & Hop & Hg). injection Hs as <-.
    split; simpl; [done| |by rewrite Hr]. intros Hcl. apply Hg. destruct a as [[[]|e]|]; [done|congruence..].
  - case_bool_decide as Hc; [|done]. destruct (exited s) eqn:He; [|done]. injection Hs as <-.
    apply (inv_use _ false); intuition congruence.
  - case_bool_decide as Hc; [|done]. injection Hs as <-.
    assert (registered s) as (Hr & Hop & _ & He & _) by (apply callback_registered; [exact Hi|congruence]).
    split; simpl; [by rewrite Hm, Hr, Hop|done|].
    destruct (at_ s) as [| |q| |]; unfold registered in *; simpl in *; [intuition congruence|intuition congruence| |intuition congruence|intuition congruence].
    destruct Ha as (Hreg & Hpe & Hw). destruct q; intuition congruence.
  - case_bool_decide as Hc; [|done]. injection Hs as <-.
    assert (registered s) as (_ & _ & _ & He & _) by (apply callback_registered; [exact Hi|congruence]).
    apply (inv_use _ true); try congruence; [apply He; congruence|by intros _].
Qed.

(** ** A wait ends *)

(** The steps the system has still to take. *)
Definition work (s : state) : nat :=
  match at_ s with
  | Idle _ => 0 | Registering => 11 | Waiting _ => if woken s then 5 else 4 | Unregistering _ => 2 | Releasing _ => 1
  end +
  match callback s with NoWait => 0 | Armed => 5 | Running => 4 | Notified => 2 | Returned => 1 end.

Lemma work_decreases e s s' : inv s → unasked e s = true → step e s = Some s' → (work s' < work s)%nat.
Proof.
  intros Hi Hu Hs. destruct e; try discriminate Hu; unfold work; simpl in Hs, Hu.
  - destruct (at_ s) eqn:Hat; try done. pose proof (inv_at s Hi) as Ha. rewrite Hat in Ha. destruct Ha as (_ & Hc & _).
    rewrite Hc. destruct r; injection Hs as <-; simpl; rewrite ?Hc; lia.
  - destruct (at_ s) eqn:Hat; try done. unfold poll in Hs. rewrite Hu. destruct (permit s); injection Hs as <-; simpl; lia.
  - destruct (at_ s) eqn:Hat; try done. unfold unregistered in Hs. case_bool_decide; [done|]. injection Hs as <-. simpl. lia.
  - destruct (at_ s) eqn:Hat; try done. injection Hs as <-. simpl. lia.
  - case_bool_decide as Hc; [|done]. destruct (exited s); [|done]. injection Hs as <-. rewrite Hc. simpl. lia.
  - case_bool_decide as Hc; [|done]. injection Hs as <-. rewrite Hc. simpl. destruct (at_ s) as [| |[]| |]; simpl; try destruct (woken s); lia.
  - case_bool_decide as Hc; [|done]. injection Hs as <-. rewrite Hc. simpl. lia.
Qed.

(** While the process runs, only a task that waits for it rests. *)
Lemma system_goes_on s :
  inv s → (∀ a, at_ s ≠ Idle a) → exited s = true ∨ (∀ queued, at_ s ≠ Waiting queued) →
  ∃ e s', unasked e s = true ∧ step e s = Some s'.
Proof.
  intros Hi Hn Hx. pose proof Hi as [_ _ Ha].
  assert (callback s = Running → ∃ e s', unasked e s = true ∧ step e s = Some s') as Hrun.
  { intros Hc. exists Notify. eexists. split; [done|]. simpl. by rewrite bool_decide_true. }
  assert (callback s = Notified → ∃ e s', unasked e s = true ∧ step e s = Some s') as Hnot.
  { intros Hc. exists Return. eexists. split; [done|]. simpl. by rewrite bool_decide_true. }
  destruct (at_ s) as [a| |q|a|a] eqn:Hat.
  - by destruct (Hn a).
  - exists (Register (Ok tt)). eexists. split; [done|]. simpl. by rewrite Hat.
  - destruct Hx as [Hx|Hx]; [|by destruct (Hx q)]. destruct Ha as ((_ & _ & Hc & _) & Hpe & Hw).
    destruct (callback s) eqn:Hcb; [done| |by apply Hrun|by apply Hnot|].
    + exists Begin. eexists. split; [done|]. simpl. by rewrite Hcb, Hx.
    + exists Poll. eexists. split; [simpl; auto|]. simpl. by rewrite Hat.
  - destruct (callback s) eqn:Hcb; try (by apply Hrun); try (by apply Hnot).
    all: exists Unregistered; eexists; split; [done|]; simpl; rewrite Hat; unfold unregistered; by rewrite Hcb.
  - exists Release. eexists. split; [done|]. simpl. by rewrite Hat.
Qed.

Lemma reachable_inv s : reachable s → inv s.
Proof.
  unfold reachable. apply rtc_ind_r; [apply inv_start|]. intros x y _ [e Hs] Hx. by eapply inv_step.
Qed.

(** C13: no exit is missed and no callback is left behind. However the process, the
    callback and the task interleave, and whenever the wait is cancelled, the callback
    never uses a [Notify] that was freed nor outlives the process handle; between
    calls nothing is registered and no reference is left; a wait that answers that the
    process exited is right. Once the process has exited, or the wait was cancelled,
    the system always has a step to take and takes at most [work], never more than 16,
    until the call is over. *)
Theorem exits_wake_their_waiter s :
  reachable s →
  misused s = false ∧ (callback s ≠ NoWait → refs s = 2%nat ∧ open s = true) ∧
  (∀ a, at_ s = Idle a → callback s = NoWait ∧ refs s = 0%nat ∧ (a = Some (Ok tt) → exited s = true)) ∧
  ((∀ a, at_ s ≠ Idle a) → exited s = true ∨ (∀ queued, at_ s ≠ Waiting queued) →
    ∃ e s', unasked e s = true ∧ step e s = Some s') ∧
  (∀ e s', unasked e s = true → step e s = Some s' → (work s' < work s ≤ 16)%nat).
Proof.
  intros Hi%reachable_inv. split_and!.
  - apply Hi.
  - intros Hc. by destruct (callback_registered s Hi Hc) as (? & ? & _).
  - intros a Hat. pose proof (inv_at s Hi) as Ha. rewrite Hat in Ha. by destruct Ha as (? & ? & ?).
  - by apply system_goes_on.
  - intros e s' Hu Hs. split; [by eapply work_decreases|]. unfold work.
    destruct (at_ s) as [| |q| |], (callback s); try destruct (woken s); lia.
Qed.

(** The callback runs while the task is being cancelled: unregistering waits for it. *)
Definition raced : list event :=
  [Call (Ok false); Register (Ok tt); Poll; ExitEvent; Begin; Cancel].
Definition after (es : list event) : option state := foldl (λ s e, s ≫= step e) (Some start) es.

Lemma after_reachable es s : after es = Some s → reachable s.
Proof.
  unfold after, reachable. revert s. induction es as [|e es IH] using rev_ind; intros s; [by intros [= <-]|].
  rewrite foldl_app. simpl. destruct (foldl _ _ es) as [s1|]; [|done]. intros Hs.
  eapply rtc_r; [by apply IH|]. by exists e.
Qed.

Lemma exits_wake_their_waiter_witness :
  ∃ s, after raced = Some s ∧ step Unregistered s = None ∧ refs s = 2%nat ∧ open s = true ∧
    ∃ e s', unasked e s = true ∧ step e s = Some s'.
Proof.
  eexists. split; [reflexivity|]. split; [reflexivity|].
  destruct (exits_wake_their_waiter _ (after_reachable raced _ eq_refl)) as (_ & Hr & _ & Hg & _).
  destruct Hr as [? ?]; [done|]. split; [done|]. split; [done|]. apply Hg; [done|by left].
Defined.

(** The task is woken and answers; the next call finds the handle closed. *)
Example a_wait_that_ends :
  (at_ <$> after [Call (Ok false); Register (Ok tt); Poll; ExitEvent; Begin; Notify; Poll; Return; Unregistered; Release])
    = Some (Idle (Some (Ok tt))).
Proof. reflexivity. Qed.
