(* ===== verification/Children.v ===== *)
(** * Children: candidates, warm-up and launched daemons
      (src/candidate.rs, src/warmup.rs, the waits of src/launch.rs)

    A [Candidate] is stopped unless it was selected, a warm-up child is killed at
    its limit, and a [DaemonChild] is watched while it is probed. The child and the
    calls on it are an interface; the waits are those of [Process]. *)
From stdpp Require Import list.
From S2P Require Import Prelude Backoff Readiness Process.

(** ** [std::process::Child] *)

(** An exit status is its code; 0 is success. [watch_thread] starts a thread that
    waits for the child, and says whether it could. *)
Class Child (W : Type) : Type := {
  try_wait : W → io_result (option Z) * W;
  wait : W → io_result Z * W;
  kill : W → io_result unit * W;
  watch_thread : W → bool * W;
}.

(** Whether the child was waited for, how often it was killed, and whether a thread
    waits for it. *)
Class ChildState (W : Type) : Type := { reaped : W → bool; kills : W → nat; attended : W → bool }.

(** What a call that does not kill keeps. *)
Definition leaves `{ClockLaws W, !Watched W, !ChildState W} (w w' : W) : Prop :=
  moves_on w w' ∧ kills w' = kills w ∧ (reaped w = true → reaped w' = true) ∧ (attended w = true → attended w' = true).

#[export] Instance leaves_preorder `{ClockLaws W, !Watched W, !ChildState W} : PreOrder (leaves (W := W)).
Proof.
  split; [by intros w|]. intros a b c (? & ? & ? & ?) (? & ? & ? & ?). unfold leaves. split_and!; [by etrans|congruence|auto|auto].
Qed.

(** The standard library: a child that was waited for has exited. *)
Class ChildLaws (W : Type) `{ClockLaws W, !Watched W, !ChildState W, !Child W} : Prop := {
  try_wait_leaves w : leaves w (try_wait w).2;
  try_wait_some w s w' : try_wait w = (Ok (Some s), w') → running w' = false ∧ reaped w' = true;
  wait_leaves w : leaves w (wait w).2;
  wait_ok w s w' : wait w = (Ok s, w') → running w' = false ∧ reaped w' = true;
  kill_moves w : moves_on w (kill w).2 ∧ kills (kill w).2 = S (kills w);
  watch_leaves w : leaves w (watch_thread w).2;
  watch_attended w w' : watch_thread w = (true, w') → attended w' = true;
}.

(** ** [Reaped] and [Candidate] *)

Section candidate.
Context {W : Type} `{Clock W, !ExitEvent W, !Child W}.
Context (fallback_state : Z → W → ProcessState * W) (passes : nat).

(** [Reaped::drop]. *)
Definition drop_reaped (w : W) : W :=
  match try_wait w with
  | (Ok (Some _), w) => w
  | (_, w) => (watch_thread w).2
  end.

(** [try_wait()?.is_some()]. *)
Definition has_status (w : W) : io_result bool * W :=
  let '(r, w) := try_wait w in ((λ s : option Z, bool_decide (is_Some s)) <$> r, w).

(** A child of this process with its exit handle, if it could be opened, or a
    daemon, whose handle always could. *)
Inductive CandidateProcess := OwnChild (exit : option ProcessHandle.t) | Daemon (exit : ProcessHandle.t).

Record Candidate := MkCandidate { process : CandidateProcess; is_selected : bool }.

Definition candidate_new (sys_open : Z → W → io_result Opened * W) (pid : Z) (w : W) : Candidate * W :=
  let '(exit, w) := ProcessHandle.open sys_open pid w in
  (MkCandidate (OwnChild (match exit with Ok h => Some h | Err _ => None end)) false, w).

Definition candidate_from (exit : ProcessHandle.t) : Candidate := MkCandidate (Daemon exit) false.

Definition exit_handle (c : Candidate) : io_result ProcessHandle.t :=
  match process c with
  | OwnChild (Some h) | Daemon h => Ok h
  | OwnChild None => Err (error_other "the candidate's exit handle could not be opened")
  end.

(** [DaemonChild::exits_by]. *)
Definition exits_by (deadline : Z) (h : ProcessHandle.t) (w : W) : option (io_result bool) * ProcessHandle.t * W :=
  let '(r, h', w) := ProcessHandle.wait_child fallback_state passes has_status (Some h) deadline w in
  (r, default h h', w).

(** [DaemonChild::wait_until]. *)
Definition daemon_wait_until (deadline : Z) (h : ProcessHandle.t) (w : W)
    : option (io_result (option Z)) * ProcessHandle.t * W :=
  match exits_by deadline h w with
  | (None, h, w) => (None, h, w)
  | (Some (Err e), h, w) => (Some (Err e), h, w)
  | (Some (Ok false), h, w) => (Some (Ok None), h, w)
  | (Some (Ok true), h, w) => let '(r, w) := wait w in (Some (Some <$> r), h, w)
  end.

(** [Candidate::wait_until]. *)
Definition candidate_wait_until (deadline : Z) (c : Candidate) (w : W) : option (io_result (option Z)) * Candidate * W :=
  match process c with
  | OwnChild exit =>
      match ProcessHandle.wait_child fallback_state passes has_status exit deadline w with
      | (None, exit, w) => (None, MkCandidate (OwnChild exit) (is_selected c), w)
      | (Some (Err e), exit, w) => (Some (Err e), MkCandidate (OwnChild exit) (is_selected c), w)
      | (Some (Ok false), exit, w) => (Some (Ok None), MkCandidate (OwnChild exit) (is_selected c), w)
      | (Some (Ok true), exit, w) =>
          let '(r, w) := wait w in (Some (Some <$> r), MkCandidate (OwnChild exit) (is_selected c), w)
      end
  | Daemon h =>
      let '(r, h, w) := daemon_wait_until deadline h w in (r, MkCandidate (Daemon h) (is_selected c), w)
  end.

Definition selected (c : Candidate) : Candidate := MkCandidate (process c) true.

Definition stop (w : W) : io_result Z * W :=
  match kill w with
  | (Err e, w) => (Err e, w)
  | (Ok _, w) => wait w
  end.

(** [Candidate::drop], and then its process is dropped. A daemon's is [Reaped] too,
    on Unix. *)
Definition drop_candidate (c : Candidate) (w : W) : W :=
  drop_reaped (if is_selected c then w else (stop w).2).

(** ** [DaemonChild::wait_until_live] *)

Inductive Startup := Live | StartupExited | StartupTimedOut.

Fixpoint wait_until_live (rounds : nat) (deadline : Z) (is_live : W → bool * W) (h : ProcessHandle.t) (w : W)
    : option (io_result Startup) * ProcessHandle.t * W :=
  match rounds with
  | O => (None, h, w)
  | S rounds =>
      let '(live, w) := is_live w in
      if live : bool then (Some (Ok Live), h, w) else
      let '(t, w) := now w in
      if deadline <=? t then (Some (Ok StartupTimedOut), h, w) else
      match exits_by (Z.min deadline (t + POLL_INTERVAL)) h w with
      | (None, h, w) => (None, h, w)
      | (Some (Err e), h, w) => (Some (Err e), h, w)
      | (Some (Ok true), h, w) =>
          let '(live, w) := is_live w in (Some (Ok (if live : bool then Live else StartupExited)), h, w)
      | (Some (Ok false), h, w) => wait_until_live rounds deadline is_live h w
      end
  end.

(** [launch::wait_until_live]: the probe over [readiness::wait_until]. *)
Definition probe_until_live (rounds : nat) (deadline : Z) (is_live : W → bool * W) (w : W) : option bool * W :=
  let probe (_ : Z) (w : W) : result Empty_set (option unit) * W :=
    let '(live, w) := is_live w in (Ok (if live : bool then Some tt else None), w) in
  let '(r, w) := wait_until probe rounds deadline w in
  ((λ r, match r with Ok (Some _) => true | _ => false end) <$> r, w).

Record SpawnWait := MkSpawnWait { live : bool; spawn_error : option io_error }.

Definition spawn_and_wait (rounds : nat) (spawn_detached : W → io_result unit * W) (budget : Z)
    (is_live : W → bool * W) (w : W) : option SpawnWait * W :=
  let '(spawned, w) := spawn_detached w in
  let '(t, w) := now w in
  let '(r, w) := probe_until_live rounds (t + budget) is_live w in
  ((λ live, MkSpawnWait live (match spawned with Ok _ => None | Err e => Some e end)) <$> r, w).

(** ** Warm-up *)

Definition WINDOW : Z := 65536.
Definition SPAWN_BUDGET : Z := from_secs 2.
Definition RUNAWAY_LIMIT : Z := from_secs 60.

(** The loop of [warm_executable]; [read] answers how many bytes it read. *)
Fixpoint warm_rest (passes : nat) (read : Z → W → io_result Z * W) (remaining : Z) (w : W) : option (io_result unit) * W :=
  match passes with
  | O => (None, w)
  | S passes =>
      if remaining <=? 0 then (Some (Ok tt), w) else
      match read (Z.min WINDOW remaining) w with
      | (Err e, w) => (Some (Err e), w)
      | (Ok got, w) => if got =? 0 then (Some (Ok tt), w) else warm_rest passes read (remaining - got) w
      end
  end.

(** [warm_executable]: [open] opens the file and reads whether it is a directory,
    and its length. *)
Definition warm_executable (open : W → io_result (bool * Z) * W) (read : Z → W → io_result Z * W) (w : W)
    : option (io_result unit) * W :=
  match open w with
  | (Err e, w) => (Some (Err e), w)
  | (Ok (true, _), w) => (Some (Err (error_new IsADirectory "warmup path is a directory")), w)
  | (Ok (false, len), w) => warm_rest (S (Z.to_nat len)) read len w
  end.

(** [prefault_all]. *)
Definition prefault_all (files : list ((W → io_result (bool * Z) * W) * (Z → W → io_result Z * W))) (w : W) : W :=
  foldl (λ w '(open, read), (warm_executable open read w).2) w files.

(** [spawn_when_free], without the test hook. *)
Fixpoint spawn_when_free (rounds : nat) (spawn : W → io_result unit * W) (pause until : Z) (w : W)
    : option (io_result unit) * W :=
  match rounds with
  | O => (None, w)
  | S rounds =>
      match spawn w with
      | (Ok _, w) => (Some (Ok tt), w)
      | (Err e, w) =>
          if decide (kind e = ExecutableFileBusy) then
            let '(t, w) := now w in
            if t <? until then
              let '(t, w) := now w in
              spawn_when_free rounds spawn (Z.min (pause * 2) (from_millis 50)) until
                (sleep (Z.min pause (saturating_sub until t)) w)
            else (Some (Err e), w)
          else (Some (Err e), w)
      end
  end.

(** [reap], with the exit handle of [exits_by_watching]. *)
Definition reap (exit : option ProcessHandle.t) (limit : Z) (w : W) : option (io_result Z) * W :=
  match ProcessHandle.wait_child fallback_state passes has_status exit limit w with
  | (None, _, w) => (None, w)
  | (Some (Ok true), _, w) => let '(r, w) := wait w in (Some r, w)
  | (Some r, _, w) =>
      let stopped := match r with
                     | Err e => e
                     | Ok _ => error_new TimedOut "warmup child killed at its runaway limit"
                     end in
      let w := (kill w).2 in
      match wait w with
      | (Err e, w) => (Some (Err e), w)
      | (Ok _, w) => (Some (Err stopped), w)
      end
  end.

(** The thread of [start]. *)
Definition warmup_thread (rounds : nat) (spawn : W → io_result unit * W) (open_handle : W → option ProcessHandle.t * W)
    (deadline runaway : Z) (w : W) : option (io_result Z) * W :=
  let '(t, w) := now w in
  match spawn_when_free rounds spawn (from_millis 1) (Z.max deadline (t + runaway)) w with
  | (None, w) => (None, w)
  | (Some (Err e), w) => (Some (Err e), w)
  | (Some (Ok _), w) =>
      let '(t, w) := now w in
      let '(exit, w) := open_handle w in
      reap exit (Z.max deadline (t + runaway)) w
  end.

(** What [warm_spawn_until] makes of the thread's report; [None] is a report that
    did not come in time. *)
Definition warm_spawn_answer (report : option (io_result Z)) : io_result unit :=
  match report with
  | Some (Ok status) => if status =? 0 then Ok tt else Err (error_other "warmup exited")
  | Some (Err e) => Err e
  | None => Err (error_new TimedOut "warmup is still running after its budget; left to finish")
  end.
End candidate.

(** ** What the waits promise *)

Section proofs.
Context {W : Type} `{ClockLaws W, !Watched W, !WatchedClock W, !ExitEvent W, !ExitEventLaws W}.
Context `{!ChildState W, !Child W, !ChildLaws W}.
Context (fallback_state : Z → W → ProcessState * W) (fallback : ProcessHandle.fallback_ok fallback_state).

Definition remembered (exit : option ProcessHandle.t) (w : W) : Prop :=
  ∀ h, exit = Some h → ProcessHandle.remembers h w.

Lemma has_status_moves (w : W) : moves_on w (has_status w).2.
Proof using ChildLaws0. unfold has_status. destruct (try_wait_leaves w) as [Hm _]. by destruct (try_wait w). Qed.

Lemma has_status_true (w w' : W) : has_status w = (Ok true, w') → running w' = false.
Proof using ChildLaws0.
  unfold has_status. destruct (try_wait w) as [[[s|]|e] w1] eqn:E; simpl; intros [= <-].
  by apply try_wait_some in E as [? _].
Qed.

Lemma remembers_later h (w w' : W) : ProcessHandle.remembers h w → moves_on w w' → ProcessHandle.remembers h w'.
Proof.
  intros Hr (_ & Hm & _) Hs. specialize (Hr Hs). destruct (running w'); [|done]. by rewrite Hm in Hr.
Qed.

(** Asking the child says no more than a handle does. *)
Lemma poll_status_answers passes deadline (w : W) r w' :
  poll passes has_status (Some deadline) w = (Some r, w') →
  moves_on w w' ∧ match r with Ok true => running w' = false | Ok false => deadline ≤ time w' | Err _ => True end.
Proof using ChildLaws0 WatchedClock0.
  intros Hp. split.
  - pose proof (ProcessHandle.poll_moves_on has_status passes FIRST (Some deadline) w has_status_moves) as Hm.
    unfold poll in Hp. by rewrite Hp in Hm.
  - unfold poll in Hp. apply poll_answer in Hp. destruct r as [[]|e]; [|naive_solver|done].
    destruct Hp as [v Hv]. by eapply has_status_true.
Qed.

Lemma wait_child_answers passes exit deadline (w : W) r exit' w' :
  remembered exit w → ProcessHandle.wait_child fallback_state passes has_status exit deadline w = (Some r, exit', w') →
  moves_on w w' ∧ remembered exit' w' ∧ (is_Some exit → is_Some exit') ∧
  match r with Ok true => running w' = false | Ok false => deadline ≤ time w' | Err _ => True end.
Proof using fallback ChildLaws0 WatchedClock0 ExitEventLaws0.
  intros Hr. unfold ProcessHandle.wait_child. destruct exit as [h|].
  2: { destruct (poll passes has_status (Some deadline) w) as [[r1|] w1] eqn:Ep; [|done]. intros [= <- <- <-].
       apply poll_status_answers in Ep as [? ?]. by split_and!. }
  destruct (negb (ProcessHandle.is_pid_only h)) eqn:Eh.
  - destruct (ProcessHandle.wait_until fallback_state passes deadline h w) as [[r1 h1] w1] eqn:Ew. intros [= -> <- <-].
    apply ProcessHandle.wait_for_answers in Ew as (Hm & Hrem & _ & Ha); [|done|by apply Hr].
    split_and!; [done|by intros ? [= <-]|by eexists|]. destruct r as [[]|e]; naive_solver.
  - destruct (poll passes has_status (Some deadline) w) as [[r1|] w1] eqn:Ep; [|done]. intros [= <- <- <-].
    apply poll_status_answers in Ep as [? ?]. split_and!; [done| |by eexists|done].
    intros ? [= <-]. by eapply remembers_later; [apply Hr|].
Qed.

Lemma wait_child_ends passes exit deadline (w : W) :
  (wait_passes deadline w < passes)%nat →
  is_Some (ProcessHandle.wait_child fallback_state passes has_status exit deadline w).1.1.
Proof using fallback ChildLaws0 ExitEventLaws0.
  intros Hn. assert (is_Some (poll passes has_status (Some deadline) w).1) as [r Hp].
  { apply poll_terminates; [|done|unfold wait_passes in Hn; unfold FIRST; lia]. intros v. by destruct (has_status_moves v). }
  unfold ProcessHandle.wait_child. destruct (poll passes has_status (Some deadline) w) as [r' w1]. simpl in Hp. subst r'.
  destruct exit as [h|]; [|by eexists]. destruct (negb _); [|by eexists].
  destruct (ProcessHandle.wait_for_ends fallback_state fallback passes deadline h w Hn) as [r1 Hr1].
  unfold ProcessHandle.wait_until. destruct (ProcessHandle.wait_for _ _ _ h w) as [[r2 h2] w2]. simpl in *. subst. by eexists.
Qed.

Context (is_live : W → bool * W) (is_live_moves : ∀ w, moves_on w (is_live w).2).

(** What a startup is judged by. *)
Definition startup_ok (deadline : Z) (w : W) (r : io_result Startup) (w' : W) : Prop :=
  match r with
  | Ok Live => ∃ v, moves_on w v ∧ is_live v = (true, w')
  | Ok StartupExited => ∃ v, moves_on w v ∧ running v = false ∧ is_live v = (false, w')
  | Ok StartupTimedOut => deadline ≤ time w'
  | Err _ => True
  end.

Lemma startup_ok_later deadline (w w1 : W) r w' :
  moves_on w w1 → startup_ok deadline w1 r w' → startup_ok deadline w r w'.
Proof.
  intros Hm. destruct r as [[]|]; [| |done|done].
  - intros (v & ? & ?). exists v. split; [by etrans|done].
  - intros (v & ? & ? & ?). exists v. split_and!; [by etrans|done..].
Qed.

Lemma wait_until_live_ok rounds passes deadline h (w : W) :
  ProcessHandle.remembers h w → (wait_passes deadline w < passes)%nat → (polls POLL_INTERVAL deadline w < rounds)%nat →
  ∃ r h' w', wait_until_live fallback_state passes rounds deadline is_live h w = (Some r, h', w') ∧ startup_ok deadline w r w'.
Proof using fallback is_live_moves ChildLaws0 WatchedClock0 ExitEventLaws0.
  revert h w. induction rounds as [|n IH]; intros h w Hr Hp Hn; [lia|]. cbn [wait_until_live].
  pose proof (is_live_moves w) as Hm1. destruct (is_live w) as [[] w1] eqn:El; simpl in Hm1.
  { do 3 eexists. split; [done|]. by exists w. }
  pose proof (now_moves w1) as Hm2. destruct (now w1) as [t w2] eqn:Et. apply now_mono in Et. simpl in Hm2.
  assert (moves_on w w2) as Hw2 by by etrans. destruct (Z.leb_spec deadline t) as [Hd|Hd].
  { do 3 eexists. split; [done|]. simpl. lia. }
  unfold exits_by. set (until := Z.min deadline (t + POLL_INTERVAL)).
  assert (wait_passes until w2 < passes)%nat as Hp2.
  { destruct Hw2 as (Ht2 & _ & Hh2). unfold wait_passes in *.
    pose proof (polls_mono (from_millis 1) deadline until w w2). unfold from_millis, until in *. lia. }
  destruct (wait_child_ends passes (Some h) until w2 Hp2) as [r1 Hr1].
  destruct (ProcessHandle.wait_child _ _ _ (Some h) until w2) as [[r1' h1] w3] eqn:Ew. simpl in Hr1. subst r1'.
  apply wait_child_answers in Ew as (Hm3 & Hrem & Hs & Ha); [|by intros ? [= <-]; eapply remembers_later].
  destruct Hs as [h' ->]; [by eexists|]. simpl. assert (moves_on w w3) as Hw3 by by etrans. destruct r1 as [[]|e]; [| |by do 3 eexists].
  - destruct (is_live w3) as [[] w4] eqn:El3; do 3 eexists; (split; [done|]); by exists w3.
  - destruct (IH h' w3) as (r & h2 & w4 & E & Hok).
    + by apply Hrem.
    + pose proof (wait_passes_mono deadline w w3 Hw3). lia.
    + enough (polls POLL_INTERVAL deadline w3 < polls POLL_INTERVAL deadline w)%nat by lia.
      destruct Hw3 as [Ht3 _], Hw2 as [Ht2 _]. destruct Hm1 as [? _]. simpl in Ha. unfold until in Ha.
      apply polls_wait; unfold POLL_INTERVAL, from_millis in *; lia.
    + do 3 eexists. split; [exact E|]. by eapply startup_ok_later.
Qed.
End proofs.

(** ** Dropping a candidate *)

Section drops.
Context {W : Type} `{ClockLaws W, !Watched W, !ChildState W, !Child W, !ChildLaws W}.

(** A dropped child is waited for, now or by a thread, unless no thread could be
    had. *)
Lemma drop_reaped_ok (w : W) :
  leaves w (drop_reaped w) ∧
  (reaped (drop_reaped w) = true ∨ attended (drop_reaped w) = true ∨ ∃ v, watch_thread v = (false, drop_reaped w)).
Proof.
  unfold drop_reaped. pose proof (try_wait_leaves w) as Hl.
  destruct (try_wait w) as [[[s|]|e] w1] eqn:Et; simpl in Hl; [by apply try_wait_some in Et as [_ ?]; auto|..].
  all: pose proof (watch_leaves w1) as Hl1; destruct (watch_thread w1) as [[] w2] eqn:Ew; simpl in *.
  all: split; [by etrans|]; right.
  all: first [left; by eapply watch_attended|right; exists w1; exact Ew].
Qed.
End drops.

(** C14: a candidate ends unless it was selected. Dropping a candidate that was
    selected does not kill it. Dropping one that was not kills it once; when the
    system lets it, the process has then exited and was waited for. Either way the
    process was waited for or a thread waits for it, unless no thread could be
    created. *)
Theorem candidates_end_unless_selected {W} `{ClockLaws W, !Watched W, !ChildState W, !Child W, !ChildLaws W}
    (c : Candidate) (w : W) :
  let w' := drop_candidate c w in
  moves_on w w' ∧ kills w' = (if is_selected c then kills w else S (kills w)) ∧
  (is_selected c = false → is_ok (stop w).1 = true → running w' = false ∧ reaped w' = true) ∧
  (reaped w' = true ∨ attended w' = true ∨ ∃ v, watch_thread v = (false, w')).
Proof.
  unfold drop_candidate. destruct (is_selected c).
  - destruct (drop_reaped_ok w) as [(Hm & Hk & Hr & Ha) Hend]. by split_and!.
  - unfold stop. destruct (kill_moves w) as [Hm Hk]. destruct (kill w) as [[[]|e] w1]; simpl in *.
    + pose proof (wait_leaves w1) as Hl. destruct (wait w1) as [r w2] eqn:Ew. simpl in *.
      destruct (drop_reaped_ok w2) as [Hl2 Hend]. assert (leaves w1 (drop_reaped w2)) as (Hm2 & Hk2 & _) by by etrans.
      split_and!; [by etrans|congruence| |done]. intros _ Hok. destruct r as [s|e]; [|done].
      apply wait_ok in Ew as [Hrun Hre]. destruct Hl2 as (Hm3 & _ & Hr3 & _). split; [|auto].
      destruct (running (drop_reaped w2)) eqn:E; [|done]. destruct Hm3 as (_ & Hm3 & _). by rewrite Hm3 in Hrun.
    + destruct (drop_reaped_ok w1) as [(Hm2 & Hk2 & _) Hend]. split_and!; [by etrans|congruence|done|done].
Qed.

(** C15: a launched daemon is judged by a probe. [wait_until_live] returns by its
    deadline, whatever the probes and the process do: it reports a live daemon only
    for a probe that succeeded, an exit only when the process has exited and a
    probe made after that failed, and a timeout only at the deadline. *)
Theorem startup_is_judged_by_a_probe {W} `{ClockLaws W, !Watched W, !WatchedClock W, !ExitEvent W, !ExitEventLaws W}
    `{!ChildState W, !Child W, !ChildLaws W}
    (fallback_state : Z → W → ProcessState * W) (is_live : W → bool * W)
    (rounds passes : nat) (deadline : Z) (h : ProcessHandle.t) (w : W) :
  ProcessHandle.fallback_ok fallback_state → (∀ w, moves_on w (is_live w).2) → ProcessHandle.remembers h w →
  (wait_passes deadline w < passes)%nat → (polls POLL_INTERVAL deadline w < rounds)%nat →
  ∃ r h' w', wait_until_live fallback_state passes rounds deadline is_live h w = (Some r, h', w') ∧
  match r with
  | Ok Live => ∃ v, moves_on w v ∧ is_live v = (true, w')
  | Ok StartupExited => ∃ v, moves_on w v ∧ running v = false ∧ is_live v = (false, w')
  | Ok StartupTimedOut => deadline ≤ time w'
  | Err _ => True
  end.
Proof. intros Hf Hl Hr Hp Hn. by apply wait_until_live_ok. Qed.

(** A warm-up child does not outlive its limit. [reap] returns; where a
    child that exited or was killed can be waited for, it has then exited and was waited for, whatever became
    of its exit handle, and a status is only reported of a child that exited by
    itself. *)
Theorem warmup_children_are_reaped {W} `{ClockLaws W, !Watched W, !WatchedClock W, !ExitEvent W, !ExitEventLaws W}
    `{!ChildState W, !Child W, !ChildLaws W}
    (fallback_state : Z → W → ProcessState * W) (passes : nat) (exit : option ProcessHandle.t) (limit : Z) (w : W) :
  ProcessHandle.fallback_ok fallback_state → remembered exit w → (wait_passes limit w < passes)%nat →
  (∀ v : W, running v = false ∨ (∃ u, v = (kill u).2) → is_ok (wait v).1 = true) →
  ∃ r w', reap fallback_state passes exit limit w = (Some r, w') ∧ running w' = false ∧ reaped w' = true ∧
  match r with
  | Ok _ => ∃ v, moves_on w v ∧ running v = false ∧ kills w' = kills v
  | Err _ => ∃ v, moves_on w v ∧ kills w' = S (kills v)
  end.
Proof.
  intros Hf Hr Hn Hwait. unfold reap. destruct (wait_child_ends fallback_state Hf passes exit limit w Hn) as [r Hend].
  destruct (ProcessHandle.wait_child _ _ _ exit limit w) as [[r' exit'] w1] eqn:Ew. simpl in Hend. subst r'.
  apply wait_child_answers in Ew as (Hm & _ & _ & Ha); [|done..].
  assert (∀ v, running v = false ∨ (∃ u, v = (kill u).2) →
    ∃ s v', wait v = (Ok s, v') ∧ kills v' = kills v ∧ running v' = false ∧ reaped v' = true) as Hw.
  { intros v Hv. specialize (Hwait v Hv). destruct (wait_leaves v) as (_ & Hk & _).
    destruct (wait v) as [[s|e] v'] eqn:E; [|done]. apply wait_ok in E as [? ?]. by exists s, v'. }
  assert (∀ e, ∃ (r : io_result Z) w', match wait (kill w1).2 with (Err e, w) => (Some (Err e), w) | (Ok _, w) => (Some (Err e), w) end
    = (Some r, w') ∧ running w' = false ∧ reaped w' = true ∧
    match r with Ok _ => ∃ v, moves_on w v ∧ running v = false ∧ kills w' = kills v
               | Err _ => ∃ v, moves_on w v ∧ kills w' = S (kills v) end) as Hkill.
  { intros e. destruct (Hw (kill w1).2) as (s & v' & -> & Hk & ? & ?); [by right; eexists|]. do 2 eexists. split_and!; [done..|].
    exists w1. split; [done|]. rewrite Hk. apply kill_moves. }
  destruct r as [[]|e]; [|apply Hkill..].
  destruct (Hw w1) as (s & v' & -> & Hk & ? & ?); [by left|]. do 2 eexists. split_and!; [done..|]. by exists w1.
Qed.

(** Prefaulting ends, also on a file without an end: no more is read than the file
    was long. *)
Lemma warm_rest_ends {W} (read : Z → W → io_result Z * W) passes remaining w :
  (∀ n w got w', read n w = (Ok got, w') → 0 ≤ got ≤ n) → (Z.to_nat remaining < passes)%nat →
  is_Some (warm_rest passes read remaining w).1.
Proof.
  intros Hread. revert remaining w. induction passes as [|n IH]; intros remaining w Hn; [lia|]. cbn [warm_rest].
  destruct (Z.leb_spec remaining 0); [by eexists|]. destruct (read _ w) as [[got|e] w1] eqn:E; [|by eexists].
  apply Hread in E. destruct (Z.eqb_spec got 0); [by eexists|]. apply IH. lia.
Qed.

(** The retries of a busy executable end. *)
Lemma spawn_when_free_ends {W} `{ClockLaws W} (spawn : W → io_result unit * W) rounds pause until (w : W) :
  (∀ w, time w ≤ time (spawn w).2) → from_millis 1 ≤ pause → (polls (from_millis 1) until w < rounds)%nat →
  is_Some (spawn_when_free rounds spawn pause until w).1.
Proof.
  intros Hspawn. revert pause w. induction rounds as [|n IH]; intros pause w Hp Hn; [lia|]. cbn [spawn_when_free].
  pose proof (Hspawn w) as Hs. destruct (spawn w) as [[[]|e] w1]; simpl in Hs; [by eexists|]. case_decide; [|by eexists].
  destruct (now w1) as [t w2] eqn:E1. apply now_mono in E1. destruct (Z.ltb_spec t until); [|by eexists].
  destruct (now w2) as [t' w3] eqn:E2. apply now_mono in E2. set (nap := Z.min pause _).
  apply IH; [unfold from_millis in *; lia|]. pose proof (sleep_lasts nap w3).
  enough (polls (from_millis 1) until (sleep nap w3) < polls (from_millis 1) until w)%nat by lia.
  unfold nap, saturating_sub, from_millis in *. apply polls_wait; lia.
Qed.

(** ** A simulated child *)

Module SimulatedChild.
Import Simulated.

Definition set_log (l : log) (w : t) : t := mk (clock w) (exit_at w) (interrupts w) l.

#[global] Instance state : ChildState t := {
  reaped w := was_reaped (parent_log w) && negb (runs w);
  kills w := times_killed (parent_log w);
  attended w := has_reaper (parent_log w);
}.

Definition reap_now (w : t) : t := set_log (Log true (times_killed (parent_log w)) (has_reaper (parent_log w))) w.

#[global] Instance child : Child t := {
  try_wait w := if runs w then (Ok None, w) else (Ok (Some 0), reap_now w);
  wait w := match exit_at w with
            | Some e => (Ok 0, reap_now (at_time e w))
            | None => (Err forever, w)
            end;
  kill w := (Ok tt, mk (clock w) (Some match exit_at w with Some e => Z.min e (clock w) | None => clock w end) (interrupts w)
                       (Log (was_reaped (parent_log w)) (S (times_killed (parent_log w))) (has_reaper (parent_log w))));
  watch_thread w := (true, set_log (Log (was_reaped (parent_log w)) (times_killed (parent_log w)) true) w);
}.

Lemma reap_now_leaves w : leaves w (reap_now w).
Proof.
  assert (moves_on w (reap_now w)) as Hm by done. unfold leaves. split_and!; [done..| |done]. simpl. intros Hr.
  by apply andb_true_iff in Hr as [_ Hr].
Qed.

Lemma at_time_leaves n w : leaves w (at_time n w).
Proof.
  pose proof (at_time_moves n w) as Hm. unfold leaves. split_and!; [done..| |done]. simpl. intros Hr.
  apply andb_true_iff in Hr as [-> Hr]. simpl. destruct Hm as (_ & Hm & _). simpl in Hm.
  destruct (runs (at_time n w)); [|done]. by rewrite Hm in Hr.
Qed.

#[global] Instance laws : ChildLaws t.
Proof.
  split.
  - intros w. simpl. destruct (runs w); [done|apply reap_now_leaves].
  - intros w s w'. simpl. destruct (runs w) eqn:E; [done|]. intros [= <- <-]. unfold runs in *. simpl. by rewrite E.
  - intros w. simpl. destruct (exit_at w) as [e|]; [|done]. simpl. etrans; [apply at_time_leaves|apply reap_now_leaves].
  - intros w s w'. simpl. destruct (exit_at w) as [e|] eqn:E; [|done]. intros [= <- <-].
    assert (runs (reap_now (at_time e w)) = false) as Hr by (unfold runs; simpl; rewrite E; apply Z.ltb_ge; lia).
    split; [exact Hr|]. unfold reaped, state. rewrite Hr. done.
  - intros w. split; [|done]. unfold moves_on. simpl. split_and!; [lia| |lia]. unfold runs. simpl.
    destruct (exit_at w) as [e|]; intros Hr; bools; [apply Z.ltb_lt; lia|lia].
  - intros w. unfold leaves, moves_on. simpl. by split_and!.
  - by intros w w' [= <-].
Qed.

Definition fresh_child (exit : option Z) : t := mk 0 exit 1 (Log false 0 false).
Definition handle : ProcessHandle.t := ProcessHandle.mk 42 ProcessHandle.Event.

(** The probe takes a millisecond and finds nothing. *)
Definition dead_probe (w : t) : bool * t := (false, at_time (clock w + from_millis 1) w).
End SimulatedChild.

Lemma startup_is_judged_by_a_probe_witness :
  ∃ h' w', wait_until_live (H := Simulated.clock_) (ExitEvent0 := Pidfd.event) Simulated.fallback 200 10
    (from_millis 100) SimulatedChild.dead_probe SimulatedChild.handle (SimulatedChild.fresh_child (Some (from_millis 30)))
    = (Some (Ok StartupExited), h', w') ∧ running w' = false.
Proof.
  destruct (startup_is_judged_by_a_probe (ExitEvent0 := Pidfd.event) (ExitEventLaws0 := Pidfd.event_laws)
    Simulated.fallback SimulatedChild.dead_probe 10 200 (from_millis 100) SimulatedChild.handle
    (SimulatedChild.fresh_child (Some (from_millis 30)))) as (r & h' & w' & E & Hr);
    [apply Simulated.fallback_fits|intros w; apply Simulated.at_time_moves|done|vm_compute; lia|vm_compute; lia|].
  exists h', w'. assert (r = Ok StartupExited) as -> by (vm_compute in E; by injection E as <- _ _).
  split; [exact E|]. destruct Hr as (v & _ & Hv & El). unfold SimulatedChild.dead_probe in El. injection El as <-.
  destruct (running (Simulated.at_time (Simulated.clock v + from_millis 1) v)) eqn:Er; [|done].
  destruct (Simulated.at_time_moves (Simulated.clock v + from_millis 1) v) as (_ & Hm & _). by rewrite Hm in Hv.
Defined.

Lemma warmup_children_are_reaped_witness :
  ∃ r w', reap (H := Simulated.clock_) (ExitEvent0 := Pidfd.event) Simulated.fallback 200 (Some SimulatedChild.handle)
    (from_millis 60) (SimulatedChild.fresh_child (Some (from_millis 90))) = (Some r, w') ∧ running w' = false.
Proof.
  destruct (warmup_children_are_reaped (ExitEvent0 := Pidfd.event) (ExitEventLaws0 := Pidfd.event_laws)
    Simulated.fallback 200 (Some SimulatedChild.handle) (from_millis 60) (SimulatedChild.fresh_child (Some (from_millis 90))))
    as (r & w' & E & Hrun & _); [apply Simulated.fallback_fits|by intros h [= <-]|vm_compute; lia| |].
  - intros v. simpl. unfold Simulated.runs. destruct (Simulated.exit_at v) as [e|] eqn:Ev; [done|].
    intros [?|[u ->]]; [done|]. simpl in Ev. done.
  - by exists r, w'.
Defined.

Lemma candidates_end_unless_selected_witness :
  let w' := drop_candidate (candidate_from SimulatedChild.handle) (SimulatedChild.fresh_child None) in
  running w' = false ∧ reaped w' = true.
Proof.
  by apply (candidates_end_unless_selected (candidate_from SimulatedChild.handle) (SimulatedChild.fresh_child None)).
Defined.
