(* ===== verification/Launch.v ===== *)
(** * Launching a daemon on Unix (src/launch.rs, src/local/unix.rs,
      src/local/readiness.rs)

    [DaemonCommand] starts a daemon in a session of its own with only its standard
    streams and, when asked, one end of a readiness channel, which the daemon finds
    through its environment. A process is its descriptors and its environment;
    [spawn] is what the launcher does and [from_env] what the daemon does first.
    Every system call may fail. *)
From stdpp Require Import gmap list.
From S2P Require Import Prelude Text Files.

(** ** Processes *)

Inductive pipe_end := ReadEnd | WriteEnd.
Inductive open_file := Null | Pipe (id : nat) (e : pipe_end) | OtherFile (id : nat).

Record descriptor := Fd { file : open_file; cloexec : bool }.

#[export] Instance pipe_end_eq_dec : EqDecision pipe_end.
Proof. solve_decision. Defined.
#[export] Instance open_file_eq_dec : EqDecision open_file.
Proof. solve_decision. Defined.

(** [open_max] is the limit on descriptor numbers and [next_pipe] names the pipe the
    system makes next. *)
Record proc := Proc {
  fds : gmap Z descriptor;
  vars : gmap bytes bytes;
  leader : bool;
  open_max : Z;
  next_pipe : nat;
}.

Definition set_fds (t : gmap Z descriptor) (p : proc) : proc := Proc t (vars p) (leader p) (open_max p) (next_pipe p).
Definition set_vars (v : gmap bytes bytes) (p : proc) : proc := Proc (fds p) v (leader p) (open_max p) (next_pipe p).
Definition set_leader (b : bool) (p : proc) : proc := Proc (fds p) (vars p) b (open_max p) (next_pipe p).

(** The launcher: its process, the disposition of SIGCHLD (0 default, 1 ignored), its
    other children that exited and were not waited for, the daemons it started, and
    what is ahead: an error or none for each system call, with how many of its other
    children exit before it, and an error or none for each [signal]. *)
Record host := Host {
  me : proc; sigchld : Z; zombies : nat; running : list proc;
  faults : list (option io_error * nat); signals : list (option io_error);
}.

Definition set_me (p : proc) (h : host) : host := Host p (sigchld h) (zombies h) (running h) (faults h) (signals h).
Definition set_running (l : list proc) (h : host) : host := Host (me h) (sigchld h) (zombies h) l (faults h) (signals h).
Definition set_zombies (n : nat) (h : host) : host := Host (me h) (sigchld h) n (running h) (faults h) (signals h).

(** The kernel reaps the children of a process that ignores SIGCHLD. *)
Definition next_call (h : host) : host :=
  let exits := match head (faults h) with Some (_, n) => n | None => O end in
  Host (me h) (sigchld h) (if sigchld h =? 1 then zombies h else (zombies h + exits)%nat) (running h) (tail (faults h)) (signals h).

(** A system call fails, or does [f]. *)
Definition call {A} (f : proc → io_result (A * proc)) (h : host) : io_result A * host :=
  let h' := next_call h in
  match head (faults h) with
  | Some (Some e, _) => (Err e, h')
  | _ =>
      match f (me h) with
      | Ok (a, p) => (Ok a, set_me p h')
      | Err e => (Err e, h')
      end
  end.

Definition lowest_free (from : Z) (t : gmap Z descriptor) : Z :=
  default from (head (filter (λ n, t !! n = None) ((λ k, from + Z.of_nat k) <$> seq 0 (S (size t))))).

Definition too_many_files : io_error := IoError Other (Some 24) "".
Definition bad_descriptor : io_error := IoError Other (Some 9) "".

(** A new descriptor at the lowest free number from [from] up. *)
Definition alloc (from : Z) (d : descriptor) (p : proc) : io_result (Z * proc) :=
  let n := lowest_free from (fds p) in
  if open_max p <=? n then Err too_many_files else Ok (n, set_fds (<[n := d]> (fds p)) p).

Definition close (n : Z) (p : proc) : proc := set_fds (delete n (fds p)) p.
Definition closing (ns : list Z) (h : host) : host := set_me (foldr close (me h) ns) h.

(** [pipe]: both ends close-on-exec. *)
Definition pipe (p : proc) : io_result ((Z * Z) * proc) :=
  let id := next_pipe p in
  r ← alloc 0 (Fd (Pipe id ReadEnd) true) p;
  let '(reader, p) := r in
  w ← alloc 0 (Fd (Pipe id WriteEnd) true) p;
  let '(writer, p) := w in
  Ok ((reader, writer), Proc (fds p) (vars p) (leader p) (open_max p) (S id)).

(** [fcntl(F_DUPFD_CLOEXEC, from)]. *)
Definition dup_cloexec (n from : Z) (p : proc) : io_result (Z * proc) :=
  match fds p !! n with
  | Some d => alloc from (Fd (file d) true) p
  | None => Err bad_descriptor
  end.

Definition set_cloexec (n : Z) (b : bool) (p : proc) : io_result (unit * proc) :=
  match fds p !! n with
  | Some d => Ok (tt, set_fds (<[n := Fd (file d) b]> (fds p)) p)
  | None => Err bad_descriptor
  end.

(** ** [DaemonCommand] *)

Inductive DaemonOutput := NullOutput | FileOutput (fd : Z).
Inductive EnvChange := Set_ (name value : bytes) | Remove (name : bytes).

Definition ENV : bytes := bs "KUNOBI_DAEMON_READY".

Module DaemonCommand.
Record t := mk {
  program : bytes; args : list bytes; env : list EnvChange; current_dir : option bytes;
  stdout : DaemonOutput; stderr : DaemonOutput; readiness : bool;
}.

Definition new (program : bytes) : t := mk program [] [] None NullOutput NullOutput false.
Definition arg (a : bytes) (c : t) : t :=
  mk (program c) (args c ++ [a]) (env c) (current_dir c) (stdout c) (stderr c) (readiness c).
Definition add_args (l : list bytes) (c : t) : t :=
  mk (program c) (args c ++ l) (env c) (current_dir c) (stdout c) (stderr c) (readiness c).
Definition change_env (e : EnvChange) (c : t) : t :=
  mk (program c) (args c) (env c ++ [e]) (current_dir c) (stdout c) (stderr c) (readiness c).
Definition set_env (name value : bytes) : t → t := change_env (Set_ name value).
Definition env_remove (name : bytes) : t → t := change_env (Remove name).
Definition set_current_dir (dir : bytes) (c : t) : t :=
  mk (program c) (args c) (env c) (Some dir) (stdout c) (stderr c) (readiness c).
Definition set_stdout (o : DaemonOutput) (c : t) : t :=
  mk (program c) (args c) (env c) (current_dir c) o (stderr c) (readiness c).
Definition set_stderr (o : DaemonOutput) (c : t) : t :=
  mk (program c) (args c) (env c) (current_dir c) (stdout c) o (readiness c).
Definition readiness_channel (c : t) : t :=
  mk (program c) (args c) (env c) (current_dir c) (stdout c) (stderr c) true.

(** [From<&Command>], by what a [Command] reports of itself. *)
Definition from_command (program : bytes) (args : list bytes) (envs : list (bytes * option bytes)) (dir : option bytes) : t :=
  let d := add_args args (new program) in
  let d := foldl (λ d '(name, value), match value with Some v => set_env name v d | None => env_remove name d end) d envs in
  match dir with Some dir => set_current_dir dir d | None => d end.
End DaemonCommand.

(** The environment of a child, changed in order. *)
Definition changed (v : gmap bytes bytes) (e : EnvChange) : gmap bytes bytes :=
  match e with Set_ name value => <[name := value]> v | Remove name => delete name v end.

Section unix.
(** Whether the kernel marks descriptors in one call ([close_range]), and the soft
    limit it reports, if it does. *)
Context (linux : bool) (close_range : bool) (rlimit : option Z).

Definition descriptor_limit : Z :=
  let current := match rlimit with Some n => n | None => 1024 end in
  let capped := Z.min current 65536 in
  if capped <=? 2 ^ 31 - 1 then capped else 65536.

(** [mark_inherited_descriptors_cloexec]. *)
Definition mark_inherited_descriptors_cloexec (limit : Z) (t : gmap Z descriptor) : gmap Z descriptor :=
  let marked n := if linux && close_range then 3 <=? n else (3 <=? n) && (n <? limit) in
  map_imap (λ n d, Some (if marked n then Fd (file d) true else d)) t.

(** The hook of [in_new_session], in the child. *)
Definition prepare (keep : option Z) (limit : Z) (p : proc) : io_result proc :=
  let p := set_leader true p in
  let p := set_fds (mark_inherited_descriptors_cloexec limit (fds p)) p in
  match keep with
  | None => Ok p
  | Some n => r ← set_cloexec n false p; Ok r.2
  end.

(** The new program keeps the descriptors that are not close-on-exec. *)
Definition exec (v : gmap bytes bytes) (p : proc) : proc :=
  set_vars v (set_fds (filter (λ e, cloexec e.2 = false) (fds p)) p).

Definition has_nul (l : bytes) : bool := bool_decide (x00 ∈ l).

(** A [Command] that cannot be passed to exec. *)
Definition saw_nul (c : DaemonCommand.t) (changes : list EnvChange) : bool :=
  has_nul (DaemonCommand.program c) || existsb has_nul (DaemonCommand.args c) ||
  existsb (λ e, match e with Set_ n v => has_nul n || has_nul v | Remove n => has_nul n end) changes ||
  match DaemonCommand.current_dir c with Some d => has_nul d | None => false end.

(** [Command::spawn]: the child gets its standard streams, runs the hook and execs.
    [started] is what became of fork, chdir and exec. *)
Definition command_spawn (c : DaemonCommand.t) (changes : list EnvChange) (out err : open_file) (keep : option Z)
    (h : host) : io_result proc * host :=
  if saw_nul c changes then (Err (error_new InvalidInput "nul byte found in provided data"), h) else
  let p := me h in
  let streams := <[0 := Fd Null false]> (<[1 := Fd out false]> (<[2 := Fd err false]> (fds p))) in
  let '(r, h) := call (λ p, child ← prepare keep descriptor_limit (set_fds streams p);
                            Ok (exec (foldl changed (vars p) changes) child, p)) h in
  match r with Ok child => (Ok child, set_running (child :: running h) h) | Err e => (Err e, h) end.

(** [child_disposition]. *)
Definition child_disposition (handler : Z) (h : host) : io_result Z * host :=
  let rest := tail (signals h) in
  match head (signals h) with
  | Some (Some e) => (Err e, Host (me h) (sigchld h) (zombies h) (running h) (faults h) rest)
  | _ => (Ok (sigchld h), Host (me h) handler (zombies h) (running h) (faults h) rest)
  end.

(** [auto_reap_children] and [restore_child_waiting]. *)
Definition auto_reap_children (h : host) : io_result unit * host :=
  let '(r, h) := child_disposition 1 h in ((λ _, tt) <$> r, h).
Definition restore_child_waiting (h : host) : io_result unit * host :=
  let '(r, h) := child_disposition 0 h in ((λ _, tt) <$> r, h).

(** [watched], opening the exit handle: a failure kills the child and waits for it. *)
Definition watched (child : proc) (h : host) : io_result proc * host :=
  match call (λ p, Ok (tt, p)) h with
  | (Ok _, h) => (Ok child, h)
  | (Err e, h) => (Err e, set_running (tail (running h)) h)
  end.

(** [reap_exited_children]: every child that exited is waited for. *)
Definition reap_exited_children (h : host) : host := set_zombies 0 h.

(** [spawn_then]: the child is started and watched while SIGCHLD is at its default. *)
Definition spawn_then (spawn : host → io_result proc * host) (h : host) : io_result proc * host :=
  match child_disposition 0 h with
  | (Err e, h) => (Err e, h)
  | (Ok previous, h) =>
      let '(child, h) := match spawn h with
                         | (Err e, h) => (Err e, h)
                         | (Ok child, h) => watched child h
                         end in
      match child_disposition previous h with
      | (Err e, h) => (Err e, h)
      | (Ok _, h) => (child, if previous =? 1 then reap_exited_children h else h)
      end
  end.

(** [ready_pipe]: the launcher's end and the daemon's, which is above stderr. *)
Definition ready_pipe (h : host) : io_result (Z * Z) * host :=
  match call pipe h with
  | (Err e, h) => (Err e, h)
  | (Ok (reader, writer), h) =>
      match call (dup_cloexec writer 3) h with
      | (Ok raised, h) => (Ok (reader, raised), closing [writer] h)
      | (Err e, h) => (Err e, closing [reader; writer] h)
      end
  end.

(** [unix_stdio]: the stream, and the descriptor cloned for it. *)
Definition unix_stdio (o : DaemonOutput) (h : host) : io_result (open_file * list Z) * host :=
  match o with
  | NullOutput => (Ok (Null, []), h)
  | FileOutput fd =>
      match call (dup_cloexec fd 3) h with
      | (Ok n, h) => (Ok (match fds (me h) !! n with Some d => file d | None => Null end, [n]), h)
      | (Err e, h) => (Err e, h)
      end
  end.

(** [DaemonCommand::spawn] on Unix: the daemon, and the launcher's end of its
    channel. *)
Definition spawn (c : DaemonCommand.t) (h : host) : io_result (proc * option Z) * host :=
  match unix_stdio (DaemonCommand.stdout c) h with
  | (Err e, h) => (Err e, h)
  | (Ok (out, owned1), h) =>
      match unix_stdio (DaemonCommand.stderr c) h with
      | (Err e, h) => (Err e, closing owned1 h)
      | (Ok (err, owned2), h) =>
          let owned := owned1 ++ owned2 in
          if DaemonCommand.readiness c then
            match ready_pipe h with
            | (Err e, h) => (Err e, closing owned h)
            | (Ok (reader, child_end), h) =>
                (* the thread of [Channel::start] *)
                match call (λ p, Ok (tt, p)) h with
                | (Err e, h) => (Err e, closing (reader :: child_end :: owned) h)
                | (Ok _, h) =>
                    let changes := DaemonCommand.env c ++ [Set_ ENV (to_string child_end)] in
                    match spawn_then (command_spawn c changes out err (Some child_end)) h with
                    | (Err e, h) => (Err e, closing (reader :: child_end :: owned) h)
                    | (Ok child, h) => (Ok (child, Some reader), closing (child_end :: owned) h)
                    end
                end
            end
          else
            let changes := DaemonCommand.env c ++ [Remove ENV] in
            match spawn_then (command_spawn c changes out err None) h with
            | (Err e, h) => (Err e, closing owned h)
            | (Ok child, h) => (Ok (child, None), closing owned h)
            end
      end
  end.
End unix.

(** ** The daemon's side *)

Definition refuse (text : string) : io_error := error_new InvalidInput text.

(** [str::parse::<i32>]. *)
Definition parse_i32 (l : bytes) : option Z :=
  match l with
  | b :: rest =>
      if decide (b = "-"%byte) then
        match rest with
        | c :: _ => if decide (c = "+"%byte) then None else Z.opp <$> parse_uint (2 ^ 31) rest
        | [] => None
        end
      else parse_uint (2 ^ 31 - 1) l
  | [] => None
  end.

(** [take_ready_descriptor]: the pipe whose write end the daemon takes over. *)
Definition take_ready_descriptor (value : bytes) (p : proc) : io_result nat * proc :=
  match parse_i32 value with
  | None => (Err (refuse "the readiness channel is not a descriptor number"), p)
  | Some fd =>
      if fd <=? 2 then (Err (refuse "a standard stream is not a readiness channel"), p) else
      match fds p !! fd with
      | None => (Err bad_descriptor, p)
      | Some d =>
          match file d with
          | Pipe id WriteEnd =>
              match set_cloexec fd true p with
              | Ok (_, p) => (Ok id, p)
              | Err e => (Err e, p)
              end
          | Pipe _ ReadEnd => (Err (refuse "the readiness channel is not the write end of a pipe"), p)
          | _ => (Err (refuse "the readiness channel is not a pipe"), p)
          end
      end
  end.

(** [Notifier::from_env]. *)
Definition from_env (p : proc) : io_result (option nat) * proc :=
  match vars p !! ENV with
  | None => (Ok None, p)
  | Some value =>
      let p := set_vars (delete ENV (vars p)) p in
      if is_utf8 value then
        let '(r, p) := take_ready_descriptor value p in (Some <$> r, p)
      else (Err (refuse "the readiness channel variable is not text"), p)
  end.

(** ** Descriptors *)

(** Descriptors are not negative, and the pipes there are have been made. *)
Definition well_formed (p : proc) : Prop :=
  ∀ n d, fds p !! n = Some d → 0 ≤ n ∧ ∀ id e, file d = Pipe id e → (id < next_pipe p)%nat.

Lemma lowest_free_spec from t : from ≤ lowest_free from t ∧ t !! lowest_free from t = None.
Proof.
  unfold lowest_free. set (l := (λ k, from + Z.of_nat k) <$> seq 0 (S (size t))).
  destruct (filter (λ n, t !! n = None) l) as [|n rest] eqn:Ef; simpl.
  - exfalso. assert (list_to_set l ⊆@{gset Z} dom t) as Hsub.
    { intros n Hn%elem_of_list_to_set. apply elem_of_dom. destruct (t !! n) eqn:E; [by eexists|].
      assert (n ∈ filter (λ n, t !! n = None) l) as Hin by (by apply list_elem_of_filter).
      rewrite Ef in Hin. by apply elem_of_nil in Hin. }
    apply subseteq_size in Hsub. rewrite size_list_to_set, size_dom in Hsub.
    + unfold l in Hsub. rewrite length_fmap, length_seq in Hsub. lia.
    + apply NoDup_fmap; [intros a b; lia|apply NoDup_seq].
  - assert (n ∈ filter (λ n, t !! n = None) l) as [Hn Hin]%list_elem_of_filter by (rewrite Ef; by left).
    split; [|done]. apply list_elem_of_fmap in Hin as (k & -> & _). lia.
Qed.

Lemma alloc_ok from d p n p' :
  alloc from d p = Ok (n, p') →
  from ≤ n < open_max p ∧ fds p !! n = None ∧ p' = set_fds (<[n := d]> (fds p)) p.
Proof.
  unfold alloc. destruct (lowest_free_spec from (fds p)) as [Hf Hn].
  destruct (Z.leb_spec (open_max p) (lowest_free from (fds p))); [done|]. intros [= <- <-]. split_and!; [lia..|done|done].
Qed.

(** What a step of a launch leaves alone of the host, the process apart. *)
Record calm (h h' : host) : Prop := {
  calm_sigchld : sigchld h' = sigchld h;
  calm_running : running h' = running h;
  calm_signals : signals h' = signals h;
  calm_zombies : sigchld h = 1 → zombies h' = zombies h;
}.

#[export] Instance calm_preorder : PreOrder calm.
Proof.
  split; [by intros h; constructor|]. intros a b c [] []. constructor; [congruence..|].
  intros H. etrans; [|by apply calm_zombies0]. apply calm_zombies1. congruence.
Qed.

Lemma call_calm {A} (f : proc → io_result (A * proc)) h r h' : call f h = (r, h') → calm h h'.
Proof.
  assert (∀ p, calm h (set_me p (next_call h)) ∧ calm h (next_call h)) as Hc.
  { intros p. split; constructor; try done; intros H; simpl; by rewrite H. }
  unfold call. destruct (head (faults h)) as [[[e|] n]|]; [|destruct (f (me h)) as [[a p]|e]..]; intros [= <- <-];
    first [exact (proj1 (Hc _))|exact (proj2 (Hc (me h)))].
Qed.

Lemma call_ok {A} (f : proc → io_result (A * proc)) h a h' :
  call f h = (Ok a, h') → ∃ p, f (me h) = Ok (a, p) ∧ me h' = p ∧ calm h h'.
Proof.
  intros H. pose proof (call_calm _ _ _ _ H) as Hc. unfold call in H.
  destruct (head (faults h)) as [[[e|] n]|]; [done|..]; destruct (f (me h)) as [[a' p]|e] eqn:E; simplify_eq; eauto.
Qed.

Lemma call_err {A} (f : proc → io_result (A * proc)) h e h' : call f h = (Err e, h') → me h' = me h ∧ calm h h'.
Proof.
  intros H. split; [|by eapply call_calm]. unfold call in H.
  destruct (head (faults h)) as [[[e'|] n]|]; [|destruct (f (me h)) as [[a' p]|e']..]; by simplify_eq.
Qed.

Lemma closing_calm ns h : calm h (closing ns h).
Proof. by constructor. Qed.

(** A process is the same but for its descriptors. *)
Definition same_but_fds (p p' : proc) : Prop := vars p' = vars p ∧ leader p' = leader p ∧ open_max p' = open_max p.

Lemma ready_pipe_ok h reader child_end h' :
  ready_pipe h = (Ok (reader, child_end), h') →
  let id := next_pipe (me h) in
  0 ≤ reader ∧ 3 ≤ child_end < open_max (me h) ∧ reader ≠ child_end ∧
  fds (me h) !! reader = None ∧ fds (me h) !! child_end = None ∧
  fds (me h') = <[child_end := Fd (Pipe id WriteEnd) true]> (<[reader := Fd (Pipe id ReadEnd) true]> (fds (me h))) ∧
  same_but_fds (me h) (me h') ∧ next_pipe (me h') = S id ∧ calm h h'.
Proof.
  unfold ready_pipe. destruct (call pipe h) as [[[r w]|e] h1] eqn:Ep; [|done].
  apply call_ok in Ep as (p1 & Hp & Hme1 & Hsig1). unfold pipe in Hp.
  apply result_bind_Ok in Hp as ([r' pa] & Ha & Hp). apply result_bind_Ok in Hp as ([w' pb] & Hb & Hp). injection Hp as -> -> <-.
  apply alloc_ok in Ha as (Hr & Hrn & ->), Hb as (Hw & Hwn & ->). simpl in *.
  destruct (call (dup_cloexec w 3) h1) as [[c|e] h2] eqn:Ed; [|done]. intros [= -> -> <-].
  apply call_ok in Ed as (p2 & Hd & Hme2 & Hsig2). rewrite Hme1 in Hd. unfold dup_cloexec in Hd. simpl in Hd.
  rewrite lookup_insert_eq in Hd. simpl in Hd. apply alloc_ok in Hd as (Hc & Hcn & ->). simpl in *.
  apply lookup_insert_None in Hwn as [Hwn Hne]. apply lookup_insert_None in Hcn as [Hcn Hwc].
  apply lookup_insert_None in Hcn as [Hcn Hrc]. unfold closing. simpl. rewrite Hme2. unfold close. simpl.
  split_and!; [lia..|done|done|done| |done|done|].
  - rewrite delete_insert_ne by done. by rewrite delete_insert_id by by apply lookup_insert_None.
  - etrans; [exact Hsig1|]. etrans; [exact Hsig2|]. by constructor.
Qed.

(** A stream and the descriptor cloned for it, which is close-on-exec. *)
Lemma unix_stdio_ok o h f owned h' :
  unix_stdio o h = (Ok (f, owned), h') →
  same_but_fds (me h) (me h') ∧ next_pipe (me h') = next_pipe (me h) ∧ calm h h' ∧
  (f = Null ∨ ∃ n d, fds (me h) !! n = Some d ∧ file d = f) ∧
  (owned = [] ∧ fds (me h') = fds (me h) ∨
   ∃ n, owned = [n] ∧ 3 ≤ n ∧ fds (me h) !! n = None ∧ fds (me h') = <[n := Fd f true]> (fds (me h))).
Proof.
  destruct o as [|fd]; simpl.
  { intros [= <- <- <-]. split_and!; try done; by left. }
  destruct (call (dup_cloexec fd 3) h) as [[n|e] h1] eqn:Ed; [|done]. intros [= <- <- <-].
  apply call_ok in Ed as (p1 & Hd & Hme & Hsig). unfold dup_cloexec in Hd. destruct (fds (me h) !! fd) as [d|] eqn:Efd; [|done].
  apply alloc_ok in Hd as (Hn & Hnn & ->). rewrite Hme. simpl. rewrite lookup_insert_eq. simpl.
  split_and!; [done..| |]; right; [eauto|]. exists n. by split_and!; [|lia|..].
Qed.

Section child.
Context (linux close_range : bool) (rlimit : option Z).

(** Every descriptor of the launcher that a child would keep is within the sweep. *)
Definition swept (t : gmap Z descriptor) : Prop :=
  linux && close_range = true ∨ ∀ n d, t !! n = Some d → cloexec d = true ∨ n < descriptor_limit rlimit.

Lemma marked_lookup limit t n :
  mark_inherited_descriptors_cloexec linux close_range limit t !! n =
  (λ d, if (if linux && close_range then 3 <=? n else (3 <=? n) && (n <? limit)) then Fd (file d) true else d) <$> t !! n.
Proof. unfold mark_inherited_descriptors_cloexec. rewrite map_lookup_imap. by destruct (t !! n). Qed.

(** What the child has of the launcher's descriptors above stderr is the one it
    keeps. *)
Lemma swept_above limit t n d :
  (linux && close_range = true ∨ ∀ d, t !! n = Some d → cloexec d = true ∨ n < limit) → 3 ≤ n →
  mark_inherited_descriptors_cloexec linux close_range limit t !! n = Some d → cloexec d = true.
Proof.
  intros Hs Hn Hd. rewrite marked_lookup in Hd. destruct (t !! n) as [d'|] eqn:E; [|done]. simpl in Hd. injection Hd as <-.
  destruct Hs as [->|Hs].
  - by rewrite (proj2 (Z.leb_le 3 n) Hn).
  - rewrite (proj2 (Z.leb_le 3 n) Hn). destruct (linux && close_range); [done|]. cbn [andb].
    destruct (Z.ltb_spec n limit); [done|]. destruct (Hs d' eq_refl); [done|lia].
Qed.

Lemma streams_lookup (t : gmap Z descriptor) out err n :
  (<[0 := Fd Null false]> (<[1 := Fd out false]> (<[2 := Fd err false]> t)) : gmap Z descriptor) !! n =
  if decide (n = 0) then Some (Fd Null false) else if decide (n = 1) then Some (Fd out false)
  else if decide (n = 2) then Some (Fd err false) else t !! n.
Proof.
  repeat case_decide; subst; rewrite ?lookup_insert_eq; try done; rewrite ?lookup_insert_ne by done;
    rewrite ?lookup_insert_eq; done.
Qed.

Lemma command_spawn_ok c changes out err keep h child h' :
  swept (fds (me h)) → (∀ n d, fds (me h) !! n = Some d → 0 ≤ n) → (∀ n, keep = Some n → 3 ≤ n) →
  command_spawn linux close_range rlimit c changes out err keep h = (Ok child, h') →
  me h' = me h ∧ leader child = true ∧ vars child = foldl changed (vars (me h)) changes ∧
  ∀ n, fds child !! n =
    if decide (n = 0) then Some (Fd Null false) else if decide (n = 1) then Some (Fd out false)
    else if decide (n = 2) then Some (Fd err false)
    else if decide (keep = Some n) then (λ d, Fd (file d) false) <$> fds (me h) !! n else None.
Proof.
  intros Hs Hpos Hkeep. unfold command_spawn. destruct (saw_nul c changes); [done|].
  destruct (call _ h) as [[c'|e] h1] eqn:Ec; [|done]. intros [= <- <-].
  apply call_ok in Ec as (p & Hp & Hme & _). apply result_bind_Ok in Hp as (q & Hq & Hp). injection Hp as <- <-.
  set (t := <[0 := Fd Null false]> (<[1 := Fd out false]> (<[2 := Fd err false]> (fds (me h))))) in Hq.
  set (marked := mark_inherited_descriptors_cloexec linux close_range (descriptor_limit rlimit) t) in *.
  assert (∀ n d, t !! n = Some d → 0 ≤ n) as Hpos'.
  { intros n d. unfold t. rewrite streams_lookup. repeat case_decide; [lia..|apply Hpos]. }
  assert (∀ n, 0 ≤ n ≤ 2 → marked !! n = t !! n) as Hlow.
  { intros n Hn. unfold marked. rewrite marked_lookup.
    replace (if linux && close_range then 3 <=? n else (3 <=? n) && (n <? descriptor_limit rlimit)) with false.
    - by destruct (t !! n).
    - assert ((3 <=? n) = false) as -> by (apply Z.leb_gt; lia). by destruct (linux && close_range). }
  assert (∀ n d, 3 ≤ n → marked !! n = Some d → cloexec d = true) as Hhigh.
  { intros n d Hn. apply swept_above; [|done]. destruct Hs as [Hs|Hs]; [by left|right]. intros d'.
    unfold t. rewrite streams_lookup. repeat case_decide; [lia..|]. apply Hs. }
  assert (∀ n, 3 ≤ n → file <$> marked !! n = file <$> fds (me h) !! n) as Hfile.
  { intros n Hn. unfold marked. rewrite marked_lookup. unfold t. rewrite streams_lookup. repeat case_decide; [lia..|].
    destruct (fds (me h) !! n); simpl; [|done]. by repeat case_match. }
  assert (leader q = true ∧ vars q = vars (me h) ∧
    ∀ n, fds q !! n = if decide (keep = Some n) then (λ d, Fd (file d) false) <$> marked !! n else marked !! n)
    as (Hlead & _ & Hq').
  { destruct keep as [k|]; simpl in Hq; [|injection Hq as <-; split_and!; try done; intros n; by rewrite decide_False].
    apply result_bind_Ok in Hq as ([[] q'] & Hk & Hq). injection Hq as <-. unfold set_cloexec in Hk. simpl in Hk.
    change (mark_inherited_descriptors_cloexec _ _ _ _) with marked in Hk.
    destruct (marked !! k) as [d|] eqn:Ek; [|done]. injection Hk as <-. split_and!; try done. simpl. intros n.
    destruct (decide (Some k = Some n)) as [[= ->]|Hn]; [by rewrite lookup_insert_eq, Ek|].
    rewrite lookup_insert_ne; [done|congruence]. }
  split_and!; [done..| |].
  { done. }
  intros n. simpl. rewrite map_lookup_filter, Hq'. destruct (decide (keep = Some n)) as [Hk|Hk].
  - specialize (Hkeep n Hk). rewrite !decide_False by lia. specialize (Hfile n Hkeep).
    destruct (marked !! n) as [d|], (fds (me h) !! n) as [d'|]; simplify_eq/=; try done. by rewrite Hfile.
  - destruct (decide (n < 0)) as [Hneg|Hneg].
    { rewrite !decide_False by lia. destruct (marked !! n) as [d|] eqn:E; [|done]. exfalso. unfold marked in E.
      rewrite marked_lookup in E. destruct (t !! n) as [d'|] eqn:Et; [|done]. apply Hpos' in Et. lia. }
    destruct (decide (n ≤ 2)) as [Hle|Hle].
    + rewrite Hlow by lia. unfold t. rewrite streams_lookup. repeat case_decide; try lia; done.
    + rewrite !decide_False by lia. destruct (marked !! n) as [d|] eqn:E; [|done]. simpl.
      rewrite (Hhigh n d) by (done || lia). done.
Qed.
End child.

(** What a spawn does with the children: on success there is one more. *)
Definition starts (h : host) (r : io_result proc) (h' : host) : Prop :=
  me h' = me h ∧ sigchld h' = sigchld h ∧ signals h' = signals h ∧
  running h' = match r with Ok child => child :: running h | Err _ => running h end.

Lemma command_spawn_starts linux close_range rlimit c changes out err keep h r h' :
  command_spawn linux close_range rlimit c changes out err keep h = (r, h') → starts h r h'.
Proof.
  unfold command_spawn. destruct (saw_nul c changes); [by intros [= <- <-]|].
  destruct (call _ h) as [[child|e] h1] eqn:Ec; intros [= <- <-].
  - apply call_ok in Ec as (p & Hp & <- & [? Hr ? _]). apply result_bind_Ok in Hp as (q & Hq & Hp). injection Hp as _ Hp.
    unfold starts. simpl. by rewrite Hr.
  - apply call_err in Ec as [? []]. done.
Qed.

Lemma child_disposition_ok n h : head (signals h) = Some None ∨ signals h = [] →
  ∃ h', child_disposition n h = (Ok (sigchld h), h') ∧ me h' = me h ∧ sigchld h' = n ∧ zombies h' = zombies h ∧
    running h' = running h ∧ signals h' = tail (signals h).
Proof. unfold child_disposition. intros [->| ->]; simpl; eexists; split; [done| |done|]; done. Qed.

(** [signal] does not fail for the default disposition or for none. *)
Definition signals_work (h : host) : Prop := Forall (λ x, x = None) (signals h).

Lemma signals_work_head h : signals_work h → head (signals h) = Some None ∨ signals h = [].
Proof. unfold signals_work. destruct (signals h); [by right|]. intros [-> _]%Forall_cons. by left. Qed.

(** A launch leaves SIGCHLD alone and no more children unreaped than there were. *)
Definition tidy (h h' : host) : Prop :=
  sigchld h' = sigchld h ∧ (sigchld h = 1 → (zombies h' ≤ zombies h)%nat).

Lemma calm_tidy h h' : calm h h' → tidy h h'.
Proof. intros []. split; [done|]. intros H. rewrite calm_zombies0 by done. done. Qed.

Lemma calm_then_tidy h h1 h2 ns : calm h h1 → tidy h1 h2 → tidy h (closing ns h2).
Proof. intros [Hs _ _ Hz] [Hs' Hz']. split; simpl; [congruence|]. intros H. rewrite <- Hz by done. apply Hz'. congruence. Qed.

Lemma signals_work_calm h h' : calm h h' → signals_work h → signals_work h'.
Proof. intros [_ _ Hq _]. unfold signals_work. by rewrite Hq. Qed.

Lemma spawn_then_starts f h r h' :
  signals_work h → (∀ h r h', f h = (r, h') → starts h r h') → spawn_then f h = (r, h') →
  me h' = me h ∧ tidy h h' ∧ running h' = match r with Ok child => child :: running h | Err _ => running h end ∧
  ∀ child, r = Ok child → ∃ h1 h2, f h1 = (Ok child, h2) ∧ me h1 = me h.
Proof.
  intros Hw Hf. unfold spawn_then.
  destruct (child_disposition_ok 0 h (signals_work_head h Hw)) as (h1 & -> & Hme1 & Hs1 & Hz1 & Hr1 & Hq1).
  destruct (match f h1 with (Ok child, h) => watched child h | (Err e, h) => (Err e, h) end) as [r' h2] eqn:E.
  assert (starts h1 r' h2 ∧ ∀ child, r' = Ok child → ∃ h2, f h1 = (Ok child, h2)) as [(Hme2 & _ & Hq2 & Hr2) Hrun].
  { destruct (f h1) as [[child|e] h1'] eqn:Ef; [|injection E as <- <-; split; [by apply (Hf _ _ _ Ef)|done]].
    destruct (Hf _ _ _ Ef) as (Hm & Hs & Hq & Hr). unfold watched in E.
    destruct (call _ h1') as [[[]|e] h3] eqn:Ec; injection E as <- <-.
    - apply call_ok in Ec as (p & [= <-] & Hm' & []). split; [by split_and!; congruence|]. intros ? [= <-]. eauto.
    - apply call_err in Ec as (Hm' & [? Hr' ? _]). split; [|done]. split_and!; simpl; [congruence..|]. by rewrite Hr', Hr. }
  assert (signals_work h2) as Hw2.
  { unfold signals_work in *. rewrite Hq2, Hq1. destruct (signals h); [done|]. by apply Forall_cons in Hw as [_ ?]. }
  destruct (child_disposition_ok (sigchld h) h2 (signals_work_head h2 Hw2)) as (h3 & -> & Hme3 & Hs3 & Hz3 & Hr3 & Hq3).
  intros [= <- <-]. split_and!.
  - destruct (sigchld h =? 1); simpl; congruence.
  - destruct (Z.eqb_spec (sigchld h) 1) as [Hi|Hi]; (split; [done|]); [simpl; lia|done].
  - rewrite Hr1 in Hr2. destruct (sigchld h =? 1); simpl; by rewrite Hr3, Hr2.
  - intros child Hc. destruct (Hrun child Hc) as [h4 H4]. eauto.
Qed.

(** A clone of a stream is one new descriptor, or none. *)
Lemma unix_stdio_extra o h f owned h' :
  unix_stdio o h = (Ok (f, owned), h') →
  ∃ extra : gmap Z descriptor,
    fds (me h') = extra ∪ fds (me h) ∧ extra ##ₘ fds (me h) ∧ dom extra = list_to_set owned ∧
    ∀ n d, extra !! n = Some d → 3 ≤ n ∧ cloexec d = true ∧ file d = f.
Proof.
  intros (_ & _ & _ & _ & Ho)%unix_stdio_ok. destruct Ho as [[-> ->]|(n & -> & Hn & Hnone & ->)].
  - exists ∅. split_and!; [by rewrite map_empty_union|apply map_disjoint_empty_l|by rewrite dom_empty_L|done].
  - exists {[n := Fd f true]}. split_and!; [by rewrite insert_union_singleton_l|by apply map_disjoint_singleton_l| |].
    + rewrite dom_singleton_L. set_solver.
    + by intros m d [<- <-]%lookup_singleton_Some.
Qed.

(** The clones of both streams. *)
Lemma streams_cloned o1 o2 h f1 owned1 h1 f2 owned2 h2 :
  unix_stdio o1 h = (Ok (f1, owned1), h1) → unix_stdio o2 h1 = (Ok (f2, owned2), h2) →
  same_but_fds (me h) (me h2) ∧ next_pipe (me h2) = next_pipe (me h) ∧ calm h h2 ∧
  (∀ f, f = f1 ∨ f = f2 → f = Null ∨ ∃ n d, fds (me h) !! n = Some d ∧ file d = f) ∧
  ∃ extra : gmap Z descriptor,
    fds (me h2) = extra ∪ fds (me h) ∧ extra ##ₘ fds (me h) ∧ dom extra = list_to_set (owned1 ++ owned2) ∧
    ∀ n d, extra !! n = Some d → 3 ≤ n ∧ cloexec d = true ∧ (file d = f1 ∨ file d = f2).
Proof.
  intros H1 H2. destruct (unix_stdio_extra _ _ _ _ _ H1) as (e1 & Ht1 & Hd1 & Hdom1 & He1).
  destruct (unix_stdio_extra _ _ _ _ _ H2) as (e2 & Ht2 & Hd2 & Hdom2 & He2).
  apply unix_stdio_ok in H1 as ((? & ? & ?) & ? & ? & Hf1 & _), H2 as ((? & ? & ?) & ? & ? & Hf2 & _).
  unfold same_but_fds. split_and!; [congruence..|by etrans| |].
  - intros f [-> | ->]; [done|]. destruct Hf2 as [?|(n & d & Hn & Hd)]; [by left|]. rewrite Ht1 in Hn.
    apply lookup_union_Some in Hn as [Hn|Hn]; [|right; eauto|done]. apply He1 in Hn as (_ & _ & Hn).
    rewrite <- Hd, Hn. done.
  - rewrite Ht1 in Hd2. apply map_disjoint_union_r in Hd2 as [Hd2 Hd2']. exists (e2 ∪ e1). split_and!.
    + by rewrite Ht2, Ht1, assoc by apply _.
    + by apply map_disjoint_union_l.
    + rewrite dom_union_L, Hdom1, Hdom2. set_solver.
    + intros n d [Hn|Hn]%lookup_union_Some; [apply He2 in Hn; naive_solver|apply He1 in Hn; naive_solver|done].
Qed.

(** Closing what was cloned gives the descriptors back. *)
Lemma closing_extra (extra t : gmap Z descriptor) owned h :
  extra ##ₘ t → dom extra = list_to_set owned → fds (me h) = extra ∪ t → fds (me (closing owned h)) = t.
Proof.
  intros Hd Hdom Ht. assert (∀ ns p, fds (foldr close p ns) = filter (λ e, e.1 ∉ ns) (fds p)) as Hclose.
  { induction ns as [|n ns IH]; intros p; simpl.
    - symmetry. apply map_filter_id. intros ? ? _. apply not_elem_of_nil.
    - rewrite IH. apply map_eq. intros m. rewrite lookup_delete, !map_lookup_filter. case_decide as Hm.
      + subst. destruct (fds p !! m); [|done]. simpl. rewrite option_guard_False; [done|]. set_solver.
      + destruct (fds p !! m); [|done]. simpl. repeat case_guard; set_solver. }
  unfold closing. simpl. rewrite Hclose, Ht. apply map_eq. intros n. rewrite map_lookup_filter.
  destruct (decide (n ∈ owned)) as [Hn|Hn].
  - assert (is_Some (extra !! n)) as [d He] by (apply elem_of_dom; rewrite Hdom; by apply elem_of_list_to_set).
    rewrite (map_disjoint_Some_l _ _ _ _ Hd He). destruct ((extra ∪ t) !! n); [|done]. simpl. by rewrite option_guard_False by auto.
  - assert (extra !! n = None) as He by (apply not_elem_of_dom; rewrite Hdom; by rewrite elem_of_list_to_set).
    rewrite lookup_union_r by done. destruct (t !! n); [|done]. simpl. by rewrite option_guard_True.
Qed.

(** The daemon finds its end of the channel through its environment. *)
Lemma from_env_finds child fd id :
  vars child !! ENV = Some (to_string fd) → 3 ≤ fd < 2 ^ 31 → file <$> fds child !! fd = Some (Pipe id WriteEnd) →
  ∃ daemon, from_env child = (Ok (Some id), daemon) ∧ vars daemon = delete ENV (vars child) ∧
    fds daemon = <[fd := Fd (Pipe id WriteEnd) true]> (fds child).
Proof.
  intros Hv Hfd Hf. unfold from_env. rewrite Hv.
  assert (Forall (λ b, is_ascii_digit b = true) (to_string fd)) as Hdigits by (apply to_string_digits; lia).
  rewrite is_utf8_ascii.
  2: { eapply Forall_impl; [exact Hdigits|]. intros b Hb. unfold is_ascii_digit in Hb. bools. lia. }
  assert (parse_i32 (to_string fd) = Some fd) as Hp.
  { unfold parse_i32. pose proof (parse_to_string (2 ^ 31 - 1) fd) as Hp. destruct (to_string fd) as [|b l] eqn:E.
    - exfalso. eapply to_string_nonempty; [|exact E]. lia.
    - rewrite decide_False; [apply Hp; lia|]. apply Forall_cons in Hdigits as [Hb _]. intros ->. by vm_compute in Hb. }
  unfold take_ready_descriptor. rewrite Hp. destruct (Z.leb_spec fd 2); [lia|]. simpl.
  destruct (fds child !! fd) as [d|] eqn:Ed; simpl in Hf; [|done]. injection Hf as Hf. rewrite Hf. unfold set_cloexec. simpl.
  rewrite Ed, Hf. by eexists.
Qed.

Lemma changed_other l v name : name ≠ ENV → foldl changed v (l ++ [Remove ENV]) !! name = foldl changed v l !! name.
Proof. intros Hn. rewrite foldl_app. simpl. by rewrite lookup_delete_ne. Qed.

(** Both streams cloned: the files they are, the descriptors that are open. *)
Lemma streams_ready linux close_range rlimit o1 o2 h f1 owned1 h1 f2 owned2 h2 :
  well_formed (me h) → swept linux close_range rlimit (fds (me h)) →
  unix_stdio o1 h = (Ok (f1, owned1), h1) → unix_stdio o2 h1 = (Ok (f2, owned2), h2) →
  (∀ f id e, f = f1 ∨ f = f2 → f = Pipe id e → (id < next_pipe (me h))%nat) ∧
  (∀ n d, fds (me h2) !! n = Some d → 0 ≤ n) ∧ swept linux close_range rlimit (fds (me h2)).
Proof.
  intros Hwf Hsw E1 E2. destruct (streams_cloned _ _ _ _ _ _ _ _ _ E1 E2) as (_ & _ & _ & Hf & extra & Ht2 & Hd & _ & Hex).
  split_and!.
  - intros f id e Hfo ->. destruct (Hf _ Hfo) as [?|(n & d & Hn & Hfd)]; [done|]. by eapply Hwf.
  - intros n d Hn. rewrite Ht2 in Hn. apply lookup_union_Some in Hn as [Hn|Hn]; [apply Hex in Hn; lia|by apply Hwf in Hn as [? _]|done].
  - destruct Hsw as [?|Hsw]; [by left|right]. intros n d Hn. rewrite Ht2 in Hn.
    apply lookup_union_Some in Hn as [Hn|Hn]; [left; by apply Hex in Hn as (_ & ? & _)|by apply Hsw|done].
Qed.

(** The ends of the pipe [id] after a launch with a channel: the launcher [h'] has
    the read end [r], the child one write end and its three streams. *)
Definition channel_between (h h' : host) (child : proc) (r : Z) : Prop :=
  let id := next_pipe (me h) in
  fds (me h') = <[r := Fd (Pipe id ReadEnd) true]> (fds (me h)) ∧
  (∀ n d, fds (me h') !! n = Some d → file d ≠ Pipe id WriteEnd) ∧
  ∃ fd daemon, 3 ≤ fd ∧ (∀ n, is_Some (fds child !! n) ↔ 0 ≤ n ≤ 2 ∨ n = fd) ∧
    (∀ n d, fds child !! n = Some d → file d = Pipe id WriteEnd → n = fd) ∧
    from_env child = (Ok (Some id), daemon) ∧ vars daemon !! ENV = None ∧
    fds daemon !! fd = Some (Fd (Pipe id WriteEnd) true).

(** The child's descriptors with a channel at [ce], and what it makes of them. *)
Lemma channel_taken (h h' : host) child r ce (out err : open_file) :
  let id := next_pipe (me h) in
  well_formed (me h) → 3 ≤ ce < 2 ^ 31 →
  (∀ f id e, f = out ∨ f = err → f = Pipe id e → (id < next_pipe (me h))%nat) →
  vars child !! ENV = Some (to_string ce) →
  (∀ n, fds child !! n =
    if decide (n = 0) then Some (Fd Null false) else if decide (n = 1) then Some (Fd out false)
    else if decide (n = 2) then Some (Fd err false)
    else if decide (n = ce) then Some (Fd (Pipe id WriteEnd) false) else None) →
  fds (me h') = <[r := Fd (Pipe id ReadEnd) true]> (fds (me h)) →
  channel_between h h' child r.
Proof.
  intros id Hwf Hce Hold Henv Hfds Hback. split; [done|]. split.
  { intros n d. rewrite Hback. intros [[_ <-]|[_ Hn]]%lookup_insert_Some; [done|]. intros Hpipe.
    apply Hwf in Hn as [_ Hn]. apply Hn in Hpipe. unfold id in Hpipe. lia. }
  destruct (from_env_finds child ce id) as (daemon & Hfrom & Hdv & Hdf); [done|lia| |].
  { rewrite Hfds, !decide_False by lia. by rewrite decide_True. }
  exists ce, daemon. split_and!; [lia| | |done|by rewrite Hdv, lookup_delete_eq|by rewrite Hdf, lookup_insert_eq].
  - intros n. rewrite Hfds. repeat case_decide; simplify_eq; (split; [try lia; by intros [? [=]]|try by eexists]); lia.
  - intros n d. rewrite Hfds. repeat case_decide; simplify_eq; try done; intros [= <-] Hpipe; simpl in Hpipe; try done.
    all: exfalso; eapply Nat.lt_irrefl, Hold; [|exact Hpipe]; auto.
Qed.


(** A launcher with a build tool's pipe left inheritable. *)
Definition launcher : host :=
  Host (Proc (list_to_map [(0, Fd (OtherFile 0) false); (1, Fd (OtherFile 1) false); (2, Fd (OtherFile 1) false);
                           (3, Fd (OtherFile 7) true); (5, Fd (Pipe 0 WriteEnd) false)])
         {[ bs "PATH" := bs "/bin"; ENV := bs "5" ]} false 256 1) 1 2 [] [(None, O); (None, 1%nat); (None, 2%nat)] [].

Definition exampled : DaemonCommand.t :=
  DaemonCommand.readiness_channel (DaemonCommand.set_stderr (FileOutput 3)
    (DaemonCommand.set_env (bs "LANG") (bs "C") (DaemonCommand.arg (bs "--serve") (DaemonCommand.new (bs "/bin/exampled"))))).

Lemma launcher_well_formed : well_formed (me launcher).
Proof.
  intros n d Hn. unfold launcher, me, fds in Hn. apply (elem_of_list_to_map_2 (M := gmap Z)) in Hn.
  repeat (apply elem_of_cons in Hn as [[= -> ->]|Hn]; [split; [lia|intros ? ? [=]; simpl; lia]|]). by apply elem_of_nil in Hn.
Qed.


(** ** Launches that fail *)

Lemma unix_stdio_err o h e h' : unix_stdio o h = (Err e, h') → me h' = me h ∧ calm h h'.
Proof.
  destruct o as [|fd]; simpl; [done|]. destruct (call (dup_cloexec fd 3) h) as [[n|e'] h1] eqn:E; [done|].
  intros [= <- <-]. by eapply call_err.
Qed.

Lemma ready_pipe_err h e h' : ready_pipe h = (Err e, h') → fds (me h') = fds (me h) ∧ calm h h'.
Proof.
  unfold ready_pipe. destruct (call pipe h) as [[[r w]|e1] h1] eqn:Ep.
  2: { intros [= <- <-]. apply call_err in Ep as [-> ?]. done. }
  apply call_ok in Ep as (p1 & Hp & Hme1 & Hc1). unfold pipe in Hp.
  apply result_bind_Ok in Hp as ([r' pa] & Ha & Hp). apply result_bind_Ok in Hp as ([w' pb] & Hb & Hp). injection Hp as -> -> <-.
  apply alloc_ok in Ha as (_ & Hrn & ->), Hb as (_ & Hwn & ->). simpl in *.
  destruct (call (dup_cloexec w 3) h1) as [[c|e1] h2] eqn:Ed; [done|]. intros [= <- <-].
  apply call_err in Ed as [Hme2 Hc2]. split; [|etrans; [exact Hc1|]; by etrans; [|apply closing_calm]].
  unfold closing. simpl. rewrite Hme2, Hme1. simpl. by rewrite !delete_insert_id.
Qed.

Lemma calm_closing h h1 ns : calm h h1 → tidy h (closing ns h1) ∧ running (closing ns h1) = running h.
Proof. intros Hc. split; [by eapply calm_then_tidy; [|apply calm_tidy; reflexivity]|apply Hc]. Qed.


(** The same launcher: the daemon is started, and its exit handle cannot be opened. *)
Definition unlucky : host :=
  Host (me launcher) 1 0 [] (replicate 5 (None, 1%nat) ++ [(Some too_many_files, 1%nat)]) [].

