(* ===== verification/UnixStream.v ===== *)
(** * Unix connections (the stream halves of src/local/unix.rs)

    While a session is established every read and write has one absolute deadline
    ([Section bounded]); afterwards they block. The halves share the mode of the
    socket, so clearing the deadline must wait for a write that is under way
    ([Module Setup], the two threads step by step). *)
From stdpp Require Import list relations.
From S2P Require Import Prelude.

Definition i32_max : Z := 2 ^ 31 - 1.

(** One non-blocking attempt at the socket ([recv] or [send] with MSG_DONTWAIT),
    and [poll] until the socket is ready or the milliseconds are over. *)
Class Socket (W : Type) : Type := {
  transfer : W → io_result Z * W;
  poll_ready : Z → W → io_result bool * W;
}.

(** recv(2), send(2), poll(2): a poll that reports nothing lasted its timeout.
    [wakeups] counts the interruptions and the readiness reports still to come. *)
Class SocketLaws (W : Type) `{ClockLaws W, !Socket W} : Type := {
  wakeups : W → nat;
  now_wakeups w : (wakeups (now w).2 ≤ wakeups w)%nat;
  transfer_time w : time w ≤ time (transfer w).2;
  transfer_count w n w' : transfer w = (Ok n, w') → 0 ≤ n;
  transfer_wakeups w : (wakeups (transfer w).2 ≤ wakeups w)%nat;
  transfer_interrupted w e w' : transfer w = (Err e, w') → kind e = Interrupted → (wakeups w' < wakeups w)%nat;
  poll_time ms w : time w ≤ time (poll_ready ms w).2;
  poll_wakeups ms w : (wakeups (poll_ready ms w).2 ≤ wakeups w)%nat;
  poll_nothing ms w w' : poll_ready ms w = (Ok false, w') → time w + from_millis ms ≤ time w';
  poll_wakes ms w r w' : poll_ready ms w = (r, w') → r ≠ Ok false → (wakeups w' < wakeups w)%nat;
}.

Definition establishment_timeout : io_error := error_new TimedOut "Unix-socket session establishment timed out".

Section bounded.
Context {W : Type} `{Clock W, !Socket W}.

(** [bounded_io], cut off after [passes]. *)
Fixpoint bounded_io (passes : nat) (deadline : Z) (w : W) : option (io_result Z) * W :=
  match passes with
  | O => (None, w)
  | S passes =>
      let '(late, w) := expired (Some deadline) w in
      if late then (Some (Err establishment_timeout), w) else
      match transfer w with
      | (Ok count, w) =>
          let '(late, w) := expired (Some deadline) w in
          (Some (if late then Err establishment_timeout else Ok count), w)
      | (Err e, w) =>
          if decide (kind e = Interrupted) then bounded_io passes deadline w else
          if decide (kind e = WouldBlock) then
            let '(t, w) := now w in
            let millis := Z.min (Z.max (saturating_sub deadline t / 1000000) 1) i32_max in
            match poll_ready millis w with
            | (Err e, w) => if decide (kind e = Interrupted) then bounded_io passes deadline w else (Some (Err e), w)
            | (Ok _, w) => bounded_io passes deadline w
            end
          else (Some (Err e), w)
      end
  end.

(** [read_until] and [write_until]: nothing is asked of the system for no bytes. *)
Definition io_until (passes : nat) (deadline : Z) (len : nat) (w : W) : option (io_result Z) * W :=
  match len with O => (Some (Ok 0), w) | _ => bounded_io passes deadline w end.

(** [UnixDuplex::read], [UnixReader::read] and [UnixDuplex::write]: [plain] is the
    blocking call. *)
Definition stream_io (passes : nat) (read_deadline : option Z) (plain : W → io_result Z * W) (len : nat) (w : W)
    : option (io_result Z) * W :=
  match read_deadline with
  | Some deadline => io_until passes deadline len w
  | None => let '(r, w) := plain w in (Some r, w)
  end.

(** [set_read_deadline]: the deadline, with the mode it needs. An instant that is
    too far away is an error. *)
Definition set_read_deadline (instant_max : Z) (set_nonblocking : bool → W → io_result unit * W) (timeout : option Z)
    (current : option Z) (w : W) : io_result unit * option Z * W :=
  let '(deadline, w) :=
    match timeout with
    | None => (Ok None, w)
    | Some duration =>
        let '(t, w) := now w in
        (if t + duration <=? instant_max then Ok (Some (t + duration))
         else Err (error_new InvalidInput "read deadline overflow"), w)
    end in
  match deadline with
  | Err e => (Err e, current, w)
  | Ok deadline =>
      match set_nonblocking (bool_decide (is_Some deadline)) w with
      | (Err e, w) => (Err e, current, w)
      | (Ok _, w) => (Ok tt, deadline, w)
      end
  end.
End bounded.

Section proofs.
Context {W : Type} `{SocketLaws W}.

(** The passes a bounded call needs. *)
Definition io_passes (deadline : Z) (w : W) : nat := wakeups w + polls (from_millis 1) deadline w.

Lemma expired_wakeups d (w : W) : (wakeups (expired (Some d) w).2 ≤ wakeups w)%nat.
Proof. simpl. pose proof (now_wakeups w). by destruct (now w). Qed.

Lemma io_passes_less deadline (w w' : W) :
  time w < deadline → time w ≤ time w' → (wakeups w' ≤ wakeups w)%nat →
  (wakeups w' < wakeups w)%nat ∨ time w + from_millis 1 ≤ time w' →
  (io_passes deadline w' < io_passes deadline w)%nat.
Proof.
  intros Hd Ht Hw Hless. unfold io_passes. pose proof (polls_mono (from_millis 1) deadline deadline w w').
  destruct Hless as [?|?]; [unfold from_millis in *; lia|].
  pose proof (polls_wait (from_millis 1) deadline w w'). unfold from_millis in *. lia.
Qed.

(** What a bounded call may answer. *)
Definition io_answer (deadline : Z) (r : io_result Z) (w' : W) : Prop :=
  match r with
  | Ok n => 0 ≤ n ∧ ∃ v v', transfer v = (Ok n, v') ∧ time v' < deadline
  | Err e =>
      (e = establishment_timeout ∧ deadline ≤ time w') ∨
      (∃ v, transfer v = (Err e, w') ∧ kind e ≠ Interrupted ∧ kind e ≠ WouldBlock) ∨
      ∃ ms v, poll_ready ms v = (Err e, w') ∧ kind e ≠ Interrupted
  end.

Lemma bounded_io_answers passes deadline (w : W) :
  (io_passes deadline w < passes)%nat →
  ∃ r w', bounded_io passes deadline w = (Some r, w') ∧ io_answer deadline r w'.
Proof.
  revert w. induction passes as [|n IH]; intros w Hn; [lia|]. cbn [bounded_io].
  pose proof (expired_wakeups deadline w) as Hw1. destruct (expired (Some deadline) w) as [late w1] eqn:E1. simpl in Hw1.
  destruct late; [do 2 eexists; split; [done|]; left; by apply expired_true in E1|].
  pose proof (expired_false _ _ _ E1) as Hd. apply expired_mono in E1.
  pose proof (transfer_time w1) as Ht2. pose proof (transfer_wakeups w1) as Hw2.
  destruct (transfer w1) as [[count|e] w2] eqn:E2; simpl in Ht2, Hw2.
  - destruct (expired (Some deadline) w2) as [late w3] eqn:E3. do 2 eexists. split; [done|]. destruct late.
    + left. by apply expired_true in E3.
    + split; [by eapply transfer_count|]. exists w1, w2. split; [done|]. by eapply expired_false.
  - case_decide as Hi.
    { apply IH. pose proof (transfer_interrupted _ _ _ E2 Hi). enough (io_passes deadline w2 < io_passes deadline w)%nat by lia.
      apply io_passes_less; lia. }
    case_decide as Hb; [|do 2 eexists; split; [done|]; right; left; eauto].
    pose proof (now_wakeups w2) as Hw3. destruct (now w2) as [t w3] eqn:E3. apply now_mono in E3. simpl in Hw3.
    set (ms := Z.min _ _). pose proof (poll_time ms w3) as Ht4. pose proof (poll_wakeups ms w3) as Hw4.
    destruct (poll_ready ms w3) as [r w4] eqn:E4. simpl in Ht4, Hw4.
    assert (io_passes deadline w4 < io_passes deadline w)%nat as Hless.
    { apply io_passes_less; [lia..|]. destruct r as [[]|e']; [left| |left].
      - pose proof (poll_wakes _ _ _ _ E4). assert (wakeups w4 < wakeups w3)%nat by auto. lia.
      - right. apply poll_nothing in E4. assert (1 ≤ ms) by (unfold ms, i32_max; lia). unfold from_millis in *. lia.
      - pose proof (poll_wakes _ _ _ _ E4). assert (wakeups w4 < wakeups w3)%nat by auto. lia. }
    destruct r as [b|e']; [apply IH; lia|]. case_decide as Hi'; [apply IH; lia|].
    do 2 eexists. split; [done|]. right. right. eauto.
Qed.
End proofs.

(** Establishing a session is bounded. With a deadline, a read or write of the
    Unix stream returns, however often it is interrupted, woken for nothing or would
    block: with a count the system moved before the deadline, with the
    establishment timeout once the deadline has passed, or with an error of the
    system other than those two; and at once for no bytes. *)
Theorem established_io_is_bounded {W} `{SocketLaws W} (plain : W → io_result Z * W)
    (passes : nat) (deadline : Z) (len : nat) (w : W) :
  (io_passes deadline w < passes)%nat →
  ∃ r w', stream_io passes (Some deadline) plain len w = (Some r, w') ∧
    (len = 0%nat → r = Ok 0 ∧ w' = w) ∧ (len ≠ 0%nat → io_answer deadline r w').
Proof.
  intros Hn. simpl. unfold io_until. destruct len as [|len]; [by do 2 eexists|].
  destruct (bounded_io_answers passes deadline w Hn) as (r & w' & E & Ha). by do 2 eexists.
Qed.

(** A peer that sends its bytes at a given time. *)
Module Peer.
Record t := mk { clock : Z; ready_at : Z; reports : nat }.
Definition at_time (n : Z) (w : t) : t := mk (Z.max (clock w) n) (ready_at w) (reports w).

#[global] Instance clock_ : Clock t := {
  now w := (clock w, w); sleep d w := at_time (clock w + d) w; sleep_until n w := at_time n w }.
#[global, refine] Instance clock_laws : ClockLaws t := { time := clock }.
Proof. all: intros; simpl; lia. Defined.

(** Each report of readiness is used up, the first of them too early. *)
#[global] Instance socket : Socket t := {
  transfer w := if ready_at w <=? clock w then (Ok 5, w) else (Err (error_of_kind WouldBlock), w);
  poll_ready ms w :=
    match reports w with
    | S n => (Ok true, mk (clock w) (ready_at w) n)
    | O => (Ok false, at_time (clock w + from_millis ms) w)
    end }.
#[global, refine] Instance laws : SocketLaws t := { wakeups := reports }.
Proof.
  - intros w. simpl. lia.
  - intros w. simpl. case_match; simpl; lia.
  - intros w n w'. simpl. case_match; [intros [= <- _]; lia|done].
  - intros w. simpl. case_match; simpl; lia.
  - intros w e w'. simpl. case_match; [done|]. by intros [= <- <-].
  - intros ms w. simpl. case_match; simpl; lia.
  - intros ms w. simpl. destruct (reports w) eqn:E; simpl; lia.
  - intros ms w w'. simpl. case_match; [|done]. intros [= <-]. simpl. lia.
  - intros ms w r w'. simpl. destruct (reports w) eqn:E; intros [= <- <-]; [done|]. simpl. lia.
Defined.
End Peer.

Lemma established_io_is_bounded_witness :
  ∃ r w', stream_io 20 (Some (from_millis 9)) (λ w, (Ok 0, w)) 8 (Peer.mk 0 (from_millis 30) 2) = (Some r, w') ∧
    r = Err establishment_timeout ∧ io_answer (from_millis 9) r w'.
Proof.
  destruct (established_io_is_bounded (λ w : Peer.t, (Ok 0, w)) 20 (from_millis 9) 8 (Peer.mk 0 (from_millis 30) 2))
    as (r & w' & E & _ & Ha); [vm_compute; lia|]. exists r, w'. split_and!; [exact E| |by apply Ha].
  vm_compute in E. by injection E as <- _.
Defined.

(** ** The end of the setup *)

Module Setup.
(** The halves [split] makes: the socket's mode and [active] are shared, and each
    half is a thread. *)
Inductive holder := Reader | Writer.

(** [UnixWriter::write]: before it, after the first load of [active], with the lock,
    in [write_until], with the lock after the second load, and in the plain write. *)
Inductive writer_at := WIdle | WWaits | WLocked | WBounded | WReleases | WPlain.

(** [UnixReader::clear_read_deadline]: before it, with the lock, after each of its
    steps, and after it. *)
Inductive reader_at := RSetup | RLocked | RBlocking | RCleared | RStored | RDone.

Record t := mk {
  nonblocking : bool; active : bool; lock : option holder; deadline : option Z;
  writer : writer_at; reader : reader_at;
}.

(** [split]: the mode is the one [set_read_deadline] left. *)
Definition split (deadline : option Z) : t :=
  let b := bool_decide (is_Some deadline) in
  mk b b None deadline WIdle (if b then RSetup else RDone).

Definition w_to (s : t) (l : option holder) (x : writer_at) : t := mk (nonblocking s) (active s) l (deadline s) x (reader s).
Definition r_to (s : t) (l : option holder) (x : reader_at) : t := mk (nonblocking s) (active s) l (deadline s) (writer s) x.

(** One step of one of the threads. *)
Inductive step (s : t) : t → Prop :=
| load_inactive : writer s = WIdle → active s = false → step s (w_to s (lock s) WPlain)
| load_active : writer s = WIdle → active s = true → step s (w_to s (lock s) WWaits)
| writer_locks : writer s = WWaits → lock s = None → step s (w_to s (Some Writer) WLocked)
| still_active : writer s = WLocked → active s = true → step s (w_to s (lock s) WBounded)
| not_active : writer s = WLocked → active s = false → step s (w_to s (lock s) WReleases)
| bounded_done : writer s = WBounded → step s (w_to s None WIdle)
| writer_releases : writer s = WReleases → step s (w_to s None WPlain)
| plain_done : writer s = WPlain → step s (w_to s (lock s) WIdle)
| reader_locks : reader s = RSetup → lock s = None → step s (r_to s (Some Reader) RLocked)
| mode_fails : reader s = RLocked → step s (r_to s None RSetup)
| mode_cleared : reader s = RLocked →
    step s (mk false (active s) (lock s) (deadline s) (writer s) RBlocking)
| deadline_cleared : reader s = RBlocking →
    step s (mk (nonblocking s) (active s) (lock s) None (writer s) RCleared)
| active_cleared : reader s = RCleared →
    step s (mk (nonblocking s) false (lock s) (deadline s) (writer s) RStored)
| reader_releases : reader s = RStored → step s (r_to s None RDone).

Definition writer_holds (x : writer_at) : bool := match x with WLocked | WBounded | WReleases => true | _ => false end.
Definition reader_holds (x : reader_at) : bool := match x with RLocked | RBlocking | RCleared | RStored => true | _ => false end.

Record sound (s : t) : Prop := {
  s_writer : writer_holds (writer s) = true → lock s = Some Writer;
  s_reader : reader_holds (reader s) = true → lock s = Some Reader;
  s_active : active s = false → nonblocking s = false;
  s_mode : nonblocking s = false → match reader s with RSetup | RLocked => False | _ => True end;
  s_past : match reader s with RSetup | RLocked => True | _ => nonblocking s = false end;
  s_stored : match reader s with RStored | RDone => active s = false | _ => True end;
  s_bounded : writer s = WBounded → nonblocking s = true ∧ is_Some (deadline s);
  s_plain : writer s = WPlain ∨ writer s = WReleases → nonblocking s = false;
  s_deadline : match reader s with RCleared | RStored | RDone => deadline s = None | _ => is_Some (deadline s) end;
}.

Lemma split_sound d : sound (split d).
Proof. destruct d; unfold split; simpl; split; simpl; naive_solver. Qed.

Lemma step_sound s s' : sound s → step s s' → sound s'.
Proof.
  intros [Hw Hr Ha Hm Hp Hst Hb Hpl Hd] Hstep. destruct s as [n a l d w r]; simpl in *.
  destruct Hstep; simpl in *; subst; simpl in *.
  all: try (destruct w); try (destruct r); simpl in *; split; simpl; intuition (try congruence).
  by destruct n; [|destruct Hm].
Qed.
End Setup.

(** C18: the end of the setup does not disturb a write. However the writing thread
    and the reading thread interleave, with failures to change the mode in between:
    a bounded write has a deadline and finds the socket non-blocking for as long as
    it lasts, a plain write finds it blocking, and once the reading half has no
    deadline its reads find it blocking. Only one thread at a time is past the
    lock. *)
Theorem setup_modes_fit (deadline : option Z) (s : Setup.t) :
  rtc Setup.step (Setup.split deadline) s →
  (Setup.writer s = Setup.WBounded → Setup.nonblocking s = true ∧ is_Some (Setup.deadline s)) ∧
  (Setup.writer s = Setup.WPlain → Setup.nonblocking s = false) ∧
  (Setup.deadline s = None → Setup.nonblocking s = false) ∧
  (Setup.writer_holds (Setup.writer s) && Setup.reader_holds (Setup.reader s) = false).
Proof.
  intros Hreach. assert (Setup.sound s) as [Hw Hr Ha Hm Hp Hst Hb Hpl Hd].
  { remember (Setup.split deadline) as s0 eqn:E. assert (Setup.sound s0) as H0 by (subst; apply Setup.split_sound). clear E.
    induction Hreach as [|s0 s1 s2 Hstep _ IH]; [done|]. by eapply IH, Setup.step_sound. }
  split_and!; [done|auto| |].
  - intros Hn. rewrite Hn in Hd. destruct (Setup.reader s); first [done|by destruct Hd as [? [=]]].
  - destruct (Setup.writer_holds _), (Setup.reader_holds _); try done. specialize (Hw eq_refl). specialize (Hr eq_refl). congruence.
Qed.

(** The reading thread tries to clear the deadline while a write is under way. *)
Lemma setup_modes_fit_witness :
  let s := Setup.mk true true (Some Setup.Writer) (Some 9) Setup.WBounded Setup.RSetup in
  Setup.nonblocking s = true ∧ is_Some (Setup.deadline s).
Proof.
  apply (setup_modes_fit (Some 9) (Setup.mk true true (Some Setup.Writer) (Some 9) Setup.WBounded Setup.RSetup)); [|done].
  do 3 (eapply rtc_l; [by constructor|]). reflexivity.
Defined.
