(* ===== verification/ReadyPipe.v ===== *)
(** * The readiness channel on Windows (the named pipe of src/local/windows.rs)

    The launcher reads a named pipe while it watches the daemon's process
    ([Module Reader]); the daemon opens the pipe by its name ([Module Name]). The
    daemon, and whoever it gives its end to, is a script of actions that go on
    between and during the launcher's calls. *)
From stdpp Require Import list.
From S2P Require Import Prelude.

Module Name.
Definition READY_PIPE_PREFIX : bytes := bs "\\.\pipe\kunobi-daemon-ready-".

Definition hex_digit (b : byte) : bool :=
  is_ascii_digit b || (97 <=? byte_val b) && (byte_val b <=? 102).

(** [is_ready_pipe_name]. *)
Definition is_ready_pipe_name (name : bytes) : bool :=
  match strip_prefix READY_PIPE_PREFIX name with
  | Some id => bool_decide (length id = 32%nat) && forallb hex_digit id
  | None => false
  end.

(** [{byte:02x}]. *)
Definition nibble (n : Z) : byte := byte_of (if n <? 10 then 48 + n else 87 + n).
Definition hex (b : byte) : bytes := [nibble (byte_val b / 16); nibble (byte_val b mod 16)].

(** [random_name] of the 16 bytes the OS gave, if it did. *)
Definition random_name (random : option bytes) : io_result bytes :=
  match random with
  | Some l => Ok (READY_PIPE_PREFIX ++ concat (map hex l))
  | None => Err (error_other "the OS random source failed")
  end.

(** [open_ready_pipe]; [open] opens the file of a name. *)
Definition open_ready_pipe {W A} (open : bytes → W → io_result A * W) (name : bytes) (w : W) : io_result A * W :=
  if is_ready_pipe_name name then open name w
  else (Err (error_new InvalidInput "the readiness channel is not a readiness pipe name"), w).

Lemma nibble_hex n : 0 ≤ n < 16 → hex_digit (nibble n) = true.
Proof.
  intros Hn. assert (n ∈ (Z.of_nat <$> seq 0 16)) as Hin.
  { apply list_elem_of_fmap. exists (Z.to_nat n). split; [lia|]. apply elem_of_seq. lia. }
  revert n Hn Hin. assert (Forall (λ n, hex_digit (nibble n) = true) (Z.of_nat <$> seq 0 16)) as H by by vm_compute; repeat constructor.
  intros n _ Hin. rewrite Forall_forall in H. by apply H.
Qed.

Lemma hex_nibbles b : forallb hex_digit (hex b) = true.
Proof.
  pose proof (byte_val_range b). unfold hex. cbn [forallb].
  rewrite !nibble_hex; [done|apply Z.mod_pos_bound; lia|].
  split; [apply Z.div_pos; lia|apply Z.div_lt_upper_bound; lia].
Qed.

Lemma hex_length l : length (concat (map hex l)) = (2 * length l)%nat.
Proof. induction l as [|b l IH]; simpl; [done|]. rewrite IH. lia. Qed.

Lemma hex_all l : forallb hex_digit (concat (map hex l)) = true.
Proof.
  induction l as [|b l IH]; [done|]. cbn [map concat]. by rewrite forallb_app, hex_nibbles, IH.
Qed.
End Name.

(** Every name the launcher makes is one the daemon opens. *)
Lemma ready_names_are_opened (l : bytes) (name : bytes) :
  length l = 16%nat → Name.random_name (Some l) = Ok name → Name.is_ready_pipe_name name = true.
Proof.
  intros Hl [= <-]. unfold Name.is_ready_pipe_name.
  rewrite (proj2 (strip_prefix_Some Name.READY_PIPE_PREFIX _ (concat (map Name.hex l))) eq_refl).
  rewrite Name.hex_length, Hl, Name.hex_all. done.
Qed.

(** ** The launcher's end *)

Module Reader.
Definition ERROR_BROKEN_PIPE : Z := 109.
Definition ERROR_NO_DATA : Z := 232.
Definition ERROR_PIPE_CONNECTED : Z := 535.
Definition ERROR_OPERATION_ABORTED : Z := 995.
Definition ERROR_IO_PENDING : Z := 997.
Definition os_error (n : Z) : io_error := IoError Other (Some n) "".

(** *** The other side *)

Inductive client_state := Absent | Present | Closed.

(** An exit closes the daemon's end unless another process has it too. *)
Inductive action := Connects | Writes (data : bytes) | Closes | Exits (shared : bool).

(** [total] is all that was written, and [sent] what was while the daemon ran. *)
Record world := World {
  client : client_state; buffer : bytes; alive : bool; total : bytes; sent : bytes;
  script : list action;
  (** how many actions go on before each call, and what the calls meet *)
  pace : list nat; faults : list (option io_error);
}.

Definition act (w : world) (a : action) : world :=
  match a with
  | Connects =>
      World (match client w with Absent => Present | c => c end) (buffer w) (alive w) (total w) (sent w)
        (script w) (pace w) (faults w)
  | Writes data =>
      match client w with
      | Present =>
          World Present (buffer w ++ data) (alive w) (total w ++ data) (if alive w then sent w ++ data else sent w)
            (script w) (pace w) (faults w)
      | _ => w
      end
  | Closes =>
      World (match client w with Present => Closed | c => c end) (buffer w) (alive w) (total w) (sent w)
        (script w) (pace w) (faults w)
  | Exits shared =>
      World (match client w with Present => if shared then Present else Closed | c => c end) (buffer w) false (total w) (sent w)
        (script w) (pace w) (faults w)
  end.

Definition set_script (l : list action) (w : world) : world :=
  World (client w) (buffer w) (alive w) (total w) (sent w) l (pace w) (faults w).
Definition set_buffer (b : bytes) (w : world) : world :=
  World (client w) b (alive w) (total w) (sent w) (script w) (pace w) (faults w).

Fixpoint go_on (n : nat) (w : world) : world :=
  match n, script w with
  | S n, a :: rest => go_on n (act (set_script rest w) a)
  | _, _ => w
  end.

(** The other side goes on before a call, and the call may fail. *)
Definition call (w : world) : option io_error * world :=
  let w' := World (client w) (buffer w) (alive w) (total w) (sent w) (script w) (tail (pace w)) (tail (faults w)) in
  (default None (head (faults w)), go_on (default 0%nat (head (pace w))) w').

(** Waits until [stop] holds; [None] waits for ever. *)
Fixpoint wait_until (stop : world → bool) (acts : list action) (w : world) : option world :=
  if stop w then Some w else
  match acts with
  | [] => None
  | a :: rest => wait_until stop rest (act (set_script rest w) a)
  end.

(** *** [Reader] *)

(** [started]: the process handle will come, or its sender was dropped. *)
Record t := mk { started : bool; connected : bool; exited : bool; ended : bool }.

Definition new (started : bool) : t := mk started false false false.

Inductive Next := Got (data : bytes) | End | Again.

Inductive operation := Connecting | Reading (len : nat).

(** A started operation is over. *)
Definition complete (op : operation) (w : world) : bool :=
  match op, client w, buffer w with
  | Connecting, Absent, _ => false
  | Connecting, _, _ => true
  | Reading _, _, _ :: _ => true
  | Reading _, Closed, [] => true
  | Reading _, _, [] => false
  end.

(** The result of an operation that is over, or was cancelled. *)
Definition result_of (op : operation) (w : world) : io_result bytes * world :=
  match op with
  | Connecting =>
      (match client w with Absent => Err (os_error ERROR_OPERATION_ABORTED) | _ => Ok [] end, w)
  | Reading len =>
      match buffer w, client w with
      | _ :: _, _ => (Ok (take len (buffer w)), set_buffer (drop len (buffer w)) w)
      | [], Closed => (Err (os_error ERROR_BROKEN_PIPE), w)
      | [], _ => (Err (os_error ERROR_OPERATION_ABORTED), w)
      end
  end.

(** [settle]: [watch] is whether the process is waited for too. The answer is the
    operation's own result and whether the daemon exited first. *)
Definition settle (op : operation) (watch : bool) (w : world) : option (io_result (io_result bytes * bool)) * world :=
  match call w with
  | (Some e, w) =>
      let '(_, w) := result_of op w in (Some (Err e), w)
  | (None, w) =>
      match wait_until (λ w, complete op w || watch && negb (alive w)) (script w) w with
      | None => (None, w)
      | Some w =>
          let exited := negb (complete op w) in
          let '(r, w) := result_of op w in (Some (Ok (r, exited)), w)
      end
  end.

Definition set_connected (r : t) : t := mk (started r) true (exited r) (ended r).
Definition set_exited (b : bool) (r : t) : t := mk (started r) (connected r) b (ended r).
Definition set_ended (r : t) : t := mk (started r) (connected r) (exited r) true.

Definition connect (r : t) (w : world) : option (io_result Next) * t * world :=
  match call w with
  | (Some e, w) => (Some (Err e), r, w)
  | (None, w) =>
      match client w with
      | Absent =>
          match settle Connecting true w with
          | (None, w) => (None, r, w)
          | (Some (Err e), w) => (Some (Err e), r, w)
          | (Some (Ok (res, exited)), w) =>
              let r := set_exited exited r in
              match res with
              | Ok _ => (Some (Ok Again), set_connected r, w)
              | Err e => if exited then (Some (Ok End), r, w) else (Some (Err e), r, w)
              end
          end
      | _ => (Some (Ok Again), set_connected r, w)
      end
  end.

Definition receive (len : nat) (watch : bool) (r : t) (w : world) : option (io_result Next) * t * world :=
  match call w with
  | (Some e, w) => (Some (Err e), r, w)
  | (None, w) =>
      match buffer w, client w with
      | [], Closed => (Some (Ok End), r, w)
      | _, _ =>
          match settle (Reading len) watch w with
          | (None, w) => (None, r, w)
          | (Some (Err e), w) => (Some (Err e), r, w)
          | (Some (Ok (res, exited')), w) =>
              let r := set_exited (exited r || exited') r in
              match res with
              | Ok [] => (Some (Ok Again), r, w)
              | Ok data => (Some (Ok (Got data)), r, w)
              | Err e =>
                  if decide (raw_os_error e = Some ERROR_BROKEN_PIPE) then (Some (Ok End), r, w)
                  else if decide (raw_os_error e = Some ERROR_OPERATION_ABORTED) then (Some (Ok Again), r, w)
                  else (Some (Err e), r, w)
              end
          end
      end
  end.

(** [drain]: a peek at a broken, empty pipe fails. *)
Definition drain (len : nat) (r : t) (w : world) : option (io_result Next) * t * world :=
  match buffer w with
  | [] => (Some (Ok End), r, w)
  | available => receive (Nat.min len (length available)) false r w
  end.

Definition step (len : nat) (r : t) (w : world) : option (io_result Next) * t * world :=
  if negb (started r) then (Some (Ok End), r, w) else
  if negb (connected r) then connect r w else
  if exited r then drain len r w else receive len true r w.

(** [read] into a buffer of [len] bytes, cut off after [passes]. *)
Fixpoint read (passes : nat) (len : nat) (r : t) (w : world) : option (io_result bytes) * t * world :=
  match passes with
  | O => (None, r, w)
  | S passes =>
      if ended r || bool_decide (len = 0%nat) then (Some (Ok []), r, w) else
      match step len r w with
      | (None, r, w) => (None, r, w)
      | (Some (Err e), r, w) => (Some (Err e), r, w)
      | (Some (Ok (Got data)), r, w) => (Some (Ok data), r, w)
      | (Some (Ok End), r, w) => read passes len (set_ended r) w
      | (Some (Ok Again), r, w) => read passes len r w
      end
  end.

(** One read after another; the first error ends it. *)
Fixpoint read_all (passes : nat) (lens : list nat) (r : t) (w : world) : option (io_result bytes) * t * world :=
  match lens with
  | [] => (Some (Ok []), r, w)
  | len :: lens =>
      match read passes len r w with
      | (Some (Ok data), r, w) =>
          match read_all passes lens r w with
          | (Some (Ok more), r, w) => (Some (Ok (data ++ more)), r, w)
          | other => other
          end
      | other => other
      end
  end.

(** *** What the reader has *)

(** [d] was read: the rest of what was written is in the pipe. *)
Record inv (d : bytes) (w : world) : Prop := {
  i_total : d ++ buffer w = total w;
  i_sent : sent w `prefix_of` total w;
  i_alive : alive w = true → sent w = total w;
  i_absent : client w = Absent → total w = [];
}.

(** What the other side keeps: it comes once, closes for good and exits for good. *)
Definition onward (w w' : world) : Prop :=
  (client w ≠ Absent → client w' ≠ Absent) ∧ (client w = Closed → client w' = Closed) ∧
  (alive w = false → alive w' = false) ∧ (alive w' = true → (∃ s, Exits s ∈ script w) → ∃ s, Exits s ∈ script w') ∧
  (buffer w ≠ [] → buffer w' ≠ []).

#[global] Instance onward_preorder : PreOrder onward.
Proof.
  split; [by intros w; unfold onward; auto|]. intros a b c (?&?&Hab&?&?) (?&?&?&?&?). unfold onward. split_and!; auto.
  intros Hc He. destruct (alive b); [auto|]. by rewrite H5 in Hc.
Qed.

Lemma act_inv d w a rest : inv d w → inv d (act (set_script rest w) a).
Proof.
  intros []. destruct a as [|data| |shared]; simpl.
  - split; simpl; try done. by destruct (client w).
  - destruct (client w) eqn:E; [by split; simpl; rewrite ?E|simpl|by split; simpl; rewrite ?E]. split; simpl; [| | |done].
    + by rewrite <- i_total0, assoc by apply _.
    + destruct (alive w) eqn:Ea; [by rewrite i_alive0|]. by apply prefix_app_r.
    + destruct (alive w); [|done]. intros _. by rewrite i_alive0.
  - split; simpl; try done. by destruct (client w).
  - split; simpl; try done. destruct (client w); try done. by destruct shared.
Qed.

Lemma act_onward w a rest : script w = a :: rest → onward w (act (set_script rest w) a).
Proof.
  intros Hs. unfold onward. rewrite Hs. destruct a as [|data| |shared]; simpl.
  - split_and!; [by destruct (client w)|by intros ->|done| |done]. intros _ [s [?|?]%elem_of_cons]; [done|eauto].
  - destruct (client w) eqn:E; simpl; rewrite ?E; split_and!; try done; try (intros _ [s [?|?]%elem_of_cons]; [done|eauto]).
    intros Hb Hb'. by apply app_eq_nil in Hb' as [? _].
  - split_and!; [by destruct (client w)|by intros ->|done| |done]. intros _ [s [?|?]%elem_of_cons]; [done|eauto].
  - split_and!; [destruct (client w); try done; by destruct shared|by intros ->|done|done|done].
Qed.

Lemma go_on_ok d n w : inv d w → inv d (go_on n w) ∧ onward w (go_on n w).
Proof.
  revert w. induction n as [|n IH]; intros w Hi; simpl; [done|]. destruct (script w) as [|a rest] eqn:E; [done|].
  destruct (IH (act (set_script rest w) a)) as [? Ho]; [by apply act_inv|]. split; [done|]. etrans; [by apply act_onward|done].
Qed.

Lemma call_keeps d w e w' : inv d w → call w = (e, w') → inv d w' ∧ onward w w'.
Proof.
  intros [] [= _ <-]. set (w1 := World _ _ _ _ _ _ _ _). assert (inv d w1) as Hi by by split.
  assert (onward w w1) as Ho by by unfold onward; auto. destruct (go_on_ok d (default 0%nat (head (pace w))) w1 Hi).
  split; [done|by etrans].
Qed.

Lemma wait_until_ok d stop acts w w' :
  acts = script w → inv d w → wait_until stop acts w = Some w' → inv d w' ∧ onward w w' ∧ stop w' = true.
Proof.
  revert w. induction acts as [|a acts IH]; intros w Hs Hi; simpl; destruct (stop w) eqn:E; try done.
  - by intros [= <-].
  - by intros [= <-].
  - intros (? & Ho & ?)%IH; [|by destruct a; simpl; [..|]; destruct (client w)|by apply act_inv].
    split_and!; [done| |done]. etrans; [by apply act_onward|done].
Qed.

(** The same, of a call that may take bytes from the pipe. *)
Definition steady (w w' : world) : Prop :=
  (client w ≠ Absent → client w' ≠ Absent) ∧ (alive w = false → alive w' = false) ∧
  (alive w' = true → (∃ s, Exits s ∈ script w) → ∃ s, Exits s ∈ script w').

#[global] Instance steady_preorder : PreOrder steady.
Proof.
  split; [by intros w; unfold steady; auto|]. intros a b c (?&Hab&?) (?&Hbc&?). unfold steady. split_and!; auto.
  intros Hc He. destruct (alive b); [auto|]. by rewrite Hbc in Hc.
Qed.

Lemma onward_steady w w' : onward w w' → steady w w'.
Proof. unfold onward, steady. tauto. Qed.

(** What a wait for an operation brings: bytes, the end, or the daemon's exit. *)
Definition settled (op : operation) (res : io_result bytes) (exited : bool) (d : bytes) (w : world) : Prop :=
  match op, res with
  | Connecting, Ok _ => client w ≠ Absent ∧ exited = false ∧ inv d w
  | Connecting, Err _ => client w = Absent ∧ exited = true ∧ alive w = false ∧ inv d w
  | Reading len, Ok data => exited = false ∧ inv (d ++ data) w ∧ (len ≠ 0%nat → data ≠ [])
  | Reading _, Err e =>
      buffer w = [] ∧ inv d w ∧
      (e = os_error ERROR_BROKEN_PIPE ∧ client w = Closed ∧ exited = false ∨
       e = os_error ERROR_OPERATION_ABORTED ∧ exited = true ∧ alive w = false)
  end.

Lemma settle_ok d op watch w res exited w' :
  inv d w → settle op watch w = (Some (Ok (res, exited)), w') →
  settled op res exited d w' ∧ steady w w' ∧ (op ≠ Connecting → buffer w ≠ [] → is_ok res = true).
Proof.
  intros Hi. unfold settle. destruct (call w) as [[e|] w1] eqn:Ec; [by destruct (result_of op w1)|].
  apply (call_keeps d) in Ec as [Hi1 Ho1]; [|done].
  destruct (wait_until _ (script w1) w1) as [w2|] eqn:Ew; [|done]. apply (wait_until_ok d) in Ew as (Hi2 & Ho2 & Hstop); [|done..].
  assert (steady w w2) as Hst by (etrans; apply onward_steady; [exact Ho1|exact Ho2]).
  assert (buffer w ≠ [] → buffer w2 ≠ []) as Hbuf by (intros H; by apply Ho2, Ho1).
  destruct op as [|len]; simpl in *.
  - intros [= <- <- <-]. split; [|done]. destruct (client w2) eqn:E; simpl in *; [|by split_and!..].
    split_and!; try done. apply andb_true_iff in Hstop as [_ Hstop]. by apply negb_true_iff.
  - destruct (buffer w2) as [|b l] eqn:Eb.
    + destruct (client w2) eqn:E; simpl in *; intros [= <- <- <-]; (split; [|split; [done|]]);
        try (intros _ Hb; by destruct (Hbuf Hb)); split_and!; try done; rewrite ?Eb; try done.
      * right. apply andb_true_iff in Hstop as [_ Hstop]. split_and!; [done..|by apply negb_true_iff].
      * right. apply andb_true_iff in Hstop as [_ Hstop]. split_and!; [done..|by apply negb_true_iff].
      * left. by split_and!.
    + intros [= <- <- <-]. split; [|split; [exact Hst|done]]. split_and!; [by destruct (client w2)| |by destruct len].
      destruct Hi2. split; simpl; try done. rewrite <- i_total0, Eb, <- app_assoc. by rewrite take_drop.
Qed.

(** A reader that has what it remembers. *)
Record remembers (r : t) (w : world) : Prop := {
  m_connected : connected r = true → client w ≠ Absent;
  m_exited : exited r = true → alive w = false;
  m_fresh : connected r = false → ended r = false → exited r = false;
  m_ended : ended r = true → started r = false ∨ (buffer w = [] ∧ (alive w = false ∨ client w = Closed));
}.

Definition rank (r : t) : nat :=
  (if connected r then 0 else 1) + (if exited r then 0 else 1) + (if ended r then 0 else 1).

(** What a step that did not fail leaves. *)
Definition stepped (r : t) (d : bytes) (n : Next) (r' : t) (w' : world) : Prop :=
  started r' = started r ∧
  match n with
  | Got data => remembers r' w' ∧ inv (d ++ data) w' ∧ data ≠ []
  | End => remembers (set_ended r') w' ∧ inv d w'
  | Again => remembers r' w' ∧ inv d w' ∧ ended r' = false ∧ (rank r' < rank r)%nat
  end.

Lemma connect_ok d r w n r' w' :
  inv d w → remembers r w → ended r = false → connected r = false →
  connect r w = (Some (Ok n), r', w') → stepped r d n r' w' ∧ steady w w'.
Proof.
  intros Hi [_ _ Hf _] He Hc. specialize (Hf Hc He). destruct r as [st co ex en]; simpl in *; subst.
  unfold connect. destruct (call w) as [[e|] w1] eqn:Ec; [done|].
  apply (call_keeps d) in Ec as [Hi1 Ho1]; [|done]. apply onward_steady in Ho1.
  destruct (client w1) eqn:Ecl.
  2,3: intros [= <- <- <-]; split; [|done]; split_and!; try done; [split; simpl; try done; by rewrite Ecl|unfold rank; simpl; lia].
  destruct (settle Connecting true w1) as [[[[res ex]|e]|] w2] eqn:Es; [|done..].
  apply (settle_ok d) in Es as (Hs & Hst & _); [|done]. assert (steady w w2) as Hst2 by by etrans.
  destruct res as [data|e]; simpl in Hs.
  - destruct Hs as (Hcl & -> & Hi2). intros [= <- <- <-]. split; [|done]. split_and!; try done. unfold rank. simpl. lia.
  - destruct Hs as (Hcl & -> & Hal & Hi2). intros [= <- <- <-]. split; [|done]. split_and!; try done. split; simpl; try done.
    intros _. right. split; [|by left]. destruct Hi2. specialize (i_absent0 Hcl). rewrite i_absent0 in i_total0.
    by apply app_eq_nil in i_total0 as [_ ?].
Qed.

Lemma receive_ok d len watch r w n r' w' :
  inv d w → remembers r w → ended r = false → connected r = true → len ≠ 0%nat → (exited r = true → buffer w ≠ []) →
  receive len watch r w = (Some (Ok n), r', w') → stepped r d n r' w' ∧ steady w w'.
Proof.
  intros Hi [Hcon Hex _ _] He Hc Hlen Hbuf. specialize (Hcon Hc). destruct r as [st co ex en]; simpl in *; subst.
  unfold receive. destruct (call w) as [[e|] w1] eqn:Ec; [done|].
  apply (call_keeps d) in Ec as [Hi1 Ho1]; [|done]. pose proof (onward_steady _ _ Ho1) as Hst1.
  assert (client w1 ≠ Absent) as Hcon1 by by apply Ho1.
  assert (∀ x, x = (match settle (Reading len) watch w1 with
     | (None, w) => (None, mk st true ex false, w)
     | (Some (Err e), w) => (Some (Err e), mk st true ex false, w)
     | (Some (Ok (res, exited')), w) =>
         let r := set_exited (ex || exited') (mk st true ex false) in
         match res with
         | Ok [] => (Some (Ok Again), r, w)
         | Ok data => (Some (Ok (Got data)), r, w)
         | Err e =>
             if decide (raw_os_error e = Some ERROR_BROKEN_PIPE) then (Some (Ok End), r, w)
             else if decide (raw_os_error e = Some ERROR_OPERATION_ABORTED) then (Some (Ok Again), r, w)
             else (Some (Err e), r, w)
         end
     end) → x = (Some (Ok n), r', w') → stepped (mk st true ex false) d n r' w' ∧ steady w w') as Hmain.
  { intros x -> Hx. destruct (settle (Reading len) watch w1) as [[[[res ex']|e]|] w2] eqn:Es; [|done..].
    apply (settle_ok d) in Es as (Hs & Hst & Hok); [|done]. assert (steady w w2) as Hst2 by by etrans.
    assert (ex = true → is_ok res = true) as Hok' by (intros E; apply Hok; [done|]; apply Ho1; auto).
    assert (ex = true → alive w2 = false) as Hal by (intros E; apply Hst2; auto).
    destruct res as [[|b data]|e]; simpl in *.
    - destruct Hs as (_ & _ & Hs). by destruct (Hs Hlen).
    - destruct Hs as (-> & Hi2 & Hne). injection Hx as <- <- <-. split; [|done]. split_and!; try done.
      split; simpl; try done; [by intros _; apply Hst2|by rewrite orb_false_r].
    - destruct Hs as (Hb & Hi2 & [(-> & Hcl & ->)|(-> & -> & Hdead)]); simpl in Hx; injection Hx as <- <- <-; (split; [|done]);
        split_and!; try done.
      + split; simpl; try done; [by intros _; apply Hst2|by rewrite orb_false_r|by right; auto].
      + split; simpl; try done. by intros _; apply Hst2.
      + unfold rank. simpl. destruct ex; [|simpl; lia]. by specialize (Hok' eq_refl). }
  destruct (buffer w1) as [|b l] eqn:Eb, (client w1) eqn:Ecl; try (by apply Hmain); try done.
  intros [= <- <- <-]. split; [|done]. split_and!; try done. split; simpl; try done; [by rewrite Ecl|intros E; apply Hst1; auto|by auto].
Qed.

Lemma step_ok d len r w n r' w' :
  inv d w → remembers r w → ended r = false → len ≠ 0%nat →
  step len r w = (Some (Ok n), r', w') → stepped r d n r' w' ∧ steady w w'.
Proof.
  intros Hi Hr He Hlen. unfold step. destruct (started r) eqn:Est; simpl.
  2: { intros [= <- <- <-]. split; [|done]. destruct Hr. split_and!; try done. split; simpl; try done. by left. }
  destruct (connected r) eqn:Ec; simpl; [|by apply connect_ok]. destruct (exited r) eqn:Ex; [|apply receive_ok; try done; by rewrite Ex].
  unfold drain. destruct (buffer w) as [|b l] eqn:Eb.
  - intros [= <- <- <-]. split; [|done]. pose proof (m_exited _ _ Hr Ex). destruct Hr. split_and!; try done.
    split; simpl; try done. right. auto.
  - apply receive_ok; try done; [simpl; lia|by rewrite Eb].
Qed.

Lemma read_ok d passes len r w data r' w' :
  inv d w → remembers r w → read passes len r w = (Some (Ok data), r', w') →
  inv (d ++ data) w' ∧ remembers r' w' ∧ started r' = started r ∧ steady w w' ∧ (data = [] → len ≠ 0%nat → ended r' = true).
Proof.
  revert r w. induction passes as [|n IH]; intros r w Hi Hr; cbn [read]; [done|].
  destruct (ended r) eqn:He; simpl.
  { intros [= <- <- <-]. rewrite app_nil_r. by split_and!. }
  case_bool_decide as Hlen; [intros [= <- <- <-]; rewrite app_nil_r; by split_and!|].
  destruct (step len r w) as [[[[next|e]|] r1] w1] eqn:Es; [|done..].
  apply (step_ok d) in Es as [[Hst Hs] Hsteady]; [|done..]. destruct next as [more| |]; simpl in Hs.
  - destruct Hs as (Hr1 & Hi1 & Hne). intros [= <- <- <-]. by split_and!.
  - destruct Hs as [Hr1 Hi1]. intros (? & ? & Hst' & Hsteady' & ?)%IH; [|done..]. split_and!; [done..| |by etrans|done]. by etrans.
  - destruct Hs as (Hr1 & Hi1 & _). intros (? & ? & Hst' & Hsteady' & ?)%IH; [|done..]. split_and!; [done..| |by etrans|done]. by etrans.
Qed.

Lemma read_all_ok d passes lens r w data r' w' :
  inv d w → remembers r w → read_all passes lens r w = (Some (Ok data), r', w') →
  inv (d ++ data) w' ∧ remembers r' w' ∧ started r' = started r.
Proof.
  revert d r w data. induction lens as [|len lens IH]; intros d r w data Hi Hr; simpl.
  { intros [= <- <- <-]. rewrite app_nil_r. by split_and!. }
  destruct (read passes len r w) as [[[[first|e]|] r1] w1] eqn:Er; [|done..].
  destruct (read_all passes lens r1 w1) as [[[[more|e]|] r2] w2] eqn:Ea; [|done..]. intros [= <- <- <-].
  apply (read_ok d) in Er as (Hi1 & Hr1 & Hst & _); [|done..]. apply (IH (d ++ first)) in Ea as (Hi2 & Hr2 & Hst2); [|done..].
  rewrite app_assoc. split_and!; [done..|by etrans].
Qed.

(** *** It does not wait for ever *)

Lemma wait_until_ends stop acts w :
  acts = script w → (∀ w, alive w = false → stop w = true) → (alive w = false ∨ ∃ s, Exits s ∈ acts) →
  is_Some (wait_until stop acts w).
Proof.
  intros Hs Hstop. revert w Hs. induction acts as [|a acts IH]; intros w Hs He; simpl; destruct (stop w) eqn:E; try by eexists.
  - destruct He as [He|[s He]]; [by rewrite (Hstop w He) in E|by apply elem_of_nil in He].
  - destruct He as [He|[s [Hx|Hin]%elem_of_cons]]; [by rewrite (Hstop w He) in E| |].
    + subst a. apply IH; [by simpl; destruct (client w)|]. by left.
    + apply IH; [by destruct a; simpl; [..|]; destruct (client w)|]. eauto.
Qed.

Definition exits (w : world) : Prop := alive w = false ∨ ∃ s, Exits s ∈ script w.

Lemma steady_exits w w' : steady w w' → exits w → exits w'.
Proof.
  intros (_ & Ha & Hs) He. unfold exits in *. destruct (alive w') eqn:E; [|by left]. right. apply Hs; [done|].
  destruct He as [He|He]; [by specialize (Ha He)|done].
Qed.

Lemma settle_ends d op watch w :
  inv d w → exits w → watch = true ∨ (op ≠ Connecting ∧ buffer w ≠ []) → is_Some (settle op watch w).1.
Proof.
  intros Hi He Hw. unfold settle. destruct (call w) as [[e|] w1] eqn:Ec; [destruct (result_of op w1); by eexists|].
  apply (call_keeps d) in Ec as [Hi1 Ho1]; [|done].
  assert (is_Some (wait_until (λ w, complete op w || watch && negb (alive w)) (script w1) w1)) as [w2 ->].
  { destruct Hw as [->|[Hop Hb]].
    - apply wait_until_ends; [done| |].
      + intros v ->. by rewrite orb_true_r.
      + by apply (steady_exits w w1); [apply onward_steady|].
    - assert (complete op w1 = true) as Hc.
      { destruct op; [done|]. simpl. assert (buffer w1 ≠ []) as Hb1 by by apply Ho1. destruct (client w1), (buffer w1); done. }
      destruct (script w1); simpl; rewrite Hc; by eexists. }
  destruct (result_of op w2). by eexists.
Qed.

Lemma step_ends d len r w : inv d w → remembers r w → exits w → is_Some (step len r w).1.1.
Proof.
  intros Hi Hr He. unfold step. destruct (started r); simpl; [|by eexists].
  assert (∀ len watch, watch = true ∨ buffer w ≠ [] → is_Some (receive len watch r w).1.1) as Hrec.
  { intros k watch Hw. unfold receive. destruct (call w) as [[e|] w1] eqn:Ec; [by eexists|].
    apply (call_keeps d) in Ec as [Hi1 Ho1]; [|done].
    assert (is_Some (settle (Reading k) watch w1).1) as [x Hx].
    { apply (settle_ends d); [done|by apply (steady_exits w); [apply onward_steady|]|].
      destruct Hw as [->|Hw]; [by left|right]. split; [done|by apply Ho1]. }
    destruct (settle (Reading k) watch w1) as [x' w2]. simpl in Hx. subst x'.
    destruct (buffer w1), (client w1), x as [[[[|]|] ?]|]; simpl; repeat case_match; by eexists. }
  destruct (connected r); simpl.
  - destruct (exited r); [|apply Hrec; by left]. unfold drain. destruct (buffer w) eqn:Eb; [by eexists|]. apply Hrec. by right.
  - unfold connect. destruct (call w) as [[e|] w1] eqn:Ec; [by eexists|]. apply (call_keeps d) in Ec as [Hi1 Ho1]; [|done].
    assert (is_Some (settle Connecting true w1).1) as [x Hx].
    { apply (settle_ends d); [done|by apply (steady_exits w); [apply onward_steady|]|by left]. }
    destruct (settle Connecting true w1) as [x' w2]. simpl in Hx. subst x'.
    destruct (client w1), x as [[[|] []]|]; by eexists.
Qed.

Lemma read_ends d passes len r w :
  inv d w → remembers r w → exits w → (rank r < passes)%nat → is_Some (read passes len r w).1.1.
Proof.
  revert r w. induction passes as [|n IH]; intros r w Hi Hr He Hn; [lia|]. cbn [read].
  destruct (ended r) eqn:Een; simpl; [by eexists|]. case_bool_decide as Hlen; [by eexists|].
  destruct (step_ends d len r w Hi Hr He) as [x Hx].
  destruct (step len r w) as [[x' r1] w1] eqn:Es. simpl in Hx. subst x'. destruct x as [next|e]; [|by eexists].
  apply (step_ok d) in Es as [[Hst Hs] Hsteady]; [|done..]. assert (exits w1) as He1 by by eapply steady_exits.
  destruct next as [more| |]; simpl in Hs; [by eexists| |].
  - destruct n as [|n]; [unfold rank in Hn; rewrite Een in Hn; lia|]. by eexists.
  - destruct Hs as (Hr1 & Hi1 & _ & Hrank). apply IH; try done. lia.
Qed.

Lemma read_all_ends d passes lens r w :
  inv d w → remembers r w → exits w → (3 < passes)%nat → is_Some (read_all passes lens r w).1.1.
Proof.
  revert d r w. induction lens as [|len lens IH]; intros d r w Hi Hr He Hp; simpl; [by eexists|].
  destruct (read_ends d passes len r w Hi Hr He) as [x Hx].
  { unfold rank. destruct (connected r), (exited r), (ended r); lia. }
  destruct (read passes len r w) as [[x' r1] w1] eqn:Er. simpl in Hx. subst x'. destruct x as [first|e]; [|by eexists].
  apply (read_ok d) in Er as (Hi1 & Hr1 & _ & Hst & _); [|done..].
  destruct (IH (d ++ first) r1 w1) as [y Hy]; [done|done|by eapply steady_exits|done|].
  destruct (read_all passes lens r1 w1) as [[y' r2] w2]. simpl in Hy. subst y'. destruct y; by eexists.
Qed.

(** The daemon has started, and nothing was written yet. *)
Definition start (script : list action) (pace : list nat) (faults : list (option io_error)) : world :=
  World Absent [] true [] [] script pace faults.

Lemma start_inv script pace faults : inv [] (start script pace faults) ∧ remembers (new true) (start script pace faults).
Proof. by split; split. Qed.
End Reader.

(** C16: the readiness pipe delivers what the daemon wrote. Whatever the daemon does
    and whenever, connecting late or never, closing its end, exiting, or leaving its
    end with another process: reads of any sizes deliver, in order, a prefix of what
    was written, and when they report the end they have delivered everything, all
    the daemon wrote before it exited included, and the daemon's end is closed or
    the daemon has exited. When the daemon exits at some point, reading does not
    wait for ever. *)
Theorem ready_pipe_delivers (script : list Reader.action) (pace : list nat) (faults : list (option io_error)) (lens : list nat) :
  let w := Reader.start script pace faults in
  ((∃ shared, Reader.Exits shared ∈ script) → is_Some (Reader.read_all 4 lens (Reader.new true) w).1.1) ∧
  ∀ data r w', Reader.read_all 4 lens (Reader.new true) w = (Some (Ok data), r, w') →
    data `prefix_of` Reader.total w' ∧
    (Reader.ended r = true →
     data = Reader.total w' ∧ Reader.sent w' `prefix_of` data ∧
     (Reader.alive w' = false ∨ Reader.client w' = Reader.Closed)).
Proof.
  intros w. destruct (Reader.start_inv script pace faults) as [Hi Hr]. split.
  - intros He. apply (Reader.read_all_ends []); try done; [by right|lia].
  - intros data r w' Hread. apply (Reader.read_all_ok []) in Hread as ([Ht Hs _ _] & [_ _ _ He] & Hst); [|done..].
    simpl in Ht. split; [by exists (Reader.buffer w')|]. intros Hend. destruct (He Hend) as [Hno|[Hb Hgone]]; [by rewrite Hst in Hno|].
    rewrite Hb, app_nil_r in Ht. subst data. by split_and!.
Qed.

(** A daemon that writes, closes late, and exits while another process has its end. *)
Definition talkative : list Reader.action :=
  [Reader.Connects; Reader.Writes (bs "progress"); Reader.Writes (bs " 1"); Reader.Exits true; Reader.Writes (bs "!")].

Lemma ready_pipe_delivers_witness :
  is_Some (Reader.read_all 4 [3; 9; 9; 4]%nat (Reader.new true) (Reader.start talkative [1; 0; 2; 0; 1; 3]%nat [])).1.1 ∧
  ∃ r w', Reader.read_all 4 [3; 9; 9; 4]%nat (Reader.new true) (Reader.start talkative [1; 0; 2; 0; 1; 3]%nat [])
    = (Some (Ok (Reader.total w')), r, w') ∧ Reader.sent w' `prefix_of` Reader.total w' ∧ Reader.sent w' = bs "progress 1".
Proof.
  destruct (ready_pipe_delivers talkative [1; 0; 2; 0; 1; 3]%nat [] [3; 9; 9; 4]%nat) as [Hend Hall]. split.
  { apply Hend. exists true. unfold talkative. rewrite !elem_of_cons. tauto. }
  destruct (Reader.read_all 4 [3; 9; 9; 4]%nat (Reader.new true) (Reader.start talkative [1; 0; 2; 0; 1; 3]%nat []))
    as [[[[data|e]|] r] w'] eqn:E; [|by vm_compute in E..].
  destruct (Hall data r w' eq_refl) as [_ Hdone]. exists r, w'.
  assert (Reader.ended r = true ∧ Reader.sent w' = bs "progress 1") as [He Hs].
  { vm_compute in E. injection E as _ <- <-. by split. }
  destruct (Hdone He) as (-> & Hp & _). split; [reflexivity|split; [exact Hp|exact Hs]].
Defined.
