(* ===== verification/Proto.v ===== *)
(** * Messages of the binary protocol (src/wire/generated.rs, proto/lifecycle.proto)

    How each message is sized, written and merged, field by field. The encoding of
    one field, and the splitting of a buffer into fields, belong to the [buffa]
    crate: they are a class of operations with the laws its documentation states,
    and [Wireformat] is one implementation of it, the Protocol Buffers encoding. *)
From S2P Require Import Prelude Text.

(** ** Fields *)

(** One field as the decoder hands it over: its number and its value. The content
    of a group is not looked into. *)
Inductive wire : Type :=
| Varint (n : Z)
| Fixed64 (n : Z)
| Fixed32 (n : Z)
| LengthDelimited (b : bytes)
| Group (content : bytes).

Definition field : Type := Z * wire.

(** [DecodeOptions] of [decode_message]. *)
Record DecodeOptions := MkOptions {
  max_message_size : Z; recursion_limit : Z; unknown_field_limit : Z; element_memory_limit : Z;
}.

Definition valid_value (w : wire) : Prop :=
  match w with
  | Varint n | Fixed64 n => is_u64 n
  | Fixed32 n => is_u32 n
  | LengthDelimited b => Z.of_nat (length b) ≤ u32_max
  | Group _ => False
  end.

Definition valid_field (f : field) : Prop := 1 ≤ f.1 < 2 ^ 29 ∧ valid_value f.2.

(** What the generated code uses of [buffa]. *)
Class Buffa : Type := {
  encode_field : field → bytes;
  decode_fields : DecodeOptions → bytes → option (list field);
  int32_varint : Z → Z;
  uint32_encoded_len : Z → Z;
  uint64_encoded_len : Z → Z;
  int32_encoded_len : Z → Z;
  bytes_encoded_len : bytes → Z;
  unknown_len : list field → Z;
  decode_uint32 : Z → option Z;
  decode_uint64 : Z → option Z;
  decode_int32 : Z → option Z;
  decode_bool : Z → option bool;
  merge_string : bytes → option bytes;
}.

Definition is_i32 (n : Z) : Prop := - 2 ^ 31 ≤ n < 2 ^ 31.

Definition encode_fields `{Buffa} (fs : list field) : bytes := concat (encode_field <$> fs).

(** Decoding what was encoded, within the limits, gives the same fields; each
    number and text is read back as it was written; the lengths are exact for the
    one-byte tags the messages use. *)
Class BuffaLaws `{Buffa} : Prop := {
  decode_encode o fs : Forall valid_field fs →
    Z.of_nat (length (encode_fields fs)) ≤ max_message_size o →
    Z.of_nat (length (encode_fields fs)) ≤ element_memory_limit o →
    Z.of_nat (length fs) ≤ unknown_field_limit o → 1 ≤ recursion_limit o →
    decode_fields o (encode_fields fs) = Some fs;
  int32_varint_range v : is_i32 v → is_u64 (int32_varint v);
  decode_uint32_law v : is_u32 v → decode_uint32 v = Some v;
  decode_uint64_law v : is_u64 v → decode_uint64 v = Some v;
  decode_int32_law v : is_i32 v → decode_int32 (int32_varint v) = Some v;
  decode_bool_law : decode_bool 1 = Some true;
  merge_string_law b : is_utf8 b = true → merge_string b = Some b;
  uint32_len n v : 1 ≤ n ≤ 15 → is_u32 v →
    Z.of_nat (length (encode_field (n, Varint v))) = 1 + uint32_encoded_len v;
  uint64_len n v : 1 ≤ n ≤ 15 → is_u64 v →
    Z.of_nat (length (encode_field (n, Varint v))) = 1 + uint64_encoded_len v;
  int32_len n v : 1 ≤ n ≤ 15 → is_i32 v →
    Z.of_nat (length (encode_field (n, Varint (int32_varint v)))) = 1 + int32_encoded_len v;
  int32_len_range v : is_i32 v → 1 ≤ int32_encoded_len v ≤ 10;
  bool_len n : 1 ≤ n ≤ 15 → Z.of_nat (length (encode_field (n, Varint 1))) = 2;
  bytes_len n b : 1 ≤ n ≤ 15 → Z.of_nat (length b) ≤ u32_max →
    Z.of_nat (length (encode_field (n, LengthDelimited b))) = 1 + bytes_encoded_len b;
  unknown_len_law fs : Forall valid_field fs →
    unknown_len fs = Z.of_nat (length (encode_fields fs));
}.

(** What the code asks of a message type: its size, the fields it writes, and how
    one decoded field changes it. *)
Class Message (M : Type) : Type := {
  msg_default : M;
  msg_size : M → Z;
  msg_write : M → list field;
  msg_merge : M → field → option M;
  msg_valid : M → Prop;
}.

Definition merge_all {M} (merge : M → field → option M) (m : M) (fs : list field) : option M :=
  foldl (λ acc f, acc ≫= λ m, merge m f) (Some m) fs.

(** [saturate_size]: the accumulated size as a [u32]. *)
Definition saturate_size (n : Z) : Z := Z.min n u32_max.

(** ** The pieces of generated code *)

Section pieces.
Context `{Buffa}.

(** A field is left out when it has its default. *)
Definition put_uint32 (n v : Z) : field := (n, Varint v).
Definition put_uint64 (n v : Z) : field := (n, Varint v).
Definition put_int32 (n v : Z) : field := (n, Varint (int32_varint v)).

Definition put_nonzero (put : Z → Z → field) (n v : Z) : list field :=
  if v =? 0 then [] else [put n v].
Definition put_nonempty (n : Z) (b : bytes) : list field :=
  match b with [] => [] | _ => [(n, LengthDelimited b)] end.
Definition put_true (n : Z) (b : bool) : list field := if b then [(n, Varint 1)] else [].
Definition put_present (n : Z) (o : option Z) : list field :=
  match o with Some v => [put_uint64 n v] | None => [] end.

Definition size_nonzero (len : Z → Z) (v : Z) : Z := if v =? 0 then 0 else 1 + len v.
Definition size_nonempty (b : bytes) : Z := match b with [] => 0 | _ => 1 + bytes_encoded_len b end.
Definition size_true (b : bool) : Z := if b then 2 else 0.
Definition size_present (o : option Z) : Z :=
  match o with Some v => 1 + uint64_encoded_len v | None => 0 end.

(** [check_wire_type] and the decoding of one value. *)
Definition varint (w : wire) : option Z := match w with Varint n => Some n | _ => None end.
Definition get_uint32 (w : wire) : option Z := varint w ≫= decode_uint32.
Definition get_uint64 (w : wire) : option Z := varint w ≫= decode_uint64.
Definition get_int32 (w : wire) : option Z := varint w ≫= decode_int32.
Definition get_bool (w : wire) : option bool := varint w ≫= decode_bool.
Definition get_bytes (w : wire) : option bytes :=
  match w with LengthDelimited b => Some b | _ => None end.
Definition get_string (w : wire) : option bytes := get_bytes w ≫= merge_string.

Definition valid_bytes (b : bytes) : Prop := Z.of_nat (length b) ≤ u32_max.
Definition valid_string (b : bytes) : Prop := valid_bytes b ∧ is_utf8 b = true.
Definition valid_option (o : option Z) : Prop := match o with Some v => is_u64 v | None => True end.
Definition unknown_field (last : Z) (f : field) : Prop := last < f.1 ∧ valid_field f.
End pieces.

(** ** Enumerations *)

(** [EnumValue<E>]: a number a newer peer may know. *)
Inductive enum_value (E : Type) : Type := Known (e : E) | Unknown (n : Z).
Arguments Known {E} e.
Arguments Unknown {E} n.

#[global] Instance enum_value_eq_dec `{EqDecision E} : EqDecision (enum_value E).
Proof. solve_decision. Defined.

Definition enum_of {E} (from_i32 : Z → option E) (n : Z) : enum_value E :=
  match from_i32 n with Some e => Known e | None => Unknown n end.
Definition to_i32 {E} (f : E → Z) (v : enum_value E) : Z :=
  match v with Known e => f e | Unknown n => n end.
Definition as_known {E} (v : enum_value E) : option E :=
  match v with Known e => Some e | Unknown _ => None end.

(** An [EnumValue] never holds a known number as an unknown one. *)
Definition valid_enum {E} (from_i32 : Z → option E) (f : E → Z) (v : enum_value E) : Prop :=
  is_i32 (to_i32 f v) ∧ enum_of from_i32 (to_i32 f v) = v.

Module MessageKind.
Inductive t := Lifecycle | Application.
#[global] Instance eq_dec : EqDecision t.
Proof. solve_decision. Defined.
Definition from_i32 (n : Z) : option t :=
  match n with 0 => Some Lifecycle | 1 => Some Application | _ => None end.
Definition to_i32 (k : t) : Z := match k with Lifecycle => 0 | Application => 1 end.
End MessageKind.

Module LifecycleChange.
Inductive t := Snapshot | Ready | Draining | SelectionChanged | Retiring.
#[global] Instance eq_dec : EqDecision t.
Proof. solve_decision. Defined.
Definition from_i32 (n : Z) : option t :=
  match n with
  | 0 => Some Snapshot | 1 => Some Ready | 2 => Some Draining | 3 => Some SelectionChanged
  | 4 => Some Retiring | _ => None
  end.
Definition to_i32 (k : t) : Z :=
  match k with Snapshot => 0 | Ready => 1 | Draining => 2 | SelectionChanged => 3 | Retiring => 4 end.
End LifecycleChange.

Module Refusal.
Inductive t := NotRefused | ProtocolTooOld | PeerRejected | ServerRetiring.
#[global] Instance eq_dec : EqDecision t.
Proof. solve_decision. Defined.
Definition from_i32 (n : Z) : option t :=
  match n with
  | 0 => Some NotRefused | 1 => Some ProtocolTooOld | 2 => Some PeerRejected
  | 3 => Some ServerRetiring | _ => None
  end.
Definition to_i32 (k : t) : Z :=
  match k with NotRefused => 0 | ProtocolTooOld => 1 | PeerRejected => 2 | ServerRetiring => 3 end.
End Refusal.

(** ** Lemmas on the pieces *)

Section pieces_proofs.
Context `{BuffaLaws} {M : Type} (merge : M → field → option M).

Lemma merge_all_app m fs gs :
  merge_all merge m (fs ++ gs) = merge_all merge m fs ≫= λ m, merge_all merge m gs.
Proof.
  unfold merge_all. rewrite foldl_app. destruct (foldl _ (Some m) fs) as [m'|]; [done|].
  simpl. induction gs; done.
Qed.

(** Each piece, merged into a message that has the default there, sets its field. *)
Lemma merge_one m f : merge_all merge m [f] = merge m f.
Proof. done. Qed.

Lemma merge_uint32 (set : Z → M → M) n v m :
  is_u32 v → set 0 m = m → (∀ w, merge m (n, w) = v ← get_uint32 w; Some (set v m)) →
  merge_all merge m (put_nonzero put_uint32 n v) = Some (set v m).
Proof.
  intros Hv Hdef Hm. unfold put_nonzero, put_uint32. destruct (Z.eqb_spec v 0) as [->|]; [by rewrite Hdef|].
  rewrite merge_one, Hm. unfold get_uint32. simpl. by rewrite decode_uint32_law.
Qed.

Lemma merge_uint64 (set : Z → M → M) n v m :
  is_u64 v → set 0 m = m → (∀ w, merge m (n, w) = v ← get_uint64 w; Some (set v m)) →
  merge_all merge m (put_nonzero put_uint64 n v) = Some (set v m).
Proof.
  intros Hv Hdef Hm. unfold put_nonzero, put_uint64. destruct (Z.eqb_spec v 0) as [->|]; [by rewrite Hdef|].
  rewrite merge_one, Hm. unfold get_uint64. simpl. by rewrite decode_uint64_law.
Qed.

Lemma merge_enum {E} (set : enum_value E → M → M) (from : Z → option E) (to : E → Z) n v m :
  valid_enum from to v → set (enum_of from 0) m = m →
  (∀ w, merge m (n, w) = v ← get_int32 w; Some (set (enum_of from v) m)) →
  merge_all merge m (put_nonzero put_int32 n (to_i32 to v)) = Some (set v m).
Proof.
  intros [Hi Hv] Hdef Hm. unfold put_nonzero, put_int32.
  destruct (Z.eqb_spec (to_i32 to v) 0) as [E0|]; [rewrite E0 in Hv; by rewrite <- Hv, Hdef|].
  rewrite merge_one, Hm. unfold get_int32. simpl. rewrite decode_int32_law by done. simpl. by rewrite Hv.
Qed.

Lemma merge_byt (set : bytes → M → M) n v m :
  set [] m = m → (∀ w, merge m (n, w) = v ← get_bytes w; Some (set v m)) →
  merge_all merge m (put_nonempty n v) = Some (set v m).
Proof. intros Hdef Hm. destruct v; [by rewrite Hdef|]. unfold put_nonempty. by rewrite merge_one, Hm. Qed.

Lemma merge_str (set : bytes → M → M) n v m :
  valid_string v → set [] m = m → (∀ w, merge m (n, w) = v ← get_string w; Some (set v m)) →
  merge_all merge m (put_nonempty n v) = Some (set v m).
Proof.
  intros [_ Hv] Hdef Hm. destruct v; [by rewrite Hdef|]. unfold put_nonempty.
  rewrite merge_one, Hm. unfold get_string. simpl get_bytes. cbn [mbind option_bind].
  by rewrite merge_string_law.
Qed.

Lemma merge_true (set : bool → M → M) n v m :
  set false m = m → (∀ w, merge m (n, w) = v ← get_bool w; Some (set v m)) →
  merge_all merge m (put_true n v) = Some (set v m).
Proof.
  intros Hdef Hm. destruct v; simpl; [|by rewrite Hdef].
  rewrite merge_one, Hm. unfold get_bool. simpl. by rewrite decode_bool_law.
Qed.

Lemma merge_opt (set : option Z → M → M) n v m :
  valid_option v → set None m = m →
  (∀ w, merge m (n, w) = v ← get_uint64 w; Some (set (Some v) m)) →
  merge_all merge m (put_present n v) = Some (set v m).
Proof.
  intros Hv Hdef Hm. destruct v as [v|]; simpl; [|by rewrite Hdef]. unfold put_uint64.
  rewrite merge_one, Hm. unfold get_uint64. simpl. by rewrite decode_uint64_law.
Qed.

(** Unknown fields are pushed one by one. *)
Lemma merge_unknown (push : field → M → M) last m us :
  (∀ m f, unknown_field last f → merge m f = Some (push f m)) → Forall (unknown_field last) us →
  merge_all merge m us = Some (foldl (λ m f, push f m) m us).
Proof.
  intros Hp Hus. revert m. induction Hus as [|f us Hf _ IH]; intros m; [done|].
  change (f :: us) with ([f] ++ us). rewrite merge_all_app, merge_one, Hp by done. apply IH.
Qed.
End pieces_proofs.

(** The size of each piece is the length of its encoding. *)
Section sizes.
Context `{BuffaLaws}.

Definition size_of (fs : list field) : Z := Z.of_nat (length (encode_fields fs)).

Lemma size_of_app fs gs : size_of (fs ++ gs) = size_of fs + size_of gs.
Proof. unfold size_of, encode_fields. rewrite fmap_app, concat_app, length_app. lia. Qed.

Lemma size_of_one f : size_of [f] = Z.of_nat (length (encode_field f)).
Proof. unfold size_of, encode_fields. simpl. by rewrite app_nil_r. Qed.

Lemma size_uint32 n v : 1 ≤ n ≤ 15 → is_u32 v →
  size_of (put_nonzero put_uint32 n v) = size_nonzero uint32_encoded_len v.
Proof.
  intros. unfold put_nonzero, size_nonzero. destruct (v =? 0); [done|].
  rewrite size_of_one. by apply uint32_len.
Qed.

Lemma size_uint64 n v : 1 ≤ n ≤ 15 → is_u64 v →
  size_of (put_nonzero put_uint64 n v) = size_nonzero uint64_encoded_len v.
Proof.
  intros. unfold put_nonzero, size_nonzero. destruct (v =? 0); [done|].
  rewrite size_of_one. by apply uint64_len.
Qed.

Lemma size_enum {E} (from : Z → option E) (to : E → Z) n v : 1 ≤ n ≤ 15 → valid_enum from to v →
  size_of (put_nonzero put_int32 n (to_i32 to v)) = size_nonzero int32_encoded_len (to_i32 to v).
Proof.
  intros ? [? _]. unfold put_nonzero, size_nonzero. destruct (_ =? 0); [done|].
  rewrite size_of_one. by apply int32_len.
Qed.

Lemma size_bytes n v : 1 ≤ n ≤ 15 → valid_bytes v → size_of (put_nonempty n v) = size_nonempty v.
Proof. intros. destruct v; [done|]. unfold put_nonempty. rewrite size_of_one. by apply bytes_len. Qed.

Lemma size_bool n v : 1 ≤ n ≤ 15 → size_of (put_true n v) = size_true v.
Proof. intros. destruct v; [|done]. unfold put_true. rewrite size_of_one. by apply bool_len. Qed.

Lemma size_opt n v : 1 ≤ n ≤ 15 → valid_option v → size_of (put_present n v) = size_present v.
Proof. intros. destruct v; [|done]. unfold put_present. rewrite size_of_one. by apply uint64_len. Qed.

Lemma size_unknown last us : Forall (unknown_field last) us → size_of us = unknown_len us.
Proof. intros Hus. rewrite unknown_len_law; [done|]. eapply Forall_impl; [done|]. by intros f []. Qed.
End sizes.

(** The fields every piece writes can be encoded. *)
Section wellformed.
Context `{BuffaLaws}.

Lemma valid_number n w : 1 ≤ n ≤ 15 → valid_value w → valid_field (n, w).
Proof. intros. split; simpl; [lia|done]. Qed.

Lemma wf_uint32 n v : 1 ≤ n ≤ 15 → is_u32 v → Forall valid_field (put_nonzero put_uint32 n v).
Proof.
  intros. unfold put_nonzero. destruct (_ =? 0); repeat constructor; simpl; try lia.
  all: unfold is_u32, u32_max, u64_max in *; lia.
Qed.

Lemma wf_uint64 n v : 1 ≤ n ≤ 15 → is_u64 v → Forall valid_field (put_nonzero put_uint64 n v).
Proof. intros. unfold put_nonzero. destruct (_ =? 0); constructor; [|done]. by apply valid_number. Qed.

Lemma wf_enum {E} (from : Z → option E) (to : E → Z) n v : 1 ≤ n ≤ 15 → valid_enum from to v →
  Forall valid_field (put_nonzero put_int32 n (to_i32 to v)).
Proof.
  intros ? [? _]. unfold put_nonzero. destruct (_ =? 0); constructor; [|done].
  apply valid_number; [done|]. by apply int32_varint_range.
Qed.

Lemma wf_bytes n v : 1 ≤ n ≤ 15 → valid_bytes v → Forall valid_field (put_nonempty n v).
Proof. intros. destruct v; constructor; [|done]. by apply valid_number. Qed.

Lemma wf_bool n v : 1 ≤ n ≤ 15 → Forall valid_field (put_true n v).
Proof. intros. destruct v; constructor; [|done]. apply valid_number; [done|]. by unfold valid_value, is_u64, u64_max. Qed.

Lemma wf_opt n v : 1 ≤ n ≤ 15 → valid_option v → Forall valid_field (put_present n v).
Proof. intros. destruct v; constructor; [|done]. by apply valid_number. Qed.

Lemma wf_unknown last us : Forall (unknown_field last) us → Forall valid_field us.
Proof. intros Hus. eapply Forall_impl; [done|]. by intros f []. Qed.
End wellformed.

(** What a message type promises: writing and merging round trip, its computed
    size is exact until it saturates, and what it writes can be encoded. *)
Class MessageLaws `{Buffa} (M : Type) `{!Message M} : Prop := {
  merge_write m : msg_valid m → merge_all msg_merge msg_default (msg_write m) = Some m;
  size_write m : msg_valid m → msg_size m = saturate_size (size_of (msg_write m));
  valid_write m : msg_valid m → Forall valid_field (msg_write m);
}.

(** A field number above those a message knows. *)
Ltac known_number n :=
  destruct n as [|p|p]; [lia| |lia];
  do 4 (destruct p as [p|p|]; try reflexivity; try lia).
(** The side conditions of the size lemmas and of [valid_write]. *)
Ltac sized := first [done | by (unfold valid_string in *; intuition) | lia].
Ltac wellformed :=
  repeat (apply Forall_app_2);
  first [ apply wf_uint32; sized | apply wf_uint64; sized | eapply wf_enum; [lia|eassumption]
        | apply wf_bytes; sized | apply wf_bool; lia | apply wf_opt; sized
        | eapply wf_unknown; eassumption ].

(** ** Messages *)

Module Hello.
Record t := mk {
  minimum : Z;
  maximum : Z;
  supported : Z;
  required : Z;
  max_frame : Z;
  application : bytes;
  profile : bytes;
  instance_ : bytes;
  service_id : bytes;
  reads_refusal : bool;
  refusal : enum_value Refusal.t;
  unknown : list field;
}.

Definition default : t :=
  mk 0 0 0 0 0 [] [] [] [] false (enum_of Refusal.from_i32 0) [].

Definition with_minimum (v : Z) (m : t) : t :=
    mk v (maximum m) (supported m) (required m) (max_frame m) (application m) (profile m) (instance_
     m) (service_id m) (reads_refusal m) (refusal m) (unknown m).
Definition with_maximum (v : Z) (m : t) : t :=
    mk (minimum m) v (supported m) (required m) (max_frame m) (application m) (profile m) (instance_
     m) (service_id m) (reads_refusal m) (refusal m) (unknown m).
Definition with_supported (v : Z) (m : t) : t :=
    mk (minimum m) (maximum m) v (required m) (max_frame m) (application m) (profile m) (instance_
     m) (service_id m) (reads_refusal m) (refusal m) (unknown m).
Definition with_required (v : Z) (m : t) : t :=
    mk (minimum m) (maximum m) (supported m) v (max_frame m) (application m) (profile m) (instance_
     m) (service_id m) (reads_refusal m) (refusal m) (unknown m).
Definition with_max_frame (v : Z) (m : t) : t :=
    mk (minimum m) (maximum m) (supported m) (required m) v (application m) (profile m) (instance_
     m) (service_id m) (reads_refusal m) (refusal m) (unknown m).
Definition with_application (v : bytes) (m : t) : t :=
    mk (minimum m) (maximum m) (supported m) (required m) (max_frame m) v (profile m) (instance_ m)
     (service_id m) (reads_refusal m) (refusal m) (unknown m).
Definition with_profile (v : bytes) (m : t) : t :=
    mk (minimum m) (maximum m) (supported m) (required m) (max_frame m) (application m) v (instance_
     m) (service_id m) (reads_refusal m) (refusal m) (unknown m).
Definition with_instance_ (v : bytes) (m : t) : t :=
    mk (minimum m) (maximum m) (supported m) (required m) (max_frame m) (application m) (profile m)
     v (service_id m) (reads_refusal m) (refusal m) (unknown m).
Definition with_service_id (v : bytes) (m : t) : t :=
    mk (minimum m) (maximum m) (supported m) (required m) (max_frame m) (application m) (profile m)
     (instance_ m) v (reads_refusal m) (refusal m) (unknown m).
Definition with_reads_refusal (v : bool) (m : t) : t :=
    mk (minimum m) (maximum m) (supported m) (required m) (max_frame m) (application m) (profile m)
     (instance_ m) (service_id m) v (refusal m) (unknown m).
Definition with_refusal (v : enum_value Refusal.t) (m : t) : t :=
    mk (minimum m) (maximum m) (supported m) (required m) (max_frame m) (application m) (profile m)
     (instance_ m) (service_id m) (reads_refusal m) v (unknown m).
Definition push_unknown (u : field) (m : t) : t :=
    mk (minimum m) (maximum m) (supported m) (required m) (max_frame m) (application m) (profile m)
     (instance_ m) (service_id m) (reads_refusal m) (refusal m) (unknown m ++ [u]).

Section codec.
Context `{Buffa}.

Definition compute_size (m : t) : Z := saturate_size (
  size_nonzero uint32_encoded_len (minimum m) +
  size_nonzero uint32_encoded_len (maximum m) +
  size_nonzero uint64_encoded_len (supported m) +
  size_nonzero uint64_encoded_len (required m) +
  size_nonzero uint32_encoded_len (max_frame m) +
  size_nonempty (application m) +
  size_nonempty (profile m) +
  size_nonempty (instance_ m) +
  size_nonempty (service_id m) +
  size_true (reads_refusal m) +
  size_nonzero int32_encoded_len (to_i32 Refusal.to_i32 (refusal m)) +
  unknown_len (unknown m)).

Definition write_to (m : t) : list field :=
  put_nonzero put_uint32 1 (minimum m) ++
  put_nonzero put_uint32 2 (maximum m) ++
  put_nonzero put_uint64 3 (supported m) ++
  put_nonzero put_uint64 4 (required m) ++
  put_nonzero put_uint32 5 (max_frame m) ++
  put_nonempty 6 (application m) ++
  put_nonempty 7 (profile m) ++
  put_nonempty 8 (instance_ m) ++
  put_nonempty 9 (service_id m) ++
  put_true 10 (reads_refusal m) ++
  put_nonzero put_int32 11 (to_i32 Refusal.to_i32 (refusal m)) ++
  unknown m.

Definition merge_field (m : t) (f : field) : option t :=
  let w := f.2 in
  match f.1 with
  | 1 => v ← get_uint32 w; Some (with_minimum v m)
  | 2 => v ← get_uint32 w; Some (with_maximum v m)
  | 3 => v ← get_uint64 w; Some (with_supported v m)
  | 4 => v ← get_uint64 w; Some (with_required v m)
  | 5 => v ← get_uint32 w; Some (with_max_frame v m)
  | 6 => v ← get_string w; Some (with_application v m)
  | 7 => v ← get_string w; Some (with_profile v m)
  | 8 => v ← get_string w; Some (with_instance_ v m)
  | 9 => v ← get_bytes w; Some (with_service_id v m)
  | 10 => v ← get_bool w; Some (with_reads_refusal v m)
  | 11 => v ← get_int32 w; Some (with_refusal (enum_of Refusal.from_i32 v) m)
  | _ => Some (push_unknown f m)
  end.

(** Every field in the range of its type; unknown fields are those of other
    numbers. *)
Definition valid (m : t) : Prop :=
  is_u32 (minimum m) ∧
  is_u32 (maximum m) ∧
  is_u64 (supported m) ∧
  is_u64 (required m) ∧
  is_u32 (max_frame m) ∧
  valid_string (application m) ∧
  valid_string (profile m) ∧
  valid_string (instance_ m) ∧
  valid_bytes (service_id m) ∧
  valid_enum Refusal.from_i32 Refusal.to_i32 (refusal m) ∧
  Forall (unknown_field 11) (unknown m).

#[global] Instance message : Message t := {
  msg_default := default; msg_size := compute_size; msg_write := write_to;
  msg_merge := merge_field; msg_valid := valid;
}.
End codec.

Section proofs.
Context `{BuffaLaws}.

Lemma hello_push_all us m :
  foldl (λ m f, push_unknown f m) m us = mk (minimum m) (maximum m) (supported m) (required m) (max_frame m) (application m) (profile m) (instance_ m) (service_id m) (reads_refusal m) (refusal m) (unknown m ++ us).
Proof.
  revert m. induction us as [|u us IH]; intros m; simpl; [by rewrite app_nil_r; destruct m|].
  rewrite IH. simpl. by rewrite <- app_assoc.
Qed.

Lemma hello_merge_unknown m f : unknown_field 11 f → merge_field m f = Some (push_unknown f m).
Proof. destruct f as [n w]. intros [Hn _]. simpl in Hn. unfold merge_field. cbn [fst snd]. known_number n. Qed.

#[global] Instance laws : MessageLaws t.
Proof.
  split; intros m (Hminimum & Hmaximum & Hsupported & Hrequired & Hmax_frame & Happlication & Hprofile & Hinstance_ & Hservice_id & Hrefusal & Hunk).
  - simpl. unfold write_to.
    rewrite merge_all_app, (merge_uint32 _ with_minimum) by done. cbn [mbind option_bind].
    rewrite merge_all_app, (merge_uint32 _ with_maximum) by done. cbn [mbind option_bind].
    rewrite merge_all_app, (merge_uint64 _ with_supported) by done. cbn [mbind option_bind].
    rewrite merge_all_app, (merge_uint64 _ with_required) by done. cbn [mbind option_bind].
    rewrite merge_all_app, (merge_uint32 _ with_max_frame) by done. cbn [mbind option_bind].
    rewrite merge_all_app, (merge_str _ with_application) by done. cbn [mbind option_bind].
    rewrite merge_all_app, (merge_str _ with_profile) by done. cbn [mbind option_bind].
    rewrite merge_all_app, (merge_str _ with_instance_) by done. cbn [mbind option_bind].
    rewrite merge_all_app, (merge_byt _ with_service_id) by done. cbn [mbind option_bind].
    rewrite merge_all_app, (merge_true _ with_reads_refusal) by done. cbn [mbind option_bind].
    rewrite merge_all_app, (merge_enum _ with_refusal Refusal.from_i32) by done. cbn [mbind option_bind].
    rewrite (merge_unknown _ push_unknown 11) by auto using hello_merge_unknown. rewrite hello_push_all. by destruct m.
  - simpl. unfold write_to, compute_size. rewrite !size_of_app.
        rewrite (size_uint32 1), (size_uint32 2), (size_uint64 3), (size_uint64 4), (size_uint32 5),
       (size_bytes 6), (size_bytes 7), (size_bytes 8), (size_bytes 9), (size_bool 10), (size_enum
       Refusal.from_i32 Refusal.to_i32 11),
      (size_unknown 11) by sized.
    f_equal. lia.
  - simpl. unfold write_to. wellformed.
Qed.
End proofs.
End Hello.

Module Control.
Record t := mk {
  operation : Z;
  request_id : Z;
  generation : Z;
  token : bytes;
  offset : option Z;
  payload : bytes;
  kind : enum_value MessageKind.t;
  unknown : list field;
}.

Definition default : t :=
  mk 0 0 0 [] None [] (enum_of MessageKind.from_i32 0) [].

Definition with_operation (v : Z) (m : t) : t :=
  mk v (request_id m) (generation m) (token m) (offset m) (payload m) (kind m) (unknown m).
Definition with_request_id (v : Z) (m : t) : t :=
  mk (operation m) v (generation m) (token m) (offset m) (payload m) (kind m) (unknown m).
Definition with_generation (v : Z) (m : t) : t :=
  mk (operation m) (request_id m) v (token m) (offset m) (payload m) (kind m) (unknown m).
Definition with_token (v : bytes) (m : t) : t :=
  mk (operation m) (request_id m) (generation m) v (offset m) (payload m) (kind m) (unknown m).
Definition with_offset (v : option Z) (m : t) : t :=
  mk (operation m) (request_id m) (generation m) (token m) v (payload m) (kind m) (unknown m).
Definition with_payload (v : bytes) (m : t) : t :=
  mk (operation m) (request_id m) (generation m) (token m) (offset m) v (kind m) (unknown m).
Definition with_kind (v : enum_value MessageKind.t) (m : t) : t :=
  mk (operation m) (request_id m) (generation m) (token m) (offset m) (payload m) v (unknown m).
Definition push_unknown (u : field) (m : t) : t :=
  mk (operation m) (request_id m) (generation m) (token m) (offset m) (payload m) (kind m) (unknown m ++ [u]).

Section codec.
Context `{Buffa}.

Definition compute_size (m : t) : Z := saturate_size (
  size_nonzero uint32_encoded_len (operation m) +
  size_nonzero uint64_encoded_len (request_id m) +
  size_nonzero uint64_encoded_len (generation m) +
  size_nonempty (token m) +
  size_present (offset m) +
  size_nonempty (payload m) +
  size_nonzero int32_encoded_len (to_i32 MessageKind.to_i32 (kind m)) +
  unknown_len (unknown m)).

Definition write_to (m : t) : list field :=
  put_nonzero put_uint32 1 (operation m) ++
  put_nonzero put_uint64 2 (request_id m) ++
  put_nonzero put_uint64 3 (generation m) ++
  put_nonempty 4 (token m) ++
  put_present 5 (offset m) ++
  put_nonempty 6 (payload m) ++
  put_nonzero put_int32 7 (to_i32 MessageKind.to_i32 (kind m)) ++
  unknown m.

Definition merge_field (m : t) (f : field) : option t :=
  let w := f.2 in
  match f.1 with
  | 1 => v ← get_uint32 w; Some (with_operation v m)
  | 2 => v ← get_uint64 w; Some (with_request_id v m)
  | 3 => v ← get_uint64 w; Some (with_generation v m)
  | 4 => v ← get_bytes w; Some (with_token v m)
  | 5 => v ← get_uint64 w; Some (with_offset (Some v) m)
  | 6 => v ← get_bytes w; Some (with_payload v m)
  | 7 => v ← get_int32 w; Some (with_kind (enum_of MessageKind.from_i32 v) m)
  | _ => Some (push_unknown f m)
  end.

(** Every field in the range of its type; unknown fields are those of other
    numbers. *)
Definition valid (m : t) : Prop :=
  is_u32 (operation m) ∧
  is_u64 (request_id m) ∧
  is_u64 (generation m) ∧
  valid_bytes (token m) ∧
  valid_option (offset m) ∧
  valid_bytes (payload m) ∧
  valid_enum MessageKind.from_i32 MessageKind.to_i32 (kind m) ∧
  Forall (unknown_field 7) (unknown m).

#[global] Instance message : Message t := {
  msg_default := default; msg_size := compute_size; msg_write := write_to;
  msg_merge := merge_field; msg_valid := valid;
}.
End codec.

Section proofs.
Context `{BuffaLaws}.

Lemma control_push_all us m :
  foldl (λ m f, push_unknown f m) m us = mk (operation m) (request_id m) (generation m) (token m) (offset m) (payload m) (kind m) (unknown m ++ us).
Proof.
  revert m. induction us as [|u us IH]; intros m; simpl; [by rewrite app_nil_r; destruct m|].
  rewrite IH. simpl. by rewrite <- app_assoc.
Qed.

Lemma control_merge_unknown m f : unknown_field 7 f → merge_field m f = Some (push_unknown f m).
Proof. destruct f as [n w]. intros [Hn _]. simpl in Hn. unfold merge_field. cbn [fst snd]. known_number n. Qed.

#[global] Instance laws : MessageLaws t.
Proof.
  split; intros m (Hoperation & Hrequest_id & Hgeneration & Htoken & Hoffset & Hpayload & Hkind & Hunk).
  - simpl. unfold write_to.
    rewrite merge_all_app, (merge_uint32 _ with_operation) by done. cbn [mbind option_bind].
    rewrite merge_all_app, (merge_uint64 _ with_request_id) by done. cbn [mbind option_bind].
    rewrite merge_all_app, (merge_uint64 _ with_generation) by done. cbn [mbind option_bind].
    rewrite merge_all_app, (merge_byt _ with_token) by done. cbn [mbind option_bind].
    rewrite merge_all_app, (merge_opt _ with_offset) by done. cbn [mbind option_bind].
    rewrite merge_all_app, (merge_byt _ with_payload) by done. cbn [mbind option_bind].
    rewrite merge_all_app, (merge_enum _ with_kind MessageKind.from_i32) by done. cbn [mbind option_bind].
    rewrite (merge_unknown _ push_unknown 7) by auto using control_merge_unknown. rewrite control_push_all. by destruct m.
  - simpl. unfold write_to, compute_size. rewrite !size_of_app.
        rewrite (size_uint32 1), (size_uint64 2), (size_uint64 3), (size_bytes 4), (size_opt 5),
       (size_bytes 6), (size_enum MessageKind.from_i32 MessageKind.to_i32 7),
      (size_unknown 7) by sized.
    f_equal. lia.
  - simpl. unfold write_to. wellformed.
Qed.
End proofs.
End Control.

Module Health.
Record t := mk {
  process_id : Z;
  generation : Z;
  build : bytes;
  revision : Z;
  ready : bool;
  draining : bool;
  active : Z;
  unknown : list field;
}.

Definition default : t :=
  mk 0 0 [] 0 false false 0 [].

Definition with_process_id (v : Z) (m : t) : t :=
  mk v (generation m) (build m) (revision m) (ready m) (draining m) (active m) (unknown m).
Definition with_generation (v : Z) (m : t) : t :=
  mk (process_id m) v (build m) (revision m) (ready m) (draining m) (active m) (unknown m).
Definition with_build (v : bytes) (m : t) : t :=
  mk (process_id m) (generation m) v (revision m) (ready m) (draining m) (active m) (unknown m).
Definition with_revision (v : Z) (m : t) : t :=
  mk (process_id m) (generation m) (build m) v (ready m) (draining m) (active m) (unknown m).
Definition with_ready (v : bool) (m : t) : t :=
  mk (process_id m) (generation m) (build m) (revision m) v (draining m) (active m) (unknown m).
Definition with_draining (v : bool) (m : t) : t :=
  mk (process_id m) (generation m) (build m) (revision m) (ready m) v (active m) (unknown m).
Definition with_active (v : Z) (m : t) : t :=
  mk (process_id m) (generation m) (build m) (revision m) (ready m) (draining m) v (unknown m).
Definition push_unknown (u : field) (m : t) : t :=
    mk (process_id m) (generation m) (build m) (revision m) (ready m) (draining m) (active m)
     (unknown m ++ [u]).

Section codec.
Context `{Buffa}.

Definition compute_size (m : t) : Z := saturate_size (
  size_nonzero uint32_encoded_len (process_id m) +
  size_nonzero uint64_encoded_len (generation m) +
  size_nonempty (build m) +
  size_nonzero uint64_encoded_len (revision m) +
  size_true (ready m) +
  size_true (draining m) +
  size_nonzero uint64_encoded_len (active m) +
  unknown_len (unknown m)).

Definition write_to (m : t) : list field :=
  put_nonzero put_uint32 1 (process_id m) ++
  put_nonzero put_uint64 2 (generation m) ++
  put_nonempty 3 (build m) ++
  put_nonzero put_uint64 4 (revision m) ++
  put_true 5 (ready m) ++
  put_true 6 (draining m) ++
  put_nonzero put_uint64 7 (active m) ++
  unknown m.

Definition merge_field (m : t) (f : field) : option t :=
  let w := f.2 in
  match f.1 with
  | 1 => v ← get_uint32 w; Some (with_process_id v m)
  | 2 => v ← get_uint64 w; Some (with_generation v m)
  | 3 => v ← get_string w; Some (with_build v m)
  | 4 => v ← get_uint64 w; Some (with_revision v m)
  | 5 => v ← get_bool w; Some (with_ready v m)
  | 6 => v ← get_bool w; Some (with_draining v m)
  | 7 => v ← get_uint64 w; Some (with_active v m)
  | _ => Some (push_unknown f m)
  end.

(** Every field in the range of its type; unknown fields are those of other
    numbers. *)
Definition valid (m : t) : Prop :=
  is_u32 (process_id m) ∧
  is_u64 (generation m) ∧
  valid_string (build m) ∧
  is_u64 (revision m) ∧
  is_u64 (active m) ∧
  Forall (unknown_field 7) (unknown m).

#[global] Instance message : Message t := {
  msg_default := default; msg_size := compute_size; msg_write := write_to;
  msg_merge := merge_field; msg_valid := valid;
}.
End codec.

Section proofs.
Context `{BuffaLaws}.

Lemma health_push_all us m :
  foldl (λ m f, push_unknown f m) m us = mk (process_id m) (generation m) (build m) (revision m) (ready m) (draining m) (active m) (unknown m ++ us).
Proof.
  revert m. induction us as [|u us IH]; intros m; simpl; [by rewrite app_nil_r; destruct m|].
  rewrite IH. simpl. by rewrite <- app_assoc.
Qed.

Lemma health_merge_unknown m f : unknown_field 7 f → merge_field m f = Some (push_unknown f m).
Proof. destruct f as [n w]. intros [Hn _]. simpl in Hn. unfold merge_field. cbn [fst snd]. known_number n. Qed.

#[global] Instance laws : MessageLaws t.
Proof.
  split; intros m (Hprocess_id & Hgeneration & Hbuild & Hrevision & Hactive & Hunk).
  - simpl. unfold write_to.
    rewrite merge_all_app, (merge_uint32 _ with_process_id) by done. cbn [mbind option_bind].
    rewrite merge_all_app, (merge_uint64 _ with_generation) by done. cbn [mbind option_bind].
    rewrite merge_all_app, (merge_str _ with_build) by done. cbn [mbind option_bind].
    rewrite merge_all_app, (merge_uint64 _ with_revision) by done. cbn [mbind option_bind].
    rewrite merge_all_app, (merge_true _ with_ready) by done. cbn [mbind option_bind].
    rewrite merge_all_app, (merge_true _ with_draining) by done. cbn [mbind option_bind].
    rewrite merge_all_app, (merge_uint64 _ with_active) by done. cbn [mbind option_bind].
    rewrite (merge_unknown _ push_unknown 7) by auto using health_merge_unknown. rewrite health_push_all. by destruct m.
  - simpl. unfold write_to, compute_size. rewrite !size_of_app.
        rewrite (size_uint32 1), (size_uint64 2), (size_bytes 3), (size_uint64 4), (size_bool 5),
       (size_bool 6), (size_uint64 7),
      (size_unknown 7) by sized.
    f_equal. lia.
  - simpl. unfold write_to. wellformed.
Qed.
End proofs.
End Health.

Module LifecycleEvent.
Record t := mk {
  change : enum_value LifecycleChange.t;
  sequence : Z;
  process_id : Z;
  generation : Z;
  build : bytes;
  ready : bool;
  draining : bool;
  selected_generation : option Z;
  selected_build : bytes;
  retiring : bool;
  unknown : list field;
}.

Definition default : t :=
  mk (enum_of LifecycleChange.from_i32 0) 0 0 0 [] false false None [] false [].

Definition with_change (v : enum_value LifecycleChange.t) (m : t) : t :=
    mk v (sequence m) (process_id m) (generation m) (build m) (ready m) (draining m)
     (selected_generation m) (selected_build m) (retiring m) (unknown m).
Definition with_sequence (v : Z) (m : t) : t :=
    mk (change m) v (process_id m) (generation m) (build m) (ready m) (draining m)
     (selected_generation m) (selected_build m) (retiring m) (unknown m).
Definition with_process_id (v : Z) (m : t) : t :=
    mk (change m) (sequence m) v (generation m) (build m) (ready m) (draining m)
     (selected_generation m) (selected_build m) (retiring m) (unknown m).
Definition with_generation (v : Z) (m : t) : t :=
    mk (change m) (sequence m) (process_id m) v (build m) (ready m) (draining m)
     (selected_generation m) (selected_build m) (retiring m) (unknown m).
Definition with_build (v : bytes) (m : t) : t :=
    mk (change m) (sequence m) (process_id m) (generation m) v (ready m) (draining m)
     (selected_generation m) (selected_build m) (retiring m) (unknown m).
Definition with_ready (v : bool) (m : t) : t :=
    mk (change m) (sequence m) (process_id m) (generation m) (build m) v (draining m)
     (selected_generation m) (selected_build m) (retiring m) (unknown m).
Definition with_draining (v : bool) (m : t) : t :=
    mk (change m) (sequence m) (process_id m) (generation m) (build m) (ready m) v
     (selected_generation m) (selected_build m) (retiring m) (unknown m).
Definition with_selected_generation (v : option Z) (m : t) : t :=
    mk (change m) (sequence m) (process_id m) (generation m) (build m) (ready m) (draining m) v
     (selected_build m) (retiring m) (unknown m).
Definition with_selected_build (v : bytes) (m : t) : t :=
    mk (change m) (sequence m) (process_id m) (generation m) (build m) (ready m) (draining m)
     (selected_generation m) v (retiring m) (unknown m).
Definition with_retiring (v : bool) (m : t) : t :=
    mk (change m) (sequence m) (process_id m) (generation m) (build m) (ready m) (draining m)
     (selected_generation m) (selected_build m) v (unknown m).
Definition push_unknown (u : field) (m : t) : t :=
    mk (change m) (sequence m) (process_id m) (generation m) (build m) (ready m) (draining m)
     (selected_generation m) (selected_build m) (retiring m) (unknown m ++ [u]).

Section codec.
Context `{Buffa}.

Definition compute_size (m : t) : Z := saturate_size (
  size_nonzero int32_encoded_len (to_i32 LifecycleChange.to_i32 (change m)) +
  size_nonzero uint64_encoded_len (sequence m) +
  size_nonzero uint32_encoded_len (process_id m) +
  size_nonzero uint64_encoded_len (generation m) +
  size_nonempty (build m) +
  size_true (ready m) +
  size_true (draining m) +
  size_present (selected_generation m) +
  size_nonempty (selected_build m) +
  size_true (retiring m) +
  unknown_len (unknown m)).

Definition write_to (m : t) : list field :=
  put_nonzero put_int32 1 (to_i32 LifecycleChange.to_i32 (change m)) ++
  put_nonzero put_uint64 2 (sequence m) ++
  put_nonzero put_uint32 3 (process_id m) ++
  put_nonzero put_uint64 4 (generation m) ++
  put_nonempty 5 (build m) ++
  put_true 6 (ready m) ++
  put_true 7 (draining m) ++
  put_present 8 (selected_generation m) ++
  put_nonempty 9 (selected_build m) ++
  put_true 10 (retiring m) ++
  unknown m.

Definition merge_field (m : t) (f : field) : option t :=
  let w := f.2 in
  match f.1 with
  | 1 => v ← get_int32 w; Some (with_change (enum_of LifecycleChange.from_i32 v) m)
  | 2 => v ← get_uint64 w; Some (with_sequence v m)
  | 3 => v ← get_uint32 w; Some (with_process_id v m)
  | 4 => v ← get_uint64 w; Some (with_generation v m)
  | 5 => v ← get_string w; Some (with_build v m)
  | 6 => v ← get_bool w; Some (with_ready v m)
  | 7 => v ← get_bool w; Some (with_draining v m)
  | 8 => v ← get_uint64 w; Some (with_selected_generation (Some v) m)
  | 9 => v ← get_string w; Some (with_selected_build v m)
  | 10 => v ← get_bool w; Some (with_retiring v m)
  | _ => Some (push_unknown f m)
  end.

(** Every field in the range of its type; unknown fields are those of other
    numbers. *)
Definition valid (m : t) : Prop :=
  valid_enum LifecycleChange.from_i32 LifecycleChange.to_i32 (change m) ∧
  is_u64 (sequence m) ∧
  is_u32 (process_id m) ∧
  is_u64 (generation m) ∧
  valid_string (build m) ∧
  valid_option (selected_generation m) ∧
  valid_string (selected_build m) ∧
  Forall (unknown_field 10) (unknown m).

#[global] Instance message : Message t := {
  msg_default := default; msg_size := compute_size; msg_write := write_to;
  msg_merge := merge_field; msg_valid := valid;
}.
End codec.

Section proofs.
Context `{BuffaLaws}.

Lemma lifecycleevent_push_all us m :
  foldl (λ m f, push_unknown f m) m us = mk (change m) (sequence m) (process_id m) (generation m) (build m) (ready m) (draining m) (selected_generation m) (selected_build m) (retiring m) (unknown m ++ us).
Proof.
  revert m. induction us as [|u us IH]; intros m; simpl; [by rewrite app_nil_r; destruct m|].
  rewrite IH. simpl. by rewrite <- app_assoc.
Qed.

Lemma lifecycleevent_merge_unknown m f : unknown_field 10 f → merge_field m f = Some (push_unknown f m).
Proof. destruct f as [n w]. intros [Hn _]. simpl in Hn. unfold merge_field. cbn [fst snd]. known_number n. Qed.

#[global] Instance laws : MessageLaws t.
Proof.
  split; intros m (Hchange & Hsequence & Hprocess_id & Hgeneration & Hbuild & Hselected_generation & Hselected_build & Hunk).
  - simpl. unfold write_to.
    rewrite merge_all_app, (merge_enum _ with_change LifecycleChange.from_i32) by done. cbn [mbind option_bind].
    rewrite merge_all_app, (merge_uint64 _ with_sequence) by done. cbn [mbind option_bind].
    rewrite merge_all_app, (merge_uint32 _ with_process_id) by done. cbn [mbind option_bind].
    rewrite merge_all_app, (merge_uint64 _ with_generation) by done. cbn [mbind option_bind].
    rewrite merge_all_app, (merge_str _ with_build) by done. cbn [mbind option_bind].
    rewrite merge_all_app, (merge_true _ with_ready) by done. cbn [mbind option_bind].
    rewrite merge_all_app, (merge_true _ with_draining) by done. cbn [mbind option_bind].
    rewrite merge_all_app, (merge_opt _ with_selected_generation) by done. cbn [mbind option_bind].
    rewrite merge_all_app, (merge_str _ with_selected_build) by done. cbn [mbind option_bind].
    rewrite merge_all_app, (merge_true _ with_retiring) by done. cbn [mbind option_bind].
    rewrite (merge_unknown _ push_unknown 10) by auto using lifecycleevent_merge_unknown. rewrite lifecycleevent_push_all. by destruct m.
  - simpl. unfold write_to, compute_size. rewrite !size_of_app.
        rewrite (size_enum LifecycleChange.from_i32 LifecycleChange.to_i32 1), (size_uint64 2),
       (size_uint32 3), (size_uint64 4), (size_bytes 5), (size_bool 6), (size_bool 7), (size_opt 8),
       (size_bytes 9), (size_bool 10),
      (size_unknown 10) by sized.
    f_equal. lia.
  - simpl. unfold write_to. wellformed.
Qed.
End proofs.
End LifecycleEvent.


(** ** Encoding and decoding a message *)

Section codec.
Context `{Buffa} {M : Type} `{!Message M}.

(** [encode_to_vec], and [decode_from_slice] under [DecodeOptions]. *)
Definition encode_to_vec (m : M) : bytes := encode_fields (msg_write m).
Definition decode_from_slice (o : DecodeOptions) (buffer : bytes) : option M :=
  decode_fields o buffer ≫= merge_all msg_merge msg_default.

Definition within (o : DecodeOptions) (m : M) : Prop :=
  Z.of_nat (length (encode_to_vec m)) ≤ max_message_size o ∧
  Z.of_nat (length (encode_to_vec m)) ≤ element_memory_limit o ∧
  Z.of_nat (length (msg_write m)) ≤ unknown_field_limit o ∧ 1 ≤ recursion_limit o.

(** What is decoded is what was encoded, and the size announced is the length. *)
Definition round_trips (o : DecodeOptions) (m : M) : Prop :=
  msg_valid m → within o m →
  decode_from_slice o (encode_to_vec m) = Some m ∧
  msg_size m = saturate_size (Z.of_nat (length (encode_to_vec m))).
End codec.

Lemma message_round_trips `{BuffaLaws} {M} `{!Message M, !MessageLaws M} o (m : M) : round_trips o m.
Proof.
  intros Hv (Hs & He & Hu & Hr). unfold decode_from_slice, encode_to_vec in *.
  rewrite decode_encode by eauto using valid_write. simpl.
  split; [by apply merge_write|by apply size_write].
Qed.

(** C30: every message survives encoding. Decoding the encoding of a message within
    the limits gives back the same message, unknown fields of newer peers
    included, and the size computed beforehand, which frames announce, is the
    length of the encoding. *)
Theorem messages_round_trip `{BuffaLaws} o :
  (∀ m : Hello.t, round_trips o m) ∧ (∀ m : Control.t, round_trips o m) ∧
  (∀ m : Health.t, round_trips o m) ∧ (∀ m : LifecycleEvent.t, round_trips o m).
Proof. split_and!; intros m; apply message_round_trips. Qed.

(** ** The Protocol Buffers encoding *)

Module Wireformat.
Fixpoint varint_bytes (fuel : nat) (n : Z) : bytes :=
  match fuel with
  | O => []
  | S fuel => if n <? 128 then [byte_of n] else byte_of (n mod 128 + 128) :: varint_bytes fuel (n / 128)
  end.

Definition encode_varint (n : Z) : bytes := varint_bytes 10 n.

Fixpoint read_varint (fuel : nat) (l : bytes) : option (Z * bytes) :=
  match fuel, l with
  | S fuel, b :: l =>
      if byte_val b <? 128 then Some (byte_val b, l) else
      '(n, l) ← read_varint fuel l; Some (byte_val b - 128 + 128 * n, l)
  | _, _ => None
  end.

Fixpoint little_endian (width : nat) (n : Z) : bytes :=
  match width with O => [] | S w => byte_of (n mod 256) :: little_endian w (n / 256) end.

Fixpoint read_little_endian (width : nat) (l : bytes) : option (Z * bytes) :=
  match width, l with
  | O, _ => Some (0, l)
  | S w, b :: l => '(n, l) ← read_little_endian w l; Some (byte_val b + 256 * n, l)
  | S _, [] => None
  end.

Definition encode (f : field) : bytes :=
  let '(n, w) := f in
  match w with
  | Varint v => encode_varint (n * 8) ++ encode_varint v
  | Fixed64 v => encode_varint (n * 8 + 1) ++ little_endian 8 v
  | LengthDelimited b => encode_varint (n * 8 + 2) ++ encode_varint (Z.of_nat (length b)) ++ b
  | Group _ => []
  | Fixed32 v => encode_varint (n * 8 + 5) ++ little_endian 4 v
  end.

(** A tag is 32 bits and its number not 0; a varint is 64 bits. *)
Definition read_field (l : bytes) : option (field * bytes) :=
  '(tag, l) ← read_varint 10 l;
  let n := tag / 8 in
  if (tag <? 8) || (u32_max <? tag) then None else
  match tag mod 8 with
  | 0 => '(v, l) ← read_varint 10 l; if u64_max <? v then None else Some ((n, Varint v), l)
  | 1 => '(v, l) ← read_little_endian 8 l; Some ((n, Fixed64 v), l)
  | 2 => '(k, l) ← read_varint 10 l;
      if (Z.of_nat (length l) <? k) || (u32_max <? k) then None
      else Some ((n, LengthDelimited (take (Z.to_nat k) l)), drop (Z.to_nat k) l)
  | 5 => '(v, l) ← read_little_endian 4 l; Some ((n, Fixed32 v), l)
  | _ => None
  end.

Fixpoint read_fields (fuel : nat) (l : bytes) : option (list field) :=
  match l, fuel with
  | [], _ => Some []
  | _, O => None
  | _, S fuel => '(f, l) ← read_field l; fs ← read_fields fuel l; Some (f :: fs)
  end.

#[global] Instance protobuf : Buffa := {
  encode_field := encode;
  decode_fields o l := if Z.of_nat (length l) <=? max_message_size o then read_fields (length l) l else None;
  int32_varint v := v mod 2 ^ 64;
  uint32_encoded_len v := Z.of_nat (length (encode_varint v));
  uint64_encoded_len v := Z.of_nat (length (encode_varint v));
  int32_encoded_len v := Z.of_nat (length (encode_varint (v mod 2 ^ 64)));
  bytes_encoded_len b := Z.of_nat (length (encode_varint (Z.of_nat (length b)))) + Z.of_nat (length b);
  unknown_len fs := Z.of_nat (length (concat (encode <$> fs)));
  decode_uint32 n := Some (n mod 2 ^ 32);
  decode_uint64 n := Some n;
  decode_int32 n := let x := n mod 2 ^ 32 in Some (if x <? 2 ^ 31 then x else x - 2 ^ 32);
  decode_bool n := Some (negb (n =? 0));
  merge_string b := if is_utf8 b then Some b else None;
}.

Lemma read_varint_bytes fuel n rest :
  0 ≤ n < 128 ^ Z.of_nat fuel → (0 < fuel)%nat → read_varint fuel (varint_bytes fuel n ++ rest) = Some (n, rest).
Proof.
  revert n. induction fuel as [|fuel IH]; intros n Hn Hf; [lia|].
  rewrite Nat2Z.inj_succ, Z.pow_succ_r in Hn by lia. simpl.
  destruct (Z.ltb_spec n 128) as [Hlt|Hge]; simpl.
  - rewrite byte_val_byte_of by lia. by rewrite (proj2 (Z.ltb_lt _ _)) by lia.
  - pose proof (Z.mod_pos_bound n 128). pose proof (Z.div_mod n 128).
    rewrite byte_val_byte_of by lia. rewrite (proj2 (Z.ltb_ge _ _)) by lia.
    rewrite IH; [simpl; do 2 f_equal; lia| |destruct fuel; simpl in Hn; lia].
    split; [apply Z.div_pos; lia|apply Z.div_lt_upper_bound; lia].
Qed.

Lemma read_encode_varint n rest : is_u64 n → read_varint 10 (encode_varint n ++ rest) = Some (n, rest).
Proof.
  intros Hn. apply read_varint_bytes; [|lia]. change (128 ^ Z.of_nat 10) with (2 ^ 70).
  unfold is_u64, u64_max in Hn. lia.
Qed.

Lemma read_little w n rest :
  0 ≤ n < 256 ^ Z.of_nat w → read_little_endian w (little_endian w n ++ rest) = Some (n, rest).
Proof.
  revert n. induction w as [|w IH]; intros n Hn; [simpl in *; do 2 f_equal; lia|].
  rewrite Nat2Z.inj_succ, Z.pow_succ_r in Hn by lia. simpl.
  pose proof (Z.mod_pos_bound n 256). pose proof (Z.div_mod n 256).
  rewrite IH by (split; [apply Z.div_pos; lia|apply Z.div_lt_upper_bound; lia]). simpl.
  rewrite byte_val_byte_of by lia. do 2 f_equal. lia.
Qed.

Lemma read_tag n k rest : 1 ≤ n < 2 ^ 29 → 0 ≤ k < 8 →
  read_varint 10 (encode_varint (n * 8 + k) ++ rest) = Some (n * 8 + k, rest) ∧
  (n * 8 + k) / 8 = n ∧ (n * 8 + k) mod 8 = k.
Proof.
  intros Hn Hk. split; [apply read_encode_varint; unfold is_u64, u64_max; lia|].
  split; [|rewrite Z.add_comm, Z.mod_add by lia; apply Z.mod_small; lia].
  rewrite Z.add_comm, Z.div_add by lia. rewrite Z.div_small; lia.
Qed.

Lemma read_encode f rest : valid_field f → read_field (encode f ++ rest) = Some (f, rest).
Proof.
  destruct f as [n w]. intros [Hn Hw]. cbn [fst snd] in *. unfold read_field, encode.
  assert (∀ k, 0 ≤ k < 8 → (n * 8 + k <? 8) || (u32_max <? n * 8 + k) = false) as Htag.
  { intros k Hk. apply orb_false_iff. split; apply Z.ltb_ge; unfold u32_max; lia. }
  destruct w as [v|v|v|b|c]; cbn [valid_value] in Hw; [..|done]; rewrite <- !app_assoc.
  - rewrite <- (Z.add_0_r (n * 8)). destruct (read_tag n 0 (encode_varint v ++ rest)) as (-> & E1 & E2); [lia..|].
    cbn [mbind option_bind]. rewrite Htag, E1, E2, read_encode_varint by (lia || done). cbn [mbind option_bind].
    rewrite (proj2 (Z.ltb_ge _ _)) by (unfold is_u64 in Hw; lia). done.
  - destruct (read_tag n 1 (little_endian 8 v ++ rest)) as (-> & E1 & E2); [lia..|].
    cbn [mbind option_bind]. rewrite Htag, E1, E2, read_little; [done| |lia].
    change (256 ^ Z.of_nat 8) with (2 ^ 64). unfold is_u64, u64_max in Hw. lia.
  - destruct (read_tag n 5 (little_endian 4 v ++ rest)) as (-> & E1 & E2); [lia..|].
    cbn [mbind option_bind]. rewrite Htag, E1, E2, read_little; [done| |lia].
    change (256 ^ Z.of_nat 4) with (2 ^ 32). unfold is_u32, u32_max in Hw. lia.
  - destruct (read_tag n 2 (encode_varint (Z.of_nat (length b)) ++ b ++ rest)) as (-> & E1 & E2); [lia..|].
    cbn [mbind option_bind]. rewrite Htag, E1, E2, read_encode_varint by (unfold is_u64, u64_max, u32_max in *; lia).
    cbn [mbind option_bind]. rewrite (proj2 (Z.ltb_ge _ _)) by (rewrite length_app; lia).
    rewrite (proj2 (Z.ltb_ge _ _)) by lia. cbn [orb].
    by rewrite Nat2Z.id, take_app_length, drop_app_length.
Qed.

Lemma varint_nonempty n : encode_varint n ≠ [].
Proof. unfold encode_varint. simpl. by destruct (n <? 128). Qed.

Lemma encode_nonempty f : valid_field f → encode f ≠ [].
Proof.
  destruct f as [n w]. intros [_ Hw]. unfold encode.
  destruct w; try done; intros [E _]%app_nil; by apply varint_nonempty in E.
Qed.

Lemma read_fields_step fuel l : l ≠ [] →
  read_fields (S fuel) l = '(f, l) ← read_field l; fs ← read_fields fuel l; Some (f :: fs).
Proof. by destruct l. Qed.

Lemma read_fields_encode fs fuel :
  Forall valid_field fs → (length (concat (encode <$> fs)) ≤ fuel)%nat →
  read_fields fuel (concat (encode <$> fs)) = Some fs.
Proof.
  intros Hfs. revert fuel. induction Hfs as [|f fs Hf _ IH]; intros fuel Hlen; [by destruct fuel|].
  rewrite fmap_cons in *. cbn [concat] in *. rewrite length_app in Hlen.
  pose proof (encode_nonempty f Hf) as Hne.
  assert (0 < length (encode f))%nat by (destruct (encode f); simpl; [done|lia]).
  destruct fuel as [|fuel]; [lia|]. rewrite read_fields_step.
  - rewrite read_encode by done. cbn [mbind option_bind]. rewrite IH by lia. done.
  - intros [E _]%app_nil. done.
Qed.

Lemma varint_length fuel n : (length (varint_bytes fuel n) ≤ fuel)%nat.
Proof.
  revert n. induction fuel as [|fuel IH]; intros n; simpl; [lia|].
  destruct (n <? 128); simpl; [lia|]. specialize (IH (n / 128)). lia.
Qed.

Lemma small_tag n k : 1 ≤ n ≤ 15 → 0 ≤ k < 8 → length (encode_varint (n * 8 + k)) = 1%nat.
Proof.
  intros. unfold encode_varint. cbn [varint_bytes]. by rewrite (proj2 (Z.ltb_lt _ _)) by lia.
Qed.

Lemma int32_round_trip v : is_i32 v →
  let x := (v mod 2 ^ 64) mod 2 ^ 32 in (if x <? 2 ^ 31 then x else x - 2 ^ 32) = v.
Proof.
  intros Hv x. unfold is_i32 in Hv.
  assert (x = v mod 2 ^ 32) as Hx.
  { subst x. rewrite Z.mod_mod_divide; [done|]. by exists (2 ^ 32). }
  rewrite Hx. destruct (decide (0 ≤ v)).
  - rewrite Z.mod_small by lia. rewrite (proj2 (Z.ltb_lt _ _)) by lia. done.
  - rewrite <- (Z.mod_add v 1) by lia. rewrite Z.mod_small by lia.
    rewrite (proj2 (Z.ltb_ge _ _)) by lia. lia.
Qed.

#[global] Instance protobuf_laws : BuffaLaws.
Proof.
  split; simpl.
  - intros o fs Hfs Hs _ _ _. unfold encode_fields in *. simpl in *.
    rewrite (proj2 (Z.leb_le _ _)) by done. by apply read_fields_encode.
  - intros v _. unfold is_u64, u64_max. pose proof (Z.mod_pos_bound v (2 ^ 64)). lia.
  - intros v Hv. rewrite Z.mod_small; [done|]. unfold is_u32, u32_max in Hv. lia.
  - done.
  - intros v Hv. f_equal. by apply int32_round_trip.
  - done.
  - intros b ->. done.
  - intros n v Hn _. rewrite length_app, <- (Z.add_0_r (n * 8)), small_tag; lia.
  - intros n v Hn _. rewrite length_app, <- (Z.add_0_r (n * 8)), small_tag; lia.
  - intros n v Hn _. rewrite length_app, <- (Z.add_0_r (n * 8)), small_tag; lia.
  - intros v _. pose proof (varint_length 10 (v mod 2 ^ 64)). fold (encode_varint (v mod 2 ^ 64)) in *.
    pose proof (varint_nonempty (v mod 2 ^ 64)). destruct (encode_varint (v mod 2 ^ 64)); simpl in *; [done|lia].
  - intros n Hn. rewrite length_app, <- (Z.add_0_r (n * 8)), small_tag; simpl; lia.
  - intros n b Hn _. rewrite !length_app, small_tag; lia.
  - done.
Qed.
End Wireformat.

Lemma messages_round_trip_witness :
  let o := MkOptions 65536 32 128 65536 in
  let m := Control.with_offset (Some 0) (Control.with_payload (bs "state") (Control.with_operation 300 Control.default)) in
  decode_from_slice (H := Wireformat.protobuf) o (encode_to_vec (H := Wireformat.protobuf) m) = Some m ∧
  encode_to_vec (H := Wireformat.protobuf) m = [x08; xac; x02; x28; x00; x32; x05; x73; x74; x61; x74; x65].
Proof.
  split; [|vm_compute; reflexivity].
  apply (messages_round_trip (H := Wireformat.protobuf) (MkOptions 65536 32 128 65536)).
  - unfold msg_valid. simpl. unfold Control.valid, valid_bytes, valid_option, valid_enum, is_u32, is_u64,
      u32_max, u64_max, is_i32. simpl. split_and!; lia || done.
  - unfold within. vm_compute. split_and!; discriminate.
Defined.
