(* ===== verification/ProtoTyping.v ===== *)
(** * What decoding makes of any bytes (src/wire/generated.rs)

    The bytes a peer sends need not have been written by the encoder of [Proto].
    Whatever they are, a message decoded from them is well typed: each number is in
    the range of its Rust type, each text is UTF-8, an enumeration never holds a
    known number as an unknown one, and only fields of unknown numbers are kept
    aside. [BuffaReads] states what the [buffa] crate promises of the values it
    hands over; [Wireformat] keeps that promise. *)
From S2P Require Import Prelude Text Proto.

(** ** What the decoder hands over *)

Definition is_group (f : field) : bool := match f.2 with Group _ => true | _ => false end.

(** A decoded field has a number a tag can carry and a value in range; numbers are
    decoded into the range of their type, and only UTF-8 becomes text. *)
Class BuffaReads `{Buffa} : Prop := {
  fields_in_range o buffer fs : decode_fields o buffer = Some fs →
    Forall (λ f, is_group f = false → valid_field f) fs;
  uint32_in_range n v : is_u64 n → decode_uint32 n = Some v → is_u32 v;
  uint64_in_range n v : is_u64 n → decode_uint64 n = Some v → is_u64 v;
  int32_in_range n v : is_u64 n → decode_int32 n = Some v → is_i32 v;
  string_is_text b s : merge_string b = Some s → s = b ∧ is_utf8 b = true;
}.

Section pieces.
Context `{BuffaReads}.

Lemma get_uint32_typed w v : valid_value w → get_uint32 w = Some v → is_u32 v.
Proof. destruct w; try done. apply uint32_in_range. Qed.

Lemma get_uint64_typed w v : valid_value w → get_uint64 w = Some v → is_u64 v.
Proof. destruct w; try done. apply uint64_in_range. Qed.

Lemma get_int32_typed w v : valid_value w → get_int32 w = Some v → is_i32 v.
Proof. destruct w; try done. apply int32_in_range. Qed.

Lemma get_bytes_typed w v : valid_value w → get_bytes w = Some v → valid_bytes v.
Proof. destruct w; try done. intros Hw [= <-]. done. Qed.

Lemma get_string_typed w v : valid_value w → get_string w = Some v → valid_string v.
Proof.
  destruct w as [| | |b|]; try done. intros Hw E. apply string_is_text in E as [-> ?]. by split.
Qed.
End pieces.

(** An enumeration read back has the number it was read from. *)
Class ClosedEnum {E} (from_i32 : Z → option E) (f : E → Z) : Prop :=
  enum_number n e : from_i32 n = Some e → f e = n.

Lemma enum_of_typed {E} (from : Z → option E) (f : E → Z) `{!ClosedEnum from f} n :
  is_i32 n → valid_enum from f (enum_of from n).
Proof.
  intros Hn. unfold valid_enum, enum_of, Proto.to_i32. destruct (from n) as [e|] eqn:E1.
  - rewrite (enum_number _ _ E1). by rewrite E1.
  - by rewrite E1.
Qed.

(** The numbers of an enumeration are few: every other one is unknown. *)
Ltac few_numbers :=
  intros n e; destruct n as [|p|p]; [|do 3 (try destruct p as [p|p|])|]; intros Heq; try discriminate Heq;
  injection Heq as <-; reflexivity.
#[global] Instance message_kind_closed : ClosedEnum MessageKind.from_i32 MessageKind.to_i32.
Proof. few_numbers. Qed.
#[global] Instance lifecycle_change_closed : ClosedEnum LifecycleChange.from_i32 LifecycleChange.to_i32.
Proof. few_numbers. Qed.
#[global] Instance refusal_closed : ClosedEnum Refusal.from_i32 Refusal.to_i32.
Proof. few_numbers. Qed.

(** ** Messages *)

(** A message starts well typed, and merging a field keeps it so. *)
Class MessageTyping `{Buffa} (M : Type) `{!Message M} : Prop := {
  default_valid : msg_valid (M := M) msg_default;
  merge_valid (m m' : M) f : valid_field f → msg_valid m → msg_merge m f = Some m' → msg_valid m';
}.

(** The value a known field sets is well typed. *)
Ltac typed_value :=
  match goal with
  | E : mbind _ ?x = Some _ |- _ =>
      let v := fresh "v" in let Ev := fresh "Ev" in
      destruct x as [v|] eqn:Ev; [cbn [mbind option_bind] in E; injection E as <-|discriminate E];
      first [ apply get_uint32_typed in Ev; [|done] | apply get_uint64_typed in Ev; [|done]
            | apply get_int32_typed in Ev; [|done]
            | apply get_string_typed in Ev; [|done] | apply get_bytes_typed in Ev; [|done] | clear Ev ]
  end.

(** A field number is one of the known ones, or above them. *)
Ltac known_or_above last n :=
  destruct (decide (last < n)); [|destruct n as [|p|p]; [lia| |lia]; do 4 (try destruct p as [p|p|]); try lia].

Ltac typed_default :=
  cbn; split_and!; unfold valid_string, valid_bytes, valid_option, is_u32, is_u64, u32_max, u64_max; simpl;
  first [ done | lia | apply enum_of_typed; unfold is_i32; lia | (split; [lia|done]) | constructor ].

Section messages.
Context `{BuffaReads}.

Ltac by_number last unk :=
  let n := fresh "n" in let w := fresh "w" in let Hn := fresh in let Hw := fresh in
  intros m m' [n w] [Hn Hw] Hv E; cbn [fst snd] in *; simpl in E;
  known_or_above last n;
  [ assert (unknown_field last (n, w)) by done; rewrite unk in E by done; injection E as <-
  | cbn in E; typed_value .. ];
  hnf in Hv |- *; cbn [valid_enum]; destruct_and? Hv; split_and?;
  first [ done | match goal with Ev : is_i32 _ |- _ => exact (enum_of_typed _ _ _ Ev) end
        | by apply Forall_app_2, Forall_singleton ].

#[global] Instance hello_typing : MessageTyping Hello.t.
Proof. split; [typed_default|by_number 11 Hello.hello_merge_unknown]. Qed.

#[global] Instance control_typing : MessageTyping Control.t.
Proof. split; [typed_default|by_number 7 Control.control_merge_unknown]. Qed.

#[global] Instance health_typing : MessageTyping Health.t.
Proof. split; [typed_default|by_number 7 Health.health_merge_unknown]. Qed.

#[global] Instance lifecycleevent_typing : MessageTyping LifecycleEvent.t.
Proof. split; [typed_default|by_number 10 LifecycleEvent.lifecycleevent_merge_unknown]. Qed.
End messages.

(** ** Decoding *)

(** Whether a buffer holds a group, which no message of the protocol has: it is
    kept, unread, among the unknown fields. *)
Definition no_groups `{Buffa} (o : DecodeOptions) (buffer : bytes) : bool :=
  match decode_fields o buffer with Some fs => forallb (λ f, negb (is_group f)) fs | None => true end.

(** Whatever is decoded is well typed, and sent on and decoded again is the same. *)
Definition decodes_well `{Buffa} {M} `{!Message M} (o : DecodeOptions) (buffer : bytes) : Prop :=
  ∀ m : M, decode_from_slice o buffer = Some m →
    msg_valid m ∧ (within o m → decode_from_slice o (encode_to_vec m) = Some m).

Lemma merge_all_valid `{MessageTyping} fs m m' :
  Forall valid_field fs → msg_valid m → merge_all msg_merge m fs = Some m' → msg_valid m'.
Proof.
  intros Hfs. revert m. induction Hfs as [|f fs Hf _ IH]; intros m Hm; cbn; [by intros [= <-]|].
  unfold merge_all in IH. destruct (msg_merge m f) as [m1|] eqn:E.
  - apply IH. by eapply merge_valid.
  - clear. by induction fs.
Qed.

Section decoding.
Context `{BuffaReads, !BuffaLaws}.

Lemma message_decodes_well {M} `{!Message M, !MessageLaws M, !MessageTyping M} o buffer :
  no_groups o buffer = true → decodes_well (M := M) o buffer.
Proof.
  unfold no_groups, decodes_well, decode_from_slice at 1. intros Hg m Hm.
  destruct (decode_fields o buffer) as [fs|] eqn:E; [|done]. cbn [mbind option_bind] in Hm.
  assert (msg_valid m) as Hv.
  { eapply (merge_all_valid fs); [|apply default_valid|exact Hm].
    apply fields_in_range in E. rewrite Forall_forall in *. intros f Hf.
    apply E; [done|]. pose proof (proj1 (forallb_forall _ _) Hg f) as Hnot.
    apply negb_true_iff, Hnot. by apply list_elem_of_In. }
  split; [done|]. intros Hw. by apply message_round_trips.
Qed.

End decoding.

(** ** The Protocol Buffers encoding keeps the promise *)

Lemma read_varint_nonneg fuel l n rest : Wireformat.read_varint fuel l = Some (n, rest) → 0 ≤ n.
Proof.
  revert l n rest. induction fuel as [|fuel IH]; intros [|b l] n rest; simpl; try done.
  pose proof (byte_val_range b). destruct (Z.ltb_spec (byte_val b) 128); [intros [= <- _]; lia|].
  destruct (Wireformat.read_varint fuel l) as [[k l']|] eqn:E; [|done]. intros [= <- _].
  apply IH in E. lia.
Qed.

Lemma read_little_endian_range w l n rest :
  Wireformat.read_little_endian w l = Some (n, rest) → 0 ≤ n < 256 ^ Z.of_nat w.
Proof.
  revert l n rest. induction w as [|w IH]; intros l n rest; [intros [= <- _]; done|].
  destruct l as [|b l]; [done|]. cbn [Wireformat.read_little_endian].
  pose proof (byte_val_range b).
  destruct (Wireformat.read_little_endian w l) as [[k l']|] eqn:E; [|done]. intros [= <- _].
  apply IH in E. rewrite Nat2Z.inj_succ, Z.pow_succ_r by lia. lia.
Qed.

Lemma read_field_valid l f rest : Wireformat.read_field l = Some (f, rest) → valid_field f.
Proof.
  unfold Wireformat.read_field.
  destruct (Wireformat.read_varint 10 l) as [[tag l1]|]; [|done]. cbn [mbind option_bind].
  destruct (_ || _) eqn:Etag; [done|]. apply orb_false_iff in Etag as [H1%Z.ltb_ge H2%Z.ltb_ge].
  assert (1 ≤ tag / 8 < 2 ^ 29) as Hnum.
  { unfold u32_max in H2. pose proof (Z.div_mod tag 8). pose proof (Z.mod_pos_bound tag 8). lia. }
  assert (∀ w, valid_value w → valid_field (tag / 8, w)) as Hf by done.
  destruct (tag mod 8) as [|k|k]; [| |done].
  - destruct (Wireformat.read_varint 10 l1) as [[v l2]|] eqn:E; [|done]. cbn [mbind option_bind].
    destruct (Z.ltb_spec u64_max v); [done|]. intros [= <- _]. apply Hf. split; [by eapply read_varint_nonneg|done].
  - repeat (destruct k as [k|k|]; try done).
    + destruct (Wireformat.read_little_endian 4 l1) as [[v l2]|] eqn:E; [|done]. intros [= <- _]. apply Hf.
      apply read_little_endian_range in E. change (256 ^ Z.of_nat 4) with (2 ^ 32) in E.
      unfold valid_value, is_u32, u32_max. lia.
    + destruct (Wireformat.read_varint 10 l1) as [[v l2]|] eqn:E; [|done]. cbn [mbind option_bind].
      destruct (_ || _) eqn:Elen; [done|]. apply orb_false_iff in Elen as [Ha%Z.ltb_ge Hb%Z.ltb_ge].
      intros [= <- _]. apply Hf. unfold valid_value. rewrite length_take. lia.
    + destruct (Wireformat.read_little_endian 8 l1) as [[v l2]|] eqn:E; [|done]. intros [= <- _]. apply Hf.
      apply read_little_endian_range in E. change (256 ^ Z.of_nat 8) with (2 ^ 64) in E.
      unfold valid_value, is_u64, u64_max. lia.
Qed.

Lemma read_fields_valid fuel l fs : Wireformat.read_fields fuel l = Some fs → Forall valid_field fs.
Proof.
  revert l fs. induction fuel as [|fuel IH]; intros [|b l] fs; cbn [Wireformat.read_fields];
    [by intros [= <-]|done|by intros [= <-]|].
  destruct (Wireformat.read_field (b :: l)) as [[f rest]|] eqn:E; [|done]. cbn [mbind option_bind].
  destruct (Wireformat.read_fields fuel rest) as [fs'|] eqn:E'; [|done]. intros [= <-].
  constructor; [by eapply read_field_valid|by eapply IH].
Qed.

#[global] Instance protobuf_reads : BuffaReads (H := Wireformat.protobuf).
Proof.
  split; simpl.
  - intros o buffer fs. destruct (_ <=? _); [|done]. intros E%read_fields_valid.
    eapply Forall_impl; [exact E|]. done.
  - intros n v _ [= <-]. unfold is_u32, u32_max. pose proof (Z.mod_pos_bound n (2 ^ 32)). lia.
  - by intros n v Hn [= <-].
  - intros n v _ [= <-]. pose proof (Z.mod_pos_bound n (2 ^ 32)). unfold is_i32.
    destruct (Z.ltb_spec (n mod 2 ^ 32) (2 ^ 31)); lia.
  - intros b s. destruct (is_utf8 b) eqn:E; [|done]. by intros [= <-].
Qed.

