(* ===== verification/Wire.v ===== *)
(** * Negotiation of binary sessions (src/wire.rs)

    Offers, the agreement two peers calculate independently, refusals, the
    capability each operation needs and the choice of an endpoint. Framing and the
    handshake over a stream are in [Session]. *)
From S2P Require Import Prelude Text SocketPath Identity Proto.

Definition MAGIC : bytes := bs "KNDPB002".
Definition VERSION : Z := 2.
Definition MAX_FRAME : Z := 65536.
Definition HELLO_LIMIT : Z := 1024.
Definition MIN_FRAME : Z := 256.

(** [mod capability]. *)
Module Capability.
Definition HEALTH : Z := 1.
Definition DRAIN : Z := 2.
Definition HANDOFF : Z := 4.
Definition APPLICATION : Z := 8.
Definition HEALTH_DETAILS : Z := 16.
Definition WATCH : Z := 32.
End Capability.

(** [mod operation]. *)
Module Operation.
Definition HEALTH : Z := 1.
Definition DRAIN : Z := 2.
Definition PREPARE : Z := 3.
Definition PAUSED : Z := 4.
Definition READY : Z := 5.
Definition COMMIT : Z := 6.
Definition ABORT : Z := 7.
Definition WATCH : Z := 8.
End Operation.

Definition invalid (text : string) : io_error := error_new InvalidData text.

(** ** Terms *)

Record Agreement := MkAgreement { version : Z; capabilities : Z; agreed_frame : Z }.

#[export] Instance Agreement_eq_dec : EqDecision Agreement.
Proof. solve_decision. Defined.

Module Terms.
Record t := mk { minimum : Z; maximum : Z; supported : Z; required : Z; max_frame : Z }.

Definition of_hello (h : Hello.t) : t :=
  mk (Hello.minimum h) (Hello.maximum h) (Hello.supported h) (Hello.required h) (Hello.max_frame h).

(** [a & !b == 0] on [u64]: every bit of [a] is one of [b]. *)
Definition subset (a b : Z) : bool := Z.land a (Z.lxor b u64_max) =? 0.

Definition valid (t : t) : bool :=
  negb (minimum t =? 0) && (minimum t <=? maximum t) && subset (required t) (supported t)
  && (MIN_FRAME <=? max_frame t) && (max_frame t <=? MAX_FRAME).

Definition agree (a remote : t) : io_result Agreement :=
  let minimum := Z.max (minimum a) (minimum remote) in
  let maximum := Z.min (maximum a) (maximum remote) in
  if (VERSION <? minimum) || (maximum <? VERSION)
  then Err (invalid "no implemented binary version in common") else
  let capabilities := Z.land (supported a) (supported remote) in
  if negb (subset (Z.lor (required a) (required remote)) capabilities)
  then Err (invalid "required capability unavailable")
  else Ok (MkAgreement VERSION capabilities (Z.min (max_frame a) (max_frame remote))).
End Terms.

(** ** Offers *)

(** [Hello::new]. *)
Definition new_hello (i : ServiceIdentity.t) (supported required : Z) : Hello.t :=
  Hello.mk VERSION VERSION supported required MAX_FRAME
    (ServiceIdentity.application i) (ServiceIdentity.profile i) (ServiceIdentity.instance_ i)
    (ServiceIdentity.id i) true (Hello.refusal Hello.default) [].

(** [Hello::validate]. *)
Definition validate (h : Hello.t) : io_result unit :=
  if decide (length (Hello.service_id h) = 16%nat) then
    match ServiceIdentity.new (Hello.service_id h) (Hello.application h) (Hello.profile h) (Hello.instance_ h) with
    | Err _ => Err (invalid "invalid service identity")
    | Ok _ =>
        if negb (Terms.valid (Terms.of_hello h))
        then Err (invalid "invalid version or capability offer") else Ok tt
    end
  else Err (invalid "service UUID must have 16 bytes").

Definition same_service (a b : Hello.t) : bool :=
  bool_decide (Hello.service_id a = Hello.service_id b ∧ Hello.application a = Hello.application b ∧
    Hello.profile a = Hello.profile b ∧ Hello.instance_ a = Hello.instance_ b).

Definition negotiate (local remote : Hello.t) : io_result Agreement :=
  _ ← validate local;
  _ ← validate remote;
  if negb (same_service local remote) then Err (invalid "service identity mismatch")
  else Terms.agree (Terms.of_hello local) (Terms.of_hello remote).

(** [required_capability]. *)
Definition required_capability (m : Control.t) : io_result Z :=
  match as_known (Control.kind m) with
  | Some MessageKind.Application =>
      if negb (Control.operation m =? 0) then Ok Capability.APPLICATION
      else Err (invalid "invalid message kind or application operation")
  | Some MessageKind.Lifecycle =>
      let o := Control.operation m in
      if o =? Operation.HEALTH then Ok Capability.HEALTH else
      if o =? Operation.DRAIN then Ok Capability.DRAIN else
      if (Operation.PREPARE <=? o) && (o <=? Operation.ABORT) then Ok Capability.HANDOFF else
      if o =? Operation.WATCH then Ok Capability.WATCH else
      Err (invalid "unknown control operation")
  | None => Err (invalid "invalid message kind or application operation")
  end.

(** ** Refusals *)

Module Refused.
Inductive t := ProtocolTooOld | PeerRejected | Retiring.
#[global] Instance eq_dec : EqDecision t.
Proof. solve_decision. Defined.

Definition reason (r : t) : Refusal.t :=
  match r with
  | ProtocolTooOld => Refusal.ProtocolTooOld
  | PeerRejected => Refusal.PeerRejected
  | Retiring => Refusal.ServerRetiring
  end.

(** [Refused::frame]. *)
Definition frame (r : t) (offer remote : Hello.t) : option Hello.t :=
  let answered := Hello.reads_refusal remote && same_service offer remote in
  if answered && is_ok (validate remote)
  then Some (Hello.with_refusal (Known (reason r)) Hello.default) else None.
End Refused.

(** An error of a handshake: an [io::Error] that may carry a [Refused]. *)
Inductive wire_error := Plain (e : io_error) | Refused_ (r : Refused.t).
Abbreviation wire_result := (result wire_error).

(** [Refused::of]. *)
Definition refused_of (e : wire_error) : option Refused.t :=
  match e with Refused_ r => Some r | Plain _ => None end.

Definition rejection (offer remote : Hello.t) : option Hello.t :=
  if (Hello.maximum remote <? VERSION) || negb (Terms.subset (Hello.required offer) (Hello.supported remote))
  then Refused.frame Refused.ProtocolTooOld offer remote else None.

Definition check_refusal (remote : Hello.t) : wire_result unit :=
  match as_known (Hello.refusal remote) with
  | Some Refusal.NotRefused => Ok tt
  | Some Refusal.ProtocolTooOld => Err (Refused_ Refused.ProtocolTooOld)
  | Some Refusal.PeerRejected => Err (Refused_ Refused.PeerRejected)
  | Some Refusal.ServerRetiring => Err (Refused_ Refused.Retiring)
  | None => Err (Plain (error_new ConnectionRefused "connection refused for an unknown reason"))
  end.

(** ** Endpoints *)

Inductive Endpoint := Legacy (e : bytes) | Binary (e : bytes).

Definition select_endpoint (legacy : bytes) (binary : option bytes) : io_result Endpoint :=
  if decide (legacy = []) then Err (invalid "missing legacy endpoint") else
  match binary with
  | None => Ok (Legacy legacy)
  | Some e =>
      if decide (e ≠ [] ∧ e ≠ legacy) then Ok (Binary e)
      else Err (invalid "binary endpoint must be distinct and nonempty")
  end.

(** ** Health observations *)

Section health.
Context `{Buffa}.

Definition decode_message {M} `{!Message M} (buffer : bytes) (limit : Z) : io_result M :=
  ok_or (decode_from_slice (MkOptions limit 32 128 MAX_FRAME) buffer) (error_other "decode error").

Definition health_operation (o : Z) : bool := (o =? Operation.HEALTH) || (o =? Operation.DRAIN).
Definition is_lifecycle (m : Control.t) : bool := bool_decide (Control.kind m = Known MessageKind.Lifecycle).

(** [Health::response]. *)
Definition health_response (h : Health.t) (request : Control.t) : io_result Control.t :=
  if negb (is_lifecycle request) || negb (health_operation (Control.operation request))
  then Err (invalid "not a health or drain request")
  else Ok (Control.mk (Control.operation request) (Control.request_id request) (Health.generation h)
             [] None (encode_to_vec h) (Control.kind Control.default) []).

(** [Health::from_response]. *)
Definition health_from_response (reply request : Control.t) : io_result Health.t :=
  if negb (is_lifecycle reply) || negb (health_operation (Control.operation request))
     || negb (Control.operation reply =? Control.operation request)
     || negb (Control.request_id reply =? Control.request_id request)
     || bool_decide (Control.token reply ≠ []) || bool_decide (is_Some (Control.offset reply))
  then Err (invalid "unexpected health response") else
  h ← decode_message (Control.payload reply) MAX_FRAME;
  if (Health.process_id h =? 0) || negb (Health.generation h =? Control.generation reply)
     || (Health.ready h && Health.draining h)
  then Err (invalid "invalid health observation") else Ok h.
End health.

(** ** What negotiation promises *)

Lemma u64_max_testbit i : 0 ≤ i → Z.testbit u64_max i = (i <? 64).
Proof.
  intros Hi. change u64_max with (Z.ones 64). destruct (Z.ltb_spec i 64).
  - apply Z.ones_spec_low. lia.
  - apply Z.ones_spec_high. lia.
Qed.

Lemma subset_spec a b : Terms.subset a b = true → ∀ i, 0 ≤ i < 64 → Z.testbit a i = true → Z.testbit b i = true.
Proof.
  unfold Terms.subset. intros E i Hi Ha. apply Z.eqb_eq in E.
  assert (Z.testbit (Z.land a (Z.lxor b u64_max)) i = false) as Hb by (by rewrite E, Z.testbit_0_l).
  rewrite Z.land_spec, Z.lxor_spec, u64_max_testbit, Ha in Hb by lia.
  rewrite (proj2 (Z.ltb_lt _ _)) in Hb by lia. by destruct (Z.testbit b i).
Qed.

Lemma agree_comm a b : Terms.agree a b = Terms.agree b a.
Proof.
  unfold Terms.agree. rewrite (Z.max_comm (Terms.minimum a)), (Z.min_comm (Terms.maximum a)),
    (Z.lor_comm (Terms.required a)), (Z.land_comm (Terms.supported a)), (Z.min_comm (Terms.max_frame a)).
  done.
Qed.

Lemma same_service_comm a b : same_service a b = same_service b a.
Proof. unfold same_service. apply bool_decide_ext. naive_solver. Qed.

Lemma negotiate_Ok a b x :
  negotiate a b = Ok x ↔
  validate a = Ok tt ∧ validate b = Ok tt ∧ same_service a b = true ∧
  Terms.agree (Terms.of_hello a) (Terms.of_hello b) = Ok x.
Proof.
  unfold negotiate. rewrite result_bind_Ok. split.
  - intros ([] & Ha & H). apply result_bind_Ok in H as ([] & Hb & H).
    destruct (same_service a b); [done|discriminate].
  - intros (Ha & Hb & Hs & H). exists tt. split; [done|]. rewrite result_bind_Ok. exists tt.
    rewrite Hs. done.
Qed.

Lemma negotiate_comm a b x : negotiate a b = Ok x → negotiate b a = Ok x.
Proof. rewrite !negotiate_Ok, same_service_comm, agree_comm. naive_solver. Qed.

Lemma validate_terms h : validate h = Ok tt → Terms.valid (Terms.of_hello h) = true.
Proof.
  unfold validate. case_decide; [|done]. destruct (ServiceIdentity.new _ _ _ _); [|done].
  by destruct (Terms.valid _).
Qed.

(** Both peers calculate the same agreement. If one agrees, so does the other,
    with the same result, and it is for one service, in a version both speak, with
    exactly the capabilities both support, among them every one either requires,
    and a frame limit both receive. *)
Theorem agreement_is_mutual a b x :
  negotiate a b = Ok x →
  negotiate b a = Ok x ∧ same_service a b = true ∧
  (Hello.minimum a ≤ version x ≤ Hello.maximum a ∧ Hello.minimum b ≤ version x ≤ Hello.maximum b) ∧
  (∀ i, 0 ≤ i < 64 →
     Z.testbit (capabilities x) i = Z.testbit (Hello.supported a) i && Z.testbit (Hello.supported b) i ∧
     (Z.testbit (Hello.required a) i = true ∨ Z.testbit (Hello.required b) i = true →
        Z.testbit (capabilities x) i = true)) ∧
  MIN_FRAME ≤ agreed_frame x ≤ MAX_FRAME ∧
  agreed_frame x ≤ Hello.max_frame a ∧ agreed_frame x ≤ Hello.max_frame b.
Proof.
  intros H. split; [by apply negotiate_comm|].
  apply negotiate_Ok in H as (Ha%validate_terms & Hb%validate_terms & Hs & H). split; [done|].
  unfold Terms.agree in H. destruct (_ || _) eqn:Hv in H; [done|].
  destruct (negb _) eqn:Hc in H; [done|]. injection H as <-. simpl in *.
  unfold Terms.valid in Ha, Hb. bools. simpl in *. split_and!; try lia.
  intros i Hi. split; [apply Z.land_spec|]. intros Hreq.
  eapply subset_spec; [done|done|]. rewrite Z.lor_spec. by destruct Hreq as [-> | ->]; rewrite ?orb_true_r.
Qed.

Definition kache_offer (supported required : Z) : Hello.t := new_hello Names.kache supported required.

Lemma agreement_is_mutual_witness :
  negotiate (kache_offer 63 8) (kache_offer 27 1) = Ok (MkAgreement 2 27 65536) ∧
  negotiate (kache_offer 27 1) (kache_offer 63 8) = Ok (MkAgreement 2 27 65536).
Proof.
  assert (negotiate (kache_offer 63 8) (kache_offer 27 1) = Ok (MkAgreement 2 27 65536)) as H
    by (vm_compute; reflexivity).
  split; [exact H|]. exact (proj1 (agreement_is_mutual _ _ _ H)).
Defined.
