(* ===== verification/Session.v ===== *)
(** * Framing, handshakes and sessions (src/wire.rs, src/wire/asynchronous.rs)

    A stream is the environment's: a class of blocking or asynchronous operations.
    Asynchronous ones may also be cancelled, when their caller drops the future. *)
From S2P Require Import Prelude Text SocketPath Identity Proto Wire.

(** ** Streams *)

(** [Read] and [Write]. *)
Class Stream (S : Type) : Type := {
  write_all : bytes → S → io_result unit * S;
  flush : S → io_result unit * S;
  read_exact : nat → S → io_result bytes * S;
}.

(** [u32::to_le_bytes] and [u32::from_le_bytes]. *)
Fixpoint to_le_bytes (width : nat) (n : Z) : bytes :=
  match width with O => [] | S w => byte_of (n mod 256) :: to_le_bytes w (n / 256) end.
Definition from_le_bytes (l : bytes) : Z := foldr (λ b n, byte_val b + 256 * n) 0 l.

Lemma from_to_le_bytes w n : 0 ≤ n < 256 ^ Z.of_nat w → from_le_bytes (to_le_bytes w n) = n.
Proof.
  revert n. induction w as [|w IH]; intros n Hn; simpl; [simpl in Hn; lia|].
  rewrite Nat2Z.inj_succ, Z.pow_succ_r in Hn by lia.
  pose proof (Z.mod_pos_bound n 256). pose proof (Z.div_mod n 256).
  rewrite byte_val_byte_of by lia. unfold from_le_bytes in IH. rewrite IH; [lia|].
  split; [apply Z.div_pos; lia|apply Z.div_lt_upper_bound; lia].
Qed.

Lemma length_to_le_bytes w n : length (to_le_bytes w n) = w.
Proof. revert n. induction w as [|w IH]; intros n; simpl; [done|]. by rewrite IH. Qed.

Section frames.
Context `{Buffa}.

(** [encode_frame]: the buffer with its length in front. The message is not
    encoded when its size exceeds the limit. *)
Definition encode_frame {M} `{!Message M} (m : M) (limit : Z) : io_result bytes :=
  let length := msg_size m in
  if limit <? length then Err (error_other "message too large") else
  if length =? 0 then Err (invalid "empty message")
  else Ok (to_le_bytes 4 length ++ encode_to_vec m).
End frames.

(** ** Blocking sessions *)

Module Framed.
Record t (S : Type) := mk { io : S; limit : Z; failed : bool }.
Arguments mk {S} _ _ _.
Arguments io {S} _.
Arguments limit {S} _.
Arguments failed {S} _.

Section code.
Context `{Buffa} {S : Type} `{Stream S}.

Definition new (s : S) (limit : Z) : io_result (t S) :=
  if (MIN_FRAME <=? limit) && (limit <=? MAX_FRAME) then Ok (mk s limit false)
  else Err (invalid "invalid frame limit").

Definition usable (f : t S) : io_result unit :=
  if failed f then Err (invalid "session failed; reconnect without replay") else Ok tt.

Definition send {M} `{!Message M} (m : M) (f : t S) : io_result unit * t S :=
  match usable f with
  | Err e => (Err e, f)
  | Ok _ =>
      match encode_frame m (limit f) with
      | Err e => (Err e, f)
      | Ok buffer =>
          match write_all buffer (io f) with
          | (Err e, s) => (Err e, mk s (limit f) true)
          | (Ok _, s) =>
              match flush s with
              | (Err e, s) => (Err e, mk s (limit f) true)
              | (Ok _, s) => (Ok tt, mk s (limit f) false)
              end
          end
      end
  end.

Definition receive {M} `{!Message M} (f : t S) : io_result M * t S :=
  match usable f with
  | Err e => (Err e, f)
  | Ok _ =>
      match read_exact 4 (io f) with
      | (Err e, s) => (Err e, mk s (limit f) true)
      | (Ok header, s) =>
          let length := from_le_bytes header in
          if (length =? 0) || (limit f <? length)
          then (Err (invalid "received frame exceeds negotiated bounds"), mk s (limit f) true) else
          match read_exact (Z.to_nat length) s with
          | (Err e, s) => (Err e, mk s (limit f) true)
          | (Ok buffer, s) =>
              match decode_message buffer (limit f) with
              | Err e => (Err e, mk s (limit f) true)
              | Ok value => (Ok value, mk s (limit f) false)
              end
          end
      end
  end.
End code.
End Framed.

Module Session.
Record t (S : Type) := mk { frames : Framed.t S; agreement : Agreement }.
Arguments mk {S} _ _.
Arguments frames {S} _.
Arguments agreement {S} _.

Section code.
Context `{Buffa} {S : Type} `{Stream S}.

Definition read_acceptance (s : S) : io_result unit * S :=
  match read_exact 1 s with
  | (Err e, s) => (Err e, s)
  | (Ok accepted, s) =>
      (if decide (accepted = [x01]) then Ok tt else Err (invalid "peer did not accept negotiation"), s)
  end.

(** [write_all(&[1])] and [flush]. *)
Definition write_acceptance (s : S) : io_result unit * S :=
  match write_all [x01] s with
  | (Err e, s) => (Err e, s)
  | (Ok _, s) => flush s
  end.

(** The result, and the stream as it was left: it is dropped after an error. *)
Definition connect (s : S) (offer : Hello.t) : wire_result (t S) * S :=
  match validate offer with
  | Err e => (Err (Plain e), s)
  | Ok _ =>
      match write_all MAGIC s with
      | (Err e, s) => (Err (Plain e), s)
      | (Ok _, s) =>
          match Framed.new s HELLO_LIMIT with
          | Err e => (Err (Plain e), s)
          | Ok f =>
              match Framed.send offer f with
              | (Err e, f) => (Err (Plain e), Framed.io f)
              | (Ok _, f) =>
                  match Framed.receive f with
                  | (Err e, f) => (Err (Plain e), Framed.io f)
                  | (Ok remote, f) =>
                      match check_refusal remote, negotiate offer remote with
                      | Err e, _ => (Err e, Framed.io f)
                      | Ok _, Err e => (Err (Plain e), Framed.io f)
                      | Ok _, Ok a =>
                          match write_acceptance (Framed.io f) with
                          | (Err e, s) => (Err (Plain e), s)
                          | (Ok _, s) =>
                              match read_acceptance s with
                              | (Err e, s) => (Err (Plain e), s)
                              | (Ok _, s) => (Ok (mk (Framed.mk s (agreed_frame a) (Framed.failed f)) a), s)
                              end
                          end
                      end
                  end
              end
          end
      end
  end.

Definition offered (s : S) : io_result (Framed.t S * Hello.t) * S :=
  match read_exact 8 s with
  | (Err e, s) => (Err e, s)
  | (Ok magic, s) =>
      if decide (magic ≠ MAGIC) then (Err (invalid "wrong binary protocol magic"), s) else
      match Framed.new s HELLO_LIMIT with
      | Err e => (Err e, s)
      | Ok f =>
          match Framed.receive f with
          | (Err e, f) => (Err e, Framed.io f)
          | (Ok remote, f) => (Ok (f, remote), Framed.io f)
          end
      end
  end.

Definition accept (s : S) (offer : Hello.t) : io_result (t S) * S :=
  match validate offer with
  | Err e => (Err e, s)
  | Ok _ =>
      match offered s with
      | (Err e, s) => (Err e, s)
      | (Ok (f, remote), _) =>
          match negotiate offer remote with
          | Err e =>
              match rejection offer remote with
              | Some refusal => (Err e, Framed.io (Framed.send refusal f).2)
              | None => (Err e, Framed.io f)
              end
          | Ok a =>
              match Framed.send offer f with
              | (Err e, f) => (Err e, Framed.io f)
              | (Ok _, f) =>
                  match read_acceptance (Framed.io f) with
                  | (Err e, s) => (Err e, s)
                  | (Ok _, s) =>
                      match write_acceptance s with
                      | (Err e, s) => (Err e, s)
                      | (Ok _, s) => (Ok (mk (Framed.mk s (agreed_frame a) (Framed.failed f)) a), s)
                      end
                  end
              end
          end
      end
  end.

Definition refuse (s : S) (offer : Hello.t) (reason : Refused.t) : io_result unit * S :=
  match offered s with
  | (Err e, s) => (Err e, s)
  | (Ok (f, remote), _) =>
      match Refused.frame reason offer remote with
      | Some refusal => let '(r, f) := Framed.send refusal f in (r, Framed.io f)
      | None => (Ok tt, Framed.io f)
      end
  end.

Definition check (m : Control.t) (a : Agreement) : io_result unit :=
  c ← required_capability m;
  if Z.land c (capabilities a) =? 0 then Err (invalid "operation capability was not negotiated") else Ok tt.

Definition send (m : Control.t) (s : t S) : io_result unit * t S :=
  match check m (agreement s) with
  | Err e => (Err e, s)
  | Ok _ => let '(r, f) := Framed.send m (frames s) in (r, mk f (agreement s))
  end.

Definition receive (s : t S) : io_result Control.t * t S :=
  match Framed.receive (frames s) with
  | (Err e, f) => (Err e, mk f (agreement s))
  | (Ok m, f) =>
      match check m (agreement s) with
      | Err e => (Err e, mk (Framed.mk (Framed.io f) (Framed.limit f) true) (agreement s))
      | Ok _ => (Ok m, mk f (agreement s))
      end
  end.
End code.
End Session.

(** ** A reliable transport

    One end of an in-memory connection: what the peer sent and is still to be
    read, and what was written so far. Reading past the end fails. *)
Record Pipe := MkPipe { input : bytes; output : bytes }.

#[global] Instance pipe_stream : Stream Pipe := {
  write_all l s := (Ok tt, MkPipe (input s) (output s ++ l));
  flush s := (Ok tt, s);
  read_exact n s :=
    if decide (n ≤ length (input s))%nat
    then (Ok (take n (input s)), MkPipe (drop n (input s)) (output s))
    else (Err (error_of_kind UnexpectedEof), MkPipe [] (output s));
}.

Lemma pipe_read (l rest out : bytes) n :
  length l = n → read_exact n (MkPipe (l ++ rest) out) = (Ok l, MkPipe rest out).
Proof.
  intros Hn. simpl. rewrite decide_True by (rewrite length_app; lia).
  by rewrite take_app_length', drop_app_length' by done.
Qed.

(** ** Frames *)

Section frame_proofs.
Context `{BuffaLaws}.

(** A message that fits the limit. *)
Definition fits {M} `{!Message M} (limit : Z) (m : M) : Prop :=
  msg_valid m ∧ 0 < msg_size m ≤ limit ∧ limit ≤ MAX_FRAME ∧ Z.of_nat (length (msg_write m)) ≤ 128.

Definition frame {M} `{!Message M} (m : M) : bytes := to_le_bytes 4 (msg_size m) ++ encode_to_vec m.

Lemma encode_frame_fits {M} `{!Message M} limit (m : M) : fits limit m → encode_frame m limit = Ok (frame m).
Proof.
  intros (_ & Hs & _). unfold encode_frame.
  rewrite (proj2 (Z.ltb_ge _ _)) by lia. by rewrite (proj2 (Z.eqb_neq _ _)) by lia.
Qed.

Lemma fits_length {M} `{!Message M, !MessageLaws M} limit (m : M) :
  fits limit m → Z.of_nat (length (encode_to_vec m)) = msg_size m.
Proof.
  intros (Hv & Hs & Hl & _). pose proof (size_write m Hv) as E. unfold saturate_size, size_of in E.
  unfold encode_to_vec. unfold MAX_FRAME, u32_max in *. lia.
Qed.

Lemma fits_decode {M} `{!Message M, !MessageLaws M} limit (m : M) :
  fits limit m → decode_message (encode_to_vec m) limit = Ok m.
Proof.
  intros Hf. pose proof (fits_length limit m Hf) as Hlen. destruct Hf as (Hv & Hs & Hl & Hn).
  destruct (message_round_trips (MkOptions limit 32 128 MAX_FRAME) m) as [E _]; [done| |].
  - unfold within; simpl. lia.
  - unfold decode_message. by rewrite E.
Qed.

Lemma pipe_send {M} `{!Message M, !MessageLaws M} limit (m : M) inp out :
  fits limit m →
  Framed.send m (Framed.mk (MkPipe inp out) limit false)
    = (Ok tt, Framed.mk (MkPipe inp (out ++ frame m)) limit false).
Proof. intros Hf. unfold Framed.send. simpl. by rewrite encode_frame_fits. Qed.

Lemma pipe_receive {M} `{!Message M, !MessageLaws M} limit (m : M) rest out :
  fits limit m →
  Framed.receive (Framed.mk (MkPipe (frame m ++ rest) out) limit false)
    = (Ok m, Framed.mk (MkPipe rest out) limit false).
Proof.
  intros Hf. pose proof (fits_length limit m Hf) as Hlen. pose proof (fits_decode limit m Hf) as Hdec.
  destruct Hf as (_ & Hs & Hl & _). unfold Framed.receive, frame. cbn [Framed.usable Framed.failed Framed.io Framed.limit].
  rewrite <- app_assoc, pipe_read by (by rewrite length_to_le_bytes).
  rewrite from_to_le_bytes by (change (256 ^ Z.of_nat 4) with (2 ^ 32); unfold MAX_FRAME in *; lia).
  rewrite (proj2 (Z.eqb_neq _ _)) by lia. rewrite (proj2 (Z.ltb_ge _ _)) by lia. simpl orb. cbv iota.
  rewrite pipe_read by lia. by rewrite Hdec.
Qed.
End frame_proofs.

(** ** Poisoned sessions *)

(** An error is final. On any stream, a frame codec that has failed sends
    nothing and reads nothing more; a receive that fails, also for a message the
    session did not negotiate, makes it fail; and so does a send that fails after
    it may have written a byte. *)
Theorem an_error_poisons `{Buffa} {S} `{Stream S} (s : Session.t S) m :
  let f := Session.frames s in
  (Framed.failed f = true →
     (is_ok (Session.send m s).1 = false ∧ (Session.send m s).2 = s) ∧
     (is_ok (Session.receive s).1 = false ∧ (Session.receive s).2 = s)) ∧
  (is_ok (Session.receive s).1 = false → Framed.failed (Session.frames (Session.receive s).2) = true) ∧
  (is_ok (Session.send m s).1 = false →
     (Session.send m s).2 = s ∨ Framed.failed (Session.frames (Session.send m s).2) = true).
Proof.
  destruct s as [[io limit failed] a]. simpl. split_and!.
  - intros ->. unfold Session.send, Session.receive, Framed.send, Framed.receive. simpl.
    split; [|done]. by destruct (Session.check m a).
  - unfold Session.receive. destruct (Framed.receive _) as [[m'|e] f] eqn:E.
    + cbn [Session.agreement]. by destruct (Session.check m' a).
    + intros _. simpl. revert E. unfold Framed.receive, Framed.usable. simpl.
      destruct failed; [by intros [= _ <-]|]. repeat case_match; intros; by simplify_eq.
  - unfold Session.send. cbn [Session.agreement]. destruct (Session.check m a); [|by left]. simpl.
    destruct (Framed.send m _) as [[[]|e] f] eqn:E; [done|]. intros _. simpl. revert E.
    unfold Framed.send, Framed.usable. simpl.
    destruct failed; [by intros [= _ <-]; left|]. repeat case_match; intros; simplify_eq; by auto.
Qed.

(** ** Handshakes over a reliable transport *)

Section handshake.
Context `{BuffaLaws}.

(** An offer that can be sent before a limit is negotiated. *)
Definition sendable (h : Hello.t) : Prop := fits HELLO_LIMIT h.

Lemma hello_framed (s : Pipe) : Framed.new s HELLO_LIMIT = Ok (Framed.mk s HELLO_LIMIT false).
Proof. done. Qed.

Lemma connect_on_pipe a b rest :
  sendable a → sendable b → validate a = Ok tt →
  Session.connect (MkPipe (frame b ++ rest) []) a =
  match check_refusal b, negotiate a b with
  | Err e, _ => (Err e, MkPipe rest (MAGIC ++ frame a))
  | Ok _, Err e => (Err (Plain e), MkPipe rest (MAGIC ++ frame a))
  | Ok _, Ok x =>
      match Session.read_acceptance (MkPipe rest (MAGIC ++ frame a ++ [x01])) with
      | (Err e, s) => (Err (Plain e), s)
      | (Ok _, s) => (Ok (Session.mk (Framed.mk s (agreed_frame x) false) x), s)
      end
  end.
Proof.
  intros Ha Hb Hv. unfold Session.connect. rewrite Hv.
  change (write_all MAGIC (MkPipe (frame b ++ rest) [])) with (@Ok io_error _ tt, MkPipe (frame b ++ rest) MAGIC).
  cbv iota beta. rewrite hello_framed, pipe_send by done. cbv iota beta. rewrite pipe_receive by done.
  destruct (check_refusal b); [|done]. destruct (negotiate a b); [|done].
  unfold Session.write_acceptance. cbn [Framed.io Framed.failed write_all flush pipe_stream input output].
  by rewrite <- app_assoc.
Qed.

Lemma offered_on_pipe a rest :
  sendable a →
  Session.offered (MkPipe (MAGIC ++ frame a ++ rest) []) =
  (Ok (Framed.mk (MkPipe rest []) HELLO_LIMIT false, a), MkPipe rest []).
Proof.
  intros Ha. unfold Session.offered. rewrite pipe_read by done. rewrite decide_False by auto.
  rewrite hello_framed. cbv iota beta. by rewrite pipe_receive.
Qed.

Lemma accept_on_pipe a b rest :
  sendable a → sendable b → validate b = Ok tt →
  Session.accept (MkPipe (MAGIC ++ frame a ++ rest) []) b =
  match negotiate b a with
  | Err e =>
      (Err e, match rejection b a with
              | Some refusal => Framed.io (Framed.send refusal (Framed.mk (MkPipe rest []) HELLO_LIMIT false)).2
              | None => MkPipe rest [] end)
  | Ok x =>
      match Session.read_acceptance (MkPipe rest (frame b)) with
      | (Err e, s) => (Err e, s)
      | (Ok _, s) => (Ok (Session.mk (Framed.mk (MkPipe (input s) (output s ++ [x01])) (agreed_frame x) false) x),
                      MkPipe (input s) (output s ++ [x01]))
      end
  end.
Proof.
  intros Ha Hb Hv. unfold Session.accept. rewrite Hv, offered_on_pipe by done. cbv iota beta.
  destruct (negotiate b a); [|by destruct (rejection b a)]. rewrite pipe_send by done. simpl.
  by destruct (Session.read_acceptance _) as [[]].
Qed.

Lemma acceptance_read rest out : Session.read_acceptance (MkPipe (x01 :: rest) out) = (Ok tt, MkPipe rest out).
Proof. done. Qed.

(** What the two ends are told, and have sent, when they agree on [x]. *)
Definition session_of (x : Agreement) (s : Pipe) : Session.t Pipe :=
  Session.mk (Framed.mk s (agreed_frame x) false) x.

Lemma handshake_agrees a b x :
  sendable a → sendable b → check_refusal b = Ok tt → negotiate a b = Ok x →
  let client_sends := MAGIC ++ frame a ++ [x01] in
  let server_sends := frame b ++ [x01] in
  Session.connect (MkPipe server_sends []) a =
    (Ok (session_of x (MkPipe [] client_sends)), MkPipe [] client_sends) ∧
  Session.accept (MkPipe client_sends []) b =
    (Ok (session_of x (MkPipe [] server_sends)), MkPipe [] server_sends).
Proof.
  intros Ha Hb Hr Hx. pose proof (negotiate_comm _ _ _ Hx) as Hx'.
  destruct (proj1 (negotiate_Ok _ _ _) Hx) as (Hva & Hvb & _). split.
  - rewrite connect_on_pipe by done. rewrite Hr, Hx. by rewrite acceptance_read.
  - rewrite accept_on_pipe by done. rewrite Hx'. by rewrite acceptance_read.
Qed.

Lemma handshake_refused a b e :
  sendable a → sendable b → validate a = Ok tt → validate b = Ok tt → negotiate a b = Err e →
  is_ok (Session.connect (MkPipe (frame b) []) a).1 = false ∧
  is_ok (Session.accept (MkPipe (MAGIC ++ frame a) []) b).1 = false.
Proof.
  intros Ha Hb Hva Hvb He. split.
  - rewrite <- (app_nil_r (frame b)), connect_on_pipe by done. rewrite He. by destruct (check_refusal b).
  - rewrite <- (app_nil_r (frame a)), accept_on_pipe by done.
    destruct (negotiate b a) eqn:E; [|done]. apply negotiate_comm in E. congruence.
Qed.
End handshake.

(** C29: two peers with compatible offers complete the handshake, each from what
    the other sends, with the agreement both calculate; two with incompatible
    offers both fail, whatever the other would have sent next. *)
Theorem handshake_is_mutual `{BuffaLaws} a b :
  sendable a → sendable b → check_refusal b = Ok tt → validate a = Ok tt → validate b = Ok tt →
  match negotiate a b with
  | Ok x =>
      Session.connect (MkPipe (frame b ++ [x01]) []) a =
        (Ok (session_of x (MkPipe [] (MAGIC ++ frame a ++ [x01]))), MkPipe [] (MAGIC ++ frame a ++ [x01])) ∧
      Session.accept (MkPipe (MAGIC ++ frame a ++ [x01]) []) b =
        (Ok (session_of x (MkPipe [] (frame b ++ [x01]))), MkPipe [] (frame b ++ [x01]))
  | Err _ =>
      is_ok (Session.connect (MkPipe (frame b) []) a).1 = false ∧
      is_ok (Session.accept (MkPipe (MAGIC ++ frame a) []) b).1 = false
  end.
Proof.
  intros Ha Hb Hr Hva Hvb. destruct (negotiate a b) as [x|e] eqn:E.
  - by apply handshake_agrees.
  - by eapply handshake_refused.
Qed.

(** The offer of a service, over the Protocol Buffers encoding. *)
Definition example_hello : Hello.t := kache_offer 63 8.

Lemma example_sendable : sendable (H := Wireformat.protobuf) example_hello.
Proof.
  unfold sendable, fits. split_and!; [|vm_compute; reflexivity|vm_compute; discriminate..].
  simpl. unfold Hello.valid, valid_string, valid_bytes, valid_enum, is_u32, is_u64, u32_max, u64_max, is_i32.
  split_and!; try done; vm_compute; discriminate.
Qed.

Lemma handshake_is_mutual_witness :
  Session.connect (H := Wireformat.protobuf)
    (MkPipe (frame (H := Wireformat.protobuf) example_hello ++ [x01]) []) example_hello =
  let sent := MAGIC ++ frame (H := Wireformat.protobuf) example_hello ++ [x01] in
  (Ok (session_of (MkAgreement 2 63 65536) (MkPipe [] sent)), MkPipe [] sent).
Proof.
  pose proof (handshake_is_mutual (H := Wireformat.protobuf) example_hello example_hello
    example_sendable example_sendable ltac:(reflexivity) ltac:(vm_compute; reflexivity)
    ltac:(vm_compute; reflexivity)) as Hh.
  assert (negotiate example_hello example_hello = Ok (MkAgreement 2 63 65536)) as E by (vm_compute; reflexivity).
  rewrite E in Hh. exact (proj1 Hh).
Defined.

(** ** Operations of an established session *)

Section delivery.
Context `{BuffaLaws}.

(** Send, and receive, one message after the other. *)
Fixpoint send_each {S} `{Stream S} (ms : list Control.t) (s : Session.t S) : io_result unit * Session.t S :=
  match ms with
  | [] => (Ok tt, s)
  | m :: ms => match Session.send m s with (Ok _, s) => send_each ms s | (Err e, s) => (Err e, s) end
  end.

Fixpoint receive_each {S} `{Stream S} (n : nat) (s : Session.t S) : io_result (list Control.t) * Session.t S :=
  match n with
  | O => (Ok [], s)
  | Datatypes.S n =>
      match Session.receive s with
      | (Err e, s) => (Err e, s)
      | (Ok m, s) =>
          match receive_each n s with (Ok ms, s) => (Ok (m :: ms), s) | (Err e, s) => (Err e, s) end
      end
  end.

(** A message the agreement allows. *)
Definition allowed (x : Agreement) (m : Control.t) : Prop :=
  fits (agreed_frame x) m ∧ Session.check m x = Ok tt.

Lemma send_allowed x m inp out :
  allowed x m → Session.send m (session_of x (MkPipe inp out)) =
    (Ok tt, session_of x (MkPipe inp (out ++ frame m))).
Proof.
  intros [Hf Hc]. unfold Session.send. cbn [session_of Session.agreement Session.frames]. rewrite Hc.
  by rewrite pipe_send.
Qed.

Lemma receive_allowed x m rest out :
  allowed x m → Session.receive (session_of x (MkPipe (frame m ++ rest) out)) =
    (Ok m, session_of x (MkPipe rest out)).
Proof.
  intros [Hf Hc]. unfold Session.receive. cbn [session_of Session.agreement Session.frames].
  rewrite pipe_receive by done. by rewrite Hc.
Qed.

Lemma send_each_allowed x ms inp out :
  Forall (allowed x) ms → send_each ms (session_of x (MkPipe inp out)) =
    (Ok tt, session_of x (MkPipe inp (out ++ concat (frame <$> ms)))).
Proof.
  intros Hms. revert out. induction Hms as [|m ms Hm _ IH]; intros out; simpl; [by rewrite app_nil_r|].
  rewrite send_allowed, IH by done. by rewrite <- app_assoc.
Qed.

Lemma receive_each_allowed x ms rest out :
  Forall (allowed x) ms →
  receive_each (length ms) (session_of x (MkPipe (concat (frame <$> ms) ++ rest) out)) =
    (Ok ms, session_of x (MkPipe rest out)).
Proof.
  intros Hms. induction Hms as [|m ms Hm _ IH]; [done|].
  cbn [length receive_each fmap list_fmap concat]. rewrite <- app_assoc, receive_allowed by done.
  cbv iota beta. rewrite IH. done.
Qed.
End delivery.

(** C32: an established session delivers. Messages the agreement allows, sent one
    after the other, are received at the other end, which has the same agreement,
    each as it was sent and in order, and no byte beyond them is read. *)
Theorem session_delivers `{BuffaLaws} x ms inp out rest out' :
  Forall (allowed x) ms →
  ∃ sent, send_each ms (session_of x (MkPipe inp out)) = (Ok tt, session_of x (MkPipe inp (out ++ sent))) ∧
  receive_each (length ms) (session_of x (MkPipe (sent ++ rest) out')) = (Ok ms, session_of x (MkPipe rest out')).
Proof.
  intros Hms. exists (concat (frame <$> ms)).
  split; [by apply send_each_allowed|by apply receive_each_allowed].
Qed.

Definition example_control : Control.t :=
  Control.with_payload (bs "ping") (Control.with_operation 7 (Control.with_kind (Known MessageKind.Application) Control.default)).

Lemma session_delivers_witness :
  ∃ sent, send_each (H := Wireformat.protobuf) [example_control; example_control]
            (session_of (MkAgreement 2 8 256) (MkPipe [] [])) =
          (Ok tt, session_of (MkAgreement 2 8 256) (MkPipe [] sent)).
Proof.
  destruct (session_delivers (H := Wireformat.protobuf) (MkAgreement 2 8 256)
    [example_control; example_control] [] [] [] []) as (sent & E & _); [|exists sent; exact E].
  assert (allowed (H := Wireformat.protobuf) (MkAgreement 2 8 256) example_control).
  { split; [|vm_compute; reflexivity].
    unfold fits. split_and!; [|vm_compute; reflexivity|vm_compute; discriminate..].
    simpl. unfold Control.valid, valid_bytes, valid_option, valid_enum, is_u32, is_u64, u32_max, u64_max, is_i32.
    split_and!; try done; vm_compute; discriminate. }
  constructor; [assumption|]. constructor; [assumption|constructor].
Defined.

(** ** Refusals *)

Section refusals.
Context `{BuffaLaws}.

Definition refusal_hello (r : Refused.t) : Hello.t :=
  Hello.with_refusal (Known (Refused.reason r)) Hello.default.

Lemma refusal_sendable r : sendable (refusal_hello r).
Proof.
  assert (is_i32 (Refusal.to_i32 (Refused.reason r))) as Hi by (destruct r; by unfold is_i32).
  pose proof (int32_len_range _ Hi) as Hlen. pose proof (unknown_len_law [] ltac:(done)) as Hu.
  assert (Refusal.to_i32 (Refused.reason r) ≠ 0) as Hne by (by destruct r).
  unfold sendable, fits. split_and!; [| | |done|]; simpl.
  - unfold Hello.valid. simpl. split_and!; try done. split; [done|]. by destruct r.
  - unfold Hello.compute_size, saturate_size, size_nonzero, HELLO_LIMIT, u32_max. simpl.
    rewrite (proj2 (Z.eqb_neq _ _)) by done. rewrite Hu. simpl. lia.
  - unfold Hello.compute_size, saturate_size, size_nonzero, HELLO_LIMIT, u32_max. simpl.
    rewrite (proj2 (Z.eqb_neq _ _)) by done. rewrite Hu. simpl. lia.
  - simpl. unfold Hello.write_to, put_nonzero. simpl. by destruct r.
Qed.
End refusals.

(** A refusal reaches the client that can read it, and only that one. A server
    that refuses a well-formed offer answers nothing to a client that does not
    read refusals or names another service, which then sees only the close; to any
    other it sends one frame, and the client's handshake fails with exactly the
    server's reason. *)
Theorem refusal_is_reported `{BuffaLaws} a b r :
  sendable a → validate a = Ok tt →
  ∃ sent, Session.refuse (MkPipe (MAGIC ++ frame a) []) b r = (Ok tt, MkPipe [] sent) ∧
  if Hello.reads_refusal a && same_service b a
  then (Session.connect (MkPipe sent []) a).1 = Err (Refused_ r)
  else sent = [] ∧ (Session.connect (MkPipe sent []) a).1 = Err (Plain (error_of_kind UnexpectedEof)).
Proof.
  intros Ha Hv. unfold Session.refuse. rewrite <- (app_nil_r (frame a)), offered_on_pipe by done.
  unfold Refused.frame. rewrite Hv. simpl is_ok. rewrite andb_true_r.
  destruct (Hello.reads_refusal a && same_service b a).
  - fold (refusal_hello r). rewrite pipe_send by apply refusal_sendable. eexists. split; [done|]. simpl app.
    rewrite <- (app_nil_r (frame _)), connect_on_pipe by (done || apply refusal_sendable).
    by destruct r.
  - exists []. split; [done|]. split; [done|]. unfold Session.connect. rewrite Hv.
    change (write_all MAGIC (MkPipe [] [])) with (@Ok io_error _ tt, MkPipe [] MAGIC).
    cbv iota beta. rewrite hello_framed, pipe_send by done. done.
Qed.

Lemma refusal_is_reported_witness :
  ∃ sent, Session.refuse (H := Wireformat.protobuf)
    (MkPipe (MAGIC ++ frame (H := Wireformat.protobuf) example_hello) []) example_hello Refused.Retiring
    = (Ok tt, MkPipe [] sent) ∧
  (Session.connect (H := Wireformat.protobuf) (MkPipe sent []) example_hello).1 = Err (Refused_ Refused.Retiring).
Proof.
  exact (refusal_is_reported (H := Wireformat.protobuf) example_hello example_hello Refused.Retiring
    example_sendable ltac:(vm_compute; reflexivity)).
Defined.
