(* ===== verification/Shutdown.v ===== *)
(** * Being asked to stop (src/local/unix.rs, src/local/windows.rs)

    [shutdown_signal] listens to the signals or console events that ask the process to
    stop; its future completes on the first. A listener of the runtime remembers that
    its event arrived until it is asked. On Windows [SESSION_END] says that the session
    ends. *)
From stdpp Require Import list.
From S2P Require Import Prelude.

(** SIGTERM and SIGINT, or Ctrl+C; and the console events. *)
Inductive request := Terminate | Interrupt | CloseEvent | LogoffEvent | ShutdownEvent.

#[export] Instance request_eq_dec : EqDecision request.
Proof. solve_decision. Defined.

(** A listener, and whether its event arrived since it was made. *)
Record listener := Listener { of_ : request; arrived : bool }.

(** The future: its listeners, or what it completed on; and whether it will be polled
    again unasked. [session_end] is the process's [SESSION_END]. *)
Inductive future := Pending (l : list listener) | Completed (r : request) | Dropped.
Record process := Process { signal : future; session_end : bool; woken : bool }.

(** ** [shutdown_signal] *)

(** [create] is a listener's creation. The listeners before one that fails are dropped. *)
Fixpoint listen {W} (create : request → W → io_result unit * W) (l : list request) (w : W)
    : io_result (list listener) * W :=
  match l with
  | [] => (Ok [], w)
  | r :: l =>
      match create r w with
      | (Err e, w) => (Err e, w)
      | (Ok _, w) => let '(rest, w) := listen create l w in ((λ rest, Listener r false :: rest) <$> rest, w)
      end
  end.

Definition unix_requests : list request := [Terminate; Interrupt].
Definition windows_requests : list request := [Interrupt; CloseEvent; LogoffEvent; ShutdownEvent].

(** The events of [SetConsoleCtrlHandler]. *)
Definition CTRL_CLOSE_EVENT : Z := 2.
Definition CTRL_LOGOFF_EVENT : Z := 5.
Definition CTRL_SHUTDOWN_EVENT : Z := 6.

(** [session_end_handler]: what [SESSION_END] becomes, and what the handler returns. *)
Definition session_end_handler (event : Z) (session_end : bool) : bool * Z :=
  if existsb (Z.eqb event) [CTRL_CLOSE_EVENT; CTRL_LOGOFF_EVENT; CTRL_SHUTDOWN_EVENT] then (true, 1) else (session_end, 0).

(** A branch of the [select!]: Ctrl+C returns before the store. Unix stores nothing. *)
Definition ends_session (windows : bool) (r : request) : bool :=
  windows && negb (bool_decide (r = Interrupt)).

(** Something asks, the future is polled, or it is dropped. A poll takes the branches
    in the order of [order], which [select!] draws at random. *)
Inductive event := Asks (r : request) | Poll (order : list request) | Drop.

Definition hears (r : request) (x : listener) : listener := Listener (of_ x) (arrived x || bool_decide (of_ x = r)).

(** The first branch of [order] that is ready. *)
Definition ready (order : list request) (l : list listener) : option request :=
  head (filter (λ r, existsb (λ x, bool_decide (of_ x = r) && arrived x) l = true) order).

Definition step (windows : bool) (e : event) (p : process) : process :=
  match e, signal p with
  | Asks r, Pending l =>
      Process (Pending (hears r <$> l)) (session_end p) (woken p || existsb (λ x, bool_decide (of_ x = r)) l)
  | Poll order, Pending l =>
      match ready order l with
      | Some r => Process (Completed r) (session_end p || ends_session windows r) false
      | None => Process (Pending l) (session_end p) false
      end
  | Drop, _ => Process Dropped (session_end p) false
  | _, _ => p
  end.

Definition run (windows : bool) (es : list event) (p : process) : process := foldl (λ p e, step windows e p) p es.

(** ** No request is lost *)

(** What was asked of a future that is listening. *)
Definition asked (es : list event) : list request := omap (λ e, match e with Asks r => Some r | _ => None end) es.

Lemma listen_listens {W} (create : request → W → io_result unit * W) l w ls w' :
  listen create l w = (Ok ls, w') → ls = (λ r, Listener r false) <$> l.
Proof.
  revert w ls w'. induction l as [|r l IH]; intros w ls w'; simpl; [by intros [= <- _]|].
  destruct (create r w) as [[[]|e] w1]; [|done]. destruct (listen create l w1) as [[rest|e] w2] eqn:E; [|done].
  intros [= <- _]. simpl. f_equal. by eapply IH.
Qed.

(** The listeners while the future is pending, after what was asked. *)
Definition heard (l rs : list request) : list listener := (λ r, Listener r (bool_decide (r ∈ rs))) <$> l.

Lemma heard_hears l rs r : hears r <$> heard l rs = heard l (rs ++ [r]).
Proof.
  unfold heard. rewrite <- list_fmap_compose. apply list_fmap_ext. intros _ x _. unfold hears. simpl. f_equal.
  rewrite <- bool_decide_or. apply bool_decide_ext. by rewrite elem_of_app, list_elem_of_singleton.
Qed.

Lemma ready_heard order l rs :
  ready order (heard l rs) = head (filter (λ r, r ∈ l ∧ r ∈ rs) order).
Proof.
  unfold ready. f_equal. apply list_filter_iff. intros r. unfold heard. rewrite existsb_exists. split.
  - intros (x & Hx & Hr). apply list_elem_of_In, list_elem_of_fmap in Hx as (y & -> & Hy). simpl in Hr.
    apply andb_true_iff in Hr as [H1%bool_decide_eq_true H2%bool_decide_eq_true]. by subst y.
  - intros [Hl Hrs]. exists (Listener r (bool_decide (r ∈ rs))). split.
    + apply list_elem_of_In, list_elem_of_fmap. eauto.
    + simpl. by rewrite !bool_decide_true.
Qed.

(** How a future that listens to [l] stands after what was asked and polled. *)
Definition stands (windows : bool) (l : list request) (ended : bool) (es : list event) (p : process) : Prop :=
  match signal p with
  | Pending ls =>
      ls = heard l (asked es) ∧ session_end p = ended ∧ (Drop ∉ es) ∧ ((∃ r, r ∈ l ∧ r ∈ asked es) → woken p = true)
  | Completed r => r ∈ l ∧ r ∈ asked es ∧ session_end p = (ended || ends_session windows r)
  | Dropped =>
      Drop ∈ es ∧ (session_end p = ended ∨ ∃ r, r ∈ l ∧ r ∈ asked es ∧ session_end p = (ended || ends_session windows r))
  end.

Lemma asked_snoc es e : asked (es ++ [e]) = asked es ++ match e with Asks r => [r] | _ => [] end.
Proof. unfold asked. rewrite omap_app. by destruct e. Qed.

Lemma stands_step windows l ended es e p :
  (∀ order, e = Poll order → order ≡ₚ l) → stands windows l ended es p →
  stands windows l ended (es ++ [e]) (step windows e p).
Proof.
  intros Ho Hs. unfold stands in *. rewrite asked_snoc. destruct (signal p) as [ls|r|] eqn:Hp.
  - destruct Hs as (-> & He & Hd & Hw). destruct e as [r|order|]; unfold step; rewrite ?Hp.
    + simpl. rewrite heard_hears. split_and!; [done|done|set_solver|]. intros (x & Hx & Hr). apply orb_true_iff.
      apply elem_of_app in Hr as [Hr| ->%list_elem_of_singleton]; [left; eauto|right].
      apply existsb_exists. exists (Listener r (bool_decide (r ∈ asked es))). split; [|by apply bool_decide_eq_true].
      apply list_elem_of_In, list_elem_of_fmap. eauto.
    + rewrite ready_heard, app_nil_r. destruct (filter _ order) as [|r rs] eqn:Ef; simpl.
      * split_and!; [done|done|set_solver|]. intros (r & Hl & Hr). exfalso.
        assert (r ∈ filter (λ r, r ∈ l ∧ r ∈ asked es) order) as Hin by (apply list_elem_of_filter; by rewrite (Ho order eq_refl)).
        rewrite Ef in Hin. by apply not_elem_of_nil in Hin.
      * assert (r ∈ filter (λ r, r ∈ l ∧ r ∈ asked es) order) as Hin by (rewrite Ef; by left).
        apply list_elem_of_filter in Hin as [[Hl Hr] _]. by rewrite He.
    + simpl. split; [set_solver|by left].
  - destruct Hs as (Hl & Hr & He). destruct e; unfold step; rewrite ?Hp; simpl; rewrite ?Hp, ?app_nil_r;
      [split_and!; set_solver|done|]. split; [set_solver|]. right. eauto.
  - destruct Hs as [Hd He]. assert (Drop ∈ es ++ [e]) as Hd' by set_solver.
    assert (session_end (step windows e p) = session_end p ∧ signal (step windows e p) = Dropped) as [Hse Hsi]
      by (destruct e; unfold step; by rewrite ?Hp). rewrite Hsi, Hse. split; [done|].
    destruct He as [He|(r & Hl & Hr & He)]; [by left|right]. exists r. split; [done|].
    split; [|done]. apply elem_of_app. by left.
Qed.

Definition listening (l : list request) (ended : bool) : process := Process (Pending (heard l [])) ended true.

Lemma run_stands windows l ended es :
  Forall (λ e, ∀ order, e = Poll order → order ≡ₚ l) es → stands windows l ended es (run windows es (listening l ended)).
Proof.
  induction es as [|e es IH] using rev_ind; intros Hf.
  - unfold stands. simpl. split_and!; [done|done|set_solver|done].
  - apply Forall_app in Hf as [Hf He]. apply Forall_cons in He as [He _]. unfold run. rewrite foldl_app. simpl.
    apply stands_step; [done|]. by apply IH.
Qed.

Lemma listening_listens {W} (create : request → W → io_result unit * W) l w ls w' ended :
  listen create l w = (Ok ls, w') → Process (Pending ls) ended true = listening l ended.
Proof.
  intros ->%listen_listens. unfold listening, heard. by do 2 f_equal.
Qed.

(** A request to stop is not lost. Once [shutdown_signal] has returned, whatever is
    asked before or after the future is first polled: while it is pending it remembers
    every request and will be polled if there is one; a poll completes it if any of its
    events has arrived and not otherwise, whichever branch is tried first; it completes
    only on a request that was made. On Windows, completing on the console's closing, a
    logoff or a shutdown sets [SESSION_END]; Ctrl+C, Unix signals and a future that is
    dropped never do. *)
Theorem requests_to_stop_are_not_lost (windows : bool) (es : list event) (order : list request) (ended : bool) {W}
    (create : request → W → io_result unit * W) (w w' : W) (ls : list listener) :
  let l := if windows then windows_requests else unix_requests in
  listen create l w = (Ok ls, w') →
  Forall (λ e, ∀ order, e = Poll order → order ≡ₚ l) (es ++ [Poll order]) →
  let p := run windows es (Process (Pending ls) ended true) in
  match signal p with
  | Pending _ =>
      session_end p = ended ∧ ((∃ r, r ∈ l ∧ r ∈ asked es) → woken p = true) ∧
      ((∃ r, r ∈ l ∧ r ∈ asked es) →
       ∃ r, signal (step windows (Poll order) p) = Completed r ∧ r ∈ l ∧ r ∈ asked es) ∧
      (¬ (∃ r, r ∈ l ∧ r ∈ asked es) → ∃ ls, signal (step windows (Poll order) p) = Pending ls)
  | Completed r => r ∈ l ∧ r ∈ asked es ∧ (session_end p = true ↔ ended = true ∨ windows = true ∧ r ≠ Interrupt)
  | Dropped => Drop ∈ es
  end.
Proof.
  intros l Hl Hf p. apply Forall_app in Hf as [Hf Ho]. apply Forall_cons in Ho as [Ho _].
  assert (stands windows l ended es p) as Hs.
  { unfold p. rewrite (listening_listens _ _ _ _ _ ended Hl). by apply run_stands. }
  assert (∀ e, Forall (λ e, ∀ order, e = Poll order → order ≡ₚ l) [e] → stands windows l ended (es ++ [e]) (step windows e p)) as Hnext.
  { intros e He. apply stands_step; [|done]. by apply Forall_cons in He as [He _]. }
  specialize (Hnext (Poll order)). unfold stands in Hs, Hnext. rewrite asked_snoc, app_nil_r in Hnext.
  destruct (signal p) as [ls'|r|] eqn:Hp.
  - destruct Hs as (-> & He & Hd & Hw). split; [done|]. split; [done|]. unfold step in *. rewrite Hp, ready_heard in *.
    destruct (filter _ order) as [|r rs] eqn:Ef; simpl in *.
    + split; [|by eexists]. intros (r & Hr & Ha). exfalso. eapply (not_elem_of_nil r). rewrite <- Ef.
      apply list_elem_of_filter. by rewrite (Ho order eq_refl).
    + destruct Hnext as (Hr & Ha & _); [by apply Forall_cons_2|]. split; [by eauto|]. intros Hn. destruct Hn. eauto.
  - destruct Hs as (Hr & Ha & He). split_and!; [done|done|]. rewrite He, orb_true_iff. unfold ends_session.
    rewrite andb_true_iff, negb_true_iff, bool_decide_eq_false. done.
  - by destruct Hs.
Qed.

(** The user logs off before the future is polled, and Ctrl+C follows. *)
Lemma requests_to_stop_are_not_lost_witness :
  let p := run true [Asks LogoffEvent; Asks Interrupt] (Process (Pending ((λ r, Listener r false) <$> windows_requests)) false true) in
  woken p = true ∧ ∃ r, signal (step true (Poll (reverse windows_requests)) p) = Completed r.
Proof.
  pose proof (requests_to_stop_are_not_lost true [Asks LogoffEvent; Asks Interrupt] (reverse windows_requests) false
    (λ _ (w : unit), (Ok tt, w)) tt tt _ eq_refl) as H. split; [reflexivity|].
  destruct H as (_ & _ & H).
  - repeat apply Forall_cons_2; [intros ? [=]..| |apply Forall_nil_2]. intros order [= <-]. apply reverse_Permutation.
  - destruct H as [H _]. destruct H as (r & Hr & _); [exists LogoffEvent; vm_compute; split; set_solver|]. exists r. exact Hr.
Defined.

(** What is left of the window once it ends by Ctrl+C; and the handler a program
    installs itself. *)
Example interrupted :
  session_end (run true [Asks Interrupt; Poll windows_requests] (listening windows_requests false)) = false ∧
  session_end_handler CTRL_LOGOFF_EVENT false = (true, 1) ∧ session_end_handler 0 false = (false, 0).
Proof. by vm_compute. Qed.
