(* ===== verification/AsyncSession.v ===== *)
(** * Asynchronous sessions (src/wire/asynchronous.rs)

    The code of [AsyncSession], in a monad of its own: a computation runs on the
    session, and ends with a value, with an error, or cancelled where it waited,
    when its caller drops the future. *)
From S2P Require Import Prelude Text SocketPath Identity Proto Wire Session.

(** [AsyncRead] and [AsyncWrite]; no answer is a cancelled wait. [read_byte] is
    [read] into one byte: the end of the stream is [None]. *)
Class AsyncStream (S : Type) : Type := {
  a_write_all : bytes → S → option (io_result unit) * S;
  a_flush : S → option (io_result unit) * S;
  a_read_exact : nat → S → option (io_result bytes) * S;
  a_read_byte : S → option (io_result (option byte)) * S;
}.

(** ** Computations *)

Definition async (T E A : Type) : Type := T → option (result E A) * T.

Definition ret {T E A} (a : A) : async T E A := λ s, (Some (Ok a), s).
Definition fail {T E A} (e : E) : async T E A := λ s, (Some (Err e), s).
Definition bind {T E A B} (m : async T E A) (k : A → async T E B) : async T E B := λ s,
  match m s with
  | (Some (Ok a), s) => k a s
  | (Some (Err e), s) => (Some (Err e), s)
  | (None, s) => (None, s)
  end.
Definition get {T E} : async T E T := λ s, (Some (Ok s), s).
Definition modify {T E} (f : T → T) : async T E unit := λ s, (Some (Ok tt), f s).
Definition of_result {T E A} (r : result E A) : async T E A := λ s, (Some r, s).
Definition plain {T A} (m : async T io_error A) : async T wire_error A := λ s,
  let '(r, s) := m s in (map_err Plain <$> r, s).

Declare Scope async_scope.
Delimit Scope async_scope with async.
Notation "x <- m ;; k" := (bind m (λ x, k)) (at level 100, m at next level, right associativity) : async_scope.
Notation "m ;;; k" := (bind m (λ _, k)) (at level 100, right associativity) : async_scope.
#[local] Open Scope async_scope.

Module AsyncSession.
Record t (S : Type) := mk { io : S; agreement : Agreement; failed : bool }.
Arguments mk {S} _ _ _.
Arguments io {S} _.
Arguments agreement {S} _.
Arguments failed {S} _.

Section code.
Context `{Buffa} {S : Type} `{AsyncStream S}.

Definition unestablished (s : S) : t S := mk s (MkAgreement VERSION 0 HELLO_LIMIT) false.

Definition set_failed (b : bool) : async (t S) io_error unit :=
  modify (λ s, mk (io s) (agreement s) b).

(** One await of the stream. *)
Definition on_io {A} (f : S → option (io_result A) * S) : async (t S) io_error A := λ s,
  let '(r, x) := f (io s) in (r, mk x (agreement s) (failed s)).

Definition usable : async (t S) io_error unit :=
  s <- get ;;
  if failed s then fail (invalid "session failed; reconnect without replay") else ret tt.

Definition send_message {M} `{!Message M} (m : M) : async (t S) io_error unit :=
  usable ;;;
  s <- get ;;
  buffer <- of_result (encode_frame m (agreed_frame (agreement s))) ;;
  set_failed true ;;;
  on_io (a_write_all buffer) ;;;
  on_io a_flush ;;;
  set_failed false.

Definition receive_message {M} `{!Message M} : async (t S) io_error M :=
  usable ;;;
  set_failed true ;;;
  header <- on_io (a_read_exact 4) ;;
  s <- get ;;
  let limit := agreed_frame (agreement s) in
  let length := from_le_bytes header in
  if (length =? 0) || (limit <? length)
  then fail (invalid "received frame exceeds negotiated bounds") else
  buffer <- on_io (a_read_exact (Z.to_nat length)) ;;
  message <- of_result (decode_message buffer limit) ;;
  set_failed false ;;;
  ret message.

Definition read_acceptance : async (t S) io_error unit :=
  accepted <- on_io (a_read_exact 1) ;;
  if decide (accepted = [x01]) then ret tt else fail (invalid "peer did not accept negotiation").

Definition write_acceptance : async (t S) io_error unit :=
  on_io (a_write_all [x01]) ;;; on_io a_flush.

Definition set_agreement (a : Agreement) : async (t S) io_error unit :=
  modify (λ s, mk (io s) a (failed s)).

(** [connect], after [unestablished]. *)
Definition connect (offer : Hello.t) : async (t S) wire_error unit :=
  plain (of_result (validate offer)) ;;;
  plain (on_io (a_write_all MAGIC)) ;;;
  plain (send_message offer) ;;;
  remote <- plain receive_message ;;
  of_result (check_refusal remote) ;;;
  a <- plain (of_result (negotiate offer remote)) ;;
  plain write_acceptance ;;;
  plain read_acceptance ;;;
  plain (set_agreement a).

Definition offered : async (t S) io_error Hello.t :=
  magic <- on_io (a_read_exact 8) ;;
  if decide (magic ≠ MAGIC) then fail (invalid "wrong binary protocol magic") else
  receive_message.

(** The refusal's own result is not reported, but a wait for it can be cancelled. *)
Definition ignore (m : async (t S) io_error unit) : async (t S) io_error unit := λ s,
  match m s with
  | (Some _, s) => (Some (Ok tt), s)
  | (None, s) => (None, s)
  end.

Definition accept (offer : Hello.t) : async (t S) io_error unit :=
  of_result (validate offer) ;;;
  remote <- offered ;;
  match negotiate offer remote with
  | Err e =>
      match rejection offer remote with
      | Some refusal => ignore (send_message refusal)
      | None => ret tt
      end ;;;
      fail e
  | Ok a =>
      send_message offer ;;;
      read_acceptance ;;;
      write_acceptance ;;;
      set_agreement a
  end.

Definition refuse (offer : Hello.t) (reason : Refused.t) : async (t S) io_error unit :=
  remote <- offered ;;
  match Refused.frame reason offer remote with
  | Some refusal => send_message refusal
  | None => ret tt
  end.

Definition check (m : Control.t) : async (t S) io_error unit :=
  s <- get ;;
  of_result (Session.check m (agreement s)).

Definition send (m : Control.t) : async (t S) io_error unit :=
  check m ;;; send_message m.

Definition receive : async (t S) io_error Control.t :=
  message <- receive_message ;;
  s <- get ;;
  match Session.check message (agreement s) with
  | Err e => set_failed true ;;; fail e
  | Ok _ => ret message
  end.

(** [subscription_closed]: the flag is set once the read has completed. *)
Definition subscription_closed : async (t S) io_error unit :=
  usable ;;;
  λ s,
  match a_read_byte (io s) with
  | (None, x) => (None, mk x (agreement s) (failed s))
  | (Some r, x) =>
      (Some (b ← r; match b with None => Ok tt | Some _ => Err (invalid "request after WATCH") end),
       mk x (agreement s) true)
  end.
End code.
End AsyncSession.

(** ** A stream that is never cancelled *)

Definition lifted {S} `{Stream S} : AsyncStream S := {|
  a_write_all l s := let '(r, s) := write_all l s in (Some r, s);
  a_flush s := let '(r, s) := flush s in (Some r, s);
  a_read_exact n s := let '(r, s) := read_exact n s in (Some r, s);
  a_read_byte s := let '(r, s) := read_exact 1 s in (Some (head <$> r), s);
|}.

(** The blocking session an asynchronous one corresponds to. *)
Definition blocking {S} (s : AsyncSession.t S) : Session.t S :=
  Session.mk (Framed.mk (AsyncSession.io s) (agreed_frame (AsyncSession.agreement s)) (AsyncSession.failed s))
    (AsyncSession.agreement s).

Definition agrees {S A} (a : option (io_result A) * AsyncSession.t S) (b : io_result A * Session.t S) : Prop :=
  a.1 = Some b.1 ∧ blocking a.2 = b.2.

Section refinement.
Context `{Buffa} {S : Type} `{Stream S}.
#[local] Existing Instance lifted.
#[local] Arguments Framed.send : simpl never.
#[local] Arguments Framed.receive : simpl never.
#[local] Arguments AsyncSession.send_message : simpl never.
#[local] Arguments AsyncSession.receive_message : simpl never.

Ltac run_async :=
  repeat match goal with
  | |- context [write_all ?l ?s] => destruct (write_all l s) as [[]] eqn:?; simpl
  | |- context [flush ?s] => destruct (flush s) as [[]] eqn:?; simpl
  | |- context [read_exact ?n ?s] => destruct (read_exact n s) as [[]] eqn:?; simpl
  end.

Lemma send_message_agrees {M} `{!Message M} (m : M) (s : AsyncSession.t S) :
  (AsyncSession.send_message m s).1 = Some (Framed.send m (Session.frames (blocking s))).1 ∧
  Session.frames (blocking (AsyncSession.send_message m s).2) = (Framed.send m (Session.frames (blocking s))).2 ∧
  AsyncSession.agreement (AsyncSession.send_message m s).2 = AsyncSession.agreement s.
Proof.
  destruct s as [x a f]. unfold AsyncSession.send_message, Framed.send, AsyncSession.usable, Framed.usable,
    bind, get, blocking. simpl. destruct f; [done|]. simpl.
  unfold of_result. destruct (encode_frame m (agreed_frame a)); [|done]. simpl.
  unfold AsyncSession.on_io. simpl. run_async; done.
Qed.

Lemma receive_message_agrees {M} `{!Message M} (s : AsyncSession.t S) :
  (AsyncSession.receive_message (M := M) s).1 = Some (Framed.receive (M := M) (Session.frames (blocking s))).1 ∧
  Session.frames (blocking (AsyncSession.receive_message (M := M) s).2)
    = (Framed.receive (M := M) (Session.frames (blocking s))).2 ∧
  AsyncSession.agreement (AsyncSession.receive_message (M := M) s).2 = AsyncSession.agreement s.
Proof.
  destruct s as [x a f]. unfold AsyncSession.receive_message, Framed.receive, AsyncSession.usable, Framed.usable,
    bind, get, blocking. simpl. destruct f; [done|]. simpl.
  unfold AsyncSession.on_io. simpl. destruct (read_exact 4 x) as [[header|e] x1]; simpl; [|done].
  destruct (_ || _); simpl; [done|].
  destruct (read_exact _ x1) as [[buffer|e] x2]; simpl; [|done].
  unfold of_result. by destruct (decode_message buffer (agreed_frame a)).
Qed.
Lemma send_agrees m (s : AsyncSession.t S) : agrees (AsyncSession.send m s) (Session.send m (blocking s)).
Proof.
  unfold AsyncSession.send, Session.send, AsyncSession.check, bind, get, of_result, agrees. simpl.
  destruct (Session.check m (AsyncSession.agreement s)) as [u|]; [|done].
  destruct (send_message_agrees m s) as (E1 & E2 & E3).
  destruct (AsyncSession.send_message m s) as [r [x a f]], (Framed.send m _) as [r' f']. simpl in *.
  subst. done.
Qed.

Lemma receive_agrees (s : AsyncSession.t S) : agrees (AsyncSession.receive s) (Session.receive (blocking s)).
Proof.
  unfold AsyncSession.receive, Session.receive, bind, get, agrees.
  destruct (receive_message_agrees (M := Control.t) s) as (E1 & E2 & E3).
  destruct (AsyncSession.receive_message s) as [r [x a f]], (Framed.receive _) as [r' f']. simpl in *.
  subst. destruct r' as [m|e]; [|done]. simpl. by destruct (Session.check m (AsyncSession.agreement s)).
Qed.

(** A handshake's result: the session it establishes, and the stream it leaves. *)
Definition establishes {E} (a : option (result E unit) * AsyncSession.t S) (b : result E (Session.t S) * S) : Prop :=
  AsyncSession.io a.2 = b.2 ∧
  match b.1 with
  | Ok session => a.1 = Some (Ok tt) ∧ blocking a.2 = session
  | Err e => a.1 = Some (Err e)
  end.

Lemma offered_agrees (s : S) :
  match Session.offered s with
  | (Ok (f, remote), x) =>
      AsyncSession.offered (AsyncSession.unestablished s) =
        (Some (Ok remote), AsyncSession.mk (Framed.io f) (MkAgreement VERSION 0 HELLO_LIMIT) (Framed.failed f)) ∧
      Framed.limit f = HELLO_LIMIT
  | (Err e, x) =>
      (AsyncSession.offered (AsyncSession.unestablished s)).1 = Some (Err e) ∧
      AsyncSession.io (AsyncSession.offered (AsyncSession.unestablished s)).2 = x
  end.
Proof.
  unfold Session.offered, AsyncSession.offered, bind, AsyncSession.on_io. simpl.
  destruct (read_exact 8 s) as [[magic|e] x]; simpl; [|done]. case_decide; [done|]. simpl.
  destruct (receive_message_agrees (M := Hello.t) (AsyncSession.mk x (MkAgreement VERSION 0 HELLO_LIMIT) false))
    as (E1 & E2 & E3). unfold blocking in *. simpl in *.
  destruct (AsyncSession.receive_message _) as [r [x1 a1 f1]], (Framed.receive _) as [r' f'] eqn:E. simpl in *.
  subst. by destruct r'.
Qed.

Lemma plain_bind {A B} (m : async (AsyncSession.t S) io_error A) (k : A → async (AsyncSession.t S) wire_error B) s :
  bind (plain m) k s =
  match m s with
  | (Some (Ok a), s) => k a s
  | (Some (Err e), s) => (Some (Err (Plain e)), s)
  | (None, s) => (None, s)
  end.
Proof. unfold bind, plain. by destruct (m s) as [[[]|]]. Qed.

Lemma connect_agrees (s : S) offer :
  establishes (AsyncSession.connect offer (AsyncSession.unestablished s)) (Session.connect s offer).
Proof.
  unfold AsyncSession.connect, Session.connect. rewrite plain_bind. unfold of_result at 1.
  destruct (validate offer) as [u|]; [|by split]. rewrite plain_bind. unfold AsyncSession.on_io at 1.
  cbn [a_write_all lifted AsyncSession.io AsyncSession.unestablished].
  destruct (write_all MAGIC s) as [[u0|] x]; [|by split]. cbn. rewrite plain_bind.
  destruct (send_message_agrees offer (AsyncSession.mk x (MkAgreement VERSION 0 HELLO_LIMIT) false)) as (E1 & E2 & E3).
  unfold blocking in E1, E2. simpl in *.
  destruct (AsyncSession.send_message _ _) as [r1 s1], (Framed.send _ _) as [r1' f1]. simpl in *. subst r1 f1.
  destruct r1' as [u1|]; [|by split]. rewrite plain_bind.
  destruct (receive_message_agrees (M := Hello.t) s1) as (F1 & F2 & F3). unfold blocking in F1, F2. simpl in *.
  destruct (AsyncSession.receive_message s1) as [r2 s2], (Framed.receive _) as [r2' f2]. simpl in *. subst r2 f2.
  destruct r2' as [remote|]; [|by split]. unfold bind at 1, of_result at 1.
  destruct (check_refusal remote) as [u2|]; [|by split]. rewrite plain_bind. unfold of_result.
  destruct (negotiate offer remote) as [agr|]; [|by split]. rewrite plain_bind.
  unfold AsyncSession.write_acceptance, Session.write_acceptance, bind at 1, AsyncSession.on_io. simpl.
  destruct (write_all _ _) as [[] x1]; [|by split]. simpl. destruct (flush x1) as [[] x2]; [|by split]. simpl.
  rewrite plain_bind. unfold AsyncSession.read_acceptance, Session.read_acceptance, bind, AsyncSession.on_io. simpl.
  destruct (read_exact 1 x2) as [[l|] x3]; [|by split]. simpl. case_decide; by split.
Qed.

Lemma accept_agrees (s : S) offer :
  establishes (AsyncSession.accept offer (AsyncSession.unestablished s)) (Session.accept s offer).
Proof.
  unfold AsyncSession.accept, Session.accept. unfold bind at 1, of_result at 1.
  destruct (validate offer) as [u|]; [|by split]. unfold bind at 1. pose proof (offered_agrees s) as Ho.
  destruct (Session.offered s) as [[[f remote]|e] x].
  2:{ destruct Ho as [E1 E2]. destruct (AsyncSession.offered _). simpl in *. subst. by split. }
  destruct Ho as [-> Hlim]. destruct (negotiate offer remote) as [agr|e].
  - unfold bind at 1. destruct f as [y l b]. simpl in *. subst l.
    destruct (send_message_agrees offer (AsyncSession.mk y (MkAgreement VERSION 0 HELLO_LIMIT) b)) as (E1 & E2 & E3).
    unfold blocking in E1, E2. simpl in *.
    destruct (AsyncSession.send_message _ _) as [r1 s1], (Framed.send _ _) as [r1' f1]. simpl in *. subst r1 f1.
    destruct r1' as [u1|]; [|by split]. simpl.
    unfold AsyncSession.read_acceptance, Session.read_acceptance, bind, AsyncSession.on_io. simpl.
    destruct (read_exact 1 _) as [[l|] x3]; [|by split]. simpl. case_decide; [|by split]. simpl.
    unfold AsyncSession.write_acceptance, Session.write_acceptance, bind, AsyncSession.on_io. simpl.
    destruct (write_all _ _) as [[] x1]; [|by split]. simpl. destruct (flush x1) as [[] x2]; by split.
  - destruct (rejection offer remote) as [refusal|]; unfold bind; [|by split]. unfold AsyncSession.ignore.
    destruct f as [y l b]. simpl in *. subst l.
    destruct (send_message_agrees refusal (AsyncSession.mk y (MkAgreement VERSION 0 HELLO_LIMIT) b)) as (E1 & E2 & E3).
    unfold blocking in E1, E2. simpl in *.
    destruct (AsyncSession.send_message _ _) as [r1 s1], (Framed.send _ _) as [r1' f1]. simpl in *. subst r1 f1. by split.
Qed.

Lemma refuse_agrees (s : S) offer reason :
  (AsyncSession.refuse offer reason (AsyncSession.unestablished s)).1 = Some (Session.refuse s offer reason).1 ∧
  AsyncSession.io (AsyncSession.refuse offer reason (AsyncSession.unestablished s)).2 = (Session.refuse s offer reason).2.
Proof.
  unfold AsyncSession.refuse, Session.refuse, bind. pose proof (offered_agrees s) as Ho.
  destruct (Session.offered s) as [[[f remote]|e] x].
  2:{ destruct Ho as [E1 E2]. destruct (AsyncSession.offered _). simpl in *. by subst. }
  destruct Ho as [-> Hlim]. destruct (Refused.frame reason offer remote) as [refusal|]; [|done].
  destruct f as [y l b]. simpl in *. subst l.
  destruct (send_message_agrees refusal (AsyncSession.mk y (MkAgreement VERSION 0 HELLO_LIMIT) b)) as (E1 & E2 & E3).
  unfold blocking in E1, E2. simpl in *.
  destruct (AsyncSession.send_message _ _) as [r1 s1], (Framed.send _ _) as [r1' f1]. simpl in *. by subst r1 f1.
Qed.

(** C33: an asynchronous session whose waits are not cancelled does exactly what
    the blocking one does on the same stream: the handshakes establish the same
    session or fail with the same error, refusals answer the same, and sending and
    receiving give the same result and leave the session the same. *)
Theorem async_sessions_refine_blocking (x : S) (s : AsyncSession.t S) offer reason m :
  establishes (AsyncSession.connect offer (AsyncSession.unestablished x)) (Session.connect x offer) ∧
  establishes (AsyncSession.accept offer (AsyncSession.unestablished x)) (Session.accept x offer) ∧
  (AsyncSession.refuse offer reason (AsyncSession.unestablished x)).1 = Some (Session.refuse x offer reason).1 ∧
  agrees (AsyncSession.send m s) (Session.send m (blocking s)) ∧
  agrees (AsyncSession.receive s) (Session.receive (blocking s)).
Proof.
  split_and!; [apply connect_agrees|apply accept_agrees|apply refuse_agrees|apply send_agrees|apply receive_agrees].
Qed.
End refinement.

(** ** Cancellation *)

Section cancellation.
Context `{Buffa} {S : Type} `{AsyncStream S}.

Lemma send_message_cancelled {M} `{!Message M} (m : M) (s s' : AsyncSession.t S) :
  AsyncSession.send_message m s = (None, s') → AsyncSession.failed s' = true.
Proof.
  unfold AsyncSession.send_message, AsyncSession.usable, bind, get, of_result. destruct (AsyncSession.failed s); [done|].
  simpl. destruct (encode_frame _ _) as [buffer|]; [|done]. unfold AsyncSession.on_io. simpl.
  destruct (a_write_all _ _) as [[[]|] x]; simpl; [|done|by intros [= <-]].
  destruct (a_flush x) as [[[]|] y]; simpl; [done..|by intros [= <-]].
Qed.

Lemma receive_message_cancelled {M} `{!Message M} (s s' : AsyncSession.t S) :
  AsyncSession.receive_message (M := M) s = (None, s') → AsyncSession.failed s' = true.
Proof.
  unfold AsyncSession.receive_message, AsyncSession.usable, bind, get, of_result. destruct (AsyncSession.failed s); [done|].
  unfold AsyncSession.on_io. simpl. destruct (a_read_exact 4 _) as [[[header|]|] x]; simpl; [|done|by intros [= <-]].
  destruct (_ || _); [done|]. simpl.
  destruct (a_read_exact (Z.to_nat _) x) as [[[buffer|]|] y]; simpl; [|done|by intros [= <-]].
  by destruct (decode_message _ _).
Qed.

(** Cancelling a send or a receive poisons the session, so no later use can
    continue from part of a frame; cancelling the wait for a subscriber to
    disconnect does not. *)
Theorem cancellation_poisons (s s' : AsyncSession.t S) m :
  (AsyncSession.send m s = (None, s') → AsyncSession.failed s' = true) ∧
  (AsyncSession.receive s = (None, s') → AsyncSession.failed s' = true) ∧
  (AsyncSession.subscription_closed s = (None, s') → AsyncSession.failed s' = false) ∧
  (AsyncSession.failed s = true →
     (AsyncSession.send m s).2 = s ∧ (AsyncSession.receive s).2 = s ∧ (AsyncSession.subscription_closed s).2 = s).
Proof.
  split_and!.
  - unfold AsyncSession.send, AsyncSession.check, bind, get, of_result. simpl.
    destruct (Session.check m _); [|done]. apply send_message_cancelled.
  - unfold AsyncSession.receive, bind, get.
    destruct (AsyncSession.receive_message s) as [[[m'|]|] s1] eqn:E; [|done|].
    + simpl. by destruct (Session.check m' _).
    + intros [= <-]. by apply receive_message_cancelled in E.
  - unfold AsyncSession.subscription_closed, AsyncSession.usable, bind, get. simpl.
    destruct (AsyncSession.failed s) eqn:Hf; [done|]. simpl. rewrite Hf.
    destruct (a_read_byte _) as [[r|] x]; [done|]. by intros [= <-].
  - intros Hf. unfold AsyncSession.send, AsyncSession.check, AsyncSession.receive, AsyncSession.subscription_closed,
      AsyncSession.send_message, AsyncSession.receive_message, AsyncSession.usable, bind, get, of_result. simpl.
    rewrite Hf. simpl. split; [by destruct (Session.check m _)|done].
Qed.
End cancellation.
