(* ===== verification/Control.v ===== *)
(** * Lifecycle control and its watchers (src/control.rs, src/control/watch.rs)

    One process answers health and drain requests and streams its lifecycle to
    watchers. Its counters and flags change in atomic steps; a watcher samples
    them one after the other, so what it reads may come from different moments. *)
From S2P Require Import Prelude Text SocketPath Identity Proto Wire Session AsyncSession Observation Lifecycle.
Import Lifecycle.

Module ControlService.
(** [Published], behind the [watch] channel whose version [notify] and
    [send_if_modified] advance. *)
Record t := mk {
  gate : Lifecycle.t;
  ready : bool;
  selected : option Z;
  selected_build : bytes;
  retiring : bool;
  events : nat;
  process_id : Z;
  generation : Z;
  build : bytes;
  revision : Z;
}.

Definition new (l : Lifecycle.t) (pid generation : Z) (build : bytes) (revision : Z) : t :=
  mk l false None [] false 0 pid generation build revision.

Definition set_gate (l : Lifecycle.t) (s : t) : t :=
  mk l (ready s) (selected s) (selected_build s) (retiring s) (events s) (process_id s) (generation s) (build s) (revision s).

(** The two steps of [mark_ready]: the swap, which says whether to notify, and the
    notification. *)
Definition swap_ready (s : t) : bool * t :=
  (negb (ready s), mk (gate s) true (selected s) (selected_build s) (retiring s) (events s)
                      (process_id s) (generation s) (build s) (revision s)).
Definition notify (s : t) : t :=
  mk (gate s) (ready s) (selected s) (selected_build s) (retiring s) (S (events s))
     (process_id s) (generation s) (build s) (revision s).

Definition mark_ready (s : t) : t := let '(first, s) := swap_ready s in if first then notify s else s.

(** [snapshot] when nothing happens between its reads. *)
Definition snapshot (s : t) : Health.t :=
  let draining := draining (gate s) in
  Health.mk (process_id s) (generation s) (build s) (revision s) (ready s && negb draining) draining
    (active (gate s)) [].

Definition plain_request (s : t) (r : Control.t) : bool :=
  bool_decide (Control.payload r = []) && bool_decide (Control.token r = [])
  && bool_decide (Control.offset r = None)
  && ((Control.generation r =? 0) || (Control.generation r =? generation s)).

Definition handle `{Buffa} (now : Z) (request : Control.t) (s : t) : io_result Control.t * t :=
  if negb (is_lifecycle request && plain_request s request)
  then (Err (invalid "invalid lifecycle request"), s) else
  if Control.operation request =? Operation.HEALTH then (health_response (snapshot s) request, s) else
  if Control.operation request =? Operation.DRAIN then
    let s := set_gate (start_drain now (gate s)).1.2 s in
    (health_response (snapshot s) request, s)
  else (Err (invalid "unsupported lifecycle request"), s).

Definition selection_committed (g : Z) (b : bytes) (s : t) : io_result unit * t :=
  if decide (g = generation s ∧ b ≠ build s)
  then (Err (invalid "selection does not match serving build"), s) else
  match selected s with
  | Some previous =>
      if decide (g < previous ∨ (g = previous ∧ b ≠ selected_build s))
      then (Err (invalid "selection must advance monotonically"), s)
      else if decide (g = previous) then (Ok tt, s)
      else (Ok tt, notify (mk (gate s) (ready s) (Some g) b (retiring s) (events s)
                              (process_id s) (generation s) (build s) (revision s)))
  | None => (Ok tt, notify (mk (gate s) (ready s) (Some g) b (retiring s) (events s)
                              (process_id s) (generation s) (build s) (revision s)))
  end.

(** The two steps of [mark_retiring]: [start_drain], and this one. *)
Definition publish_retiring (s : t) : t :=
  if retiring s then s
  else notify (mk (gate s) (ready s) (selected s) (selected_build s) true (events s)
                  (process_id s) (generation s) (build s) (revision s)).

Definition mark_retiring (now : Z) (s : t) : t :=
  publish_retiring (set_gate (start_drain now (gate s)).1.2 s).

Definition validate_watch (request : Control.t) (s : t) : io_result unit :=
  if plain_request s request then Ok tt else Err (invalid "invalid WATCH request").

(** ** The watch loop *)

(** One pass samples the published state, then the drain flag, then readiness;
    the service may change in between. *)
Definition sample (s1 s2 s3 : t) : LifecycleEvent.t :=
  let draining := draining (gate s2) in
  LifecycleEvent.mk (LifecycleEvent.change LifecycleEvent.default) 0 (process_id s1) (generation s1) (build s1)
    (ready s3 && negb draining) draining (selected s1) (selected_build s1) (retiring s1) [].

(** The changes since the previous event, in order. *)
Definition changed (old event : LifecycleEvent.t) : list LifecycleChange.t :=
  (if negb (eqb (LifecycleEvent.ready event) (LifecycleEvent.ready old)) && LifecycleEvent.ready event
   then [LifecycleChange.Ready] else []) ++
  (if negb (eqb (LifecycleEvent.draining event) (LifecycleEvent.draining old))
   then [LifecycleChange.Draining] else []) ++
  (if decide (LifecycleEvent.selected_generation event = LifecycleEvent.selected_generation old)
   then [] else [LifecycleChange.SelectionChanged]) ++
  (if negb (eqb (LifecycleEvent.retiring event) (LifecycleEvent.retiring old))
   then [LifecycleChange.Retiring] else []).

(** What one pass decides: nothing to say, or the next event. *)
Definition next_event (previous : option LifecycleEvent.t) (sequence : Z) (sampled : LifecycleEvent.t)
    : io_result (option LifecycleEvent.t) :=
  let number (c : LifecycleChange.t) :=
    n ← ok_or (checked_add sequence 1) (invalid "WATCH sequence exhausted");
    Ok (Some (LifecycleEvent.with_sequence n (LifecycleEvent.with_change (Known c) sampled))) in
  match previous with
  | None => number LifecycleChange.Snapshot
  | Some old =>
      match changed old sampled with
      | [] => Ok None
      | [one] => number one
      | _ => number LifecycleChange.Snapshot
      end
  end.

Definition watch_frame `{Buffa} (s : t) (request : Control.t) (event : LifecycleEvent.t) : Control.t :=
  Control.mk Operation.WATCH (Control.request_id request) (generation s) [] None (encode_to_vec event)
    (Control.kind Control.default) [].
End ControlService.

Module WatchClient.
(** [decode_event]. *)
Definition state_valid (e : LifecycleEvent.t) (reply_generation : Z) : bool :=
  negb (
    bool_decide (as_known (LifecycleEvent.change e) = None)
    || (LifecycleEvent.process_id e =? 0)
    || negb (LifecycleEvent.generation e =? reply_generation)
    || (bool_decide (LifecycleEvent.selected_generation e = None) && bool_decide (LifecycleEvent.selected_build e ≠ []))
    || (bool_decide (LifecycleEvent.selected_generation e = Some (LifecycleEvent.generation e))
        && bool_decide (LifecycleEvent.selected_build e ≠ LifecycleEvent.build e))
    || (bool_decide (LifecycleEvent.change e = Known LifecycleChange.SelectionChanged)
        && bool_decide (LifecycleEvent.selected_generation e = None))
    || (LifecycleEvent.ready e && LifecycleEvent.draining e)
    || (LifecycleEvent.retiring e && negb (LifecycleEvent.draining e))
    || (bool_decide (LifecycleEvent.change e = Known LifecycleChange.Ready) && negb (LifecycleEvent.ready e))
    || (bool_decide (LifecycleEvent.change e = Known LifecycleChange.Draining) && negb (LifecycleEvent.draining e))
    || (bool_decide (LifecycleEvent.change e = Known LifecycleChange.Retiring) && negb (LifecycleEvent.retiring e))).

Definition decode_event `{Buffa} (reply request : Control.t) : io_result LifecycleEvent.t :=
  if negb (is_lifecycle reply) || negb (Control.operation reply =? Operation.WATCH)
     || negb (Control.request_id reply =? Control.request_id request)
     || bool_decide (Control.token reply ≠ []) || bool_decide (is_Some (Control.offset reply))
  then Err (invalid "unexpected WATCH response") else
  e ← decode_message (Control.payload reply) MAX_FRAME;
  if state_valid e (Control.generation reply) then Ok e else Err (invalid "invalid WATCH state").

(** [None] is before every generation. *)
Definition option_lt (a b : option Z) : bool :=
  match a, b with
  | None, Some _ => true
  | Some x, Some y => x <? y
  | _, None => false
  end.

(** The checks of [changed] on a decoded event. *)
Definition consistent (latest e : LifecycleEvent.t) : bool :=
  negb (
    negb (bool_decide (checked_add (LifecycleEvent.sequence latest) 1 = Some (LifecycleEvent.sequence e)))
    || negb (LifecycleEvent.process_id e =? LifecycleEvent.process_id latest)
    || negb (LifecycleEvent.generation e =? LifecycleEvent.generation latest)
    || bool_decide (LifecycleEvent.build e ≠ LifecycleEvent.build latest)
    || option_lt (LifecycleEvent.selected_generation e) (LifecycleEvent.selected_generation latest)
    || (bool_decide (LifecycleEvent.selected_generation e = LifecycleEvent.selected_generation latest)
        && bool_decide (LifecycleEvent.selected_build e ≠ LifecycleEvent.selected_build latest))
    || (LifecycleEvent.draining latest && negb (LifecycleEvent.draining e))
    || (LifecycleEvent.retiring latest && negb (LifecycleEvent.retiring e))).

Record t := mk { request : Control.t; latest : LifecycleEvent.t; failed : bool }.

(** The request of [connect], and what it makes of the first reply. *)
Definition watch_request : Control.t := Control.with_operation Operation.WATCH Control.default.

Definition connected `{Buffa} (reply : Control.t) : io_result t :=
  e ← decode_event reply watch_request;
  if negb (LifecycleEvent.sequence e =? 1) || bool_decide (LifecycleEvent.change e ≠ Known LifecycleChange.Snapshot)
  then Err (invalid "WATCH must start with a snapshot") else Ok (mk watch_request e false).

(** [changed], once the session has received a reply. *)
Definition changed `{Buffa} (reply : Control.t) (c : t) : io_result LifecycleEvent.t * t :=
  if failed c then (Err (invalid "WATCH failed; reconnect"), c) else
  match decode_event reply (request c) with
  | Err e => (Err e, mk (request c) (latest c) true)
  | Ok e =>
      if consistent (latest c) e then (Ok e, mk (request c) e false)
      else (Err (invalid "inconsistent WATCH event"), mk (request c) (latest c) true)
  end.
End WatchClient.

(** ** What happens to a service *)

Module Evolution.
Import ControlService.

(** One atomic step of some task. [mark_ready] notifies in a later step than the
    one that sets the flag; [mark_retiring] publishes after it started the drain. *)
Inductive step :=
| SwapReady
| Notify
| SelectionCommitted (g : Z) (b : bytes)
| StartDrain (now : Z)
| PublishRetiring
| Begin
| DropGuard.

(** The service, and how many tasks still have to notify. *)
Record sys := Sys { svc : t; owed : nat }.

Definition exec (s : sys) (x : step) : sys :=
  match x with
  | SwapReady => let '(first, v) := swap_ready (svc s) in Sys v (if first then S (owed s) else owed s)
  | Notify => match owed s with O => s | S n => Sys (notify (svc s)) n end
  | SelectionCommitted g b => Sys (selection_committed g b (svc s)).2 (owed s)
  | StartDrain now => Sys (set_gate (start_drain now (gate (svc s))).1.2 (svc s)) (owed s)
  | PublishRetiring =>
      if draining (gate (svc s)) then Sys (publish_retiring (svc s)) (owed s) else s
  | Begin => Sys (set_gate (begin (gate (svc s))).2 (svc s)) (owed s)
  | DropGuard => Sys (set_gate (drop_guard (gate (svc s))).1 (svc s)) (owed s)
  end.

Definition run : sys → list step → sys := foldl exec.

(** [b] is a later state of the same service than [a]. *)
Record later (a b : t) : Prop := {
  later_process : process_id b = process_id a;
  later_generation : generation b = generation a;
  later_build : build b = build a;
  later_ready : ready a = true → ready b = true;
  later_draining : draining (gate a) = true → draining (gate b) = true;
  later_retiring : retiring a = true → retiring b = true;
  later_selected : WatchClient.option_lt (selected b) (selected a) = false;
  later_selected_build : selected b = selected a → selected_build b = selected_build a;
  later_events : (events a ≤ events b)%nat;
}.

Lemma option_lt_refl o : WatchClient.option_lt o o = false.
Proof. destruct o; simpl; [apply Z.ltb_irrefl|done]. Qed.

Lemma option_lt_trans a b c :
  WatchClient.option_lt b a = false → WatchClient.option_lt c b = false →
  WatchClient.option_lt c a = false ∧ (c = a → b = a).
Proof. destruct a, b, c; simpl; intros; bools; split; try done; try (apply Z.ltb_ge; lia); intros; simplify_eq; f_equal; lia. Qed.

#[global] Instance later_preorder : PreOrder later.
Proof.
  split.
  - intros a. split; try done. apply option_lt_refl.
  - intros a b c [p1 g1 b1 r1 d1 t1 s1 sb1 e1] [p2 g2 b2 r2 d2 t2 s2 sb2 e2].
    destruct (option_lt_trans (selected a) (selected b) (selected c)) as [Hlt Heq]; [done..|].
    split; [congruence..|auto|auto|auto|done| |lia].
    intros E. rewrite sb2 by (rewrite Heq; done). by apply sb1, Heq.
Qed.

Lemma start_drain_draining now l :
  draining (start_drain now l).1.2 = true ∧ active (start_drain now l).1.2 = active l.
Proof. unfold start_drain. by destruct (draining l) eqn:E. Qed.

Lemma begin_draining l : draining (begin l).2 = draining l.
Proof. unfold begin. by destruct (draining l) eqn:E. Qed.

Lemma drop_guard_draining l : draining (drop_guard l).1 = draining l.
Proof. unfold drop_guard. by case_decide. Qed.

Lemma exec_later s x : later (svc s) (svc (exec s x)).
Proof.
  destruct s as [v n]. destruct x as [| |g b|now| | |]; simpl.
  - split; try done. apply option_lt_refl.
  - destruct n; simpl; [reflexivity|]. split; try done; [apply option_lt_refl|simpl; lia].
  - unfold selection_committed. case_decide as Hown; [reflexivity|].
    destruct (selected v) as [p|] eqn:Ep; [repeat case_decide; try reflexivity|];
      split; simpl; rewrite ?Ep; try done; simpl; try (apply Z.ltb_ge); try lia; try naive_solver lia.
  - split; try done; simpl; [by destruct (start_drain_draining now (gate v))|apply option_lt_refl].
  - destruct (draining (gate v)); [|reflexivity]. unfold publish_retiring. destruct (retiring v); [reflexivity|].
    split; try done; simpl; [apply option_lt_refl|lia].
  - split; try done; simpl; [by rewrite begin_draining|apply option_lt_refl].
  - split; try done; simpl; [by rewrite drop_guard_draining|apply option_lt_refl].
Qed.

Lemma run_later s ops : later (svc s) (svc (run s ops)).
Proof.
  revert s. induction ops as [|x ops IH]; intros s; [reflexivity|]. etrans; [apply exec_later|apply IH].
Qed.

(** What every reachable service satisfies. *)
Record sound (v : t) : Prop := {
  sound_process : process_id v ≠ 0;
  sound_retiring : retiring v = true → draining (gate v) = true;
  sound_none : selected v = None → selected_build v = [];
  sound_own : selected v = Some (generation v) → selected_build v = build v;
}.

Lemma exec_sound s x : sound (svc s) → sound (svc (exec s x)).
Proof.
  destruct s as [v n]. intros [Hp Hr Hn Ho]. destruct x as [| |g b|now| | |]; simpl in *.
  - by split.
  - destruct n; by split.
  - unfold selection_committed. case_decide as Hown; [by split|].
    assert (g = generation v → b = build v) by (intros ->; destruct (decide (b = build v)); tauto).
    destruct (selected v) as [p|] eqn:Ep; [repeat case_decide; try (by split; rewrite ?Ep)|];
      split; simpl; try done; naive_solver.
  - split; try done. intros _. apply start_drain_draining.
  - destruct (draining (gate v)) eqn:Ed; [|by split; simpl; rewrite ?Ed].
    unfold publish_retiring. destruct (retiring v); split; simpl; rewrite ?Ed; done.
  - split; try done. simpl. by rewrite begin_draining.
  - split; try done. simpl. by rewrite drop_guard_draining.
Qed.

Lemma service_run_sound s ops : sound (svc s) → sound (svc (run s ops)).
Proof. revert s. induction ops as [|x ops IH]; intros s Hs; [done|]. apply IH. by apply exec_sound. Qed.
End Evolution.

(** ** A watcher's stream *)

Module Watching.
Import ControlService Evolution.

(** One pass of the loop of [serve_watch]: what other tasks do before each of its
    three reads. *)
Definition reads : Type := list step * list step * list step.

Definition sampled (s : sys) (p : reads) : LifecycleEvent.t * sys :=
  let '(x, y, z) := p in
  let s1 := run s x in let s2 := run s1 y in let s3 := run s2 z in
  (sample (svc s1) (svc s2) (svc s3), s3).

(** [serve_watch] over any number of passes: the events it sends. *)
Fixpoint serve_watch (s : sys) (passes : list reads) (previous : option LifecycleEvent.t) (sequence : Z)
    : io_result (list LifecycleEvent.t) :=
  match passes with
  | [] => Ok []
  | p :: passes =>
      let '(e, s) := sampled s p in
      next ← next_event previous sequence e;
      match next with
      | None => serve_watch s passes previous sequence
      | Some event =>
          rest ← serve_watch s passes (Some event) (LifecycleEvent.sequence event);
          Ok (event :: rest)
      end
  end.

(** What a client makes of the frames that carry those events. *)
Fixpoint follow `{Buffa} (v : t) (events : list LifecycleEvent.t) (c : WatchClient.t) : io_result WatchClient.t :=
  match events with
  | [] => Ok c
  | e :: events =>
      match WatchClient.changed (watch_frame v (WatchClient.request c) e) c with
      | (Ok _, c) => follow v events c
      | (Err e, _) => Err e
      end
  end.

Definition watch_client `{Buffa} (v : t) (events : list LifecycleEvent.t) : option (io_result WatchClient.t) :=
  match events with
  | [] => None
  | e :: events =>
      Some (c ← WatchClient.connected (watch_frame v WatchClient.watch_request e); follow v events c)
  end.

(** The event [c] number [n] of a sample. *)
Definition event_of (c : LifecycleChange.t) (n : Z) (e : LifecycleEvent.t) : LifecycleEvent.t :=
  LifecycleEvent.with_sequence n (LifecycleEvent.with_change (Known c) e).

(** [e] was sampled from a sound service that is now at [s]. *)
Definition seen (e : LifecycleEvent.t) (s : sys) : Prop :=
  ∃ v1 v2 v3, later v1 v2 ∧ later v2 v3 ∧ later v3 (svc s) ∧ sound v1 ∧ sound v2 ∧ sound v3 ∧
  ∃ c n, e = event_of c n (sample v1 v2 v3).

Lemma sampled_later s p e s' :
  sound (svc s) → sampled s p = (e, s') →
  ∃ v1 v2 v3, later (svc s) v1 ∧ later v1 v2 ∧ later v2 v3 ∧ svc s' = v3 ∧
    sound v1 ∧ sound v2 ∧ sound v3 ∧ e = sample v1 v2 v3.
Proof.
  intros Hs. destruct p as [[x y] z]. simpl. intros [= <- <-].
  exists (svc (run s x)), (svc (run (run s x) y)), (svc (run (run (run s x) y) z)).
  split_and!; auto using run_later, service_run_sound.
Qed.

(** A change is told only if it happened. *)
Lemma changed_elem old e c :
  c ∈ ControlService.changed old e →
  match c with
  | LifecycleChange.Snapshot => False
  | LifecycleChange.Ready => LifecycleEvent.ready e = true
  | LifecycleChange.Draining => LifecycleEvent.draining e ≠ LifecycleEvent.draining old
  | LifecycleChange.SelectionChanged => LifecycleEvent.selected_generation e ≠ LifecycleEvent.selected_generation old
  | LifecycleChange.Retiring => LifecycleEvent.retiring e ≠ LifecycleEvent.retiring old
  end.
Proof.
  unfold ControlService.changed. rewrite !elem_of_app.
  intros [H|[H|[H|H]]]; repeat case_match; apply list_elem_of_singleton in H || apply not_elem_of_nil in H;
    simplify_eq; try done; bools; try done.
  all: by apply eqb_false_iff.
Qed.

(** Two samples of one service, the second after the first. *)
Record ordered (v1 v2 w1 w2 : t) : Prop := {
  ordered_published : later v1 w1;
  ordered_draining : later v2 w2;
}.

(** Every event a pass sends is one a client accepts. *)
Lemma event_valid v1 v2 v3 w1 w2 w3 c n k m :
  ordered v1 v2 w1 w2 → later w1 w2 → sound w1 →
  c = LifecycleChange.Snapshot ∨ c ∈ ControlService.changed (event_of k m (sample v1 v2 v3)) (sample w1 w2 w3) →
  WatchClient.state_valid (event_of c n (sample w1 w2 w3)) (generation w1) = true.
Proof.
  intros [L13 L24] Lw Sw Hc. destruct Sw as [Hp Hr Hn Ho].
  pose proof (later_draining _ _ Lw) as Hd1. pose proof (later_draining _ _ L24) as Hd2.
  pose proof (later_retiring _ _ L13) as Hr2. pose proof (later_selected _ _ L13) as Hs2.
  assert (match c with
    | LifecycleChange.Ready => ready w3 && negb (draining (gate w2)) = true
    | LifecycleChange.Draining => draining (gate w2) = true
    | LifecycleChange.SelectionChanged => selected w1 ≠ None
    | LifecycleChange.Retiring => retiring w1 = true
    | LifecycleChange.Snapshot => True end) as Htold.
  { destruct Hc as [->|Hc%changed_elem]; [done|]. simpl in Hc. destruct c; try done.
    - destruct (draining (gate v2)), (draining (gate w2)); auto.
    - intros E. rewrite E in *. simpl in Hs2. by destruct (selected v1).
    - destruct (retiring v1), (retiring w1); auto. }
  unfold WatchClient.state_valid, event_of, sample. simpl. apply negb_true_iff.
  rewrite (proj2 (Z.eqb_neq _ _)) by done. rewrite Z.eqb_refl. simpl.
  repeat (apply orb_false_iff; split).
  - apply andb_false_iff. rewrite !bool_decide_eq_false. destruct (decide (selected w1 = None)); [right|by left].
    rewrite Hn by done. by intros [].
  - apply andb_false_iff. rewrite !bool_decide_eq_false.
    destruct (decide (selected w1 = Some (generation w1))); [right|by left]. rewrite Ho by done. by intros [].
  - destruct c; try done. by apply bool_decide_eq_false.
  - by destruct (ready w3), (draining (gate w2)).
  - destruct (retiring w1); [|done]. rewrite Hd1 by auto. done.
  - destruct c; try done. simpl. by rewrite Htold.
  - destruct c; try done. simpl. by rewrite Htold.
  - destruct c; try done. simpl. by rewrite Htold.
Qed.

Lemma event_consistent v1 v2 v3 w1 w2 w3 c n k m :
  ordered v1 v2 w1 w2 → checked_add m 1 = Some n →
  WatchClient.consistent (event_of k m (sample v1 v2 v3)) (event_of c n (sample w1 w2 w3)) = true.
Proof.
  intros [L13 L24] Hn. unfold WatchClient.consistent, event_of, sample. simpl. apply negb_true_iff.
  rewrite bool_decide_eq_true_2 by done. destruct L13 as [-> -> -> _ _ Hr Hs Hsb _].
  pose proof (later_draining _ _ L24) as Hd. rewrite !Z.eqb_refl, Hs. simpl.
  repeat (apply orb_false_iff; split).
  - apply bool_decide_eq_false. by intros [].
  - done.
  - apply andb_false_iff. rewrite !bool_decide_eq_false.
    destruct (decide (selected w1 = selected v1)); [right|by left]. rewrite Hsb by done. by intros [].
  - destruct (draining (gate v2)); [|done]. simpl. by rewrite Hd.
  - destruct (retiring v1); [|done]. simpl. by rewrite Hr.
Qed.

(** What [next_event] sends. *)
Lemma next_event_Some previous n e event :
  next_event previous n e = Ok (Some event) →
  ∃ c m, event = event_of c m e ∧ checked_add n 1 = Some m ∧
    match previous with
    | None => c = LifecycleChange.Snapshot
    | Some old => c = LifecycleChange.Snapshot ∨ c ∈ ControlService.changed old e
    end.
Proof.
  unfold next_event. intros H.
  assert (∀ c, (m ← ok_or (checked_add n 1) (invalid "WATCH sequence exhausted");
                Ok (Some (event_of c m e))) = Ok (Some event) →
    ∃ m, event = event_of c m e ∧ checked_add n 1 = Some m) as Hnum.
  { intros c (m & Hm%ok_or_Ok & [= <-])%result_bind_Ok. eauto. }
  destruct previous as [old|].
  - destruct (ControlService.changed old e) as [|c [|c' l]] eqn:Ec; [done|..]; apply Hnum in H as (m & -> & Hm).
    + exists c, m. split_and!; [done..|]. right. set_solver.
    + exists LifecycleChange.Snapshot, m. split_and!; [done..|]. by left.
  - apply Hnum in H as (m & -> & Hm). eauto.
Qed.
Section stream.
Context `{BuffaLaws}.

(** An event that fits a frame. *)
Definition encodable (e : LifecycleEvent.t) : Prop :=
  msg_valid e ∧ within (MkOptions MAX_FRAME 32 128 MAX_FRAME) e.

Lemma decode_watch_frame v request e :
  encodable e → WatchClient.state_valid e (generation v) = true →
  WatchClient.decode_event (watch_frame v request e) request = Ok e.
Proof.
  intros [Hv Hw] Hs. unfold WatchClient.decode_event, watch_frame. simpl.
  rewrite Z.eqb_refl. simpl. unfold decode_message.
  destruct (message_round_trips _ e Hv Hw) as [-> _]. simpl. by rewrite Hs.
Qed.

Lemma seen_ordered old s w1 w2 :
  seen old s → later (svc s) w1 → later w1 w2 →
  ∃ v1 v2 v3 k m, old = event_of k m (sample v1 v2 v3) ∧ ordered v1 v2 w1 w2.
Proof.
  intros (v1 & v2 & v3 & L12 & L23 & L3 & _ & _ & _ & k & m & ->) Lw1 Lw2.
  exists v1, v2, v3, k, m. split; [done|]. split.
  - etrans; [exact L12|]. etrans; [exact L23|]. by etrans.
  - etrans; [exact L23|]. etrans; [exact L3|]. by etrans.
Qed.

(** A client that has accepted an event accepts everything sent after it. *)
Lemma follow_accepts v0 passes s old events c :
  sound (svc s) → generation (svc s) = generation v0 → seen old s →
  WatchClient.latest c = old → WatchClient.failed c = false →
  serve_watch s passes (Some old) (LifecycleEvent.sequence old) = Ok events →
  Forall encodable events →
  ∃ c', follow v0 events c = Ok c' ∧ last (old :: events) = Some (WatchClient.latest c').
Proof.
  revert s old events c. induction passes as [|p passes IH]; intros s old events c Hs Hg Hseen Hc Hf; cbn [serve_watch].
  { intros [= <-] _. exists c. simpl. by rewrite Hc. }
  destruct (sampled s p) as [e s'] eqn:Ep.
  destruct (sampled_later _ _ _ _ Hs Ep) as (w1 & w2 & w3 & L1 & L2 & L3 & E3 & S1 & S2 & S3 & ->).
  destruct (seen_ordered old s w1 w2 Hseen L1 L2) as (v1 & v2 & v3 & k & m & -> & Hord).
  assert (later (svc s) (svc s')) as Lss by (rewrite E3; etrans; [exact L1|]; by etrans).
  assert (generation (svc s') = generation v0) as Hg'.
  { rewrite <- Hg. apply later_generation, Lss. }
  rewrite result_bind_Ok. intros (next & Hnext & H1). destruct next as [event|].
  2:{ intros Henc. eapply IH; [| | | | |exact H1|done]; [by rewrite E3|done| |done..].
      destruct Hseen as (a1 & a2 & a3 & ? & ? & La & ? & ? & ? & k' & m' & Ee).
      exists a1, a2, a3. split_and!; try done; [by etrans|]. eauto. }
  apply result_bind_Ok in H1 as (rest & Hrest & [= <-]). intros [He Henc]%Forall_cons.
  apply next_event_Some in Hnext as (ch & n & -> & Hn & Hch). simpl in Hn.
  assert (generation w1 = generation v0) as Hgw by (rewrite <- Hg; apply later_generation, L1).
  assert (WatchClient.state_valid (event_of ch n (sample w1 w2 w3)) (generation v0) = true) as Hvalid.
  { rewrite <- Hgw. eapply (event_valid v1 v2 v3); done. }
  cbn [follow]. unfold WatchClient.changed. rewrite Hf, decode_watch_frame by done.
  rewrite Hc, event_consistent by done.
  destruct (IH s' (event_of ch n (sample w1 w2 w3)) rest
    (WatchClient.mk (WatchClient.request c) (event_of ch n (sample w1 w2 w3)) false)) as (c' & Hfol & Hlast);
    [by rewrite E3|done| |done..|].
  { exists w1, w2, w3. split_and!; try done; [by rewrite E3|]. eauto. }
  exists c'. split; [done|]. by rewrite <- Hlast.
Qed.

(** The loop only fails when its numbers run out. *)
Lemma serve_watch_Ok passes s previous n :
  0 ≤ n → n + Z.of_nat (length passes) ≤ u64_max → ∃ events, serve_watch s passes previous n = Ok events.
Proof.
  revert s previous n. induction passes as [|p passes IH]; intros s previous n Hn Hlen; [by eexists|].
  cbn [serve_watch length] in *. destruct (sampled s p) as [e s'].
  assert (checked_add n 1 = Some (n + 1)) as Hadd by (apply checked_add_Some; lia).
  assert (∃ next, next_event previous n e = Ok next) as [next Hnext].
  { unfold next_event. rewrite Hadd. simpl. repeat case_match; eauto. }
  rewrite Hnext. simpl. destruct next as [event|].
  - apply next_event_Some in Hnext as (c & m & -> & Hm & _). simplify_eq. simpl.
    destruct (IH s' (Some (event_of c (n + 1) e)) (n + 1)) as [rest ->]; [lia..|]. by eexists.
  - apply IH; lia.
Qed.
End stream.

(** A client accepts everything a service sends it. Whatever the process does
    before and between the reads of the watch loop, the loop sends a snapshot
    first, and every event it sends passes the checks of the client: numbered in
    order, valid in itself, and never moving drain, retirement or the selection
    backwards. The client's state is then the last event sent. *)
Theorem watch_stream_is_accepted `{BuffaLaws} s passes :
  sound (svc s) → passes ≠ [] → Z.of_nat (length passes) ≤ u64_max →
  ∃ events, serve_watch s passes None 0 = Ok events ∧
  (Forall encodable events →
   ∃ c, watch_client (svc s) events = Some (Ok c) ∧ last events = Some (WatchClient.latest c)).
Proof.
  intros Hs Hne Hlen. destruct (serve_watch_Ok passes s None 0) as [events He]; [lia..|].
  exists events. split; [done|]. intros Henc. destruct passes as [|p passes]; [done|]. cbn [serve_watch] in He.
  destruct (sampled s p) as [e s'] eqn:Ep.
  destruct (sampled_later _ _ _ _ Hs Ep) as (w1 & w2 & w3 & L1 & L2 & L3 & E3 & S1 & S2 & S3 & ->).
  assert (next_event None 0 (sample w1 w2 w3) = Ok (Some (event_of LifecycleChange.Snapshot 1 (sample w1 w2 w3))))
    as Hfirst by done.
  rewrite Hfirst in He. cbn [mbind result_bind] in He. apply result_bind_Ok in He as (rest & Hrest & [= <-]).
  apply Forall_cons in Henc as [Henc1 Henc].
  assert (WatchClient.state_valid (event_of LifecycleChange.Snapshot 1 (sample w1 w2 w3)) (generation (svc s)) = true) as Hv.
  { rewrite <- (later_generation _ _ L1).
    apply (event_valid w1 w2 w3 w1 w2 w3 _ _ LifecycleChange.Snapshot 0); [by split|done|done|by left]. }
  unfold watch_client, WatchClient.connected. rewrite decode_watch_frame by done. simpl.
  destruct (follow_accepts (svc s) passes s' (event_of LifecycleChange.Snapshot 1 (sample w1 w2 w3)) rest
    (WatchClient.mk WatchClient.watch_request (event_of LifecycleChange.Snapshot 1 (sample w1 w2 w3)) false))
    as (c & Hfol & Hlast); [by rewrite E3| | |done..|].
  - rewrite E3. rewrite (later_generation _ _ L3), (later_generation _ _ L2). apply later_generation, L1.
  - exists w1, w2, w3. split_and!; try done; [by rewrite E3|]. eauto.
  - exists c. by rewrite Hfol.
Qed.

Lemma watch_stream_is_accepted_witness :
  let s := Sys (new Lifecycle.default 7 3 (bs "v1") 1) 0 in
  ∃ events, serve_watch s [([], [], []); ([SwapReady; Notify], [], []); ([StartDrain 5], [PublishRetiring], []);
      ([SelectionCommitted 4 (bs "v2")], [], [])] None 0 = Ok events ∧
    (λ e, (LifecycleEvent.change e, LifecycleEvent.sequence e)) <$> events =
      [(Known LifecycleChange.Snapshot, 1); (Known LifecycleChange.Ready, 2);
       (Known LifecycleChange.Draining, 3); (Known LifecycleChange.Snapshot, 4)].
Proof.
  destruct (watch_stream_is_accepted (H := Wireformat.protobuf) (Sys (new Lifecycle.default 7 3 (bs "v1") 1) 0)
    [([], [], []); ([SwapReady; Notify], [], []); ([StartDrain 5], [PublishRetiring], []);
      ([SelectionCommitted 4 (bs "v2")], [], [])]) as (events & He & _);
    [by split|done|vm_compute; discriminate|].
  exists events. split; [exact He|]. vm_compute in He. injection He as <-. reflexivity.
Defined.

(** ** No change is missed *)

(** Notifications made and still owed: every change to what a watcher is told adds
    to it, and sending one that was owed does not. *)
Definition told (s : sys) : nat := events (svc s) + owed s.

Lemma exec_told s x :
  (told s ≤ told (exec s x))%nat ∧
  (ready (svc (exec s x)) ≠ ready (svc s) ∨ selected (svc (exec s x)) ≠ selected (svc s) ∨
   retiring (svc (exec s x)) ≠ retiring (svc s) → (told s < told (exec s x))%nat).
Proof.
  destruct s as [v n]. unfold told. destruct x as [| |g b|now| | |]; simpl.
  - destruct (ready v) eqn:Er; simpl; split; try lia; intros [?|[?|?]]; congruence.
  - destruct n; simpl; split; try lia; intros [?|[?|?]]; congruence.
  - unfold selection_committed. repeat case_match; simpl; split; try lia; intros [?|[?|?]]; congruence.
  - split; [lia|]. intros [?|[?|?]]; congruence.
  - destruct (draining (gate v)); simpl; [|split; [lia|intros [?|[?|?]]; congruence]]. unfold publish_retiring.
    destruct (retiring v) eqn:Er; simpl; split; try lia; intros [?|[?|?]]; congruence.
  - split; [lia|]. intros [?|[?|?]]; congruence.
  - split; [lia|]. intros [?|[?|?]]; congruence.
Qed.

Lemma run_told s ops :
  (told s ≤ told (run s ops))%nat ∧
  (told (run s ops) = told s → ready (svc (run s ops)) = ready (svc s) ∧
     selected (svc (run s ops)) = selected (svc s) ∧ retiring (svc (run s ops)) = retiring (svc s)).
Proof.
  revert s. induction ops as [|x ops IH]; intros s; [done|]. simpl.
  destruct (exec_told s x) as [Hle Hch]. destruct (IH (exec s x)) as [Hle' Heq]. split; [lia|].
  intros Ht. assert (told (exec s x) = told s) as Hx by lia.
  destruct (Heq ltac:(lia)) as (-> & -> & ->).
  split_and!; apply dec_stable; intros Hne; assert (told s < told (exec s x))%nat by (apply Hch; auto); lia.
Qed.


End Watching.

(** ** Requests *)

Module Requests.
Import ControlService.
#[local] Open Scope async_scope.

(** A wait that is cut off by its deadline. *)
Definition timeout {T A} (m : async T io_error A) : async T io_error A := λ s,
  match m s with
  | (None, s) => (Some (Err (error_of_kind Prelude.TimedOut)), s)
  | r => r
  end.

Section serve.
Context `{Buffa} {S : Type} `{AsyncStream S}.

(** The service and the session it talks over. *)
Definition on_session {A} (m : async (AsyncSession.t S) io_error A) : async (t * AsyncSession.t S) io_error A :=
  λ '(v, s), let '(r, s) := m s in (r, (v, s)).

(** The part of [serve] under the deadline: it answers one request, or hands over
    a subscription. *)
Definition setup (now : Z) (offer : Hello.t) : async (t * AsyncSession.t S) io_error (option Control.t) :=
  on_session (AsyncSession.accept offer) ;;;
  request <- on_session AsyncSession.receive ;;
  st <- get ;;
  if (Control.operation request =? Operation.WATCH) && is_lifecycle request then
    of_result (validate_watch request st.1) ;;;
    ret (Some request)
  else if Z.land (capabilities (AsyncSession.agreement st.2)) Capability.HEALTH_DETAILS =? 0 then
    fail (invalid "typed health not negotiated")
  else
    reply <- (λ '(v, s), let '(r, v) := handle now request v in (Some r, (v, s))) ;;
    on_session (AsyncSession.send reply) ;;;
    ret None.

Definition serve (now : Z) (offer : Hello.t) : async (t * AsyncSession.t S) io_error (option Control.t) :=
  timeout (setup now offer).

(** [WatchClient::connect], after [unestablished]: no watcher when the peer does
    not support it. *)
Definition watch_connect (offer : Hello.t) : async (AsyncSession.t S) wire_error (option WatchClient.t) :=
  if Z.land (Hello.supported offer) Capability.WATCH =? 0
  then fail (Plain (invalid "client offer does not support WATCH")) else
  (λ s, match (AsyncSession.connect offer ;;;
               session <- get ;;
               if Z.land (capabilities (AsyncSession.agreement session)) Capability.WATCH =? 0 then ret None else
               plain (AsyncSession.send WatchClient.watch_request) ;;;
               reply <- plain AsyncSession.receive ;;
               c <- plain (of_result (WatchClient.connected reply)) ;;
               ret (Some c)) s with
        | (None, s) => (Some (Err (Plain (error_of_kind Prelude.TimedOut))), s)
        | r => r
        end).

(** [changed]: a cancelled receive leaves the client failed. *)
Definition watch_changed : async (WatchClient.t * AsyncSession.t S) io_error LifecycleEvent.t := λ '(c, s),
  if WatchClient.failed c then (Some (Err (invalid "WATCH failed; reconnect")), (c, s)) else
  let c' := WatchClient.mk (WatchClient.request c) (WatchClient.latest c) true in
  match AsyncSession.receive s with
  | (None, s) => (None, (c', s))
  | (Some (Err e), s) => (Some (Err e), (c', s))
  | (Some (Ok reply), s) => let '(r, c) := WatchClient.changed reply c in (Some r, (c, s))
  end.
End serve.

(** The state of the service fits a reply. *)
Definition answerable `{Buffa} (s : t) : Prop :=
  msg_valid (snapshot s) ∧ within (MkOptions MAX_FRAME 32 128 MAX_FRAME) (snapshot s).

(** A client reads back the state a reply was made from. *)
Lemma health_response_read `{BuffaLaws} v request reply :
  answerable v → process_id v ≠ 0 → health_response (snapshot v) request = Ok reply →
  health_from_response reply request = Ok (snapshot v).
Proof.
  intros [Hv Hw] Hp. unfold health_response.
  destruct (is_lifecycle request); [|done]. destruct (health_operation (Control.operation request)) eqn:Hop; [|done].
  intros [= <-]. unfold health_from_response. simpl. rewrite Hop, !Z.eqb_refl. simpl.
  unfold decode_message. destruct (message_round_trips _ _ Hv Hw) as [-> _]. simpl.
  rewrite (proj2 (Z.eqb_neq _ _)) by done. rewrite Z.eqb_refl. simpl.
  by destruct (ready v), (draining (gate v)).
Qed.

(** A health request is answered with the state of the service, and a drain
    request closes admission first and is answered with the state after it, and
    the client decodes exactly that state, for its own request; any other request
    fails and changes nothing. *)
Theorem requests_are_answered `{BuffaLaws} now request s :
  process_id s ≠ 0 → answerable s → answerable (set_gate (start_drain now (gate s)).1.2 s) →
  let '(r, s') := handle now request s in
  if is_lifecycle request && plain_request s request && health_operation (Control.operation request) then
    s' = (if Control.operation request =? Operation.DRAIN
          then set_gate (start_drain now (gate s)).1.2 s else s) ∧
    (Control.operation request = Operation.DRAIN → accepting_calls (gate s') = false) ∧
    ∃ reply, r = Ok reply ∧ health_from_response reply request = Ok (snapshot s') ∧
      Control.request_id reply = Control.request_id request
  else is_ok r = false ∧ s' = s.
Proof.
  intros Hpid Henc Henc'.
  assert (∀ v, answerable v → process_id v ≠ 0 → is_lifecycle request = true →
    health_operation (Control.operation request) = true →
    ∃ reply, health_response (snapshot v) request = Ok reply ∧
      health_from_response reply request = Ok (snapshot v) ∧
      Control.request_id reply = Control.request_id request) as Hreply.
  { intros v Hv Hp Hlife Hop. assert (∃ reply, health_response (snapshot v) request = Ok reply) as [reply Hr].
    { unfold health_response. rewrite Hlife, Hop. by eexists. }
    exists reply. split; [done|]. split; [by apply health_response_read|].
    unfold health_response in Hr. rewrite Hlife, Hop in Hr. by injection Hr as <-. }
  unfold handle. destruct (is_lifecycle request) eqn:Hlife; [|done].
  destruct (plain_request s request); [|done]. simpl. unfold health_operation in *.
  destruct (Z.eqb_spec (Control.operation request) Operation.HEALTH) as [Eh|Eh]; simpl.
  - rewrite Eh. simpl. split_and!; [done|done|]. apply Hreply; by rewrite ?Eh.
  - destruct (Z.eqb_spec (Control.operation request) Operation.DRAIN) as [Ed|Ed]; simpl; [|done].
    split_and!; [done| |apply Hreply; by rewrite ?Ed].
    intros _. unfold accepting_calls, set_gate, start_drain. simpl. destruct (draining (gate s)) eqn:E; simpl; by rewrite ?E.
Qed.

Lemma requests_are_answered_witness :
  let s := new (Lifecycle.mk false 2 None 0) 7 3 (bs "v1") 1 in
  let request := Control.with_request_id 9 (Control.with_operation Operation.DRAIN Control.default) in
  ∃ reply, (handle (H := Wireformat.protobuf) 50 request s).1 = Ok reply ∧
    health_from_response (H := Wireformat.protobuf) reply request =
      Ok (Health.mk 7 3 (bs "v1") 1 false true 2 []).
Proof.
  intros s request.
  pose proof (requests_are_answered (H := Wireformat.protobuf) 50 request s) as Hr.
  assert (∀ b d, msg_valid (Health.mk 7 3 (bs "v1") 1 b d 2 [])) as Hv.
  { intros b d. simpl. unfold Health.valid, valid_string, valid_bytes, is_u32, is_u64, u32_max, u64_max.
    split_and!; done. }
  destruct (handle 50 request s) as [r s'] eqn:E.
  destruct Hr as (Es & _ & reply & Er & Ereply & _);
    [done|split; [apply Hv|unfold within; vm_compute; split_and!; discriminate]..|].
  exists reply. split; [exact Er|]. rewrite Ereply, Es. reflexivity.
Defined.
End Requests.
