(* ===== verification/Transport.v ===== *)
(** * Blocking transport primitives (src/transport.rs)

    The replaceable writer of a session, the pumps that forward opaque bytes, and
    the set of requests still to be answered. The shared state of each is behind
    one mutex, so its operations are atomic steps; a thread that waits on the
    condition variable runs again once it was notified. *)
From stdpp Require Import gmap.
From S2P Require Import Prelude.

(** ** Writers *)

(** [WriteHalf]. *)
Class WriteHalf (W : Type) : Type := {
  write_all : bytes → W → io_result unit * W;
  flush : W → io_result unit * W;
  shutdown_write : W → io_result unit * W;
}.

(** [write_all(bytes).and_then(|()| flush())]. *)
Definition write_flush {W} `{WriteHalf W} (b : bytes) (w : W) : io_result unit * W :=
  match write_all b w with
  | (Ok _, w) => flush w
  | (Err e, w) => (Err e, w)
  end.

Definition newline : byte := x0a.

Module WriterSlot.
(** [WriterState], and the number of times the condition variable was notified. *)
Record t (W : Type) := mk {
  generation : Z;
  writer : W;
  paused : bool;
  at_boundary : bool;
  written : Z;
  failed : bool;
  ended : bool;
  closed : bool;
  notified : nat;
}.
Arguments mk {W} _ _ _ _ _ _ _ _ _.
Arguments generation {W} _.
Arguments writer {W} _.
Arguments paused {W} _.
Arguments at_boundary {W} _.
Arguments written {W} _.
Arguments failed {W} _.
Arguments ended {W} _.
Arguments closed {W} _.
Arguments notified {W} _.

Section code.
Context {W : Type} `{WriteHalf W}.

Definition new (w : W) : t W := mk 0 w false true 0 false false false 0.

(** [replace_paused]: the slot, and the writer that is no longer used. *)
Definition replace_paused (w : W) (offset : Z) (s : t W) : t W * W :=
  if closed s then (s, (shutdown_write w).2) else
  (mk (wrap64 (generation s + 1)) (if ended s then (shutdown_write w).2 else w) true true offset false
      (ended s) (closed s) (S (notified s)),
   (shutdown_write (writer s)).2).

Definition resume (s : t W) : t W :=
  mk (generation s) (writer s) false (at_boundary s) (written s) (failed s) (ended s) (closed s) (S (notified s)).

Definition replace_with_offset (w : W) (offset : Z) (s : t W) : t W := resume (replace_paused w offset s).1.
Definition replace (w : W) (s : t W) : t W := replace_with_offset w 0 s.

(** [try_pause], when the lock is free. *)
Definition try_pause (s : t W) : option Z * t W :=
  if paused s || failed s || ended s || closed s || negb (at_boundary s) then (None, s)
  else (Some (written s), mk (generation s) (writer s) true (at_boundary s) (written s) (failed s)
                             (ended s) (closed s) (notified s)).

Definition shutdown (s : t W) : io_result unit * t W :=
  let '(r, w) := shutdown_write (writer s) in
  (r, mk (generation s) w (paused s) (at_boundary s) (written s) (failed s) true (closed s) (notified s)).

Definition close (s : t W) : io_result unit * t W :=
  let '(r, w) := shutdown_write (writer s) in
  (r, mk (generation s) w (paused s) (at_boundary s) (written s) (failed s) (ended s) true (S (notified s))).

(** What a thread in [write_observed] does each time it holds the lock: wait for
    a resume, wait for a replacement of the writer that failed, or return, having
    tried to write its window or not. *)
Inductive thread := Starting | Replacing (failed_generation : Z) | Returned (tried : bool).

Definition write_window (b : bytes) (s : t W) : thread * t W :=
  match write_flush b (writer s) with
  | (Ok _, w) =>
      let '(written', failed') :=
        match checked_add (written s) (Z.of_nat (length b)) with
        | Some n => (n, failed s)
        | None => (written s, true)
        end in
      (Returned true, mk (generation s) w (paused s)
         (match last b with None => true | Some l => bool_decide (l = newline) end)
         written' failed' (ended s) (closed s) (notified s))
  | (Err _, w) =>
      (Replacing (generation s), mk (generation s) (shutdown_write w).2 (paused s) (at_boundary s) (written s) true
                                    (ended s) (closed s) (notified s))
  end.

Definition write_observed (b : bytes) (th : thread) (s : t W) : thread * t W :=
  match th with
  | Starting =>
      if paused s && negb (closed s) then (Starting, s)
      else if closed s then (Returned false, s)
      else write_window b s
  | Replacing g =>
      if (generation s =? g) && negb (closed s) then (Replacing g, s) else (Returned true, s)
  | Returned tried => (Returned tried, s)
  end.
End code.
End WriterSlot.

(** ** Pumps *)

Inductive PumpExit := PeerClosed | ClientGone.

Definition BUFFER_SIZE : nat := Z.to_nat 65536.

(** A reader is what its successive [read]s answer; after the last one, it is at
    the end of the stream, which an empty answer marks. *)
Definition reader : Type := list (io_result bytes).

Section pumps.
Context {W : Type} `{WriteHalf W}.

Fixpoint copy_flushing (from : reader) (to : W) : io_result unit * W :=
  match from with
  | [] | Ok [] :: _ => (Ok tt, to)
  | Err e :: from => if decide (kind e = Interrupted) then copy_flushing from to else (Err e, to)
  | Ok chunk :: from =>
      match write_flush chunk to with
      | (Ok _, to) => copy_flushing from to
      | (Err e, to) => (Err e, to)
      end
  end.

(** [result.and(shutdown)]. *)
Definition pump_upstream (client_in : reader) (sock_w : W) : io_result unit * W :=
  let '(result, w) := copy_flushing client_in sock_w in
  let '(down, w) := shutdown_write w in
  (match result with Ok _ => down | Err e => Err e end, w).

Fixpoint pump_downstream (sock_r : reader) (client_out : W) : PumpExit * W :=
  match sock_r with
  | [] | Ok [] :: _ =>
      match flush client_out with (Ok _, w) => (PeerClosed, w) | (Err _, w) => (ClientGone, w) end
  | Err e :: sock_r =>
      if decide (kind e = Interrupted) then pump_downstream sock_r client_out else (PeerClosed, client_out)
  | Ok chunk :: sock_r =>
      match write_flush chunk client_out with
      | (Ok _, w) => pump_downstream sock_r w
      | (Err _, w) => (ClientGone, w)
      end
  end.
End pumps.

(** ** Outstanding requests *)

Module Outstanding.
Section code.
Context {K : Type} `{Countable K}.

(** [OutstandingState], and the number of times its waiters were notified. *)
Record t := mk {
  keys : gmap K nat;
  tracked : nat;
  epoch : Z;
  overflowed : bool;
  failing : nat;
  transitions : nat;
  waiters : nat;
  notified : nat;
}.

Definition new : t := mk ∅ 0 0 false 0 0 0 0.

Definition settled (s : t) : bool :=
  negb (overflowed s) && bool_decide (failing s = O) && bool_decide (transitions s = O)
  && bool_decide (keys s = ∅).

Definition must_wake (s : t) : bool := bool_decide (0 < waiters s)%nat && settled s.

Definition wake_if_settled (s : t) : t :=
  if must_wake s
  then mk (keys s) (tracked s) (epoch s) (overflowed s) (failing s) (transitions s) (waiters s) (S (notified s))
  else s.

Definition begin (capacity : nat) (k : K) (s : t) : t :=
  if decide (tracked s < capacity)%nat
  then mk (<[k := S (default O (keys s !! k))]> (keys s)) (S (tracked s)) (epoch s) (overflowed s)
          (failing s) (transitions s) (waiters s) (notified s)
  else mk (keys s) (tracked s) (epoch s) true (failing s) (transitions s) (waiters s) (notified s).

(** The counts are positive, so the decrements do not wrap. *)
Definition settle (e : Z) (k : K) (s : t) : t :=
  if decide (e ≠ epoch s) then s else
  match keys s !! k with
  | None => s
  | Some count =>
      wake_if_settled (mk (if decide (count - 1 = 0)%nat then delete k (keys s) else <[k := (count - 1)%nat]> (keys s))
        (tracked s - 1) (epoch s) (overflowed s) (failing s) (transitions s) (waiters s) (notified s))
  end.

Definition clear (s : t) : t :=
  wake_if_settled (mk ∅ 0 (wrap64 (epoch s + 1)) false (failing s) (transitions s) (waiters s) (notified s)).

(** [fail]: the state, and the requests the guard reports. *)
Definition fail (s : t) : gmap K nat * t :=
  (keys s, mk ∅ 0 (wrap64 (epoch s + 1)) false (S (failing s)) (transitions s) (waiters s) (notified s)).

Definition failing_keys (taken : gmap K nat) : list K :=
  concat ((λ kc, replicate kc.2 kc.1) <$> map_to_list taken).

Definition drop_failing (s : t) : t :=
  wake_if_settled (mk (keys s) (tracked s) (epoch s) (overflowed s) (failing s - 1) (transitions s) (waiters s) (notified s)).

Definition transition (s : t) : t :=
  mk (keys s) (tracked s) (epoch s) (overflowed s) (failing s) (S (transitions s)) (waiters s) (notified s).

Definition drop_transition (s : t) : t :=
  wake_if_settled (mk (keys s) (tracked s) (epoch s) (overflowed s) (failing s) (transitions s - 1) (waiters s) (notified s)).

(** [wait_settled], at its entry and each time it holds the lock again: it returns
    or blocks until it is notified. *)
Definition register (s : t) : t :=
  mk (keys s) (tracked s) (epoch s) (overflowed s) (failing s) (transitions s) (S (waiters s)) (notified s).

Definition poll_settled (s : t) : bool * t :=
  if settled s
  then (true, mk (keys s) (tracked s) (epoch s) (overflowed s) (failing s) (transitions s) (waiters s - 1) (notified s))
  else (false, s).
End code.
Arguments t K {_ _}.
End Outstanding.

(** ** A slot and the threads that write to it *)

Module Slot.
Import WriterSlot.

Section use.
Context {W : Type} `{WriteHalf W}.

(** Spawn a thread that writes a window, let a thread hold the lock, or use the
    slot from the coordinator. *)
Inductive op :=
| Spawn (window : bytes)
| Run (thread_id : nat)
| ReplacePaused (w : W) (offset : Z)
| Resume
| TryPause
| Shutdown
| Close.

(** The slot, its threads with their windows, and what happened: the offset the
    current writer was installed with, the windows it has taken since, and the
    threads that have tried to write, in order. *)
Record sys := Sys {
  slot : t W;
  threads : list (bytes * thread);
  offset : Z;
  sent : list bytes;
  tried : list nat;
}.

Definition start (w : W) : sys := Sys (new w) [] 0 [] [].

Definition exec (s : sys) (x : op) : sys :=
  match x with
  | Spawn b => Sys (slot s) (threads s ++ [(b, Starting)]) (offset s) (sent s) (tried s)
  | Run i =>
      match threads s !! i with
      | Some (b, th) =>
          let '(th', slot') := write_observed b th (slot s) in
          let threads' := <[i := (b, th')]> (threads s) in
          match th, th' with
          | Starting, Returned true => Sys slot' threads' (offset s) (sent s ++ [b]) (tried s ++ [i])
          | Starting, Replacing _ => Sys slot' threads' (offset s) (sent s) (tried s ++ [i])
          | _, _ => Sys slot' threads' (offset s) (sent s) (tried s)
          end
      | None => s
      end
  | ReplacePaused w n =>
      if closed (slot s) then s
      else Sys (replace_paused w n (slot s)).1 (threads s) n [] (tried s)
  | Resume => Sys (resume (slot s)) (threads s) (offset s) (sent s) (tried s)
  | TryPause => Sys (try_pause (slot s)).2 (threads s) (offset s) (sent s) (tried s)
  | Shutdown => Sys (shutdown (slot s)).2 (threads s) (offset s) (sent s) (tried s)
  | Close => Sys (close (slot s)).2 (threads s) (offset s) (sent s) (tried s)
  end.

Definition run : sys → list op → sys := foldl exec.

Definition total (l : list bytes) : Z := Z.of_nat (length (concat l)).

(** The last window ends a record. *)
Definition whole (l : list bytes) : bool :=
  match last l with
  | None => true
  | Some b => match last b with None => true | Some c => bool_decide (c = newline) end
  end.

Record sound (s : sys) : Prop := {
  sound_written : failed (slot s) = false → written (slot s) = offset s + total (sent s);
  sound_boundary : failed (slot s) = false → at_boundary (slot s) = whole (sent s);
  sound_once : NoDup (tried s);
  sound_tried : ∀ i, i ∈ tried s → ∃ b th, threads s !! i = Some (b, th) ∧ th ≠ Starting;
}.

Lemma total_snoc l b : total (l ++ [b]) = total l + Z.of_nat (length b).
Proof. unfold total. rewrite concat_app, length_app. simpl. rewrite app_nil_r. lia. Qed.

Lemma whole_snoc l b :
  whole (l ++ [b]) = match last b with None => true | Some c => bool_decide (c = newline) end.
Proof. unfold whole. by rewrite last_snoc. Qed.

(** One turn of a thread: it blocks, returns without writing, or writes. *)
Lemma write_observed_cases b th (s : t W) :
  (write_observed b th s = (th, s)) ∨
  (write_observed b th s = (Returned false, s) ∧ th = Starting ∧ closed s = true) ∨
  (write_observed b th s = (Returned true, s) ∧ ∃ g, th = Replacing g) ∨
  (write_observed b th s = write_window b s ∧ th = Starting ∧ paused s = false ∧ closed s = false).
Proof.
  destruct th as [|g|r]; simpl.
  - destruct (paused s), (closed s); simpl; auto 10.
  - destruct (_ && _); [by auto|]. eauto 10.
  - auto.
Qed.

(** What waiting threads look at. *)
Definition unmoved (s s' : t W) : Prop :=
  generation s' = generation s ∧ paused s' = paused s ∧ closed s' = closed s ∧ notified s' = notified s.

Lemma write_window_cases b (s : t W) :
  (∃ s', write_window b s = (Returned true, s') ∧ unmoved s s' ∧
     at_boundary s' = (match last b with None => true | Some c => bool_decide (c = newline) end) ∧
     (failed s' = false → failed s = false ∧ written s' = written s + Z.of_nat (length b))) ∨
  (∃ s', write_window b s = (Replacing (generation s), s') ∧ unmoved s s' ∧ failed s' = true).
Proof.
  unfold write_window. destruct (write_flush b (writer s)) as [[[]|e] w].
  - left. destruct (checked_add _ _) as [n|] eqn:En; eexists; (split; [done|]); (split; [done|]); (split; [done|]); simpl.
    + apply checked_add_Some in En as [-> _]. done.
    + done.
  - right. eexists. split; [done|]. done.
Qed.

Lemma sound_turn s i b th :
  sound s → threads s !! i = Some (b, th) → sound (exec s (Run i)).
Proof.
  intros [Hw Hb Ho Ht] Hi. simpl. rewrite Hi.
  assert (∀ th', th' ≠ Starting → ∀ j, j ∈ tried s →
    ∃ b0 th0, <[i := (b, th')]> (threads s) !! j = Some (b0, th0) ∧ th0 ≠ Starting) as Hkeep.
  { intros th' Hne j Hj. destruct (decide (j = i)) as [->|Hji].
    - rewrite list_lookup_insert_eq by (by eapply lookup_lt_Some). eauto.
    - rewrite list_lookup_insert_ne by done. auto. }
  assert (th = Starting → i ∉ tried s) as Hnew.
  { intros -> (b0 & th0 & E & Hne)%Ht. congruence. }
  destruct (write_observed_cases b th (slot s)) as [E|[(E & -> & Hc)|[(E & g & ->)|(E & -> & Hp & Hc)]]];
    rewrite E; [| | |destruct (write_window_cases b (slot s)) as [(s' & Ew & Hun & Hbd & Hf)|(s' & Ew & Hun & Hf)]; rewrite Ew].
  - rewrite (list_insert_id (threads s)) by done. by destruct th; split.
  - split; simpl; try done. by apply Hkeep.
  - split; simpl; try done. by apply Hkeep.
  - split; simpl.
    + intros Hs'. destruct (Hf Hs') as [Hs ->]. rewrite total_snoc, Hw by done. lia.
    + intros _. by rewrite whole_snoc.
    + apply NoDup_app. split_and!; [done| |apply NoDup_singleton]. intros j Hj ->%list_elem_of_singleton. by apply Hnew.
    + intros j [Hj| ->%list_elem_of_singleton]%elem_of_app; [by apply Hkeep|].
      rewrite list_lookup_insert_eq by (by eapply lookup_lt_Some). eauto.
  - split; simpl.
    + congruence.
    + congruence.
    + apply NoDup_app. split_and!; [done| |apply NoDup_singleton]. intros j Hj ->%list_elem_of_singleton. by apply Hnew.
    + intros j [Hj| ->%list_elem_of_singleton]%elem_of_app; [by apply Hkeep|].
      rewrite list_lookup_insert_eq by (by eapply lookup_lt_Some). eauto.
Qed.

Lemma slot_sound_exec s x : sound s → sound (exec s x).
Proof.
  intros Hs. destruct x as [b|i|w n| | | |].
  - destruct Hs as [Hw Hb Ho Ht]. split; simpl; try done. intros i (b0 & th & E & Hne)%Ht.
    exists b0, th. split; [|done]. by apply lookup_app_l_Some.
  - destruct (threads s !! i) as [[b th]|] eqn:Hi; [by eapply sound_turn|]. simpl. by rewrite Hi.
  - simpl. destruct (closed (slot s)) eqn:Ec; [done|]. destruct Hs as [Hw Hb Ho Ht].
    unfold replace_paused. rewrite Ec. split; simpl; try done. intros _. unfold total. simpl. lia.
  - by destruct Hs.
  - simpl. unfold try_pause. destruct (_ || _); by destruct Hs.
  - simpl. unfold shutdown. destruct (shutdown_write _). by destruct Hs.
  - simpl. unfold close. destruct (shutdown_write _). by destruct Hs.
Qed.

Lemma slot_run_sound w ops : sound (run (start w) ops).
Proof.
  unfold run. induction ops as [|x ops IH] using rev_ind.
  - split; try done; [constructor|]. by intros i Hi%not_elem_of_nil.
  - rewrite foldl_app. by apply slot_sound_exec.
Qed.


(** What blocks a thread. *)
Definition blocked (th : thread) (s : t W) : bool :=
  match th with
  | Starting => paused s && negb (closed s)
  | Replacing g => (generation s =? g) && negb (closed s)
  | Returned _ => false
  end.

Lemma exec_moves s x th :
  is_u64 (generation (slot s)) →
  is_u64 (generation (slot (exec s x))) ∧ (notified (slot s) ≤ notified (slot (exec s x)))%nat ∧
  (blocked th (slot s) = true → blocked th (slot (exec s x)) = false →
     (notified (slot s) < notified (slot (exec s x)))%nat).
Proof.
  intros Hg. assert (∀ s', unmoved (slot s) (slot s') →
    is_u64 (generation (slot s')) ∧ (notified (slot s) ≤ notified (slot s'))%nat ∧
    (blocked th (slot s) = true → blocked th (slot s') = false → (notified (slot s) < notified (slot s'))%nat)) as Hsame.
  { intros s' (E1 & E2 & E3 & E4). rewrite E1, E4. split_and!; [done|lia|].
    intros Hb Hb'. exfalso. unfold blocked in *. rewrite E1, E2, E3 in Hb'. by destruct th; congruence. }
  destruct x as [b|i|w n| | | |]; simpl.
  - by apply Hsame.
  - destruct (threads s !! i) as [[b th0]|]; [|by apply Hsame].
    assert (unmoved (slot s) (write_observed b th0 (slot s)).2) as Hun.
    { destruct (write_observed_cases b th0 (slot s)) as [E|[(E & _)|[(E & _)|(E & _)]]]; rewrite E; try done.
      destruct (write_window_cases b (slot s)) as [(s' & -> & Hun & _)|(s' & -> & Hun & _)]; done. }
    destruct (write_observed b th0 (slot s)) as [th' s']. simpl in Hun.
    apply Hsame. by destruct th0, th' as [| |[]].
  - destruct (closed (slot s)) eqn:Ec; [by apply Hsame|]. unfold replace_paused. rewrite Ec. simpl.
    split_and!; [auto with daemon|lia|lia].
  - split_and!; [done|lia|lia].
  - unfold try_pause. destruct (_ || _); [by apply Hsame|]. simpl. split_and!; [done|lia|].
    unfold blocked. simpl. destruct th as [|g|]; intros Hb Hb'; [|congruence|done].
    by destruct (paused (slot s)), (closed (slot s)).
  - unfold shutdown. destruct (shutdown_write _). by apply Hsame.
  - unfold close. destruct (shutdown_write _). simpl. split_and!; [done|lia|lia].
Qed.

(** A thread that waits is notified before it could go on. *)
Theorem waiting_writers_are_woken s ops th :
  is_u64 (generation (slot s)) → blocked th (slot s) = true → blocked th (slot (run s ops)) = false →
  (notified (slot s) < notified (slot (run s ops)))%nat.
Proof.
  revert s. induction ops as [|x ops IH]; intros s Hg Hb Hb'; [simpl in Hb'; congruence|]. simpl in *.
  destruct (exec_moves s x th Hg) as (Hg' & Hle & Hlt).
  assert (∀ s0, is_u64 (generation (slot s0)) → (notified (slot s0) ≤ notified (slot (run s0 ops)))%nat) as Hmono.
  { clear. induction ops as [|y ops IH]; intros s0 Hg; [done|]. simpl.
    destruct (exec_moves s0 y Starting Hg) as (Hg' & Hle & _). specialize (IH _ Hg'). lia. }
  destruct (blocked th (slot (exec s x))) eqn:E.
  - specialize (IH _ Hg' E Hb'). lia.
  - specialize (Hlt Hb eq_refl). specialize (Hmono _ Hg'). lia.
Qed.
End use.

(** A writer that keeps what it is given, refuses to write when told so, and
    counts its half-closes. *)
Record Sink := MkSink { data : bytes; unflushed : nat; broken : bool; closes : nat }.

#[global] Instance sink_write_half : WriteHalf Sink := {
  write_all b w := if broken w then (Err (error_of_kind BrokenPipe), w)
                   else (Ok tt, MkSink (data w ++ b) (unflushed w + length b) (broken w) (closes w));
  flush w := (Ok tt, MkSink (data w) 0 (broken w) (closes w));
  shutdown_write w := (Ok tt, MkSink (data w) (unflushed w) (broken w) (S (closes w)));
}.

Definition empty_sink : Sink := MkSink [] 0 false 0.


(** A window of no bytes counts as one that ends a record: after part of a record
    and such a window, the slot is paused inside the record. *)
Theorem an_empty_window_hides_a_partial_record :
  let s := run (start empty_sink) [Spawn (bs "part"); Run 0; Spawn []; Run 1] in
  (try_pause (slot s)).1 = Some 4 ∧ data (writer (slot s)) = bs "part".
Proof. vm_compute. done. Qed.
End Slot.

(** ** What the pumps forward *)

Module Pumps.
Import Slot.

(** The bytes read before the stream ends or fails. *)
Fixpoint readable (r : reader) : bytes :=
  match r with
  | [] | Ok [] :: _ => []
  | Ok chunk :: r => chunk ++ readable r
  | Err e :: r => if decide (kind e = Interrupted) then readable r else []
  end.

(** How it ends. *)
Fixpoint read_error (r : reader) : option io_error :=
  match r with
  | [] | Ok [] :: _ => None
  | Ok _ :: r => read_error r
  | Err e :: r => if decide (kind e = Interrupted) then read_error r else Some e
  end.

Definition forwarded (r : reader) (w : Sink) : Sink :=
  match readable r with [] => w | l => MkSink (data w ++ l) 0 (broken w) (closes w) end.

Lemma write_flush_sink b (w : Sink) :
  broken w = false → write_flush b w = (Ok tt, MkSink (data w ++ b) 0 (broken w) (closes w)).
Proof. intros Hb. unfold write_flush. simpl. by rewrite Hb. Qed.

Lemma forwarded_chunk b chunk r w :
  forwarded (Ok (b :: chunk) :: r) w
    = forwarded r (MkSink (data w ++ b :: chunk) 0 (broken w) (closes w)).
Proof.
  unfold forwarded. simpl. destruct (readable r) as [|c l]; simpl; [by rewrite app_nil_r|].
  by rewrite <- app_assoc.
Qed.

Lemma copy_flushing_sink r (w : Sink) :
  broken w = false →
  copy_flushing r w = (match read_error r with None => Ok tt | Some e => Err e end, forwarded r w).
Proof.
  revert w. induction r as [|[[|b chunk]|e] r IH]; intros w Hb; [done..| |].
  - cbn [copy_flushing read_error]. rewrite write_flush_sink, forwarded_chunk by done. by apply IH.
  - cbn [copy_flushing read_error]. unfold forwarded. simpl. case_decide; [by apply IH|done].
Qed.

(** The pumps forward exactly what they read, in order, across interrupted
    reads, flushed to the last byte, whatever the bytes are; upstream then
    half-closes the peer once, also after a failed read, and reports that failure;
    downstream reports that the peer closed. *)
Theorem pumps_forward_every_byte r (w : Sink) :
  broken w = false →
  pump_upstream r w =
    (match read_error r with None => Ok tt | Some e => Err e end,
     MkSink (data w ++ readable r) (unflushed (forwarded r w)) false (S (closes w))) ∧
  (pump_downstream r w).1 = PeerClosed ∧ data (pump_downstream r w).2 = data w ++ readable r ∧
  (readable r ≠ [] → unflushed (forwarded r w) = O ∧ unflushed (pump_downstream r w).2 = O).
Proof.
  intros Hb. split.
  - unfold pump_upstream. rewrite copy_flushing_sink by done. simpl.
    assert (data (forwarded r w) = data w ++ readable r ∧ broken (forwarded r w) = false ∧
            closes (forwarded r w) = closes w) as (-> & -> & ->).
    { unfold forwarded. by destruct (readable r); rewrite ?app_nil_r. }
    by destruct (read_error r).
  - assert (∀ w, broken w = false → (pump_downstream r w).1 = PeerClosed ∧
      data (pump_downstream r w).2 = data w ++ readable r ∧
      (readable r ≠ [] → unflushed (pump_downstream r w).2 = O) ∧
      (readable r = [] → unflushed w = O → unflushed (pump_downstream r w).2 = O)) as Hdown.
    { clear. induction r as [|[[|b chunk]|e] r IH]; intros w Hb; [by rewrite app_nil_r..| |].
      - cbn [pump_downstream readable]. rewrite write_flush_sink by done.
        destruct (IH (MkSink (data w ++ b :: chunk) 0 (broken w) (closes w)) Hb) as (E1 & E2 & E3 & E4).
        rewrite E1, E2. simpl data. rewrite <- app_assoc. split_and!; [done..| |done]. intros _.
        destruct (decide (readable r = [])); [by apply E4|by apply E3].
      - cbn [pump_downstream readable]. case_decide; [by apply IH|]. simpl. by rewrite app_nil_r. }
    destruct (Hdown w Hb) as (E1 & E2 & E3 & _). split_and!; [done..|]. intros Hne.
    split; [|auto]. unfold forwarded. by destruct (readable r).
Qed.

Lemma pumps_forward_every_byte_witness :
  let r := [Ok (bs "ab"); Err (error_of_kind Interrupted); Ok (bs "c"); Ok []; Ok (bs "late")] in
  pump_upstream r empty_sink = (Ok tt, MkSink (bs "abc") 0 false 1).
Proof.
  intros r. destruct (pumps_forward_every_byte r empty_sink eq_refl) as [H _]. rewrite H. reflexivity.
Defined.
End Pumps.

(** ** Requests and their replies *)

Module Settling.
Import Outstanding.

Section use.
Context {K : Type} `{Countable K}.

(** What the threads of a session do. A guard is dropped by the thread that holds
    it, and a waiter holds the lock again only after it has registered. *)
Inductive op :=
| Begin (k : K)
| Settle (e : Z) (k : K)
| Clear
| Fail
| DropFailing
| Transition
| DropTransition
| Register
| Poll.

(** The state, and what it stands for: the requests of this epoch that were
    tracked and not settled, those that did not fit, and the guards alive. *)
Record sys := Sys { st : t K; pending : list K; untracked : list K; guards : nat; moves : nat }.

Definition start : sys := Sys new [] [] 0 0.

(** A reply settles one request with its key. *)
Fixpoint remove_one (k : K) (l : list K) : list K :=
  match l with [] => [] | x :: l => if decide (x = k) then l else x :: remove_one k l end.

Definition exec (capacity : nat) (s : sys) (x : op) : sys :=
  match x with
  | Begin k =>
      if decide (length (pending s) < capacity)%nat
      then Sys (begin capacity k (st s)) (k :: pending s) (untracked s) (guards s) (moves s)
      else Sys (begin capacity k (st s)) (pending s) (k :: untracked s) (guards s) (moves s)
  | Settle e k =>
      Sys (settle e k (st s)) (if decide (e = epoch (st s)) then remove_one k (pending s) else pending s)
          (untracked s) (guards s) (moves s)
  | Clear => Sys (clear (st s)) [] [] (guards s) (moves s)
  | Fail => Sys (fail (st s)).2 [] [] (S (guards s)) (moves s)
  | DropFailing =>
      match guards s with
      | O => s
      | S n => Sys (drop_failing (st s)) (pending s) (untracked s) n (moves s)
      end
  | Transition => Sys (transition (st s)) (pending s) (untracked s) (guards s) (S (moves s))
  | DropTransition =>
      match moves s with
      | O => s
      | S n => Sys (drop_transition (st s)) (pending s) (untracked s) (guards s) n
      end
  | Register => Sys (register (st s)) (pending s) (untracked s) (guards s) (moves s)
  | Poll =>
      if decide (waiters (st s) = O) then s
      else Sys (poll_settled (st s)).2 (pending s) (untracked s) (guards s) (moves s)
  end.

Definition run (capacity : nat) : sys → list op → sys := foldl (exec capacity).

Definition occurrences (k : K) (l : list K) : nat := length (filter (λ x, x = k) l).

Record sound (s : sys) : Prop := {
  sound_keys : ∀ k, default O (keys (st s) !! k) = occurrences k (pending s);
  sound_positive : ∀ k c, keys (st s) !! k = Some c → (0 < c)%nat;
  sound_tracked : tracked (st s) = length (pending s);
  sound_overflow : overflowed (st s) = bool_decide (untracked s ≠ []);
  sound_failing : failing (st s) = guards s;
  sound_moving : transitions (st s) = moves s;
}.

Lemma wake_same (x : t K) :
  keys (wake_if_settled x) = keys x ∧ tracked (wake_if_settled x) = tracked x ∧
  overflowed (wake_if_settled x) = overflowed x ∧ failing (wake_if_settled x) = failing x ∧
  transitions (wake_if_settled x) = transitions x ∧ waiters (wake_if_settled x) = waiters x ∧
  settled (wake_if_settled x) = settled x ∧ (notified x ≤ notified (wake_if_settled x))%nat.
Proof. unfold wake_if_settled. destruct (must_wake x); simpl; split_and!; done || lia. Qed.

Lemma sound_wake x p u g m : sound (Sys x p u g m) → sound (Sys (wake_if_settled x) p u g m).
Proof.
  intros [H1 H2 H3 H4 H5 H6]. destruct (wake_same x) as (E1 & E2 & E3 & E4 & E5 & _). simpl in *.
  split; simpl; rewrite ?E1, ?E2, ?E3, ?E4, ?E5; done.
Qed.

Lemma occurrences_cons k x l :
  occurrences k (x :: l) = ((if decide (x = k) then 1 else 0) + occurrences k l)%nat.
Proof. unfold occurrences. rewrite filter_cons. case_decide; simpl; lia. Qed.

Lemma occurrences_remove k j l :
  occurrences j (remove_one k l) = (occurrences j l - (if decide (k = j) then 1 else 0))%nat.
Proof.
  induction l as [|x l IH]; simpl; [case_decide; done|].
  destruct (decide (x = k)) as [->|Hx].
  - rewrite occurrences_cons. repeat case_decide; done || lia.
  - rewrite !occurrences_cons, IH. repeat case_decide; congruence || lia.
Qed.

Lemma length_remove k l : (0 < occurrences k l)%nat → length (remove_one k l) = (length l - 1)%nat.
Proof.
  induction l as [|x l IH]; [done|]. rewrite occurrences_cons. simpl. case_decide; [lia|].
  intros Ho. simpl. rewrite IH by lia. destruct l; [simpl in Ho; unfold occurrences in Ho; simpl in Ho; lia|simpl; lia].
Qed.

Lemma length_remove_le k l : (length (remove_one k l) ≤ length l)%nat.
Proof. induction l as [|x l IH]; simpl; [lia|]. destruct (decide (x = k)); simpl; lia. Qed.

Lemma remove_absent k l : occurrences k l = O → remove_one k l = l.
Proof.
  induction l as [|x l IH]; [done|]. rewrite occurrences_cons. simpl. case_decide; [lia|].
  intros Ho. rewrite IH by lia. done.
Qed.

Lemma sound_settle s e k p :
  sound s → p = (if decide (e = epoch (st s)) then remove_one k (pending s) else pending s) →
  sound (Sys (settle e k (st s)) p (untracked s) (guards s) (moves s)).
Proof.
  intros Hs ->. pose proof Hs as [H1 H2 H3 H4 H5 H6]. unfold settle. case_decide as He.
  { rewrite decide_False by done. by destruct s. }
  rewrite decide_True by done. specialize (H1 k) as Hk.
  destruct (keys (st s) !! k) as [c|] eqn:Ek; simpl in Hk.
  - specialize (H2 k c Ek). apply sound_wake. split; simpl; try done.
    + intros j. rewrite occurrences_remove. destruct (decide (k = j)) as [->|Hkj].
      * destruct (decide (c - 1 = 0)%nat); [rewrite lookup_delete_eq|rewrite lookup_insert_eq]; simpl; lia.
      * destruct (decide (c - 1 = 0)%nat); [rewrite lookup_delete_ne by done|rewrite lookup_insert_ne by done];
          rewrite H1; lia.
    + intros j c' Hj. destruct (decide (c - 1 = 0)%nat).
      * apply lookup_delete_Some in Hj as [_ Hj]. by apply (sound_positive s Hs j).
      * destruct (decide (k = j)) as [->|Hkj].
        { rewrite lookup_insert_eq in Hj. simplify_eq. lia. }
        rewrite lookup_insert_ne in Hj by done. by apply (sound_positive s Hs j).
    + rewrite length_remove, H3 by lia. done.
  - rewrite remove_absent by done. by destruct s.
Qed.

Lemma settling_sound_exec capacity s x : sound s → sound (exec capacity s x).
Proof.
  intros Hs. pose proof Hs as [H1 H2 H3 H4 H5 H6].
  destruct x as [k|e k| | | | | | |]; simpl.
  - unfold begin. rewrite H3. case_decide; split; simpl; try done.
    + intros j. rewrite occurrences_cons. destruct (decide (k = j)) as [->|Hkj].
      * rewrite lookup_insert_eq. simpl. by rewrite H1.
      * rewrite lookup_insert_ne by done. by rewrite H1.
    + intros j c Hj. destruct (decide (k = j)) as [->|Hkj].
      * rewrite lookup_insert_eq in Hj. simplify_eq. lia.
      * rewrite lookup_insert_ne in Hj by done. eauto.
  - by apply sound_settle.
  - apply sound_wake. split; done.
  - split; simpl; try done. by rewrite H5.
  - destruct (guards s) as [|n] eqn:Eg; [by destruct s|]. apply sound_wake. split; simpl; try done. rewrite H5. lia.
  - split; simpl; try done. by rewrite H6.
  - destruct (moves s) as [|n] eqn:Eg; [by destruct s|]. apply sound_wake. split; simpl; try done. rewrite H6. lia.
  - by split.
  - case_decide; [done|]. unfold poll_settled. destruct (settled (st s)); by split.
Qed.

Lemma settling_run_sound capacity ops : sound (run capacity start ops).
Proof.
  unfold run. induction ops as [|x ops IH] using rev_ind.
  - split; done.
  - rewrite foldl_app. by apply settling_sound_exec.
Qed.

Lemma keys_empty_iff s : sound s → keys (st s) = ∅ ↔ pending s = [].
Proof.
  intros [H1 H2 _ _ _ _]. split.
  - intros E. destruct (pending s) as [|k l] eqn:Ep; [done|]. specialize (H1 k).
    rewrite E, lookup_empty, occurrences_cons, decide_True in H1 by done. simpl in H1. lia.
  - intros E. apply map_eq. intros k. rewrite lookup_empty. specialize (H1 k). rewrite E in H1.
    destruct (keys (st s) !! k) as [c|] eqn:Ek; [|done]. specialize (H2 k c Ek). simpl in H1. unfold occurrences in H1. simpl in H1. lia.
Qed.

(** C38: the session counts as settled exactly when no request of this epoch is
    outstanding, none was sent beyond the capacity, no failures are still being
    reported and no transition is in progress: every request sent was settled by a
    reply of its own, failed or cleared. A reply from before the last failure or
    clearing settles nothing. *)
Theorem settled_means_answered capacity ops :
  let s := run capacity start ops in
  (settled (st s) = true ↔ pending s = [] ∧ untracked s = [] ∧ guards s = O ∧ moves s = O) ∧
  (tracked (st s) ≤ capacity)%nat ∧
  ∀ e k, e ≠ epoch (st s) → settle e k (st s) = st s.
Proof.
  intros s. pose proof (settling_run_sound capacity ops) as Hs. fold s in Hs. split_and!.
  - unfold settled. pose proof (keys_empty_iff s Hs) as Hk. destruct Hs as [_ _ _ H4 H5 H6].
    rewrite H4, H5, H6. rewrite !andb_true_iff, negb_true_iff, bool_decide_eq_false, !bool_decide_eq_true, Hk.
    split; [|naive_solver]. intros [[[Hu ?] ?] ?]. apply dec_stable in Hu. done.
  - rewrite (sound_tracked s Hs). subst s. unfold run. clear. induction ops as [|x ops IH] using rev_ind; [simpl; lia|].
    rewrite foldl_app. simpl. set (s := foldl (exec capacity) start ops) in *.
    destruct x; simpl; repeat case_match; simpl; try lia.
    pose proof (length_remove_le k (pending s)). lia.
  - intros e k He. unfold settle. by rewrite decide_True.
Qed.

(** The update that settles the session notifies its waiters. *)
Lemma settling_notifies capacity s x :
  (notified (st s) ≤ notified (st (exec capacity s x)))%nat ∧
  (settled (st s) = false → settled (st (exec capacity s x)) = true → (0 < waiters (st (exec capacity s x)))%nat →
     (notified (st s) < notified (st (exec capacity s x)))%nat).
Proof.
  assert (∀ y : t K, notified y = notified (st s) →
    (notified (st s) ≤ notified (wake_if_settled y))%nat ∧
    (settled (wake_if_settled y) = true → (0 < waiters (wake_if_settled y))%nat →
     (notified (st s) < notified (wake_if_settled y))%nat)) as Hwake.
  { intros y Hy. destruct (wake_same y) as (_ & _ & _ & _ & _ & -> & -> & Hle). split; [lia|].
    intros Hse Hw. unfold wake_if_settled, must_wake. rewrite Hse, bool_decide_eq_true_2 by done. simpl. lia. }
  destruct x as [k|e k| | | | | | |]; cbn [exec].
  - unfold begin. repeat case_decide; simpl; (split; [lia|]); unfold settled; simpl; intros Hf Ht; exfalso; bools; try done.
    all: apply bool_decide_eq_true in Ht || idtac.
    all: by match goal with H : <[_:=_]> _ = ∅ |- _ => apply insert_non_empty in H end.
  - cbn [st]. unfold settle. case_decide; [split; [lia|congruence]|]. destruct (keys (st s) !! k); [|split; [lia|congruence]].
    edestruct Hwake as [Hl Hn]; [|split; [exact Hl|intros _; exact Hn]]. done.
  - edestruct Hwake as [Hl Hn]; [|split; [exact Hl|intros _; exact Hn]]. done.
  - simpl. split; [lia|]. unfold settled. simpl. intros _ Ht. bools. done.
  - destruct (guards s); [split; [lia|congruence]|]. edestruct Hwake as [Hl Hn]; [|split; [exact Hl|intros _; exact Hn]]. done.
  - simpl. split; [lia|]. unfold settled. simpl. intros _ Ht. bools. done.
  - destruct (moves s); [split; [lia|congruence]|]. edestruct Hwake as [Hl Hn]; [|split; [exact Hl|intros _; exact Hn]]. done.
  - simpl. split; [lia|]. unfold settled. simpl. congruence.
  - case_decide; [split; [lia|congruence]|]. unfold poll_settled. simpl.
    destruct (settled (st s)) eqn:E; simpl; split; try lia; unfold settled in *; simpl; congruence.
Qed.

(** A caller blocked in [wait_settled] is woken once the session is settled: for as
    long as it is registered, the step that settles the session notifies it. *)
Theorem settled_waiters_are_woken capacity s ops :
  settled (st s) = false → settled (st (run capacity s ops)) = true →
  (∀ pre, pre `prefix_of` ops → (0 < waiters (st (run capacity s pre)))%nat) →
  (notified (st s) < notified (st (run capacity s ops)))%nat.
Proof.
  revert s. induction ops as [|x ops IH]; intros s Hf Ht Hw; [simpl in Ht; congruence|]. simpl in *.
  destruct (settling_notifies capacity s x) as [Hle Hlt].
  assert (∀ pre, pre `prefix_of` ops → (0 < waiters (st (run capacity (exec capacity s x) pre)))%nat) as Hw'.
  { intros pre Hpre. apply (Hw (x :: pre)). by apply prefix_cons. }
  destruct (settled (st (exec capacity s x))) eqn:E.
  - assert (∀ s0, (notified (st s0) ≤ notified (st (run capacity s0 ops)))%nat) as Hmono.
    { clear. induction ops as [|y ops IH]; intros s0; simpl; [lia|].
      destruct (settling_notifies capacity s0 y) as [? _]. specialize (IH (exec capacity s0 y)). lia. }
    specialize (Hmono (exec capacity s x)). specialize (Hw' [] (prefix_nil _)). simpl in Hw'.
    specialize (Hlt Hf eq_refl Hw'). lia.
  - specialize (IH _ E Ht Hw'). lia.
Qed.
End use.
End Settling.
