(* ===== verification/Channel.v ===== *)
(** * The readiness channel (src/readiness/channel.rs)

    The daemon writes one message per line; the launcher's reader thread decodes
    them, whatever the reads make of the stream, and keeps what the daemon has said
    so far; waiters decide from that and the time. *)
From S2P Require Import Prelude Text Readiness Selection.

Definition MAX_MESSAGE : nat := 256.
Definition MAX_DETAIL : nat := MAX_MESSAGE - length (bs "progress ") - 1.

Module NotReady.
Inductive t := Died | Malformed | Silent.
#[global] Instance eq_dec : EqDecision t.
Proof. solve_decision. Defined.
End NotReady.

(** ** Wire format *)

Module Message.
Inductive t := Ready | Progress (detail : option bytes).
#[global] Instance eq_dec : EqDecision t.
Proof. solve_decision. Defined.
End Message.

Definition newline : byte := x0a.
Definition space : byte := x20.

Definition printable (l : bytes) : bool := forallb (λ b, (32 <=? byte_val b) && (byte_val b <=? 126)) l.

Definition parse (line : bytes) : option Message.t :=
  if decide (line = bs "ready") then Some Message.Ready else
  if decide (line = bs "progress") then Some (Message.Progress None) else
  detail ← strip_prefix (bs "progress ") line;
  if bool_decide (detail = []) || negb (printable detail) then None else
  if is_utf8 detail then Some (Message.Progress (Some detail)) else None.

Definition progress_line (detail : bytes) : io_result bytes :=
  if bool_decide (MAX_DETAIL < length detail)%nat || negb (printable detail)
  then Err (error_new InvalidInput "a progress detail is printable ASCII of at most MAX_DETAIL bytes")
  else Ok (bs "progress" ++ (match detail with [] => [] | _ => space :: detail end) ++ [newline]).

Definition ready_line : bytes := bs "ready" ++ [newline].

Module Step.
Inductive t := More | Message (m : Message.t) | Malformed.
End Step.

Module Decoder.
(** The state is the line so far. *)
Definition push (line : bytes) (b : byte) : Step.t * bytes :=
  if decide (b = newline) then
    (match parse line with Some m => Step.Message m | None => Step.Malformed end, [])
  else if decide (MAX_MESSAGE - 1 ≤ length line)%nat then (Step.Malformed, line)
  else (Step.More, line ++ [b]).
End Decoder.

(** ** State machine *)

Module State.
Inductive t := Waiting | Progressing | Ready | Died | Malformed.
#[global] Instance eq_dec : EqDecision t.
Proof. solve_decision. Defined.

Definition final (s : t) : bool :=
  match s with Ready | Died | Malformed => true | Waiting | Progressing => false end.
End State.

Module Event.
Inductive t := Progress | Ready | Malformed | Closed.
#[global] Instance eq_dec : EqDecision t.
Proof. solve_decision. Defined.
End Event.

Module Decision.
Inductive t := Ready | NotReady (reason : NotReady.t) | Wait (remaining : Z).
End Decision.

Module Tracker.
Record t := mk { state : State.t; last_message : Z }.

Definition default : t := mk State.Waiting 0.

Definition record (tr : t) (at_ : Z) (e : Event.t) : t :=
  if State.final (state tr) then tr else
  mk (match e with
      | Event.Progress => State.Progressing
      | Event.Ready => State.Ready
      | Event.Malformed => State.Malformed
      | Event.Closed => State.Died
      end) (Z.max (last_message tr) at_).

Definition decide (tr : t) (now silence : Z) : Decision.t :=
  match state tr with
  | State.Ready => Decision.Ready
  | State.Died => Decision.NotReady NotReady.Died
  | State.Malformed => Decision.NotReady NotReady.Malformed
  | State.Waiting | State.Progressing =>
      let until := dur_saturating_add (last_message tr) silence in
      if until <=? now then Decision.NotReady NotReady.Silent else Decision.Wait (until - now)
  end.
End Tracker.

(** ** The launcher's end *)

Module Inner.
Record t := mk {
  tracker : Tracker.t;
  version : Z;
  progress : Z;
  last_progress : option bytes;
}.

Definition default : t := mk Tracker.default 0 0 None.

(** [post]: [at_] is the time since the channel opened. Waiters are notified. *)
Definition post (i : t) (at_ : Z) (e : Event.t) (detail : option bytes) : t :=
  mk (Tracker.record (tracker i) at_ e) (wrap64 (version i + 1))
     (if bool_decide (e = Event.Progress) then wrap64 (progress i + 1) else progress i)
     (if bool_decide (e = Event.Progress) then detail else last_progress i).
End Inner.

Definition ends_channel (e : io_error) : bool := negb (bool_decide (kind e = Interrupted)).

(** What one buffer of bytes makes the reader post; [None] is the line still open
    when it needs to read on. *)
Definition post_t : Type := Event.t * option bytes.

Fixpoint feed (line : bytes) (l : bytes) : list post_t * option bytes :=
  match l with
  | [] => ([], Some line)
  | b :: l =>
      match Decoder.push line b with
      | (Step.More, line) => feed line l
      | (Step.Message (Message.Progress detail), line) =>
          let '(posts, open) := feed line l in ((Event.Progress, detail) :: posts, open)
      | (Step.Message Message.Ready, _) => ([(Event.Ready, None)], None)
      | (Step.Malformed, _) => ([(Event.Malformed, None)], None)
      end
  end.

(** [read_messages]: what each read answers and whether the launcher had dropped
    its channel by then. A stream that ends answers an empty read. *)
Fixpoint read_messages (line : bytes) (reads : list (io_result bytes * bool)) : list post_t :=
  match reads with
  | [] => [(Event.Closed, None)]
  | (_, true) :: _ => []
  | (Ok [], false) :: _ => [(Event.Closed, None)]
  | (Ok l, false) :: reads =>
      match feed line l with
      | (posts, None) => posts
      | (posts, Some line) => posts ++ read_messages line reads
      end
  | (Err e, false) :: reads =>
      if ends_channel e then [(Event.Closed, None)] else read_messages line reads
  end.

(** ** Waiting *)

(** The world of a waiter: the reader thread changes what the channel has learned,
    and waiting on its condition variable lasts until a post or the time given. *)
Class ChannelWorld (W : Type) : Type := {
  inner : W → Inner.t;
  wait_timeout : Z → W → W;
}.

Section waiting.
Context {W : Type} `{Clock W, ChannelWorld W}.
Variable opened : Z.

(** [self.shared.opened.elapsed()]. *)
Definition since_opened (w : W) : Z * W := let '(t, w) := now w in (saturating_sub t opened, w).

(** [Channel::wait], cut off after [passes]. *)
Fixpoint channel_wait (passes : nat) (silence : Z) (w : W) : option (result NotReady.t unit) * W :=
  match passes with
  | O => (None, w)
  | S passes =>
      let '(t, w) := since_opened w in
      match Tracker.decide (Inner.tracker (inner w)) t silence with
      | Decision.Ready => (Some (Ok tt), w)
      | Decision.NotReady reason => (Some (Err reason), w)
      | Decision.Wait remaining => channel_wait passes silence (wait_timeout remaining w)
      end
  end.

Definition is_ready (w : W) : bool := bool_decide (Tracker.state (Inner.tracker (inner w)) = State.Ready).

Definition failure (silence : Z) (w : W) : option NotReady.t * W :=
  let '(t, w) := since_opened w in
  (match Tracker.decide (Inner.tracker (inner w)) t silence with
   | Decision.NotReady reason => Some reason
   | Decision.Ready | Decision.Wait _ => None
   end, w).

Definition quiet_for (i : Inner.t) (since now silence : Z) : option Z :=
  if bool_decide (Inner.version i ≠ since) then None else
  match Tracker.decide (Inner.tracker i) now silence with
  | Decision.Wait remaining => Some remaining
  | Decision.Ready | Decision.NotReady _ => None
  end.

Fixpoint wait_for_news (passes : nat) (since until silence : Z) (w : W) : W :=
  match passes with
  | O => w
  | S passes =>
      let '(t, w) := since_opened w in
      match quiet_for (inner w) since t silence with
      | None => w
      | Some quiet =>
          let '(t, w) := now w in
          let remaining := Z.min quiet (saturating_sub until t) in
          if remaining =? 0 then w else wait_for_news passes since until silence (wait_timeout remaining w)
      end
  end.

(** ** Selection evidence woken by the channel *)

Inductive SignaledError (E : Type) := EvidenceError (e : E) | NotReadyError (reason : NotReady.t).
Arguments EvidenceError {E} e.
Arguments NotReadyError {E} reason.

Context {P E : Type} `{!Evidence W P E}.
Variables (silence : Z) (passes : nat).

(** [Signaled] is the wrapped evidence's world and the version it has [seen]. *)
Definition signaled_committed (s : W * Z) : result (SignaledError E) bool * (W * Z) :=
  let '(r, w) := committed s.1 in (map_err EvidenceError r, (w, s.2)).

Definition signaled_probe (deadline : Z) (s : W * Z) : result (SignaledError E) (option P) * (W * Z) :=
  let seen := Inner.version (inner s.1) in
  match probe deadline s.1 with
  | (Err e, w) => (Err (EvidenceError e), (w, seen))
  | (Ok (Some proof), w) => (Ok (Some proof), (w, seen))
  | (Ok None, w) =>
      let '(reason, w) := failure silence w in
      (match reason with Some reason => Err (NotReadyError reason) | None => Ok None end, (w, seen))
  end.

Definition signaled_wait (until : Z) (s : W * Z) : W * Z :=
  let '(w, seen) := s in
  if bool_decide (Inner.version (inner w) ≠ seen) then (w, seen) else
  if is_ready w then (wait until w, seen)
  else (wait_for_news passes seen until silence w, seen).

(** The wrapper is evidence again: selection uses it as it uses the evidence it
    wraps. *)
#[global] Instance signaled : Evidence (W * Z) P (SignaledError E) := {
  committed := signaled_committed;
  probe := signaled_probe;
  wait := signaled_wait;
}.
End waiting.
Arguments EvidenceError {E} e.
Arguments NotReadyError {E} reason.

(** ** What the launcher reads is what the daemon wrote *)

(** The line of a detail [Notifier::progress] accepts. *)
Definition line_of (detail : bytes) : bytes :=
  bs "progress" ++ (match detail with [] => [] | _ => space :: detail end) ++ [newline].

Definition reportable (detail : bytes) : Prop := progress_line detail = Ok (line_of detail).

Definition report (detail : bytes) : post_t :=
  (Event.Progress, match detail with [] => None | _ => Some detail end).

Lemma reportable_iff detail :
  reportable detail ↔ (length detail ≤ MAX_DETAIL)%nat ∧ printable detail = true.
Proof.
  unfold reportable, progress_line. destruct (_ || _) eqn:E; bools.
  - split; [done|]. intros [Hl Hp]. destruct E as [E|E]; bools; [lia|congruence].
  - split; [|done]. intros _. split; [lia|done].
Qed.

Lemma printable_bytes detail b : printable detail = true → b ∈ detail → 32 ≤ byte_val b ≤ 126.
Proof.
  unfold printable. intros Hp Hb. rewrite forallb_forall in Hp.
  apply list_elem_of_In, Hp in Hb. bools. lia.
Qed.

Lemma printable_newline detail : printable detail = true → newline ∉ detail.
Proof. intros Hp Hin. apply (printable_bytes _ _ Hp) in Hin. change (byte_val newline) with 10 in Hin. lia. Qed.

Lemma printable_utf8 detail : printable detail = true → is_utf8 detail = true.
Proof.
  intros Hp. apply is_utf8_ascii. rewrite Forall_forall. intros b Hb.
  apply (printable_bytes _ _ Hp) in Hb. lia.
Qed.

(** The part of a line before its newline, and what it parses to. *)
Definition body_of (detail : bytes) : bytes :=
  bs "progress" ++ (match detail with [] => [] | _ => space :: detail end).

Lemma parse_body detail : printable detail = true →
  parse (body_of detail) = Some (Message.Progress (report detail).2).
Proof.
  intros Hp. unfold parse, body_of. destruct detail as [|b detail]; [done|].
  rewrite !decide_False by done.
  assert (strip_prefix (bs "progress ") (bs "progress" ++ space :: b :: detail) = Some (b :: detail)) as ->
    by (by apply strip_prefix_Some).
  cbn [mbind option_bind]. rewrite Hp, printable_utf8 by done. done.
Qed.

Lemma line_body detail rest : line_of detail ++ rest = body_of detail ++ newline :: rest.
Proof. unfold line_of, body_of. by rewrite <- !app_assoc. Qed.

Lemma body_fits detail :
  reportable detail → (newline ∉ body_of detail) ∧ (length (body_of detail) ≤ MAX_MESSAGE - 1)%nat.
Proof.
  rewrite reportable_iff. intros [Hl Hp]. unfold body_of. split.
  - rewrite not_elem_of_app. split; [by apply (bool_decide_unpack _)|].
    destruct detail; [apply not_elem_of_nil|]. apply not_elem_of_cons. split; [done|]. by apply printable_newline.
  - rewrite length_app. unfold MAX_DETAIL, MAX_MESSAGE in *. simpl in Hl.
    destruct detail; simpl in *; lia.
Qed.

Lemma feed_body line body rest :
  newline ∉ body → (length line + length body ≤ MAX_MESSAGE - 1)%nat →
  feed line (body ++ rest) = feed (line ++ body) rest.
Proof.
  revert line. induction body as [|b body IH]; intros line Hn Hl; [by rewrite app_nil_r|].
  apply not_elem_of_cons in Hn as [Hb Hn]. simpl in Hl. cbn [app feed]. unfold Decoder.push.
  rewrite decide_False by congruence. rewrite decide_False by (unfold MAX_MESSAGE in *; simpl in *; lia).
  rewrite IH; [by rewrite <- app_assoc|done|].
  rewrite length_app. unfold MAX_MESSAGE in *. simpl in *. lia.
Qed.

Lemma feed_line detail rest :
  reportable detail → feed [] (line_of detail ++ rest) = (report detail :: (feed [] rest).1, (feed [] rest).2).
Proof.
  intros Hr. destruct (body_fits _ Hr) as [Hn Hl]. rewrite line_body, feed_body by done.
  apply reportable_iff in Hr as [_ Hp]. cbn [app feed]. unfold Decoder.push.
  rewrite decide_True by done. rewrite parse_body by done. by destruct (feed [] rest).
Qed.

Lemma feed_lines details rest :
  Forall reportable details →
  feed [] (concat (line_of <$> details) ++ rest) = ((report <$> details) ++ (feed [] rest).1, (feed [] rest).2).
Proof.
  intros Hd. induction Hd as [|d details Hd _ IH]; [simpl; by destruct (feed [] rest)|].
  rewrite fmap_cons. cbn [concat]. rewrite <- app_assoc, feed_line by done. rewrite IH. done.
Qed.

(** How the reads split the stream does not matter. *)
Lemma feed_app line l l' :
  feed line (l ++ l') =
  match feed line l with
  | (posts, None) => (posts, None)
  | (posts, Some line) => (posts ++ (feed line l').1, (feed line l').2)
  end.
Proof.
  revert line. induction l as [|b l IH]; intros line; [simpl; by destruct (feed line l')|]. cbn [app feed].
  destruct (Decoder.push line b) as [[|[|d]|] line']; [apply IH|done| |done].
  rewrite IH. destruct (feed line' l) as [posts [o|]]; done.
Qed.

(** The bytes read before the stream ends or fails. *)
Fixpoint received (reads : list (io_result bytes)) : bytes :=
  match reads with
  | [] | Ok [] :: _ => []
  | Ok l :: reads => l ++ received reads
  | Err e :: reads => if ends_channel e then [] else received reads
  end.

Lemma read_messages_received line reads :
  read_messages line ((λ r, (r, false)) <$> reads) =
  match feed line (received reads) with
  | (posts, None) => posts
  | (posts, Some _) => posts ++ [(Event.Closed, None)]
  end.
Proof.
  revert line. induction reads as [|[[|b l]|e] reads IH]; intros line; [done..| |].
  - cbn [fmap list_fmap read_messages received]. rewrite feed_app.
    destruct (feed line (b :: l)) as [posts [line'|]]; [|done]. fold ((λ r, (r, false)) <$> reads).
    rewrite IH. destruct (feed line' (received reads)) as [posts' [o|]]; simpl; [by rewrite app_assoc|done].
  - cbn [fmap list_fmap read_messages received]. destruct (ends_channel e); [done|]. apply IH.
Qed.

(** C39: the launcher reads what the daemon wrote. Whatever progress a daemon
    reports, and however the reads split its bytes or are interrupted, the reader
    posts each report, with its detail, in order, and then that the daemon is
    ready, whatever follows, or, if the stream ends or fails instead, also in the
    middle of a message, that it died. *)
Theorem channel_delivers_reports (details : list bytes) (ended : bool) (rest : bytes) reads :
  Forall reportable details →
  received reads = concat (line_of <$> details) ++ (if ended then rest else ready_line ++ rest) →
  (ended = true → (newline ∉ rest) ∧ (length rest ≤ MAX_MESSAGE - 1)%nat) →
  read_messages [] ((λ r, (r, false)) <$> reads) =
    (report <$> details) ++ [(if ended then Event.Closed else Event.Ready, None)].
Proof.
  intros Hd Hr He. rewrite read_messages_received, Hr, feed_lines by done. destruct ended.
  - destruct He as [Hn Hl]; [done|]. rewrite <- (app_nil_r rest), feed_body by done. simpl.
    by rewrite app_nil_r.
  - assert (feed [] (ready_line ++ rest) = ([(Event.Ready, None)], None)) as -> by done. done.
Qed.

Lemma channel_delivers_reports_witness :
  read_messages [] ((λ r, (r, false)) <$>
    [Ok (bs "prog"); Err (error_of_kind Interrupted); Ok (bs "ress 1 of 2" ++ [newline] ++ bs "rea");
     Ok (bs "dy" ++ [newline] ++ bs "junk")])
  = [(Event.Progress, Some (bs "1 of 2")); (Event.Ready, None)].
Proof.
  apply (channel_delivers_reports [bs "1 of 2"] false (bs "junk")).
  - constructor; [vm_compute; reflexivity|constructor].
  - vm_compute. reflexivity.
  - discriminate.
Defined.

(** ** What waiters are told *)

Module Learning.
(** The events recorded, oldest first, with the times they were received at. *)
Definition tracked (evs : list (Z * Event.t)) : Tracker.t :=
  foldl (λ tr x, Tracker.record tr x.1 x.2) Tracker.default evs.

(** The first event that ends the wait. *)
Fixpoint first_final (evs : list (Z * Event.t)) : option Event.t :=
  match evs with
  | [] => None
  | (_, Event.Progress) :: evs => first_final evs
  | (_, e) :: _ => Some e
  end.

Definition latest (evs : list (Z * Event.t)) : Z := foldr (λ x m, Z.max x.1 m) 0 evs.

(** The answer, from what the daemon said. *)
Definition answer (evs : list (Z * Event.t)) (now silence : Z) : Decision.t :=
  match first_final evs with
  | Some Event.Ready => Decision.Ready
  | Some Event.Malformed => Decision.NotReady NotReady.Malformed
  | Some _ => Decision.NotReady NotReady.Died
  | None =>
      let until := dur_saturating_add (latest evs) silence in
      if until <=? now then Decision.NotReady NotReady.Silent else Decision.Wait (until - now)
  end.

Definition state_of (e : option Event.t) (tr : Tracker.t) : Prop :=
  match e with
  | Some Event.Ready => Tracker.state tr = State.Ready
  | Some Event.Malformed => Tracker.state tr = State.Malformed
  | Some _ => Tracker.state tr = State.Died
  | None => State.final (Tracker.state tr) = false
  end.

Lemma record_open tr t e : State.final (Tracker.state tr) = false →
  Tracker.record tr t e =
  Tracker.mk (match e with
    | Event.Progress => State.Progressing | Event.Ready => State.Ready
    | Event.Malformed => State.Malformed | Event.Closed => State.Died end)
    (Z.max (Tracker.last_message tr) t).
Proof. intros Hf. unfold Tracker.record. by rewrite Hf. Qed.

Lemma tracked_from evs tr :
  State.final (Tracker.state tr) = false → 0 ≤ Tracker.last_message tr →
  let tr' := foldl (λ tr x, Tracker.record tr x.1 x.2) tr evs in
  state_of (first_final evs) tr' ∧
  (first_final evs = None → Tracker.last_message tr' = Z.max (Tracker.last_message tr) (latest evs)).
Proof.
  revert tr. induction evs as [|[t e] evs IH]; intros tr Hf Hl; [simpl; split; [done|lia]|].
  cbn [foldl fst snd]. rewrite record_open by done.
  assert (∀ tr', State.final (Tracker.state tr') = true →
    foldl (λ tr x, Tracker.record tr x.1 x.2) tr' evs = tr') as Hstuck.
  { clear. induction evs as [|x evs IH]; intros tr' Hf; [done|]. simpl. unfold Tracker.record at 2.
    rewrite Hf. by apply IH. }
  destruct e; simpl.
  - destruct (IH (Tracker.mk State.Progressing (Z.max (Tracker.last_message tr) t))) as [Hs Hm]; [done|simpl; lia|].
    simpl in *. split; [done|]. intros Hnone. rewrite Hm by done. lia.
  - rewrite Hstuck by done. done.
  - rewrite Hstuck by done. done.
  - rewrite Hstuck by done. done.
Qed.

(** A waiter learns exactly what its daemon said: the first message that ends
    the wait decides, and nothing after it changes the answer; until there is one,
    only silence, counted from the latest message, ends the wait, and the time left
    is what remains of it. *)
Theorem waiters_learn_what_was_said evs now silence :
  Tracker.decide (tracked evs) now silence = answer evs now silence ∧
  ∀ more, first_final evs ≠ None → Tracker.decide (tracked (evs ++ more)) now silence = answer evs now silence.
Proof.
  assert (∀ evs, Tracker.decide (tracked evs) now silence = answer evs now silence) as Hdec.
  { intros l. destruct (tracked_from l Tracker.default) as [Hs Hl]; [done|simpl; lia|].
    fold (tracked l) in Hs, Hl. unfold answer, Tracker.decide.
    destruct (first_final l) as [[]|]; simpl in Hs; try (by rewrite Hs).
    rewrite Hl by done. assert (0 ≤ latest l) by (clear; induction l as [|x l IH]; simpl; lia).
    rewrite Z.max_r by (simpl; lia). by destruct (Tracker.state (tracked l)). }
  split; [apply Hdec|]. intros more Hf. rewrite Hdec. unfold answer.
  assert (first_final (evs ++ more) = first_final evs) as ->; [|by destruct (first_final evs)].
  induction evs as [|[t []] evs IH]; simpl in *; [done|by apply IH|done..].
Qed.
End Learning.
