(* ===== verification/ChannelWaits.v ===== *)
(** * Waiting on the readiness channel beside its reader (src/readiness/channel.rs)

    The reader thread posts what the daemon says and then notifies; a waiter, on a
    thread or on a Tokio runtime, decides from what was posted and sleeps until a
    notification or a time. Each is a sequence of steps, and the steps of the reader,
    the waiter and the clock come in any order. [Blocking] is the mutex and condition
    variable of the threads, [Async] the [tokio::sync::Notify] of the tasks. *)
From stdpp Require Import relations.
From S2P Require Import Prelude Channel.

(** What a waiter waits for: [Channel::wait] and [wait_async] until the daemon is
    ready or will not be, [wait_for_news] and its async form until there is news
    since a version, or a time. *)
Inductive aim := Answer (silence : Z) | News (since until silence : Z).

(** What it makes of the channel at [now], which like [until] counts from when the
    channel was opened: the end of its wait, or the longest time it may sleep. *)
Definition look (a : aim) (i : Inner.t) (now : Z) : option (result NotReady.t unit) + Z :=
  match a with
  | Answer silence =>
      match Tracker.decide (Inner.tracker i) now silence with
      | Decision.Ready => inl (Some (Ok tt))
      | Decision.NotReady reason => inl (Some (Err reason))
      | Decision.Wait remaining => inr remaining
      end
  | News since until silence =>
      match quiet_for i since now silence with
      | None => inl None
      | Some quiet =>
          let remaining := Z.min quiet (saturating_sub until now) in
          if remaining =? 0 then inl None else inr remaining
      end
  end.

(** A sleep: what the waiter saw, when it looked, how long it found it may sleep,
    and when the timer it set ends the sleep. *)
Record nap := mk_nap { saw : Inner.t; looked : Z; allowed : Z; timer : Z }.

(** The sleep of a waiter that looked at [now], at the time [clock]. *)
Definition nap_at (i : Inner.t) (now clock left : Z) : nap := mk_nap i now left (clock + left).

(** The thread of the reader between the two steps of [post]. *)
Inductive reader := Reading | MustNotify.

(** A waiter that may go on sleeping: until the time it found, it would find nothing
    to return if it looked at what was posted by now. *)
Definition may_sleep (a : aim) (i : Inner.t) (n : nap) : Prop :=
  ∀ now, looked n ≤ now < looked n + allowed n → ∃ left, look a i now = inr left ∧ 0 < left.

Lemma decide_later tr now later silence remaining :
  Tracker.decide tr now silence = Decision.Wait remaining → now ≤ later < now + remaining →
  Tracker.decide tr later silence = Decision.Wait (now + remaining - later).
Proof.
  unfold Tracker.decide. intros Hd Hl.
  destruct (Tracker.state tr); try done.
  all: destruct (_ <=? now) eqn:E; [done|]; injection Hd as <-.
  all: destruct (_ <=? later) eqn:E'; [lia|]; f_equal; lia.
Qed.

(** Nothing but the time changes what a waiter finds before its sleep is over. *)
Lemma looking_again a i now left tm : look a i now = inr left → may_sleep a i (mk_nap i now left tm).
Proof.
  intros Hl later Hlater; simpl in *.
  destruct a as [silence|since until silence]; simpl in *.
  - destruct (Tracker.decide _ now _) eqn:Hd; try done. injection Hl as ->.
    rewrite (decide_later _ _ _ _ _ Hd Hlater). eexists; split; [done|lia].
  - unfold quiet_for in *. case_bool_decide; [done|].
    destruct (Tracker.decide _ now _) as [| |remaining] eqn:Hd; try done.
    unfold saturating_sub in *.
    destruct (Z.eqb_spec (remaining `min` (0 `max` (until - now))) 0); [done|]. injection Hl as Hl.
    rewrite (decide_later _ _ later _ _ Hd) by lia.
    destruct (Z.eqb_spec ((now + remaining - later) `min` (0 `max` (until - later))) 0); [lia|].
    eexists; split; [done|lia].
Qed.

(** ** Threads: a mutex and a condition variable *)

Module Blocking.
(** A waiter that looked holds the lock until [wait_timeout] let go of it, so looking
    and going to sleep are one step. *)
Inductive waiter := Awake | Asleep (n : nap) | Returned (r : option (result NotReady.t unit)).

Record t := mk { inner : Inner.t; clock : Z; rd : reader; purpose : aim; wt : waiter }.

Definition start (a : aim) : t := mk Inner.default 0 Reading a Awake.

(** [Condvar::notify_all]. *)
Definition woken (w : waiter) : waiter := match w with Asleep _ => Awake | w => w end.

Inductive step (s : t) : t → Prop :=
| tick d : 0 ≤ d → step s (mk (inner s) (clock s + d) (rd s) (purpose s) (wt s))
| post at_ e detail : rd s = Reading → at_ ≤ clock s →
    step s (mk (Inner.post (inner s) at_ e detail) (clock s) MustNotify (purpose s) (wt s))
| notify_all : rd s = MustNotify → step s (mk (inner s) (clock s) Reading (purpose s) (woken (wt s)))
| returns now r : wt s = Awake → now ≤ clock s → look (purpose s) (inner s) now = inl r →
    step s (mk (inner s) (clock s) (rd s) (purpose s) (Returned r))
| sleeps now left : wt s = Awake → now ≤ clock s → look (purpose s) (inner s) now = inr left →
    step s (mk (inner s) (clock s) (rd s) (purpose s) (Asleep (nap_at (inner s) now (clock s) left)))
| times_out n : wt s = Asleep n → timer n ≤ clock s → step s (mk (inner s) (clock s) (rd s) (purpose s) Awake)
| wakes_early n : wt s = Asleep n → step s (mk (inner s) (clock s) (rd s) (purpose s) Awake)
| waits_again a r : wt s = Returned r → step s (mk (inner s) (clock s) (rd s) a Awake).

(** A sleeping waiter saw what is posted and may sleep, or will be notified. *)
Definition heard (s : t) : Prop :=
  ∀ n, wt s = Asleep n → rd s = Reading → saw n = inner s ∧ may_sleep (purpose s) (inner s) n.

Lemma threads_hear a s : rtc step (start a) s → heard s.
Proof.
  revert s. apply rtc_ind_r; [by intros ? [=]|]. intros s s' Hr Hstep IH.
  destruct Hstep; intros n' Hw Hrd; simpl in *; try done.
  - by apply IH.
  - by destruct (wt s).
  - injection Hw as <-. split; [done|]. by apply looking_again.
Qed.
End Blocking.

(** ** Tasks: a [tokio::sync::Notify] *)

Module Async.
(** The future of [notified] is made before the waiter looks and is first polled
    after it; [Notify::notify_one] wakes a future that was polled, and is kept as a
    permit for the next one otherwise. A notification that reached a future which
    is dropped before it ran becomes a permit again. *)
Inductive waiter :=
| Awake
| Armed (n : nap)
| Asleep (n : nap) (notified : bool)
| Returned (r : option (result NotReady.t unit))
| Cancelled.

Record t := mk { inner : Inner.t; clock : Z; permit : bool; rd : reader; purpose : aim; wt : waiter }.

Definition start (a : aim) : t := mk Inner.default 0 false Reading a Awake.

(** [notify_one]. *)
Definition notified (s : t) : t :=
  match wt s with
  | Asleep n false => mk (inner s) (clock s) (permit s) Reading (purpose s) (Asleep n true)
  | w => mk (inner s) (clock s) true Reading (purpose s) w
  end.

(** The first poll of the future takes a permit, or waits for a notification. *)
Definition first_polled (s : t) (n : nap) : t :=
  if permit s then mk (inner s) (clock s) false (rd s) (purpose s) Awake
  else mk (inner s) (clock s) false (rd s) (purpose s) (Asleep n false).

(** The future is dropped, and the waiter goes on as [w]. *)
Definition dropped (s : t) (w : waiter) : t :=
  mk (inner s) (clock s) (match wt s with Asleep _ true => true | _ => permit s end) (rd s) (purpose s) w.

(** A waiter whose sleep timed out looks again when it waits for an answer, and
    returns when it waits for news. *)
Definition after_timeout (a : aim) : waiter := match a with Answer _ => Awake | News _ _ _ => Returned None end.

Inductive step (s : t) : t → Prop :=
| tick d : 0 ≤ d → step s (mk (inner s) (clock s + d) (permit s) (rd s) (purpose s) (wt s))
| post at_ e detail : rd s = Reading → at_ ≤ clock s →
    step s (mk (Inner.post (inner s) at_ e detail) (clock s) (permit s) MustNotify (purpose s) (wt s))
| notify_one : rd s = MustNotify → step s (notified s)
| returns now r : wt s = Awake → now ≤ clock s → look (purpose s) (inner s) now = inl r →
    step s (mk (inner s) (clock s) (permit s) (rd s) (purpose s) (Returned r))
| arms now left : wt s = Awake → now ≤ clock s → look (purpose s) (inner s) now = inr left →
    step s (mk (inner s) (clock s) (permit s) (rd s) (purpose s) (Armed (nap_at (inner s) now (clock s) left)))
| first_poll n : wt s = Armed n → step s (first_polled s n)
| wakes n : wt s = Asleep n true → step s (mk (inner s) (clock s) (permit s) (rd s) (purpose s) Awake)
| times_out n b : wt s = Asleep n b → timer n ≤ clock s → step s (dropped s (after_timeout (purpose s)))
| is_cancelled : step s (dropped s Cancelled)
| waits_again a r : wt s = Returned r ∨ wt s = Cancelled →
    step s (mk (inner s) (clock s) (permit s) (rd s) a Awake).

(** A waiter that sleeps unnotified saw what is posted and may sleep, or will be
    notified; one about to sleep did, or finds a permit. *)
Definition heard (s : t) : Prop :=
  rd s = Reading →
  match wt s with
  | Armed n => permit s = true ∨ saw n = inner s ∧ may_sleep (purpose s) (inner s) n
  | Asleep n false => saw n = inner s ∧ may_sleep (purpose s) (inner s) n
  | _ => True
  end.

Lemma tasks_hear a s : rtc step (start a) s → heard s.
Proof.
  revert s. apply rtc_ind_r; [done|]. intros s s' Hr Hstep IH.
  destruct Hstep as [| | | |now left Hw Hn Hl|n Hw|n Hw|n b Hw Ht| |]; unfold heard in *; simpl; try done.
  - unfold notified. destruct (wt s) as [|n|n []| |]; simpl; auto.
  - intros _. right. split; [done|]. by apply looking_again.
  - rewrite Hw in IH. unfold first_polled. destruct (permit s); simpl; [done|]. naive_solver.
  - by destruct (purpose s).
Qed.
End Async.

(** C40: a waiter never sleeps through what it waits for. In every
    order of the reader's, the waiter's and the clock's steps, a waiter of
    [Channel::wait] and [wait_for_news] that is asleep while the reader owes no
    notification has seen all that was posted, and up to the time it found it may
    sleep it would find nothing to return. The same holds of the Tokio waiters:
    of one that is asleep and not notified, and of one about to sleep, unless a
    permit makes its first poll return at once, through cancellation and waiting
    again as well. *)
Theorem no_report_is_slept_through a :
  (∀ s n, rtc Blocking.step (Blocking.start a) s → Blocking.wt s = Blocking.Asleep n → Blocking.rd s = Reading →
     saw n = Blocking.inner s ∧ may_sleep (Blocking.purpose s) (Blocking.inner s) n) ∧
  (∀ s n, rtc Async.step (Async.start a) s → Async.rd s = Reading →
     Async.wt s = Async.Asleep n false ∨ Async.wt s = Async.Armed n ∧ Async.permit s = false →
     saw n = Async.inner s ∧ may_sleep (Async.purpose s) (Async.inner s) n).
Proof.
  split.
  - intros s n Hr Hw Hrd. by apply (Blocking.threads_hear a s Hr).
  - intros s n Hr Hrd Hw. specialize (Async.tasks_hear a s Hr Hrd) as Hh.
    destruct Hw as [Hw|[Hw Hp]]; rewrite Hw in Hh; [done|]. rewrite Hp in Hh. by destruct Hh.
Qed.

(** A waiter that hears of progress while it looks away: it sleeps with nothing
    posted, a progress message is posted and it is woken, it looks again and sleeps
    as long again; a Tokio waiter is notified between its look and its first poll,
    finds the permit, and then sleeps. *)
Lemma no_report_is_slept_through_witness :
  may_sleep (Answer 10) (Inner.post Inner.default 4 Event.Progress None)
    (mk_nap (Inner.post Inner.default 4 Event.Progress None) 4 10 14) ∧
  may_sleep (News 1 20 10) (Inner.post Inner.default 4 Event.Progress None)
    (mk_nap (Inner.post Inner.default 4 Event.Progress None) 4 10 14).
Proof.
  set (i := Inner.post Inner.default 4 Event.Progress None). split.
  - refine (proj2 (proj1 (no_report_is_slept_through (Answer 10))
      (Blocking.mk i 4 Reading (Answer 10) (Blocking.Asleep (mk_nap i 4 10 14))) _ _ eq_refl eq_refl)).
    apply (rtc_l _ _ (Blocking.mk Inner.default 0 Reading (Answer 10) (Blocking.Asleep (mk_nap Inner.default 0 10 10)))).
    { by apply (Blocking.sleeps (Blocking.start (Answer 10)) 0 10). }
    eapply rtc_l; [apply (Blocking.tick _ 4); lia|].
    eapply rtc_l; [apply (Blocking.post _ 4 Event.Progress None); simpl; [done|lia]|].
    eapply rtc_l; [by apply Blocking.notify_all|].
    apply rtc_once. by apply (Blocking.sleeps (Blocking.mk i 4 Reading (Answer 10) Blocking.Awake) 4 10).
  - refine (proj2 (proj2 (no_report_is_slept_through (News 0 20 10))
      (Async.mk i 4 false Reading (News 1 20 10) (Async.Asleep (mk_nap i 4 10 14) false)) _ _ eq_refl (or_introl eq_refl))).
    eapply rtc_l; [by apply (Async.arms (Async.start (News 0 20 10)) 0 10)|].
    eapply rtc_l; [apply (Async.tick _ 4); lia|].
    eapply rtc_l; [apply (Async.post _ 4 Event.Progress None); simpl; [done|lia]|].
    eapply rtc_l; [by apply Async.notify_one|].
    eapply rtc_l; [by eapply Async.first_poll|].
    eapply rtc_l; [by apply (Async.returns (Async.mk i 4 false Reading (News 0 20 10) Async.Awake) 4 None)|].
    eapply rtc_l; [by eapply (Async.waits_again _ (News 1 20 10) None); left|].
    eapply rtc_l; [by apply (Async.arms (Async.mk i 4 false Reading (News 1 20 10) Async.Awake) 4 10)|].
    apply rtc_once. by eapply (Async.first_poll (Async.mk i 4 false Reading (News 1 20 10) (Async.Armed (mk_nap i 4 10 14)))).
Defined.
