(* ===== verification/Signaled.v ===== *)
(** * Selection evidence woken by the readiness channel (src/readiness/channel.rs)

    [Signaled] wraps the evidence of a selection with the channel of the daemon this
    launcher started. [Channel] has its blocking operations; this file has the async
    ones, and what a selection with the wrapper is against one without it. *)
From S2P Require Import Prelude Selection Channel.

(** What a task has of the channel's [Notify]: [timeout(remaining, notified).await],
    [true] when it was notified and [false] when the time elapsed first. *)
Class ChannelTask (W : Type) : Type := {
  notified_within : Z → W → bool * W;
}.

Section tasks.
Context {W P E : Type} `{Clock W, !ChannelWorld W, !ChannelTask W}.
Variables (opened silence : Z) (passes : nat).

(** [Channel::wait_async], cut off after [passes]. *)
Fixpoint wait_async (passes : nat) (w : W) : option (result NotReady.t unit) * W :=
  match passes with
  | O => (None, w)
  | S passes =>
      let '(t, w) := since_opened opened w in
      match Tracker.decide (Inner.tracker (inner w)) t silence with
      | Decision.Ready => (Some (Ok tt), w)
      | Decision.NotReady reason => (Some (Err reason), w)
      | Decision.Wait remaining => wait_async passes (notified_within remaining w).2
      end
  end.

Fixpoint wait_for_news_async (passes : nat) (since until : Z) (w : W) : W :=
  match passes with
  | O => w
  | S passes =>
      let '(t, w) := since_opened opened w in
      match quiet_for (inner w) since t silence with
      | None => w
      | Some quiet =>
          let '(t, w) := now w in
          let remaining := Z.min quiet (saturating_sub until t) in
          if remaining =? 0 then w else
          match notified_within remaining w with
          | (true, w) => wait_for_news_async passes since until w
          | (false, w) => w
          end
      end
  end.

Context (committed : W → result E bool * W)
  (probe_until : Z → W → option (result E (option P)) * W) (wait : Z → W → W).

(** [AsyncEvidence::committed] of [Signaled]. *)
Definition signaled_committed_async (s : W * Z) : result (SignaledError E) bool * (W * Z) :=
  let '(r, w) := committed s.1 in (map_err EvidenceError r, (w, s.2)).

(** [AsyncEvidence::probe] of [Signaled] under the selection's [timeout_at]: the
    wrapped probe is its only suspension, so a timeout ends it there. *)
Definition signaled_probe_until (deadline : Z) (s : W * Z) :
    option (result (SignaledError E) (option P)) * (W * Z) :=
  let seen := Inner.version (inner s.1) in
  match probe_until deadline s.1 with
  | (None, w) => (None, (w, seen))
  | (Some (Err e), w) => (Some (Err (EvidenceError e)), (w, seen))
  | (Some (Ok (Some proof)), w) => (Some (Ok (Some proof)), (w, seen))
  | (Some (Ok None), w) =>
      let '(reason, w) := failure opened silence w in
      (Some (match reason with Some reason => Err (NotReadyError reason) | None => Ok None end), (w, seen))
  end.

(** [AsyncEvidence::wait] of [Signaled]. *)
Definition signaled_wait_async (until : Z) (s : W * Z) : W * Z :=
  let '(w, seen) := s in
  if bool_decide (Inner.version (inner w) ≠ seen) then (w, seen) else
  if is_ready w then (wait until w, seen)
  else (wait_for_news_async passes seen until w, seen).
End tasks.

(** ** A selection without the channel *)

Section wrapped.
Context {W P E : Type} `{Clock W, !ChannelWorld W}.

(** A probe, and a reading of the clock when it proved nothing: what the wrapper
    adds to a probe while the daemon has said it is ready. *)
Definition then_looks (probe : Z → W → result E (option P) * W) (deadline : Z) (w : W) :
    result E (option P) * W :=
  match probe deadline w with
  | (Ok None, w) => (Ok None, (now w).2)
  | r => r
  end.

Definition then_looks_async (probe_until : Z → W → option (result E (option P)) * W)
    (deadline : Z) (w : W) : option (result E (option P)) * W :=
  match probe_until deadline w with
  | (Some (Ok None), w) => (Some (Ok None), (now w).2)
  | r => r
  end.

(** What a selection with the wrapper makes of an answer of one without it. *)
Definition lifted {A} (r : result E A * W) (seen : Z) : result (SignaledError E) A * (W * Z) :=
  (map_err EvidenceError r.1, (r.2, seen)).

Variables (opened silence : Z).

(** The daemon has said it is ready; its reader has ended, so nothing is posted any
    more, whatever the evidence does. *)
Record settled (i : Inner.t) (committed : W → result E bool * W) (wait : Z → W → W)
    {A} (probe : Z → W → A * W) : Prop := {
  settled_ready : Tracker.state (Inner.tracker i) = State.Ready;
  settled_now w : inner w = i → inner (now w).2 = i;
  settled_committed w : inner w = i → inner (committed w).2 = i;
  settled_probe u w : inner w = i → inner (probe u w).2 = i;
  settled_wait u w : inner w = i → inner (wait u w) = i;
}.

Section lift.
Variables (i : Inner.t) (committed : W → result E bool * W) (wait : Z → W → W)
  (attempt : Z → W → result E (option P) * W)
  (committed' : W * Z → result (SignaledError E) bool * (W * Z)) (wait' : Z → W * Z → W * Z)
  (attempt' : Z → W * Z → result (SignaledError E) (option P) * (W * Z)).
Hypothesis now_keeps : ∀ w, inner w = i → inner (now w).2 = i.
Hypothesis committed_keeps : ∀ w, inner w = i → inner (committed w).2 = i.
Hypothesis wait_keeps : ∀ u w, inner w = i → inner (wait u w) = i.
Hypothesis attempt_keeps : ∀ u w, inner w = i → inner (attempt u w).2 = i.
Hypothesis committed_lifts : ∀ w seen, inner w = i → committed' (w, seen) = lifted (committed w) seen.
Hypothesis attempt_lifts : ∀ u w seen, inner w = i →
  attempt' u (w, seen) = lifted (attempt u w) (Inner.version i).
Hypothesis wait_lifts : ∀ u w, inner w = i →
  wait' u (w, Inner.version i) = (wait u w, Inner.version i).

Lemma round_lifts start watch w seen : inner w = i →
  let '(v, w') := round committed wait attempt start watch w in
  inner w' = i ∧ ∃ seen', round committed' wait' attempt' start watch (w, seen) =
    (match v with inl r => inl (map_err EvidenceError r) | inr watch => inr watch end, (w', seen')).
Proof.
  intros Hi. unfold round. rewrite (committed_lifts w seen Hi).
  pose proof (committed_keeps w Hi) as Hi1. unfold lifted.
  destruct (committed w) as [[c|e] w1]; simpl in *; [|by eauto].
  pose proof (now_keeps w1 Hi1) as Hi2. destruct (now w1) as [t w2]; simpl in *.
  set (watch1 := Watch.record watch (saturating_sub t start) c).
  rewrite (attempt_lifts (start + Watch.until watch1) w2 seen Hi2).
  pose proof (attempt_keeps (start + Watch.until watch1) w2 Hi2) as Hi3. unfold lifted.
  destruct (attempt _ w2) as [[proof|e] w3]; simpl in *; [|by eauto].
  pose proof (now_keeps w3 Hi3) as Hi4. destruct (now w3) as [t' w4]; simpl in *.
  destruct (Watch.decide _ _ _); [by destruct proof; eauto|by eauto..|].
  rewrite wait_lifts by done. split; [by apply wait_keeps|by eauto].
Qed.

Lemma rounds_lift fuel start watch w seen : inner w = i →
  let '(v, w') := rounds committed wait attempt fuel start watch w in
  ∃ seen', rounds committed' wait' attempt' fuel start watch (w, seen) = (map_err EvidenceError <$> v, (w', seen')).
Proof.
  revert watch w seen. induction fuel as [|fuel IH]; intros watch w seen Hi; simpl; [by eauto|].
  pose proof (round_lifts start watch w seen Hi) as Hr.
  destruct (round committed wait attempt start watch w) as [[r|watch'] w1], Hr as [Hi1 [seen1 ->]]; [by eauto|].
  by apply IH.
Qed.
End lift.

Lemma failure_ready i w : Tracker.state (Inner.tracker i) = State.Ready → inner (now w).2 = i →
  failure opened silence w = (None, (now w).2).
Proof.
  unfold failure, since_opened. intros Hs Hi. destruct (now w) as [t w']; simpl in *.
  by rewrite Hi; unfold Tracker.decide; rewrite Hs.
Qed.

Lemma in_time_keeps i (proof : option P) u (w : W) :
  (∀ w, inner w = i → inner (now w).2 = i) → inner w = i → inner (in_time proof u w).2 = i.
Proof.
  intros Hn Hi. unfold in_time. destruct proof; [|done].
  specialize (Hn w Hi). by destruct (now w).
Qed.

Lemma in_time_lifts (proof : option P) u (w : W) (seen : Z) :
  in_time proof u (w, seen) = ((in_time proof u w).1, ((in_time proof u w).2, seen)).
Proof. unfold in_time. destruct proof; [|done]. simpl. by destruct (now w). Qed.

Section blocking.
Context `{!Evidence W P E}.
Variables (i : Inner.t) (passes : nat).
Hypothesis Hsettled : settled i committed wait probe.

Lemma looks_keeps u w : inner w = i → inner (attempt (then_looks probe) u w).2 = i.
Proof.
  intros Hi. unfold attempt, then_looks. pose proof (settled_probe _ _ _ _ Hsettled u w Hi) as Hp.
  pose proof (λ w, settled_now _ _ _ _ Hsettled w) as Hn.
  destruct (probe u w) as [[[p|]|e] w1]; simpl in Hp; [|by apply Hn|done].
  pose proof (in_time_keeps i (Some p) u w1 Hn Hp). by destruct (in_time (Some p) u w1).
Qed.

Lemma looks_lifts u w seen : inner w = i →
  attempt (signaled_probe opened silence) u (w, seen) = lifted (attempt (then_looks probe) u w) (Inner.version i).
Proof.
  intros Hi. unfold attempt, then_looks, signaled_probe, lifted. simpl. rewrite Hi.
  pose proof (settled_probe _ _ _ _ Hsettled u w Hi) as Hp.
  destruct (probe u w) as [[[p|]|e] w1]; [| |done].
  - rewrite in_time_lifts. by destruct (in_time (Some p) u w1).
  - simpl in Hp. rewrite (failure_ready i); [done| |by apply (settled_now _ _ _ _ Hsettled)].
    apply (settled_ready _ _ _ _ Hsettled).
Qed.

Lemma waits_lift u w : inner w = i →
  signaled_wait opened silence passes u (w, Inner.version i) = (wait u w, Inner.version i).
Proof.
  intros Hi. unfold signaled_wait, is_ready. rewrite Hi, bool_decide_false by naive_solver.
  by rewrite bool_decide_true by apply (settled_ready _ _ _ _ Hsettled).
Qed.

Lemma blocking_lifts fuel budget w seen : inner w = i →
  let '(v, w') := await_selection committed wait (then_looks probe) fuel budget w in
  ∃ seen', await_selection signaled_committed (signaled_wait opened silence passes)
      (signaled_probe opened silence) fuel budget (w, seen) = (map_err EvidenceError <$> v, (w', seen')).
Proof.
  intros Hi. unfold await_selection. simpl. pose proof (settled_now _ _ _ _ Hsettled w Hi) as Hi1.
  destruct (now w) as [t w1]. destruct Hsettled.
  apply (rounds_lift i); eauto using looks_keeps, looks_lifts, waits_lift.
  intros. unfold signaled_committed, lifted. simpl. by destruct (committed _).
Qed.
End blocking.

Section async.
Context `{!ChannelTask W}.
Variables (i : Inner.t) (passes : nat) (committed : W → result E bool * W)
  (probe_until : Z → W → option (result E (option P)) * W) (wait : Z → W → W).
Hypothesis Hsettled : settled i committed wait probe_until.

Lemma looks_async_keeps u w : inner w = i → inner (attempt_async (then_looks_async probe_until) u w).2 = i.
Proof.
  intros Hi. unfold attempt_async, then_looks_async. pose proof (settled_probe _ _ _ _ Hsettled u w Hi) as Hp.
  pose proof (λ w, settled_now _ _ _ _ Hsettled w) as Hn.
  destruct (probe_until u w) as [[[[p|]|e]|] w1]; simpl in Hp; [|by apply Hn|done..].
  pose proof (in_time_keeps i (Some p) u w1 Hn Hp). by destruct (in_time (Some p) u w1).
Qed.

Lemma looks_async_lifts u w seen : inner w = i →
  attempt_async (signaled_probe_until opened silence probe_until) u (w, seen) =
    lifted (attempt_async (then_looks_async probe_until) u w) (Inner.version i).
Proof.
  intros Hi. unfold attempt_async, then_looks_async, signaled_probe_until, lifted. simpl. rewrite Hi.
  pose proof (settled_probe _ _ _ _ Hsettled u w Hi) as Hp.
  destruct (probe_until u w) as [[[[p|]|e]|] w1]; [| |done..].
  - rewrite in_time_lifts. by destruct (in_time (Some p) u w1).
  - simpl in Hp. rewrite (failure_ready i); [done| |by apply (settled_now _ _ _ _ Hsettled)].
    apply (settled_ready _ _ _ _ Hsettled).
Qed.

Lemma waits_async_lift u w : inner w = i →
  signaled_wait_async opened silence passes wait u (w, Inner.version i) = (wait u w, Inner.version i).
Proof.
  intros Hi. unfold signaled_wait_async, is_ready. rewrite Hi, bool_decide_false by naive_solver.
  by rewrite bool_decide_true by apply (settled_ready _ _ _ _ Hsettled).
Qed.

Lemma async_lifts fuel budget w seen : inner w = i →
  let '(v, w') := await_selection_async committed wait (then_looks_async probe_until) fuel budget w in
  ∃ seen', await_selection_async (signaled_committed_async committed)
      (signaled_wait_async opened silence passes wait) (signaled_probe_until opened silence probe_until)
      fuel budget (w, seen) = (map_err EvidenceError <$> v, (w', seen')).
Proof.
  intros Hi. unfold await_selection_async. simpl. pose proof (settled_now _ _ _ _ Hsettled w Hi) as Hi1.
  destruct (now w) as [t w1]. destruct Hsettled.
  apply (rounds_lift i); eauto using looks_async_keeps, looks_async_lifts, waits_async_lift.
  intros. unfold signaled_committed_async, lifted. simpl. by destruct (committed _).
Qed.
End async.
End wrapped.

(** ** What the channel may decide *)

Section failing.
Context {W P E : Type} `{Clock W, !ChannelWorld W}.

(** An error of a selection is an error of its last question. *)
Lemma rounds_err (committed : W → result E bool * W) (wait : Z → W → W)
    (attempt : Z → W → result E (option P) * W) fuel start watch w e w' :
  rounds committed wait attempt fuel start watch w = (Some (Err e), w') →
  (∃ w1, committed w1 = (Err e, w')) ∨ ∃ u w1, attempt u w1 = (Err e, w').
Proof.
  revert watch w. induction fuel as [|fuel IH]; intros watch w; simpl; [done|].
  unfold round. destruct (committed w) as [[c|e1] w1] eqn:Hc; [|naive_solver].
  destruct (now w1) as [t w2]. destruct (attempt _ w2) as [[proof|e2] w3] eqn:Ha; [|naive_solver].
  destruct (now w3) as [t' w4]. destruct (Watch.decide _ _ _); [destruct proof| | |]; naive_solver.
Qed.

(** The deadline of a round's probe, and the world the probe starts in. *)
Definition round_until (start : Z) (watch : Watch.t) (c : bool) (w1 : W) : Z :=
  start + Watch.until (Watch.record watch (saturating_sub (now w1).1 start) c).

Lemma rounds_fail (committed : W → result E bool * W) (wait : Z → W → W)
    (attempt : Z → W → result E (option P) * W) fuel start watch w c w1 e w2 :
  committed w = (Ok c, w1) → attempt (round_until start watch c w1) (now w1).2 = (Err e, w2) →
  rounds committed wait attempt (S fuel) start watch w = (Some (Err e), w2).
Proof.
  intros Hc Ha. simpl. unfold round, round_until in *. rewrite Hc.
  destruct (now w1) as [t w1']. cbn [fst snd] in Ha. by rewrite Ha.
Qed.

Lemma rounds_prove (committed : W → result E bool * W) (wait : Z → W → W)
    (attempt : Z → W → result E (option P) * W) fuel start watch w c w1 p w2 :
  committed w = (Ok c, w1) → attempt (round_until start watch c w1) (now w1).2 = (Ok (Some p), w2) →
  (rounds committed wait attempt (S fuel) start watch w).1 = Some (Ok (Selection.Current p)).
Proof.
  intros Hc Ha. simpl. unfold round, round_until in *. rewrite Hc.
  destruct (now w1) as [t w1']. cbn [fst snd] in Ha. rewrite Ha. by destruct (now w2).
Qed.
End failing.

Section reports.
Context {W P E : Type} `{Clock W, !ChannelWorld W}.
Variables (opened silence : Z).

Lemma signaled_attempt_err `{!Evidence W P E} u s reason s' :
  attempt (signaled_probe opened silence) u s = (Err (NotReadyError reason), s') ↔
  ∃ w, probe u s.1 = (Ok None, w) ∧ failure opened silence w = (Some reason, s'.1) ∧
    s'.2 = Inner.version (inner s.1).
Proof.
  unfold attempt, signaled_probe. destruct s' as [w' v]. simpl.
  destruct (probe u s.1) as [[[p|]|e] w].
  - destruct (in_time (Some p) u _). split; [done|by intros (? & ? & _)].
  - destruct (failure opened silence w) as [[r|] w1] eqn:Hf; simpl.
    + split; [intros [= -> -> <-]; eauto|intros (w2 & [= <-] & Hf' & ->)]. rewrite Hf in Hf'. by injection Hf' as -> ->.
    + split; [done|intros (w2 & [= <-] & Hf' & _)]. by rewrite Hf in Hf'.
  - split; [done|by intros (? & ? & _)].
Qed.

Lemma signaled_attempt_proves `{!Evidence W P E} u s p w :
  probe u s.1 = (Ok (Some p), w) → (now w).1 < u →
  (attempt (signaled_probe opened silence) u s).1 = Ok (Some p).
Proof.
  intros Hp Ht. unfold attempt, signaled_probe. rewrite Hp. rewrite in_time_lifts.
  unfold in_time. destruct (now w) as [t w']; simpl in *. by destruct (Z.ltb_spec t u); [|lia].
Qed.

Lemma signaled_attempt_async_err (probe_until : Z → W → option (result E (option P)) * W) u s reason s' :
  attempt_async (signaled_probe_until opened silence probe_until) u s = (Err (NotReadyError reason), s') ↔
  ∃ w, probe_until u s.1 = (Some (Ok None), w) ∧ failure opened silence w = (Some reason, s'.1) ∧
    s'.2 = Inner.version (inner s.1).
Proof.
  unfold attempt_async, signaled_probe_until. destruct s' as [w' v]. simpl.
  destruct (probe_until u s.1) as [[[[p|]|e]|] w].
  - destruct (in_time (Some p) u _). split; [done|by intros (? & ? & _)].
  - destruct (failure opened silence w) as [[r|] w1] eqn:Hf; simpl.
    + split; [intros [= -> -> <-]; eauto|intros (w2 & [= <-] & Hf' & ->)]. rewrite Hf in Hf'. by injection Hf' as -> ->.
    + split; [done|intros (w2 & [= <-] & Hf' & _)]. by rewrite Hf in Hf'.
  - split; [done|by intros (? & ? & _)].
  - split; [done|by intros (? & ? & _)].
Qed.
End reports.

(** Once the daemon said it is ready, the channel changes nothing about a
    selection. While the reader, which ends at [ready], posts nothing more, a
    blocking and an async selection whose evidence is wrapped with the channel end
    with the answer, the error and in the world of the selection without the
    channel, but that the clock is read once more after a probe without a proof. *)
Theorem a_ready_channel_adds_nothing {W P E} `{Clock W, !ChannelWorld W, !ChannelTask W}
    opened silence passes i fuel budget (w : W) seen :
  inner w = i →
  (∀ `{!Evidence W P E}, settled i committed wait probe →
    ∃ seen', await_selection signaled_committed (signaled_wait opened silence passes)
        (signaled_probe opened silence) fuel budget (w, seen) =
      let '(v, w') := await_selection committed wait (then_looks probe) fuel budget w in
      (map_err EvidenceError <$> v, (w', seen'))) ∧
  (∀ (committed : W → result E bool * W) (probe_until : Z → W → option (result E (option P)) * W) wait,
    settled i committed wait probe_until →
    ∃ seen', await_selection_async (signaled_committed_async committed)
        (signaled_wait_async opened silence passes wait) (signaled_probe_until opened silence probe_until)
        fuel budget (w, seen) =
      let '(v, w') := await_selection_async committed wait (then_looks_async probe_until) fuel budget w in
      (map_err EvidenceError <$> v, (w', seen'))).
Proof.
  intros Hi. split.
  - intros ev Hs. pose proof (blocking_lifts opened silence i passes Hs fuel budget w seen Hi) as Hl.
    by destruct (await_selection committed _ _ _ _ _).
  - intros c p wt Hs. pose proof (async_lifts opened silence i passes c p wt Hs fuel budget w seen Hi) as Hl.
    by destruct (await_selection_async c _ _ _ _ _).
Qed.

(** A channel fails a selection exactly when no probe of the round proved the
    daemon. Whatever the budget left, a round whose probe found no proof while the
    daemon died, broke the protocol or was silent for too long ends the selection
    with that reason; a selection that ends so asked a probe without a proof just
    before; and a proof in time wins over whatever the channel says. *)
Theorem a_failed_daemon_ends_the_selection {W P E} `{Clock W, !ChannelWorld W, !Evidence W P E}
    opened silence passes :
  let select := rounds signaled_committed (signaled_wait opened silence passes)
    (attempt (signaled_probe opened silence)) in
  (∀ fuel start watch s reason s', select fuel start watch s = (Some (Err (NotReadyError reason)), s') →
     ∃ u w1 w2, probe u w1 = (Ok None, w2) ∧ failure opened silence w2 = (Some reason, s'.1)) ∧
  (∀ fuel start watch w seen c w1 w2 reason w3, committed w = (Ok c, w1) →
     probe (round_until start watch c w1) (now w1).2 = (Ok None, w2) →
     failure opened silence w2 = (Some reason, w3) →
     ∃ seen', select (S fuel) start watch (w, seen) = (Some (Err (NotReadyError reason)), (w3, seen'))) ∧
  (∀ fuel start watch w seen c w1 w2 p, committed w = (Ok c, w1) →
     probe (round_until start watch c w1) (now w1).2 = (Ok (Some p), w2) →
     (now w2).1 < round_until start watch c w1 →
     (select (S fuel) start watch (w, seen)).1 = Some (Ok (Selection.Current p))).
Proof.
  split_and!.
  - intros fuel start watch s reason s' Hr. apply rounds_err in Hr as [[s1 Hc]|[u [s1 Ha]]].
    + unfold signaled_committed in Hc. destruct (committed s1.1) as [[]]; discriminate.
    + apply signaled_attempt_err in Ha as (w & Hp & Hf & _). eauto.
  - intros fuel start watch w seen c w1 w2 reason w3 Hc Hp Hf. exists (Inner.version (inner (now w1).2)).
    eapply (rounds_fail _ _ _ _ _ _ _ c (w1, seen)); [by unfold signaled_committed; simpl; rewrite Hc|].
    apply signaled_attempt_err. exists w2. unfold round_until in *. simpl in *.
    by destruct (now w1).
  - intros fuel start watch w seen c w1 w2 p Hc Hp Ht.
    pose proof (signaled_attempt_proves opened silence _ ((now w1).2, seen) p w2 Hp Ht) as Ha.
    destruct (attempt _ _ ((now w1).2, seen)) as [r s2] eqn:He. simpl in Ha. subst r.
    eapply (rounds_prove _ _ _ _ _ _ _ c (w1, seen)); [by unfold signaled_committed; simpl; rewrite Hc|].
    unfold round_until in *. simpl. destruct (now w1); simpl in *. exact He.
Qed.

(** ** Witnesses *)

(** A launcher's world: the scripted observer and what the channel has posted. *)
Definition Launcher : Type := Sim (bool * option nat) * Inner.t.
#[local] Instance launcher_clock : Clock Launcher := logged_clock.
#[local] Instance launcher_channel : ChannelWorld Launcher := { inner w := w.2; wait_timeout d w := (sleep d w.1, w.2) }.
#[local] Instance launcher_task : ChannelTask Launcher := { notified_within d w := (false, (sleep d w.1, w.2)) }.
#[local] Instance launcher_evidence : Evidence Launcher nat string := {
  committed w := let '(r, w') := scripted_committed w.1 in (r, (w', w.2));
  probe u w := let '(r, w') := scripted_probe u w.1 in (r, (w', w.2));
  wait u w := (default_wait u w.1, w.2);
}.
Definition launcher_probe_until (u : Z) (w : Launcher) : option (result string (option nat)) * Launcher :=
  let '(r, w') := scripted_probe_until u w.1 in (r, (w', w.2)).

Definition posted (e : Event.t) : Inner.t := Inner.post Inner.default 3 e None.

Lemma beside_keeps {A} (f : Sim (bool * option nat) → A * Sim (bool * option nat)) (w : Launcher) i :
  w.2 = i → (let '(r, w') := f w.1 in (r, (w', w.2))).2.2 = i.
Proof. by destruct (f w.1). Qed.

Lemma a_ready_channel_adds_nothing_witness :
  ∃ w1 w2 seen1 seen2,
    await_selection signaled_committed (signaled_wait 0 10 5) (signaled_probe 0 10) 9 wait_budget
      ((proven_late, posted Event.Ready) : Launcher, 0) = (Some (Ok (Selection.Current 7%nat)), (w1, seen1)) ∧
    await_selection_async (signaled_committed_async committed) (signaled_wait_async 0 10 5 wait)
      (signaled_probe_until 0 10 launcher_probe_until) 9 wait_budget
      ((proven_late, posted Event.Ready) : Launcher, 0) = (Some (Ok (Selection.Current 7%nat)), (w2, seen2)).
Proof.
  destruct (a_ready_channel_adds_nothing (W := Launcher) (P := nat) (E := string) 0 10 5 (posted Event.Ready) 9 wait_budget
    ((proven_late, posted Event.Ready) : Launcher) 0) as [Hb Ha]; [reflexivity|].
  destruct (Hb launcher_evidence) as [seen1 H1].
  { split; [reflexivity|intros w Hw; exact Hw|intros w; exact (beside_keeps scripted_committed w _)
      |intros u w; exact (beside_keeps (scripted_probe u) w _)|intros u w Hw; exact Hw]. }
  destruct (Ha committed launcher_probe_until wait) as [seen2 H2].
  { split; [reflexivity|intros w Hw; exact Hw|intros w; exact (beside_keeps scripted_committed w _)
      |intros u w; exact (beside_keeps (scripted_probe_until u) w _)|intros u w Hw; exact Hw]. }
  do 4 eexists. split; [rewrite H1|rewrite H2]; vm_compute; reflexivity.
Defined.

(** A daemon that died ends the selection in its first round, and a proof wins over
    the dead channel of the one this launcher started. *)
Lemma a_failed_daemon_ends_the_selection_witness :
  (∃ s', rounds signaled_committed (signaled_wait 0 10 5) (attempt (signaled_probe 0 10)) 9 0 (Watch.new wait_budget)
      ((proven_late, posted Event.Closed) : Launcher, 0) = (Some (Err (NotReadyError NotReady.Died)), s')) ∧
  (rounds signaled_committed (signaled_wait 0 10 5) (attempt (signaled_probe 0 10)) 9 0 (Watch.new wait_budget)
      ((MkSim 0 [(false, Some 7%nat)], posted Event.Closed) : Launcher, 0)).1 = Some (Ok (Selection.Current 7%nat)).
Proof.
  destruct (a_failed_daemon_ends_the_selection (W := Launcher) (P := nat) (E := string) 0 10 5) as (_ & Hf & Hp).
  split.
  - let w := constr:((proven_late, posted Event.Closed) : Launcher) in
    let w1 := eval vm_compute in (committed w).2 in
    let w2 := eval vm_compute in (probe (round_until 0 (Watch.new wait_budget) false w1) (now w1).2).2 in
    let w3 := eval vm_compute in (failure 0 10 w2).2 in
    destruct (Hf 8%nat 0 (Watch.new wait_budget) w 0 false w1 w2 NotReady.Died w3) as [seen Hs];
      [vm_compute; reflexivity..|exact (ex_intro _ _ Hs)].
  - let w := constr:((MkSim 0 [(false, Some 7%nat)], posted Event.Closed) : Launcher) in
    let w1 := eval vm_compute in (committed w).2 in
    let w2 := eval vm_compute in (probe (round_until 0 (Watch.new wait_budget) false w1) (now w1).2).2 in
    exact (Hp 8%nat 0 (Watch.new wait_budget) w 0 false w1 w2 7%nat ltac:(vm_compute; reflexivity)
      ltac:(vm_compute; reflexivity) ltac:(vm_compute; reflexivity)).
Defined.
