(* ===== verification/CommandLine.v ===== *)
(** * Command lines and environment blocks (src/local/command_line.rs)

    What [CreateProcessW] takes, over UTF-16 units. The split that the loader and
    the C runtime make of a command line is the reference splitter of the file's
    own property tests, for both readings of a doubled quote. *)
From stdpp Require Import sorting.
From S2P Require Import Prelude.

Abbreviation units := (list Z).

Definition QUOTE : Z := 34.
Definition BACKSLASH : Z := 92.
Definition EQUALS : Z := 61.
Definition SPACE : Z := 32.
Definition TAB : Z := 9.

Definition invalid (text : string) : io_error := error_new InvalidInput text.

(** ** Building a command line *)

Definition needs_quotes (arg : units) : bool :=
  bool_decide (arg = []) || existsb (λ u, bool_decide (u ∈ [32; 9; 10; 11]) || (u =? QUOTE)) arg.

(** The loop of [append_argument] over the units left, after a run of
    backslashes that is not written yet. *)
Fixpoint escape (backslashes : nat) (arg : units) : units :=
  match arg with
  | [] => replicate (backslashes * 2) BACKSLASH
  | u :: arg =>
      if u =? BACKSLASH then escape (S backslashes) arg
      else replicate (if u =? QUOTE then backslashes * 2 + 1 else backslashes) BACKSLASH ++ u :: escape 0 arg
  end.

Definition append_argument (line arg : units) : units :=
  if negb (needs_quotes arg) then line ++ arg
  else line ++ [QUOTE] ++ escape 0 arg ++ [QUOTE].

Definition command_line (program : units) (args : list units) : io_result units :=
  if bool_decide (program = []) || bool_decide (QUOTE ∈ program)
  then Err (invalid "the program path is empty or contains a quote") else
  if bool_decide (0 ∈ program) || existsb (λ arg : units, bool_decide (0 ∈ arg)) args
  then Err (invalid "a command line cannot contain a NUL") else
  Ok (foldl (λ line arg, append_argument (line ++ [SPACE]) arg) ([QUOTE] ++ program ++ [QUOTE]) args).

(** ** Splitting it again *)

(** What a doubled quote inside a quoted region does after adding one quote. *)
Module DoubledQuote.
Inductive t := StaysQuoted | EndsQuote.
End DoubledQuote.

Definition blank (u : Z) : bool := (u =? SPACE) || (u =? TAB).

(** The program: quotes toggle and a blank outside them ends it. *)
Fixpoint split_program (quoted : bool) (l : units) : units * units :=
  match l with
  | [] => ([], [])
  | u :: rest =>
      if negb quoted && blank u then ([], l)
      else if u =? QUOTE then split_program (negb quoted) rest
      else let '(program, rest) := split_program quoted rest in (u :: program, rest)
  end.

(** The words after it. The state is [None] between words, or the word so far, the
    backslashes just read and whether a quote is open. *)
Fixpoint split_words (d : DoubledQuote.t) (state : option (units * nat * bool)) (l : units) : list units :=
  match l with
  | [] => match state with None => [] | Some (word, b, _) => [word ++ replicate b BACKSLASH] end
  | u :: rest =>
      if bool_decide (state = None) && blank u then split_words d None rest else
      let '(word, b, quoted) := default ([], O, false) state in
      if u =? BACKSLASH then split_words d (Some (word, S b, quoted)) rest
      else if u =? QUOTE then
        let word := word ++ replicate (b / 2) BACKSLASH in
        if Nat.odd b then split_words d (Some (word ++ [QUOTE], O, quoted)) rest
        else match quoted, rest with
             | true, u' :: rest' =>
                 if u' =? QUOTE
                 then split_words d (Some (word ++ [QUOTE], O,
                        match d with DoubledQuote.StaysQuoted => true | DoubledQuote.EndsQuote => false end)) rest'
                 else split_words d (Some (word, O, false)) rest
             | _, _ => split_words d (Some (word, O, negb quoted)) rest
             end
      else
        let word := word ++ replicate b BACKSLASH in
        if negb quoted && blank u then word :: split_words d None rest
        else split_words d (Some (word ++ [u], O, quoted)) rest
  end.

Definition split (d : DoubledQuote.t) (line : units) : list units :=
  let '(program, rest) := split_program false line in program :: split_words d None rest.

(** ** Every argument survives *)

#[local] Arguments Nat.div : simpl never.
#[local] Arguments Nat.odd : simpl never.

Section split_lemmas.
Variable d : DoubledQuote.t.

Lemma split_backslashes n l word b q :
  split_words d (Some (word, b, q)) (replicate n BACKSLASH ++ l) = split_words d (Some (word, n + b, q))%nat l.
Proof.
  revert b. induction n as [|n IH]; intros b; [done|]. simpl. rewrite IH. by rewrite Nat.add_succ_r.
Qed.

(** What follows an argument: nothing, or a blank. *)
Definition ends_word (rest : units) : Prop := match rest with [] => True | u :: _ => blank u = true end.

Lemma split_end word b rest :
  ends_word rest →
  split_words d (Some (word, b, false)) rest = (word ++ replicate b BACKSLASH) :: split_words d None rest.
Proof.
  destruct rest as [|u rest]; [done|]. simpl. intros Hu. unfold blank in *.
  destruct (u =? SPACE) eqn:Es; [apply Z.eqb_eq in Es as ->; done|].
  simpl in Hu. apply Z.eqb_eq in Hu as ->. done.
Qed.

Lemma half_double b : (b * 2 / 2 = b ∧ (b * 2 + 1) / 2 = b ∧ Nat.odd (b * 2) = false ∧ Nat.odd (b * 2 + 1) = true)%nat.
Proof.
  split_and!.
  - by apply Nat.div_mul.
  - rewrite Nat.div_add_l by done. change (1 / 2)%nat with O. lia.
  - rewrite Nat.odd_mul. apply andb_false_r.
  - rewrite Nat.add_1_r, Nat.odd_succ, Nat.even_mul. apply orb_true_r.
Qed.

Lemma split_escape arg b word rest :
  ends_word rest →
  split_words d (Some (word, O, true)) (escape b arg ++ QUOTE :: rest)
  = split_words d (Some (word ++ replicate b BACKSLASH ++ arg, O, false)) rest.
Proof.
  intros Hrest. pose proof half_double as Hb. revert b word. induction arg as [|u arg IH]; intros b word.
  - simpl escape. rewrite split_backslashes, Nat.add_0_r. simpl.
    destruct (Hb b) as (-> & _ & -> & _). rewrite app_nil_r.
    destruct rest as [|u rest]; [done|]. simpl in Hrest.
    destruct (u =? QUOTE) eqn:E; [|done]. by apply Z.eqb_eq in E as ->.
  - simpl escape. destruct (u =? BACKSLASH) eqn:Eb.
    + apply Z.eqb_eq in Eb as ->. rewrite IH. by rewrite replicate_S_end, <- !app_assoc.
    + rewrite <- !app_assoc, split_backslashes, Nat.add_0_r. destruct (u =? QUOTE) eqn:Eq; simpl; rewrite Eb, Eq.
      * apply Z.eqb_eq in Eq as ->. destruct (Hb b) as (_ & -> & _ & ->). rewrite IH. by rewrite <- !app_assoc.
      * rewrite IH. by rewrite <- !app_assoc.
Qed.

Lemma split_plain arg word b rest :
  existsb (λ u, bool_decide (u ∈ [32; 9; 10; 11]) || (u =? QUOTE)) arg = false → ends_word rest →
  split_words d (Some (word, b, false)) (arg ++ rest)
  = (word ++ replicate b BACKSLASH ++ arg) :: split_words d None rest.
Proof.
  intros Ha Hrest. revert word b. induction arg as [|u arg IH]; intros word b.
  { rewrite app_nil_r. by apply split_end. }
  simpl in Ha. apply orb_false_iff in Ha as [[Hu Hq]%orb_false_iff Ha]. specialize (IH Ha).
  apply bool_decide_eq_false in Hu. simpl. rewrite Hq.
  assert (blank u = false) as Hblank.
  { unfold blank. apply orb_false_iff. split; apply Z.eqb_neq; intros ->; apply Hu; set_solver. }
  destruct (u =? BACKSLASH) eqn:Eb.
  - apply Z.eqb_eq in Eb as ->. rewrite IH. by rewrite replicate_S_end, <- !app_assoc.
  - rewrite Hblank, IH. by rewrite <- !app_assoc.
Qed.

(** What an argument adds to the line. *)
Definition argument (arg : units) : units := append_argument [] arg.

Lemma split_argument arg rest :
  ends_word rest → split_words d None (SPACE :: argument arg ++ rest) = arg :: split_words d None rest.
Proof.
  intros Hrest. simpl. unfold argument, append_argument.
  destruct (needs_quotes arg) eqn:Hn; simpl.
  - rewrite <- app_assoc. simpl. by rewrite split_escape, split_end, app_nil_r by done.
  - unfold needs_quotes in Hn. apply orb_false_iff in Hn as [Hne Hn]. apply bool_decide_eq_false in Hne.
    transitivity (split_words d (Some ([], O, false)) (arg ++ rest)); [|by apply (split_plain arg [] 0)].
    destruct arg as [|u arg]; [done|]. simpl.
    assert (blank u = false) as ->; [|done]. simpl in Hn. apply orb_false_iff in Hn as [[Hu _]%orb_false_iff _].
    apply bool_decide_eq_false in Hu. unfold blank. apply orb_false_iff.
    split; apply Z.eqb_neq; intros ->; apply Hu; set_solver.
Qed.

Lemma split_arguments args :
  split_words d None (concat ((λ arg, SPACE :: argument arg) <$> args)) = args.
Proof.
  induction args as [|arg args IH]; [done|]. cbn [fmap list_fmap concat app].
  rewrite split_argument; [by rewrite IH|]. by destruct args.
Qed.
End split_lemmas.

Lemma line_arguments args line :
  foldl (λ line arg, append_argument (line ++ [SPACE]) arg) line args
  = line ++ concat ((λ arg, SPACE :: argument arg) <$> args).
Proof.
  revert line. induction args as [|arg args IH]; intros line; simpl; [by rewrite app_nil_r|].
  rewrite IH. unfold argument, append_argument. by destruct (needs_quotes arg); simpl; rewrite <- !app_assoc; simpl; rewrite <- ?app_assoc.
Qed.

Lemma split_program_quoted program rest :
  QUOTE ∉ program → ends_word rest →
  split_program true (program ++ QUOTE :: rest) = (program, rest).
Proof.
  intros Hq Hrest. induction program as [|u program IH]; simpl.
  - destruct rest as [|u rest]; [done|]. simpl in *. by rewrite Hrest.
  - apply not_elem_of_cons in Hq as [Hu Hq]. rewrite (proj2 (Z.eqb_neq _ _)) by done. by rewrite IH.
Qed.

(** A command line splits into what it was made from, and holds no NUL. *)
Lemma line_splits program args line d : command_line program args = Ok line → split d line = program :: args.
Proof.
  unfold command_line. destruct (_ || _) eqn:E1; [done|].
  apply orb_false_iff in E1 as [_ Eq%bool_decide_eq_false]. destruct (_ || _); [done|]. intros [= <-].
  rewrite line_arguments. unfold split. simpl. rewrite <- app_assoc. simpl.
  rewrite split_program_quoted by (done || by destruct args). by rewrite split_arguments.
Qed.

Lemma escape_units b arg u : u ∈ escape b arg → u ∈ arg ∨ u = QUOTE ∨ u = BACKSLASH.
Proof.
  revert b. induction arg as [|c arg IH]; intros b; simpl; [by intros [-> _]%elem_of_replicate; auto|].
  rewrite elem_of_cons. destruct (Z.eqb_spec c BACKSLASH) as [->|_]; [intros [?|?]%IH; auto|].
  rewrite elem_of_app, elem_of_cons. intros [[-> _]%elem_of_replicate|[->|[?|?]%IH]]; auto.
Qed.

Lemma argument_units line arg u : u ∈ append_argument line arg → u ∈ line ∨ u ∈ arg ∨ u = QUOTE ∨ u = BACKSLASH.
Proof.
  unfold append_argument. destruct (needs_quotes arg); simpl; rewrite !elem_of_app; [|by intros [?|?]; auto].
  rewrite elem_of_cons, elem_of_app, list_elem_of_singleton. intros [?|[->|[[?|?]%escape_units|?]]]; auto.
Qed.

Lemma line_no_nul program args line : command_line program args = Ok line → 0 ∉ line.
Proof.
  unfold command_line. destruct (_ || _); [done|]. destruct (_ || _) eqn:E; [done|]. intros [= <-].
  apply orb_false_iff in E as [Hp%bool_decide_eq_false Ha].
  assert (0 ∉ [QUOTE] ++ program ++ [QUOTE]) as Hl by (rewrite !elem_of_app, !list_elem_of_singleton; naive_solver).
  assert (Forall (λ w : units, 0 ∉ w) args) as Hargs.
  { apply Forall_forall. intros w Hw Hz. apply not_true_iff_false in Ha. apply Ha, existsb_exists. exists w.
    split; [by apply list_elem_of_In|by apply bool_decide_eq_true]. }
  clear Ha. change ([QUOTE] ++ program ++ [QUOTE]) with (QUOTE :: program ++ [QUOTE]) in Hl.
  revert Hl. generalize (QUOTE :: program ++ [QUOTE]). induction Hargs as [|arg args Hw _ IH]; intros l Hl; simpl; [exact Hl|].
  apply IH. intros [Hin|[Hin|[?|?]]]%argument_units; [|done..]. apply elem_of_app in Hin as [?|Hin]; [done|].
  by apply list_elem_of_singleton in Hin.
Qed.

(** C36: a command line is refused exactly when its program is empty or has a quote,
    or something in it has a NUL, and one that is built splits back into the
    program and every argument, under both readings of a doubled quote. *)
Theorem arguments_survive program args :
  match command_line program args with
  | Ok line => program ≠ [] ∧ (QUOTE ∉ program) ∧ Forall (λ w : units, 0 ∉ w) (program :: args) ∧
               ∀ d, split d line = program :: args
  | Err e => kind e = InvalidInput ∧
             (program = [] ∨ QUOTE ∈ program ∨ Exists (λ w : units, 0 ∈ w) (program :: args))
  end.
Proof.
  unfold command_line. destruct (_ || _) eqn:E1.
  { split; [done|]. apply orb_true_iff in E1 as [E%bool_decide_eq_true|E%bool_decide_eq_true]; eauto. }
  apply orb_false_iff in E1 as [E%bool_decide_eq_false Eq%bool_decide_eq_false].
  destruct (_ || _) eqn:E2.
  { split; [done|]. right; right. apply orb_true_iff in E2 as [Ez%bool_decide_eq_true|Ez]; [by left|].
    right. apply existsb_exists in Ez as (arg & Hin%list_elem_of_In & Ha%bool_decide_eq_true).
    apply Exists_exists. eauto. }
  apply orb_false_iff in E2 as [Ez%bool_decide_eq_false Ea]. split_and!; [done|done| |].
  - constructor; [done|]. apply Forall_forall. intros arg Hin Hz.
    apply not_true_iff_false in Ea. apply Ea, existsb_exists. exists arg.
    split; [by apply list_elem_of_In|by apply bool_decide_eq_true].
  - intros d. apply line_splits. unfold command_line. rewrite (bool_decide_eq_false_2 _ E), (bool_decide_eq_false_2 _ Eq).
    by rewrite (bool_decide_eq_false_2 _ Ez), Ea.
Qed.

(** ** Environment blocks *)

Module EnvChange.
Inductive t := Set_ (name value : units) | Remove (name : units).

Definition name (c : t) : units := match c with Set_ n _ | Remove n => n end.
End EnvChange.
Import EnvChange.

Definition variable : Type := units * units.

(** ASCII upper case; every other unit is itself. *)
Definition folded (name : units) : units := (λ u, if (97 <=? u) && (u <=? 122) then u - 32 else u) <$> name.

Definition same_name (a b : units) : bool :=
  (length a =? length b)%nat && bool_decide (folded a = folded b).

(** [Iterator::cmp] does not answer [Greater]. *)
Fixpoint units_le (a b : units) : bool :=
  match a, b with
  | [], _ => true
  | _ :: _, [] => false
  | x :: a, y :: b => (x <? y) || ((x =? y) && units_le a b)
  end.

Definition var_le (a b : variable) : bool := units_le (folded a.1) (folded b.1).

(** [sort_by], which is stable. *)
Fixpoint insert_var (x : variable) (l : list variable) : list variable :=
  match l with
  | [] => [x]
  | y :: l => if var_le x y then x :: y :: l else y :: insert_var x l
  end.
Definition sort_vars (l : list variable) : list variable := foldr insert_var [] l.

Definition bad_name (name : units) : bool :=
  bool_decide (name = []) || bool_decide (EQUALS ∈ tail name) || bool_decide (0 ∈ name).

Definition apply_change (vars : list variable) (c : EnvChange.t) : io_result (list variable) :=
  if bad_name (name c) then Err (invalid "an environment name is empty or contains '=' or NUL") else
  let vars := base.filter (λ v : variable, same_name v.1 (name c) = false) vars in
  match c with
  | Set_ name value =>
      if bool_decide (0 ∈ value) then Err (invalid "an environment value contains NUL")
      else Ok (vars ++ [(name, value)])
  | Remove _ => Ok vars
  end.

Fixpoint apply_changes (vars : list variable) (changes : list EnvChange.t) : io_result (list variable) :=
  match changes with
  | [] => Ok vars
  | c :: changes => vars ← apply_change vars c; apply_changes vars changes
  end.

Definition entry (v : variable) : units := v.1 ++ [EQUALS] ++ v.2.

Definition write_block (vars : list variable) : units :=
  let block := concat ((λ v, entry v ++ [0]) <$> vars) in
  (if decide (block = []) then [0] else block) ++ [0].

Definition environment_block (inherited : list variable) (changes : list EnvChange.t) : io_result units :=
  vars ← apply_changes inherited changes; Ok (write_block (sort_vars vars)).

(** ** Reading a block back, as the property tests of the file do *)

Definition strip_nul (l : units) : option units :=
  match last l with Some 0 => Some (removelast l) | _ => None end.

Fixpoint split_nul (l : units) : list units :=
  match l with
  | [] => [[]]
  | u :: l =>
      if u =? 0 then [] :: split_nul l
      else match split_nul l with w :: ws => (u :: w) :: ws | [] => [[u]] end
  end.

Fixpoint split_equals (l : units) : option variable :=
  match l with
  | [] => None
  | u :: l => if u =? EQUALS then Some ([], l) else '(before, after) ← split_equals l; Some (u :: before, after)
  end.

(** Split at the first [=] after the first unit. *)
Definition read_entry (e : units) : option variable :=
  match e with
  | [] => None
  | u :: rest => '(before, after) ← split_equals rest; Some (u :: before, after)
  end.

Definition entries (block : units) : option (list variable) :=
  body ← strip_nul block;
  if decide (body = [0]) then Some [] else
  body ← strip_nul body;
  mapM read_entry (split_nul body).

(** ** What a block holds *)

Definition good_var (v : variable) : Prop := bad_name v.1 = false ∧ (0 ∉ v.2).
Definition good_change (c : EnvChange.t) : Prop :=
  bad_name (name c) = false ∧ match c with Set_ _ value => 0 ∉ value | Remove _ => True end.

(** The variables named [n], ignoring case. *)
Definition named (n : units) (vars : list variable) : list variable :=
  base.filter (λ v : variable, same_name v.1 n = true) vars.

(** The last change to a name decides; without one, what was inherited stays. *)
Definition after_changes (n : units) (inherited : list variable) (changes : list EnvChange.t) : list variable :=
  match last (base.filter (λ c, same_name (name c) n = true) changes) with
  | Some (Set_ name value) => [(name, value)]
  | Some (Remove _) => []
  | None => named n inherited
  end.

Lemma same_name_spec a b : same_name a b = true ↔ folded a = folded b.
Proof.
  unfold same_name. rewrite andb_true_iff, bool_decide_eq_true. split; [by intros [_ ?]|].
  intros E. split; [|done]. apply Nat.eqb_eq. apply (f_equal length) in E. unfold folded in E. by rewrite !length_fmap in E.
Qed.

Lemma same_name_false a b : same_name a b = false ↔ folded a ≠ folded b.
Proof. rewrite <- not_true_iff_false. by rewrite same_name_spec. Qed.

Lemma units_le_refl a : units_le a a = true.
Proof. induction a as [|x a IH]; [done|]. simpl. by rewrite Z.ltb_irrefl, Z.eqb_refl, IH. Qed.

Lemma units_le_total a b : units_le a b = false → units_le b a = true.
Proof.
  revert b. induction a as [|x a IH]; intros [|y b]; simpl; try done.
  rewrite !orb_true_iff, orb_false_iff, andb_false_iff, andb_true_iff.
  rewrite Z.ltb_ge, Z.ltb_lt, Z.eqb_neq, Z.eqb_eq.
  intros [Hle [Hne|Hf]]; [left; lia|]. destruct (decide (x = y)) as [->|]; [|left; lia]. right. by auto.
Qed.

Lemma named_app n l k : named n (l ++ k) = named n l ++ named n k.
Proof. apply filter_app. Qed.

Lemma named_insert n x l : named n (insert_var x l) = named n [x] ++ named n l.
Proof.
  induction l as [|y l IH]; [by rewrite app_nil_r|]. simpl. destruct (var_le x y) eqn:E.
  { exact (named_app n [x] (y :: l)). }
  assert (folded x.1 ≠ folded y.1) as Hne.
  { intros Heq. unfold var_le in E. by rewrite Heq, units_le_refl in E. }
  change (y :: insert_var x l) with ([y] ++ insert_var x l). change (y :: l) with ([y] ++ l).
  rewrite !named_app, IH, !app_assoc. f_equal. unfold named. rewrite !filter_cons, filter_nil.
  destruct (decide (same_name y.1 n = true)) as [Hy%same_name_spec|]; [|by rewrite app_nil_r].
  destruct (decide (same_name x.1 n = true)) as [Hx%same_name_spec|]; [congruence|done].
Qed.

Lemma named_sort n l : named n (sort_vars l) = named n l.
Proof.
  induction l as [|x l IH]; [done|]. cbn [sort_vars foldr]. fold (sort_vars l).
  by rewrite named_insert, IH, <- named_app.
Qed.

Lemma insert_perm x l : insert_var x l ≡ₚ x :: l.
Proof. induction l as [|y l IH]; [done|]. simpl. destruct (var_le x y); [done|]. rewrite IH. constructor. Qed.

Lemma sort_perm l : sort_vars l ≡ₚ l.
Proof. induction l as [|x l IH]; [done|]. cbn [sort_vars foldr]. fold (sort_vars l). by rewrite insert_perm, IH. Qed.

Lemma sort_sorted l : Sorted (λ a b, var_le a b = true) (sort_vars l).
Proof.
  induction l as [|x l IH]; [constructor|]. cbn [sort_vars foldr]. fold (sort_vars l).
  induction IH as [|y l' Hs IHl Hd]; simpl; [by repeat constructor|].
  destruct (var_le x y) eqn:E; [by repeat constructor|].
  constructor; [done|]. apply units_le_total in E.
  destruct l' as [|z l']; simpl; [by constructor|].
  destruct (var_le x z); constructor; [done|]. by inversion Hd.
Qed.

Lemma apply_change_named vars c vars' n :
  apply_change vars c = Ok vars' →
  named n vars' = if same_name (name c) n
                  then match c with Set_ m v => [(m, v)] | Remove _ => [] end else named n vars.
Proof.
  unfold apply_change. destruct (bad_name (name c)); [done|]. intros H.
  assert (named n (base.filter (λ v : variable, same_name v.1 (name c) = false) vars)
          = if same_name (name c) n then [] else named n vars) as E.
  { clear H. unfold named. rewrite list_filter_filter. destruct (same_name (name c) n) eqn:Es.
    - apply same_name_spec in Es. induction vars as [|v vars IH]; [done|]. rewrite filter_cons.
      case_decide as Hv; [|done]. rewrite same_name_spec, same_name_false in Hv. destruct Hv; congruence.
    - apply same_name_false in Es. apply list_filter_iff. intros v. rewrite same_name_spec, same_name_false.
      split; [by intros [? _]|]. intros Hv. split; congruence. }
  destruct c as [m v|m]; simpl in *; [|by simplify_eq].
  destruct (bool_decide (0 ∈ v)); [done|]. simplify_eq. rewrite named_app, E.
  unfold named. rewrite filter_cons, filter_nil. simpl.
  destruct (same_name m n); simpl; [done|]. by rewrite app_nil_r.
Qed.

Lemma apply_changes_named vars changes vars' n :
  apply_changes vars changes = Ok vars' → named n vars' = after_changes n vars changes.
Proof.
  revert vars. induction changes as [|c changes IH]; intros vars; simpl; [by intros [= ->]|].
  intros (vars1 & Hc & H)%result_bind_Ok. rewrite (IH _ H). unfold after_changes. rewrite filter_cons.
  rewrite (apply_change_named _ _ _ n Hc).
  destruct (decide (same_name (name c) n = true)) as [E|E].
  - rewrite last_cons. rewrite E. by destruct (last _) as [[]|]; [| |destruct c].
  - apply not_true_iff_false in E. by rewrite E.
Qed.

Lemma apply_change_good vars c :
  match apply_change vars c with
  | Ok vars' => good_change c ∧ (Forall good_var vars → Forall good_var vars')
  | Err e => kind e = InvalidInput ∧ ¬ good_change c
  end.
Proof.
  unfold apply_change, good_change. destruct (bad_name (name c)) eqn:E; [split; [done|by intros [? _]]|].
  assert (Forall good_var vars → Forall good_var (base.filter (λ v : variable, same_name v.1 (name c) = false) vars))
    as Hf.
  { rewrite !Forall_forall. intros Hv v [_ Hin]%list_elem_of_filter. auto. }
  destruct c as [m v|m]; simpl in *; [|done]. case_bool_decide; [split; [done|]; by intros [_ ?]|].
  split; [done|]. intros Hv. apply Forall_app. split; [auto|]. by repeat constructor.
Qed.

Lemma apply_changes_good vars changes :
  match apply_changes vars changes with
  | Ok vars' => Forall good_change changes ∧ (Forall good_var vars → Forall good_var vars')
  | Err e => kind e = InvalidInput ∧ ¬ Forall good_change changes
  end.
Proof.
  revert vars. induction changes as [|c changes IH]; intros vars; simpl; [done|].
  pose proof (apply_change_good vars c) as Hc. destruct (apply_change vars c) as [vars1|e]; simpl.
  - destruct Hc as [Hc Hv]. specialize (IH vars1). destruct (apply_changes vars1 changes).
    + destruct IH. auto.
    + split; [by destruct IH|]. inversion 1. by destruct IH.
  - destruct Hc as [? Hc]. split; [done|]. inversion 1. by apply Hc.
Qed.

(** ** Reading back *)

Lemma strip_nul_snoc l : strip_nul (l ++ [0]) = Some l.
Proof. unfold strip_nul. by rewrite last_snoc, removelast_last. Qed.

Lemma split_nul_app e l : 0 ∉ e → split_nul (e ++ 0 :: l) = e :: split_nul l.
Proof.
  intros He. induction e as [|u e IH]; [done|]. apply not_elem_of_cons in He as [Hu He]. simpl.
  rewrite (proj2 (Z.eqb_neq _ _)) by done. by rewrite IH.
Qed.

Lemma split_nul_one e : 0 ∉ e → split_nul e = [e].
Proof.
  intros He. induction e as [|u e IH]; [done|]. apply not_elem_of_cons in He as [Hu He]. simpl.
  rewrite (proj2 (Z.eqb_neq _ _)) by done. by rewrite IH.
Qed.

Lemma split_equals_app n v : EQUALS ∉ n → split_equals (n ++ EQUALS :: v) = Some (n, v).
Proof.
  intros Hn. induction n as [|u n IH]; [done|]. apply not_elem_of_cons in Hn as [Hu Hn]. simpl.
  rewrite (proj2 (Z.eqb_neq _ _)) by done. by rewrite IH.
Qed.

Lemma good_entry v : good_var v → read_entry (entry v) = Some v ∧ 0 ∉ entry v.
Proof.
  destruct v as [n v]. intros [Hn Hv]. unfold bad_name in Hn. simpl in *.
  apply orb_false_iff in Hn as [[Hne He]%orb_false_iff Hz]. apply bool_decide_eq_false in Hne, He, Hz.
  destruct n as [|u n]; [done|]. simpl in *. split.
  - by rewrite split_equals_app.
  - unfold entry. simpl. set_solver.
Qed.

Lemma split_entries vars v :
  Forall good_var vars → good_var v →
  split_nul (concat ((λ v, entry v ++ [0]) <$> vars) ++ entry v) = entry <$> (vars ++ [v]).
Proof.
  intros Hvars Hv. induction Hvars as [|x vars Hx Hvars IH].
  { simpl. by apply split_nul_one, good_entry. }
  cbn [fmap list_fmap concat app]. rewrite <- !app_assoc. simpl.
  rewrite split_nul_app by (by apply good_entry). by rewrite IH.
Qed.

Lemma entries_write vars : Forall good_var vars → entries (write_block vars) = Some vars.
Proof.
  intros Hv. unfold entries, write_block. rewrite strip_nul_snoc. cbn [mbind option_bind].
  induction vars as [|v vars _] using rev_ind; [done|]. apply Forall_app in Hv as [Hvars Hv].
  rewrite Forall_singleton in Hv. rewrite fmap_app, concat_app. cbn [fmap list_fmap concat]. rewrite app_nil_r.
  set (body := _ ++ entry v ++ [0]). assert (EQUALS ∈ body) as Hin.
  { subst body. unfold entry. set_solver. }
  rewrite (decide_False (P := body = [])) by (intros E; rewrite E in Hin; set_solver).
  rewrite decide_False by (intros E; rewrite E in Hin; apply list_elem_of_singleton in Hin; done).
  subst body. rewrite app_assoc, strip_nul_snoc. cbn [mbind option_bind].
  rewrite split_entries by done. apply mapM_Some, Forall2_fmap_l, Forall_Forall2_diag.
  apply Forall_app. split; [|apply Forall_singleton; by apply good_entry].
  eapply Forall_impl; [exact Hvars|]. intros x Hx. by apply good_entry.
Qed.

(** What a block made from inherited variables and changes holds. *)
Lemma block_read_back inherited changes block :
  Forall good_var inherited → environment_block inherited changes = Ok block →
  Forall good_change changes ∧
  ∃ vars, entries block = Some vars ∧ Sorted (λ a b, var_le a b = true) vars ∧
    ∀ n, named n vars = after_changes n inherited changes.
Proof.
  intros Hi. unfold environment_block.
  pose proof (apply_changes_good inherited changes) as Hgood.
  pose proof (apply_changes_named inherited changes) as Hnamed.
  destruct (apply_changes inherited changes) as [vars|e]; [|done]. intros [= <-].
  destruct Hgood as [Hc Hv]. split; [done|]. exists (sort_vars vars). split_and!.
  - apply entries_write. rewrite sort_perm. auto.
  - apply sort_sorted.
  - intros n. rewrite named_sort. by apply Hnamed.
Qed.

(** A block holds, for every name, the last change made to it or, without one,
    what was inherited, names being the same whatever their case; it is sorted by
    name and reads back as that environment. It is refused exactly when a change
    has a bad name or a value with a NUL. *)
Theorem blocks_hold_the_last_change inherited changes :
  Forall good_var inherited →
  match environment_block inherited changes with
  | Ok block =>
      Forall good_change changes ∧
      ∃ vars, entries block = Some vars ∧ Sorted (λ a b, var_le a b = true) vars ∧
        ∀ n, named n vars = after_changes n inherited changes
  | Err e => kind e = InvalidInput ∧ ¬ Forall good_change changes
  end.
Proof.
  intros Hi. destruct (environment_block inherited changes) as [block|e] eqn:E; [by apply block_read_back|].
  unfold environment_block in E. pose proof (apply_changes_good inherited changes) as Hgood.
  destruct (apply_changes inherited changes); simplify_eq/=. done.
Qed.

(** A change to [path] replaces the inherited [Path]. *)
Lemma blocks_hold_the_last_change_witness :
  ∃ block vars,
    environment_block [([80; 97; 116; 104], [49])] [Set_ [112; 97; 116; 104] [50]] = Ok block ∧
    entries block = Some vars ∧ named [80; 65; 84; 72] vars = [([112; 97; 116; 104], [50])].
Proof.
  pose proof (blocks_hold_the_last_change [([80; 97; 116; 104], [49])] [Set_ [112; 97; 116; 104] [50]]) as H.
  destruct (environment_block _ _) as [block|e] eqn:E; [|by vm_compute in E].
  destruct H as (_ & vars & Hr & _ & Hn).
  { constructor; [|constructor]. split; [by vm_compute|]. set_solver. }
  exists block, vars. split_and!; [done|done|]. rewrite Hn. by vm_compute.
Defined.
