(* ===== verification/WindowsRecords.v ===== *)
(** * Records on Windows (src/publication/windows.rs)

    On Windows a record can be missing or refused for a moment while it is replaced.
    [retry_open] waits such moments out, [publishing] tells from the temporaries of
    the directory whether a replacement is in progress, and [rename_posix] builds
    the request that renames the written file. *)
From S2P Require Import Prelude Text Backoff CommandLine Identity Session.

(** ** Opening a record that may be being replaced *)

Module Opening.
Definition ERROR_ACCESS_DENIED : Z := 5.
Definition DENIED_RETRIES : nat := 8.
Definition PUBLISHING : Z := from_secs 2.

(** The variables [retry_open] captures. *)
Record captured (A : Type) := Captured {
  denied : nat; rechecked : bool; opened : option A; missing : option io_error;
}.
Arguments Captured {A}.
Arguments denied {A}.
Arguments rechecked {A}.
Arguments opened {A}.
Arguments missing {A}.

Section code.
Context {A W : Type} `{Clock W}.
Context (open : W → io_result A * W) (publishing : W → bool * W).

(** The loop inside the check, cut off after [passes]. *)
Fixpoint attempt (passes : nat) (w : W * captured A) : option (io_result bool) * (W * captured A) :=
  match passes with
  | O => (None, w)
  | S passes =>
      let '(w, s) := w in
      match open w with
      | (Ok file, w) => (Some (Ok true), (w, Captured (denied s) (rechecked s) (Some file) (missing s)))
      | (Err e, w) =>
          if bool_decide (raw_os_error e = Some ERROR_ACCESS_DENIED) && (denied s <? DENIED_RETRIES)%nat then
            attempt passes (w, Captured (S (denied s)) (rechecked s) (opened s) (missing s))
          else if bool_decide (kind e = NotFound) then
            let '(b, w) := publishing w in
            if b then (Some (Ok false), (w, Captured (denied s) false (opened s) (Some e)))
            else if rechecked s then (Some (Err e), (w, s))
            else attempt passes (w, Captured (denied s) true (opened s) (missing s))
          else (Some (Err e), (w, s))
      end
  end.

(** The check: ten passes are enough, eight for the denials that are retried, one
    for the open after a check and one for the answer. *)
Definition check (w : W * captured A) : io_result bool * (W * captured A) :=
  let '(r, w) := attempt 10 w in (default (Err (error_other "no answer")) r, w).

Definition retry_open (passes : nat) (deadline : Z) (w : W) : option (io_result A) * W :=
  let '(r, (w, s)) := poll passes check (Some deadline) (w, Captured 0 false None None) in
  match r with
  | None => (None, w)
  | Some (Err e) => (Some (Err e), w)
  | Some (Ok _) => (Some (ok_or (opened s) (default (error_of_kind NotFound) (missing s))), w)
  end.

(** [open_record]. *)
Definition open_record (passes : nat) (w : W) : option (io_result A) * W :=
  let '(t, w) := now w in retry_open passes (t + PUBLISHING) w.
End code.

(** A record that is there but for the moments of its replacements: [begun] and
    [ended] count the replacements whose rename has begun to hide the record and
    those whose rename is through. *)
Class Replaced (A W : Type) `{ClockLaws W} (open : W → io_result A * W) (publishing : W → bool * W) : Type := {
  begun : W → nat;
  ended : W → nat;
  ended_begun w : (ended w ≤ begun w)%nat;
  onward (w w' : W) : Prop := time w ≤ time w' ∧ (begun w ≤ begun w')%nat ∧ (ended w ≤ ended w')%nat;
  open_onward w : onward w (open w).2;
  publishing_onward w : onward w (publishing w).2;
  now_onward w : onward w (now w).2;
  sleep_onward d w : onward w (sleep d w);
  (* the record is missing only while a replacement is under way, *)
  open_missing w e w' : open w = (Err e, w') → kind e = NotFound → (ended w < begun w)%nat;
  (* which then has a temporary in the directory; *)
  publishing_seen w w' : publishing w = (false, w') → ended w = begun w;
  (* an open is denied only when a replacement takes the record from under it *)
  open_denied w e w' : open w = (Err e, w') → raw_os_error e = Some ERROR_ACCESS_DENIED →
    kind e = PermissionDenied ∧ (begun w < begun w')%nat;
}.
End Opening.

Section opening.
Import Opening.
Context {A W : Type} `{CL : ClockLaws W} {open : W → io_result A * W} {publishing : W → bool * W}.
Context {R : Replaced A W open publishing}.

#[local] Instance onward_preorder : PreOrder onward.
Proof. split; unfold onward; [intros w; split_and!; lia|]. intros a b c (? & ? & ?) (? & ? & ?). split_and!; lia. Qed.

(** What has happened since [w0] when the check runs with these variables. *)
Record since (w0 w : W) (s : captured A) : Prop := {
  since_onward : onward w0 w;
  since_denied : (denied s ≤ DENIED_RETRIES)%nat ∧ (begun w0 + denied s ≤ begun w)%nat;
  since_rechecked : rechecked s = true → (ended w0 < ended w)%nat;
  since_missing : ∀ e, missing s = Some e → kind e = NotFound;
}.

Lemma since_later w0 w w' s : since w0 w s → onward w w' → since w0 w' s.
Proof.
  intros [? [? ?] Hr ?] Ho. constructor; [by etrans| |intros E; specialize (Hr E)|done]; destruct Ho as (? & ? & ?); lia.
Qed.

(** What an answer of the check means. *)
Definition refused (w0 w : W) (e : io_error) : Prop :=
  (kind e = NotFound ∧ (ended w0 + 2 ≤ ended w)%nat) ∨
  (raw_os_error e = Some ERROR_ACCESS_DENIED ∧ (begun w0 + DENIED_RETRIES < begun w)%nat) ∨
  (kind e ≠ NotFound ∧ raw_os_error e ≠ Some ERROR_ACCESS_DENIED ∧ ∃ v, open v = (Err e, w)).

Definition checked (w0 : W) (r : io_result bool) (w : W) (s : captured A) : Prop :=
  onward w0 w ∧
  match r with
  | Ok true => ∃ v f, open v = (Ok f, w) ∧ opened s = Some f
  | Ok false => since w0 w s ∧ is_Some (missing s)
  | Err e => refused w0 w e
  end.

Lemma attempt_answers passes w0 w s :
  since w0 w s → opened s = None → (DENIED_RETRIES - denied s + (if rechecked s then 0 else 1) < passes)%nat →
  ∃ r w' s', attempt open publishing passes (w, s) = (Some r, (w', s')) ∧ checked w0 r w' s' ∧
    (r ≠ Ok true → opened s' = None).
Proof.
  revert w s. induction passes as [|passes IH]; intros w s Hs Hop Hn; [lia|]. simpl.
  pose proof (open_onward w) as Ho. destruct (open w) as [[f|e] w1] eqn:Eo; simpl in Ho.
  { do 3 eexists. split; [done|]. split; [|done]. split; [etrans; [apply Hs|done]|]. eauto. }
  assert (since w0 w1 s) as Hs1 by by eapply since_later.
  case_bool_decide as Hd; simpl.
  { destruct (open_denied _ _ _ Eo Hd) as [Hk Hb]. pose proof (since_denied _ _ _ Hs) as [Hle Hc].
    destruct (Nat.ltb_spec (denied s) DENIED_RETRIES) as [Hlt|Hge].
    - apply IH; [|done|cbn [denied rechecked]; lia]. constructor; simpl; [apply Hs1|lia|apply Hs1..].
    - rewrite bool_decide_eq_false_2 by (rewrite Hk; done). do 3 eexists. split; [done|]. split; [|done].
      split; [apply Hs1|]. right; left. split; [done|lia]. }
  case_bool_decide as Hk.
  2: { do 3 eexists. split; [done|]. split; [|done]. split; [apply Hs1|]. right; right. eauto. }
  pose proof (open_missing _ _ _ Eo Hk) as Hgap. pose proof (publishing_onward w1) as Hp.
  destruct (publishing w1) as [b w2] eqn:Ep; simpl in Hp. assert (since w0 w2 s) as Hs2 by by eapply since_later.
  destruct b.
  { do 3 eexists. split; [done|]. split; [|done]. split; [apply Hs2|]. split; [|by eexists].
    constructor; simpl; [apply Hs2..|done|by intros ? [= <-]]. }
  apply publishing_seen in Ep. destruct Ho as (_ & Hb & He), Hp as (_ & Hb' & He').
  destruct (rechecked s) eqn:Er.
  - do 3 eexists. split; [done|]. split; [|done]. split; [apply Hs2|]. left. split; [done|].
    pose proof (since_rechecked _ _ _ Hs Er). lia.
  - apply IH; [|done|cbn [denied rechecked]; lia]. pose proof (since_onward _ _ _ Hs) as (_ & _ & ?).
    constructor; simpl; [apply Hs2..|lia|apply Hs2].
Qed.

Lemma attempt_onward passes w s r w' s' : attempt open publishing passes (w, s) = (r, (w', s')) → onward w w'.
Proof.
  revert w s. induction passes as [|passes IH]; intros w s; simpl; [by intros [= _ <- _]|].
  pose proof (open_onward w) as Ho. destruct (open w) as [[f|e] w1]; simpl in Ho; [by intros [= _ <- _]|].
  destruct (_ && _); [intros E; etrans; [exact Ho|by eapply IH]|]. case_bool_decide; [|by intros [= _ <- _]].
  pose proof (publishing_onward w1) as Hp. destruct (publishing w1) as [b w2]; simpl in Hp.
  assert (onward w w2) by by etrans. destruct b; [by intros [= _ <- _]|]. destruct (rechecked s); [by intros [= _ <- _]|].
  intros E. etrans; [done|]. by eapply IH.
Qed.

(** The state between two checks. *)
Definition waiting (w0 : W) (v : W * captured A) : Prop := since w0 v.1 v.2 ∧ opened v.2 = None.

Lemma waiting_onward w0 w s w' : waiting w0 (w, s) → onward w w' → waiting w0 (w', s).
Proof. intros [Hs Ho] Hw. split; [|done]. simpl in *. by eapply since_later. Qed.

Lemma check_answers w0 w s :
  waiting w0 (w, s) → ∃ r w' s', check open publishing (w, s) = (r, (w', s')) ∧ checked w0 r w' s' ∧
    (r ≠ Ok true → opened s' = None).
Proof.
  intros [Hs Ho]. destruct (attempt_answers 10 w0 w s Hs Ho) as (r & w' & s' & E & Hr).
  { unfold DENIED_RETRIES. destruct (rechecked s); lia. }
  exists r, w', s'. unfold check. rewrite E. done.
Qed.

(** What a caller of [retry_open] learns at [w'] of a record that was there at [w0]. *)
Definition answered (w0 : W) (deadline : Z) (r : io_result A) (w' : W) : Prop :=
  match r with
  | Ok f => ∃ v v', open v = (Ok f, v')
  | Err e => (kind e = NotFound ∧ deadline ≤ time w') ∨ refused w0 w' e
  end.

Lemma retry_open_answers passes deadline w :
  (polls FIRST deadline w < passes)%nat →
  ∃ r w', retry_open open publishing passes deadline w = (Some r, w') ∧ answered w deadline r w'.
Proof.
  intros Hn. unfold retry_open.
  assert (waiting w (w, Captured 0 false None None)) as Hw.
  { split; [|done]. constructor; simpl; [reflexivity|unfold DENIED_RETRIES; lia|done..]. }
  assert (∀ v : W * captured A, time v ≤ time (check open publishing v).2) as Hmono.
  { intros [v s]. unfold check. destruct (attempt _ _ 10 (v, s)) as [r' [v' s']] eqn:E. by apply attempt_onward in E as [? _]. }
  destruct (poll_terminates _ Hmono passes FIRST deadline (w, Captured 0 false None None)) as [r Hr]; [done..|].
  fold (poll passes (check open publishing) (Some deadline) (w, Captured 0 false None None)) in Hr.
  destruct (poll _ _ _ _) as [r' [w' s']] eqn:E. simpl in Hr. subst r'.
  eapply (poll_invariant _ (waiting w)) in E; [| | | |exact Hw].
  - destruct r as [[]|e].
    + destruct E as ([v s] & Hv & E). destruct (check_answers w v s Hv) as (r & w2 & s2 & E2 & Hc & _).
      rewrite E in E2. injection E2 as <- <- <-. destruct Hc as (_ & v' & f & Ef & ->). do 2 eexists. split; [done|]. simpl. eauto.
    + destruct E as [[Hs Ho] (d & v & v' & [= <-] & Ht & _)]. simpl in *. rewrite Ho. do 2 eexists. split; [done|]. simpl.
      left. split; [|done]. pose proof (since_missing _ _ _ Hs) as Hm. destruct (missing s'); [by apply Hm|done].
    + destruct E as ([v s] & Hv & E). destruct (check_answers w v s Hv) as (r & w2 & s2 & E2 & Hc & _).
      rewrite E in E2. injection E2 as <- <- <-. destruct Hc as (_ & Hc). do 2 eexists. split; [done|]. by right.
  - intros [v s] [v1 s1] Hv Ev. destruct (check_answers w v s Hv) as (r2 & w2 & s2 & E2 & Hc & Hop).
    rewrite Ev in E2. injection E2 as <- <- <-. split; [apply Hc|by apply Hop].
  - intros [v s] Hv. pose proof (now_onward v). simpl. destruct (now v) as [t v']. by eapply waiting_onward.
  - intros d [v s] Hv. by eapply waiting_onward; [|apply sleep_onward].
Qed.
End opening.


(** A record whose one replacement hides it for 39 milliseconds. *)
Module Hidden.
Definition start : Z := from_millis 1.
Definition stop : Z := from_millis 40.
Abbreviation t := (Sim unit).

Definition passed (at_ : Z) (w : t) : nat := if at_ <=? sim_time w then 1 else 0.
Definition later (w : t) : t := MkSim (sim_time w + 1) (sim_script w).

Definition open (w : t) : io_result Z * t :=
  (if (sim_time w <? start) && (start <=? sim_time (later w)) then Err (IoError PermissionDenied (Some 5) "")
   else if (start <=? sim_time w) && (sim_time w <? stop) then Err (error_of_kind NotFound) else Ok 7, later w).
Definition publishing (w : t) : bool * t := ((start <=? sim_time w) && (sim_time w <? stop), later w).

#[global, refine] Instance replaced : Opening.Replaced Z t open publishing := { begun := passed start; ended := passed stop }.
Proof.
  all: unfold passed, open, publishing, later, start, stop, from_millis.
  - intros w. destruct (Z.leb_spec (40 * 1000000) (sim_time w)), (Z.leb_spec (1 * 1000000) (sim_time w)); lia.
  - intros w. simpl. repeat case_match; bools; split_and!; lia.
  - intros w. simpl. repeat case_match; bools; split_and!; lia.
  - intros w. simpl. repeat case_match; bools; split_and!; lia.
  - intros d w. simpl. repeat case_match; bools; split_and!; lia.
  - intros w e w' E. simpl in *. repeat case_match; simplify_eq; bools; simpl; intros; try done; lia.
  - intros w w' E. simpl in *. repeat case_match; simplify_eq; bools; lia.
  - intros w e w' E. simpl in *. repeat case_match; simplify_eq; bools; simpl in *; intros; try done; (split; [done|lia]).
Defined.
End Hidden.


(** ** Telling a publication in progress from the directory *)

Module Temporary.
Definition DOT : Z := 46.
Definition FRESH : Z := from_secs 10.
Definition AHEAD : Z := from_secs 1.

(** [encode_wide] of ASCII text. *)
Definition wide (l : bytes) : units := byte_val <$> l.

(** The temporary [publish_record_with] makes for a record. *)
Definition wide_temporary (filename : units) (pid n : Z) : units :=
  [DOT] ++ filename ++ wide (bs "." ++ to_string pid ++ bs "." ++ to_string n ++ bs ".tmp").

(** [String::from_utf16]: the characters, surrogates in pairs only. *)
Fixpoint from_utf16 (l : units) : option (list Z) :=
  match l with
  | [] => Some []
  | u :: rest =>
      if (u <? 0xD800) || (0xDFFF <? u) then (u ::.) <$> from_utf16 rest
      else if 0xDC00 <=? u then None
      else match rest with
           | v :: rest =>
               if (0xDC00 <=? v) && (v <=? 0xDFFF)
               then ((0x10000 + (u - 0xD800) * 0x400 + (v - 0xDC00)) ::.) <$> from_utf16 rest else None
           | [] => None
           end
  end.

Definition strip_suffix (suffix l : list Z) : option (list Z) := reverse <$> strip_prefix (reverse suffix) (reverse l).

(** [str::split] at a character. *)
Fixpoint split_at (sep : Z) (l : list Z) : list (list Z) :=
  match l with
  | [] => [[]]
  | c :: rest =>
      if c =? sep then [] :: split_at sep rest else
      match split_at sep rest with part :: parts => (c :: part) :: parts | [] => [[c]] end
  end.

(** A digit is one byte, and no byte of another character is a digit. *)
Definition number (part : list Z) : bool := negb (bool_decide (part = [])) && forallb (λ c, (48 <=? c) && (c <=? 57)) part.

(** Whether a temporary created at [created] can be in use at [now]. *)
Definition fresh (created now : Z) : bool :=
  if created <=? now then now - created <? FRESH else created - now <=? AHEAD.

Section code.
(** [CompareStringOrdinal] ignoring case. *)
Context (compare_ordinal : units → units → bool).

Definition same_name (a b : units) : bool :=
  (Z.of_nat (length a) <=? 2 ^ 31 - 1) && (Z.of_nat (length b) <=? 2 ^ 31 - 1) && compare_ordinal a b.

Definition is_temporary (name record : units) : bool :=
  match strip_prefix [DOT] name with
  | None => false
  | Some rest =>
      if (length rest <? length record)%nat then false else
      let named := take (length record) rest in
      match from_utf16 (drop (length record) rest) with
      | None => false
      | Some rest =>
          match strip_prefix [DOT] rest ≫= strip_suffix (wide (bs ".tmp")) with
          | None => false
          | Some numbers =>
              match split_at DOT numbers with
              | [a; b] => number a && number b && same_name named record
              | _ => false
              end
          end
      end
  end.

(** [publishing]: [file_name] is the record's, if the path has one, and [read_dir]
    the directory's entries and when each was created, if that can be told, or
    nothing if it cannot be listed. *)
Definition publishing (file_name : option units) (read_dir : option (list (units * option Z))) (now : Z) : bool :=
  match file_name, read_dir with
  | Some record, Some entries =>
      existsb (λ '(name, created), is_temporary name record &&
                 match created with Some created => fresh created now | None => false end) entries
  | _, _ => false
  end.
End code.
End Temporary.

Section temporaries.
Import Temporary.

Lemma from_utf16_ascii l chars : Forall (λ c, c < 0xD800) chars → (from_utf16 l = Some chars ↔ l = chars).
Proof.
  intros Hc. split.
  - revert chars Hc. induction l as [l IH] using (well_founded_induction (well_founded_ltof _ (@length Z))). destruct l as [|u rest]; intros chars Hc; simpl; [congruence|].
    destruct (_ || _) eqn:Hu.
    { destruct (from_utf16 rest) as [cs|] eqn:E; [|done]. intros [= <-]. apply Forall_cons in Hc as [_ Hc]. f_equal.
      apply IH; [unfold ltof; simpl; lia|done..]. }
    destruct (Z.leb_spec 0xDC00 u); [done|]. destruct rest as [|v rest]; [done|]. destruct (_ && _) eqn:Hv; [|done].
    destruct (from_utf16 rest); [|done]. intros [= <-]. apply Forall_cons in Hc as [Hc _]. bools. lia.
  - intros ->. induction Hc as [|c l Hc _ IH]; [done|]. simpl. rewrite (proj2 (Z.ltb_lt c _)) by done. simpl. by rewrite IH.
Qed.

Lemma split_at_two sep l a b : split_at sep l = [a; b] ↔ (l = a ++ sep :: b ∧ sep ∉ a ∧ sep ∉ b).
Proof.
  assert (∀ l, split_at sep l ≠ []) as Hne.
  { intros k. destruct k; simpl; [done|]. repeat case_match; done. }
  assert (∀ l b, split_at sep l = [b] ↔ (l = b ∧ sep ∉ b)) as Hone.
  { induction l0 as [|c l0 IH]; intros b'; simpl; [split; [intros [= <-]; split; [done|apply not_elem_of_nil]|by intros [<- _]]|].
    destruct (Z.eqb_spec c sep) as [->|Hc].
    - specialize (Hne l0). destruct (split_at sep l0); [done|]. split; [done|]. intros [<- Hin]. by destruct Hin; left.
    - specialize (Hne l0). destruct (split_at sep l0) as [|p ps]; [done|]. split.
      + intros [= <- ->]. destruct (proj1 (IH p) eq_refl) as [-> Hp]. split; [done|]. by apply not_elem_of_cons.
      + intros [<- Hin]. apply not_elem_of_cons in Hin as [_ Hin].
        by injection (proj2 (IH l0) (conj eq_refl Hin)) as -> ->. }
  revert a. induction l as [|c l IH]; intros a; simpl; [split; [done|]; by intros (E & _); destruct a|].
  destruct (Z.eqb_spec c sep) as [->|Hc].
  - split.
    + intros [= <- E]. apply Hone in E as [-> Hb]. split_and!; [done|apply not_elem_of_nil|done].
    + intros (E & Ha & Hb). destruct a as [|x a]; simplify_eq/=; [|by destruct Ha; left].
      f_equal. by apply Hone.
  - specialize (Hne l). destruct (split_at sep l) as [|p ps] eqn:El; [done|]. split.
    + intros [= <- ->]. destruct (proj1 (IH p) eq_refl) as (-> & Hp & Hb). split_and!; [done| |done]. by apply not_elem_of_cons.
    + intros (E & Ha & Hb). destruct a as [|x a]; simplify_eq/=. apply not_elem_of_cons in Ha as [_ Ha].
      destruct (IH a) as [_ IH']. by injection (IH' (conj eq_refl (conj Ha Hb))) as -> ->.
Qed.

(** A name as [publish_record_with] writes them, for a record called [named]. *)
Definition temporary_of (named a b : units) : units := [DOT] ++ named ++ [DOT] ++ a ++ [DOT] ++ b ++ wide (bs ".tmp").

Lemma number_digits part : number part = true ↔ part ≠ [] ∧ Forall (λ c, 48 ≤ c ≤ 57) part.
Proof.
  unfold number. rewrite andb_true_iff, negb_true_iff, bool_decide_eq_false, <- Is_true_true, forallb_True.
  assert (∀ c, (48 <=? c) && (c <=? 57) ↔ 48 ≤ c ≤ 57) as Hc by (intros c; rewrite Is_true_true, andb_true_iff, !Z.leb_le; done).
  by rewrite (Forall_iff _ _ _ Hc).
Qed.

Lemma number_ascii part : number part = true → Forall (λ c, c < 0xD800) part.
Proof. intros [_ H]%number_digits. eapply Forall_impl; [exact H|]. simpl. lia. Qed.

Lemma number_no_dot part : number part = true → DOT ∉ part.
Proof. intros [_ Hd]%number_digits Hin. rewrite Forall_forall in Hd. apply Hd in Hin. unfold DOT in Hin. lia. Qed.

Lemma strip_suffix_Some suffix l rest : strip_suffix suffix l = Some rest ↔ l = rest ++ suffix.
Proof.
  unfold strip_suffix. rewrite fmap_Some. split.
  - intros (r & Hr%strip_prefix_Some & ->). by rewrite <- (reverse_involutive l), Hr, reverse_app, reverse_involutive.
  - intros ->. exists (reverse rest). rewrite reverse_involutive. split; [|done]. apply strip_prefix_Some, reverse_app.
Qed.

(** Text cut at the last separator is cut in one way. *)
Lemma last_sep_inj (sep : Z) (a b a' b' : list Z) :
  sep ∉ b → sep ∉ b' → a ++ sep :: b = a' ++ sep :: b' → a = a' ∧ b = b'.
Proof.
  revert b'. induction b as [|x b IH] using rev_ind; intros b'; destruct b' as [|y b' _] using rev_ind; intros Hb Hb' E.
  - by apply app_inj_tail in E as [-> _].
  - exfalso. rewrite app_comm_cons, app_assoc in E. apply app_inj_tail in E as [_ ->]. apply Hb', elem_of_app. right. by left.
  - exfalso. rewrite app_comm_cons, app_assoc in E. apply app_inj_tail in E as [_ <-]. apply Hb, elem_of_app. right. by left.
  - rewrite !app_comm_cons, !app_assoc in E. apply app_inj_tail in E as [E ->].
    apply not_elem_of_app in Hb as [Hb _], Hb' as [Hb' _]. by destruct (IH b' Hb Hb' E) as [-> ->].
Qed.

Lemma temporary_of_inj named a b named' a' b' :
  number a = true → number b = true → number a' = true → number b' = true →
  temporary_of named a b = temporary_of named' a' b' → named = named' ∧ a = a' ∧ b = b'.
Proof.
  intros Ha%number_no_dot Hb%number_no_dot Ha'%number_no_dot Hb'%number_no_dot. unfold temporary_of.
  intros E%app_inj_1; [|done]. destruct E as [_ E].
  assert (∀ x y z, x ++ [DOT] ++ y ++ [DOT] ++ z ++ wide (bs ".tmp") = ((x ++ DOT :: y) ++ DOT :: z) ++ wide (bs ".tmp")) as Hassoc.
  { intros. by rewrite <- !app_assoc. }
  rewrite !Hassoc in E. apply app_inj_2 in E as [E _]; [|done].
  apply last_sep_inj in E as [E ->]; [|done..]. by apply last_sep_inj in E as [-> ->].
Qed.

Section recognised.
Context (compare_ordinal : units → units → bool).
Hypothesis compare_lengths : ∀ a b, compare_ordinal a b = true → length a = length b.
Let same_name := same_name compare_ordinal.

Lemma same_name_lengths a b : same_name a b = true → length a = length b.
Proof using compare_lengths. unfold same_name, Temporary.same_name. intros H. bools. by apply compare_lengths. Qed.

Lemma is_temporary_spec name record :
  is_temporary compare_ordinal name record = true ↔
  ∃ named a b, name = temporary_of named a b ∧ number a = true ∧ number b = true ∧ same_name named record = true.
Proof using compare_lengths.
  unfold is_temporary. split.
  - destruct (strip_prefix [DOT] name) as [rest|] eqn:E1; [|done]. apply strip_prefix_Some in E1.
    destruct (Nat.ltb_spec (length rest) (length record)); [done|].
    destruct (from_utf16 _) as [chars|] eqn:E2; [|done].
    destruct (strip_prefix [DOT] chars) as [chars'|] eqn:E3; simpl; [|done]. apply strip_prefix_Some in E3.
    destruct (strip_suffix _ chars') as [numbers|] eqn:E4; [|done]. apply strip_suffix_Some in E4.
    destruct (split_at DOT numbers) as [|a [|b [|]]] eqn:E5; try done. apply split_at_two in E5 as (-> & _ & _). intros Hn. bools.
    exists (take (length record) rest), a, b. split_and!; [|done..].
    apply from_utf16_ascii in E2.
    + rewrite <- (take_drop (length record) rest), E2, E3, E4 in E1. rewrite E1. unfold temporary_of. by rewrite <- (app_assoc a).
    + subst. repeat apply Forall_app_2; [by repeat constructor|by apply number_ascii| |by repeat constructor].
      apply Forall_cons. split; [done|by apply number_ascii].
  - intros (named & a & b & -> & Ha & Hb & Hs). pose proof (same_name_lengths _ _ Hs) as Hl. unfold temporary_of.
    rewrite (proj2 (strip_prefix_Some [DOT] _ _) eq_refl). rewrite length_app, Hl.
    destruct (Nat.ltb_spec (length record + length ([DOT] ++ a ++ [DOT] ++ b ++ wide (bs ".tmp"))) (length record)); [lia|].
    rewrite take_app_length', drop_app_length' by done.
    assert (from_utf16 ([DOT] ++ a ++ [DOT] ++ b ++ wide (bs ".tmp")) = Some ([DOT] ++ a ++ [DOT] ++ b ++ wide (bs ".tmp"))) as ->.
    { apply from_utf16_ascii; [|done]. repeat apply Forall_app_2; try (by apply number_ascii); by repeat constructor. }
    rewrite (proj2 (strip_prefix_Some [DOT] _ _) eq_refl). simpl.
    rewrite (proj2 (strip_suffix_Some _ _ (a ++ DOT :: b))) by by rewrite <- app_assoc.
    rewrite (proj2 (split_at_two DOT _ a b)) by (split_and!; [done|by apply number_no_dot..]).
    fold same_name. by rewrite Ha, Hb, Hs.
Qed.
End recognised.
End temporaries.

Lemma wide_number n : 0 ≤ n → Temporary.number (Temporary.wide (to_string n)) = true.
Proof.
  intros Hn. apply number_digits. split; [intros E%fmap_nil_inv; by eapply to_string_nonempty|].
  apply Forall_fmap. eapply Forall_impl; [by apply to_string_digits|]. intros b Hb. unfold is_ascii_digit in Hb. bools. simpl. lia.
Qed.

(** A publication in progress is told from what else is in the directory. The
    temporary that [publish_record_with] makes for a file is one of the record's
    exactly if it is made for the record's own name, whatever dots and digits the
    names hold; and a publication is seen exactly if such a temporary is listed that
    was created in the last ten seconds, or less than a second ahead of the clock. *)
Theorem publications_are_recognised (compare_ordinal : units → units → bool) (record : units) :
  (∀ a b, compare_ordinal a b = true → length a = length b) →
  (∀ filename pid n, 0 ≤ pid → 0 ≤ n →
    Temporary.is_temporary compare_ordinal (Temporary.wide_temporary filename pid n) record =
    Temporary.same_name compare_ordinal filename record) ∧
  ∀ entries now,
    Temporary.publishing compare_ordinal (Some record) (Some entries) now = true ↔
    ∃ named a b created, (temporary_of named a b, Some created) ∈ entries ∧
      Temporary.number a = true ∧ Temporary.number b = true ∧ Temporary.same_name compare_ordinal named record = true ∧
      created - from_secs 1 ≤ now < created + from_secs 10.
Proof.
  intros Hlen. split.
  - intros f pid n Hp Hn.
    assert (Temporary.wide_temporary f pid n =
      temporary_of f (Temporary.wide (to_string pid)) (Temporary.wide (to_string n))) as ->.
    { unfold Temporary.wide_temporary, temporary_of, Temporary.wide. by rewrite !fmap_app. }
    apply wide_number in Hp, Hn. apply eq_true_iff_eq. rewrite is_temporary_spec by done. split; [|by eauto 10].
    intros (named & a & b & E & Ha & Hb & Hs). by apply temporary_of_inj in E as (-> & _).
  - intros entries now. unfold Temporary.publishing. rewrite <- Is_true_true, existb_True, Exists_exists. split.
    + intros ([name [c|]] & Hin & H); rewrite Is_true_true in H; bools; [|done].
      apply is_temporary_spec in H as (named & a & b & -> & Ha & Hb & Hs); [|done]. exists named, a, b, c. split_and!; try done.
      all: unfold Temporary.fresh, Temporary.FRESH, Temporary.AHEAD, from_secs in *; destruct (Z.leb_spec c now); bools; lia.
    + intros (named & a & b & c & Hin & Ha & Hb & Hs & Hc). eexists. split; [exact Hin|]. simpl. rewrite Is_true_true.
      rewrite (proj2 (is_temporary_spec _ Hlen _ _)) by eauto 10. simpl.
      unfold Temporary.fresh, Temporary.FRESH, Temporary.AHEAD, from_secs in *. destruct (Z.leb_spec c now); [apply Z.ltb_lt|apply Z.leb_le]; lia.
Qed.

(** Names of equal length that differ in ASCII case only. *)
Definition ordinal_ignoring_case (a b : units) : bool := CommandLine.same_name a b.

Lemma publications_are_recognised_witness :
  let record := Temporary.wide (bs "a.7") in
  let others := [(Temporary.wide_temporary (Temporary.wide (bs "a")) 7 1, Some 0)] in
  Temporary.is_temporary ordinal_ignoring_case (Temporary.wide_temporary (Temporary.wide (bs "A.7")) 12 3) record = true ∧
  Temporary.publishing ordinal_ignoring_case (Some record) (Some others) 5 = false.
Proof.
  intros record others.
  destruct (publications_are_recognised ordinal_ignoring_case record) as [H1 H2].
  { intros a b Hab. unfold ordinal_ignoring_case, CommandLine.same_name in Hab. bools. by apply Nat.eqb_eq. }
  split; [rewrite H1 by lia; vm_compute; reflexivity|].
  destruct (Temporary.publishing _ (Some record) (Some others) 5) eqn:E; [|reflexivity].
  vm_compute in E. discriminate E.
Defined.

(** ** Renaming the written file over the record *)

Module Renaming.
Definition FILE_RENAME_FLAG_REPLACE_IF_EXISTS : Z := 1.
Definition FILE_RENAME_FLAG_POSIX_SEMANTICS : Z := 2.
Definition ERROR_INVALID_FUNCTION : Z := 1.
Definition ERROR_NOT_SUPPORTED : Z := 50.
Definition ERROR_INVALID_PARAMETER : Z := 87.

Definition too_long : io_error := error_new InvalidInput "record path is too long".

(** [verbatim]: a path on a drive gets the prefix that lifts its length limit. *)
Definition verbatim (path : units) : units :=
  match path with
  | drive :: 58 :: _ =>
      if ((65 <=? drive) && (drive <=? 90)) || ((97 <=? drive) && (drive <=? 122))
      then BACKSLASH :: BACKSLASH :: 63 :: BACKSLASH :: path else path
  | _ => path
  end.

(** Where the fields of [FileRenameInfo] are on a 64-bit target. *)
Definition FLAGS : nat := 0.
Definition ROOT_DIRECTORY : nat := 8.
Definition FILE_NAME_LENGTH : nat := 16.
Definition FILE_NAME : nat := 20.

(** A write through a pointer into the buffer: nothing if it would leave it. *)
Definition write_at (offset : nat) (data buffer : bytes) : option bytes :=
  if (offset + length data <=? length buffer)%nat
  then Some (take offset buffer ++ data ++ drop (offset + length data) buffer) else None.

Definition unit_bytes (l : units) : bytes := l ≫= to_le_bytes 2.

(** The request [rename_posix] builds for [name]: the buffer and the size it
    reports; [None] is a write out of bounds. *)
Definition rename_info (name : units) : option (io_result (bytes * Z)) :=
  let name_bytes := Z.of_nat (length name * 2) in
  if u32_max <? name_bytes then Some (Err too_long) else
  let size := (FILE_NAME + length name * 2 + 2)%nat in
  let buffer := replicate (8 * ((size + 7) / 8))%nat x00 in
  buffer ← write_at FLAGS (to_le_bytes 4 (Z.lor FILE_RENAME_FLAG_REPLACE_IF_EXISTS FILE_RENAME_FLAG_POSIX_SEMANTICS)) buffer;
  buffer ← write_at ROOT_DIRECTORY (to_le_bytes 8 0) buffer;
  buffer ← write_at FILE_NAME_LENGTH (to_le_bytes 4 name_bytes) buffer;
  buffer ← write_at FILE_NAME (unit_bytes name) buffer;
  Some (if u32_max <? Z.of_nat size then Err too_long else Ok (buffer, Z.of_nat size)).

(** [absolute] and [SetFileInformationByHandle] are the system's. *)
Definition rename_posix {W} (absolute : W → io_result units * W) (set_information : bytes → Z → W → io_result unit * W) (w : W)
    : option (io_result unit) * W :=
  match absolute w with
  | (Err e, w) => (Some (Err e), w)
  | (Ok path, w) =>
      match rename_info (verbatim path) with
      | None => (None, w)
      | Some (Err e) => (Some (Err e), w)
      | Some (Ok (buffer, size)) => let '(r, w) := set_information buffer size w in (Some r, w)
      end
  end.

Section replace.
Context {F W : Type}.
(** The file by name: [std::fs::rename], and the record reopened by name. *)
Context (fs_rename : W → io_result unit * W) (reopen : W → io_result F * W).

Definition unsupported (e : io_error) : bool :=
  bool_decide (raw_os_error e = Some ERROR_INVALID_FUNCTION ∨ raw_os_error e = Some ERROR_NOT_SUPPORTED ∨
    raw_os_error e = Some ERROR_INVALID_PARAMETER).

Definition replace_with (file : F) (durable : bool) (rename : F → W → io_result unit * W)
    (flush : F → W → io_result unit * W) (w : W) : io_result unit * W :=
  match rename file w with
  | (Ok _, w) => if durable then flush file w else (Ok tt, w)
  | (Err e, w) =>
      if unsupported e then
        match fs_rename w with
        | (Err e, w) => (Err e, w)
        | (Ok _, w) =>
            if durable then
              match reopen w with
              | (Err e, w) => (Err e, w)
              | (Ok record, w) => flush record w
              end
            else (Ok tt, w)
        end
      else (Err e, w)
  end.
End replace.

(** What the kernel reads of a request. *)
Definition field (offset width : nat) (buffer : bytes) : Z := from_le_bytes (take width (drop offset buffer)).
Fixpoint read_units (n : nat) (l : bytes) : units :=
  match n with O => [] | S n => from_le_bytes (take 2 l) :: read_units n (drop 2 l) end.
End Renaming.

Section requests.
Import Renaming.

Lemma write_at_app offset a old c data buffer :
  offset = length a → length old = length data → buffer = a ++ old ++ c →
  write_at offset data buffer = Some (a ++ data ++ c).
Proof.
  intros -> Hl ->. unfold write_at. rewrite !length_app. rewrite (proj2 (Nat.leb_le _ _)) by lia.
  rewrite take_app_length. f_equal. f_equal. f_equal. rewrite <- Hl, <- length_app, app_assoc. apply drop_app_length.
Qed.

Lemma unit_bytes_length l : length (unit_bytes l) = (length l * 2)%nat.
Proof.
  induction l as [|u l IH]; [done|]. change (unit_bytes (u :: l)) with (to_le_bytes 2 u ++ unit_bytes l).
  by rewrite length_app, length_to_le_bytes, IH.
Qed.

Lemma read_units_bytes l rest : Forall is_u16 l → read_units (length l) (unit_bytes l ++ rest) = l.
Proof.
  induction 1 as [|u l Hu _ IH]; [done|]. change (unit_bytes (u :: l)) with (to_le_bytes 2 u ++ unit_bytes l).
  cbn [read_units length]. rewrite <- app_assoc. rewrite (take_app_length' (to_le_bytes 2 u)), (drop_app_length' (to_le_bytes 2 u)) by done.
  rewrite from_to_le_bytes by exact Hu. by rewrite IH.
Qed.

(** The buffer of a request, field by field, the padding included. *)
Lemma rename_info_buffer name :
  2 * Z.of_nat (length name) ≤ u32_max →
  let size := (22 + length name * 2)%nat in
  ∃ rest, rename_info name =
    Some (if u32_max <? Z.of_nat size then Err too_long else
      Ok (to_le_bytes 4 3 ++ replicate 4 x00 ++ replicate 8 x00 ++ to_le_bytes 4 (Z.of_nat (length name * 2)) ++
          unit_bytes name ++ [x00; x00] ++ rest, Z.of_nat size)).
Proof.
  intros Hn size. unfold rename_info.
  replace (FILE_NAME + length name * 2 + 2)%nat with size by (unfold size, FILE_NAME; lia).
  destruct (Z.ltb_spec u32_max (Z.of_nat (length name * 2))); [lia|].
  assert (∃ m, (8 * ((size + 7) / 8))%nat = (size + m)%nat) as [m Hm].
  { exists (8 * ((size + 7) / 8) - size)%nat. pose proof (Nat.div_mod (size + 7) 8). pose proof (Nat.mod_upper_bound (size + 7) 8). lia. }
  rewrite Hm. exists (replicate m x00).
  assert (replicate (size + m) x00 =
    replicate 4 x00 ++ replicate 4 x00 ++ replicate 8 x00 ++ replicate 4 x00 ++ replicate (length name * 2) x00 ++ [x00; x00] ++ replicate m x00) as ->.
  { change [x00; x00] with (replicate 2 x00). rewrite <- !replicate_add. f_equal. unfold size. lia. }
  set (tail := [x00; x00] ++ replicate m x00). set (n := Z.of_nat (length name * 2)). change (Z.lor _ _) with 3.
  set (flags := to_le_bytes 4 3). set (pad := replicate 4 x00). set (root := replicate 8 x00).
  set (old := replicate (length name * 2) x00). change (to_le_bytes 8 0) with root.
  rewrite (write_at_app _ [] pad (pad ++ root ++ pad ++ old ++ tail)) by done. cbn [mbind option_bind].
  rewrite (write_at_app _ (flags ++ pad) root (pad ++ old ++ tail)) by done. cbn [mbind option_bind].
  rewrite (write_at_app _ (flags ++ pad ++ root) pad (old ++ tail)) by done. cbn [mbind option_bind].
  rewrite (write_at_app _ (flags ++ pad ++ root ++ to_le_bytes 4 n) old tail); [|done| |].
  - cbn [mbind option_bind]. by rewrite <- !app_assoc.
  - unfold old. by rewrite length_replicate, unit_bytes_length.
  - by rewrite <- !app_assoc.
Qed.

(** The rename request is well formed. For every path, building the request of
    [rename_posix] writes nothing outside its buffer; a path too long for the
    request's 32-bit sizes is refused, and any other request holds, within the size
    it reports, both flags, no root directory, the path's length in bytes and the
    path itself, unit by unit, with a NUL after it. *)
Theorem rename_requests_fit (name : units) :
  Forall is_u16 name →
  ∃ r, Renaming.rename_info name = Some r ∧
  match r with
  | Err e => e = Renaming.too_long ∧ u32_max < Z.of_nat (22 + length name * 2)
  | Ok (buffer, size) =>
      size = Z.of_nat (22 + length name * 2) ∧ size ≤ u32_max ∧ size ≤ Z.of_nat (length buffer) ∧
      field FLAGS 4 buffer = 3 ∧ field ROOT_DIRECTORY 8 buffer = 0 ∧
      field FILE_NAME_LENGTH 4 buffer = 2 * Z.of_nat (length name) ∧
      read_units (S (length name)) (drop FILE_NAME buffer) = name ++ [0]
  end.
Proof.
  intros Hu. destruct (decide (2 * Z.of_nat (length name) ≤ u32_max)) as [Hn|Hn].
  2: { exists (Err too_long). split; [|split; [done|lia]]. unfold rename_info.
       destruct (Z.ltb_spec u32_max (Z.of_nat (length name * 2))); [done|lia]. }
  destruct (rename_info_buffer name Hn) as [rest ->]. eexists. split; [done|].
  destruct (Z.ltb_spec u32_max (Z.of_nat (22 + length name * 2))); [split; [done|lia]|]. split_and!.
  - done.
  - done.
  - rewrite !length_app, !length_replicate, !length_to_le_bytes, unit_bytes_length. simpl. lia.
  - reflexivity.
  - reflexivity.
  - transitivity (from_le_bytes (to_le_bytes 4 (Z.of_nat (length name * 2)))); [reflexivity|].
    rewrite from_to_le_bytes; [lia|]. unfold u32_max in *. lia.
  - transitivity (read_units (length name + 1) (unit_bytes name ++ [x00; x00] ++ rest)).
    { by rewrite Nat.add_1_r. }
    assert (∀ n l r, read_units (length l + n) (unit_bytes l ++ r) = read_units (length l) (unit_bytes l ++ r) ++ read_units n r) as Hsplit.
    { intros n. induction l as [|u l IH]; intros r; [done|]. change (unit_bytes (u :: l)) with (to_le_bytes 2 u ++ unit_bytes l).
      cbn [length Nat.add read_units]. rewrite <- app_assoc. rewrite !(drop_app_length' (to_le_bytes 2 u)) by done. by rewrite IH. }
    rewrite Hsplit, read_units_bytes by done. done.
Qed.
End requests.

Lemma rename_requests_fit_witness :
  ∃ buffer, Renaming.rename_info (Renaming.verbatim (Temporary.wide (bs "C:\r"))) = Some (Ok (buffer, 38)) ∧
    Renaming.field Renaming.FILE_NAME_LENGTH 4 buffer = 16.
Proof.
  set (name := Renaming.verbatim (Temporary.wide (bs "C:\r"))).
  destruct (rename_requests_fit name) as (r & E & Hr).
  { vm_compute. repeat constructor; intros H; discriminate H. }
  destruct r as [[buffer size]|e]; [|exfalso; vm_compute in E; discriminate E]. destruct Hr as (Hs & _ & _ & _ & _ & Hl & _).
  exists buffer. split; [rewrite E, Hs; reflexivity|rewrite Hl; reflexivity].
Defined.

(** A durable replacement that succeeds ends with a flush: of the written file
    itself if it was renamed through its handle, else of the record as found by
    name after it was renamed. *)
Lemma replace_with_flushes {F W} (fs_rename : W → io_result unit * W) (reopen : W → io_result F * W)
    (file : F) rename flush (w w' : W) :
  Renaming.replace_with fs_rename reopen file true rename flush w = (Ok tt, w') →
  ∃ f v, flush f v = (Ok tt, w') ∧
    (f = file ∧ rename file w = (Ok tt, v) ∨
     ∃ e v0 v1, rename file w = (Err e, v0) ∧ Renaming.unsupported e = true ∧ fs_rename v0 = (Ok tt, v1) ∧ reopen v1 = (Ok f, v)).
Proof.
  unfold Renaming.replace_with. destruct (rename file w) as [[[]|e] v] eqn:Er; [by eauto 10|].
  destruct (Renaming.unsupported e) eqn:Eu; [|done]. destruct (fs_rename v) as [[[]|e'] v'] eqn:Ef; [|done].
  destruct (reopen v') as [[f|e'] v1] eqn:Eo; [|done]. intros E. exists f, v1. split; [done|]. right. by eauto 10.
Qed.
