(* ===== verification/Peer.v ===== *)
(** * Peer policies (src/peer.rs, src/pid.rs)

    What the operating system reports about a peer, and the policies that turn it
    into a grant. A policy may read state its consumer keeps current, so it is a
    function of that state too. *)
From S2P Require Import Prelude.

Module ProcessId.
(** [ProcessId::new] of a [u32]: PID 0 is no process. *)
Definition new (pid : Z) : option Z := if pid =? 0 then None else Some pid.
End ProcessId.

Module UserEvidence.
Inductive t := Connection | PidLookup.
#[global] Instance eq_dec : EqDecision t.
Proof. solve_decision. Defined.
End UserEvidence.

Module Credentials.
Record t := mk { pid : option Z; same_user : bool; user_evidence : UserEvidence.t }.

Definition new (pid : option Z) (same_user : bool) : t := mk pid same_user UserEvidence.Connection.
Definition with_user_evidence (e : UserEvidence.t) (c : t) : t := mk (pid c) (same_user c) e.

(** [PartialEq]: where the user came from does not count. *)
Definition eq (a b : t) : bool :=
  bool_decide (pid a = pid b) && Bool.eqb (same_user a) (same_user b).

#[global] Instance equiv : Equiv t := λ a b, eq a b = true.
#[global] Instance equivalence : Equivalence (≡@{t}).
Proof.
  assert (∀ a b : t, a ≡ b ↔ pid a = pid b ∧ same_user a = same_user b) as E.
  { intros a b. unfold "≡", equiv, eq. by rewrite andb_true_iff, bool_decide_eq_true, eqb_true_iff. }
  split.
  - intros a. by apply E.
  - intros a b. rewrite !E. by intros [-> ->].
  - intros a b c. rewrite !E. by intros [-> ->] [-> ->].
Qed.
End Credentials.

Module Rejected.
Inductive t :=
| OtherUser | Unreported | NoExpectedProcess
| OtherProcess (expected observed : Z)
| NoPolicy
| Custom (reason : string).
End Rejected.

(** [match_pid]; a [PidMatch] is the PID both agree on. *)
Definition match_pid (observed : option Z) (expected : Z) : result Rejected.t Z :=
  match observed with
  | None => Err Rejected.Unreported
  | Some observed =>
      if decide (observed = expected) then Ok observed else Err (Rejected.OtherProcess expected observed)
  end.

(** The trait [Policy]: the grant, and the consumer's state, which asking may
    change. *)
Definition Policy (W G : Type) : Type := Credentials.t → W → result Rejected.t G * W.

Section policies.
Context {W : Type}.

Definition SameUser : Policy W unit := λ c w,
  (if Credentials.same_user c then Ok tt else Err Rejected.OtherUser, w).

Definition ExpectedProcess (expected : W → option Z * W) : Policy W Z := λ c w,
  match SameUser c w with
  | (Err r, w) => (Err r, w)
  | (Ok _, w) =>
      let '(e, w) := expected w in
      (e ← ok_or e Rejected.NoExpectedProcess; match_pid (Credentials.pid c) e, w)
  end.

(** [First]: its tiers, oldest first. *)
Definition First (G : Type) : Type := list (Policy W G).

Definition first_new {G} : First G := [].

Definition then_ {G H} (policy : Policy W H) (g : G) (f : First G) : First G :=
  f ++ [λ c w, let '(r, w) := policy c w in ((λ _, g) <$> r, w)].

Fixpoint try_tiers {G} (tiers : First G) (rejected : Rejected.t) : Policy W G := λ c w,
  match tiers with
  | [] => (Err rejected, w)
  | tier :: tiers =>
      match tier c w with
      | (Ok g, w) => (Ok g, w)
      | (Err reason, w) => try_tiers tiers reason c w
      end
  end.

Definition first_grant {G} (f : First G) : Policy W G := try_tiers f Rejected.NoPolicy.
End policies.

(** [Authenticated]: the connection with its grant and the credentials it was
    granted for. *)
Record Authenticated (C G : Type) : Type := MkAuthenticated { connection : C; granted : G; credentials : Credentials.t }.
Arguments MkAuthenticated {C G} _ _ _.
Arguments connection {C G} _.
Arguments granted {C G} _.
Arguments credentials {C G} _.

Definition authenticate {C W G} (c : C) (cr : Credentials.t) (policy : Policy W G) (w : W)
    : result Rejected.t (Authenticated C G) * W :=
  let '(r, w) := policy cr w in ((λ g, MkAuthenticated c g cr) <$> r, w).

(** ** What a grant shows *)

(** The tiers tried without success: their reasons, in order. *)
Fixpoint refusals {W G} (tiers : @First W G) (c : Credentials.t) (w : W) : option (list Rejected.t * W) :=
  match tiers with
  | [] => Some ([], w)
  | tier :: tiers =>
      match tier c w with
      | (Ok _, _) => None
      | (Err r, w) => '(rs, w) ← refusals tiers c w; Some (r :: rs, w)
      end
  end.

Lemma try_tiers_refused {W G} (tiers : @First W G) rejected c w rs w' :
  refusals tiers c w = Some (rs, w') → try_tiers tiers rejected c w = (Err (default rejected (last rs)), w').
Proof.
  revert rejected w rs. induction tiers as [|t tiers IH]; intros rejected w rs; simpl; [by intros [= <- <-]|].
  destruct (t c w) as [[g|r] w1]; [done|]. destruct (refusals tiers c w1) as [[rs1 w2]|] eqn:E; [|done].
  intros [= <- <-]. rewrite (IH r w1 rs1 E), last_cons. by destruct (last rs1).
Qed.

Lemma try_tiers_granted {W G} (tiers : @First W G) rejected c w :
  refusals tiers c w = None →
  ∃ before tier after rs w1 g w2,
    tiers = before ++ tier :: after ∧ refusals before c w = Some (rs, w1) ∧ tier c w1 = (Ok g, w2) ∧
    try_tiers tiers rejected c w = (Ok g, w2).
Proof.
  revert rejected w. induction tiers as [|t tiers IH]; intros rejected w; simpl; [done|].
  destruct (t c w) as [[g|r] w1] eqn:Et.
  { intros _. exists [], t, tiers, [], w, g, w1. done. }
  destruct (refusals tiers c w1) as [[rs1 w2]|] eqn:E; [done|]. intros _.
  destruct (IH r w1 E) as (before & tier & after & rs & w2 & g & w3 & -> & Hb & Ht & Htry).
  exists (t :: before), tier, after, (r :: rs), w2, g, w3. simpl. rewrite Et, Hb. done.
Qed.

(** A grant is earned. The expected process is granted only to a peer of this
    user with exactly the PID that was expected, asked for once and after the user
    was checked. A list of policies grants what is paired with the first policy
    that accepts, when all before it refused, and otherwise gives the reason of
    the last one; without policies it accepts nobody. *)
Theorem grants_are_earned {W G} (expected : W → option Z * W) (f : First G) c w :
  (∀ p w', ExpectedProcess expected c w = (Ok p, w') ↔
     Credentials.same_user c = true ∧ Credentials.pid c = Some p ∧ expected w = (Some p, w')) ∧
  (Credentials.same_user c = false → ExpectedProcess expected c w = (Err Rejected.OtherUser, w)) ∧
  match refusals f c w with
  | Some (rs, w') => first_grant f c w = (Err (default Rejected.NoPolicy (last rs)), w')
  | None => ∃ before tier after rs w1 g w2,
      f = before ++ tier :: after ∧ refusals before c w = Some (rs, w1) ∧ tier c w1 = (Ok g, w2) ∧
      first_grant f c w = (Ok g, w2)
  end.
Proof.
  unfold ExpectedProcess, SameUser. split_and!.
  - intros p w'. destruct (Credentials.same_user c); [|naive_solver].
    destruct (expected w) as [[e|] w1]; simpl; [|naive_solver].
    unfold match_pid. destruct (Credentials.pid c) as [o|]; [|naive_solver]. case_decide; naive_solver.
  - by intros ->.
  - destruct (refusals f c w) as [[rs w']|] eqn:E; [by apply try_tiers_refused|by apply try_tiers_granted].
Qed.

(** The example of the documentation: the expected process sees everything, any
    other of the same user a redacted view. *)
Lemma grants_are_earned_witness :
  let policy := then_ SameUser 2 (then_ (ExpectedProcess (λ u : unit, (Some 42, u))) 1 first_new) in
  first_grant policy (Credentials.new (Some 42) true) tt = (Ok 1, tt) ∧
  first_grant policy (Credentials.new (Some 7) true) tt = (Ok 2, tt) ∧
  first_grant policy (Credentials.new (Some 42) false) tt = (Err Rejected.OtherUser, tt) ∧
  ExpectedProcess (λ u : unit, (Some 42, u)) (Credentials.new (Some 42) false) tt = (Err Rejected.OtherUser, tt).
Proof.
  split_and!; [reflexivity|reflexivity|reflexivity|].
  apply (grants_are_earned (G := Z) (λ u : unit, (Some 42, u)) first_new (Credentials.new (Some 42) false) tt). reflexivity.
Defined.

(** ** Policies that check the user *)

(** What a server may rely on: a peer of another user is refused, without asking
    the consumer anything, and equal credentials are treated alike. *)
Class ChecksUser {W G} (policy : Policy W G) : Prop := {
  other_user_refused c w : Credentials.same_user c = false → ∃ r, policy c w = (Err r, w);
  policy_proper :: Proper ((≡) ==> (=) ==> (=)) policy;
}.

Lemma credentials_equiv c d : c ≡ d ↔ Credentials.pid c = Credentials.pid d ∧ Credentials.same_user c = Credentials.same_user d.
Proof. unfold "≡", Credentials.equiv, Credentials.eq. by rewrite andb_true_iff, bool_decide_eq_true, eqb_true_iff. Qed.

#[export] Instance same_user_checks {W} : ChecksUser (SameUser (W := W)).
Proof.
  split.
  - intros c w E. exists Rejected.OtherUser. unfold SameUser. by rewrite E.
  - intros c d [_ E]%credentials_equiv w ? <-. unfold SameUser. by rewrite E.
Qed.

#[export] Instance expected_process_checks {W} (expected : W → option Z * W) : ChecksUser (ExpectedProcess expected).
Proof.
  split.
  - intros c w E. exists Rejected.OtherUser. unfold ExpectedProcess, SameUser. by rewrite E.
  - intros c d [Ep Es]%credentials_equiv w ? <-. unfold ExpectedProcess, SameUser. by rewrite Ep, Es.
Qed.

Lemma then_checks {W G H} (policy : Policy W H) (g : G) (f : First G) :
  ChecksUser policy → Forall ChecksUser f → Forall ChecksUser (then_ policy g f).
Proof.
  intros Hp Hf. apply Forall_app. split; [done|]. apply Forall_singleton. split.
  - intros c w E. destruct (other_user_refused c w E) as [r ->]. by exists r.
  - intros c d E w ? <-. by rewrite (policy_proper (policy := policy) c d E w w eq_refl).
Qed.

Lemma try_tiers_checks {W G} (f : @First W G) rejected : Forall ChecksUser f → ChecksUser (try_tiers f rejected).
Proof.
  intros Hf. revert rejected. induction Hf as [|t f Ht Hf IH]; intros rejected; (split; simpl; [intros c w E|intros c d E w ? <-]).
  - by exists rejected.
  - done.
  - destruct (other_user_refused (policy := t) c w E) as [r ->]. by apply (other_user_refused (policy := try_tiers f r)).
  - rewrite (policy_proper (policy := t) c d E w w eq_refl). destruct (t d w) as [[g|r] w1]; [done|].
    by apply (policy_proper (policy := try_tiers f r)).
Qed.
