(* ===== verification/Tokens.v ===== *)
(** * Comparing Windows process tokens (src/local/security.rs, src/local/security/)

    [SecurityInformation] is a query's buffer at its address, with the bounds every
    read of it is checked against; [Attributes] decodes the native attribute list;
    [compare_tokens] is the comparison, over the calls a system offers. A read that
    leaves its buffer, an index that panics and a slice out of range are [None].

    The layouts of Win32 records and [GetLengthSid] are not the crate's: they are the
    class [Layouts]. The two records security/attributes.rs declares itself are
    written out for a 64-bit little-endian target. *)
From stdpp Require Import sorting.
From S2P Require Import Prelude Session.

(** ** A buffer the system filled *)

(** A record of a fixed size, and its value in those bytes. *)
Record native (A : Type) := Native { size_of : nat; decode : bytes → A }.
Arguments Native {A} _ _.
Arguments size_of {A} _.
Arguments decode {A} _ _.

Definition u32 : native Z := Native 4 from_le_bytes.
Definition pointer : native Z := Native 8 from_le_bytes.

(** [n] bytes read at [offset] of a buffer. *)
Definition peek (content : bytes) (offset n : nat) : option bytes :=
  if (offset + n <=? length content)%nat then Some (take n (drop offset content)) else None.

Module SecurityInformation.
(** [Information]: the address of the storage and its first [length] bytes. *)
Record t := mk { address : Z; content : bytes }.

Definition value {A} (T : native A) (i : t) : option (io_result A) :=
  if (length (content i) <? size_of T)%nat then Some (Err (error_other "truncated process security context")) else
  b ← peek (content i) 0 (size_of T);
  Some (Ok (decode T b)).

Definition array {A} (T : native A) (offset : nat) (count : Z) (i : t) : option (io_result (list A)) :=
  let length := length (content i) in
  if count =? 0 then Some (Ok []) else
  if (Z.of_nat ((length - offset) / size_of T) <? count) || (length <? offset)%nat
  then Some (Err (error_other "invalid process security context array")) else
  l ← mapM (λ index, peek (content i) (offset + index * size_of T) (size_of T)) (seq 0 (Z.to_nat count));
  Some (Ok (decode T <$> l)).

Definition pointed_bytes (p n : Z) (i : t) : option (io_result bytes) :=
  let length := Z.of_nat (length (content i)) in
  let offset := p - address i in
  if offset <? 0 then Some (Err (error_other "invalid process security context pointer")) else
  if (length <? offset) || (length - offset <? n)
  then Some (Err (error_other "process security context pointer is out of bounds")) else
  b ← peek (content i) (Z.to_nat offset) (Z.to_nat n);
  Some (Ok b).
End SecurityInformation.

(** ** The ordinary attributes of a token *)

Module Attributes.
Record Attributes := mk { version : Z; reserved : Z; count : Z; first : Z }.
Record Attribute := Attr {
  name_length : Z; maximum_length : Z; name_buffer : Z;
  value_type : Z; attr_reserved : Z; flags : Z; values_count : Z; values : Z;
}.

(** A field of [n] bytes at [offset] of a record. *)
Definition field (offset n : nat) (b : bytes) : Z := from_le_bytes (take n (drop offset b)).

Definition attributes : native Attributes :=
  Native 16 (λ b, mk (field 0 2 b) (field 2 2 b) (field 4 4 b) (field 8 8 b)).
Definition attribute : native Attribute :=
  Native 40 (λ b, Attr (field 0 2 b) (field 2 2 b) (field 8 8 b)
                       (field 16 2 b) (field 18 2 b) (field 20 4 b) (field 24 4 b) (field 32 8 b)).

Inductive OrdinaryAttributes := Empty | ProcessUnique.
#[global] Instance ordinary_eq_dec : EqDecision OrdinaryAttributes.
Proof. solve_decision. Defined.

Section decoding.
(** A slice is the buffer it lies in: its address and its bytes. *)
Variable slice : SecurityInformation.t.

Definition offset (p : Z) : io_result Z :=
  let start := p - SecurityInformation.address slice in
  if start <? 0 then Err (error_other "invalid token security attribute pointer") else Ok start.

(** [get(start..)] and then [get(..n)]. *)
Definition get (start : Z) (n : nat) : option bytes :=
  let l := SecurityInformation.content slice in
  if Z.of_nat (length l) <? start then None else
  let tail := drop (Z.to_nat start) l in
  if (length tail <? n)%nat then None else Some (take n tail).

Definition region (p : Z) (n : nat) : io_result bytes :=
  start ← offset p;
  ok_or (get start n) (error_other "truncated token security attribute").

Definition value {A} (T : native A) (start : Z) : io_result A :=
  b ← ok_or (get start (size_of T)) (error_other "truncated token security attribute record");
  Ok (decode T b).

(** ["TSA://ProcUnique"] in UTF-16. *)
Definition expected : bytes := bs "TSA://ProcUnique" ≫= λ b, [b; x00].

Definition ordinary_attributes : io_result (option OrdinaryAttributes) :=
  header ← value attributes 0;
  if negb (version header =? 1) || negb (reserved header =? 0) then Ok None else
  if count header =? 0 then Ok (Some Empty) else
  if count header =? 1 then
    start ← offset (first header);
    a ← value attribute start;
    if negb (value_type a =? 2) || negb (attr_reserved a =? 0) || negb (flags a =? 65) ||
       negb (values_count a =? 2) || negb (name_length a =? 32) || (maximum_length a <? name_length a)
    then Ok None else
    name ← region (name_buffer a) 32;
    if bool_decide (name ≠ expected) then Ok None else
    _ ← region (values a) 16;
    Ok (Some ProcessUnique)
  else Ok None.
End decoding.

Definition matching_ordinary_attributes (client daemon : SecurityInformation.t) : io_result bool :=
  c ← ordinary_attributes client;
  match c with
  | None => Ok false
  | Some c => d ← ordinary_attributes daemon; Ok (bool_decide (Some c = d))
  end.
End Attributes.

(** ** The system *)

(** The classes of [GetTokenInformation] the crate asks for. *)
Inductive information_class :=
| TokenIsAppContainer | TokenUserClaimAttributes | TokenDeviceClaimAttributes | TokenCapabilities
| TokenStatistics | TokenAccessInformation
| TokenElevation | TokenElevationType | TokenSessionId | TokenUIAccess | TokenHasRestrictions
| TokenVirtualizationAllowed | TokenVirtualizationEnabled | TokenMandatoryPolicy
| TokenUser | TokenOwner | TokenPrimaryGroup | TokenIntegrityLevel
| TokenGroups | TokenRestrictedSids | TokenDeviceGroups | TokenPrivileges
| TokenDefaultDacl | TokenSecurityAttributes.
#[export] Instance information_class_eq_dec : EqDecision information_class.
Proof. solve_decision. Defined.

(** The fields of [TOKEN_STATISTICS] and [TOKEN_ACCESS_INFORMATION] the code reads;
    a LUID is its high and low parts. *)
Record Statistics := mk_statistics { AuthenticationId : Z * Z; ModifiedId : Z * Z }.
Record Access := mk_access { TokenType : Z; Flags : Z; TrustLevelSid : Z; SecurityAttributes : Z }.

Class Layouts := {
  TOKEN_STATISTICS : native Statistics;
  TOKEN_ACCESS_INFORMATION : native Access;
  SID_AND_ATTRIBUTES : native (Z * Z);
  LUID_AND_ATTRIBUTES : native (Z * Z * Z);
  TOKEN_DEFAULT_DACL : native Z;
  (** The size in an [ACL]'s header. *)
  ACL : native Z;
  GROUPS : nat;
  PRIVILEGES : nat;
  (** The length of the SID that starts with these eight bytes. *)
  GetLengthSid : bytes → Z;
}.

(** What a process [P] and a token [T] are asked. [size_information] is the length
    the size query leaves, whether it succeeds or not; [allocate] the address of a
    vector of so many words; [get_information] what a query writes to a buffer of a
    length at an address, and the length it reports. *)
Class TokenCalls (W P T : Type) := {
  open_token : P → W → io_result T * W;
  close_token : T → W → W;
  size_information : T → information_class → W → Z * W;
  allocate : Z → W → Z * W;
  get_information : T → information_class → Z → Z → W → io_result (bytes * Z) * W;
}.

(** The system writes no more than the length it was given; lengths are not negative. *)
Class TokenLaws (W P T : Type) `{!TokenCalls W P T} := {
  size_positive t class w : 0 ≤ (size_information t class w).1;
  written_fits t class p n w data n' w' : 0 ≤ n →
    get_information t class p n w = (Ok (data, n'), w') → Z.of_nat (length data) ≤ n ∧ 0 ≤ n';
}.

(** ** Code over the system: it may fail, and may do what Rust does not define *)

Definition run (W A : Type) : Type := W → option (io_result A * W).
#[export] Instance run_ret {W} : MRet (run W) := λ A a w, Some (Ok a, w).
#[export] Instance run_bind {W} : MBind (run W) := λ A B f m w,
  match m w with
  | None => None
  | Some (Err e, w) => Some (Err e, w)
  | Some (Ok a, w) => f a w
  end.
#[export] Instance run_fmap {W} : FMap (run W) := λ A B f m w,
  match m w with
  | None => None
  | Some (Err e, w) => Some (Err e, w)
  | Some (Ok a, w) => Some (Ok (f a), w)
  end.
Definition pure {W A} (r : option (io_result A)) : run W A := λ w, (λ r, (r, w)) <$> r.

Section comparison.
Context {W P T : Type} `{!TokenCalls W P T, !Layouts}.

(** A call of the system that always returns, and one that may fail. *)
Definition always {A} (f : W → A * W) : run W A := λ w, let '(a, w) := f w in Some (Ok a, w).
Definition calls {A} (f : W → io_result A * W) : run W A := λ w, Some (f w).

(** [Information::read]. The vector is zeroed, and the kept bytes are a slice of it. *)
Definition read (t : T) (class : information_class) : run W SecurityInformation.t :=
  length ← always (size_information t class);
  if (length =? 0) || (2 ^ 20 <? length) then pure (Some (Err (error_other "cannot size process security context"))) else
  let words := (length + 7) / 8 in
  address ← always (allocate words);
  '(data, reported) ← calls (get_information t class address length);
  let storage := data ++ replicate (Z.to_nat (8 * words) - List.length data) x00 in
  if 8 * words <? reported
  then pure (Some (Err (error_other "process security context grew while reading"))) else
  content ← pure (Ok <$> peek storage 0 (Z.to_nat reported));
  mret (SecurityInformation.mk address content).

Definition read_value {A} (t : T) (class : information_class) (N : native A) : run W A :=
  i ← read t class; pure (SecurityInformation.value N i).

Definition sid (i : SecurityInformation.t) (p : Z) : run W bytes :=
  header ← pure (SecurityInformation.pointed_bytes p 8 i);
  pure (SecurityInformation.pointed_bytes p (GetLengthSid header) i).

Definition optional_sid (i : SecurityInformation.t) (p : Z) : run W (option bytes) :=
  if p =? 0 then mret None else Some <$> sid i p.

(** ** Sorted lists *)

(** The orders of [Vec<u8>] and of tuples. *)
Fixpoint lex_le (l k : list Z) : bool :=
  match l, k with
  | [], _ => true
  | _, [] => false
  | x :: l, y :: k => (x <? y) || (x =? y) && lex_le l k
  end.

Definition group_le (a b : bytes * Z) : bool :=
  if decide (a.1 = b.1) then a.2 <=? b.2 else lex_le (byte_val <$> a.1) (byte_val <$> b.1).
Definition privilege_le (a b : Z * Z * Z) : bool :=
  lex_le [a.1.1; a.1.2; a.2] [b.1.1; b.1.2; b.2].

(** [slice::sort]. *)
Definition sort {A} (le : A → A → bool) : list A → list A := merge_sort (λ a b, Is_true (le a b)).

(** ** What is compared *)

Fixpoint each {A B} (f : A → run W B) (l : list A) : run W (list B) :=
  match l with
  | [] => mret []
  | a :: l => b ← f a; rest ← each f l; mret (b :: rest)
  end.

Definition groups (t : T) (class : information_class) : run W (list (bytes * Z)) :=
  i ← read t class;
  count ← pure (SecurityInformation.value u32 i);
  l ← pure (SecurityInformation.array SID_AND_ATTRIBUTES GROUPS count i);
  l ← each (λ '(p, attributes), b ← sid i p; mret (b, attributes)) l;
  mret (sort group_le l).

Definition privileges (t : T) : run W (list (Z * Z * Z)) :=
  i ← read t TokenPrivileges;
  count ← pure (SecurityInformation.value u32 i);
  l ← pure (SecurityInformation.array LUID_AND_ATTRIBUTES PRIVILEGES count i);
  mret (sort privilege_le l).

Definition default_dacl (t : T) : run W (option bytes) :=
  i ← read t TokenDefaultDacl;
  p ← pure (SecurityInformation.value TOKEN_DEFAULT_DACL i);
  if p =? 0 then mret None else
  header ← pure (SecurityInformation.pointed_bytes p (Z.of_nat (size_of ACL)) i);
  Some <$> pure (SecurityInformation.pointed_bytes p (decode ACL header) i).

Definition ordinary_attributes_match (peer current : T) : run W bool :=
  p ← read peer TokenSecurityAttributes;
  c ← read current TokenSecurityAttributes;
  pure (Some (Attributes.matching_ordinary_attributes p c)).

(** [SecurityContextComparison]. *)
Inductive SecurityContextComparison := Equivalent | ProcessIdentityDiffers | Incompatible.
#[export] Instance comparison_eq_dec : EqDecision SecurityContextComparison.
Proof using. solve_decision. Defined.

Definition compare_token_generations (same_generation has_opaque_attributes : bool) (compare : run W bool) :
    run W SecurityContextComparison :=
  if same_generation || negb has_opaque_attributes then mret Equivalent else
  b ← compare;
  mret (if b : bool then ProcessIdentityDiffers else Incompatible).

(** A loop that returns [Incompatible] at the first check that asks for it. *)
Fixpoint some_of {A} (check : A → run W bool) (l : list A) : run W bool :=
  match l with
  | [] => mret false
  | a :: l => b ← check a; if b : bool then mret true else some_of check l
  end.

Definition in_app_container (t : T) : run W bool :=
  v ← read_value t TokenIsAppContainer u32; mret (negb (v =? 0)).

(** [array::<u32>(4, 1)?[0]]. *)
Definition has_claims (t : T) (class : information_class) : run W bool :=
  i ← read t class;
  l ← pure (SecurityInformation.array u32 4 1 i);
  match l with count :: _ => mret (negb (count =? 0)) | [] => pure None end.

Definition has_capabilities (t : T) : run W bool :=
  v ← read_value t TokenCapabilities u32; mret (negb (v =? 0)).

Definition unsupported (t : T) : run W bool :=
  b ← some_of (has_claims t) [TokenUserClaimAttributes; TokenDeviceClaimAttributes];
  if b : bool then mret true else has_capabilities t.

Definition differs {B} `{EqDecision B} (peer current : T) (f : T → run W B) : run W bool :=
  a ← f peer; b ← f current; mret (bool_decide (a ≠ b)).

Definition raw (class : information_class) (t : T) : run W bytes :=
  SecurityInformation.content <$> read t class.

(** The four records that start with their SID's pointer. Both are read before
    either is decoded. *)
Definition sid_differs (peer current : T) (class : information_class) : run W bool :=
  a ← read peer class;
  b ← read current class;
  p ← pure (SecurityInformation.value pointer a);
  x ← sid a p;
  q ← pure (SecurityInformation.value pointer b);
  y ← sid b q;
  mret (bool_decide (x ≠ y)).

Definition plain_classes : list information_class :=
  [TokenElevation; TokenElevationType; TokenSessionId; TokenUIAccess; TokenHasRestrictions;
   TokenVirtualizationAllowed; TokenVirtualizationEnabled; TokenMandatoryPolicy].
Definition sid_classes : list information_class := [TokenUser; TokenOwner; TokenPrimaryGroup; TokenIntegrityLevel].

(** [a || b], and so on. *)
Definition or_else (a b : run W bool) : run W bool := x ← a; if x : bool then mret true else b.

Definition TokenPrimary : Z := 1.

Definition compare_tokens (peer current : T) : run W SecurityContextComparison :=
  b ← some_of in_app_container [peer; current];
  if b : bool then mret Incompatible else
  b ← some_of unsupported [peer; current];
  if b : bool then mret Incompatible else
  peer_statistics ← read_value peer TokenStatistics TOKEN_STATISTICS;
  current_statistics ← read_value current TokenStatistics TOKEN_STATISTICS;
  if bool_decide (AuthenticationId peer_statistics ≠ AuthenticationId current_statistics) then mret Incompatible else
  let same_generation := bool_decide (ModifiedId peer_statistics = ModifiedId current_statistics) in
  peer_access ← read peer TokenAccessInformation;
  current_access ← read current TokenAccessInformation;
  a ← pure (SecurityInformation.value TOKEN_ACCESS_INFORMATION peer_access);
  b ← pure (SecurityInformation.value TOKEN_ACCESS_INFORMATION current_access);
  attributes ← compare_token_generations same_generation
    (negb (SecurityAttributes a =? 0) || negb (SecurityAttributes b =? 0)) (ordinary_attributes_match peer current);
  if bool_decide (attributes = Incompatible) then mret Incompatible else
  b ← or_else (mret (negb (TokenType a =? TokenPrimary) || negb (TokenType b =? TokenPrimary) || negb (Flags a =? Flags b)))
        (x ← optional_sid peer_access (TrustLevelSid a);
         y ← optional_sid current_access (TrustLevelSid b);
         mret (bool_decide (x ≠ y)));
  if b : bool then mret Incompatible else
  b ← some_of (λ class, differs peer current (raw class)) plain_classes;
  if b : bool then mret Incompatible else
  b ← some_of (sid_differs peer current) sid_classes;
  if b : bool then mret Incompatible else
  b ← or_else (differs peer current (λ t, groups t TokenGroups))
     (or_else (differs peer current (λ t, groups t TokenRestrictedSids))
     (or_else (differs peer current (λ t, groups t TokenDeviceGroups))
              (differs peer current privileges)));
  if b : bool then mret Incompatible else
  b ← differs peer current default_dacl;
  mret (if b : bool then Incompatible else attributes).

(** [compare_with_current_process]: both tokens are closed when it returns. *)
Definition compare_with_current_process (process current_process : P) : run W SecurityContextComparison := λ w,
  match open_token process w with
  | (Err e, w) => Some (Err e, w)
  | (Ok peer, w) =>
      match open_token current_process w with
      | (Err e, w) => Some (Err e, close_token peer w)
      | (Ok current, w) =>
          match compare_tokens peer current w with
          | None => None
          | Some (r, w) => Some (r, close_token peer (close_token current w))
          end
      end
  end.
End comparison.

(** ** Reads stay inside their buffers *)

Lemma peek_inside l offset n : (offset + n ≤ length l)%nat → is_Some (peek l offset n).
Proof. intros Hl. unfold peek. rewrite (proj2 (Nat.leb_le _ _) Hl). by eexists. Qed.

Lemma value_inside {A} (N : native A) i : is_Some (SecurityInformation.value N i).
Proof.
  unfold SecurityInformation.value. destruct (Nat.ltb_spec (length (SecurityInformation.content i)) (size_of N)); [by eexists|].
  destruct (peek_inside (SecurityInformation.content i) 0 (size_of N)) as [b ->]; [lia|]. by eexists.
Qed.

(** An array that is returned has the elements asked for. *)
Lemma array_inside {A} (N : native A) offset count i :
  ∃ r, SecurityInformation.array N offset count i = Some r ∧
    match r with Ok l => length l = Z.to_nat count | Err _ => True end.
Proof.
  unfold SecurityInformation.array. destruct (Z.eqb_spec count 0) as [->|Hn]; [by eexists|].
  set (n := length (SecurityInformation.content i)).
  destruct (_ || _) eqn:E; [by eexists|]. apply orb_false_iff in E as [E1%Z.ltb_ge E2%Nat.ltb_ge].
  assert (Z.to_nat count * size_of N ≤ n - offset)%nat as Hb.
  { pose proof (Nat.Div0.mul_div_le (n - offset) (size_of N)) as Hd. revert E1 Hd.
    generalize ((n - offset) / size_of N)%nat. intros q E1 Hd. etrans; [|exact Hd]. rewrite Nat.mul_comm.
    apply Nat.mul_le_mono_l. lia. }
  destruct (mapM (λ index, peek (SecurityInformation.content i) (offset + index * size_of N) (size_of N))
    (seq 0 (Z.to_nat count))) as [l|] eqn:E.
  - eexists; split; [done|]. apply length_mapM in E. rewrite length_seq in E. simpl. rewrite length_fmap. lia.
  - exfalso. apply mapM_None in E. apply Exists_exists in E as (k & Hk & E). apply elem_of_seq in Hk.
    destruct (peek_inside (SecurityInformation.content i) (offset + k * size_of N) (size_of N)) as [b Hp]; [|congruence].
    fold n. assert ((k + 1) * size_of N ≤ Z.to_nat count * size_of N)%nat by (apply Nat.mul_le_mono_r; lia). lia.
Qed.

Lemma pointed_bytes_inside p n i : is_Some (SecurityInformation.pointed_bytes p n i).
Proof.
  unfold SecurityInformation.pointed_bytes. destruct (Z.ltb_spec (p - SecurityInformation.address i) 0); [by eexists|].
  destruct (_ || _) eqn:E; [by eexists|]. apply orb_false_iff in E as [E1%Z.ltb_ge E2%Z.ltb_ge].
  destruct (peek_inside (SecurityInformation.content i) (Z.to_nat (p - SecurityInformation.address i)) (Z.to_nat n))
    as [b ->]; [lia|]. by eexists.
Qed.

Section safety.
Context {W P T : Type} `{!TokenCalls W P T, !TokenLaws W P T, !Layouts}.

(** Code whose every execution is defined. *)
Definition defined {A} (m : run W A) : Prop := ∀ w, is_Some (m w).

Lemma defined_ret {A} (a : A) : defined (mret a).
Proof. intros w. by eexists. Qed.

Lemma defined_bind {A B} (m : run W A) (f : A → run W B) : defined m → (∀ a, defined (f a)) → defined (m ≫= f).
Proof.
  intros Hm Hf w. unfold mbind, run_bind. destruct (Hm w) as [[[a|e] w'] ->]; [apply Hf|by eexists].
Qed.

Lemma defined_fmap {A B} (g : A → B) (m : run W A) : defined m → defined (g <$> m).
Proof. intros Hm w. unfold fmap, run_fmap. destruct (Hm w) as [[[a|e] w'] ->]; by eexists. Qed.

Lemma defined_pure {A} (r : option (io_result A)) : is_Some r → defined (pure r).
Proof. intros [x ->] w. by eexists. Qed.

Lemma defined_if {A} (b : bool) (m k : run W A) : defined m → defined k → defined (if b then m else k).
Proof. by destruct b. Qed.

Lemma defined_always {A} (f : W → A * W) : defined (always f).
Proof. intros w. unfold always. destruct (f w). by eexists. Qed.

Lemma defined_some_of {A} (f : A → run W bool) l : (∀ a, defined (f a)) → defined (some_of f l).
Proof.
  intros Hf. induction l as [|a l IH]; [apply defined_ret|].
  apply defined_bind; [done|]. intros []; [apply defined_ret|done].
Qed.

Lemma defined_each {A B} (f : A → run W B) l : (∀ a, defined (f a)) → defined (each f l).
Proof.
  intros Hf. induction l as [|a l IH]; [apply defined_ret|].
  apply defined_bind; [done|]. intros b. apply defined_bind; [done|]. intros rest. apply defined_ret.
Qed.

Lemma read_defined t class : defined (read t class).
Proof.
  intros w. unfold read, mbind, run_bind, always, calls.
  pose proof (size_positive t class w) as Hn. destruct (size_information t class w) as [n w1]; simpl in Hn.
  destruct (_ || _); [by eexists|]. destruct (allocate _ w1) as [p w2].
  destruct (get_information t class p n w2) as [[[data reported]|e] w3] eqn:E; [|by eexists].
  apply written_fits in E as [Hd Hr]; [|done]. set (words := (n + 7) / 8).
  assert (n ≤ 8 * words) as Hw by (unfold words; pose proof (Z.mul_div_le (n + 7) 8); pose proof (Z.mod_pos_bound (n + 7) 8);
    pose proof (Z.div_mod (n + 7) 8); lia).
  destruct (Z.ltb_spec (8 * words) reported); [by eexists|].
  destruct (peek_inside (data ++ replicate (Z.to_nat (8 * words) - length data) x00) 0 (Z.to_nat reported)) as [b Hb];
    [rewrite length_app, length_replicate; lia|].
  unfold pure. rewrite Hb. by eexists.
Qed.
Lemma sid_defined i p : defined (sid i p).
Proof.
  apply defined_bind; [apply defined_pure, pointed_bytes_inside|]. intros b. apply defined_pure, pointed_bytes_inside.
Qed.

Lemma array_defined {A} (N : native A) offset count i : defined (pure (SecurityInformation.array N offset count i)).
Proof. apply defined_pure. destruct (array_inside N offset count i) as (r & -> & _). by eexists. Qed.

Lemma value_defined {A} (N : native A) i : defined (pure (SecurityInformation.value N i)).
Proof. apply defined_pure, value_inside. Qed.

Lemma pointed_defined p n i : defined (pure (SecurityInformation.pointed_bytes p n i)).
Proof. apply defined_pure, pointed_bytes_inside. Qed.
End safety.

Create HintDb inside.
#[export] Hint Resolve defined_ret read_defined sid_defined array_defined value_defined pointed_defined
  defined_always : inside.
#[export] Hint Extern 1 (defined (pure (Some _))) => (apply defined_pure; by eexists) : inside.

(** Code made of reads, binds, choices and loops is defined when its reads are. *)
Ltac stay_inside :=
  repeat first
    [ solve [auto with inside]
    | apply defined_fmap
    | apply defined_bind; [|intros ?]
    | apply defined_if
    | apply defined_some_of; intros ?
    | apply defined_each; intros ? ].

Section inside.
Context {W P T : Type} `{!TokenCalls W P T, !TokenLaws W P T, !Layouts}.

Lemma optional_sid_defined i p : defined (optional_sid (W := W) i p).
Proof. unfold optional_sid. stay_inside. Qed.

Lemma groups_defined t class : defined (groups t class).
Proof. unfold groups. stay_inside. destruct a2. stay_inside. Qed.

Lemma has_claims_defined t class : defined (has_claims t class).
Proof.
  unfold has_claims. apply defined_bind; [auto with inside|]. intros i w.
  unfold mbind at 1, run_bind, pure at 1. destruct (array_inside u32 4 1 i) as (r & -> & Hl). simpl.
  destruct r as [[|count l]|e]; [done|by eexists..].
Qed.

#[local] Hint Resolve has_claims_defined : inside.

Lemma unsupported_defined t : defined (unsupported t).
Proof. unfold unsupported, has_capabilities, read_value. stay_inside. Qed.

Lemma default_dacl_defined t : defined (default_dacl t).
Proof. unfold default_dacl. stay_inside. Qed.

Lemma privileges_defined t : defined (privileges t).
Proof. unfold privileges. stay_inside. Qed.

Lemma differs_defined {B} `{EqDecision B} p c (f : T → run W B) : (∀ t, defined (f t)) → defined (differs p c f).
Proof. intros Hf. unfold differs. apply defined_bind; [done|]. intros a. apply defined_bind; [done|]. auto with inside. Qed.

Lemma or_else_defined (a b : run W bool) : defined a → defined b → defined (or_else a b).
Proof. intros. unfold or_else. stay_inside; auto. Qed.

Lemma attributes_defined p c same has : defined (compare_token_generations same has (ordinary_attributes_match p c)).
Proof. unfold compare_token_generations, ordinary_attributes_match. stay_inside. Qed.
End inside.

#[export] Hint Resolve optional_sid_defined groups_defined unsupported_defined default_dacl_defined privileges_defined
  attributes_defined : inside.

(** C21: comparing two processes' tokens reads no byte outside a buffer the system
    filled and never indexes past the end of a vector, whatever the buffers hold,
    wherever their pointers lead and however many elements they claim, as long as
    the system writes no more than the length it is given: every execution ends
    with a comparison or an error. *)
Theorem token_reads_stay_inside {W P T} `{!TokenCalls W P T, !TokenLaws W P T, !Layouts} (process current : P) (w : W) :
  is_Some (compare_with_current_process process current w).
Proof.
  unfold compare_with_current_process.
  destruct (open_token process w) as [[peer|e] w1]; [|by eexists].
  destruct (open_token current w1) as [[own|e] w2]; [|by eexists].
  assert (defined (compare_tokens peer own)) as Hd.
  { unfold compare_tokens, in_app_container, read_value, sid_differs, raw.
    stay_inside; repeat first [apply differs_defined; intros ?|apply or_else_defined]; stay_inside. }
  destruct (Hd w2) as [[r w3] ->]. by eexists.
Qed.

(** ** What the comparison decides *)

Section orders.
Lemma lex_le_total l k : lex_le l k = true ∨ lex_le k l = true.
Proof.
  revert k. induction l as [|x l IH]; intros [|y k]; simpl; auto.
  destruct (IH k); destruct (Z.ltb_spec x y), (Z.ltb_spec y x), (Z.eqb_spec x y), (Z.eqb_spec y x); simpl; auto; lia.
Qed.

Lemma lex_le_trans l k m : lex_le l k = true → lex_le k m = true → lex_le l m = true.
Proof.
  revert k m. induction l as [|x l IH]; intros [|y k] [|z m]; simpl; try done.
  rewrite !orb_true_iff, !andb_true_iff, !Z.ltb_lt, !Z.eqb_eq.
  intros [?|[-> ?]] [?|[-> ?]]; [left; lia|by left|by left|right; split; [done|by eapply IH]].
Qed.

Lemma lex_le_antisym l k : lex_le l k = true → lex_le k l = true → l = k.
Proof.
  revert k. induction l as [|x l IH]; intros [|y k]; simpl; try done.
  rewrite !orb_true_iff, !andb_true_iff, !Z.ltb_lt, !Z.eqb_eq.
  intros [?|[-> ?]] [?|[? ?]]; try lia. f_equal. by apply IH.
Qed.

(** Two lists sort alike exactly when they have the same elements as often. *)
Lemma sorts_alike {A} (le : A → A → bool) (l k : list A) :
  (∀ a b, le a b = true ∨ le b a = true) → (∀ a b c, le a b = true → le b c = true → le a c = true) →
  (∀ a b, le a b = true → le b a = true → a = b) → sort le l = sort le k ↔ l ≡ₚ k.
Proof.
  intros Htot Htrans Hanti. set (R := λ a b, Is_true (le a b)).
  assert (Total R) as HR by (intros a b; unfold R; destruct (Htot a b) as [-> | ->]; auto).
  assert (Transitive R) by (intros a b c; unfold R; rewrite !Is_true_true; apply Htrans).
  assert (AntiSymm (=) R) by (intros a b; unfold R; rewrite !Is_true_true; apply Hanti).
  assert (∀ l, sort le l ≡ₚ l) as Hp by (intros l'; apply merge_sort_Permutation).
  assert (∀ l, Sorted R (sort le l)) as Hs by (intros l'; by apply Sorted_merge_sort).
  split.
  - intros E. by rewrite <- (Hp l), <- (Hp k), E.
  - intros E. apply (Sorted_unique R); [done..|]. by rewrite !Hp.
Qed.

Lemma bytes_fmap_inj (l k : bytes) : byte_val <$> l = byte_val <$> k → l = k.
Proof.
  revert k. induction l as [|b l IH]; intros [|c k]; simpl; try done.
  intros [= E%byte_val_inj E2]. f_equal; auto.
Qed.

Lemma groups_sort_alike l k : sort group_le l = sort group_le k ↔ l ≡ₚ k.
Proof.
  apply sorts_alike.
  - intros [a x] [b y]. unfold group_le; simpl. repeat case_decide; subst; try done.
    + destruct (Z.leb_spec x y), (Z.leb_spec y x); auto; lia.
    + apply lex_le_total.
  - intros [a x] [b y] [c z]. unfold group_le; simpl. repeat case_decide; subst; try done.
    + rewrite !Z.leb_le. lia.
    + intros H1 H2. exfalso. pose proof (lex_le_antisym _ _ H1 H2) as E%bytes_fmap_inj. done.
    + apply lex_le_trans.
  - intros [a x] [b y]. unfold group_le; simpl. repeat case_decide; subst; try done.
    + rewrite !Z.leb_le. intros. f_equal. lia.
    + intros H1 H2. exfalso. pose proof (lex_le_antisym _ _ H1 H2) as E%bytes_fmap_inj. done.
Qed.

Lemma privileges_sort_alike l k : sort privilege_le l = sort privilege_le k ↔ l ≡ₚ k.
Proof.
  apply sorts_alike.
  - intros a b. apply lex_le_total.
  - intros a b c. apply lex_le_trans.
  - intros [[a b] c] [[a' b'] c'] H1 H2. pose proof (lex_le_antisym _ _ H1 H2) as [= -> -> ->]. done.
Qed.
End orders.

(** What a token says, for as long as it does not change. *)
Record View := mk_view {
  isolated : bool;                       (* in an AppContainer *)
  extended : bool;                       (* has claims or capabilities *)
  statistics : Statistics;
  primary : bool;
  view_flags : Z;
  trust : option bytes;
  opaque : bool;                         (* has security attributes *)
  ordinary : option Attributes.OrdinaryAttributes;
  view_raw : information_class → bytes;
  view_sid : information_class → bytes;
  view_groups : information_class → list (bytes * Z);
  view_privileges : list (Z * Z * Z);
  dacl : option bytes;
}.

Definition group_classes : list information_class := [TokenGroups; TokenRestrictedSids; TokenDeviceGroups].

(** The fields an access check depends on agree; the orders of groups and
    privileges do not matter. *)
Record same_access (v v' : View) : Prop := {
  same_supported : isolated v = false ∧ isolated v' = false ∧ extended v = false ∧ extended v' = false;
  same_logon : AuthenticationId (statistics v) = AuthenticationId (statistics v');
  same_primary : primary v = true ∧ primary v' = true;
  same_flags : view_flags v = view_flags v';
  same_trust : trust v = trust v';
  same_raw class : class ∈ plain_classes → view_raw v class = view_raw v' class;
  same_sid class : class ∈ sid_classes → view_sid v class = view_sid v' class;
  same_groups class : class ∈ group_classes → view_groups v class ≡ₚ view_groups v' class;
  same_privileges : view_privileges v ≡ₚ view_privileges v';
  same_dacl : dacl v = dacl v';
}.

(** Neither has opaque attributes, or they are of one generation. *)
Definition same_generation (v v' : View) : Prop :=
  ModifiedId (statistics v) = ModifiedId (statistics v') ∨ opaque v = false ∧ opaque v' = false.

(** Both have none but the process's own identity, or both none at all. *)
Definition ordinary_alike (v v' : View) : Prop := is_Some (ordinary v) ∧ ordinary v = ordinary v'.

Section decisions.
Context {W P T : Type} `{!TokenCalls W P T, !Layouts}.

(** Code that returns, whatever the world, and with what. *)
Definition yields {A} (m : run W A) (Q : A → Prop) : Prop := ∀ w, ∃ a w', m w = Some (Ok a, w') ∧ Q a.
Definition returns {A} (m : run W A) (a : A) : Prop := yields m (eq a).

(** Token [t] says [v]: every query of it is answered, and so. *)
Record reads_as (t : T) (v : View) : Prop := {
  reads_isolated : returns (in_app_container t) (isolated v);
  reads_extended : returns (unsupported t) (extended v);
  reads_statistics : returns (read_value t TokenStatistics TOKEN_STATISTICS) (statistics v);
  reads_access : yields (read t TokenAccessInformation) (λ i,
    ∃ a, SecurityInformation.value TOKEN_ACCESS_INFORMATION i = Some (Ok a) ∧ primary v = (TokenType a =? TokenPrimary) ∧
      view_flags v = Flags a ∧ opaque v = negb (SecurityAttributes a =? 0) ∧
      returns (optional_sid i (TrustLevelSid a)) (trust v));
  reads_attributes : yields (read t TokenSecurityAttributes) (λ i, Attributes.ordinary_attributes i = Ok (ordinary v));
  reads_raw class : class ∈ plain_classes → returns (raw class t) (view_raw v class);
  reads_sid class : class ∈ sid_classes → yields (read t class) (λ i,
    ∃ p, SecurityInformation.value pointer i = Some (Ok p) ∧ returns (sid i p) (view_sid v class));
  reads_groups class : class ∈ group_classes → returns (groups t class) (sort group_le (view_groups v class));
  reads_privileges : returns (privileges t) (sort privilege_le (view_privileges v));
  reads_dacl : returns (default_dacl t) (dacl v);
}.

Lemma yields_bind {A B} (m : run W A) (f : A → run W B) Q R :
  yields m Q → (∀ a, Q a → yields (f a) R) → yields (m ≫= f) R.
Proof.
  intros Hm Hf w. destruct (Hm w) as (a & w1 & E & Ha). destruct (Hf a Ha w1) as (b & w2 & E2 & Hb).
  exists b, w2. unfold mbind, run_bind. by rewrite E.
Qed.

Lemma returns_bind {A B} (m : run W A) (f : A → run W B) a R : returns m a → yields (f a) R → yields (m ≫= f) R.
Proof. intros Hm Hf. eapply yields_bind; [exact Hm|]. by intros ? <-. Qed.

Lemma returns_ret {A} (a : A) : returns (mret a) a.
Proof. intros w. by exists a, w. Qed.

Lemma returns_pure {A} (a : A) : returns (pure (Some (Ok a))) a.
Proof. intros w. by exists a, w. Qed.

Lemma returns_if {A} (b : bool) (m k : run W A) x y : returns m x → returns k y → returns (if b then m else k) (if b then x else y).
Proof. by destruct b. Qed.

Lemma returns_some_of {A} (f : A → run W bool) g l :
  (∀ a, a ∈ l → returns (f a) (g a)) → returns (some_of f l) (existsb g l).
Proof.
  induction l as [|a l IH]; intros Hf; [apply returns_ret|].
  eapply returns_bind; [apply Hf; left|]. simpl. destruct (g a); [apply returns_ret|].
  apply IH. intros b Hb. apply Hf. by right.
Qed.

Lemma returns_or_else (a b : run W bool) x y : returns a x → returns b y → returns (or_else a b) (x || y).
Proof. intros Ha Hb. eapply returns_bind; [exact Ha|]. destruct x; [apply returns_ret|done]. Qed.

Lemma returns_differs {B} `{EqDecision B} p c (f : T → run W B) x y :
  returns (f p) x → returns (f c) y → returns (differs p c f) (bool_decide (x ≠ y)).
Proof.
  intros Hx Hy. eapply returns_bind; [exact Hx|]. eapply returns_bind; [exact Hy|]. apply returns_ret.
Qed.

(** The comparison as a function of what the tokens say. *)
Definition generations (v v' : View) : SecurityContextComparison :=
  if bool_decide (ModifiedId (statistics v) = ModifiedId (statistics v')) || negb (opaque v || opaque v') then Equivalent else
  if bool_decide (is_Some (ordinary v)) && bool_decide (ordinary v = ordinary v') then ProcessIdentityDiffers else Incompatible.

Definition judge (v v' : View) : SecurityContextComparison :=
  if isolated v || isolated v' then Incompatible else
  if extended v || extended v' then Incompatible else
  if bool_decide (AuthenticationId (statistics v) ≠ AuthenticationId (statistics v')) then Incompatible else
  if bool_decide (generations v v' = Incompatible) then Incompatible else
  if negb (primary v) || negb (primary v') || negb (view_flags v =? view_flags v') || bool_decide (trust v ≠ trust v')
  then Incompatible else
  if existsb (λ class, bool_decide (view_raw v class ≠ view_raw v' class)) plain_classes then Incompatible else
  if existsb (λ class, bool_decide (view_sid v class ≠ view_sid v' class)) sid_classes then Incompatible else
  if existsb (λ class, bool_decide (sort group_le (view_groups v class) ≠ sort group_le (view_groups v' class))) group_classes ||
     bool_decide (sort privilege_le (view_privileges v) ≠ sort privilege_le (view_privileges v')) then Incompatible else
  if bool_decide (dacl v ≠ dacl v') then Incompatible else generations v v'.

Lemma generations_returned p c v v' : reads_as p v → reads_as c v' →
  returns (compare_token_generations (bool_decide (ModifiedId (statistics v) = ModifiedId (statistics v')))
    (opaque v || opaque v') (ordinary_attributes_match p c)) (generations v v').
Proof.
  intros Hp Hc. unfold compare_token_generations, generations. apply returns_if; [apply returns_ret|].
  eapply (returns_bind _ _ (bool_decide (is_Some (ordinary v)) && bool_decide (ordinary v = ordinary v')));
    [|destruct (_ && _); apply returns_ret].
  eapply yields_bind; [apply (reads_attributes _ _ Hp)|]. intros i Hi.
  eapply yields_bind; [apply (reads_attributes _ _ Hc)|]. intros j Hj.
  unfold Attributes.matching_ordinary_attributes. rewrite Hi. simpl. destruct (ordinary v) as [o|].
  - rewrite Hj. simpl. apply returns_pure.
  - apply returns_pure.
Qed.

Lemma sids_returned p c v v' class : reads_as p v → reads_as c v' → class ∈ sid_classes →
  returns (sid_differs p c class) (bool_decide (view_sid v class ≠ view_sid v' class)).
Proof.
  intros Hp Hc Hin. eapply yields_bind; [by apply (reads_sid _ _ Hp)|]. intros a (x & Hx & Hsx).
  eapply yields_bind; [by apply (reads_sid _ _ Hc)|]. intros b (y & Hy & Hsy).
  rewrite Hx. eapply returns_bind; [apply returns_pure|]. eapply returns_bind; [exact Hsx|].
  rewrite Hy. eapply returns_bind; [apply returns_pure|]. eapply returns_bind; [exact Hsy|]. apply returns_ret.
Qed.

Lemma returns_pair (f : T → run W bool) p c x y : returns (f p) x → returns (f c) y → returns (some_of f [p; c]) (x || y).
Proof.
  intros Hx Hy. eapply returns_bind; [exact Hx|]. destruct x; [apply returns_ret|].
  eapply returns_bind; [exact Hy|]. destruct y; apply returns_ret.
Qed.

Lemma trusts_returned p c v v' a b : reads_as p v → reads_as c v' →
  primary v = (TokenType a =? TokenPrimary) → primary v' = (TokenType b =? TokenPrimary) →
  view_flags v = Flags a → view_flags v' = Flags b → ∀ i j,
  returns (optional_sid i (TrustLevelSid a)) (trust v) → returns (optional_sid j (TrustLevelSid b)) (trust v') →
  returns (or_else (mret (negb (TokenType a =? TokenPrimary) || negb (TokenType b =? TokenPrimary) || negb (Flags a =? Flags b)))
      (x ← optional_sid i (TrustLevelSid a); y ← optional_sid j (TrustLevelSid b); mret (bool_decide (x ≠ y))))
    (negb (primary v) || negb (primary v') || negb (view_flags v =? view_flags v') || bool_decide (trust v ≠ trust v')).
Proof.
  intros _ _ -> -> -> -> i j Hi Hj. apply returns_or_else; [apply returns_ret|].
  eapply returns_bind; [exact Hi|]. eapply returns_bind; [exact Hj|]. apply returns_ret.
Qed.

Lemma lists_returned p c v v' : reads_as p v → reads_as c v' →
  returns (or_else (differs p c (λ t, groups t TokenGroups))
     (or_else (differs p c (λ t, groups t TokenRestrictedSids))
     (or_else (differs p c (λ t, groups t TokenDeviceGroups)) (differs p c privileges))))
    (existsb (λ class, bool_decide (sort group_le (view_groups v class) ≠ sort group_le (view_groups v' class))) group_classes ||
     bool_decide (sort privilege_le (view_privileges v) ≠ sort privilege_le (view_privileges v'))).
Proof.
  intros Hp Hc. unfold existsb, group_classes. rewrite orb_false_r, <- !orb_assoc.
  repeat first
    [ apply returns_or_else
    | apply returns_differs; [apply (reads_groups _ _ Hp)|apply (reads_groups _ _ Hc)]; unfold group_classes; set_solver
    | apply returns_differs; [apply (reads_privileges _ _ Hp)|apply (reads_privileges _ _ Hc)] ].
Qed.

Lemma comparison_returned p c v v' : reads_as p v → reads_as c v' → returns (compare_tokens p c) (judge v v').
Proof.
  intros Hp Hc. unfold compare_tokens, judge.
  eapply returns_bind; [by apply returns_pair; apply reads_isolated|]. apply returns_if; [apply returns_ret|].
  eapply returns_bind; [by apply returns_pair; apply reads_extended|]. apply returns_if; [apply returns_ret|].
  eapply returns_bind; [apply (reads_statistics _ _ Hp)|]. eapply returns_bind; [apply (reads_statistics _ _ Hc)|].
  apply returns_if; [apply returns_ret|].
  eapply yields_bind; [apply (reads_access _ _ Hp)|]. intros i (a & Ha & Hpa & Hfa & Hoa & Hta).
  eapply yields_bind; [apply (reads_access _ _ Hc)|]. intros j (b & Hb & Hpb & Hfb & Hob & Htb).
  rewrite Ha, Hb. eapply returns_bind; [apply returns_pure|]. eapply returns_bind; [apply returns_pure|].
  rewrite <- Hoa, <- Hob. eapply returns_bind; [by apply generations_returned|]. apply returns_if; [apply returns_ret|].
  eapply returns_bind; [by apply (trusts_returned p c v v')|]. apply returns_if; [apply returns_ret|].
  eapply returns_bind.
  { apply (returns_some_of _ (λ class, bool_decide (view_raw v class ≠ view_raw v' class))). intros class Hin.
    apply returns_differs; [by apply (reads_raw _ _ Hp)|by apply (reads_raw _ _ Hc)]. }
  apply returns_if; [apply returns_ret|]. eapply returns_bind.
  { apply (returns_some_of _ (λ class, bool_decide (view_sid v class ≠ view_sid v' class))). intros class Hin.
    by apply sids_returned. }
  apply returns_if; [apply returns_ret|]. eapply returns_bind; [by apply lists_returned|]. apply returns_if; [apply returns_ret|].
  eapply returns_bind; [apply returns_differs; [apply (reads_dacl _ _ Hp)|apply (reads_dacl _ _ Hc)]|].
  destruct (bool_decide _); apply returns_ret.
Qed.
End decisions.

(** The verdict on tokens whose access agrees is that of their generations. *)
Lemma judge_same v v' : (judge v v' = generations v v' ∧ same_access v v') ∨ judge v v' = Incompatible.
Proof.
  unfold judge. destruct (isolated v || isolated v') eqn:E1; [by right|].
  destruct (extended v || extended v') eqn:E2; [by right|].
  case_bool_decide as E3; [by right|]. case_bool_decide; [by right|].
  destruct (_ || bool_decide (trust v ≠ trust v')) eqn:E5; [by right|].
  destruct (existsb _ plain_classes) eqn:E6; [by right|]. destruct (existsb _ sid_classes) eqn:E7; [by right|].
  destruct (_ || bool_decide (sort privilege_le _ ≠ _)) eqn:E8; [by right|].
  destruct (bool_decide (dacl v ≠ dacl v')) eqn:E9; [by right|]. apply bool_decide_eq_false in E9. left. split; [done|].
  apply orb_false_iff in E1 as [? ?], E2 as [? ?], E5 as [[[Hp Hp']%orb_false_iff Hf]%orb_false_iff Ht], E8 as [Hg Hpr].
  apply negb_false_iff in Hp, Hp', Hf. apply bool_decide_eq_false in Ht, Hpr.
  assert (∀ (f : information_class → bool) l, existsb f l = false → ∀ class, class ∈ l → f class = false) as Hex.
  { intros f l Hl class Hin. destruct (f class) eqn:E; [|done].
    rewrite <- Hl. symmetry. apply existsb_exists. exists class. by rewrite <- list_elem_of_In. }
  split; try done.
  - by apply Z.eqb_eq.
  - by apply dec_stable.
  - intros class Hin. by apply (Hex _ _ E6) in Hin as Hd%bool_decide_eq_false%dec_stable.
  - intros class Hin. by apply (Hex _ _ E7) in Hin as Hd%bool_decide_eq_false%dec_stable.
  - intros class Hin. apply groups_sort_alike. by apply (Hex _ _ Hg) in Hin as Hd%bool_decide_eq_false%dec_stable.
  - apply privileges_sort_alike. by apply dec_stable.
  - by apply dec_stable.
Qed.

Lemma judge_agreed v v' : same_access v v' → judge v v' = generations v v'.
Proof.
  intros [(Hi & Hi' & He & He') Hl [Hp Hp'] Hf Ht Hr Hs Hg Hpr Hd]. unfold judge.
  rewrite Hi, Hi', He, He', Hp, Hp', Hf, Hl, Ht, Hd, Z.eqb_refl.
  rewrite !(bool_decide_false (_ ≠ _)) by (intros E; by apply E). cbn [orb negb].
  assert (∀ (f : information_class → bool) l, (∀ class, class ∈ l → f class = false) → existsb f l = false) as Hex.
  { intros f l Hl'. apply not_true_is_false. rewrite existsb_exists. intros (class & Hin%list_elem_of_In & Hc).
    by rewrite Hl' in Hc. }
  rewrite (Hex _ plain_classes), (Hex _ sid_classes), (Hex _ group_classes).
  - rewrite (proj2 (privileges_sort_alike _ _) Hpr), (bool_decide_false (sort _ _ ≠ _)) by (intros E; by apply E).
    cbn [orb]. case_bool_decide as E; [by rewrite E|]. rewrite bool_decide_false; [done|]. intros E2. by apply E2.
  - intros class Hin. apply bool_decide_false. intros E. by apply E, groups_sort_alike, Hg.
  - intros class Hin. apply bool_decide_false. intros E. by apply E, Hs.
  - intros class Hin. apply bool_decide_false. intros E. by apply E, Hr.
Qed.

Lemma generations_same v v' : generations v v' = Equivalent ↔ same_generation v v'.
Proof.
  unfold generations, same_generation. case_bool_decide; simpl; [split; [by left|done]|].
  destruct (opaque v || opaque v') eqn:Eo; simpl.
  - split; [by destruct (_ && _)|]. intros [?|[A B]]; [done|]. by rewrite A, B in Eo.
  - apply orb_false_iff in Eo. split; [by right|done].
Qed.

Lemma generations_differ v v' : generations v v' = ProcessIdentityDiffers ↔ ¬ same_generation v v' ∧ ordinary_alike v v'.
Proof.
  unfold ordinary_alike. rewrite <- generations_same. unfold generations.
  destruct (_ || _); [naive_solver|]. repeat case_bool_decide; simpl; naive_solver.
Qed.

Lemma same_access_sym v v' : same_access v v' → same_access v' v.
Proof.
  intros [(? & ? & ? & ?) ? [? ?] ? ? Hr Hs Hg ? ?]. split; try done.
  - intros class Hin. symmetry. by apply Hr.
  - intros class Hin. symmetry. by apply Hs.
  - intros class Hin. symmetry. by apply Hg.
Qed.

Lemma generations_sym v v' : generations v v' = generations v' v.
Proof.
  assert (∀ u u', same_generation u u' → same_generation u' u) as Hs by (intros u u' [?|[? ?]]; [by left|by right]).
  assert (∀ u u', generations u u' = Equivalent → generations u' u = Equivalent) as He.
  { intros u u' E. by apply generations_same, Hs, generations_same. }
  assert (∀ u u', generations u u' = ProcessIdentityDiffers → generations u' u = ProcessIdentityDiffers) as Hd.
  { intros u u' [Hn [Ho E]]%generations_differ. apply generations_differ.
    split; [by intros ?%Hs|]. split; [by rewrite <- E|done]. }
  destruct (generations v v') eqn:E; [by apply He in E|by apply Hd in E|].
  destruct (generations v' v) eqn:E'; [apply He in E'; congruence|apply Hd in E'; congruence|done].
Qed.

Lemma judge_symmetric v v' : judge v' v = judge v v'.
Proof.
  destruct (judge_same v v') as [[-> Ha]|E], (judge_same v' v) as [[-> Ha']|E'].
  - apply generations_sym.
  - apply same_access_sym, judge_agreed in Ha. by rewrite Ha, generations_sym.
  - apply same_access_sym, judge_agreed in Ha'. by rewrite Ha', generations_sym.
  - congruence.
Qed.


(** ** Witnesses *)

(** The documented 64-bit layouts, and tokens of one user that differ in their
    generation and in the order of their groups. *)
Module Documented.
Definition signed (n : Z) : Z := if 2 ^ 31 <=? n then n - 2 ^ 32 else n.

#[global] Instance layouts : Layouts := {
  TOKEN_STATISTICS := Native 56 (λ b, mk_statistics
    (signed (Attributes.field 12 4 b), Attributes.field 8 4 b) (signed (Attributes.field 52 4 b), Attributes.field 48 4 b));
  TOKEN_ACCESS_INFORMATION := Native 88 (λ b, mk_access
    (Attributes.field 32 4 b) (Attributes.field 44 4 b) (Attributes.field 72 8 b) (Attributes.field 80 8 b));
  SID_AND_ATTRIBUTES := Native 16 (λ b, (Attributes.field 0 8 b, Attributes.field 8 4 b));
  LUID_AND_ATTRIBUTES := Native 12 (λ b, (signed (Attributes.field 4 4 b), Attributes.field 0 4 b, Attributes.field 8 4 b));
  TOKEN_DEFAULT_DACL := pointer;
  ACL := Native 8 (Attributes.field 2 2);
  GROUPS := 8;
  PRIVILEGES := 4;
  GetLengthSid b := 8 + 4 * Attributes.field 1 1 b;
}.

Definition address : Z := 4096.

Record token := Token { generation : Z; swapped : bool }.

Definition sid_of (n : Z) : bytes := [x01; x01; x00; x00; x00; x00; x00; x05] ++ to_le_bytes 4 n.
Definition group_list (t : token) : list (bytes * Z) :=
  let l := [(sid_of 32, 7); (sid_of 11, 4)] in if swapped t then rev l else l.

Definition information (t : token) (class : information_class) : bytes :=
  match class with
  | TokenIsAppContainer | TokenCapabilities => to_le_bytes 4 0
  | TokenUserClaimAttributes | TokenDeviceClaimAttributes => to_le_bytes 4 1 ++ to_le_bytes 4 0
  | TokenStatistics => replicate 48 x00 ++ to_le_bytes 4 (generation t) ++ to_le_bytes 4 0
  | TokenAccessInformation =>
      replicate 32 x00 ++ to_le_bytes 4 1 ++ replicate 36 x00 ++ to_le_bytes 8 0 ++ to_le_bytes 8 (address + 80)
  | TokenUser | TokenOwner | TokenPrimaryGroup | TokenIntegrityLevel =>
      to_le_bytes 8 (address + 16) ++ to_le_bytes 8 0 ++ sid_of 18
  | TokenGroups | TokenRestrictedSids | TokenDeviceGroups =>
      match group_list t with
      | [(a, x); (b, y)] =>
          to_le_bytes 8 2 ++ to_le_bytes 8 (address + 40) ++ to_le_bytes 8 x ++
          to_le_bytes 8 (address + 52) ++ to_le_bytes 8 y ++ a ++ b
      | _ => to_le_bytes 4 0
      end
  | TokenPrivileges => to_le_bytes 4 1 ++ to_le_bytes 4 20 ++ to_le_bytes 4 0 ++ to_le_bytes 4 2
  | TokenDefaultDacl => to_le_bytes 8 0
  | TokenSecurityAttributes => to_le_bytes 2 1 ++ to_le_bytes 2 0 ++ to_le_bytes 4 0 ++ to_le_bytes 8 0
  | _ => to_le_bytes 4 1
  end.

#[global] Instance system : TokenCalls () token token := {
  open_token p w := (Ok p, w);
  close_token t w := w;
  size_information t class w := (Z.of_nat (length (information t class)), w);
  allocate words w := (address, w);
  get_information t class p n w :=
    let l := information t class in
    (if n <? Z.of_nat (length l) then Err (error_of_kind Other) else Ok (l, Z.of_nat (length l)), w);
}.

#[global, refine] Instance system_laws : TokenLaws () token token := {}.
Proof.
  - intros t class w. cbn [size_information system fst]. lia.
  - intros t class p n w data n' w' Hn. cbn [get_information system].
    destruct (Z.ltb_spec n (Z.of_nat (length (information t class)))); [done|]. intros [= <- <- <-]. split; lia.
Defined.

Definition says (t : token) : View :=
  mk_view false false (mk_statistics (0, 0) (0, generation t)) true 0 None true (Some Attributes.Empty)
    (λ _, to_le_bytes 4 1) (λ _, sid_of 18) (λ _, group_list t) [(0, 20, 2)] None.

Lemma answered {A} (m : run () A) a : m () = Some (Ok a, ()) → returns m a.
Proof. intros E []. by exists a, (). Qed.

Lemma all_of (Q : information_class → Prop) l : Forall Q l → ∀ class, class ∈ l → Q class.
Proof. intros Hl. by apply Forall_forall. Qed.

Lemma reads_as_says t : t = Token 1 false ∨ t = Token 2 true → reads_as t (says t).
Proof.
  intros [-> | ->]; split.
  all: try (apply answered; vm_compute; reflexivity).
  all: try (apply all_of; repeat constructor; apply answered; vm_compute; reflexivity).
  all: try (intros []; do 2 eexists; split; [vm_compute; reflexivity|]; vm_compute; reflexivity).
  all: try (intros []; do 2 eexists; split; [vm_compute; reflexivity|];
    eexists; split_and!; [vm_compute; reflexivity..|]; apply answered; vm_compute; reflexivity).
  all: apply all_of; repeat constructor; intros []; do 2 eexists; (split; [vm_compute; reflexivity|]);
    eexists; (split; [vm_compute; reflexivity|]); apply answered; vm_compute; reflexivity.
Qed.
End Documented.

Lemma token_reads_stay_inside_witness :
  is_Some (compare_with_current_process (Documented.Token 1 false) (Documented.Token 2 true) ()).
Proof. exact (token_reads_stay_inside (Documented.Token 1 false) (Documented.Token 2 true) ()). Defined.

