(* ===== verification/WindowsCalls.v ===== *)
(** * Windows system calls with something to give back
      (src/local/windows.rs, windows_socket.rs, windows_spawn.rs, peer/windows.rs)

    Overlapped transfers, inheritance flags, impersonation, and what is built on
    them: each operation must leave the process as it found it on every path. A
    call's outcome is the environment's. *)
From stdpp Require Import gmap list.
From S2P Require Import Prelude Process Peer.

(** ** Overlapped transfers *)

Module Overlapped.
Definition ERROR_NOT_FOUND : Z := 1168.

Inductive started := Inline | IsPending | NotStarted (e : io_error).
Inductive woken := Signaled | TimedOutWait | WaitFailed (e : io_error).

(** [start] is [ReadFile] or [WriteFile] of at most so many bytes. *)
Class Calls (W : Type) : Type := {
  create_event : W → option io_error * W;
  start : Z → W → started * W;
  wait_event : Z → W → woken * W;
  cancel : W → option io_error * W;
  overlapped_result : bool → W → io_result Z * W;
}.

(** [pending] says whether the kernel may still use the operation and its buffer,
    and [bound] how many bytes it may move. *)
Class Laws (W : Type) `{!Calls W} : Type := {
  pending : W → bool;
  bound : W → Z;
  create_idle w : pending (create_event w).2 = pending w;
  start_length n w : bound (start n w).2 = n;
  start_inline n w w' : start n w = (Inline, w') → pending w' = false;
  start_refused n w e w' : start n w = (NotStarted e, w') → pending w = false → pending w' = false;
  wait_signaled ms w w' : wait_event ms w = (Signaled, w') → pending w' = false;
  wait_bound ms w : bound (wait_event ms w).2 = bound w;
  result_keeps w : pending w = false → pending (overlapped_result false w).2 = false;
  result_waits w : pending (overlapped_result true w).2 = false;
  result_count b w n w' : overlapped_result b w = (Ok n, w') → 0 ≤ n ≤ bound w;
}.

Section code.
Context {W : Type} `{!Calls W}.

Definition deadline_millis (timeout : Z) : Z := Z.min (Z.max 1 (timeout / 1000000)) u32_max.

Definition timed_out : io_error := error_new TimedOut "named-pipe session establishment timed out".

Definition cancel_and_reap (w : W) : io_result unit * W :=
  let '(refused, w) := cancel w in
  let '(_, w) := overlapped_result true w in
  (match refused with
   | Some e => if decide (raw_os_error e = Some ERROR_NOT_FOUND) then Ok tt else Err e
   | None => Ok tt
   end, w).

Definition transfer_overlapped (length : Z) (timeout : Z) (w : W) : io_result Z * W :=
  if length =? 0 then (Ok 0, w) else
  match create_event w with
  | (Some e, w) => (Err e, w)
  | (None, w) =>
      match start (if length <=? u32_max then length else u32_max) w with
      | (Inline, w) => overlapped_result false w
      | (NotStarted e, w) => (Err e, w)
      | (IsPending, w) =>
          match wait_event (deadline_millis timeout) w with
          | (Signaled, w) => overlapped_result false w
          | (TimedOutWait, w) =>
              match cancel_and_reap w with (Ok _, w) => (Err timed_out, w) | (Err e, w) => (Err e, w) end
          | (WaitFailed e, w) =>
              match cancel_and_reap w with (Ok _, w) => (Err e, w) | (Err e, w) => (Err e, w) end
          end
      end
  end.

(** *** A pipe and its halves *)

(** The halves of a pipe; [setup] is the flag they share. *)
Record halves := Halves { read_deadline : option Z; write_deadline : option Z; setup : bool }.

(** [set_read_deadline]: the deadline; [last] is the last instant there is. *)
Definition set_read_deadline `{Clock W} (last : Z) (timeout : option Z) (w : W) : io_result (option Z) * W :=
  match timeout with
  | None => (Ok None, w)
  | Some d =>
      let '(t, w) := now w in
      (if last <? t + d then Err (error_new InvalidInput "read deadline overflow") else Ok (Some (t + d)), w)
  end.

Definition split (deadline : option Z) : halves := Halves deadline deadline (bool_decide (is_Some deadline)).

Definition clear_read_deadline (h : halves) : halves := Halves None (write_deadline h) false.

(** [WindowsReader::read]; [plain] is the blocking call. *)
Definition pipe_read `{Clock W} (h : halves) (plain : W → io_result Z * W) (length : Z) (w : W) : io_result Z * W :=
  match read_deadline h with
  | None => plain w
  | Some d =>
      let '(t, w) := now w in
      if d <? t then (Err timed_out, w) else transfer_overlapped length (d - t) w
  end.

(** [WindowsWriter::write]. *)
Definition pipe_write `{Clock W} (h : halves) (plain : W → io_result Z * W) (length : Z) (w : W) : io_result Z * W :=
  if setup h then
    match write_deadline h with
    | None => (Err (error_of_kind TimedOut), w)
    | Some d =>
        let '(t, w) := now w in
        if d <? t then (Err (error_of_kind TimedOut), w) else transfer_overlapped length (d - t) w
    end
  else plain w.

(** [shutdown_write]. *)
Definition shutdown_write (flush : W → io_result unit * W) (w : W) : io_result unit * W :=
  match flush w with
  | (Err e, w) => (Err e, w)
  | (Ok _, w) => (Err (error_new Prelude.Unsupported "a named pipe has no half-close"), w)
  end.
End code.
End Overlapped.

(** What a transfer leaves. *)
Lemma transfer_over {W} `{Overlapped.Laws W} (length timeout : Z) (w w' : W) (r : io_result Z) :
  0 ≤ length → Overlapped.pending w = false → Overlapped.transfer_overlapped length timeout w = (r, w') →
  Overlapped.pending w' = false ∧ match r with Ok n => 0 ≤ n ≤ length | Err _ => True end.
Proof.
  intros Hlen Hp. unfold Overlapped.transfer_overlapped. destruct (Z.eqb_spec length 0) as [->|Hne]; [by intros [= <- <-]|].
  pose proof (Overlapped.create_idle w) as Hc. destruct (Overlapped.create_event w) as [[e|] w1]; simpl in Hc; [intros [= <- <-]; by rewrite Hc|].
  set (n := if length <=? u32_max then length else u32_max). pose proof (Overlapped.start_length n w1) as Hb.
  assert (n ≤ length) as Hn by (unfold n; destruct (Z.leb_spec length u32_max); lia).
  assert (∀ v v' r, Overlapped.pending v = false → Overlapped.bound v ≤ n → Overlapped.overlapped_result false v = (r, v') →
    Overlapped.pending v' = false ∧ match r with Ok n => 0 ≤ n ≤ length | Err _ => True end) as Hres.
  { intros v v' [m|e] Hv Hbv E; pose proof (Overlapped.result_keeps v Hv) as Hk; rewrite E in Hk; (split; [exact Hk|]); [|done].
    apply Overlapped.result_count in E. lia. }
  assert (∀ v, Overlapped.pending (Overlapped.cancel_and_reap v).2 = false) as Hreap.
  { intros v. unfold Overlapped.cancel_and_reap. destruct (Overlapped.cancel v) as [x v1].
    pose proof (Overlapped.result_waits v1) as Hw. destruct (Overlapped.overlapped_result true v1). exact Hw. }
  destruct (Overlapped.start n w1) as [[| |e] w2] eqn:Es; simpl in Hb.
  - apply Hres; [by eapply Overlapped.start_inline|lia].
  - pose proof (Overlapped.wait_bound (Overlapped.deadline_millis timeout) w2) as Hb3.
    destruct (Overlapped.wait_event _ w2) as [[| |e] w3] eqn:Ew; simpl in Hb3.
    + apply Hres; [by eapply Overlapped.wait_signaled|lia].
    + specialize (Hreap w3). destruct (Overlapped.cancel_and_reap w3) as [[[]|e] w4]; by intros [= <- <-].
    + specialize (Hreap w3). destruct (Overlapped.cancel_and_reap w3) as [[[]|e'] w4]; by intros [= <- <-].
  - intros [= <- <-]. split; [|done]. eapply Overlapped.start_refused; [exact Es|]. by rewrite Hc.
Qed.

(** An overlapped transfer is over when it returns. Whatever its calls answer,
    a transfer that reports bytes, a timeout or an error leaves no operation
    pending, so the kernel does not use the buffer afterwards; and the bytes it
    reports fit in the buffer. *)
Theorem transfers_are_over {W} `{Overlapped.Laws W} (length timeout : Z) (w w' : W) (r : io_result Z) :
  0 ≤ length → Overlapped.pending w = false → Overlapped.transfer_overlapped length timeout w = (r, w') →
  Overlapped.pending w' = false ∧ match r with Ok n => 0 ≤ n ≤ length | Err _ => True end.
Proof. apply transfer_over. Qed.

(** A setup deadline of seven weeks is none. A timeout of 2^32 - 1 milliseconds
    or more is passed to the system as INFINITE, and such a wait does not time out. *)
Theorem a_long_setup_deadline_never_ends (timeout : Z) :
  from_millis u32_max ≤ timeout → Overlapped.deadline_millis timeout = WindowsHandle.INFINITE.
Proof.
  intros Ht. unfold Overlapped.deadline_millis, WindowsHandle.INFINITE, from_millis in *.
  assert (u32_max ≤ timeout / 1000000) by (apply Z.div_le_lower_bound; lia). lia.
Qed.

Lemma a_long_setup_deadline_never_ends_witness :
  Overlapped.deadline_millis (from_secs 4320000) = WindowsHandle.INFINITE.
Proof. apply (a_long_setup_deadline_never_ends (from_secs 4320000)). vm_compute. discriminate. Defined.

(** A peer that never answers. *)
Module Silent.
Record t := mk { busy : bool; size : Z }.
#[global] Instance calls : Overlapped.Calls t := {
  Overlapped.create_event w := (None, w);
  Overlapped.start n w := (Overlapped.IsPending, mk true n);
  Overlapped.wait_event ms w := (Overlapped.TimedOutWait, w);
  Overlapped.cancel w := (Some (IoError Other (Some 1168) ""), w);
  Overlapped.overlapped_result wait w := if wait : bool then (Err (error_of_kind Other), mk false (size w)) else (Err (error_of_kind Other), w);
}.
#[global, refine] Instance laws : Overlapped.Laws t := { Overlapped.pending := busy; Overlapped.bound := size }.
Proof. all: try done. intros [] w n w'; simpl; done. Defined.
End Silent.

Lemma transfers_are_over_witness :
  Overlapped.transfer_overlapped 8 (from_millis 3) (Silent.mk false 0) = (Err Overlapped.timed_out, Silent.mk false 8) ∧
  Overlapped.pending (Silent.mk false 8) = false.
Proof.
  split; [reflexivity|]. by apply (transfers_are_over 8 (from_millis 3) (Silent.mk false 0) (Silent.mk false 8) (Err Overlapped.timed_out)).
Defined.

(** The setup of a pipe is bounded and over. A half that has a deadline moves bytes
    only before it, through transfers that are over when they return; both halves agree
    on whether there is one; and once the reader's deadline is cleared, or if there was
    none, both do plain blocking calls. *)
Theorem pipe_halves_agree {W} `{Clock W, !Overlapped.Calls W, !Overlapped.Laws W} plain length deadline (w w' : W) r :
  0 ≤ length → Overlapped.pending (now w).2 = false →
  let h := Overlapped.split deadline in
  Overlapped.pipe_read (Overlapped.clear_read_deadline h) plain length w = plain w ∧
  Overlapped.pipe_write (Overlapped.clear_read_deadline h) plain length w = plain w ∧
  (Overlapped.pipe_read h plain length w = (r, w') ∨ Overlapped.pipe_write h plain length w = (r, w') →
   match deadline with
   | None => plain w = (r, w')
   | Some d =>
       Overlapped.pending w' = false ∧
       match r with Ok n => 0 ≤ n ≤ length ∧ (now w).1 ≤ d | Err e => d < (now w).1 → kind e = TimedOut end
   end).
Proof.
  intros Hlen Hp h. split_and!; [done|done|]. intros Hio. unfold h in Hio.
  destruct deadline as [d|]; [|by destruct Hio].
  assert (Overlapped.pending w' = false ∧ match r with Ok n => 0 ≤ n ≤ length ∧ (now w).1 ≤ d | Err e => d < (now w).1 → kind e = TimedOut end) as Hd.
  { unfold Overlapped.pipe_read, Overlapped.pipe_write in Hio. simpl in Hio. destruct (now w) as [t w1]. simpl in *.
    destruct (Z.ltb_spec d t) as [Hlt|Hle].
    - destruct Hio as [[= <- <-]|[= <- <-]]; done.
    - assert (Overlapped.transfer_overlapped length (d - t) w1 = (r, w')) as Ht by by destruct Hio.
      destruct (transfer_over length (d - t) w1 w' r Hlen Hp Ht) as [? Hr]. split; [done|]. destruct r; [lia|lia]. }
  exact Hd.
Qed.

(** The peer never answers, and its clock stands at 7. *)
Module SilentClock.
#[global] Instance clock : Clock Silent.t := {| now w := (7, w); sleep _ w := w; sleep_until _ w := w |}.
End SilentClock.

Lemma pipe_halves_agree_witness :
  ∃ w', Overlapped.pipe_write (Overlapped.split (Some 100)) (λ w, (Ok 1, w)) 8 (Silent.mk false 0) = (Err Overlapped.timed_out, w') ∧
    Overlapped.pending w' = false.
Proof.
  destruct (Overlapped.pipe_write (Overlapped.split (Some 100)) (λ w, (Ok 1, w)) 8 (Silent.mk false 0)) as [r w'] eqn:E.
  destruct (pipe_halves_agree (λ w, (Ok 1, w)) 8 (Some 100) (Silent.mk false 0) w' r) as (_ & _ & H); [done|done|].
  destruct H as [Hp _]; [by right|]. assert (r = Err Overlapped.timed_out) as -> by (vm_compute in E; by injection E as <- _).
  by exists w'.
Defined.

(** ** Running as a client *)

Module Impersonation.
Definition ERROR_NO_TOKEN : Z := 1008.
Definition os_error (n : Z) : io_error := IoError Other (Some n) "".

Record token := Token { id : nat; user : Z }.

(** A thread of a process that runs as [own], with the token it impersonates, if
    any; the client's token, or why the connection has none; the users of the
    processes there are; and the calls that fail. *)
Record thread := Thread {
  impersonated : option token; own : Z; client : io_result token; processes : Z → option Z;
  faults : list (option io_error);
}.

Definition set_token (t : option token) (th : thread) : thread :=
  Thread t (own th) (client th) (processes th) (faults th).

(** A system call: its error, if it fails. *)
Definition call (th : thread) : option io_error * thread :=
  (match faults th with Some e :: _ => Some e | _ => None end,
   Thread (impersonated th) (own th) (client th) (processes th) (tail (faults th))).

(** A call that reads [a]. *)
Definition read {A} (a : thread → io_result A) (th : thread) : io_result A * thread :=
  match call th with (Some e, th) => (Err e, th) | (None, th) => (a th, th) end.

Definition thread_token (th : thread) : io_result (option token) * thread :=
  match read (λ th, ok_or (impersonated th) (os_error ERROR_NO_TOKEN)) th with
  | (Ok t, th) => (Ok (Some t), th)
  | (Err e, th) => if decide (raw_os_error e = Some ERROR_NO_TOKEN) then (Ok None, th) else (Err e, th)
  end.

(** [query_token_user] of a token whose user is [u]: the size, then the user. *)
Definition query_token_user (u : Z) (th : thread) : io_result Z * thread :=
  match call th with
  | (Some _, th) => (Err (error_new PermissionDenied "cannot size peer token"), th)
  | (None, th) => read (λ _, Ok u) th
  end.

(** [token_user] of a process that runs as [u]: its token is opened first. *)
Definition token_user (u : Z) (th : thread) : io_result Z * thread :=
  match call th with (Some e, th) => (Err e, th) | (None, th) => query_token_user u th end.

Definition thread_token_user (th : thread) : io_result Z * thread :=
  match thread_token th with
  | (Err e, th) => (Err e, th)
  | (Ok None, th) => (Err (os_error ERROR_NO_TOKEN), th)
  | (Ok (Some t), th) => query_token_user (user t) th
  end.

(** [Impersonating::pipe_client]: the guard is the token to go back to. *)
Definition pipe_client (th : thread) : io_result (option token) * thread :=
  match thread_token th with
  | (Err e, th) => (Err e, th)
  | (Ok previous, th) =>
      match call th with
      | (Some e, th) => (Err e, th)
      | (None, th) =>
          match client th with
          | Err e => (Err e, th)
          | Ok t => (Ok previous, set_token (Some t) th)
          end
      end
  end.

(** The guard's drop: [None] is an aborted process. *)
Definition drop_guard (previous : option token) (th : thread) : option thread :=
  match call th with (Some _, _) => None | (None, th) => Some (set_token previous th) end.

Definition pipe_client_runs_as_this_user (th : thread) : option (io_result bool * thread) :=
  match token_user (own th) th with
  | (Err e, th) => Some (Err e, th)
  | (Ok o, th) =>
      match pipe_client th with
      | (Err e, th) => Some (Err e, th)
      | (Ok previous, th) =>
          let '(r, th) := thread_token_user th in
          th ← drop_guard previous th;
          Some ((λ u, u =? o) <$> r, th)
      end
  end.

Definition process_runs_as_this_user (pid : Z) (th : thread) : io_result bool * thread :=
  match read (λ th, ok_or (processes th pid) (os_error 87)) th with
  | (Err e, th) => (Err e, th)
  | (Ok u, th) =>
      match token_user u th with
      | (Err e, th) => (Err e, th)
      | (Ok peer, th) => let '(r, th) := token_user (own th) th in ((λ o, peer =? o) <$> r, th)
      end
  end.

Definition NO_CONNECTION_USER : list Z := [1368; 1347].

(** [pipe_credentials]: [peer_pid] is what the pipe reports of its peer. *)
Definition pipe_credentials (server_end : bool) (peer_pid : io_result (option Z)) (th : thread)
    : option (io_result Credentials.t * thread) :=
  match peer_pid with
  | Err e => Some (Err e, th)
  | Ok p =>
      match p ≫= ProcessId.new with
      | None => Some (Err (error_other "named-pipe peer has no PID"), th)
      | Some pid =>
          let by_pid th :=
            let '(r, th) := process_runs_as_this_user pid th in
            Some ((λ b, Credentials.with_user_evidence UserEvidence.PidLookup (Credentials.new (Some pid) b)) <$> r, th) in
          if server_end then
            '(r, th) ← pipe_client_runs_as_this_user th;
            match r with
            | Ok b => Some (Ok (Credentials.with_user_evidence UserEvidence.Connection (Credentials.new (Some pid) b)), th)
            | Err e =>
                if existsb (λ code, bool_decide (raw_os_error e = Some code)) NO_CONNECTION_USER then by_pid th
                else Some (Err e, th)
            end
          else by_pid th
      end
  end.
End Impersonation.

Section impersonation.
Import Impersonation.

(** What no call changes but impersonating and its end. *)
Definition same_thread (th th' : thread) : Prop :=
  own th' = own th ∧ client th' = client th ∧ processes th' = processes th ∧ suffix (faults th') (faults th).

Definition calm (th th' : thread) : Prop := same_thread th th' ∧ impersonated th' = impersonated th.

#[local] Instance same_thread_preorder : PreOrder same_thread.
Proof. split; [by intros th; split_and!|]. intros a b c (? & ? & ? & ?) (? & ? & ? & ?). split_and!; [congruence..|by etrans]. Qed.
#[local] Instance calm_preorder : PreOrder calm.
Proof. split; [by intros th|]. intros a b c [? ?] [? ?]. split; [by etrans|congruence]. Qed.

Lemma token_call_calm th f th' : call th = (f, th') → calm th th' ∧ ∀ e, f = Some e → Some e ∈ faults th.
Proof.
  intros [= <- <-]. split; [split; [split_and!; try done|done]|].
  - destruct th as [t o c p [|x l]]; simpl; [done|]. by exists [x].
  - destruct (faults th) as [|[x|] l]; [done|intros e [= <-]; by left|done].
Qed.

Lemma read_calm {A} (a : thread → io_result A) th r th' :
  read a th = (r, th') → calm th th' ∧ (r = a th' ∨ ∃ e, r = Err e ∧ Some e ∈ faults th).
Proof.
  unfold read. destruct (call th) as [[e|] th1] eqn:E; apply token_call_calm in E as [Hc He]; intros [= <- <-]; split; auto.
  right. exists e. auto.
Qed.

Lemma elem_of_faults th th' e : calm th th' → Some e ∈ faults th' → Some e ∈ faults th.
Proof. intros [(_ & _ & _ & k & ->) _]. rewrite elem_of_app. auto. Qed.

Lemma query_calm u th r th' :
  query_token_user u th = (r, th') → calm th th' ∧
  (r = Ok u ∨ ∃ e, r = Err e ∧ (Some e ∈ faults th ∨ raw_os_error e = None)).
Proof.
  unfold query_token_user. destruct (call th) as [[e|] th1] eqn:E; apply token_call_calm in E as [Hc He].
  - intros [= <- <-]. split; [done|]. right. by eauto.
  - intros [Hc' Hr]%read_calm. split; [by etrans|]. destruct Hr as [->|(e & -> & Hin)]; [by left|]. right. exists e.
    split; [done|]. left. by eapply elem_of_faults.
Qed.

Lemma token_user_calm u th r th' :
  token_user u th = (r, th') → calm th th' ∧
  (r = Ok u ∨ ∃ e, r = Err e ∧ (Some e ∈ faults th ∨ raw_os_error e = None)).
Proof.
  unfold token_user. destruct (call th) as [[e|] th1] eqn:E; apply token_call_calm in E as [Hc He].
  - intros [= <- <-]. split; [done|]. right. by eauto.
  - intros [Hc' Hr]%query_calm. split; [by etrans|]. destruct Hr as [->|(e & -> & [Hin|?])]; [by left|right..]; exists e; [|by auto].
    split; [done|]. left. by eapply elem_of_faults.
Qed.

(** The system says that a thread has no token only if it has none. *)
Definition honest (th : thread) : Prop := ∀ e, Some e ∈ faults th → raw_os_error e ≠ Some ERROR_NO_TOKEN.

Lemma honest_calm th th' : same_thread th th' → honest th → honest th'.
Proof. intros (_ & _ & _ & k & Hk) Hh e He. apply Hh. rewrite Hk. apply elem_of_app. auto. Qed.

Lemma thread_token_calm th r th' :
  honest th → thread_token th = (r, th') → calm th th' ∧
  (r = Ok (impersonated th) ∨ ∃ e, r = Err e ∧ Some e ∈ faults th).
Proof.
  intros Hh. unfold thread_token. destruct (read _ th) as [[t|e] th1] eqn:E; apply read_calm in E as [Hc Hr].
  - intros [= <- <-]. split; [done|]. left. destruct Hr as [Hr|(e & [=] & _)]. destruct Hc as [_ Hc]. rewrite <- Hc.
    symmetry in Hr. apply ok_or_Ok in Hr. by rewrite Hr.
  - destruct Hr as [Hr|(e' & [= <-] & Hin)].
    + destruct Hc as [Hc1 Hc]. rewrite Hc in Hr. destruct (impersonated th) as [t|] eqn:Ei; [done|]. injection Hr as ->.
      rewrite decide_True by done. intros [= <- <-]. split; [split; congruence|by left].
    + specialize (Hh e Hin). rewrite decide_False by done. intros [= <- <-]. split; [done|right; by eauto].
Qed.

Lemma pipe_client_calm th r th' :
  honest th → pipe_client th = (r, th') → same_thread th th' ∧
  match r with
  | Ok previous => previous = impersonated th ∧ ∃ t, client th = Ok t ∧ impersonated th' = Some t
  | Err e => impersonated th' = impersonated th ∧ (client th = Err e ∨ Some e ∈ faults th)
  end.
Proof.
  intros Hh. unfold pipe_client. destruct (thread_token th) as [[previous|e] th1] eqn:E1;
    apply (thread_token_calm _ _ _ Hh) in E1 as [Hc1 Hr].
  2: { intros [= <- <-]. destruct Hc1 as [? ?]. split_and!; try done. right. destruct Hr as [|(? & [= <-] & ?)]; done. }
  destruct Hr as [Hr|(e & [=] & _)]. injection Hr as ->.
  destruct (call th1) as [[e|] th2] eqn:E2; apply token_call_calm in E2 as [Hc2 He].
  { intros [= <- <-]. assert (calm th th2) as [? ?] by by etrans. split_and!; try done. right. eapply elem_of_faults; [exact Hc1|]. auto. }
  assert (calm th th2) as [Hs Hi] by by etrans. pose proof Hs as (_ & Hcl & _). rewrite Hcl.
  destruct (client th) as [t|e] eqn:Ec; intros [= <- <-]; [|by auto]. split; [by destruct Hs as (? & ? & ? & ?); split_and!|].
  split; [done|]. by exists t.
Qed.

(** The answer of the connection, with the thread as it was. *)
Lemma connection_answer th r th' :
  honest th → pipe_client_runs_as_this_user th = Some (r, th') → calm th th' ∧
  match r with
  | Ok b => ∃ t, client th = Ok t ∧ b = (user t =? own th)
  | Err e => client th = Err e ∨ Some e ∈ faults th ∨ raw_os_error e = None
  end.
Proof.
  intros Hh. unfold pipe_client_runs_as_this_user.
  destruct (token_user (own th) th) as [[o|e] th1] eqn:E1; apply token_user_calm in E1 as [Hc1 Hr1].
  2: { intros [= <- <-]. split; [done|]. destruct Hr1 as [|(? & [= <-] & ?)]; [done|]. by right. }
  destruct Hr1 as [[= ->]|(? & [=] & _)].
  assert (honest th1) as Hh1 by (eapply honest_calm; [apply Hc1|done]).
  assert (∀ e, Some e ∈ faults th1 → Some e ∈ faults th) as Hf1 by (intros e; by eapply elem_of_faults).
  destruct Hc1 as [(Ho1 & Hcl1 & Hp1 & Hs1) Hi1].
  destruct (pipe_client th1) as [[previous|e] th2] eqn:E2; apply (pipe_client_calm _ _ _ Hh1) in E2 as [Hs2 Hr2].
  2: { intros [= <- <-]. destruct Hr2 as [Hi2 Hr2]. split.
       - split; [|congruence]. etrans; [|exact Hs2]. by split_and!.
       - rewrite Hcl1 in Hr2. destruct Hr2; auto. }
  destruct Hr2 as (-> & t & Hcl & Hi2). assert (honest th2) as Hh2 by by eapply honest_calm.
  assert (same_thread th th2) as Hs by (etrans; [|exact Hs2]; by split_and!).
  assert (∀ e, Some e ∈ faults th2 → Some e ∈ faults th) as Hf2.
  { intros e He. destruct Hs as (_ & _ & _ & k & ->). apply elem_of_app. auto. }
  destruct (thread_token_user th2) as [r3 th3] eqn:E3.
  assert (calm th2 th3 ∧ (r3 = Ok (user t) ∨ ∃ e, r3 = Err e ∧ (Some e ∈ faults th2 ∨ raw_os_error e = None))) as [Hc3 Hr3].
  { unfold thread_token_user in E3. destruct (thread_token th2) as [[ot|e] th2'] eqn:Et; apply (thread_token_calm _ _ _ Hh2) in Et as [Hct Hrt].
    - destruct Hrt as [[= ->]|(? & [=] & _)]. rewrite Hi2 in E3. apply query_calm in E3 as [Hcq Hrq]. split; [by etrans|].
      destruct Hrq as [->|(e & -> & [?|?])]; [by left|right; exists e; split; [done|left; by eapply elem_of_faults]|right; by eauto].
    - injection E3 as <- <-. split; [done|]. destruct Hrt as [|(? & [= <-] & ?)]; [done|]. right. by eauto. }
  unfold drop_guard. destruct (call th3) as [[e|] th4] eqn:E4; [done|]. apply token_call_calm in E4 as [[Hs4 _] _]. simpl. intros [= <- <-].
  split.
  - split; [|by simpl]. etrans; [exact Hs|]. etrans; [apply Hc3|]. destruct Hs4 as (? & ? & ? & ?). by split_and!.
  - rewrite Hcl1 in Hcl. destruct Hr3 as [->|(e & -> & He)]; simpl; [exists t; split; [done|congruence]|]. right. destruct He; auto.
Qed.

Lemma lookup_answer pid th r th' :
  process_runs_as_this_user pid th = (r, th') → calm th th' ∧
  ∀ b, r = Ok b → ∃ u, processes th pid = Some u ∧ b = (u =? own th).
Proof.
  unfold process_runs_as_this_user. destruct (read _ th) as [[u|e] th1] eqn:E1; apply read_calm in E1 as [Hc1 Hr1]; [|by intros [= <- <-]].
  destruct Hr1 as [Hr1|(? & [=] & _)]. symmetry in Hr1. apply ok_or_Ok in Hr1. pose proof Hc1 as [(_ & _ & Hp & _) _]. rewrite Hp in Hr1.
  destruct (token_user u th1) as [[peer|e] th2] eqn:E2; apply token_user_calm in E2 as [Hc2 Hr2].
  2: { intros [= <- <-]. split; [by etrans|done]. }
  destruct Hr2 as [[= ->]|(? & [=] & _)]. assert (calm th th2) as Hc by by etrans.
  destruct (token_user (own th2) th2) as [r3 th3] eqn:E3; apply token_user_calm in E3 as [Hc3 Hr3]. intros [= <- <-].
  split; [by etrans|]. intros b. destruct Hr3 as [->|(? & -> & _)]; simpl; intros [= <-]. exists u. split; [done|].
  by destruct Hc as [(-> & _) _].
Qed.

(** C19: a pipe's credentials are read with nothing left behind. Whatever calls fail,
    asking for a named-pipe peer's credentials either ends the process or leaves
    the thread the token it had, if any. The credentials name the peer's process
    and say truly whether it runs as this user: by the token the connection
    carries, which only a server's end can read; or by the process that has the PID,
    on a client's end or when the connection carries none. *)
Theorem pipe_credentials_leave_no_token (server_end : bool) (peer_pid : io_result (option Z)) (th th' : thread)
    (r : io_result Credentials.t) :
  honest th → pipe_credentials server_end peer_pid th = Some (r, th') →
  impersonated th' = impersonated th ∧
  match r with
  | Err _ => True
  | Ok c =>
      ∃ p, peer_pid = Ok (Some p) ∧ p ≠ 0 ∧ Credentials.pid c = Some p ∧
      match Credentials.user_evidence c with
      | UserEvidence.Connection => server_end = true ∧ ∃ t, client th = Ok t ∧ Credentials.same_user c = (user t =? own th)
      | UserEvidence.PidLookup =>
          (∃ u, processes th p = Some u ∧ Credentials.same_user c = (u =? own th)) ∧
          (server_end = true → ∃ e n, raw_os_error e = Some n ∧ n ∈ NO_CONNECTION_USER ∧ (client th = Err e ∨ Some e ∈ faults th))
      end
  end.
Proof.
  intros Hh. unfold pipe_credentials. destruct peer_pid as [[p|]|e]; [|by intros [= <- <-]..]. cbn [mbind option_bind].
  unfold ProcessId.new. destruct (Z.eqb_spec p 0); [by intros [= <- <-]|].
  assert (∀ th1 r1, calm th th1 →
    (let '(r, th) := process_runs_as_this_user p th1 in
     Some ((λ b, Credentials.with_user_evidence UserEvidence.PidLookup (Credentials.new (Some p) b)) <$> r, th)) = Some (r1, th') →
    impersonated th' = impersonated th ∧
    ∀ c, r1 = Ok c → Credentials.pid c = Some p ∧ Credentials.user_evidence c = UserEvidence.PidLookup ∧
      ∃ u, processes th p = Some u ∧ Credentials.same_user c = (u =? own th)) as Hlookup.
  { intros th1 r1 [(Ho & _ & Hp & _) Hi]. destruct (process_runs_as_this_user p th1) as [r2 th2] eqn:E.
    apply lookup_answer in E as [[_ Hi2] Hr]. intros [= <- <-]. split; [congruence|]. intros c.
    destruct r2 as [b|e]; simpl; intros [= <-]. split_and!; [done|done|]. rewrite <- Ho, <- Hp. by apply Hr. }
  destruct server_end.
  - destruct (pipe_client_runs_as_this_user th) as [[r1 th1]|] eqn:E1; [|done].
    apply (connection_answer _ _ _ Hh) in E1 as [Hc Hr]. cbn [mbind option_bind]. destruct r1 as [b|e].
    + intros [= <- <-]. destruct Hc as [_ Hi]. split; [done|]. simpl. by eauto 10.
    + destruct (existsb (λ code, bool_decide (raw_os_error e = Some code)) NO_CONNECTION_USER) eqn:Ee; [|intros [= <- <-]; by destruct Hc].
      intros [Hi Hrc]%Hlookup; [|done]. split; [done|]. destruct r as [c|e']; [|done]. destruct (Hrc c eq_refl) as (Hpid & -> & Hu).
      exists p. split_and!; try done. intros _. apply existsb_exists in Ee as (n0 & Hin & Hn). apply bool_decide_eq_true in Hn.
      exists e, n0. split; [done|]. split; [by apply list_elem_of_In|]. destruct Hr as [?|[?|Hr]]; auto. congruence.
  - intros [Hi Hrc]%Hlookup; [|done]. split; [done|]. destruct r as [c|e']; [|done]. destruct (Hrc c eq_refl) as (Hpid & -> & Hu).
    exists p. by split_and!.
Qed.

(** A thread that serves a client of another user while it impersonates somebody. *)
Definition busy_thread : thread :=
  Thread (Some (Token 3 1000)) 1000 (Ok (Token 9 1001)) (λ _, None) [None; None; None; None; None; Some (os_error 6)].

Lemma pipe_credentials_leave_no_token_witness :
  ∃ th', pipe_credentials true (Ok (Some 77)) busy_thread = Some (Err (os_error 6), th') ∧
    impersonated th' = Some (Token 3 1000).
Proof.
  destruct (pipe_credentials true (Ok (Some 77)) busy_thread) as [[r th']|] eqn:E; [|by vm_compute in E].
  destruct (pipe_credentials_leave_no_token true (Ok (Some 77)) busy_thread th' r) as [Hi _]; [|exact E|].
  - intros e He. unfold busy_thread, faults in He. do 5 (apply elem_of_cons in He as [He|He]; [discriminate He|]).
    apply list_elem_of_singleton in He. injection He as ->. discriminate.
  - exists th'. assert (r = Err (os_error 6)) as -> by (vm_compute in E; by injection E as <- _). split; [reflexivity|exact Hi].
Defined.
End impersonation.

(** ** Inheritance of the standard handles *)

Module StdioInherit.
Definition INVALID_HANDLE_VALUE : Z := -1.

(** The handles of the process, each with its inherit flag, and the calls that
    fail. *)
Record t := mk { flags : gmap Z bool; faults : list (option io_error) }.

Definition call (w : t) : option io_error * t :=
  (match faults w with Some e :: _ => Some e | _ => None end, mk (flags w) (tail (faults w))).

Definition invalid_handle : io_error := IoError Other (Some 6) "".

Definition GetHandleInformation (n : Z) (w : t) : io_result bool * t :=
  match call w with (Some e, w) => (Err e, w) | (None, w) => (ok_or (flags w !! n) invalid_handle, w) end.

Definition SetHandleInformation (n : Z) (b : bool) (w : t) : io_result unit * t :=
  match call w with
  | (Some e, w) => (Err e, w)
  | (None, w) =>
      match flags w !! n with
      | Some _ => (Ok tt, mk (<[n := b]> (flags w)) (faults w))
      | None => (Err invalid_handle, w)
      end
  end.

(** [restore]: the handles that could not be restored stay for another attempt. *)
Fixpoint restore_from (l : list Z) (failed : option io_error) (w : t) : option io_error * list Z * t :=
  match l with
  | [] => (failed, [], w)
  | n :: l =>
      match SetHandleInformation n true w with
      | (Ok _, w) => restore_from l failed w
      | (Err e, w) =>
          let '(failed, kept, w) := restore_from l (Some (default e failed)) w in (failed, n :: kept, w)
      end
  end.
Definition restore (guard : list Z) (w : t) : io_result unit * list Z * t :=
  let '(failed, kept, w) := restore_from guard None w in
  (match failed with Some e => Err e | None => Ok tt end, kept, w).

Definition drop_guard (guard : list Z) (w : t) : t := let '(_, _, w) := restore guard w in w.

(** [for_handles]: on an error the guard made so far is dropped. *)
Fixpoint for_handles_from (handles guard : list Z) (w : t) : io_result (list Z) * t :=
  match handles with
  | [] => (Ok guard, w)
  | n :: handles =>
      if (n =? 0) || (n =? INVALID_HANDLE_VALUE) then for_handles_from handles guard w else
      match GetHandleInformation n w with
      | (Err e, w) => (Err e, drop_guard guard w)
      | (Ok false, w) => for_handles_from handles guard w
      | (Ok true, w) =>
          match SetHandleInformation n false w with
          | (Err e, w) => (Err e, drop_guard guard w)
          | (Ok _, w) => for_handles_from handles (guard ++ [n]) w
          end
      end
  end.
Definition for_handles (handles : list Z) : t → io_result (list Z) * t := for_handles_from handles [].

(** [launch::spawn]: [command_spawn] is [Command::spawn], under the lock that lets one
    spawn run at a time. *)
Definition spawn {A} (standard : list Z) (command_spawn : t → io_result A * t) (w : t) : io_result A * t :=
  match for_handles standard w with
  | (Err e, w) => (Err e, w)
  | (Ok guard, w) => let '(r, w) := command_spawn w in (r, drop_guard guard w)
  end.
End StdioInherit.

Section inherit.
Import StdioInherit.

(** [guard] holds the handles whose flag was cleared since [w0]. *)
Definition cleared (w0 : gmap Z bool) (guard : list Z) (w : t) : Prop :=
  NoDup guard ∧ (∀ n, n ∈ guard → w0 !! n = Some true) ∧
  ∀ n, flags w !! n = if decide (n ∈ guard) then Some false else w0 !! n.

Lemma call_flags w e w' : call w = (e, w') → flags w' = flags w.
Proof. by intros [= _ <-]. Qed.

(** How many of the calls ahead fail. *)
Fixpoint count_failing (l : list (option io_error)) : nat :=
  match l with [] => 0 | Some _ :: l => S (count_failing l) | None :: l => count_failing l end.
Definition failing (w : t) : nat := count_failing (faults w).

Lemma call_failing w e w' : call w = (e, w') → failing w = (failing w' + match e with Some _ => 1 | None => 0 end)%nat.
Proof. unfold failing. intros [= <- <-]. destruct (faults w) as [|[x|] l]; simpl; lia. Qed.

Lemma set_spec n b w r w' :
  SetHandleInformation n b w = (r, w') → is_Some (flags w !! n) →
  match r with
  | Ok _ => flags w' = <[n := b]> (flags w) ∧ failing w' = failing w
  | Err _ => flags w' = flags w ∧ (failing w' < failing w)%nat
  end.
Proof.
  unfold SetHandleInformation. destruct (call w) as [[e|] w1] eqn:E; pose proof (call_failing _ _ _ E) as Hf; apply call_flags in E.
  all: cbn in Hf.
  { intros [= <- <-] _. split; [done|lia]. }
  rewrite E. intros H [x Hx]. rewrite Hx in H. injection H as <- <-. simpl. split; [done|]. unfold failing in *. simpl. lia.
Qed.

(** Restoring: what is kept could not be restored, the rest is as it was. *)
Lemma restore_from_spec w0 before guard failed w failed' kept w' :
  cleared w0 (before ++ guard) w → restore_from guard failed w = (failed', kept, w') →
  cleared w0 (before ++ kept) w' ∧ (failing w' + length kept ≤ failing w)%nat ∧
  (failed' = None ↔ failed = None ∧ kept = []).
Proof.
  revert before w failed failed' kept w'. induction guard as [|n guard IH]; intros before w failed failed' kept w' Hc; simpl.
  { intros [= <- <- <-]. split_and!; [done|simpl; lia|naive_solver]. }
  destruct Hc as (Hnd & Htrue & Hfl). assert (n ∉ before ++ guard) as Hn.
  { apply NoDup_app in Hnd as (_ & Hb & [Hg _]%NoDup_cons). rewrite elem_of_app. intros [Hin|Hin]; [|done]. by eapply Hb; [|left]. }
  destruct (SetHandleInformation n true w) as [[[]|e] w1] eqn:E; apply set_spec in E as [Hfl1 Hf1];
    try (rewrite Hfl, decide_True by (rewrite elem_of_app, elem_of_cons; auto); by eexists).
  - intros H. apply (IH before) in H; [destruct H as (? & ? & ?); split_and!; [done|lia|done]|]. split_and!.
    + apply NoDup_app in Hnd as (? & Hb & [_ ?]%NoDup_cons). apply NoDup_app. split_and!; [done| |done].
      intros x Hx Hg. eapply Hb; [exact Hx|]. by right.
    + intros m. rewrite elem_of_app. intros Hm. apply Htrue. rewrite elem_of_app, elem_of_cons. naive_solver.
    + intros m. rewrite Hfl1. destruct (decide (n = m)) as [<-|Hm].
      * rewrite lookup_insert_eq, decide_False by done. symmetry. apply Htrue. rewrite elem_of_app, elem_of_cons. auto.
      * rewrite lookup_insert_ne, Hfl by done. apply decide_ext. rewrite !elem_of_app, elem_of_cons. naive_solver.
  - destruct (restore_from guard _ w1) as [[f k] w2] eqn:Er. intros [= <- <- <-].
    apply (IH (before ++ [n])) in Er; [|rewrite <- app_assoc; split_and!; [done|done|intros m; by rewrite Hfl1]].
    destruct Er as (Hc & Hlen & Hiff). rewrite <- app_assoc in Hc. split_and!; [done|simpl; lia|]. rewrite Hiff. naive_solver.
Qed.

Lemma drop_guard_spec w0 guard w :
  cleared w0 guard w → ∃ kept, cleared w0 kept (drop_guard guard w) ∧ (failing (drop_guard guard w) + length kept ≤ failing w)%nat.
Proof.
  intros Hc. unfold drop_guard, restore. destruct (restore_from guard None w) as [[f k] w'] eqn:E.
  apply (restore_from_spec w0 []) in E as (? & ? & _); [|done]. eauto.
Qed.

Lemma for_handles_spec w0 handles guard w r w' :
  cleared w0 guard w → for_handles_from handles guard w = (r, w') →
  match r with
  | Ok g => cleared w0 g w' ∧ (failing w' ≤ failing w)%nat ∧
      ∀ n, (n ∈ handles ∧ n ≠ 0 ∧ n ≠ INVALID_HANDLE_VALUE) ∨ flags w !! n = Some false → flags w' !! n = Some false
  | Err _ => ∃ kept, cleared w0 kept w' ∧ ((∃ n : Z, n ∈ handles ∧ (n ≠ 0 ∧ n ≠ INVALID_HANDLE_VALUE)%Z ∧ w0 !! n = None) ∨ failing w' + length kept < failing w)%nat
  end.
Proof.
  revert guard w. induction handles as [|n handles IH]; intros guard w Hc; simpl.
  { intros [= <- <-]. split_and!; [done|lia|]. intros n [[[]%elem_of_nil _]|?]. done. }
  destruct (_ || _) eqn:Ez.
  { intros H%IH; [|done]. destruct r as [g|e].
    - destruct H as (? & ? & Hall). split_and!; try done. intros m [(Hm & Hm0 & Hm1)|?]; apply Hall; auto.
      apply elem_of_cons in Hm as [->|?]; [|by auto]. bools. destruct Ez; bools; lia.
    - destruct H as (k & ? & Hw). exists k. split; [done|]. destruct Hw as [(m & ? & ?)|?]; [left; exists m; split; [by right|done]|by right]. }
  unfold GetHandleInformation. destruct (call w) as [[e|] w1] eqn:E1; pose proof (call_failing _ _ _ E1) as Hf1; apply call_flags in E1; cbn in Hf1.
  { assert (cleared w0 guard w1) as Hc1 by (destruct Hc as (? & ? & ?); split_and!; [done..|by rewrite E1]).
    intros [= <- <-]. destruct (drop_guard_spec _ _ _ Hc1) as (k & ? & ?). exists k. split; [done|right; lia]. }
  assert (cleared w0 guard w1) as Hc1 by (destruct Hc as (? & ? & ?); split_and!; [done..|by rewrite E1]).
  destruct (flags w1 !! n) as [b|] eqn:En; simpl.
  2: { intros [= <- <-]. destruct (drop_guard_spec _ _ _ Hc1) as (k & ? & ?). exists k. split; [done|left]. exists n. split; [by left|]. split; [bools; lia|].
       destruct Hc1 as (_ & _ & Hfl). rewrite Hfl in En. by case_decide. }
  assert (∀ g v, (failing v ≤ failing w1)%nat → (∀ m, flags w !! m = Some false → flags v !! m = Some false) → flags v !! n = Some false →
    cleared w0 g v → for_handles_from handles g v = (r, w') →
    match r with
    | Ok g => cleared w0 g w' ∧ (failing w' ≤ failing w)%nat ∧
        ∀ m, (m ∈ n :: handles ∧ m ≠ 0 ∧ m ≠ INVALID_HANDLE_VALUE) ∨ flags w !! m = Some false → flags w' !! m = Some false
    | Err _ => ∃ kept, cleared w0 kept w' ∧ ((∃ m : Z, m ∈ n :: handles ∧ (m ≠ 0 ∧ m ≠ INVALID_HANDLE_VALUE)%Z ∧ w0 !! m = None) ∨ failing w' + length kept < failing w)%nat
    end) as Hgo.
  { intros g v Hv Hkeep Hn Hg H%IH; [|done]. destruct r as [g'|e].
    - destruct H as (? & ? & Hall). split_and!; [done|lia|]. intros m [(Hm & ? & ?)|Hm]; apply Hall; [|by auto].
      apply elem_of_cons in Hm as [->|?]; auto.
    - destruct H as (k & ? & Hw). exists k. split; [done|]. destruct Hw as [(m & ? & ?)|?]; [left; exists m; split; [by right|done]|right; lia]. }
  destruct b; [|apply Hgo; [lia|by rewrite E1|done|done]].
  destruct (SetHandleInformation n false w1) as [[[]|e] w2] eqn:E2; apply set_spec in E2 as [Hfl2 Hf2]; try by rewrite En.
  - apply Hgo; [lia|intros m Hm; rewrite Hfl2; destruct (decide (n = m)) as [<-|?]; [by rewrite lookup_insert_eq|by rewrite lookup_insert_ne, E1]|
      by rewrite Hfl2, lookup_insert_eq|].
    destruct Hc1 as (Hnd & Htrue & Hfl). assert (n ∉ guard) as Hng by (intros Hin; rewrite Hfl, decide_True in En by done; done).
    assert (w0 !! n = Some true) as Hn0 by (by rewrite Hfl, decide_False in En by done). split_and!.
    + apply NoDup_app. split_and!; [done| |apply NoDup_singleton]. by intros x Hx ->%list_elem_of_singleton.
    + intros m [?| ->%list_elem_of_singleton]%elem_of_app; auto.
    + intros m. rewrite Hfl2. destruct (decide (n = m)) as [<-|Hm].
      * rewrite lookup_insert_eq, decide_True; [done|]. apply elem_of_app. right. by left.
      * rewrite lookup_insert_ne, Hfl by done. apply decide_ext. rewrite elem_of_app, list_elem_of_singleton. naive_solver.
  - intros [= <- <-]. assert (cleared w0 guard w2) as Hc2 by (destruct Hc1 as (? & ? & ?); split_and!; [done..|by rewrite Hfl2]).
    destruct (drop_guard_spec _ _ _ Hc2) as (k & ? & ?). exists k. split; [done|right; lia].
Qed.

(** A guard holds only handles it was asked for. *)
Lemma guard_from_handles handles guard w g w' :
  for_handles_from handles guard w = (Ok g, w') → ∀ n, n ∈ g → n ∈ handles ∨ n ∈ guard.
Proof.
  revert guard w. induction handles as [|m handles IH]; intros guard w; simpl; [intros [= <- <-]; auto|].
  destruct (_ || _); [intros H n Hn; destruct (IH _ _ H n Hn); rewrite ?elem_of_cons; auto|].
  destruct (GetHandleInformation m w) as [[[]|e] w1]; [| |done].
  - destruct (SetHandleInformation m false w1) as [[[]|e] w2]; [|done]. intros H n Hn. destruct (IH _ _ H n Hn) as [?|Hg]; rewrite elem_of_cons; auto.
    apply elem_of_app in Hg as [?| ->%list_elem_of_singleton]; auto.
  - intros H n Hn. destruct (IH _ _ H n Hn); rewrite ?elem_of_cons; auto.
Qed.

(** Suppressed inheritance comes back. While a guard is held no standard handle
    is inheritable and every other handle is as it was; restoring it gives back
    exactly the flags there were, or reports an error and keeps the handles that
    are still changed. A guard that cannot be made changes nothing, unless a second
    call fails as well. *)
Theorem inheritance_comes_back (handles : list Z) (w w1 : t) (r : io_result (list Z)) :
  (∀ n, n ∈ handles → n ≠ 0 → n ≠ INVALID_HANDLE_VALUE → is_Some (flags w !! n)) → for_handles handles w = (r, w1) →
  match r with
  | Ok guard =>
      (∀ n, n ∈ handles → n ≠ 0 → n ≠ INVALID_HANDLE_VALUE → flags w1 !! n = Some false) ∧
      (∀ n, n ∉ handles → flags w1 !! n = flags w !! n) ∧
      ∀ w2 r' kept w3, flags w2 = flags w1 → restore guard w2 = (r', kept, w3) →
        (r' = Ok tt ↔ kept = []) ∧ (kept = [] → flags w3 = flags w) ∧
        ∀ n, flags w3 !! n ≠ flags w !! n → n ∈ kept
  | Err _ => (failing w ≤ 1)%nat → flags w1 = flags w
  end.
Proof.
  intros Hlive E. assert (cleared (flags w) [] w) as H0.
  { split_and!; [constructor|by intros ? []%elem_of_nil|]. intros n. by rewrite decide_False by apply not_elem_of_nil. }
  assert (∀ kept v, cleared (flags w) kept v → kept = [] → flags v = flags w) as Hsame.
  { intros kept v (_ & _ & Hfl) ->. apply map_eq. intros n. rewrite Hfl, decide_False by apply not_elem_of_nil. done. }
  pose proof (for_handles_spec _ _ _ _ _ _ H0 E) as Hr. destruct r as [guard|e].
  - destruct Hr as (Hc & _ & Hoff). pose proof Hc as (Hnd & Htrue & Hfl). split_and!; [by auto| |].
    + intros n Hn. rewrite Hfl. case_decide as Hg; [|done]. destruct (guard_from_handles _ _ _ _ _ E n) as [?|[]%elem_of_nil]; done.
    + intros w2 r' kept w3 H2. unfold restore. destruct (restore_from guard None w2) as [[f k] w3'] eqn:Er.
      apply (restore_from_spec (flags w) []) in Er as (Hck & _ & Hiff); [|split_and!; [done..|by rewrite H2]].
      intros [= <- <- <-]. simpl in Hck. split_and!.
      * destruct f as [x|]; naive_solver.
      * by apply Hsame.
      * intros n Hne. destruct Hck as (_ & _ & Hflk). rewrite Hflk in Hne. by case_decide.
  - destruct Hr as (kept & Hck & [(n & Hn & [Hn0 Hn1] & Hnone)|Hlt]); [destruct (Hlive n Hn Hn0 Hn1) as [x Hx]; congruence|].
    intros Hone. apply (Hsame kept); [done|]. destruct kept; [done|]. simpl in Hlt. lia.
Qed.

Definition standard_handles : t := mk (list_to_map [(4, true); (8, false); (12, true); (20, true)]) [None; None; None; None; Some invalid_handle].

Lemma inheritance_comes_back_witness :
  ∃ w1, for_handles [4; 0; 8; 12] standard_handles = (Err invalid_handle, w1) ∧ flags w1 = flags standard_handles.
Proof.
  destruct (for_handles [4; 0; 8; 12] standard_handles) as [r w1] eqn:E.
  assert (r = Err invalid_handle) as -> by (vm_compute in E; by injection E as <- _).
  exists w1. split; [reflexivity|].
  apply (inheritance_comes_back [4; 0; 8; 12] standard_handles w1 (Err invalid_handle)); [|exact E|vm_compute; lia].
  intros n Hn H0 _. repeat (apply elem_of_cons in Hn as [->|Hn]; [first [exfalso; exact (H0 eq_refl)|eexists; reflexivity]|]). by apply elem_of_nil in Hn.
Defined.

(** A child inherits no standard handle by accident. [launch::spawn] starts the child
    while none of the launcher's standard handles is inheritable, or does not start it;
    and if at most one call fails it leaves the flags as they were, or reports the
    child's result with the one flag that could not be set back. *)
Theorem children_get_no_standard_handle {A} (standard : list Z) (command_spawn : t → io_result A * t) (w w' : t)
    (r : io_result A) :
  (∀ n, n ∈ standard → n ≠ 0 → n ≠ INVALID_HANDLE_VALUE → is_Some (flags w !! n)) →
  (∀ v, flags (command_spawn v).2 = flags v ∧ (failing (command_spawn v).2 ≤ failing v)%nat) →
  spawn standard command_spawn w = (r, w') →
  (is_ok r = true → ∃ v, (command_spawn v).1 = r ∧
    ∀ n, n ∈ standard → n ≠ 0 → n ≠ INVALID_HANDLE_VALUE → flags v !! n = Some false) ∧
  (failing w = 0%nat → flags w' = flags w) ∧
  ((failing w ≤ 1)%nat → ∃ m, ∀ n, n ≠ m → flags w' !! n = flags w !! n).
Proof.
  intros Hlive Hcs. unfold spawn. assert (cleared (flags w) [] w) as H0.
  { split_and!; [constructor|by intros ? []%elem_of_nil|]. intros n. by rewrite decide_False by apply not_elem_of_nil. }
  assert (∀ kept v, cleared (flags w) kept v → (length kept ≤ failing w)%nat →
    (failing w = 0%nat → flags v = flags w) ∧ ((failing w ≤ 1)%nat → ∃ m, ∀ n, n ≠ m → flags v !! n = flags w !! n)) as Hend.
  { intros kept v (_ & _ & Hfl) Hlen. split.
    - intros Hz. destruct kept; [|simpl in Hlen; lia]. apply map_eq. intros n. by rewrite Hfl, decide_False by apply not_elem_of_nil.
    - intros Hone. exists (default 0 (head kept)). intros n Hn. rewrite Hfl, decide_False; [done|].
      destruct kept as [|m [|m' kept]]; [apply not_elem_of_nil|by intros ->%list_elem_of_singleton|simpl in Hlen; lia]. }
  destruct (for_handles standard w) as [[guard|e] w1] eqn:E; apply (for_handles_spec _ _ _ _ _ _ H0) in E.
  - destruct E as (Hc & Hf1 & Hoff). destruct (Hcs w1) as [Hfl2 Hf2]. destruct (command_spawn w1) as [r2 w2] eqn:E2. simpl in *.
    intros [= <- <-]. split; [intros _; exists w1; rewrite E2; split; [done|auto]|].
    assert (cleared (flags w) guard w2) as Hc2 by (destruct Hc as (? & ? & ?); split_and!; [done..|by rewrite Hfl2]).
    destruct (drop_guard_spec _ _ _ Hc2) as (kept & Hk & Hlen). apply (Hend kept); [done|lia].
  - intros [= <- <-]. split; [done|]. destruct E as (kept & Hk & [(n & Hn & [Hn0 Hn1] & Hnone)|Hlt]).
    + destruct (Hlive n Hn Hn0 Hn1) as [x Hx]. congruence.
    + apply (Hend kept); [done|lia].
Qed.

Lemma children_get_no_standard_handle_witness :
  ∃ w', spawn [4; 0; 8; 12] (λ v, (Ok 7, v)) (mk (flags standard_handles) []) = (Ok 7, w') ∧ flags w' = flags standard_handles.
Proof.
  destruct (spawn [4; 0; 8; 12] (λ v, (Ok 7, v)) (mk (flags standard_handles) [])) as [r w'] eqn:E.
  assert (r = Ok 7) as -> by (vm_compute in E; by injection E as <- _).
  exists w'. split; [reflexivity|].
  eapply (children_get_no_standard_handle [4; 0; 8; 12] (λ v, (Ok 7, v)) (mk (flags standard_handles) []) w' (Ok 7)); [|by split|exact E|reflexivity].
  intros n Hn H0 _. repeat (apply elem_of_cons in Hn as [->|Hn]; [first [exfalso; exact (H0 eq_refl)|eexists; reflexivity]|]). by apply elem_of_nil in Hn.
Defined.
End inherit.
