(* ===== verification/WindowsLaunch.v ===== *)
(** * Launching a daemon on Windows (src/local/windows_spawn.rs)

    [spawn] starts a process with an explicit list of the handles it may inherit. A
    process is its table of handles; the launcher's other inheritable handles, the
    job it is in and the attribute lists it has made are part of the state, and
    every system call may fail. *)
From stdpp Require Import gmap list.
From S2P Require Import Prelude CommandLine.

(** ** The launcher *)

(** A token is that of a process or a thread; a named pipe has its name and what its
    access list says. *)
Inductive object :=
  | NullDevice | FileObject (id : nat) | ProcessObject (pid : Z) | ThreadObject (pid : Z)
  | TokenObject (owner : Z) | PipeObject (name access : units).

Record handle := Handle { to : object; inheritable_flag : bool }.

(** What a created process was given. *)
Record process := Process {
  application : option units; line : units; block : units; directory : option units;
  handles : gmap Z object; standard : Z * Z * Z; outside_job : bool;
}.

(** [job] is the job the launcher is in, if any, and whether it allows breakaway;
    [lists] counts the attribute lists that are not deleted. *)
Record host := Host {
  table : gmap Z handle; job : option bool; next_pid : Z; lists : nat;
  started : list process; faults : list (option io_error);
}.

Definition set_table (t : gmap Z handle) (h : host) : host :=
  Host t (job h) (next_pid h) (lists h) (started h) (faults h).
Definition set_lists (n : nat) (h : host) : host :=
  Host (table h) (job h) (next_pid h) n (started h) (faults h).

(** The next call's error, if it fails. *)
Definition next_fault (h : host) : option io_error * host :=
  (match faults h with Some e :: _ => Some e | _ => None end,
   Host (table h) (job h) (next_pid h) (lists h) (started h) (tail (faults h))).

(** A call that makes a handle. *)
Definition new_handle (o : object) (inherit : bool) (h : host) : io_result Z * host :=
  match next_fault h with
  | (Some e, h) => (Err e, h)
  | (None, h) => let n := fresh (dom (table h)) in (Ok n, set_table (<[n := Handle o inherit]> (table h)) h)
  end.

(** Owned handles are closed when they are dropped. *)
Definition closing (ns : list Z) (h : host) : host := set_table (foldr delete (table h) ns) h.

Definition ERROR_ACCESS_DENIED : Z := 5.
Definition access_denied : io_error := IoError PermissionDenied (Some ERROR_ACCESS_DENIED) "".
Definition invalid_parameter : io_error := IoError InvalidInput (Some 87) "".

(** [CreateProcessW] with a handle list: it refuses to name a handle twice or one
    that cannot be inherited, and to leave a job that does not allow it. *)
Definition CreateProcessW (breakaway : bool) (application : option units) (line block : units) (directory : option units)
    (standard : Z * Z * Z) (list : list Z) (h : host) : io_result (Z * Z * Z) * host :=
  match next_fault h with
  | (Some e, h) => (Err e, h)
  | (None, h) =>
      if negb (bool_decide (NoDup list)) ||
         existsb (λ n, match table h !! n with Some x => negb (inheritable_flag x) | None => true end) list
      then (Err invalid_parameter, h)
      else if breakaway && bool_decide (job h = Some false) then (Err access_denied, h)
      else
        let given := omap (λ n, (λ x, (n, to x)) <$> table h !! n) list in
        let pid := next_pid h in
        let process := fresh (dom (table h)) in
        let t := <[process := Handle (ProcessObject pid) false]> (table h) in
        let thread := fresh (dom t) in
        (Ok (process, thread, pid),
         Host (<[thread := Handle (ThreadObject pid) false]> t) (job h) (pid + 1) (lists h)
           (Process application line block directory (list_to_map given) standard
              (breakaway || bool_decide (job h = None)) :: started h) (faults h))
  end.

(** ** [spawn] *)

Inductive Target := NullTarget | FileTarget (n : Z).

Record Spawn := MkSpawn {
  program : units; args : list units; env : list EnvChange.t; current_dir : option units;
  stdout : Target; stderr : Target;
}.

Record WindowsChild := Child { process_handle : Z; pid : Z; in_callers_job : bool }.

Definition to_ascii_lowercase (l : units) : units := (λ u, if (65 <=? u) && (u <=? 90) then u + 32 else u) <$> l.
Definition ends_with (suffix l : units) : bool := bool_decide (drop (length l - length suffix) l = suffix).
Definition ascii (s : string) : units := byte_val <$> bs s.

Definition refuse (text : string) : io_error := error_new InvalidInput text.

(** [check_program], of the file name of the path. *)
Definition check_program (file_name : option units) : io_result unit :=
  match file_name with
  | None => Err (refuse "the program has no file name")
  | Some name =>
      if ends_with (ascii ".") name || ends_with (ascii " ") name
      then Err (refuse "the program's file name ends in a dot or a space") else
      let lower := to_ascii_lowercase name in
      if ends_with (ascii ".bat") lower || ends_with (ascii ".cmd") lower
      then Err (refuse "a detached daemon must be an executable, not a batch file") else Ok tt
  end.

Definition breakaway_refused (e : io_error) : bool := bool_decide (raw_os_error e = Some ERROR_ACCESS_DENIED).

Definition wide_nul (text : units) : units := text ++ [0].

(** [raw]: the handle itself or the null device's. *)
Definition raw (owned : option Z) (null : Z) : Z := default null owned.

Definition open_null : host → io_result Z * host := new_handle NullDevice true.

(** [inheritable]: a duplicate of a file's handle. *)
Definition inheritable (target : Target) (h : host) : io_result (option Z) * host :=
  match target with
  | NullTarget => (Ok None, h)
  | FileTarget n =>
      match table h !! n with
      | None => let '(_, h) := next_fault h in (Err (IoError Other (Some 6) ""), h)
      | Some x => let '(r, h) := new_handle (to x) true h in (Some <$> r, h)
      end
  end.

(** [AttributeList::with_handles]: the size query, the initialisation, after which
    there is a list to delete, and the update. *)
Definition with_handles (h : host) : io_result unit * host :=
  match next_fault h with
  | (Some e, h) => (Err e, h)
  | (None, h) =>
      match next_fault h with
      | (Some e, h) => (Err e, h)
      | (None, h) =>
          let h := set_lists (S (lists h)) h in
          match next_fault h with
          | (Some e, h) => (Err e, set_lists (pred (lists h)) h)
          | (None, h) => (Ok tt, h)
          end
      end
  end.

Definition drop_list (h : host) : host := set_lists (pred (lists h)) h.

(** The list names no handle twice. *)
Definition inherit_list (l : list Z) : list Z :=
  foldl (λ acc n, if bool_decide (n ∈ acc) then acc else acc ++ [n]) [] l.

(** [spawn]: [file_name] and [absolute] are what the program's path says of itself,
    [inherited] the launcher's environment. *)
Definition spawn (file_name : option units) (absolute : bool) (inherited : list variable) (spec : Spawn) (h : host)
    : io_result WindowsChild * host :=
  match check_program file_name with
  | Err e => (Err e, h)
  | Ok _ =>
  match command_line (program spec) (args spec) with
  | Err e => (Err e, h)
  | Ok l =>
  let line := l ++ [0] in
  let application := if absolute then Some (wide_nul (program spec)) else None in
  match environment_block inherited (env spec) with
  | Err e => (Err e, h)
  | Ok environment =>
  let current_dir := wide_nul <$> current_dir spec in
  match open_null h with
  | (Err e, h) => (Err e, h)
  | (Ok null, h) =>
  match inheritable (stdout spec) h with
  | (Err e, h) => (Err e, closing [null] h)
  | (Ok out, h) =>
  match inheritable (stderr spec) h with
  | (Err e, h) => (Err e, closing (null :: option_list out) h)
  | (Ok err, h) =>
  let owned := null :: option_list out ++ option_list err in
  let std_handles := (null, raw out null, raw err null) in
  let list := inherit_list [null; raw out null; raw err null] in
  match with_handles h with
  | (Err e, h) => (Err e, closing owned h)
  | (Ok _, h) =>
  let create breakaway := CreateProcessW breakaway application line environment current_dir std_handles list in
  let '(created, h) := match create true h with
                       | (Ok info, h) => (Ok (info, false), h)
                       | (Err e, h) =>
                           if breakaway_refused e then
                             let '(r, h) := create false h in ((λ info, (info, true)) <$> r, h)
                           else (Err e, h)
                       end in
  match created with
  | Err e => (Err e, closing owned (drop_list h))
  | Ok ((process, thread, pid), in_callers_job) =>
      (Ok (Child process pid in_callers_job), closing (thread :: owned) (drop_list h))
  end end end end end end end end.

(** ** What a daemon inherits *)

(** The object a stream is sent to. *)
Definition stream (h : host) (t : Target) : option object :=
  match t with NullTarget => Some NullDevice | FileTarget n => to <$> table h !! n end.

(** The text of a NUL-terminated string. *)
Fixpoint until_nul (l : units) : units :=
  match l with [] => [] | u :: l => if u =? 0 then [] else u :: until_nul l end.

Lemma until_nul_snoc l : 0 ∉ l → until_nul (l ++ [0]) = l.
Proof.
  induction l as [|u l IH]; [done|]. intros [Hu Hl]%not_elem_of_cons. simpl. destruct (Z.eqb_spec u 0); [done|]. by rewrite IH.
Qed.

(** Calls that make or close handles leave the rest alone. *)
Record same_else (h h' : host) : Prop := {
  same_job : job h' = job h; same_lists : lists h' = lists h; same_started : started h' = started h;
  same_pid : next_pid h' = next_pid h;
}.
#[export] Instance same_else_preorder : PreOrder same_else.
Proof. split; [by intros h; constructor|]. intros a b c [] []. constructor; congruence. Qed.

(** [h'] has, besides what [h] has, the inheritable handles [owned]. *)
Definition owns (h h' : host) (extra : gmap Z handle) (owned : list Z) : Prop :=
  same_else h h' ∧ table h' = extra ∪ table h ∧ extra ##ₘ table h ∧ dom extra = list_to_set owned ∧
  ∀ n x, extra !! n = Some x → inheritable_flag x = true.

Lemma owns_nothing h : owns h h ∅ [].
Proof. split_and!; [done|by rewrite map_empty_union|apply map_disjoint_empty_l|by rewrite dom_empty_L|done]. Qed.

Lemma next_fault_same h e h' : next_fault h = (e, h') → same_else h h' ∧ table h' = table h.
Proof. by intros [= _ <-]. Qed.

Lemma new_handle_owns h h1 extra owned o r h2 :
  owns h h1 extra owned → new_handle o true h1 = (r, h2) →
  match r with
  | Ok n => table h1 !! n = None ∧ owns h h2 (<[n := Handle o true]> extra) (n :: owned)
  | Err _ => owns h h2 extra owned
  end.
Proof.
  intros (Hs & Ht & Hd & Hdom & Hi). unfold new_handle. destruct (next_fault h1) as [[e|] h1'] eqn:E;
    apply next_fault_same in E as [Hs' Ht']; intros [= <- <-].
  { split_and!; [by etrans|congruence|done..]. }
  assert (table h1 !! fresh (dom (table h1')) = None) as Hn by (rewrite <- Ht'; apply not_elem_of_dom, is_fresh).
  split; [done|]. rewrite Ht in Hn. apply lookup_union_None in Hn as [Hn1 Hn2]. split_and!.
  - etrans; [exact Hs|]. etrans; [exact Hs'|]. by constructor.
  - simpl. by rewrite Ht', Ht, insert_union_l.
  - by apply map_disjoint_insert_l.
  - by rewrite dom_insert_L, Hdom.
  - intros m x [[_ <-]|[_ Hm]]%lookup_insert_Some; [done|by eapply Hi].
Qed.

(** Closing what was opened gives the table back. *)
Lemma delete_extra (extra t : gmap Z handle) (owned : list Z) :
  extra ##ₘ t → dom extra = list_to_set owned → foldr delete (extra ∪ t) owned = t.
Proof.
  intros Hd Hdom. apply map_eq. intros n.
  assert (∀ t : gmap Z handle, foldr delete t owned !! n = if decide (n ∈ owned) then None else t !! n) as ->.
  { intros u. clear. induction owned as [|m owned IH]; [done|]. simpl. rewrite lookup_delete, IH.
    repeat case_decide; try done; set_solver. }
  case_decide as Hn.
  - apply (elem_of_list_to_set (C := gset Z)) in Hn. rewrite <- Hdom in Hn. apply elem_of_dom in Hn as [x Hx].
    symmetry. by eapply map_disjoint_Some_l.
  - rewrite lookup_union_r; [done|]. apply not_elem_of_dom. rewrite Hdom. by rewrite elem_of_list_to_set.
Qed.

Lemma closing_owned h h1 extra owned : owns h h1 extra owned → table (closing owned h1) = table h ∧ same_else h (closing owned h1).
Proof.
  intros (Hs & Ht & Hd & Hdom & _). split; [|etrans; [exact Hs|by constructor]]. simpl. rewrite Ht. by apply delete_extra.
Qed.

Lemma inheritable_owns h h1 extra owned t r h2 :
  owns h h1 extra owned → (∀ n, t = FileTarget n → extra !! n = None) → inheritable t h1 = (r, h2) →
  match r with
  | Ok None => t = NullTarget ∧ h2 = h1
  | Ok (Some n) => ∃ o, stream h t = Some o ∧ table h1 !! n = None ∧ owns h h2 (<[n := Handle o true]> extra) (n :: owned)
  | Err _ => owns h h2 extra owned
  end.
Proof.
  intros Ho Hfree. pose proof Ho as (Hs & Ht & Hd & _). destruct t as [|n]; simpl; [by intros [= <- <-]|].
  rewrite Ht, lookup_union_r by by apply Hfree. destruct (table h !! n) as [x|] eqn:En.
  - destruct (new_handle _ _ h1) as [r' h2'] eqn:E. intros [= <- <-]. apply (new_handle_owns _ _ _ _ _ _ _ Ho) in E.
    destruct r' as [m|e]; simpl; [|done]. rewrite <- Ht. destruct E. eauto.
  - intros [= <- <-]. destruct Ho as (? & ? & ? & ? & ?). split_and!; try done. etrans; [exact Hs|by constructor].
Qed.

Lemma inherit_list_spec l : NoDup (inherit_list l) ∧ ∀ n, n ∈ inherit_list l ↔ n ∈ l.
Proof.
  unfold inherit_list. assert (∀ acc, NoDup acc →
    NoDup (foldl (λ acc n, if bool_decide (n ∈ acc) then acc else acc ++ [n]) acc l) ∧
    ∀ n, n ∈ foldl (λ acc n, if bool_decide (n ∈ acc) then acc else acc ++ [n]) acc l ↔ n ∈ acc ∨ n ∈ l) as H.
  { induction l as [|m l IH]; intros acc Hacc; simpl; [split; [done|]; set_solver|].
    case_bool_decide as Hm; [destruct (IH acc Hacc) as [? He]|destruct (IH (acc ++ [m])) as [? He]].
    - split; [done|]. intros n. rewrite He. set_solver.
    - apply NoDup_app. split_and!; [done|set_solver|apply NoDup_singleton].
    - split; [done|]. intros n. rewrite He. set_solver. }
  destruct (H [] (NoDup_nil_2)) as [? He]. split; [done|]. intros n. rewrite He. set_solver.
Qed.

Lemma given_lookup (t : gmap Z handle) l n :
  (list_to_map (omap (λ n, (λ x, (n, to x)) <$> t !! n) l) : gmap Z object) !! n = if decide (n ∈ l) then to <$> t !! n else None.
Proof.
  set (f := λ n, (λ x, (n, to x)) <$> t !! n). induction l as [|m l IH]; [done|].
  change (omap f (m :: l)) with (match f m with Some y => y :: omap f l | None => omap f l end).
  assert (f m = (λ x, (m, to x)) <$> t !! m) as -> by done. destruct (decide (n = m)) as [->|Hn].
  - rewrite (decide_True (P := m ∈ m :: l)) by (apply elem_of_cons; auto).
    destruct (t !! m); simpl; [by rewrite lookup_insert_eq|]. rewrite IH. by case_decide.
  - transitivity ((list_to_map (omap f l) : gmap Z object) !! n).
    { destruct (t !! m); simpl; [by rewrite lookup_insert_ne|done]. }
    rewrite IH. apply decide_ext. rewrite elem_of_cons. naive_solver.
Qed.

(** A process that [CreateProcessW] made, and what it leaves of the launcher. *)
Lemma CreateProcessW_spec breakaway app l b dir std list h r h' :
  CreateProcessW breakaway app l b dir std list h = (r, h') →
  match r with
  | Err _ => same_else h h' ∧ table h' = table h
  | Ok (process, thread, pid) =>
      job h' = job h ∧ lists h' = lists h ∧ table h !! process = None ∧ table h !! thread = None ∧ process ≠ thread ∧
      table h' = <[thread := Handle (ThreadObject pid) false]> (<[process := Handle (ProcessObject pid) false]> (table h)) ∧
      (breakaway = true → job h ≠ Some false) ∧
      ∃ given, started h' = Process app l b dir given std (breakaway || bool_decide (job h = None)) :: started h ∧
        ∀ n, given !! n = if decide (n ∈ list) then to <$> table h !! n else None
  end.
Proof.
  unfold CreateProcessW. destruct (next_fault h) as [[e|] h1] eqn:E; apply next_fault_same in E as [[Hj Hl Hs] Ht]; [by intros [= <- <-]|].
  destruct (_ || _); [by intros [= <- <-]|]. destruct (breakaway && _) eqn:Eb; [by intros [= <- <-]|]. intros [= <- <-]. simpl.
  set (p := fresh (dom (table h1))). set (t := <[p := Handle (ProcessObject (next_pid h1)) false]> (table h1)).
  set (th := fresh (dom t)).
  assert (table h1 !! p = None) as Hp by apply not_elem_of_dom, is_fresh.
  assert (t !! th = None) as Hth by apply not_elem_of_dom, is_fresh. unfold t in Hth. apply lookup_insert_None in Hth as [Hth Hne].
  rewrite Ht in Hp, Hth. split_and!; try done.
  - unfold t. by rewrite Ht.
  - intros ->. simpl in Eb. apply bool_decide_eq_false in Eb. congruence.
  - eexists. split; [by rewrite Hs, Hj|]. intros n. rewrite given_lookup. by rewrite Ht.
Qed.

Lemma with_handles_spec h r h' :
  with_handles h = (r, h') → table h' = table h ∧ job h' = job h ∧ started h' = started h ∧
  lists h' = match r with Ok _ => S (lists h) | Err _ => lists h end.
Proof. unfold with_handles. simpl. repeat case_match; intros; simplify_eq/=; auto. Qed.

(** A name that passes is the one the loader opens, and it is no batch file's. *)
Lemma check_program_ok file_name :
  check_program file_name = Ok tt →
  ∃ name, file_name = Some name ∧ (∀ l u, name = l ++ [u] → u ≠ 46 ∧ u ≠ 32) ∧
    ∀ l, to_ascii_lowercase name ≠ l ++ ascii ".bat" ∧ to_ascii_lowercase name ≠ l ++ ascii ".cmd".
Proof.
  assert (∀ l suffix, ends_with suffix (l ++ suffix) = true) as Hends.
  { intros l suffix. unfold ends_with. apply bool_decide_eq_true_2. rewrite length_app.
    replace (length l + length suffix - length suffix)%nat with (length l) by lia. apply drop_app_length. }
  destruct file_name as [name|]; [|done]. unfold check_program. destruct (ends_with (ascii ".") _ || _) eqn:E1; [done|].
  destruct (ends_with (ascii ".bat") _ || _) eqn:E2; [done|]. intros _.
  apply orb_false_iff in E1 as [E1 E1'], E2 as [E2 E2']. exists name. split_and!; [done| |].
  - intros l u ->. split; intros ->.
    + assert (ends_with (ascii ".") (l ++ [46]) = true) by exact (Hends l (ascii ".")). congruence.
    + assert (ends_with (ascii " ") (l ++ [32]) = true) by exact (Hends l (ascii " ")). congruence.
  - intros l. pose proof (Hends l (ascii ".bat")). pose proof (Hends l (ascii ".cmd")). split; intros E; congruence.
Qed.

(** The streams of a launch: the null device, and a clone for each stream that is a
    file. *)
Definition prepared (spec : Spawn) (h h' : host) (null : Z) (out err : option Z) : Prop :=
  ∃ extra, owns h h' extra (null :: option_list out ++ option_list err) ∧
    extra !! null = Some (Handle NullDevice true) ∧
    (∃ o, stream h (stdout spec) = Some o ∧ extra !! raw out null = Some (Handle o true)) ∧
    (∃ o, stream h (stderr spec) = Some o ∧ extra !! raw err null = Some (Handle o true)).

Definition gives_back (h h' : host) : Prop := table h' = table h ∧ same_else h h'.

Lemma owns_perm h h' extra l l' : l ≡ₚ l' → owns h h' extra l → owns h h' extra l'.
Proof. intros Hp (? & ? & ? & Hd & ?). split_and!; try done. rewrite Hd. apply leibniz_equiv. by rewrite Hp. Qed.

Lemma file_free h h1 extra owned t n : owns h h1 extra owned → is_Some (stream h t) → t = FileTarget n → extra !! n = None.
Proof.
  intros (_ & _ & Hd & _) Hs ->. simpl in Hs. apply fmap_is_Some in Hs as [x Hx]. by eapply map_disjoint_Some_r.
Qed.

(** The three steps that make the streams, each giving back what it cannot use. *)
Lemma streams_prepared spec h r1 h1 :
  is_Some (stream h (stdout spec)) → is_Some (stream h (stderr spec)) → open_null h = (r1, h1) →
  match r1 with
  | Err _ => gives_back h h1
  | Ok null =>
      let '(r2, h2) := inheritable (stdout spec) h1 in
      match r2 with
      | Err _ => gives_back h (closing [null] h2)
      | Ok out =>
          let '(r3, h3) := inheritable (stderr spec) h2 in
          match r3 with
          | Err _ => gives_back h (closing (null :: option_list out) h3)
          | Ok err => prepared spec h h3 null out err
          end
      end
  end.
Proof.
  intros Hout Herr E1. apply (new_handle_owns _ _ _ _ _ _ _ (owns_nothing h)) in E1.
  destruct r1 as [null|e].
  2: { destruct E1 as (Hs & Ht & _). split; [by rewrite Ht, map_empty_union|done]. }
  destruct E1 as [_ Ho1].
  destruct (inheritable (stdout spec) h1) as [r2 h2] eqn:E2.
  apply (inheritable_owns _ _ _ _ _ _ _ Ho1) in E2; [|by intros n; apply (file_free _ _ _ _ _ _ Ho1)].
  assert (match r2 with
          | Err _ => owns h h2 (<[null := Handle NullDevice true]> ∅) [null]
          | Ok out => ∃ extra, owns h h2 extra (null :: option_list out) ∧ extra !! null = Some (Handle NullDevice true) ∧
              ∃ o, stream h (stdout spec) = Some o ∧ extra !! raw out null = Some (Handle o true)
          end) as H2.
  { destruct r2 as [[n|]|e]; [| |done].
    - destruct E2 as (o & Hso & Hn & Ho2). destruct Ho1 as (_ & Ht1 & _). rewrite Ht1 in Hn. apply lookup_union_None in Hn as [Hn _].
      exists (<[n := Handle o true]> (<[null := Handle NullDevice true]> ∅)). split; [eapply owns_perm; [|exact Ho2]; apply Permutation_swap|].
      apply lookup_insert_None in Hn as [_ Hn]. split; [rewrite lookup_insert_ne by done; by rewrite lookup_insert_eq|].
      exists o. by rewrite lookup_insert_eq.
    - destruct E2 as [-> ->]. exists (<[null := Handle NullDevice true]> ∅). simpl. rewrite lookup_insert_eq. eauto 10. }
  destruct r2 as [out|e]; [|by apply closing_owned in H2]. destruct H2 as (extra & Ho2 & Hnull & o1 & Hs1 & Hx1).
  destruct (inheritable (stderr spec) h2) as [r3 h3] eqn:E3.
  apply (inheritable_owns _ _ _ _ _ _ _ Ho2) in E3; [|by intros n; apply (file_free _ _ _ _ _ _ Ho2)].
  destruct r3 as [[n|]|e]; [| |by apply closing_owned in E3].
  - destruct E3 as (o & Hso & Hn & Ho3). destruct Ho2 as (_ & Ht2 & _). rewrite Ht2 in Hn. apply lookup_union_None in Hn as [Hn _].
    exists (<[n := Handle o true]> extra). split_and!.
    + eapply owns_perm; [|exact Ho3]. simpl. rewrite <- Permutation_cons_append. apply Permutation_swap.
    + rewrite lookup_insert_ne; [done|congruence].
    + exists o1. split; [done|]. rewrite lookup_insert_ne; [done|congruence].
    + exists o. by rewrite lookup_insert_eq.
  - destruct E3 as [Hnt ->]. exists extra. rewrite app_nil_r. split_and!; [done..|by eauto|]. rewrite Hnt. simpl. eauto.
Qed.

(** What a created process has, launched from [h] for [spec]. *)
Definition as_asked (inherited : list variable) (spec : Spawn) (h : host) (p : process) : Prop :=
  let '(i, o, e) := standard p in
  (∀ n, is_Some (handles p !! n) ↔ n = i ∨ n = o ∨ n = e) ∧ (∀ n, is_Some (handles p !! n) → table h !! n = None) ∧
  handles p !! i = Some NullDevice ∧ handles p !! o = stream h (stdout spec) ∧ handles p !! e = stream h (stderr spec) ∧
  (∀ d, split d (until_nul (line p)) = program spec :: args spec) ∧ directory p = wide_nul <$> current_dir spec ∧
  (Forall good_var inherited →
    ∃ vars, entries (block p) = Some vars ∧ ∀ n, named n vars = after_changes n inherited (env spec)).

(** The process [CreateProcessW] makes once the streams are prepared. *)
Lemma created_as_asked inherited spec h h' null out err l b given app outside :
  prepared spec h h' null out err → command_line (program spec) (args spec) = Ok l →
  environment_block inherited (env spec) = Ok b →
  (∀ n, given !! n = if decide (n ∈ inherit_list [null; raw out null; raw err null]) then to <$> table h' !! n else None) →
  as_asked inherited spec h
    (Process app (l ++ [0]) b (wide_nul <$> current_dir spec) given (null, raw out null, raw err null) outside).
Proof.
  intros (extra & (_ & Ht & Hd & _) & Hnull & (o & Hso & Hxo) & e & Hse & Hxe) Hl Hb Hg.
  destruct (inherit_list_spec [null; raw out null; raw err null]) as [_ Hin].
  assert (∀ n x, extra !! n = Some x → n ∈ inherit_list [null; raw out null; raw err null] → given !! n = Some (to x)) as Hgiven.
  { intros n x Hx Hn. by rewrite Hg, decide_True, Ht, (lookup_union_Some_l _ _ _ _ Hx). }
  assert (∀ n, n ∈ inherit_list [null; raw out null; raw err null] ↔ n = null ∨ n = raw out null ∨ n = raw err null) as Hin'.
  { intros n. rewrite Hin. set_solver. }
  assert (∀ n, n = null ∨ n = raw out null ∨ n = raw err null → is_Some (extra !! n)) as Hextra by (intros n [->|[->| ->]]; eauto).
  assert (∀ n, is_Some (given !! n) ↔ n = null ∨ n = raw out null ∨ n = raw err null) as Hdom.
  { intros n. split; [rewrite Hg; case_decide as Hn; [by rewrite <- Hin'|by intros [? [=]]]|].
    intros Hn. destruct (Hextra n Hn) as [x Hx]. rewrite (Hgiven n x Hx); [by eexists|by apply Hin']. }
  unfold as_asked. cbn [standard handles line block directory]. split_and!; [done| | | | | |done|].
  - intros n Hn%Hdom. destruct (Hextra n Hn) as [x Hx]. by eapply map_disjoint_Some_l.
  - by rewrite (Hgiven _ _ Hnull) by (apply Hin'; auto).
  - by rewrite (Hgiven _ _ Hxo), Hso by (apply Hin'; auto).
  - by rewrite (Hgiven _ _ Hxe), Hse by (apply Hin'; auto).
  - intros d. rewrite until_nul_snoc by by eapply line_no_nul. by apply line_splits.
  - intros Hi. destruct (block_read_back _ _ _ Hi Hb) as [_ (vars & Hv & _ & Hn)]. eauto.
Qed.

(** Both attempts to create the process. *)
Lemma both_attempts app l b dir std list h created h' :
  (let create breakaway := CreateProcessW breakaway app l b dir std list in
   match create true h with
   | (Ok info, h) => (Ok (info, false), h)
   | (Err e, h) => if breakaway_refused e then let '(r, h) := create false h in ((λ info, (info, true)) <$> r, h) else (Err e, h)
   end) = (created, h') →
  match created with
  | Err _ => same_else h h' ∧ table h' = table h
  | Ok ((process, thread, pid), in_job) =>
      lists h' = lists h ∧ table h !! process = None ∧ table h !! thread = None ∧ process ≠ thread ∧
      table h' = <[thread := Handle (ThreadObject pid) false]> (<[process := Handle (ProcessObject pid) false]> (table h)) ∧
      ∃ given outside, started h' = Process app l b dir given std outside :: started h ∧ (in_job = false → outside = true) ∧
        ∀ n, given !! n = if decide (n ∈ list) then to <$> table h !! n else None
  end.
Proof.
  simpl. destruct (CreateProcessW true app l b dir std list h) as [[[[p th] i]|e] h1] eqn:E1; apply CreateProcessW_spec in E1.
  { intros [= <- <-]. destruct E1 as (_ & ? & ? & ? & ? & ? & _ & given & ? & ?). split_and!; try done. eauto 10. }
  destruct E1 as [Hs1 Ht1]. destruct (breakaway_refused e); [|intros [= <- <-]; done].
  destruct (CreateProcessW false app l b dir std list h1) as [[[[p th] i]|e'] h2] eqn:E2; apply CreateProcessW_spec in E2;
    intros [= <- <-]; simpl.
  - destruct E2 as (_ & Hl & Hp & Hth & Hne & Ht & _ & given & Hst & Hg). rewrite Ht1 in *. destruct Hs1 as [Hj Hls Hss].
    split_and!; try done; [congruence|]. exists given, (bool_decide (job h1 = None)). split_and!; [by rewrite <- Hss|done|done].
  - destruct E2 as [Hs2 Ht2]. split; [by etrans|congruence].
Qed.

(** Only a process that is created takes a PID. *)
Lemma new_handle_pid o b h r h' : new_handle o b h = (r, h') → next_pid h' = next_pid h.
Proof. unfold new_handle, next_fault. repeat case_match; intros; simplify_eq/=; done. Qed.

Lemma inheritable_pid t h r h' : inheritable t h = (r, h') → next_pid h' = next_pid h.
Proof.
  unfold inheritable. destruct t as [|n]; [by intros [= _ <-]|]. destruct (table h !! n) as [x|]; [|by intros [= _ <-]].
  destruct (new_handle _ _ h) as [r' h2] eqn:E. apply new_handle_pid in E. by intros [= _ <-].
Qed.

Lemma with_handles_pid h r h' : with_handles h = (r, h') → next_pid h' = next_pid h.
Proof. unfold with_handles, next_fault. simpl. repeat case_match; intros; simplify_eq/=; done. Qed.

Lemma CreateProcessW_pid breakaway app l b dir std list h r h' :
  CreateProcessW breakaway app l b dir std list h = (r, h') →
  match r with Ok (_, _, pid) => pid = next_pid h | Err _ => next_pid h' = next_pid h end.
Proof. unfold CreateProcessW, next_fault. repeat case_match; intros; simplify_eq/=; done. Qed.

Lemma spawn_pid file_name absolute inherited spec h child h' :
  spawn file_name absolute inherited spec h = (Ok child, h') → pid child = next_pid h.
Proof.
  unfold spawn. destruct (check_program file_name); [|done]. destruct (command_line _ _); [|done].
  destruct (environment_block _ _); [|done].
  destruct (open_null h) as [[null|] h1] eqn:E1; [|done]. apply new_handle_pid in E1.
  destruct (inheritable (stdout spec) h1) as [[out|] h2] eqn:E2; [|done]. apply inheritable_pid in E2.
  destruct (inheritable (stderr spec) h2) as [[err|] h3] eqn:E3; [|done]. apply inheritable_pid in E3.
  destruct (with_handles h3) as [[|] h4] eqn:E4; [|done]. apply with_handles_pid in E4.
  destruct (CreateProcessW true _ _ _ _ _ _ h4) as [[[[process thread] p]|e] h5] eqn:E5; apply CreateProcessW_pid in E5.
  - intros [= <- _]. simpl. congruence.
  - destruct (breakaway_refused e); [|done].
    destruct (CreateProcessW false _ _ _ _ _ _ h5) as [[[[process thread] p]|e'] h6] eqn:E6; apply CreateProcessW_pid in E6; [|done].
    intros [= <- _]. simpl. congruence.
Qed.

(** What [spawn] leaves of the launcher, and the process it starts. *)
Lemma spawn_spec file_name absolute inherited spec h r h' :
  is_Some (stream h (stdout spec)) → is_Some (stream h (stderr spec)) →
  spawn file_name absolute inherited spec h = (r, h') →
  lists h' = lists h ∧
  match r with
  | Err _ => table h' = table h ∧ started h' = started h
  | Ok child =>
      table h !! process_handle child = None ∧
      table h' = <[process_handle child := Handle (ProcessObject (pid child)) false]> (table h) ∧
      (∃ name, file_name = Some name ∧ (∀ l u, name = l ++ [u] → u ≠ 46 ∧ u ≠ 32) ∧
        ∀ l, to_ascii_lowercase name ≠ l ++ ascii ".bat" ∧ to_ascii_lowercase name ≠ l ++ ascii ".cmd") ∧
      ∃ p, started h' = p :: started h ∧ as_asked inherited spec h p ∧ (in_callers_job child = false → outside_job p = true)
  end.
Proof.
  intros Hout Herr. unfold spawn.
  destruct (check_program file_name) as [[]|e] eqn:Ep; [|by intros [= <- <-]].
  destruct (command_line _ _) as [l|e] eqn:El; [|by intros [= <- <-]].
  destruct (environment_block _ _) as [b|e] eqn:Eb; [|by intros [= <- <-]].
  assert (∀ e g, gives_back h g → (Err e, g) = (r, h') →
    lists h' = lists h ∧ match r with Err _ => table h' = table h ∧ started h' = started h | Ok _ => False end) as Hback.
  { intros e g (Ht & [_ Hl Hs]) [= <- <-]. done. }
  destruct (open_null h) as [r1 h1] eqn:E1. pose proof (streams_prepared spec h r1 h1 Hout Herr E1) as Hs.
  destruct r1 as [null|e]; [|by intros E; destruct (Hback _ _ Hs E); destruct r].
  destruct (inheritable (stdout spec) h1) as [[out|e] h2]; [|by intros E; destruct (Hback _ _ Hs E); destruct r].
  destruct (inheritable (stderr spec) h2) as [[err|e] h3]; [|by intros E; destruct (Hback _ _ Hs E); destruct r].
  pose proof Hs as (extra & Ho & _). pose proof Ho as (Hse & Ht3 & Hd & Hdom & Hi).
  set (owned := null :: option_list out ++ option_list err) in *.
  destruct (with_handles h3) as [[[]|e] h4] eqn:E4; pose proof (with_handles_pid _ _ _ E4) as Hp4;
    apply with_handles_spec in E4 as (Ht4 & Hj4 & Hst4 & Hl4).
  2: { intros E. destruct (Hback e (closing owned h4)) as [? H']; [|done|by destruct r]. apply (closing_owned _ _ extra).
       split_and!; [etrans; [exact Hse|by constructor]|congruence|done..]. }
  destruct (match CreateProcessW true _ _ _ _ _ _ h4 with (Ok info, h) => _ | (Err e, h) => _ end) as [created h5] eqn:E5.
  apply both_attempts in E5. destruct created as [[[[process thread] i] in_job]|e].
  2: { destruct E5 as [[Hj5 Hl5 Hst5 Hpid5] Ht5]. intros E. destruct (Hback e (closing owned (drop_list h5))) as [? H']; [|done|by destruct r].
       apply (closing_owned _ _ extra). split_and!; [|simpl; congruence|done..]. destruct Hse as [Hj Hl Hst Hpid].
       constructor; simpl; [congruence|by rewrite Hl5, Hl4|congruence..]. }
  destruct E5 as (Hl5 & Hp5 & Hth5 & Hne & Ht5 & given & outside & Hst5 & Hjob & Hg). intros [= <- <-].
  rewrite Ht4 in *. rewrite Ht3 in Hp5, Hth5. apply lookup_union_None in Hp5 as [Hpx Hp], Hth5 as [Hthx Hth].
  destruct Hse as [Hj Hl Hst]. split; [simpl; by rewrite Hl5, Hl4|]. split_and!.
  - done.
  - change (table (closing (thread :: owned) (drop_list h5))) with (foldr delete (table h5) (thread :: owned)).
    rewrite Ht5, Ht3, insert_union_r, insert_union_l by done. apply delete_extra.
    + apply map_disjoint_insert_l. split; [by rewrite lookup_insert_ne|]. by apply map_disjoint_insert_r.
    + by rewrite dom_insert_L, Hdom.
  - by apply check_program_ok.
  - eexists. split; [simpl; by rewrite Hst5, Hst4, Hst|]. split; [|done]. by eapply created_as_asked.
Qed.


(** A launcher under a build tool: its job allows no breakaway, and the tool's pipe
    is inheritable. *)
Definition launcher : host :=
  Host (list_to_map [(4, Handle (FileObject 1) true); (8, Handle (FileObject 2) false)]) (Some false) 700 0 [] [].
Definition exampled : Spawn :=
  MkSpawn (ascii "C:\bin\exampled.exe") [ascii "--serve"] [EnvChange.Set_ (ascii "LANG") (ascii "C")] None NullTarget (FileTarget 8).


(** A directory with a NUL is cut there. [spawn] refuses a NUL in the program, in an
    argument and in the environment, but hands the directory on as it is: the system
    reads it up to the first NUL, and the daemon starts in another directory than the
    one asked for. *)
Theorem a_directory_is_cut_at_nul :
  let directory_asked := ascii "C:\data" ++ [0] ++ ascii "\daemon" in
  let spec := MkSpawn (program exampled) [] [] (Some directory_asked) NullTarget NullTarget in
  let '(r, h) := spawn (Some (ascii "exampled.exe")) true [] spec launcher in
  r = Ok (Child 10 700 true) ∧
  (λ p, until_nul <$> directory p) <$> started h = [Some (ascii "C:\data")].
Proof. vm_compute. split; reflexivity. Qed.

(** ** The child *)

Module ChildProcess.
Definition INFINITE : Z := 0xFFFFFFFF.
Definition WAIT_OBJECT_0 : Z := 0.
Definition WAIT_TIMEOUT : Z := 258.

(** What the system does with the process behind the handle. *)
Class System (W : Type) : Type := {
  wait_for_single_object : Z → W → Z * io_error * W;
  get_exit_code : W → io_result Z * W;
  terminate_process : W → io_result unit * W;
}.

(** [exit_code] is the code of a process that has exited. A process that was
    terminated exits; only one that exited answers a wait. *)
Class SystemLaws (W : Type) `{System W} : Type := {
  exit_code : W → option Z;
  going : W → Prop;
  wait_signalled ms w e w' : wait_for_single_object ms w = (WAIT_OBJECT_0, e, w') → is_Some (exit_code w');
  get_exit_code_of w c w' : get_exit_code w = (Ok c, w') → is_Some (exit_code w) → exit_code w = Some c ∧ exit_code w' = Some c;
  terminated w w' : terminate_process w = (Ok tt, w') → going w';
}.

Section code.
Context {W : Type} `{System W}.

Definition wait_for (ms : Z) (w : W) : io_result (option Z) * W :=
  let '(answer, e, w) := wait_for_single_object ms w in
  if answer =? WAIT_OBJECT_0 then let '(r, w) := get_exit_code w in (Some <$> r, w)
  else if answer =? WAIT_TIMEOUT then (Ok None, w) else (Err e, w).

Definition try_wait : W → io_result (option Z) * W := wait_for 0.

Definition wait (w : W) : io_result Z * W :=
  let '(r, w) := wait_for INFINITE w in
  (r ≫= λ o, ok_or o (error_other "infinite wait returned without an exit"), w).

Definition kill (w : W) : io_result unit * W :=
  match terminate_process w with
  | (Ok _, w) => (Ok tt, w)
  | (Err e, w) =>
      match try_wait w with
      | (Err e', w) => (Err e', w)
      | (Ok (Some _), w) => (Ok tt, w)
      | (Ok None, w) => (Err e, w)
      end
  end.
End code.

(** A status is the code of a process that exited, and a kill that succeeds leaves
    the process exited or on its way. *)
Lemma statuses_are_exits {W} `{SystemLaws W} (w w' : W) :
  (∀ ms c, wait_for ms w = (Ok (Some c), w') → exit_code w' = Some c) ∧
  (∀ c, wait w = (Ok c, w') → exit_code w' = Some c) ∧
  (kill w = (Ok tt, w') → going w' ∨ is_Some (exit_code w')).
Proof.
  assert (∀ v v' ms c, wait_for ms v = (Ok (Some c), v') → exit_code v' = Some c) as Hw.
  { intros v v' ms c. unfold wait_for. destruct (wait_for_single_object ms v) as [[a e] v1] eqn:E.
    destruct (Z.eqb_spec a WAIT_OBJECT_0) as [->|_]; [|by destruct (a =? WAIT_TIMEOUT)].
    destruct (get_exit_code v1) as [[c'|e'] v2] eqn:Eg; [|done]. intros [= -> <-].
    eapply get_exit_code_of in Eg; [by destruct Eg|]. by eapply wait_signalled. }
  split_and!.
  - intros ms c. apply Hw.
  - intros c. unfold wait. destruct (wait_for INFINITE w) as [[[c'|]|e] v] eqn:E; simpl; intros [= <- <-]. by eapply Hw.
  - unfold kill. destruct (terminate_process w) as [[[]|e] v] eqn:E; [intros [= <-]; left; by eapply terminated|].
    destruct (try_wait v) as [[[c|]|e'] v'] eqn:Et; intros [= <-]. right. exists c. by eapply Hw.
Qed.
End ChildProcess.
