(* ===== verification/WindowsUser.v ===== *)
(** * The user of a process and of this one, on Windows (src/local/windows.rs)

    [query_token_user] reads a token's user into a buffer it sized first; the first
    word of the buffer points at the SID. What is opened on the way is closed, and
    what the system allocates is freed. [None] is an index that panics or a read
    outside an allocation. *)
From stdpp Require Import gmap list.
From S2P Require Import Prelude CommandLine WindowsRecords WindowsLaunch.

(** ** The process *)

(** The process's handles, and the memory the system allocated for it. *)
Record os := Os { kernel : host; local : gmap Z units }.

Definition lift {A} (f : host → A * host) (s : os) : A * os := let '(a, h) := f (kernel s) in (a, Os h (local s)).

Definition open (o : object) : os → io_result Z * os := lift (new_handle o false).
(** [CloseHandle]. *)
Definition close (n : Z) (s : os) : os := Os (closing [n] (kernel s)) (local s).

(** A call that leaves a string of the system's. *)
Definition local_alloc (content : units) (s : os) : io_result Z * os :=
  match lift next_fault s with
  | (Some e, s) => (Err e, s)
  | (None, s) => let p := fresh (dom (local s)) in (Ok p, Os (kernel s) (<[p := content]> (local s)))
  end.
(** [LocalMemory::drop]. *)
Definition local_free (p : Z) (s : os) : os := Os (kernel s) (delete p (local s)).

(** What the system says of a token: whether the size query reports success, the size
    it leaves, and the words it writes to a buffer of so many bytes; and of a SID: its
    text and which others it equals. *)
Class Accounts := {
  size_reply : Z → bool * Z;
  information : Z → Z → list Z;
  sid_text : Z → units;
  EqualSid : Z → Z → bool;
}.

(** It writes no more than it was allowed, and a text has no NUL in it. *)
Class AccountLaws `{!Accounts} : Prop := {
  information_fits owner n : 0 ≤ n → Z.of_nat (length (information owner n)) ≤ (n + 7) / 8;
  sid_text_ends p : 0 ∉ sid_text p;
}.

(** The process itself, for [GetCurrentProcess]. *)
Definition myself : Z := 0.
Definition ERROR_INSUFFICIENT_BUFFER : Z := 122.

Section code.
Context `{!Accounts}.

(** The buffer that is asked for [needed] bytes, once the system wrote to it. *)
Definition buffer_of (owner needed : Z) : list Z :=
  let buffer := replicate (Z.to_nat ((needed + 7) / 8)) 0 in
  let written := information owner needed in
  written ++ drop (length written) buffer.

(** [query_token_user] of a token of [owner]'s. *)
Definition query_token_user (owner : Z) (s : os) : io_result (list Z) * os :=
  let '(fault, s) := lift next_fault s in
  let error := match fault with Some e => raw_os_error e | None => Some ERROR_INSUFFICIENT_BUFFER end in
  let '(succeeded, needed) := size_reply owner in
  if succeeded || negb (bool_decide (error = Some ERROR_INSUFFICIENT_BUFFER)) || (needed <? 8) || (65536 <? needed)
  then (Err (error_new PermissionDenied "cannot size peer token"), s) else
  match lift next_fault s with
  | (Some e, s) => (Err e, s)
  | (None, s) => (Ok (buffer_of owner needed), s)
  end.

(** [token_user]: the token is closed again. *)
Definition token_user (owner : Z) (s : os) : io_result (list Z) * os :=
  match open (TokenObject owner) s with
  | (Err e, s) => (Err e, s)
  | (Ok token, s) => let '(r, s) := query_token_user owner s in (r, close token s)
  end.

Definition same_sid (first second : list Z) : option bool :=
  a ← head first; b ← head second; Some (EqualSid a b).

(** [process_runs_as_this_user]: the handle is closed when the function returns. *)
Definition process_runs_as_this_user (pid : Z) (s : os) : option (io_result bool * os) :=
  match open (ProcessObject pid) s with
  | (Err e, s) => Some (Err e, s)
  | (Ok process, s) =>
      match token_user pid s with
      | (Err e, s) => Some (Err e, close process s)
      | (Ok peer, s) =>
          match token_user myself s with
          | (Err e, s) => Some (Err e, close process s)
          | (Ok own, s) => b ← same_sid peer own; Some (Ok b, close process s)
          end
      end
  end.

(** The length of the string at [p]: the index of its NUL. *)
Fixpoint length_to_nul (l : units) : option nat :=
  match l with [] => None | u :: l => if u =? 0 then Some O else S <$> length_to_nul l end.

(** [current_user_sid]; a [String] is its UTF-16 units. *)
Definition current_user_sid (s : os) : option (io_result units * os) :=
  match token_user myself s with
  | (Err e, s) => Some (Err e, s)
  | (Ok user, s) =>
      sid ← head user;
      match local_alloc (sid_text sid ++ [0]) s with
      | (Err e, s) => Some (Err e, s)
      | (Ok text, s) =>
          memory ← local s !! text;
          length ← length_to_nul memory;
          let sid := take length memory in
          Some (match Temporary.from_utf16 sid with Some _ => Ok sid | None => Err (error_of_kind InvalidData) end, local_free text s)
      end
  end.

(** [terminate_legacy_peer]: [ended] collects the processes that were terminated. *)
Definition terminate_legacy_peer (pid : Z) (s : os * list Z) : io_result unit * (os * list Z) :=
  let '(s, ended) := s in
  match open (ProcessObject pid) s with
  | (Err e, s) => (Err e, (s, ended))
  | (Ok process, s) =>
      let '(fault, s) := lift next_fault s in
      let s := close process s in
      match fault with None => (Ok tt, (s, pid :: ended)) | Some e => (Err e, (s, ended)) end
  end.
End code.

(** ** Nothing is left behind *)

(** The calls only use up what is ahead. *)
Record undisturbed (s s' : os) : Prop := {
  same_table : table (kernel s') = table (kernel s);
  same_host : same_else (kernel s) (kernel s');
  same_local : local s' = local s;
}.
#[export] Instance undisturbed_preorder : PreOrder undisturbed.
Proof.
  split; [intros s; split; try done; by constructor|]. intros a b c [? [] ?] [? [] ?].
  split; [congruence|constructor; congruence|congruence].
Qed.

Lemma fault_undisturbed s e s' : lift next_fault s = (e, s') → undisturbed s s'.
Proof.
  unfold lift. destruct (next_fault (kernel s)) as [e' h] eqn:E. apply next_fault_same in E as [? ?]. intros [= _ <-]. by split.
Qed.

(** A new handle is one the process did not have. *)
Lemma open_spec o s r s' :
  open o s = (r, s') →
  match r with
  | Ok n => table (kernel s) !! n = None ∧ table (kernel s') = <[n := Handle o false]> (table (kernel s)) ∧
            same_else (kernel s) (kernel s') ∧ local s' = local s
  | Err _ => undisturbed s s'
  end.
Proof.
  unfold open, lift, new_handle. destruct (next_fault (kernel s)) as [[e|] h] eqn:E; apply next_fault_same in E as [Hs Ht];
    intros [= <- <-]; simpl; [by split|]. rewrite <- Ht. split_and!; try done.
  - apply not_elem_of_dom, is_fresh.
  - etrans; [exact Hs|by constructor].
Qed.

(** A handle that was opened and is closed again. *)
Lemma opened_and_closed o s n s1 s2 :
  open o s = (Ok n, s1) → undisturbed s1 s2 → undisturbed s (close n s2).
Proof.
  intros (Hn & Ht & Hs & Hl)%open_spec [Ht2 Hs2 Hl2]. split; simpl.
  - rewrite Ht2, Ht. by apply delete_insert_id.
  - etrans; [exact Hs|]. etrans; [exact Hs2|]. by constructor.
  - congruence.
Qed.

Section proofs.
Context `{!Accounts, !AccountLaws}.

(** The buffer has the size the system asked for, in whole words, and at least one. *)
Lemma query_spec owner s r s' :
  query_token_user owner s = (r, s') →
  undisturbed s s' ∧
  ∀ buffer, r = Ok buffer → let needed := (size_reply owner).2 in
    8 ≤ needed ≤ 65536 ∧ needed ≤ 8 * Z.of_nat (length buffer) < needed + 8 ∧ buffer = buffer_of owner needed.
Proof.
  unfold query_token_user. destruct (lift next_fault s) as [f1 s1] eqn:E1. apply fault_undisturbed in E1.
  destruct (size_reply owner) as [ok needed]. destruct (ok || _ || _ || _) eqn:Eg; [by intros [= <- <-]|].
  rewrite !orb_false_iff in Eg. destruct Eg as [[_ Hlow%Z.ltb_ge] Hhigh%Z.ltb_ge].
  destruct (lift next_fault s1) as [[e|] s2] eqn:E2; apply fault_undisturbed in E2; intros [= <- <-]; (split; [by etrans|]); [done|].
  intros buffer [= <-]. simpl. pose proof (information_fits owner needed ltac:(lia)) as Hfit.
  pose proof (Z.div_mod (needed + 7) 8 ltac:(lia)). pose proof (Z.mod_pos_bound (needed + 7) 8 ltac:(lia)).
  split; [lia|]. split; [|done]. unfold buffer_of. rewrite length_app, length_drop, length_replicate. lia.
Qed.

(** The SID of [owner]'s user: the first word of the buffer. *)
Definition sid_of (owner : Z) : option Z := head (buffer_of owner (size_reply owner).2).

Lemma token_user_spec owner s r s' :
  token_user owner s = (r, s') → undisturbed s s' ∧ ∀ buffer, r = Ok buffer → head buffer = sid_of owner ∧ is_Some (sid_of owner).
Proof.
  unfold token_user. destruct (open _ s) as [[token|e] s1] eqn:Eo.
  - destruct (query_token_user owner s1) as [r2 s2] eqn:Eq. apply query_spec in Eq as [Hu Hr]. intros [= <- <-].
    split; [by eapply opened_and_closed|]. intros buffer Hb. destruct (Hr buffer Hb) as (Hn & Hlen & Hbuf).
    unfold sid_of. rewrite <- Hbuf. split; [done|]. destruct buffer; [simpl in Hlen; lia|by eexists].
  - apply open_spec in Eo. by intros [= <- <-].
Qed.

Lemma process_user_spec pid s :
  ∃ r s', process_runs_as_this_user pid s = Some (r, s') ∧ undisturbed s s' ∧
    ∀ b, r = Ok b → ∃ peer own, sid_of pid = Some peer ∧ sid_of myself = Some own ∧ b = EqualSid peer own.
Proof.
  unfold process_runs_as_this_user. destruct (open _ s) as [[process|e] s1] eqn:Eo.
  2: { apply open_spec in Eo. do 2 eexists. split; [done|]. by split. }
  destruct (token_user pid s1) as [[peer|e] s2] eqn:E2; apply token_user_spec in E2 as [Hu2 Hp].
  2: { do 2 eexists. split; [done|]. split; [by eapply opened_and_closed|done]. }
  destruct (token_user myself s2) as [[own|e] s3] eqn:E3; apply token_user_spec in E3 as [Hu3 Ho].
  2: { do 2 eexists. split; [done|]. split; [eapply opened_and_closed; [done|by etrans]|done]. }
  destruct (Hp peer eq_refl) as [Hph [p Hpp]], (Ho own eq_refl) as [Hoh [o Hoo]]. unfold same_sid. rewrite Hph, Hoh, Hpp, Hoo. simpl.
  do 2 eexists. split; [done|]. split; [eapply opened_and_closed; [done|by etrans]|]. intros b [= <-]. by eauto 10.
Qed.

Lemma length_to_nul_spec l : 0 ∉ l → length_to_nul (l ++ [0]) = Some (length l).
Proof.
  induction l as [|u l IH]; [done|]. intros [Hu Hl]%not_elem_of_cons. simpl. destruct (Z.eqb_spec u 0); [done|]. by rewrite IH.
Qed.

Lemma local_alloc_spec content s r s' :
  local_alloc content s = (r, s') →
  match r with
  | Ok p => local s !! p = None ∧ local s' = <[p := content]> (local s) ∧
            table (kernel s') = table (kernel s) ∧ same_else (kernel s) (kernel s')
  | Err _ => undisturbed s s'
  end.
Proof.
  unfold local_alloc. destruct (lift next_fault s) as [[e|] s1] eqn:E; apply fault_undisturbed in E; intros [= <- <-]; [done|].
  destruct E as [Ht Hs Hl]. simpl. rewrite <- Hl. split_and!; try done. apply not_elem_of_dom, is_fresh.
Qed.

Lemma allocated_and_freed content s p s1 s2 :
  local_alloc content s = (Ok p, s1) → undisturbed s1 s2 → undisturbed s (local_free p s2).
Proof.
  intros (Hp & Hl & Ht & Hs)%local_alloc_spec [Ht2 Hs2 Hl2]. split; simpl; [congruence|by etrans|].
  rewrite Hl2, Hl. by apply delete_insert_id.
Qed.

Lemma current_user_spec s :
  ∃ r s', current_user_sid s = Some (r, s') ∧ undisturbed s s' ∧ ∀ text, r = Ok text → ∃ sid, sid_of myself = Some sid ∧ text = sid_text sid.
Proof.
  unfold current_user_sid. destruct (token_user myself s) as [[user|e] s1] eqn:E1; apply token_user_spec in E1 as [Hu1 Hr].
  2: { do 2 eexists. split; [done|]. by split. }
  destruct (Hr user eq_refl) as [Hu [sid Hsid]]. rewrite Hu, Hsid. simpl.
  destruct (local_alloc (sid_text sid ++ [0]) s1) as [[p|e] s2] eqn:E2; pose proof (local_alloc_spec _ _ _ _ E2) as Hs2.
  2: { do 2 eexists. split; [done|]. split; [by etrans|done]. }
  destruct Hs2 as (_ & Hl & _). rewrite Hl, lookup_insert_eq. simpl. rewrite length_to_nul_spec by apply sid_text_ends. simpl.
  do 2 eexists. split; [done|]. split; [etrans; [exact Hu1|]; eapply allocated_and_freed; [done|reflexivity]|].
  rewrite take_app_length. intros text. destruct (Temporary.from_utf16 _); intros [= <-]. by eauto 10.
Qed.

(** Asking for a user leaves nothing behind. Whatever calls fail, asking whose
    process it is and for this process's own user indexes no empty buffer and reads no
    memory past its end; every handle opened is closed again, every allocation freed,
    and an answer is what the system says of the two SIDs, or of its own. Terminating a
    peer closes its handle on every path, and ends no other process. *)
Theorem user_queries_leave_nothing (pid : Z) (s : os) (ended : list Z) :
  (∃ r s', process_runs_as_this_user pid s = Some (r, s') ∧ undisturbed s s' ∧
    ∀ b, r = Ok b → ∃ peer own, sid_of pid = Some peer ∧ sid_of myself = Some own ∧ b = EqualSid peer own) ∧
  (∃ r s', current_user_sid s = Some (r, s') ∧ undisturbed s s' ∧ ∀ text, r = Ok text → ∃ sid, sid_of myself = Some sid ∧ text = sid_text sid) ∧
  (∃ r s' ended', terminate_legacy_peer pid (s, ended) = (r, (s', ended')) ∧ undisturbed s s' ∧
    ended' = match r with Ok _ => pid :: ended | Err _ => ended end).
Proof.
  split_and!; [apply process_user_spec|apply current_user_spec|].
  unfold terminate_legacy_peer. destruct (open _ s) as [[process|e] s1] eqn:Eo.
  2: { apply open_spec in Eo. do 3 eexists. split; [done|]. by split. }
  destruct (lift next_fault s1) as [fault s2] eqn:E2. apply fault_undisturbed in E2.
  destruct fault; do 3 eexists; (split; [done|]); (split; [by eapply opened_and_closed|done]).
Qed.
End proofs.

(** A machine whose tokens fill 44 bytes; every owner has a SID of its own. *)
Module TwoUsers.
#[global] Instance accounts : Accounts := {|
  size_reply owner := (false, 44);
  information owner n := if n =? 44 then [100 + owner; 0] else [];
  sid_text p := ascii "S-1-5-" ++ [48 + p mod 10];
  EqualSid a b := a =? b;
|}.
#[global] Instance laws : AccountLaws.
Proof.
  split.
  - intros owner n Hn. simpl. destruct (Z.eqb_spec n 44) as [->|]; [by vm_compute|]. simpl. apply Z.div_pos; lia.
  - intros p. unfold sid_text. pose proof (Z.mod_pos_bound p 10). intros [Hin|Hin]%elem_of_app.
    + assert (Forall (λ u, u ≠ 0) (ascii "S-1-5-")) as Hf by (vm_compute; repeat constructor; discriminate).
      rewrite Forall_forall in Hf. by apply (Hf 0).
    + apply list_elem_of_singleton in Hin. lia.
Qed.

Definition process : os := Os (Host ∅ None 0 0 [] [None; None; None; None; Some (IoError Other (Some 8) "")]) ∅.
End TwoUsers.

Lemma user_queries_leave_nothing_witness :
  ∃ r s', process_runs_as_this_user 7 TwoUsers.process = Some (r, s') ∧ r = Err (IoError Other (Some 8) "") ∧
    undisturbed TwoUsers.process s'.
Proof.
  destruct (user_queries_leave_nothing 7 TwoUsers.process []) as [(r & s' & E & Hu & _) _].
  exists r, s'. split; [exact E|]. split; [|exact Hu]. vm_compute in E. by injection E as <- _.
Defined.
