(* ===== verification/WindowsDaemon.v ===== *)
(** * The whole launch of a daemon on Windows (src/launch.rs)

    [DaemonCommand::spawn]: the readiness pipe and the thread that reads it, the
    process, a handle to wait for its exit and another for the reader. Every step may
    fail; what was made before is then given back. *)
From stdpp Require Import gmap list.
From S2P Require Import Prelude Process CommandLine WindowsLaunch ReadyPipe WindowsUser.

(** ** The launcher *)

(** A thread that reads a readiness pipe. It waits for the daemon's process handle
    ([started.recv]) and ends if the sender is dropped before. *)
Record Reader := MkReader { pipe : Z; process : option Z; sender : bool }.

(** The launcher, its readers, the newest first, and the processes it terminated, with
    whether that worked. *)
Record launcher := Launcher { here : os; readers : list Reader; kills : list (Z * bool) }.

Definition at_ (s : os) (w : launcher) : launcher := Launcher s (readers w) (kills w).
Definition set_readers (l : list Reader) (w : launcher) : launcher := Launcher (here w) l (kills w).
Definition doing {A} (f : os → A * os) (w : launcher) : A * launcher := let '(a, s) := f (here w) in (a, at_ s w).

(** The newest reader gets the process handle, or loses its sender. *)
Definition deliver (n : Z) (w : launcher) : launcher :=
  match readers w with r :: l => set_readers (MkReader (pipe r) (Some n) false :: l) w | [] => w end.
Definition hang_up (channel : option Z) (w : launcher) : launcher :=
  match channel, readers w with
  | Some _, r :: l => set_readers (MkReader (pipe r) (process r) false :: l) w
  | _, _ => w
  end.

(** [Reader::process] without a sender: the first step ends the channel, and the thread
    closes the pipe. *)
Definition reader_ends (w : launcher) : launcher :=
  match readers w with
  | r :: l =>
      if negb (sender r) && bool_decide (process r = None) then at_ (close (pipe r) (here w)) (set_readers l w) else w
  | [] => w
  end.

(** ** The readiness pipe *)

Section code.
Context `{!Accounts}.

Definition wide (l : bytes) : units := byte_val <$> l.
Definition sddl (sid : units) : units := ascii "D:P(A;;GA;;;" ++ sid ++ ascii ")".

(** [current_user_only]: a descriptor is what its text says. *)
Definition current_user_only (s : os) : option (io_result Z * os) :=
  '(sid, s) ← current_user_sid s;
  Some match sid with Err e => (Err e, s) | Ok sid => local_alloc (sddl sid) s end.

(** [ready::create], with the 16 bytes of [RtlGenRandom], if it answers. *)
Definition create (random : option bytes) (s : os) : option (io_result (bytes * Z) * os) :=
  match Name.random_name random with
  | Err e => Some (Err e, s)
  | Ok name =>
      '(descriptor, s) ← current_user_only s;
      match descriptor with
      | Err e => Some (Err e, s)
      | Ok descriptor =>
          access ← local s !! descriptor;
          let '(r, s) := open (PipeObject (wide name) access) s in
          Some ((λ n, (name, n)) <$> r, local_free descriptor s)
      end
  end.

(** [Channel::start] of a reader: without a thread the reader and its pipe go. *)
Definition start (n : Z) (w : launcher) : io_result unit * launcher :=
  match doing (lift next_fault) w with
  | (Some e, w) => (Err e, at_ (close n (here w)) w)
  | (None, w) => (Ok tt, set_readers (MkReader n None true :: readers w) w)
  end.

(** ** [DaemonCommand::spawn] *)

Definition ENV : units := ascii "KUNOBI_DAEMON_READY".

(** The fields of a [DaemonCommand]; all but the last are those of [Spawn]. *)
Record DaemonCommand := MkCommand { command : Spawn; readiness : bool }.

Definition with_env (changes : list EnvChange.t) (spec : Spawn) : Spawn :=
  MkSpawn (program spec) (args spec) changes (current_dir spec) (stdout spec) (stderr spec).

(** [exit] is the handle that is waited on; none if the process was gone already. *)
Record DaemonChild := MkDaemon { inner : WindowsChild; exit : option Z; channel : option Z }.

Definition open_exit (pid : Z) (s : os) : io_result (option Z) * os :=
  match open (ProcessObject pid) s with
  | (Ok n, s) => (Ok (Some n), s)
  | (Err e, s) => ((λ _, None) <$> WindowsHandle.opened_after e, s)
  end.

Definition close_exit (exit : option Z) (s : os) : os := match exit with Some n => close n s | None => s end.

(** The closure [handles], which also drops the sender. *)
Definition open_handles (channel : option Z) (child : WindowsChild) (w : launcher) : io_result (option Z) * launcher :=
  match doing (open_exit (pid child)) w with
  | (Err e, w) => (Err e, hang_up channel w)
  | (Ok exit, w) =>
      match channel with
      | None => (Ok exit, w)
      | Some _ =>
          match doing (open (ProcessObject (pid child))) w with
          | (Ok watch, w) => (Ok exit, deliver watch w)
          | (Err e, w) => (Err e, hang_up channel (at_ (close_exit exit (here w)) w))
          end
      end
  end.

(** [WindowsChild::kill], whose answer is ignored, and its drop. *)
Definition kill (child : WindowsChild) (w : launcher) : launcher :=
  let '(fault, w) := doing (lift next_fault) w in
  Launcher (here w) (readers w) ((pid child, bool_decide (fault = None)) :: kills w).
Definition drop_child (child : WindowsChild) (w : launcher) : launcher := at_ (close (process_handle child) (here w)) w.

Section spawn.
Context (file_name : option units) (absolute : bool) (inherited : list variable).

(** From the process on. A PID of zero panics. *)
Definition launch (spec : Spawn) (channel : option Z) (w : launcher) : option (io_result DaemonChild * launcher) :=
  match doing (lift (WindowsLaunch.spawn file_name absolute inherited spec)) w with
  | (Err e, w) => Some (Err e, hang_up channel w)
  | (Ok child, w) =>
      if pid child =? 0 then None else
      match open_handles channel child w with
      | (Ok exit, w) => Some (Ok (MkDaemon child exit channel), w)
      | (Err e, w) => Some (Err e, drop_child child (kill child w))
      end
  end.

Definition spawn (c : DaemonCommand) (random : option bytes) (w : launcher) : option (io_result DaemonChild * launcher) :=
  let spec := command c in
  if readiness c then
    '(created, s) ← create random (here w);
    let w := at_ s w in
    match created with
    | Err e => Some (Err e, w)
    | Ok (name, n) =>
        match start n w with
        | (Err e, w) => Some (Err e, w)
        | (Ok _, w) => launch (with_env (env spec ++ [EnvChange.Set_ ENV (wide name)]) spec) (Some n) w
        end
    end
  else launch (with_env (env spec ++ [EnvChange.Remove ENV]) spec) None w.
End spawn.
End code.

(** ** What was opened *)

(** [t'] has, besides what [t] has, handles to the objects of [l], the newest first. *)
Definition gained (l : list (Z * object)) (t t' : gmap Z handle) : Prop :=
  t' = foldr (λ x t, <[x.1 := Handle x.2 false]> t) t l ∧ NoDup l.*1 ∧ ∀ n, n ∈ l.*1 → t !! n = None.

Lemma gained_nil t : gained [] t t.
Proof. split_and!; [done|constructor|]. intros n Hn. by apply not_elem_of_nil in Hn. Qed.

Lemma gained_lookup l t t' n : gained l t t' → n ∉ l.*1 → t' !! n = t !! n.
Proof.
  intros (-> & _ & _). induction l as [|[m o] l IH]; [done|]. simpl. intros [Hm Hl]%not_elem_of_cons.
  rewrite lookup_insert_ne by done. by apply IH.
Qed.

Lemma gained_push l t t1 n o : gained l t t1 → t1 !! n = None → gained ((n, o) :: l) t (<[n := Handle o false]> t1).
Proof.
  intros Hg Hn. pose proof Hg as (-> & Hd & Hf). assert (n ∉ l.*1) as Hl.
  { intros Hin. clear -Hin Hn. induction l as [|[m o'] l IH]; [by apply not_elem_of_nil in Hin|]. simpl in *.
    apply lookup_insert_None in Hn as [Hn Hne]. apply elem_of_cons in Hin as [->|Hin]; [done|]. auto. }
  split_and!; [done|by constructor|]. intros m [->|Hm]%elem_of_cons; [|auto].
  simpl. by rewrite <- (gained_lookup _ _ _ n Hg Hl).
Qed.

Lemma gained_pop l t t' n o : gained ((n, o) :: l) t t' → gained l t (delete n t').
Proof.
  intros (-> & Hd & Hf). simpl in Hd. apply NoDup_cons in Hd as [Hn Hd].
  assert (gained l t (foldr (λ x t, <[x.1 := Handle x.2 false]> t) t l)) as Hg.
  { split_and!; [done|done|]. intros m Hm. apply Hf. by right. }
  simpl. rewrite delete_insert_id; [done|]. rewrite (gained_lookup _ _ _ n Hg Hn). apply Hf. by left.
Qed.

(** What a step leaves: handles, and everything else as it was but for the processes
    that were started. *)
Record changes (l : list (Z * object)) (s s' : os) : Prop := {
  changed_table : gained l (table (kernel s)) (table (kernel s'));
  changed_lists : lists (kernel s') = lists (kernel s);
  changed_local : local s' = local s;
}.

Definition same_started (s s' : os) : Prop := started (kernel s') = started (kernel s).

Lemma undisturbed_changes l s s1 s2 : changes l s s1 → undisturbed s1 s2 → changes l s s2.
Proof. intros [Ht Hl Hm] [Ht2 [_ Hl2 _] Hm2]. split; [by rewrite Ht2|congruence|congruence]. Qed.

Lemma undisturbed_started s s' : undisturbed s s' → same_started s s'.
Proof. intros [_ [_ _ Hs] _]. exact Hs. Qed.

Lemma open_changes l s s1 o r s2 :
  changes l s s1 → open o s1 = (r, s2) →
  same_started s1 s2 ∧ match r with Ok n => changes ((n, o) :: l) s s2 | Err _ => changes l s s2 end.
Proof.
  intros Hc Eo. apply open_spec in Eo. destruct r as [n|e].
  - destruct Eo as (Hn & Ht & [_ Hl Hs] & Hm). split; [exact Hs|]. destruct Hc as [Ht1 Hl1 Hm1].
    split; [rewrite Ht; by apply gained_push|congruence|congruence].
  - split; [by apply undisturbed_started|by eapply undisturbed_changes].
Qed.

Lemma close_changes l s s1 n o : changes ((n, o) :: l) s s1 → changes l s (close n s1).
Proof. intros [Ht Hl Hm]. split; [|done|done]. simpl. by eapply gained_pop. Qed.

(** ** The parts *)

Section proofs.
Context `{!Accounts, !AccountLaws}.

(** The pipe is new, has the name, and admits the current user alone. *)
Lemma create_spec random s :
  ∃ r s', create random s = Some (r, s') ∧ same_started s s' ∧
  match r with
  | Ok (name, n) => Name.random_name random = Ok name ∧ ∃ sid, sid_of myself = Some sid ∧
      changes [(n, PipeObject (wide name) (sddl (sid_text sid)))] s s'
  | Err _ => changes [] s s'
  end.
Proof.
  assert (∀ s', undisturbed s s' → changes [] s s') as Hback.
  { intros s' Hu. eapply undisturbed_changes; [|exact Hu]. split; [apply gained_nil|done|done]. }
  unfold create. destruct (Name.random_name random) as [name|e].
  2: { do 2 eexists. split; [done|]. split; [done|]. by apply Hback. }
  unfold current_user_only. destruct (current_user_spec s) as (r1 & s1 & -> & Hu1 & Htext). cbn [mbind option_bind].
  destruct r1 as [text|e].
  2: { do 2 eexists. split; [done|]. split; [by apply undisturbed_started|by apply Hback]. }
  destruct (Htext text eq_refl) as (sid & Hsid & ->).
  destruct (local_alloc (sddl (sid_text sid)) s1) as [[d|e] s2] eqn:E2.
  2: { apply local_alloc_spec in E2. assert (undisturbed s s2) as Hu by by etrans.
       do 2 eexists. split; [done|]. split; [by apply undisturbed_started|by apply Hback]. }
  pose proof (local_alloc_spec _ _ _ _ E2) as (Hd & Hl & Ht & Hse). rewrite Hl, lookup_insert_eq. cbn [mbind option_bind].
  destruct (open _ s2) as [r3 s3] eqn:E3. apply open_spec in E3. do 2 eexists. split; [done|].
  destruct r3 as [n|e]; cbn [fmap result_fmap].
  - destruct E3 as (Hn & Ht3 & Hs3 & Hl3). destruct Hu1 as [Ht1 [Hj1 Hli1 Hst1] Hl1], Hse as [Hj Hli Hst], Hs3 as [Hj3 Hli3 Hst3].
    split; [unfold same_started; simpl; congruence|]. split; [done|]. exists sid. split; [done|]. split; simpl; [|congruence|].
    + rewrite Ht3. apply gained_push; [|done]. rewrite Ht, Ht1. apply gained_nil.
    + rewrite Hl3, Hl, <- Hl1. by apply delete_insert_id.
  - assert (undisturbed s (local_free d s3)) as Hu by (etrans; [exact Hu1|]; by eapply allocated_and_freed).
    split; [by apply undisturbed_started|by apply Hback].
Qed.

(** Making the pipe starts no process. *)
Lemma create_pid random s r s' : create random s = Some (r, s') → next_pid (kernel s') = next_pid (kernel s).
Proof.
  unfold create. destruct (Name.random_name random) as [name|e]; [|by intros [= _ <-]].
  unfold current_user_only. destruct (current_user_spec s) as (r1 & s1 & -> & [_ [_ _ _ Hp1] _] & _). cbn [mbind option_bind].
  destruct r1 as [text|e]; [|by intros [= _ <-]].
  destruct (local_alloc (sddl text) s1) as [[d|e] s2] eqn:E2; pose proof (local_alloc_spec _ _ _ _ E2) as H2.
  - destruct H2 as (_ & -> & _ & [_ _ _ Hp2]). rewrite lookup_insert_eq. cbn [mbind option_bind].
    destruct (open _ s2) as [[n|e] s3] eqn:E3; apply open_spec in E3; intros [= _ <-]; simpl.
    + destruct E3 as (_ & _ & [_ _ _ Hp3] & _). congruence.
    + destruct E3 as [_ [_ _ _ Hp3] _]. congruence.
  - destruct H2 as [_ [_ _ _ Hp2] _]. intros [= _ <-]. congruence.
Qed.

Lemma open_exit_spec l s s1 pid r s2 :
  changes l s s1 → open_exit pid s1 = (r, s2) →
  same_started s1 s2 ∧
  match r with
  | Ok (Some n) => changes ((n, ProcessObject pid) :: l) s s2
  | Ok None | Err _ => changes l s s2
  end.
Proof.
  intros Hc. unfold open_exit. destruct (open _ s1) as [[n|e] s3] eqn:E; apply (open_changes _ _ _ _ _ _ Hc) in E as [Hs Hr].
  - by intros [= <- <-].
  - intros [= <- <-]. destruct (WindowsHandle.opened_after e); done.
Qed.

(** The handles to the process of [d], its reader's first. *)
Definition process_handles (d : DaemonChild) (watch : option Z) : list (Z * object) :=
  (λ n, (n, ProcessObject (pid (inner d)))) <$>
    option_list watch ++ option_list (exit d) ++ [process_handle (inner d)].

(** The readers of [w] and the newest one's pipe. *)
Definition reading (channel : option Z) (process : option Z) (sender : bool) (l : list Reader) : list Reader :=
  match channel with Some n => MkReader n process sender :: l | None => l end.

Lemma hang_up_reading channel w l :
  readers w = reading channel None true l →
  readers (hang_up channel w) = reading channel None false l ∧ here (hang_up channel w) = here w ∧
  kills (hang_up channel w) = kills w.
Proof. intros Hr. destruct channel; unfold hang_up; simpl in *; [by rewrite Hr|done]. Qed.

Lemma open_handles_spec channel child w r w' l lr s :
  changes l s (here w) → readers w = reading channel None true lr →
  open_handles channel child w = (r, w') →
  same_started (here w) (here w') ∧ kills w' = kills w ∧
  match r with
  | Ok exit => ∃ watch, (is_Some watch ↔ is_Some channel) ∧ readers w' = reading channel watch false lr ∧
      changes (((λ n, (n, ProcessObject (pid child))) <$> option_list watch ++ option_list exit) ++ l) s (here w')
  | Err _ => readers w' = reading channel None false lr ∧ changes l s (here w')
  end.
Proof.
  intros Hc Hr. unfold open_handles, doing. destruct (open_exit _ _) as [r1 s1] eqn:E1.
  apply (open_exit_spec _ _ _ _ _ _ Hc) in E1 as [Hs1 H1]. destruct r1 as [exit|e].
  2: { intros [= <- <-]. destruct (hang_up_reading channel (at_ s1 w) lr Hr) as (-> & -> & ->). done. }
  assert (changes (((λ n, (n, ProcessObject (pid child))) <$> option_list exit) ++ l) s s1) as Hc1 by by destruct exit.
  destruct channel as [n|].
  2: { intros [= <- <-]. split_and!; try done. exists None. split; [by split|]. by split. }
  simpl in *. destruct (open _ s1) as [r2 s2] eqn:E2. apply (open_changes _ _ _ _ _ _ Hc1) in E2 as [Hs2 H2].
  assert (same_started (here w) s2) as Hs by (unfold same_started in *; congruence). destruct r2 as [m|e].
  - intros [= <- <-]. unfold deliver, at_. simpl. rewrite Hr. split_and!; try done. exists (Some m).
    split; [split; by eexists|]. by split.
  - intros [= <- <-]. unfold hang_up, at_. simpl. rewrite Hr. simpl. destruct exit as [x|]; simpl in *.
    + split_and!; try done. by eapply close_changes.
    + by split_and!.
Qed.

(** [launch] with the reader of [channel] waiting. *)
Lemma launch_spec file_name absolute inherited spec channel w l lr s :
  is_Some (stream (kernel (here w)) (stdout spec)) → is_Some (stream (kernel (here w)) (stderr spec)) →
  next_pid (kernel (here w)) ≠ 0 → changes l s (here w) → readers w = reading channel None true lr →
  ∃ r w', launch file_name absolute inherited spec channel w = Some (r, w') ∧
  match r with
  | Ok d =>
      kills w' = kills w ∧ WindowsDaemon.channel d = channel ∧
      (∃ p, started (kernel (here w')) = p :: started (kernel (here w)) ∧ as_asked inherited spec (kernel (here w)) p) ∧
      ∃ watch, (is_Some watch ↔ is_Some channel) ∧ readers w' = reading channel watch false lr ∧
        changes (process_handles d watch ++ l) s (here w')
  | Err _ =>
      readers w' = reading channel None false lr ∧ changes l s (here w') ∧
      (same_started (here w) (here w') ∧ kills w' = kills w ∨
       ∃ p pid ended, started (kernel (here w')) = p :: started (kernel (here w)) ∧ kills w' = (pid, ended) :: kills w)
  end.
Proof.
  intros Hout Herr Hpid Hc Hr. unfold launch, doing, lift.
  destruct (WindowsLaunch.spawn file_name absolute inherited spec (kernel (here w))) as [r1 h1] eqn:E1.
  pose proof (spawn_spec _ _ _ _ _ _ _ Hout Herr E1) as [Hl1 H1]. destruct r1 as [child|e].
  2: { destruct H1 as [Ht1 Hs1]. destruct (hang_up_reading channel (at_ (Os h1 (local (here w))) w) lr Hr) as (Hr' & Hh' & Hk').
       do 2 eexists. split; [done|]. rewrite Hr', Hh', Hk'. destruct Hc as [Ht Hl Hm].
       split_and!; [done|split; simpl; [by rewrite Ht1|congruence|done]|by left]. }
  rewrite (spawn_pid _ _ _ _ _ _ _ E1). destruct (Z.eqb_spec (next_pid (kernel (here w))) 0) as [|_]; [done|].
  destruct H1 as (Hn & Ht1 & _ & p & Hs1 & Has & _). set (w1 := at_ (Os h1 (local (here w))) w).
  assert (changes ((process_handle child, ProcessObject (pid child)) :: l) s (here w1)) as Hc1.
  { destruct Hc as [Ht Hl Hm]. split; simpl; [|congruence|done]. rewrite Ht1. by apply gained_push. }
  destruct (open_handles channel child w1) as [r2 w2] eqn:E2.
  destruct (open_handles_spec _ _ _ _ _ _ lr _ Hc1 Hr E2) as (Hs2 & Hk2 & H2).
  assert (started (kernel (here w2)) = p :: started (kernel (here w))) as Hst by (unfold same_started in Hs2; by rewrite Hs2).
  destruct r2 as [exit|e]; do 2 eexists; (split; [done|]).
  - split_and!; [done|done|by eauto|]. destruct H2 as (watch & Hw & Hr2 & Hc2). exists watch. split_and!; [done|done|].
    unfold process_handles. simpl. rewrite !fmap_app, <- !app_assoc in *. exact Hc2.
  - destruct H2 as [Hr2 Hc2]. unfold kill, doing. destruct (lift next_fault (here w2)) as [fault s3] eqn:E3.
    apply fault_undisturbed in E3. pose proof (undisturbed_started _ _ E3) as Hs3. simpl. split_and!; [done| |right].
    + eapply close_changes. by eapply undisturbed_changes.
    + exists p, (pid child), (bool_decide (fault = None)). split; [|by rewrite Hk2]. by rewrite Hs3, Hst.
Qed.

Lemma stream_before l s s1 t :
  changes l s s1 → is_Some (stream (kernel s) t) → stream (kernel s1) t = stream (kernel s) t.
Proof.
  intros [Ht _ _] Hs. destruct t as [|n]; [done|]. simpl in *. rewrite (gained_lookup _ _ _ n Ht); [done|].
  intros Hin. destruct Ht as (_ & _ & Hf). rewrite (Hf n Hin) in Hs. by destruct Hs.
Qed.

(** What was asked for, before the pipe was made. *)
Lemma as_asked_before inherited spec l s s1 p :
  changes l s s1 → is_Some (stream (kernel s) (stdout spec)) → is_Some (stream (kernel s) (stderr spec)) →
  as_asked inherited spec (kernel s1) p → as_asked inherited spec (kernel s) p.
Proof.
  intros Hc Hout Herr. unfold as_asked. destruct (standard p) as [[i o] e]. intros (H1 & H2 & H3 & H4 & H5 & H6 & H7 & H8).
  rewrite <- (stream_before _ _ _ _ Hc Hout), <- (stream_before _ _ _ _ Hc Herr). split_and!; try done.
  intros n Hn. specialize (H2 n Hn). destruct Hc as [Ht _ _]. destruct (decide (n ∈ l.*1)) as [Hin|Hin].
  - destruct Ht as (_ & _ & Hf). by apply Hf.
  - by rewrite <- (gained_lookup _ _ _ n Ht Hin).
Qed.

(** What the last change to a variable says of it. *)
Lemma after_last_change n inherited cs c :
  EnvChange.name c = n →
  after_changes n inherited (cs ++ [c]) = match c with EnvChange.Set_ name value => [(name, value)] | EnvChange.Remove _ => [] end.
Proof.
  intros <-. unfold after_changes. rewrite filter_app. simpl. rewrite filter_cons_True by by apply same_name_spec.
  rewrite filter_nil, last_snoc. done.
Qed.

(** The daemon finds [told] under [ENV]. *)
Definition finds (inherited : list variable) (told : list variable) (p : WindowsLaunch.process) : Prop :=
  Forall good_var inherited → ∃ vars, entries (block p) = Some vars ∧ named ENV vars = told.

Lemma env_found inherited spec h p cs c :
  as_asked inherited (with_env (cs ++ [c]) spec) h p → EnvChange.name c = ENV →
  finds inherited match c with EnvChange.Set_ name value => [(name, value)] | EnvChange.Remove _ => [] end p.
Proof.
  unfold as_asked. destruct (standard p) as [[i o] e]. intros (_ & _ & _ & _ & _ & _ & _ & Hv) Hn Hi.
  destruct (Hv Hi) as (vars & Hvars & Hnamed). exists vars. split; [done|]. rewrite Hnamed. simpl. by apply after_last_change.
Qed.

(** The newest reader ends if nobody can send it a process. *)
Lemma reader_ends_gone n lr l s w o :
  readers w = MkReader n None false :: lr → changes ((n, o) :: l) s (here w) →
  readers (reader_ends w) = lr ∧ changes l s (here (reader_ends w)) ∧ kills (reader_ends w) = kills w ∧
  same_started (here w) (here (reader_ends w)).
Proof. intros Hr Hc. unfold reader_ends. rewrite Hr. simpl. split_and!; try done. by eapply close_changes. Qed.

Definition waits_or_watches (r : Reader) : Prop := sender r = true ∨ is_Some (process r).

Lemma reader_ends_idle w : Forall waits_or_watches (readers w) → reader_ends w = w.
Proof.
  intros Hw. unfold reader_ends. destruct (readers w) as [|r l]; [done|]. apply Forall_cons in Hw as [[Hs|[n Hp]] _].
  - by rewrite Hs.
  - rewrite Hp, bool_decide_false, andb_false_r; done.
Qed.

(** A launch that failed, once its reader has ended. *)
Definition given_back (w w' : launcher) : Prop :=
  table (kernel (here w')) = table (kernel (here w)) ∧ lists (kernel (here w')) = lists (kernel (here w)) ∧
  local (here w') = local (here w) ∧ readers w' = readers w ∧
  (same_started (here w) (here w') ∧ kills w' = kills w ∨
   ∃ p pid ended, started (kernel (here w')) = p :: started (kernel (here w)) ∧ kills w' = (pid, ended) :: kills w).

Lemma changes_nothing s s' :
  changes [] s s' → table (kernel s') = table (kernel s) ∧ lists (kernel s') = lists (kernel s) ∧ local s' = local s.
Proof. by intros [(Ht & _) Hl Hm]. Qed.

(** A failure of [launch], once the reader of [channel] has ended. *)
Lemma failed_launch_gives_back channel l s w w1 w' :
  changes l (here w) (here w1) → kills w1 = kills w → same_started (here w) (here w1) → here w = s →
  match channel with Some n => ∃ o, l = [(n, o)] | None => l = [] end → Forall waits_or_watches (readers w) →
  readers w' = reading channel None false (readers w) → changes l s (here w') →
  (same_started (here w1) (here w') ∧ kills w' = kills w1 ∨
   ∃ p pid ended, started (kernel (here w')) = p :: started (kernel (here w1)) ∧ kills w' = (pid, ended) :: kills w1) →
  given_back w (reader_ends w').
Proof.
  intros Hc Hk Hs <- Hl Hw Hr Hc' Hfate. unfold given_back, same_started in *. rewrite Hk, Hs in Hfate. destruct channel as [n|].
  - destruct Hl as [o ->]. destruct (reader_ends_gone _ _ _ _ _ _ Hr Hc') as (Hre & Hce & -> & Hse).
    apply changes_nothing in Hce as (Ht & Hl & Hm). unfold same_started in Hse. by rewrite Ht, Hl, Hm, Hre, Hse.
  - simpl in Hr. rewrite reader_ends_idle by by rewrite Hr. subst l. by apply changes_nothing in Hc' as (? & ? & ?).
Qed.

End proofs.

(** A launch in which the reader's handle cannot be made, once the daemon runs. *)
Definition asked : DaemonCommand := MkCommand exampled true.
Definition sixteen : bytes := bs "0123456789abcdef".
Definition late_fault : io_error := IoError Other (Some 8) "".
Definition unlucky : launcher :=
  Launcher (Os (Host (table WindowsLaunch.launcher) (Some false) 700 0 [] (replicate 15 None ++ [Some late_fault])) ∅) [] [].

