(* ===== verification/PipeListener.v ===== *)
(** * Binding a named pipe (src/local/windows_socket.rs)

    A bind that meets a listener still closing is repeated a few times; one that
    meets a live listener of the same user is lost. The listeners, the probe and
    the clock are the environment's. *)
From S2P Require Import Prelude.

Definition ERROR_ACCESS_DENIED : Z := 5.
Definition ERROR_PIPE_BUSY : Z := 231.

Definition CLOSING_PIPE_BACKOFF : list Z := [from_millis 25; from_millis 50; from_millis 100; from_millis 200].

Inductive Next := Contended | Retry (pause : Z) | Fails.
Inductive Bound (L : Type) := Won (listener : L) | AlreadyRunning.
Arguments Won {L} listener.
Arguments AlreadyRunning {L}.

Definition next_step (k : ErrorKind) (code : option Z) (peer_answered : bool) (retries_used : nat) : Next :=
  if bool_decide (k = AddrInUse) || bool_decide (code = Some ERROR_PIPE_BUSY) then Contended else
  if negb (bool_decide (code = Some ERROR_ACCESS_DENIED)) then Fails else
  if peer_answered then Contended else
  match CLOSING_PIPE_BACKOFF !! retries_used with Some pause => Retry pause | None => Fails end.

Section code.
Context {L W : Type} `{Clock W}.
(** [create] is [options] and the listener's creation, and [probe] connects and
    asks whether the peer runs as this user. *)
Context (create : W → io_result L * W) (probe : W → bool * W).

(** [live_same_user_peer], asked only after a denial. *)
Definition peer_answered (e : io_error) (w : W) : bool * W :=
  if decide (raw_os_error e = Some ERROR_ACCESS_DENIED) then probe w else (false, w).

(** The loop of [bind] and of [acquire_tokio], cut off after [passes]. *)
Fixpoint bind_from (passes retries_used : nat) (w : W) : option (io_result (Bound L)) * W :=
  match passes with
  | O => (None, w)
  | S passes =>
      match create w with
      | (Ok listener, w) => (Some (Ok (Won listener)), w)
      | (Err e, w) =>
          let '(answered, w) := peer_answered e w in
          match next_step (kind e) (raw_os_error e) answered retries_used with
          | Contended => (Some (Ok AlreadyRunning), w)
          | Retry pause => bind_from passes (S retries_used) (sleep pause w)
          | Fails => (Some (Err e), w)
          end
      end
  end.

Definition bind (passes : nat) (w : W) : option (io_result (Bound L)) * W := bind_from passes 0 w.

(** [acquire]: the name and the descriptor are checked first. *)
Definition acquire (options : W → io_result unit * W) (passes : nat) (w : W) : option (io_result (Bound L)) * W :=
  match options w with
  | (Err e, w) => (Some (Err e), w)
  | (Ok _, w) => bind passes w
  end.

(** [acquire_tokio] is the same loop; its sleeps and its probe do not hold a worker
    of the runtime, and a probe that cannot be joined answers no. *)
Definition acquire_tokio (options : W → io_result unit * W) (passes : nat) (w : W) : option (io_result (Bound L)) * W :=
  match options w with
  | (Err e, w) => (Some (Err e), w)
  | (Ok _, w) => bind_from passes 0 w
  end.
End code.

Section proofs.
Context {L W : Type} `{CL : ClockLaws W}.
Context (create : W → io_result L * W) (probe : W → bool * W).
Hypothesis create_mono : ∀ w, time w ≤ time (create w).2.
Hypothesis probe_mono : ∀ w, time w ≤ time (probe w).2.

(** The pauses from the [n]-th on. *)
Definition pauses_from (n : nat) : Z := foldr Z.add 0 (drop n CLOSING_PIPE_BACKOFF).

Definition bound_means (start : Z) (r : io_result (Bound L)) (w' : W) : Prop :=
  match r with
  | Ok (Won l) => ∃ v, create v = (Ok l, w')
  | Ok AlreadyRunning =>
      ∃ v e v', create v = (Err e, v') ∧
        ((kind e = AddrInUse ∨ raw_os_error e = Some ERROR_PIPE_BUSY) ∨
         raw_os_error e = Some ERROR_ACCESS_DENIED ∧ probe v' = (true, w'))
  | Err e =>
      ∃ v v', create v = (Err e, v') ∧ kind e ≠ AddrInUse ∧ raw_os_error e ≠ Some ERROR_PIPE_BUSY ∧
        (raw_os_error e = Some ERROR_ACCESS_DENIED → probe v' = (false, w') ∧ start ≤ time w')
  end.

Lemma bind_from_ends passes n w :
  (length CLOSING_PIPE_BACKOFF < n + passes)%nat → (n ≤ length CLOSING_PIPE_BACKOFF)%nat →
  ∃ r w', bind_from create probe passes n w = (Some r, w') ∧ bound_means (time w + pauses_from n) r w'.
Proof using create_mono probe_mono.
  revert n w. induction passes as [|passes IH]; intros n w Hn Hle; [lia|]. simpl.
  pose proof (create_mono w) as Hc. destruct (create w) as [[l|e] w1] eqn:Ec; simpl in Hc; [do 2 eexists; split; [done|]; simpl; by eauto|].
  unfold peer_answered, next_step.
  destruct (bool_decide (kind e = AddrInUse) || _) eqn:Ek.
  { destruct (if decide _ then probe w1 else _) as [b w2]. do 2 eexists. split; [done|]. exists w, e, w1. split; [done|]. left.
    bools. destruct Ek; bools; auto. }
  bools. case_decide as Hd.
  2: { rewrite (bool_decide_eq_false_2 _ Hd). simpl. do 2 eexists. split; [done|]. exists w, w1. by split_and!. }
  rewrite (bool_decide_eq_true_2 _ Hd). simpl. pose proof (probe_mono w1) as Hp.
  destruct (probe w1) as [b w2] eqn:Ep; simpl in Hp. destruct b.
  { do 2 eexists. split; [done|]. exists w, e, w1. eauto. }
  destruct (CLOSING_PIPE_BACKOFF !! n) as [pause|] eqn:El.
  - destruct (IH (S n) (sleep pause w2)) as (r & w' & -> & Hr); [lia|by apply lookup_lt_Some in El; lia|].
    do 2 eexists. split; [done|]. destruct r as [[]|]; [done..|]. destruct Hr as (v & v' & ? & ? & ? & Ht). exists v, v'. split_and!; try done.
    intros Hde. destruct (Ht Hde) as [? Ht']. split; [done|]. pose proof (sleep_lasts pause w2).
    unfold pauses_from in *. rewrite (drop_S _ _ _ El). cbn [foldr]. lia.
  - apply lookup_ge_None in El. do 2 eexists. split; [done|]. exists w, w1. split_and!; try done. intros _. split; [done|].
    unfold pauses_from. rewrite drop_ge by done. simpl. lia.
Qed.
End proofs.

(** Binding a pipe rides out a listener that is closing. [acquire] returns after
    at most five attempts. It reports a listener only if it made one; another
    owner only if the system said that the name is taken, or denied it while a live
    listener of this user answered; and any other error as it came, a denial only
    after five of them with nobody answering, over the 375 milliseconds that it
    waits between them. *)
Theorem a_closing_listener_is_waited_for {L W} `{CL : ClockLaws W} (create : W → io_result L * W) (probe : W → bool * W)
    (options : W → io_result unit * W) (passes : nat) (w : W) :
  (∀ w, time w ≤ time (create w).2) → (∀ w, time w ≤ time (probe w).2) → (∀ w, time w ≤ time (options w).2) →
  (4 < passes)%nat →
  ∃ r w', acquire create probe options passes w = (Some r, w') ∧
    ((∃ e, r = Err e ∧ options w = (Err e, w')) ∨ bound_means create probe (time w + from_millis 375) r w').
Proof.
  intros Hc Hp Ho Hn. unfold acquire, bind. specialize (Ho w). destruct (options w) as [[[]|e] w1]; simpl in Ho; [|by eauto 10].
  destruct (bind_from_ends create probe Hc Hp passes 0 w1) as (r & w' & -> & Hr); [simpl; lia|simpl; lia|].
  do 2 eexists. split; [done|]. right. destruct r as [[]|]; [done..|]. destruct Hr as (v & v' & ? & ? & ? & Ht). exists v, v'. split_and!; try done.
  intros Hde. destruct (Ht Hde) as [? Ht']. split; [done|]. assert (pauses_from 0 = from_millis 375) as Hs by reflexivity. lia.
Qed.

(** A name that stays denied. *)
Lemma a_closing_listener_is_waited_for_witness :
  let denied := IoError PermissionDenied (Some 5) "" in
  let create := next_answer (Err denied : io_result unit) in
  ∃ w', acquire create (λ w, (false, w)) (λ w, (Ok tt, w)) 5 (MkSim 0 []) = (Some (Err denied), w') ∧
    bound_means create (λ w, (false, w)) (from_millis 375) (Err denied) w'.
Proof.
  intros denied create.
  destruct (a_closing_listener_is_waited_for create (λ w, (false, w)) (λ w, (Ok tt, w)) 5 (MkSim 0 [])) as (r & w' & E & Hr);
    [intros; apply next_answer_time|intros; simpl; lia|intros; simpl; lia|lia|].
  exists w'. assert (r = Err denied) as -> by (vm_compute in E; by injection E as <- _). split; [exact E|].
  destruct Hr as [(e & _ & [=])|Hr]. exact Hr.
Defined.
