(* ===== verification/Serve.v ===== *)
(** * The accept loop (src/serve.rs)

    [Serve::run] composes the gate, the admission pools and a peer policy. Its
    handlers, other users of the pools, the consumer's state and the drain change
    between any two of its awaits, and while it checks a peer. *)
From stdpp Require Import list.
From S2P Require Import Prelude Observation Lifecycle Admission Peer.

(** On Unix, [EMFILE] and [ENFILE]. *)
Definition is_descriptor_exhaustion (unix : bool) (e : io_error) : bool :=
  unix && match raw_os_error e with Some n => (n =? 23) || (n =? 24) | None => false end.

Module Served.
Record t := mk { admitted : Z; unauthenticated : Z; over_capacity : Z; aborted : Z }.

Definition default : t := mk 0 0 0 0.
Definition count_admitted (s : t) : t := mk (wrap64 (admitted s + 1)) (unauthenticated s) (over_capacity s) (aborted s).
Definition reject (s : t) : t := mk (admitted s) (wrap64 (unauthenticated s + 1)) (over_capacity s) (aborted s).
Definition overflow (s : t) : t := mk (admitted s) (unauthenticated s) (wrap64 (over_capacity s + 1)) (aborted s).
Definition abort (n : Z) (s : t) : t := mk (admitted s) (unauthenticated s) (over_capacity s) n.
End Served.

Section serve.
Context {C W G : Type}.
Context (evidence : C → io_result Credentials.t) (policy : Policy W G) (pool : G → Pool.t) (unix : bool).

(** A task of the [JoinSet]: what it serves, the pool of its permit, and whether
    it still runs; its permit is dropped when it ends. *)
Record handler := Handler { peer : Authenticated C G; in_pool : Pool.t; running : bool }.

(** What became of an accepted connection. *)
Inductive fate := Unauthenticated | OverCapacity | Dropped | GivenHandler (a : Authenticated C G).

Record sys := Sys {
  gate : Lifecycle.t;
  adm : Admission.t;
  world : W;
  outside : Pool.t → nat;     (* permits held by other users of the pools *)
  served : Served.t;
  handlers : list handler;
  events : list Event.t;      (* what the loop has recorded *)
  fates : list fate;          (* of the connections accepted so far, in order *)
  stopped : option (io_result unit);
}.

Definition start (l : Lifecycle.t) (a : Admission.t) (w : W) : sys :=
  Sys l a w (λ _, O) Served.default [] [] [] None.

(** ** What happens around the loop *)

Inductive step :=
| StartDrain (now : Z)
| Finish (i : nat)            (* a handler ends and drops its permit *)
| OutsideTake (p : Pool.t)
| OutsideRelease (p : Pool.t)
| SetWorld (w : W).

Definition set_outside (p : Pool.t) (n : nat) (f : Pool.t → nat) : Pool.t → nat :=
  λ q, if decide (q = p) then n else f q.

Definition exec (s : sys) (x : step) : sys :=
  let 'Sys g a w o sv hs ev fs st := s in
  match x with
  | StartDrain now => Sys (Lifecycle.start_drain now g).1.2 a w o sv hs ev fs st
  | Finish i =>
      match hs !! i with
      | Some (Handler peer p true) =>
          Sys g (Admission.release p a) w o sv (<[i := Handler peer p false]> hs) ev fs st
      | _ => s
      end
  | OutsideTake p =>
      match Admission.try_acquire p a with
      | (true, a) => Sys g a w (set_outside p (S (o p)) o) sv hs ev fs st
      | (false, a) => Sys g a w o sv hs ev fs st
      end
  | OutsideRelease p =>
      match o p with
      | O => s
      | S n => Sys g (Admission.release p a) w (set_outside p n o) sv hs ev fs st
      end
  | SetWorld w => Sys g a w o sv hs ev fs st
  end.

Definition run_steps : sys → list step → sys := foldl exec.

(** ** One pass of the loop *)

Definition stop (r : io_result unit) (s : sys) : sys :=
  let 'Sys g a w o sv hs ev fs _ := s in Sys g a w o sv hs ev fs (Some r).

Definition reject (s : sys) : sys :=
  let 'Sys g a w o sv hs ev fs st := s in
  Sys g a w o (Served.reject sv) hs (ev ++ [Event.Rejected]) (fs ++ [Unauthenticated]) st.

(** [join_next], when a handler has ended. *)
Fixpoint join_next (hs : list handler) : option (list handler) :=
  match hs with
  | [] => None
  | h :: hs => if running h then cons h <$> join_next hs else Some hs
  end.

(** Hand over a connection its policy granted. [before] happens before the permit
    is asked for, [after] before the loop looks at the gate again. *)
Definition hand_over (a : Authenticated C G) (before after : list step) (s : sys) : sys :=
  let p := pool (granted a) in
  let 'Sys g adm w o sv hs ev fs st := run_steps s before in
  match Admission.try_acquire p adm with
  | (false, adm) => Sys g adm w o (Served.overflow sv) hs ev (fs ++ [OverCapacity]) st
  | (true, adm) =>
      let 'Sys g adm w o sv hs ev fs st := run_steps (Sys g adm w o sv hs ev fs st) after in
      if negb (Lifecycle.accepting_calls g)
      then Sys g (Admission.release p adm) w o sv hs ev (fs ++ [Dropped]) (Some (Ok tt))
      else Sys g adm w o (Served.count_admitted sv) (hs ++ [Handler a p true]) ev (fs ++ [GivenHandler a]) st
  end.

Definition set_world (w : W) (s : sys) : sys :=
  let 'Sys g a _ o sv hs ev fs st := s in Sys g a w o sv hs ev fs st.

(** [accepted] is what the listener has when it is polled. *)
Definition turn (accepted : option (io_result C)) (before after : list step) (s : sys) : sys :=
  if stopped s is Some _ then s else
  if Lifecycle.draining (gate s) then stop (Ok tt) s else
  match join_next (handlers s) with
  | Some hs => let 'Sys g a w o sv _ ev fs st := s in Sys g a w o sv hs ev fs st
  | None =>
      match accepted with
      | None => s
      | Some (Ok c) =>
          match evidence c with
          | Err _ => reject s
          | Ok cr =>
              match authenticate c cr policy (world s) with
              | (Err _, w) => reject (set_world w s)
              | (Ok a, w) => hand_over a before after (set_world w s)
              end
          end
      | Some (Err e) =>
          if is_descriptor_exhaustion unix e then
            let s := run_steps s before in
            if Lifecycle.draining (gate s) then stop (Ok tt) s else s
          else stop (Err e) s
      end
  end.

Inductive op := Around (x : step) | Turn (accepted : option (io_result C)) (before after : list step).

Definition exec_op (s : sys) (x : op) : sys :=
  match x with Around x => exec s x | Turn accepted before after => turn accepted before after s end.

Definition run : sys → list op → sys := foldl exec_op.

(** ** Ending *)

(** The first loop of [finish]. Each wait for a handler either sees some steps
    happen or, when it is [None], the deadline. *)
Fixpoint finish_wait (waits : list (option (list step))) (s : sys) : sys :=
  match waits with
  | Some steps :: waits =>
      if decide (handlers s = []) then s else
      let s := run_steps s steps in
      let 'Sys g a w o sv hs ev fs st := s in
      finish_wait waits (match join_next hs with Some hs => Sys g a w o sv hs ev fs st | None => s end)
  | _ => s
  end.

(** [abort_all] and joining the rest: a running handler is cancelled unless it
    completes first, and either way drops its permit. *)
Fixpoint abort_all (hs : list handler) (completes : list bool) (a : Admission.t) : Z * Admission.t :=
  match hs with
  | [] => (0, a)
  | h :: hs =>
      let '(n, a) := abort_all hs (tail completes) a in
      if running h
      then ((if default false (head completes) then n else n + 1), Admission.release (in_pool h) a)
      else (n, a)
  end.

Definition finish (waits : list (option (list step))) (completes : list bool) (s : sys) : sys :=
  let 'Sys g a w o sv hs ev fs st := finish_wait waits s in
  let '(n, a) := abort_all hs completes a in
  Sys g a w o (Served.abort n sv) [] ev fs st.

(** What [run] returns once the loop has stopped: [ServeError] keeps the counts. *)
Definition outcome (s : sys) : option (result (io_error * Served.t) Served.t) :=
  r ← stopped s; Some (match r with Ok _ => Ok (served s) | Err e => Err (e, served s) end).
End serve.

(** ** Counting permits *)

(** The pools have their limits, and count [n] permits each. *)
Definition counts (limits : Pool.t → Z) (a : Admission.t) (n : Pool.t → nat) : Prop :=
  ∀ p, is_u64 (limits p) ∧ Admission.limit (Admission.pools a p) = limits p ∧
       Admission.active (Admission.pools a p) = Z.of_nat (n p) ∧ Z.of_nat (n p) ≤ limits p.

Lemma counts_ext limits a n m : (∀ p, n p = m p) → counts limits a n → counts limits a m.
Proof. intros E H p. rewrite <- E. apply H. Qed.

Lemma counts_acquire limits a n p ok a' :
  counts limits a n → Admission.try_acquire p a = (ok, a') →
  counts limits a' (λ q, if decide (q = p) then if ok then S (n q) else n q else n q).
Proof.
  intros H. destruct (H p) as (Hu & Hl & Ha & Hle). unfold Admission.try_acquire, Admission.take.
  destruct (Z.ltb_spec (Admission.active (Admission.pools a p)) (Admission.limit (Admission.pools a p)));
    intros [= <- <-] q; unfold Admission.count_rejection; rewrite Admission.pools_set;
    destruct (decide (q = p)) as [->|]; try apply H; simpl; split_and!; try done; try lia.
  in_range.
Qed.

Lemma counts_release limits a n p m :
  counts limits a n → n p = S m → counts limits (Admission.release p a) (λ q, if decide (q = p) then m else n q).
Proof.
  intros H Hn q. destruct (H p) as (Hu & Hl & Ha & Hle). unfold Admission.release. rewrite Admission.pools_set.
  destruct (decide (q = p)) as [->|]; [|apply H]. simpl. split_and!; try done; try lia.
  in_range.
Qed.

Section proofs.
Context {C W G : Type}.
Context (evidence : C → io_result Credentials.t) (policy : Policy W G) (pool : G → Pool.t) (unix : bool).
Context (limits : Pool.t → Z).
#[local] Abbreviation sys := (@sys C W G).

Definition running_in (p : Pool.t) (hs : list (@handler C G)) : nat :=
  length (base.filter (λ h, running h = true ∧ in_pool h = p) hs).

Definition permits (s : sys) (p : Pool.t) : nat := (running_in p (handlers s) + outside s p)%nat.

(** How many connections had a fate. *)
Definition tally (f : @fate C G → bool) (s : sys) : Z := Z.of_nat (length (base.filter (λ x, f x = true) (fates s))).

Definition is_admitted (f : @fate C G) : bool := match f with GivenHandler _ => true | _ => false end.
Definition is_unauthenticated (f : @fate C G) : bool := match f with Unauthenticated => true | _ => false end.
Definition is_over_capacity (f : @fate C G) : bool := match f with OverCapacity => true | _ => false end.

(** A connection that was handed over had its evidence read and was granted by the
    policy what it carries. *)
Definition earned (f : @fate C G) : Prop :=
  match f with
  | GivenHandler a => evidence (connection a) = Ok (credentials a) ∧
                  ∃ w w', policy (credentials a) w = (Ok (granted a), w')
  | _ => True
  end.

(** [held] permits are in the loop's own hands. *)
Record sound (held : Pool.t → nat) (s : sys) : Prop := {
  sound_permits : counts limits (adm s) (λ p, permits s p + held p)%nat;
  sound_admitted : Served.admitted (served s) = wrap64 (tally is_admitted s);
  sound_rejected : Served.unauthenticated (served s) = wrap64 (tally is_unauthenticated s);
  sound_full : Served.over_capacity (served s) = wrap64 (tally is_over_capacity s);
  sound_earned : Forall earned (fates s);
  sound_handlers : Forall (λ h, in_pool h = pool (granted (peer h)) ∧ GivenHandler (peer h) ∈ fates s) (handlers s);
  sound_dropped : Dropped ∈ fates s → stopped s = Some (Ok tt);
}.

Lemma running_in_insert p (i : nat) h h' (hs : list (@handler C G)) :
  hs !! i = Some h → running h = true → running h' = false →
  running_in p hs = (running_in p (<[i := h']> hs) + (if decide (p = in_pool h) then 1 else 0))%nat.
Proof.
  intros Hi Hr Hr'. unfold running_in. rewrite <- (take_drop_middle hs i h Hi) at 1.
  rewrite (insert_take_drop hs i h') by (by apply lookup_lt_Some in Hi).
  rewrite !filter_app, !filter_cons, !length_app.
  rewrite (decide_False (P := running h' = true ∧ _)) by (intros [? _]; congruence).
  destruct (decide (p = in_pool h)) as [->|Hp].
  - rewrite decide_True by done. simpl. lia.
  - rewrite decide_False by (intros [_ ?]; congruence). simpl. lia.
Qed.

Lemma loop_exec_sound held s x : sound held s → sound held (exec s x).
Proof.
  destruct s as [g a w o sv hs ev fs st]. intros [Hp Ha Hr Hf He Hh Hd]. simpl in *. destruct x as [now|i|p|p|w']; simpl.
  - by split.
  - destruct (hs !! i) as [[pr p []]|] eqn:Ei; [|by split..]. split; try done; simpl.
    + pose proof (running_in_insert p i _ (Handler pr p false) hs Ei eq_refl eq_refl) as E.
      rewrite decide_True in E by done.
      eapply counts_ext, (counts_release _ _ _ p (running_in p (<[i:=Handler pr p false]> hs) + o p + held p)%nat); [|exact Hp|].
      * intros q. simpl. unfold permits; simpl. destruct (decide (q = p)) as [->|Hq]; [done|].
        rewrite (running_in_insert q i _ (Handler pr p false) hs Ei eq_refl eq_refl), decide_False by done. lia.
      * unfold permits; simpl. lia.
    + apply Forall_insert; [done|]. simpl. rewrite Forall_lookup in Hh. by apply (Hh i) in Ei.
  - destruct (Admission.try_acquire p a) as [[] a'] eqn:Ea; split; try done; simpl;
      (eapply counts_ext; [|exact (counts_acquire _ _ _ _ _ _ Hp Ea)]);
      intros q; unfold permits, set_outside; simpl; destruct (decide (q = p)) as [->|]; lia.
  - destruct (o p) as [|n] eqn:Eo; [by split|]. split; try done; simpl.
    eapply counts_ext, (counts_release _ _ _ p (running_in p hs + n + held p)%nat); [|exact Hp|unfold permits; simpl; lia].
    intros q. unfold permits, set_outside; simpl. by destruct (decide (q = p)) as [->|].
  - by split.
Qed.

Lemma run_steps_sound held s xs : sound held s → sound held (run_steps s xs).
Proof. revert s. induction xs as [|x xs IH]; intros s Hs; [done|]. by apply IH, loop_exec_sound. Qed.

(** What the steps around the loop leave alone. *)
Lemma run_steps_keeps (s : sys) xs :
  fates (run_steps s xs) = fates s ∧ served (run_steps s xs) = served s ∧
  events (run_steps s xs) = events s ∧ stopped (run_steps s xs) = stopped s.
Proof.
  revert s. induction xs as [|x xs IH]; intros s; [done|]. cbn [run_steps foldl]. fold (run_steps (exec s x) xs).
  destruct (IH (exec s x)) as (-> & -> & -> & ->). destruct s. destruct x; simpl; repeat case_match; done.
Qed.

Lemma tally_snoc f (fs : list (@fate C G)) x :
  Z.of_nat (length (base.filter (λ x, f x = true) (fs ++ [x])))
  = Z.of_nat (length (base.filter (λ x, f x = true) fs)) + (if f x then 1 else 0).
Proof.
  rewrite filter_app, filter_cons, filter_nil, length_app. destruct (f x); simpl; lia.
Qed.

Lemma stop_sound held s r : sound held s → stopped s = None → sound held (stop r s).
Proof.
  destruct s as [g a w o sv hs ev fs st]. intros [Hp Ha Hr Hf He Hh Hd] Hs. simpl in *. split; try done; simpl.
  intros Hin. apply Hd in Hin. congruence.
Qed.

Lemma join_next_keeps (hs hs' : list (@handler C G)) :
  join_next hs = Some hs' → (∀ p, running_in p hs' = running_in p hs) ∧ hs' ⊆ hs.
Proof.
  revert hs'. induction hs as [|h hs IH]; intros hs'; simpl; [done|]. destruct (running h) eqn:Er.
  - destruct (join_next hs) as [hs1|]; [|done]. intros [= <-]. destruct (IH hs1 eq_refl) as [Hn Hin].
    split; [|set_solver]. intros p. specialize (Hn p). unfold running_in in *. rewrite !filter_cons.
    case_decide; simpl; lia.
  - intros [= <-]. split; [|set_solver]. intros p. unfold running_in. rewrite filter_cons.
    rewrite decide_False; [done|]. intros [? _]. congruence.
Qed.

Lemma joined_sound held s hs :
  sound held s → join_next (handlers s) = Some hs →
  sound held (Sys (gate s) (adm s) (world s) (outside s) (served s) hs (events s) (fates s) (stopped s)).
Proof.
  destruct s as [g a w o sv hs0 ev fs st]. intros [Hp Ha Hr Hf He Hh Hd] Hj. simpl in *.
  apply join_next_keeps in Hj as [Hn Hin]. split; try done; simpl.
  - eapply counts_ext; [|exact Hp]. intros p. unfold permits; simpl. by rewrite Hn.
  - rewrite Forall_forall in *. auto.
Qed.

Lemma set_world_sound held s w : sound held s → sound held (set_world w s).
Proof. destruct s. intros []. by split. Qed.

(** The counts after a connection had the fate [x]. *)
Lemma fate_sound held held' s x sv a hs ev st :
  sound held s → earned x → x ≠ Dropped ∨ st = Some (Ok tt) → st = stopped s ∨ st = Some (Ok tt) →
  sv = match x with
       | Unauthenticated => Served.reject (served s)
       | OverCapacity => Served.overflow (served s)
       | GivenHandler _ => Served.count_admitted (served s)
       | Dropped => served s
       end →
  counts limits a (λ p, running_in p hs + outside s p + held' p)%nat →
  Forall (λ h, in_pool h = pool (granted (peer h)) ∧ GivenHandler (peer h) ∈ fates s ++ [x]) hs →
  sound held' (Sys (gate s) a (world s) (outside s) sv hs ev (fates s ++ [x]) st).
Proof.
  intros [Hp Ha Hr Hf He Hh Hd] Hx Hdrop Hst -> Hc Hhs. unfold tally in *. split; try done; simpl.
  - unfold tally. cbn [fates]. rewrite tally_snoc. destruct x; simpl; rewrite ?Ha; by autorewrite with daemon.
  - unfold tally. cbn [fates]. rewrite tally_snoc. destruct x; simpl; rewrite ?Hr; by autorewrite with daemon.
  - unfold tally. cbn [fates]. rewrite tally_snoc. destruct x; simpl; rewrite ?Hf; by autorewrite with daemon.
  - apply Forall_app. split; [done|]. by apply Forall_singleton.
  - intros [Hin|Hin%list_elem_of_singleton]%elem_of_app.
    + destruct Hst as [->|]; [auto|done].
    + subst x. by destruct Hdrop.
Qed.

Lemma more_fates (hs : list (@handler C G)) fs x :
  Forall (λ h, in_pool h = pool (granted (peer h)) ∧ GivenHandler (peer h) ∈ fs) hs →
  Forall (λ h, in_pool h = pool (granted (peer h)) ∧ GivenHandler (peer h) ∈ fs ++ [x]) hs.
Proof. intros H. eapply Forall_impl; [exact H|]. intros h [? ?]. split; [done|]. apply elem_of_app. by left. Qed.

Lemma running_in_snoc p (hs : list (@handler C G)) a q :
  running_in p (hs ++ [Handler a q true]) = (running_in p hs + (if decide (p = q) then 1 else 0))%nat.
Proof.
  unfold running_in. rewrite filter_app, filter_cons, filter_nil, length_app. simpl.
  destruct (decide (p = q)) as [->|Hp]; [by rewrite decide_True|].
  rewrite decide_False; [done|]. intros [_ ?]. congruence.
Qed.

Definition none : Pool.t → nat := λ _, O.

Lemma reject_sound s : sound none s → sound none (reject s).
Proof.
  intros Hs. pose proof (sound_permits _ s Hs) as Hp. pose proof (sound_handlers _ s Hs) as Hh.
  destruct s as [g a w o sv hs ev fs st]. simpl in *.
  apply (fate_sound none none (Sys g a w o sv hs ev fs st)); simpl; auto using more_fates.
Qed.

Lemma hand_over_sound s a before after :
  sound none s → stopped s = None → earned (GivenHandler a) → sound none (hand_over pool a before after s).
Proof.
  intros Hs Hst Ha. unfold hand_over.
  pose proof (run_steps_sound none s before Hs) as Hb. destruct (run_steps_keeps s before) as (_ & _ & _ & Hbs).
  destruct (run_steps s before) as [g ad w o sv hs ev fs st]. cbn [stopped] in Hbs. rewrite Hst in Hbs. subst st.
  set (p := pool (granted a)).
  destruct (Admission.try_acquire p ad) as [ok ad'] eqn:Eq.
  pose proof (counts_acquire _ _ _ _ _ _ (sound_permits _ _ Hb) Eq) as Hc. destruct ok.
  2:{ pose proof (sound_handlers _ _ Hb) as Hh. simpl in *.
      apply (fate_sound none none (Sys g ad w o sv hs ev fs None)); simpl; auto using more_fates.
      eapply counts_ext; [|exact Hc]. intros q. simpl. by case_decide. }
  set (mine := λ q, if decide (q = p) then 1%nat else O).
  assert (sound mine (Sys g ad' w o sv hs ev fs None)) as H1.
  { destruct Hb as [_ Hsa Hr Hf He Hh Hd]. split; try done. simpl. eapply counts_ext; [|exact Hc].
    intros q. unfold mine, none. simpl. destruct (decide (q = p)); unfold permits; simpl; lia. }
  pose proof (run_steps_sound _ _ after H1) as H2.
  destruct (run_steps_keeps (Sys g ad' w o sv hs ev fs None) after) as (_ & _ & _ & Hs2).
  destruct (run_steps (Sys g ad' w o sv hs ev fs None) after) as [g2 ad2 w2 o2 sv2 hs2 ev2 fs2 st2].
  cbn [stopped] in Hs2. subst st2.
  pose proof (sound_permits _ _ H2) as Hp2. pose proof (sound_handlers _ _ H2) as Hh2. simpl in Hp2, Hh2.
  destruct (negb (Lifecycle.accepting_calls g2)).
  - apply (fate_sound mine none (Sys g2 ad2 w2 o2 sv2 hs2 ev2 fs2 None)); simpl; auto using more_fates.
    eapply counts_ext, (counts_release _ _ _ p (running_in p hs2 + o2 p)%nat); [|exact Hp2|].
    + intros q. unfold none, mine, permits. simpl. destruct (decide (q = p)) as [->|]; lia.
    + unfold mine, permits. simpl. rewrite decide_True by done. lia.
  - apply (fate_sound mine none (Sys g2 ad2 w2 o2 sv2 hs2 ev2 fs2 None)); simpl; auto using more_fates.
    + eapply counts_ext; [|exact Hp2]. intros q. unfold none, mine, permits. simpl. rewrite running_in_snoc.
      destruct (decide (q = p)); lia.
    + apply Forall_app. split; [by apply more_fates|]. apply Forall_singleton. split; [done|]. set_solver.
Qed.

Lemma turn_sound s accepted before after :
  sound none s → sound none (turn evidence policy pool unix accepted before after s).
Proof.
  intros Hs. unfold turn. destruct (stopped s) eqn:Est; [done|].
  destruct (Lifecycle.draining (gate s)); [by apply stop_sound|].
  destruct (join_next (handlers s)) as [hs|] eqn:Ej.
  { pose proof (joined_sound none s hs Hs Ej). by destruct s. }
  destruct accepted as [[c|e]|]; [| |done].
  - destruct (evidence c) as [cr|e] eqn:Ec; [|by apply reject_sound].
    unfold authenticate. destruct (policy cr (world s)) as [[g|r] w] eqn:Ep; simpl.
    + apply hand_over_sound; [by apply set_world_sound|by destruct s|]. simpl. eauto.
    + by apply reject_sound, set_world_sound.
  - destruct (is_descriptor_exhaustion unix e); [|by apply stop_sound].
    pose proof (run_steps_sound none s before Hs) as Hb. destruct (run_steps_keeps s before) as (_ & _ & _ & Hbs).
    destruct (Lifecycle.draining _); [|done]. apply stop_sound; [done|]. congruence.
Qed.

Lemma serve_run_sound s ops : sound none s → sound none (run evidence policy pool unix s ops).
Proof.
  revert s. induction ops as [|x ops IH]; intros s Hs; [done|]. simpl. apply IH.
  destruct x; simpl; [by apply loop_exec_sound|by apply turn_sound].
Qed.

(** ** Once the gate is closed *)

Lemma exec_draining (s : sys) x : Lifecycle.draining (gate s) = true → Lifecycle.draining (gate (exec s x)) = true.
Proof.
  destruct s as [g a w o sv hs ev fs st]. simpl. intros Hg. destruct x; simpl; repeat case_match; try done.
  unfold Lifecycle.start_drain. by rewrite Hg.
Qed.

Definition closed (fs : list (@fate C G)) (sv : Served.t) (st : option (io_result unit)) (s : sys) : Prop :=
  Lifecycle.draining (gate s) = true ∧ fates s = fs ∧ served s = sv ∧
  (stopped s = st ∨ st = None ∧ stopped s = Some (Ok tt)).

Lemma loop_closed_exec fs sv st s x : closed fs sv st s → closed fs sv st (exec s x).
Proof.
  intros (Hg & Hf & Hv & Hs). split; [by apply exec_draining|]. change (exec s x) with (run_steps s [x]).
  destruct (run_steps_keeps s [x]) as (-> & -> & _ & ->). done.
Qed.

Lemma closed_turn fs sv st s accepted before after :
  closed fs sv st s →
  let s' := turn evidence policy pool unix accepted before after s in
  closed fs sv st s' ∧ stopped s' ≠ None.
Proof.
  intros (Hg & Hf & Hv & Hs). unfold turn. destruct (stopped s) as [r|] eqn:Est.
  - split; [|congruence]. unfold closed. rewrite Est. done.
  - rewrite Hg. destruct s; simpl in *. split; [|done]. split_and!; try done. simpl. right.
    destruct Hs as [<-|[_ ?]]; done.
Qed.

Lemma closed_run fs sv st s ops :
  closed fs sv st s → closed fs sv st (run evidence policy pool unix s ops).
Proof.
  revert s. induction ops as [|x ops IH]; intros s Hs; [done|]. simpl. apply IH.
  destruct x; simpl; [by apply loop_closed_exec|by apply closed_turn].
Qed.

(** ** Ending *)

Lemma finish_wait_sound s waits :
  sound none s → let s' := finish_wait waits s in
  sound none s' ∧ fates s' = fates s ∧ served s' = served s ∧ stopped s' = stopped s.
Proof.
  revert s. induction waits as [|[steps|] waits IH]; intros s Hs; simpl; [done| |done].
  case_decide; [done|]. pose proof (run_steps_sound none s steps Hs) as H1.
  destruct (run_steps_keeps s steps) as (Hf & Hv & _ & Hst).
  destruct (run_steps s steps) as [g a w o sv hs ev fs st]. simpl in *. subst.
  destruct (join_next hs) as [hs'|] eqn:Ej; [|exact (IH _ H1)].
  apply (IH (Sys g a w o (served s) hs' ev (fates s) (stopped s))), (joined_sound none _ hs' H1 Ej).
Qed.

(** The handlers a drain cancels: still running, and not done before the abort. *)
Definition cancelled (hs : list (@handler C G)) (completes : list bool) : Z :=
  Z.of_nat (length (base.filter (λ x, running x.1 = true ∧ x.2 = false)
    (zip hs (completes ++ replicate (length hs) false)))).

Lemma zip_longer {A B} (l : list A) (k x : list B) : (length l ≤ length k)%nat → zip l (k ++ x) = zip l k.
Proof.
  revert k. induction l as [|a l IH]; intros [|b k] Hl; simpl in *; [done..|lia|]. f_equal. apply IH. lia.
Qed.

Lemma cancelled_cons h hs completes :
  cancelled (h :: hs) completes
  = (if running h && negb (default false (head completes)) then 1 else 0) + cancelled hs (tail completes).
Proof.
  unfold cancelled. assert (zip (h :: hs) (completes ++ replicate (length (h :: hs)) false)
    = (h, default false (head completes)) :: zip hs (tail completes ++ replicate (length hs) false)) as ->.
  { destruct completes as [|b completes]; simpl; [done|]. f_equal.
    change (false :: replicate (length hs) false) with (replicate (S (length hs)) false).
    rewrite replicate_S_end, app_assoc. apply zip_longer. rewrite length_app, length_replicate. lia. }
  rewrite filter_cons. simpl. destruct (running h), (default false (head completes)); simpl;
    rewrite ?decide_True, ?decide_False by naive_solver; simpl; lia.
Qed.

Lemma abort_all_counts hs completes a n :
  counts limits a (λ p, running_in p hs + n p)%nat →
  let '(k, a') := abort_all hs completes a in counts limits a' n ∧ k = cancelled hs completes.
Proof.
  revert completes n. induction hs as [|h hs IH]; intros completes n Hc; simpl.
  { split; [|done]. eapply counts_ext; [|exact Hc]. done. }
  rewrite cancelled_cons.
  specialize (IH (tail completes) (λ p, n p + (if decide (running h = true ∧ in_pool h = p) then 1 else 0))%nat).
  destruct (abort_all hs (tail completes) a) as [k a'].
  destruct IH as [Hc' ->].
  { eapply counts_ext; [|exact Hc]. intros p. unfold running_in. rewrite filter_cons. case_decide; simpl; lia. }
  destruct (running h) eqn:Er; simpl.
  - split; [|destruct (default false (head completes)); simpl; lia].
    eapply counts_ext, (counts_release _ _ _ (in_pool h) (n (in_pool h))); [|exact Hc'|].
    + intros p. simpl. destruct (decide (p = in_pool h)) as [->|Hp]; [done|].
      rewrite decide_False; [lia|]. intros [_ ?]. congruence.
    + simpl. rewrite decide_True by done. lia.
  - split; [|done]. eapply counts_ext; [|exact Hc']. intros p. cbv beta. rewrite decide_False; [lia|]. by intros [? _].
Qed.
End proofs.

(** The limits of the pools an accept loop starts with. *)
Definition limit_of (l : Limits.t) (p : Pool.t) : Z := Admission.limit (Admission.pools (Admission.new l) p).

Lemma loop_start_sound {C W G} (evidence : C → io_result Credentials.t) (policy : Policy W G) pool l lim w :
  (∀ p, is_u64 (limit_of lim p)) → sound evidence policy pool (limit_of lim) none (start l (Admission.new lim) w).
Proof.
  intros Hl. split; simpl; try done; [|intros Hin; by apply elem_of_nil in Hin].
  intros p. specialize (Hl p).
  unfold limit_of, is_u64, permits, none in *. destruct p; simpl in *; split_and!; done || lia.
Qed.


(** C26: a drained loop ends, hands over nobody else, and gives everything back.
    Once the gate is closed nothing that happens makes the loop take another
    connection, its next pass ends it, and after its handlers finished or were
    aborted no permit of its own is left; the result is the counts, those of the
    connections unchanged and [aborted] exactly the handlers that were cancelled,
    and it is an error only if accepting had failed before the drain. *)
Theorem drained_loops_give_everything_back {C W G} (evidence : C → io_result Credentials.t) (policy : Policy W G)
    pool unix l lim w ops more accepted before after waits completes :
  (∀ p, is_u64 (limit_of lim p)) →
  let s := run evidence policy pool unix (start l (Admission.new lim) w) ops in
  Lifecycle.draining (gate s) = true →
  let s1 := run evidence policy pool unix s (more ++ [Turn accepted before after]) in
  let s2 := finish waits completes s1 in
  fates s2 = fates s ∧ handlers s2 = [] ∧
  served s2 = Served.abort (cancelled (handlers (finish_wait waits s1)) completes) (served s) ∧
  (∀ p, Admission.active (Admission.pools (adm s2) p) = Z.of_nat (outside s2 p)) ∧
  outcome s2 = Some (match stopped s with
                     | Some (Err e) => Err (e, served s2)
                     | _ => Ok (served s2)
                     end).
Proof.
  intros Hl s Hg s1 s2.
  assert (sound evidence policy pool (limit_of lim) none s) as Hs by (by apply serve_run_sound, loop_start_sound).
  assert (closed (fates s) (served s) (stopped s) s1 ∧ stopped s1 ≠ None) as [(_ & Hf & Hv & Hst) Hne].
  { subst s1. unfold run. rewrite foldl_app. apply closed_turn, closed_run. by repeat (split; [done|]); left. }
  pose proof (finish_wait_sound evidence policy pool (limit_of lim) s1 waits
    (serve_run_sound _ _ _ unix _ _ (more ++ [Turn accepted before after]) Hs)) as (Hw & Hwf & Hwv & Hws).
  subst s2. unfold finish. fold s1 in Hw, Hwf, Hwv, Hws.
  destruct (finish_wait waits s1) as [g a w' o sv hs ev fs st]. simpl in *.
  pose proof (abort_all_counts (limit_of lim) hs completes a o) as Ha.
  destruct (abort_all hs completes a) as [k a'].
  destruct Ha as [Hc ->].
  { eapply counts_ext; [|exact (sound_permits _ _ _ _ _ _ Hw)]. intros p. unfold permits, none. simpl. lia. }
  simpl. subst. split_and!; try done.
  - by rewrite Hv.
  - intros p. apply Hc.
  - unfold outcome. simpl. destruct Hst as [E|[-> ->]]; [|done]. rewrite E in Hne |- *.
    by destruct (stopped s) as [[]|].
Qed.

(** A loop over connections that are their own evidence: a peer of another user is
    rejected, the second peer finds the pool full, and the drain cancels the
    handler of the first. *)
Definition example_ops : list (@op (io_result Credentials.t) unit) :=
  [Turn (Some (Ok (Ok (Credentials.new (Some 7) false)))) [] [];
   Turn (Some (Ok (Ok (Credentials.new (Some 8) true)))) [OutsideTake Pool.Control] [];
   Turn (Some (Ok (Ok (Credentials.new (Some 9) true)))) [] [];
   Turn (Some (Err (IoError Other (Some 24) ""))) [StartDrain 5] []].

Definition example_run : @sys (io_result Credentials.t) unit unit :=
  run id SameUser (λ _, Pool.Application) true (start Lifecycle.default (Admission.new (Limits.mk 1 1 1)) tt) example_ops.


Lemma drained_loops_give_everything_back_witness :
  let s := finish [None] [] (run id SameUser (λ _, Pool.Application) true example_run ([] ++ [Turn None [] []])) in
  outcome s = Some (Ok (Served.mk 1 1 1 1)) ∧
  (∀ p, Admission.active (Admission.pools (adm s) p) = Z.of_nat (outside s p)).
Proof.
  pose proof (drained_loops_give_everything_back id SameUser (λ _, Pool.Application) true Lifecycle.default
    (Limits.mk 1 1 1) tt example_ops [] None [] [] [None] []) as H.
  destruct H as (_ & _ & _ & Hp & _); [intros []; vm_compute; done|vm_compute; reflexivity|].
  split; [vm_compute; reflexivity|exact Hp].
Defined.
