(* ===== verification/Upgrade.v ===== *)
(** * Ownership locks and upgrades (src/ownership.rs, src/upgrade.rs)

    A [ProcessLock] is an exclusive lock on a file that never goes away; an upgrade
    holds one while it replaces a daemon. The file system, the daemon and its
    replacement are the environment. *)
From S2P Require Import Prelude Backoff.

(** The lock file: opening it, [File::try_lock], whose error [None] is
    [TryLockError::WouldBlock], and [File::unlock]. *)
Class LockFile (W : Type) : Type := {
  open_file (create : bool) : W → io_result unit * W;
  try_lock : W → result (option io_error) unit * W;
  unlock : W → W;
}.

Module ProcessLock.
Section code.
Context {W : Type} `{Clock W, LockFile W}.

(** Take the lock if it is free. *)
Definition locked (w : W) : io_result bool * W :=
  match try_lock w with
  | (Ok _, w) => (Ok true, w)
  | (Err None, w) => (Ok false, w)
  | (Err (Some e), w) => (Err e, w)
  end.

Definition open_or_create : W → io_result unit * W := open_file true.

Definition open_existing (w : W) : io_result bool * W :=
  match open_file false w with
  | (Ok _, w) => (Ok true, w)
  | (Err e, w) => (if decide (kind e = NotFound) then Ok false else Err e, w)
  end.

(** The operations answer whether there is a guard; the caller then holds it. *)
Definition try_from_file : W → io_result bool * W := locked.

Definition try_acquire (w : W) : io_result bool * W :=
  match open_or_create w with
  | (Err e, w) => (Err e, w)
  | (Ok _, w) => try_from_file w
  end.

Definition lock_until (passes : nat) (deadline : Z) (w : W) : option (io_result bool) * W :=
  poll passes locked (Some deadline) w.

Definition acquire_until (passes : nat) (deadline : Z) (w : W) : option (io_result bool) * W :=
  match open_or_create w with
  | (Err e, w) => (Some (Err e), w)
  | (Ok _, w) => lock_until passes deadline w
  end.

(** [open_private] on Windows: the file is opened even if it names another one, and
    refused then. *)
Definition open_private_windows (open_reparse_point : W → io_result unit * W) (is_symlink : W → io_result bool * W) (w : W)
    : io_result unit * W :=
  match open_reparse_point w with
  | (Err e, w) => (Err e, w)
  | (Ok _, w) =>
      match is_symlink w with
      | (Err e, w) => (Err e, w)
      | (Ok true, w) => (Err (error_of_kind PermissionDenied), w)
      | (Ok false, w) => (Ok tt, w)
      end
  end.

(** [acquire_private_until], with the platform's [open_private]. *)
Definition acquire_private_until (open_private : W → io_result unit * W) (passes : nat) (deadline : Z) (w : W)
    : option (io_result bool) * W :=
  match open_private w with
  | (Err e, w) => (Some (Err e), w)
  | (Ok _, w) => lock_until passes deadline w
  end.

(** [Drop for ProcessLock], of a guard that there is. *)
Definition drop_guard (guard : io_result bool) (w : W) : W :=
  match guard with Ok true => unlock w | _ => w end.

Definition is_held (w : W) : io_result bool * W :=
  match open_existing w with
  | (Err e, w) => (Err e, w)
  | (Ok false, w) => (Ok false, w)
  | (Ok true, w) =>
      let '(guard, w) := try_from_file w in
      (negb <$> guard, drop_guard guard w)
  end.

Definition wait_released_until (passes : nat) (deadline : Z) (w : W) : option (io_result bool) * W :=
  match open_existing w with
  | (Err e, w) => (Some (Err e), w)
  | (Ok false, w) => (Some (Ok true), w)
  | (Ok true, w) =>
      match lock_until passes deadline w with
      | (None, w) => (None, w)
      | (Some guard, w) => (Some guard, drop_guard guard w)
      end
  end.
End code.
End ProcessLock.

(** ** Guards and locks *)

(** A world that counts the locks taken and not given back. *)
#[export] Instance counted_lock {W} `{LockFile W} : LockFile (W * Z) := {
  open_file c s := let '(r, w) := open_file c s.1 in (r, (w, s.2));
  try_lock s := let '(r, w) := try_lock s.1 in (r, (w, match r with Ok _ => s.2 + 1 | Err _ => s.2 end));
  unlock s := (unlock s.1, s.2 - 1);
}.

Section guards.
Context {W : Type} `{Clock W, LockFile W}.
Import ProcessLock.

Definition guard_of (r : io_result bool) : Z := match r with Ok true => 1 | _ => 0 end.

Lemma locked_counts (s s' : W * Z) r : locked s = (r, s') → s'.2 = s.2 + guard_of r.
Proof.
  unfold locked. destruct s as [w n]. simpl. destruct (try_lock w) as [[[]|[e|]] w1]; intros [= <- <-]; simpl; lia.
Qed.

Lemma open_counts c (s s' : W * Z) r : open_file c s = (r, s') → s'.2 = s.2.
Proof. destruct s as [w n]. simpl. destruct (open_file c w). by intros [= <- <-]. Qed.

Lemma open_existing_counts (s s' : W * Z) r : open_existing s = (r, s') → s'.2 = s.2.
Proof.
  unfold open_existing. destruct (open_file false s) as [[[]|e] s1] eqn:E; apply open_counts in E;
    intros [= <- <-]; done.
Qed.

Lemma poll_counts passes pause deadline (s s' : W * Z) r :
  poll_from passes locked pause deadline s = (Some r, s') → s'.2 = s.2 + guard_of r.
Proof.
  revert pause s. induction passes as [|n IH]; intros pause s; cbn [poll_from]; [discriminate|].
  destruct (locked s) as [[[]|e] s1] eqn:El; apply locked_counts in El; simpl in El;
    [by intros [= <- <-]| |by intros [= <- <-]].
  destruct (next_pause pause deadline s1) as [[[nap|] pause'] s2] eqn:En.
  - assert (s2.2 = s1.2) as E2.
    { destruct s1 as [w1 k]. unfold next_pause in En. destruct deadline as [d|]; [|by simplify_eq].
      simpl in En. destruct (now w1). simpl in En. by destruct (_ =? 0); simplify_eq. }
    destruct (overrun deadline (sleep nap s2)) as [late s3] eqn:Eo.
    assert (s3.2 = s1.2) as E3.
    { rewrite <- E2. destruct s2 as [w2 k]. unfold overrun in Eo. destruct deadline; [|by simplify_eq].
      simpl in Eo. destruct (now _). by simplify_eq. }
    destruct late; [intros [= <- <-]; simpl; lia|]. intros Hr. apply IH in Hr. lia.
  - assert (s2.2 = s1.2) as E2.
    { destruct s1 as [w1 k]. unfold next_pause in En. destruct deadline as [d|]; [|done].
      simpl in En. destruct (now w1). simpl in En. by destruct (_ =? 0); simplify_eq. }
    intros [= <- <-]. simpl. lia.
Qed.

Lemma drop_counts g (s : W * Z) : (drop_guard g s).2 = s.2 - guard_of g.
Proof. destruct g as [[]|]; simpl; lia. Qed.
End guards.

Import ProcessLock.

(** A check keeps no lock, and an acquisition exactly one. Whatever the file
    system answers, [is_held] and [wait_released_until] leave as many locks taken
    as before, and the acquiring operations leave one more when they return a
    guard and none more otherwise; dropping the guard gives it back. Waiting with a
    deadline ends within one attempt for each millisecond left and one more. *)
Theorem guards_are_locks {W} `{ClockLaws W, !LockFile W} passes deadline (s : W * Z) :
  (∀ r s', is_held s = (r, s') → s'.2 = s.2) ∧
  (∀ r s', wait_released_until passes deadline s = (Some r, s') → s'.2 = s.2) ∧
  (∀ r s', try_acquire s = (r, s') → s'.2 = s.2 + guard_of r ∧ (drop_guard r s').2 = s.2) ∧
  (∀ r s', acquire_until passes deadline s = (Some r, s') → s'.2 = s.2 + guard_of r ∧ (drop_guard r s').2 = s.2) ∧
  ((∀ w, time w ≤ time (try_lock w).2) → (∀ c w, time w ≤ time (open_file c w).2) →
   (polls FIRST deadline s < passes)%nat →
   is_Some (acquire_until passes deadline s).1 ∧ is_Some (wait_released_until passes deadline s).1).
Proof.
  split_and!.
  - intros r s'. unfold is_held. destruct (open_existing s) as [[[]|e] s1] eqn:Eo; apply open_existing_counts in Eo;
      [|by intros [= <- <-]..]. unfold try_from_file. destruct (locked s1) as [g s2] eqn:El.
    apply locked_counts in El. intros [= <- <-]. rewrite drop_counts. lia.
  - intros r s'. unfold wait_released_until.
    destruct (open_existing s) as [[[]|e] s1] eqn:Eo; apply open_existing_counts in Eo; [|by intros [= <- <-]..].
    unfold lock_until, poll. destruct (poll_from _ _ _ _ s1) as [[g|] s2] eqn:El; [|done].
    apply poll_counts in El. intros [= <- <-]. rewrite drop_counts. lia.
  - intros r s'. unfold try_acquire, open_or_create, try_from_file.
    destruct (open_file true s) as [[[]|e] s1] eqn:Eo; apply open_counts in Eo.
    + intros El. apply locked_counts in El. rewrite drop_counts. lia.
    + intros [= <- <-]. simpl. lia.
  - intros r s'. unfold acquire_until, open_or_create, lock_until, poll.
    destruct (open_file true s) as [[[]|e] s1] eqn:Eo; apply open_counts in Eo.
    + intros El. apply poll_counts in El. rewrite drop_counts. lia.
    + intros [= <- <-]. simpl. lia.
  - intros Hl Ho Hn.
    assert (∀ s1 : W * Z, time s ≤ time s1 → is_Some (lock_until passes deadline s1).1) as Hpoll.
    { intros s1 Hs1. apply poll_terminates; [|done|].
      - intros [w k]. unfold locked. simpl. specialize (Hl w). by destruct (try_lock w) as [[[]|[e|]] w1].
      - eapply Nat.le_lt_trans; [|exact Hn]. by apply polls_mono. }
    assert (∀ c, time s ≤ time (open_file c s).2) as Ho'.
    { intros c. destruct s as [w k]. simpl. specialize (Ho c w). by destruct (open_file c w). }
    split.
    + unfold acquire_until, open_or_create. specialize (Ho' true).
      destruct (open_file true s) as [[[]|e] s1]; [by apply Hpoll|by eexists].
    + unfold wait_released_until, open_existing. specialize (Ho' false).
      destruct (open_file false s) as [[[]|e] s1]; simpl.
      * destruct (Hpoll s1 Ho') as [g Hg]. destruct (lock_until passes deadline s1) as [[g'|] s2]; [by eexists|done].
      * case_decide; by eexists.
Qed.

(** A call that takes no lock. *)
Definition uncounted {W A} (f : W → A * W) (s : W * Z) : A * (W * Z) := let '(a, w) := f s.1 in (a, (w, s.2)).

(** A private lock is taken on no file that is a link. Acquiring it on Windows counts
    as acquiring any other does; a file that is found to be a symlink or a junction is
    refused with [PermissionDenied], without an attempt at the lock. *)
Theorem private_locks_follow_no_link {W} `{Clock W, !LockFile W} open_reparse_point is_symlink passes deadline
    (s s' : W * Z) r :
  acquire_private_until (open_private_windows (uncounted open_reparse_point) (uncounted is_symlink)) passes deadline s
    = (Some r, s') →
  s'.2 = s.2 + guard_of r ∧ (drop_guard r s').2 = s.2 ∧
  ((open_reparse_point s.1).1 = Ok tt → (is_symlink (open_reparse_point s.1).2).1 = Ok true →
   r = Err (error_of_kind PermissionDenied) ∧ s' = ((is_symlink (open_reparse_point s.1).2).2, s.2)).
Proof.
  rewrite drop_counts. unfold acquire_private_until, open_private_windows, uncounted. destruct s as [w n]. simpl.
  destruct (open_reparse_point w) as [[[]|e] w1]; simpl.
  2: { intros [= <- <-]. simpl. split; [lia|]. by split; [lia|]. }
  destruct (is_symlink w1) as [[[]|e] w2]; simpl.
  - intros [= <- <-]. simpl. split; [lia|]. by split; [lia|].
  - unfold lock_until, poll. intros El. apply poll_counts in El. simpl in El. split; [lia|]. by split; [lia|].
  - intros [= <- <-]. simpl. split; [lia|]. by split; [lia|].
Qed.

(** A lock file whose attempts answer as scripted, and then find it free. *)
#[export] Instance scripted_lock : LockFile (Sim (result (option io_error) unit)) := {
  open_file _ w := (Ok tt, w);
  try_lock := next_answer (Ok tt);
  unlock w := w;
}.

Lemma guards_are_locks_witness :
  let s : Sim (result (option io_error) unit) * Z := (MkSim 0 [Err None; Err None; Ok tt], 0) in
  (acquire_until 11 (from_millis 10) s).1 = Some (Ok true) ∧ (acquire_until 11 (from_millis 10) s).2.2 = 1 ∧
  is_Some (wait_released_until 11 (from_millis 10) s).1.
Proof.
  intros s. split; [vm_compute; reflexivity|].
  pose proof (guards_are_locks 11 (from_millis 10) s) as (_ & _ & _ & Ha & Ht). split.
  - destruct (acquire_until 11 (from_millis 10) s) as [[r|] s'] eqn:E; [|by vm_compute in E]. simpl.
    destruct (Ha r s' eq_refl) as [-> _]. vm_compute in E. injection E as <- <-. reflexivity.
  - apply Ht; [intros w; apply next_answer_time|done|]. apply Nat.ltb_lt. vm_compute. reflexivity.
Defined.

Lemma private_locks_follow_no_link_witness :
  let s : Sim (result (option io_error) unit) * Z := (MkSim 0 [Ok tt], 0) in
  ∃ r s', acquire_private_until (open_private_windows (uncounted (λ w, (Ok tt, w))) (uncounted (λ w, (Ok true, w))))
      11 (from_millis 10) s = (Some r, s') ∧ r = Err (error_of_kind PermissionDenied) ∧ s'.2 = 0.
Proof.
  intros s. destruct (acquire_private_until (open_private_windows (uncounted (λ w, (Ok tt, w))) (uncounted (λ w, (Ok true, w))))
      11 (from_millis 10) s) as [[r|] s'] eqn:E; [|by vm_compute in E].
  destruct (private_locks_follow_no_link _ _ _ _ _ _ _ E) as (_ & _ & Hr). destruct Hr as [-> ->]; [done|done|].
  by do 2 eexists.
Defined.

(** ** Upgrades *)

Module UpgradeError.
Inductive t (E : Type) := Probe (e : E) | Replace (e : E) | Lock (e : io_error) | Deadline.
Arguments Probe {E} e.
Arguments Replace {E} e.
Arguments Lock {E} e.
Arguments Deadline {E}.
End UpgradeError.

(** The daemon: a live probe, and what replaces it. Both run under the deadline
    given to them; no answer is a wait that the deadline cut. *)
Class Daemon (W T E : Type) : Type := {
  probe : Z → W → option (result E (option T)) * W;
  replace : Z → W → option (result E unit) * W;
}.

Section upgrade.
Context {W T E : Type} `{Clock W, LockFile W, Daemon W T E}.
Variable accepts : T → bool.

(** A sleep under the deadline: whether it ended before the deadline cut it. *)
Definition nap (d deadline : Z) (w : W) : bool * W :=
  let '(t, w) := now w in
  let left := saturating_sub deadline t in
  if d <? left then (true, sleep d w) else (false, sleep left w).

(** [acquire_async]: [None] when the deadline cut it. The recursion is cut off
    after [passes]. *)
Fixpoint acquire_from (passes : nat) (pause deadline : Z) (w : W) : option (option (io_result unit)) * W :=
  match passes with
  | O => (None, w)
  | S passes =>
      match locked w with
      | (Err e, w) => (Some (Some (Err e)), w)
      | (Ok true, w) => (Some (Some (Ok tt)), w)
      | (Ok false, w) =>
          match next_pause pause None w with
          | (Some d, pause, w) =>
              match nap d deadline w with
              | (true, w) => acquire_from passes pause deadline w
              | (false, w) => (Some None, w)
              end
          | (None, pause, w) => acquire_from passes pause deadline w
          end
      end
  end.

Definition acquire_async (passes : nat) (deadline : Z) (w : W) : option (option (io_result unit)) * W :=
  match open_or_create w with
  | (Err e, w) => (Some (Some (Err e)), w)
  | (Ok _, w) => acquire_from passes FIRST deadline w
  end.

(** One probe: a result that ends the upgrade, if it does. *)
Definition check (deadline : Z) (w : W) : option (result (UpgradeError.t E) T) * W :=
  match probe deadline w with
  | (None, w) => (Some (Err UpgradeError.Deadline), w)
  | (Some (Err e), w) => (Some (Err (UpgradeError.Probe e)), w)
  | (Some (Ok (Some current)), w) => (if accepts current then Some (Ok current) else None, w)
  | (Some (Ok None), w) => (None, w)
  end.

(** The loop that follows a replacement, cut off after [passes]. *)
Fixpoint await_current (passes : nat) (deadline : Z) (w : W) : option (result (UpgradeError.t E) T) * W :=
  match passes with
  | O => (None, w)
  | S passes =>
      match check deadline w with
      | (Some r, w) => (Some r, w)
      | (None, w) =>
          match nap (from_millis 25) deadline w with
          | (true, w) => await_current passes deadline w
          | (false, w) => (Some (Err UpgradeError.Deadline), w)
          end
      end
  end.

(** What happens while the upgrade lock is held. *)
Definition upgrade_locked (passes : nat) (deadline : Z) (w : W) : option (result (UpgradeError.t E) T) * W :=
  match check deadline w with
  | (Some r, w) => (Some r, w)
  | (None, w) =>
      match replace deadline w with
      | (None, w) => (Some (Err UpgradeError.Deadline), w)
      | (Some (Err e), w) => (Some (Err (UpgradeError.Replace e)), w)
      | (Some (Ok _), w) => await_current passes deadline w
      end
  end.

Definition ensure_current (passes : nat) (deadline : Z) (w : W) : option (result (UpgradeError.t E) T) * W :=
  let '(late, w) := expired (Some deadline) w in
  if late then (Some (Err UpgradeError.Deadline), w) else
  match check deadline w with
  | (Some r, w) => (Some r, w)
  | (None, w) =>
      match acquire_async passes deadline w with
      | (None, w) => (None, w)
      | (Some None, w) => (Some (Err UpgradeError.Deadline), w)
      | (Some (Some (Err e)), w) => (Some (Err (UpgradeError.Lock e)), w)
      | (Some (Some (Ok _)), w) =>
          match upgrade_locked passes deadline w with
          | (None, w) => (None, w)
          | (Some r, w) => (Some r, unlock w)
          end
      end
  end.
End upgrade.

(** ** What an upgrade does *)

Section history.
Context {W T E : Type} `{Clock W, LockFile W, Daemon W T E}.
Variable accepts : T → bool.

Inductive event := Probed (r : option (result E (option T))) | Locked | Replaced (r : option (result E unit)) | Unlocked.

(** The environment with a log of what the upgrade asked of it. *)
#[local] Instance logged_lock : LockFile (W * list event) := {
  open_file c s := let '(r, w) := open_file c s.1 in (r, (w, s.2));
  try_lock s := let '(r, w) := try_lock s.1 in (r, (w, match r with Ok _ => s.2 ++ [Locked] | Err _ => s.2 end));
  unlock s := (unlock s.1, s.2 ++ [Unlocked]);
}.

#[local] Instance logged_daemon : Daemon (W * list event) T E := {
  probe d s := let '(r, w) := probe d s.1 in (r, (w, s.2 ++ [Probed r]));
  replace d s := let '(r, w) := replace d s.1 in (r, (w, s.2 ++ [Replaced r]));
}.

(** A probe that does not end the upgrade. *)
Definition unfit (x : event) : Prop :=
  match x with
  | Probed (Some (Ok None)) => True
  | Probed (Some (Ok (Some t))) => accepts t = false
  | _ => False
  end.

(** A result rests on a probe: an accepted answer, its error, or the deadline. *)
Definition rests_on (r : result (UpgradeError.t E) T) (x : event) : Prop :=
  match r with
  | Ok t => x = Probed (Some (Ok (Some t))) ∧ accepts t = true
  | Err (UpgradeError.Probe e) => x = Probed (Some (Err e))
  | Err UpgradeError.Deadline => x = Probed None
  | Err _ => False
  end.

(** The probes after a replacement: unfit ones, then one the result rests on,
    unless the deadline passed in between. *)
Definition awaited (r : result (UpgradeError.t E) T) (probes : list event) : Prop :=
  (∃ us x, probes = us ++ [x] ∧ Forall unfit us ∧ rests_on r x) ∨
  (Forall unfit probes ∧ r = Err UpgradeError.Deadline).

(** Everything an upgrade may ask, and what it then reports. *)
Inductive history : result (UpgradeError.t E) T → list event → Prop :=
| too_late : history (Err UpgradeError.Deadline) []
| already_current r a : rests_on r a → history r [a]
| not_locked r a :
    unfit a → r = Err UpgradeError.Deadline ∨ (∃ e, r = Err (UpgradeError.Lock e)) → history r [a]
| replaced_by_another r a b : unfit a → rests_on r b → history r [a; Locked; b; Unlocked]
| replace_failed r a b x :
    unfit a → unfit b →
    (x = None ∧ r = Err UpgradeError.Deadline) ∨ (∃ e, x = Some (Err e) ∧ r = Err (UpgradeError.Replace e)) →
    history r [a; Locked; b; Replaced x; Unlocked]
| replaced r a b probes :
    unfit a → unfit b → awaited r probes →
    history r ([a; Locked; b; Replaced (Some (Ok tt))] ++ probes ++ [Unlocked]).

Context (deadline : Z).
#[local] Abbreviation world := (W * list event)%type.

Lemma check_log (s s' : world) o :
  check accepts deadline s = (o, s') →
  ∃ x, s'.2 = s.2 ++ [x] ∧ match o with Some r => rests_on r x | None => unfit x end.
Proof.
  destruct s as [w l]. unfold check. simpl. destruct (probe deadline w) as [r w1].
  intros Hc. exists (Probed r).
  destruct r as [[[t|]|e]|]; simpl in Hc; simplify_eq; simpl; try done.
  by destruct (accepts t) eqn:Ea.
Qed.

Lemma nap_log d (s s' : world) b : nap d deadline s = (b, s') → s'.2 = s.2.
Proof.
  unfold nap. destruct s as [w l]. simpl. destruct (now w) as [t w1].
  by destruct (_ <? _); intros [= <- <-].
Qed.

Lemma await_log passes (s s' : world) r :
  await_current accepts passes deadline s = (Some r, s') → ∃ probes, s'.2 = s.2 ++ probes ∧ awaited r probes.
Proof.
  revert s. induction passes as [|n IH]; intros s; cbn [await_current]; [done|].
  destruct (check accepts deadline s) as [[o|] s1] eqn:Ec; apply check_log in Ec as (x & E1 & Hx).
  { intros [= <- <-]. exists [x]. split; [done|]. left. exists [], x. done. }
  destruct (nap _ _ s1) as [[] s2] eqn:En; apply nap_log in En.
  - intros (probes & E2 & Ha)%IH. exists (x :: probes). split; [by rewrite E2, En, E1, <- app_assoc|].
    destruct Ha as [(us & y & -> & Hu & Hy)|[Hu ->]]; [left; exists (x :: us), y|right]; auto.
  - intros [= <- <-]. exists [x]. split; [by rewrite En|]. right. auto.
Qed.

Lemma locked_log (s s' : world) r :
  locked s = (r, s') → s'.2 = s.2 ++ (match r with Ok true => [Locked] | _ => [] end).
Proof.
  unfold locked. destruct s as [w l]. simpl.
  destruct (try_lock w) as [[[]|[e|]] w1]; intros [= <- <-]; simpl; by rewrite ?app_nil_r.
Qed.

Lemma acquire_log passes (s s' : world) x :
  acquire_async passes deadline s = (Some x, s') →
  s'.2 = s.2 ++ (match x with Some (Ok _) => [Locked] | _ => [] end).
Proof.
  unfold acquire_async, open_or_create.
  assert (∀ pause s, acquire_from passes pause deadline s = (Some x, s') →
    s'.2 = s.2 ++ (match x with Some (Ok _) => [Locked] | _ => [] end)) as Hfrom.
  { clear s. induction passes as [|n IH]; intros pause s; cbn [acquire_from]; [done|].
    destruct (locked s) as [[[]|e] s1] eqn:El; apply locked_log in El; [by intros [= <- <-]| |by intros [= <- <-]].
    rewrite app_nil_r in El. cbn [next_pause]. destruct (nap _ _ s1) as [[] s2] eqn:En; apply nap_log in En.
    - intros Hr. apply IH in Hr. congruence.
    - intros [= <- <-]. simpl. rewrite app_nil_r. congruence. }
  destruct s as [w l]. simpl. destruct (open_file true w) as [[[]|e] w1].
  - apply (Hfrom FIRST (w1, l)).
  - intros [= <- <-]. simpl. by rewrite app_nil_r.
Qed.

Lemma ensure_current_log passes w r s' :
  ensure_current accepts passes deadline (w, []) = (Some r, s') → history r s'.2.
Proof.
  unfold ensure_current. destruct (expired (Some deadline) (w, [])) as [late s0] eqn:E0.
  apply expired_logged in E0. destruct late; [intros [= <- <-]; rewrite E0; constructor|].
  destruct (check accepts deadline s0) as [[o|] s1] eqn:Ec; apply check_log in Ec as (a & E1 & Ha); rewrite E0 in E1.
  { intros [= <- <-]. rewrite E1. by constructor. }
  destruct (acquire_async passes deadline s1) as [[x|] s2] eqn:Eq; [|done]. apply acquire_log in Eq.
  rewrite E1 in Eq. destruct x as [[[]|e]|]; simpl in Eq;
    [|intros [= <- <-]; rewrite Eq; apply not_locked; eauto..].
  unfold upgrade_locked.
  destruct (check accepts deadline s2) as [[o|] s3] eqn:Ec; apply check_log in Ec as (b & E3 & Hb); rewrite Eq in E3.
  { intros [= <- <-]. destruct s3. simpl in *. subst. by apply replaced_by_another. }
  destruct s3 as [w3 l3]. simpl in E3. subst l3. simpl.
  destruct (replace deadline w3) as [[[[]|e]|] w4]; [|intros [= <- <-]; simpl; apply replace_failed; eauto..].
  destruct (await_current accepts passes deadline _) as [[o|] s5] eqn:Ea; [|done].
  apply await_log in Ea as (probes & E5 & Hp). intros [= <- <-]. destruct s5. simpl in *. subst.
  by apply (replaced _ a b probes).
Qed.
End history.

(** ** Upgrades end *)

Section ends.
Context {W T E : Type} `{ClockLaws W, !LockFile W, !Daemon W T E}.
Variable accepts : T → bool.
Hypothesis open_mono : ∀ c w, time w ≤ time (open_file c w).2.
Hypothesis lock_mono : ∀ w, time w ≤ time (try_lock w).2.
Hypothesis probe_mono : ∀ d w, time w ≤ time (probe (T := T) (E := E) d w).2.
Hypothesis replace_mono : ∀ d w, time w ≤ time (replace (T := T) (E := E) d w).2.
Context (deadline : Z).

Lemma nap_lasts d (w w' : W) b :
  FIRST ≤ d → nap d deadline w = (b, w') → time w ≤ time w' ∧ (b = true → time w < deadline ∧ time w + FIRST ≤ time w').
Proof using Type.
  unfold nap. destruct (now w) as [t w1] eqn:En. apply now_mono in En. unfold saturating_sub. intros Hd.
  destruct (Z.ltb_spec d (Z.max 0 (deadline - t))); intros [= <- <-].
  - pose proof (sleep_lasts d w1). unfold FIRST, from_millis in *. split; [lia|]. intros _. lia.
  - pose proof (sleep_mono w1 (Z.max 0 (deadline - t))). split; [lia|done].
Qed.

Lemma nap_polls d (w w' : W) :
  FIRST ≤ d → nap d deadline w = (true, w') → (polls FIRST deadline w' < polls FIRST deadline w)%nat.
Proof using Type.
  intros Hd E1. destruct (nap_lasts d w w' true Hd E1) as [Ht Hw]. destruct (Hw eq_refl).
  apply polls_wait; unfold FIRST, from_millis in *; lia.
Qed.

Lemma check_mono (w w' : W) o : check (E := E) accepts deadline w = (o, w') → time w ≤ time w'.
Proof using probe_mono.
  unfold check. pose proof (probe_mono deadline w) as Hp.
  destruct (probe deadline w) as [[[[t|]|e]|] w1]; intros [= <- <-]; done.
Qed.

Lemma await_ends passes (w : W) :
  (polls FIRST deadline w < passes)%nat → is_Some (await_current (E := E) accepts passes deadline w).1.
Proof using probe_mono.
  revert w. induction passes as [|n IH]; intros w Hn; [lia|]. cbn [await_current].
  destruct (check accepts deadline w) as [[o|] w1] eqn:Ec; [by eexists|]. apply check_mono in Ec.
  destruct (nap _ _ w1) as [[] w2] eqn:En; [|by eexists]. apply IH.
  apply nap_polls in En; [|unfold FIRST, from_millis; lia].
  pose proof (polls_mono FIRST deadline deadline w w1 ltac:(done) ltac:(lia) Ec). lia.
Qed.

Lemma locked_mono (w w' : W) r : locked w = (r, w') → time w ≤ time w'.
Proof using lock_mono.
  unfold locked. pose proof (lock_mono w). destruct (try_lock w) as [[[]|[e|]] w1]; by intros [= <- <-].
Qed.

Lemma acquire_ends passes pause (w : W) :
  FIRST ≤ pause → (polls FIRST deadline w < passes)%nat →
  ∃ x w', acquire_from passes pause deadline w = (Some x, w') ∧ time w ≤ time w'.
Proof using lock_mono.
  revert pause w. induction passes as [|n IH]; intros pause w Hp Hn; [lia|]. cbn [acquire_from].
  destruct (locked w) as [[[]|e] w1] eqn:El; apply locked_mono in El; [by eauto| |by eauto].
  cbn [next_pause]. destruct (nap pause deadline w1) as [[] w2] eqn:En;
    pose proof (nap_lasts _ _ _ _ Hp En) as [Ht _].
  - apply nap_polls in En; [|done].
    pose proof (polls_mono FIRST deadline deadline w w1 ltac:(done) ltac:(lia) El).
    destruct (IH (Z.min LONGEST (pause * 2)) w2) as (x & w3 & E3 & Ht3);
      [unfold FIRST, LONGEST, from_millis in *; lia|lia|]. exists x, w3. split; [done|lia].
  - exists None, w2. split; [done|lia].
Qed.

Lemma ensure_current_ends passes (w : W) :
  (polls FIRST deadline w < passes)%nat → is_Some (ensure_current (E := E) accepts passes deadline w).1.
Proof using open_mono lock_mono probe_mono replace_mono.
  intros Hn. assert (∀ w', time w ≤ time w' → (polls FIRST deadline w' < passes)%nat) as Hlater.
  { intros w' Ht. pose proof (polls_mono FIRST deadline deadline w w' ltac:(done) ltac:(lia) Ht). lia. }
  unfold ensure_current. destruct (expired (Some deadline) w) as [late w0] eqn:E0. apply expired_mono in E0.
  destruct late; [by eexists|].
  destruct (check accepts deadline w0) as [[o|] w1] eqn:Ec; [by eexists|]. apply check_mono in Ec.
  unfold acquire_async, open_or_create. pose proof (open_mono true w1) as Ho.
  destruct (open_file true w1) as [[[]|e] w2]; [|by eexists]. simpl in Ho.
  destruct (acquire_ends passes FIRST w2) as (x & w3 & -> & Ht3); [done|apply Hlater; lia|].
  destruct x as [[[]|e]|]; [|by eexists..]. unfold upgrade_locked.
  destruct (check accepts deadline w3) as [[o|] w4] eqn:Ec4; [by eexists|]. apply check_mono in Ec4.
  pose proof (replace_mono deadline w4) as Hr.
  destruct (replace deadline w4) as [[[[]|e]|] w5]; simpl in Hr; [|by eexists..].
  destruct (await_ends passes w5) as [r Hr']; [apply Hlater; lia|].
  destruct (await_current accepts passes deadline w5) as [[o|] w6]; [by eexists|done].
Qed.
End ends.

(** C28: an upgrade is serialized and ends. It replaces the daemon at most once, while
    it holds the upgrade lock and after a probe made with the lock found nothing
    fit; it gives the lock back on every path; it succeeds only with what its last
    probe answered and the caller accepts; and it returns, whatever the daemon, the
    replacement and the other holders of the lock do, within one pass for each
    millisecond left. *)
Theorem upgrades_are_serialized {W T E} `{ClockLaws W, !LockFile W, !Daemon W T E} (accepts : T → bool)
    deadline passes (w : W) :
  (∀ c w, time w ≤ time (open_file c w).2) → (∀ w, time w ≤ time (try_lock w).2) →
  (∀ d w, time w ≤ time (probe (T := T) (E := E) d w).2) →
  (∀ d w, time w ≤ time (replace (T := T) (E := E) d w).2) →
  (polls FIRST deadline w < passes)%nat →
  ∃ r w' log,
    ensure_current (W := W * list (@event T E)) (H0 := logged_lock) (H1 := logged_daemon) accepts passes deadline (w, [])
      = (Some r, (w', log)) ∧
    history accepts r log.
Proof.
  intros Ho Hl Hp Hr Hn.
  destruct (ensure_current_ends (LockFile0 := logged_lock) (Daemon0 := logged_daemon) accepts) with deadline passes (w, @nil (@event T E))
    as [r Er]; [..|done|].
  - intros c [v l]. simpl. specialize (Ho c v). by destruct (open_file c v).
  - intros [v l]. simpl. specialize (Hl v). by destruct (try_lock v).
  - intros d [v l]. simpl. specialize (Hp d v). by destruct (probe d v).
  - intros d [v l]. simpl. specialize (Hr d v). by destruct (replace d v).
  - destruct (ensure_current _ passes deadline (w, [])) as [o [w' log]] eqn:Eq. simpl in Er. subst o.
    exists r, w', log. split; [done|]. by apply ensure_current_log in Eq.
Qed.

(** A daemon whose probes answer a version, and a replacement that works. *)
Record Scene := MkScene { clock_ : Sim unit; versions : list (option Z); busy : nat }.

#[export] Instance scene_clock : Clock Scene := {
  now s := let '(t, c) := now (clock_ s) in (t, MkScene c (versions s) (busy s));
  sleep d s := MkScene (sleep d (clock_ s)) (versions s) (busy s);
  sleep_until t s := MkScene (sleep_until t (clock_ s)) (versions s) (busy s);
}.

#[export, refine] Instance scene_laws : ClockLaws Scene := { time s := time (clock_ s) }.
Proof. all: intros; simpl; lia. Defined.

#[export] Instance scene_lock : LockFile Scene := {
  open_file _ s := (Ok tt, s);
  try_lock s := match busy s with
                | O => (Ok tt, s)
                | S n => (Err None, MkScene (clock_ s) (versions s) n)
                end;
  unlock s := s;
}.

#[export] Instance scene_daemon : Daemon Scene Z string := {
  probe _ s := (Some (Ok (default None (head (versions s)))), MkScene (clock_ s) (tail (versions s)) (busy s));
  replace _ s := (Some (Ok tt), s);
}.

Lemma upgrades_are_serialized_witness :
  let s := MkScene (MkSim 0 []) [Some 1; Some 1; None; Some 2] 2 in
  ∃ w' log,
    ensure_current (W := Scene * list (@event Z string)) (H0 := logged_lock) (H1 := logged_daemon)
      (λ v, v =? 2) 101 (from_millis 100) (s, []) = (Some (Ok 2), (w', log)) ∧
    history (λ v, v =? 2) (Ok 2) log.
Proof.
  intros s.
  destruct (upgrades_are_serialized (λ v, v =? 2) (from_millis 100) 101 s) as (r & w' & log & E & Hh).
  - done.
  - intros v. simpl. by destruct (busy v).
  - done.
  - done.
  - apply Nat.ltb_lt. vm_compute. reflexivity.
  - exists w', log. assert (Some r = Some (Ok 2)) as [= ->]; [|split; [exact E|exact Hh]].
    apply (f_equal fst) in E. cbn [fst] in E. rewrite <- E. vm_compute. reflexivity.
Defined.
