(* ===== verification/Client.v ===== *)
(** * Control clients (src/client.rs, and connecting in src/local/mod.rs)

    A client connects, checks who it reached, and asks for health or for a drain
    over a session. The operating system's side of a connection is the
    environment. *)
From S2P Require Import Prelude Text SocketPath Identity Proto Wire Session AsyncSession Observation Lifecycle Control Peer.
Import Lifecycle.

(** ** Connecting *)

Module ConnectError.
Inductive t := ConnectTimeout | PermissionDenied | EndpointTooLong | Failed (kind : ErrorKind).
#[global] Instance eq_dec : EqDecision t.
Proof. solve_decision. Defined.

Definition is_transient (e : t) : bool := bool_decide (e = ConnectTimeout).
End ConnectError.

(** [is_transient] of an I/O error; only Windows knows a busy pipe. *)
Definition is_transient (busy_pipe : io_error → bool) (e : io_error) : bool :=
  bool_decide (kind e ∈ [NotFound; ConnectionRefused; ConnectionReset; ConnectionAborted; NotConnected;
                         UnexpectedEof; BrokenPipe; Prelude.TimedOut; WouldBlock; Interrupted])
  || busy_pipe e.

Definition connect_error (busy_pipe : io_error → bool) (e : io_error) : ConnectError.t :=
  if decide (kind e = PermissionDenied) then ConnectError.PermissionDenied else
  if is_transient busy_pipe e then ConnectError.ConnectTimeout else ConnectError.Failed (kind e).

Definition RETRY_INTERVAL : Z := from_millis 50.

(** A [Duplex] connection: what it transports, and what the OS answers when it is
    asked for the peer's credentials, to arm the read deadline, and to split. *)
Record Duplex (S : Type) := MkDuplex {
  transport : S;
  evidence : io_result Credentials.t;
  deadline_armed : io_result unit;
  halves : io_result unit;
}.
Arguments MkDuplex {S} _ _ _ _.
Arguments transport {S} _.
Arguments evidence {S} _.
Arguments deadline_armed {S} _.
Arguments halves {S} _.

(** One attempt under a deadline. *)
Class Connector (W S : Type) : Type := {
  connect_once_until : Z → W → result ConnectError.t (Duplex S) * W;
}.

Section client.
Context `{Buffa} {W S : Type} `{Clock W, !Connector W S, Stream S}.

(** [connect_until], cut off after [passes]. *)
Fixpoint connect_until (passes : nat) (deadline : Z) (w : W) : option (result ConnectError.t (Duplex S)) * W :=
  match passes with
  | O => (None, w)
  | Datatypes.S passes =>
      match connect_once_until deadline w with
      | (Ok connected, w) => (Some (Ok connected), w)
      | (Err e, w) =>
          if negb (ConnectError.is_transient e) then (Some (Err e), w) else
          let '(t, w) := now w in
          let remaining := saturating_sub deadline t in
          if remaining =? 0 then (Some (Err e), w)
          else connect_until passes deadline (sleep (Z.min RETRY_INTERVAL remaining) w)
      end
  end.

(** ** Requests *)

Inductive RequestError :=
| Unavailable (e : ConnectError.t)
| Peer (r : Rejected.t)
| CredentialsError (e : io_error)
| ProcessMismatch (peer reported : Z)
| Late
| Protocol (e : wire_error).

Definition retry_can_succeed (e : RequestError) : bool :=
  match e with Unavailable e => ConnectError.is_transient e | _ => false end.

(** Who is on the connection: the policy of the expectation, and then the PID. *)
Definition check_peer (expected : option Z) (cr : Credentials.t) : result RequestError Z :=
  _ ← map_err Peer (match expected with
                    | Some pid => (λ _, tt) <$> (ExpectedProcess (λ u : unit, (Some pid, u)) cr tt).1
                    | None => (SameUser cr tt).1
                    end);
  ok_or (Credentials.pid cr) (Peer Rejected.Unreported).

(** The exchange on a session: the health the reply reports, and the stream. *)
Definition exchange (s : S) (offer : Hello.t) (operation : Z) : result RequestError Health.t * S :=
  match Session.connect s offer with
  | (Err e, s) => (Err (Protocol e), s)
  | (Ok session, _) =>
      let message := Control.with_operation operation Control.default in
      match Session.send message session with
      | (Err e, session) => (Err (Protocol (Plain e)), Framed.io (Session.frames session))
      | (Ok _, session) =>
          match Session.receive session with
          | (Err e, session) => (Err (Protocol (Plain e)), Framed.io (Session.frames session))
          | (Ok reply, session) =>
              (map_err (λ e, Protocol (Plain e)) (health_from_response reply message), Framed.io (Session.frames session))
          end
      end
  end.

Definition request (offer : Hello.t) (operation : Z) (expected : option Z) (deadline : Z) (w : W)
    : result RequestError Health.t * W :=
  match connect_once_until deadline w with
  | (Err e, w) => (Err (Unavailable e), w)
  | (Ok stream, w) =>
      match map_err CredentialsError (evidence stream) with
      | Err e => (Err e, w)
      | Ok cr =>
          match check_peer expected cr with
          | Err e => (Err e, w)
          | Ok peer =>
              let '(t, w) := now w in
              if saturating_sub deadline t =? 0 then (Err Late, w) else
              match deadline_armed stream, halves stream with
              | Err e, _ | _, Err e => (Err (Protocol (Plain e)), w)
              | Ok _, Ok _ =>
                  match exchange (transport stream) offer operation with
                  | (Err e, _) => (Err e, w)
                  | (Ok health, _) =>
                      if negb (Health.process_id health =? peer)
                      then (Err (ProcessMismatch peer (Health.process_id health)), w) else
                      let '(t, w) := now w in
                      if deadline <=? t then (Err Late, w) else (Ok health, w)
                  end
              end
          end
      end
  end.

Definition health : Hello.t → option Z → Z → W → result RequestError Health.t * W :=
  λ offer, request offer Operation.HEALTH.
Definition drain : Hello.t → option Z → Z → W → result RequestError Health.t * W :=
  λ offer, request offer Operation.DRAIN.
End client.

(** ** What an answer shows *)

Section trusted.
Context `{Buffa} {W S : Type} `{ClockLaws W, !Connector W S, Stream S}.

Lemma check_peer_Ok expected cr p :
  check_peer expected cr = Ok p →
  Credentials.same_user cr = true ∧ Credentials.pid cr = Some p ∧ (expected = None ∨ expected = Some p).
Proof.
  unfold check_peer, ExpectedProcess, SameUser. destruct expected as [e|].
  - destruct (Credentials.same_user cr); [|done]. simpl. unfold match_pid.
    destruct (Credentials.pid cr) as [o|]; [|done]. case_decide; [|done]. simpl. intros [= <-]. subst. auto.
  - destruct (Credentials.same_user cr); [|done]. simpl. intros Hp%ok_or_Ok. auto.
Qed.

Lemma request_Ok offer operation expected deadline (w w' : W) h :
  request offer operation expected deadline w = (Ok h, w') →
  ∃ stream cr w1, connect_once_until deadline w = (Ok stream, w1) ∧ evidence stream = Ok cr ∧
    Credentials.same_user cr = true ∧ Credentials.pid cr = Some (Health.process_id h) ∧
    (expected = None ∨ expected = Some (Health.process_id h)) ∧
    (exchange (transport stream) offer operation).1 = Ok h ∧
    ∃ t1 w2 t, now w1 = (t1, w2) ∧ now w2 = (t, w') ∧ t < deadline.
Proof.
  unfold request. destruct (connect_once_until deadline w) as [[stream|e] w1]; [|done].
  destruct (evidence stream) as [cr|] eqn:Ec; [|done]. simpl.
  destruct (check_peer expected cr) as [p|] eqn:Ep; [|done]. apply check_peer_Ok in Ep as (Hu & Hp & Hx).
  destruct (now w1) as [t1 w2] eqn:En1. destruct (_ =? 0); [done|].
  destruct (deadline_armed stream), (halves stream); try done.
  destruct (exchange (transport stream) offer operation) as [[h'|] s'] eqn:Ee; [|done].
  destruct (Z.eqb_spec (Health.process_id h') p) as [<-|]; [|done]. simpl.
  destruct (now w2) as [t w3] eqn:En. destruct (Z.leb_spec deadline t); [done|].
  intros [= <- <-]. exists stream, cr, w1. rewrite Ee, En1. eauto 15.
Qed.

Lemma check_peer_Err expected cr e : check_peer expected cr = Err e → ∃ r, e = Peer r.
Proof.
  unfold check_peer. destruct (match expected with Some _ => _ | None => _ end) as [u|r]; simpl; [|intros [= <-]; eauto].
  destruct (Credentials.pid cr); simpl; [done|]. intros [= <-]. eauto.
Qed.

Lemma exchange_Err (s s' : S) offer operation e : exchange s offer operation = (Err e, s') → ∃ x, e = Protocol x.
Proof.
  unfold exchange. destruct (Session.connect s offer) as [[session|e0] s1]; [|intros [= <- <-]; eauto].
  destruct (Session.send _ session) as [[u|e0] session1]; [|intros [= <- <-]; eauto].
  destruct (Session.receive session1) as [[reply|e0] session2]; [|intros [= <- <-]; eauto].
  destruct (health_from_response reply _); [done|]. intros [= <- <-]. eauto.
Qed.

Lemma request_transient offer operation expected deadline (w w' : W) e :
  request offer operation expected deadline w = (Err e, w') →
  retry_can_succeed e = true ↔ (connect_once_until (S := S) deadline w).1 = Err ConnectError.ConnectTimeout.
Proof.
  unfold request. destruct (connect_once_until deadline w) as [[stream|e'] w1]; simpl.
  - intros He. split; [|done]. intros Ht. exfalso. revert He.
    destruct (evidence stream) as [cr|]; simpl; [|by intros [= <- <-]].
    destruct (check_peer expected cr) as [p|e0] eqn:Ep; [|intros [= <- <-]; apply check_peer_Err in Ep as [r ->]; done].
    destruct (now w1) as [t1 w2]. destruct (_ =? 0); [by intros [= <- <-]|].
    destruct (deadline_armed stream), (halves stream); try (by intros [= <- <-]).
    destruct (exchange (transport stream) offer operation) as [[h|e0] s'] eqn:Ee.
    + destruct (negb _); [by intros [= <- <-]|]. destruct (now w2) as [t w3]. destruct (_ <=? _); [by intros [= <- <-]|done].
    + apply exchange_Err in Ee as [x ->]. by intros [= <- <-].
  - intros [= <- <-]. simpl. unfold ConnectError.is_transient. rewrite bool_decide_eq_true. naive_solver.
Qed.

Hypothesis connect_mono : ∀ d w, time w ≤ time (connect_once_until (S := S) d w).2.

Lemma connect_until_ends passes deadline (w : W) :
  (polls RETRY_INTERVAL deadline w < passes)%nat →
  ∃ r w', connect_until (S := S) passes deadline w = (Some r, w') ∧
    (r = Err ConnectError.ConnectTimeout → deadline ≤ time w').
Proof using connect_mono.
  revert w. induction passes as [|n IH]; intros w Hn; [lia|]. cbn [connect_until].
  pose proof (connect_mono deadline w) as Hm. destruct (connect_once_until deadline w) as [[c|e] w1]; simpl in Hm.
  { by eexists _, _. }
  unfold ConnectError.is_transient. case_bool_decide as Ee; simpl.
  2:{ eexists _, _. split; [done|]. by intros [= ->]. }
  destruct (now w1) as [t w2] eqn:En. apply now_mono in En. unfold saturating_sub.
  destruct (Z.eqb_spec (Z.max 0 (deadline - t)) 0).
  - eexists _, _. split; [done|]. lia.
  - apply IH. pose proof (sleep_lasts (Z.min RETRY_INTERVAL (Z.max 0 (deadline - t))) w2).
    apply Nat.lt_le_trans with (polls RETRY_INTERVAL deadline w); [|lia].
    apply polls_wait; unfold RETRY_INTERVAL, from_millis in *; lia.
Qed.
End trusted.

(** An answer is trusted for what it shows. A request succeeds only over a
    connection whose peer the OS reports as a process of this user, with the PID
    that was expected, if one was, and with the PID the reply names, and only when
    the reply to this very request was read before the deadline; only an endpoint
    that nothing served yet is worth retrying, and retrying it ends with the
    deadline. *)
Theorem answers_are_trusted `{Buffa} {W S} `{ClockLaws W, !Connector W S, Stream S} offer operation expected deadline
    passes (w : W) :
  (∀ d w, time w ≤ time (connect_once_until (S := S) d w).2) →
  (∀ h w', request offer operation expected deadline w = (Ok h, w') →
     ∃ stream cr w1, connect_once_until deadline w = (Ok stream, w1) ∧ evidence stream = Ok cr ∧
       Credentials.same_user cr = true ∧ Credentials.pid cr = Some (Health.process_id h) ∧
       (expected = None ∨ expected = Some (Health.process_id h)) ∧
       (exchange (transport stream) offer operation).1 = Ok h ∧ time w < deadline) ∧
  (∀ e w', request offer operation expected deadline w = (Err e, w') →
     retry_can_succeed e = true ↔ (connect_once_until (S := S) deadline w).1 = Err ConnectError.ConnectTimeout) ∧
  ((polls RETRY_INTERVAL deadline w < passes)%nat →
     ∃ r w', connect_until (S := S) passes deadline w = (Some r, w') ∧
       (r = Err ConnectError.ConnectTimeout → deadline ≤ time w')).
Proof.
  intros Hm. split_and!.
  - intros h w' Hr. apply request_Ok in Hr as (stream & cr & w1 & Hc & He & Hu & Hp & Hx & Hh & t1 & w2 & t & En1 & En & Ht).
    exists stream, cr, w1. pose proof (Hm deadline w) as Hw. rewrite Hc in Hw. simpl in Hw.
    apply now_mono in En1, En. split_and!; try done. lia.
  - intros e w'. apply request_transient.
  - by apply connect_until_ends.
Qed.

(** ** A client and a service *)

Section end_to_end.
Context `{BuffaLaws}.
#[local] Existing Instance lifted.
Import ControlService.

(** Everything the client sends, and everything the service does. *)
Definition client_sends (a : Hello.t) (m : Control.t) : bytes := MAGIC ++ frame a ++ [x01] ++ frame m.
Definition service_sends (b : Hello.t) (reply : Control.t) : bytes := frame b ++ [x01] ++ frame reply.

Lemma blocking_session (s : AsyncSession.t Pipe) x p : blocking s = session_of x p → s = AsyncSession.mk p x false.
Proof. destruct s as [q y f]. unfold blocking, session_of. simpl. by intros [= -> _ -> ->]. Qed.

Variables (a b : Hello.t) (x : Agreement).
Hypothesis a_sendable : sendable a.
Hypothesis b_sendable : sendable b.
Hypothesis b_serves : check_refusal b = Ok tt.
Hypothesis agreed : negotiate a b = Ok x.

Lemma exchange_on_pipe operation reply :
  let m := Control.with_operation operation Control.default in
  allowed x m → allowed x reply →
  exchange (MkPipe (service_sends b reply) []) a operation =
    (map_err (λ e, Protocol (Plain e)) (health_from_response reply m), MkPipe [] (client_sends a m)).
Proof using H0 a_sendable b_sendable b_serves agreed.
  intros m Hm Hr. destruct (proj1 (negotiate_Ok _ _ _) agreed) as (Hva & Hvb & _).
  unfold exchange, service_sends. rewrite connect_on_pipe by done. rewrite b_serves, agreed.
  change ([x01] ++ frame reply) with (x01 :: frame reply). rewrite acceptance_read. cbv iota beta zeta. fold m.
  change (Session.mk (Framed.mk ?p (agreed_frame x) false) x) with (session_of x p). rewrite send_allowed by done. rewrite <- (app_nil_r (frame reply)), receive_allowed by done.
  unfold client_sends. cbn [session_of Session.frames Framed.io]. by rewrite <- !app_assoc.
Qed.

(** The three steps of the service, on what the client sent. *)
Lemma session_accepts m :
  Session.accept (MkPipe (client_sends a m) []) b =
    (Ok (session_of x (MkPipe (frame m) (frame b ++ [x01]))), MkPipe (frame m) (frame b ++ [x01])).
Proof using H0 a_sendable b_sendable agreed.
  destruct (proj1 (negotiate_Ok _ _ _) agreed) as (_ & Hvb & _). unfold client_sends.
  rewrite accept_on_pipe by done. rewrite (negotiate_comm _ _ _ agreed).
  change ([x01] ++ frame m) with (x01 :: frame m). by rewrite acceptance_read.
Qed.

Lemma service_accepts m :
  AsyncSession.accept b (AsyncSession.unestablished (MkPipe (client_sends a m) [])) =
    (Some (Ok tt), AsyncSession.mk (MkPipe (frame m) (frame b ++ [x01])) x false).
Proof using H0 a_sendable b_sendable agreed.
  pose proof (accept_agrees (MkPipe (client_sends a m) []) b) as Ha. rewrite session_accepts in Ha.
  destruct Ha as (_ & Ea1 & Ea2). apply injective_projections; [exact Ea1|]. exact (blocking_session _ _ _ Ea2).
Qed.

Lemma service_receives m out : allowed x m →
  AsyncSession.receive (AsyncSession.mk (MkPipe (frame m) out) x false) =
    (Some (Ok m), AsyncSession.mk (MkPipe [] out) x false).
Proof using H0.
  intros Hm. pose proof (receive_agrees (AsyncSession.mk (MkPipe (frame m) out) x false)) as [Er1 Er2].
  change (blocking (AsyncSession.mk ?p x false)) with (session_of x p) in Er1, Er2.
  rewrite <- (app_nil_r (frame m)), receive_allowed in Er1, Er2 by done. cbn [fst snd] in Er1, Er2.
  rewrite app_nil_r in Er1, Er2. apply injective_projections; [exact Er1|]. exact (blocking_session _ _ _ Er2).
Qed.

Lemma service_sends_reply reply out : allowed x reply →
  AsyncSession.send reply (AsyncSession.mk (MkPipe [] out) x false) =
    (Some (Ok tt), AsyncSession.mk (MkPipe [] (out ++ frame reply)) x false).
Proof using H0.
  intros Hr. pose proof (send_agrees reply (AsyncSession.mk (MkPipe [] out) x false)) as [Es1 Es2].
  change (blocking (AsyncSession.mk ?p x false)) with (session_of x p) in Es1, Es2.
  rewrite send_allowed in Es1, Es2 by done. cbn [fst snd] in Es1, Es2.
  apply injective_projections; [exact Es1|]. exact (blocking_session _ _ _ Es2).
Qed.

Lemma serve_on_pipe now m svc reply svc' :
  allowed x m → allowed x reply →
  Z.land (capabilities x) Capability.HEALTH_DETAILS ≠ 0 → Control.operation m ≠ Operation.WATCH →
  handle now m svc = (Ok reply, svc') →
  Requests.serve now b (svc, AsyncSession.unestablished (MkPipe (client_sends a m) [])) =
    (Some (Ok None), (svc', AsyncSession.mk (MkPipe [] (service_sends b reply)) x false)).
Proof using H0 a_sendable b_sendable agreed.
  intros Hm Hr Hcap Hop Hh.
  unfold Requests.serve, Requests.timeout, Requests.setup, bind, Requests.on_session, get.
  rewrite service_accepts. cbv iota beta. rewrite service_receives by done.
  cbv iota beta. cbn [fst snd AsyncSession.agreement].
  rewrite (proj2 (Z.eqb_neq _ _)) by done. cbn [andb]. rewrite (proj2 (Z.eqb_neq _ _)) by done.
  rewrite Hh. cbv iota beta. rewrite service_sends_reply by done.
  unfold ret, service_sends. by rewrite <- app_assoc.
Qed.
End end_to_end.

(** C34: a request reaches the service and its answer comes back. Over a reliable
    connection, with offers that agree on typed health and on the operation, the
    service reads exactly what the client sends and serves it, closing admission
    first for a drain, and the client reads exactly what the service sends: it
    learns the state of the service after the request. *)
Theorem requests_reach_the_service `{BuffaLaws} a b x operation now svc :
  sendable a → sendable b → check_refusal b = Ok tt → negotiate a b = Ok x →
  Z.land (capabilities x) Capability.HEALTH_DETAILS ≠ 0 →
  operation = Operation.HEALTH ∨ operation = Operation.DRAIN →
  let m := Control.with_operation operation Control.default in
  let svc' := if operation =? Operation.DRAIN then ControlService.set_gate (start_drain now (ControlService.gate svc)).1.2 svc else svc in
  allowed x m → ControlService.process_id svc ≠ 0 → Requests.answerable svc → Requests.answerable svc' →
  (∀ reply, health_response (ControlService.snapshot svc') m = Ok reply → fits (agreed_frame x) reply) →
  ∃ out,
    Requests.serve (H0 := lifted) now b (svc, AsyncSession.unestablished (MkPipe (client_sends a m) [])) =
      (Some (Ok None), (svc', AsyncSession.mk (MkPipe [] out) x false)) ∧
    exchange (MkPipe out []) a operation = (Ok (ControlService.snapshot svc'), MkPipe [] (client_sends a m)) ∧
    (operation = Operation.DRAIN → accepting_calls (ControlService.gate svc') = false).
Proof.
  intros Ha Hb Hr Hx Hcap Hop m svc' Hm Hpid Henc Henc' Hfits.
  assert (∃ reply, ControlService.handle now m svc = (Ok reply, svc') ∧
    health_response (ControlService.snapshot svc') m = Ok reply) as (reply & Hh & Hresp).
  { unfold ControlService.handle, health_response, svc'. by destruct Hop as [->| ->]; eexists. }
  assert (allowed x reply) as Hreply.
  { split; [by apply Hfits|]. rewrite <- (proj2 Hm). unfold health_response in Hresp.
    destruct Hop as [-> | ->]; injection Hresp as <-; done. }
  assert (ControlService.process_id svc' ≠ 0) as Hpid' by (unfold svc'; by destruct (operation =? _)).
  exists (service_sends b reply). split_and!.
  - apply serve_on_pipe; try done. by destruct Hop as [->| ->].
  - rewrite (exchange_on_pipe a b x) by done. fold m. f_equal.
    by rewrite (Requests.health_response_read svc' m reply Henc' Hpid' Hresp).
  - intros ->. unfold svc', accepting_calls, ControlService.set_gate, start_drain. simpl.
    destruct (draining (ControlService.gate svc)) eqn:E; simpl; by rewrite ?E.
Qed.

(** ** A concrete exchange *)

Definition example_service : ControlService.t := ControlService.new (Lifecycle.mk false 2 None 0) 7 3 (bs "v1") 1.
Definition example_agreement : Agreement := MkAgreement 2 63 65536.
Definition example_request : Control.t := Control.with_operation Operation.DRAIN Control.default.
Definition example_reply : Control.t :=
  Control.mk Operation.DRAIN 0 3 [] None
    (encode_to_vec (H := Wireformat.protobuf) (Health.mk 7 3 (bs "v1") 1 false true 2 [])) (Control.kind Control.default) [].

Lemma example_fits : fits (Message0 := Control.message (H := Wireformat.protobuf)) 65536 example_request ∧ fits (Message0 := Control.message (H := Wireformat.protobuf)) 65536 example_reply.
Proof.
  split; unfold fits; (split_and!; [|vm_compute; reflexivity|vm_compute; discriminate..]);
    simpl; unfold Control.valid, valid_bytes, valid_option, valid_enum, is_u32, is_u64, u32_max, u64_max, is_i32;
    split_and!; try done; vm_compute; discriminate.
Qed.

Lemma example_answerable draining started n :
  Requests.answerable (H := Wireformat.protobuf) (ControlService.new (Lifecycle.mk draining 2 started n) 7 3 (bs "v1") 1).
Proof.
  split.
  - simpl. unfold Health.valid, valid_string, valid_bytes, is_u32, is_u64, u32_max, u64_max. split_and!; done.
  - unfold within. destruct draining; vm_compute; split_and!; discriminate.
Qed.

Lemma requests_reach_the_service_witness :
  ∃ out, exchange (H := Wireformat.protobuf) (MkPipe out []) example_hello Operation.DRAIN =
    (Ok (Health.mk 7 3 (bs "v1") 1 false true 2 []),
     MkPipe [] (client_sends (H := Wireformat.protobuf) example_hello example_request)).
Proof.
  destruct (requests_reach_the_service (H := Wireformat.protobuf) example_hello example_hello example_agreement
    Operation.DRAIN 50 example_service example_sendable example_sendable) as (out & _ & E & _).
  - reflexivity.
  - vm_compute. reflexivity.
  - vm_compute. discriminate.
  - right. reflexivity.
  - split; [apply example_fits|vm_compute; reflexivity].
  - discriminate.
  - apply example_answerable.
  - apply example_answerable.
  - intros reply Hr. assert (Ok reply = @Ok io_error _ example_reply) as [= ->]; [|apply example_fits].
    rewrite <- Hr. vm_compute. reflexivity.
  - exists out. exact E.
Defined.

(** A connection to that service: the second attempt is accepted, and the answer
    names the process on it. *)
#[export] Instance scripted_connector : Connector (Sim (result ConnectError.t (Duplex Pipe))) Pipe := {
  connect_once_until _ := next_answer (Err ConnectError.ConnectTimeout);
}.

Definition example_duplex : Duplex Pipe :=
  MkDuplex (MkPipe (service_sends (H := Wireformat.protobuf) example_hello example_reply) [])
    (Ok (Credentials.new (Some 7) true)) (Ok tt) (Ok tt).

Lemma answers_are_trusted_witness :
  let w := MkSim 0 [Ok example_duplex] in
  (request (H := Wireformat.protobuf) example_hello Operation.DRAIN (Some 7) (from_millis 100) w).1
    = Ok (Health.mk 7 3 (bs "v1") 1 false true 2 []) ∧
  ∃ r w', connect_until (S := Pipe) 3 (from_millis 100) (MkSim 0 [Err ConnectError.ConnectTimeout; Ok example_duplex])
    = (Some r, w') ∧ r ≠ Err ConnectError.ConnectTimeout.
Proof.
  intros w. split; [vm_compute; reflexivity|].
  pose proof (answers_are_trusted (H := Wireformat.protobuf) (S := Pipe) example_hello Operation.DRAIN (Some 7) (from_millis 100) 3
    (MkSim 0 [Err ConnectError.ConnectTimeout; Ok example_duplex])) as H.
  destruct H as (_ & _ & Hc); [intros; apply next_answer_time|].
  destruct Hc as (r & w' & E & _); [apply Nat.ltb_lt; vm_compute; reflexivity|].
  exists r, w'. split; [exact E|].
  assert (Some r = Some (Ok example_duplex)) as [= ->]; [|discriminate].
  apply (f_equal fst) in E. cbn [fst] in E. rewrite <- E. reflexivity.
Defined.
