(* ===== verification/Connecting.v ===== *)
(** * Connecting to an endpoint (src/local/unix.rs, src/local/windows.rs)

    One attempt to connect on each platform, as the [Connector] that [Client] retries
    with; the credentials of a connected Unix socket; and the signal sent to a peer
    that cannot drain. The system's sockets, pipes and signals are classes. *)
From stdpp Require Import gmap.
From S2P Require Import Prelude SocketPath Peer Client.

Definition i32_max : Z := 2 ^ 31 - 1.

(** ** Unix sockets *)

(** The descriptors a process has open, and the calls an attempt makes of them.
    [SockAddr::unix] refuses what does not fit in an address. *)
Class UnixCalls (W : Type) : Type := {
  descriptors : W → gset nat;
  socket : W → io_result nat * W;
  sockaddr : bytes → io_result unit;
  connect_timeout : nat → bytes → Z → W → io_result unit * W;
  peer_addr : nat → W → io_result unit * W;
  close : nat → W → W;
}.

(** A call opens what it returns and nothing else, and takes no time back. *)
Class UnixLaws (W : Type) `{ClockLaws W, !UnixCalls W} : Type := {
  now_keeps w : descriptors (now w).2 = descriptors w;
  socket_opens w f w' : socket w = (Ok f, w') → f ∉ descriptors w ∧ descriptors w' = ({[ f ]} ∪ descriptors w);
  socket_fails w e w' : socket w = (Err e, w') → descriptors w' = descriptors w;
  connect_keeps f p d w : descriptors (connect_timeout f p d w).2 = descriptors w;
  peer_keeps f w : descriptors (peer_addr f w).2 = descriptors w;
  close_closes f w : descriptors (close f w) = descriptors w ∖ {[ f ]};
  socket_time w : time w ≤ time (socket w).2;
  connect_time f p d w : time w ≤ time (connect_timeout f p d w).2;
  peer_time f w : time w ≤ time (peer_addr f w).2;
  close_time f w : time w ≤ time (close f w);
}.

Section unix.
Context {W : Type} `{Clock W, !UnixCalls W}.
Variable platform : Platform.

(** The closure [connect]: a descriptor whose setup fails is closed. *)
Definition attempt (path : bytes) (deadline : Z) (w : W) : io_result nat * W :=
  let '(t, w) := now w in
  let remaining := saturating_sub deadline t in
  if remaining =? 0 then (Err (error_of_kind TimedOut), w) else
  match socket w with
  | (Err e, w) => (Err e, w)
  | (Ok f, w) =>
      match sockaddr path with
      | Err e => (Err e, close f w)
      | Ok _ =>
          match connect_timeout f path remaining w with
          | (Err e, w) => (Err e, close f w)
          | (Ok _, w) =>
              match peer_addr f w with
              | (Err e, w) => (Err e, close f w)
              | (Ok _, w) => (Ok f, w)
              end
          end
      end
  end.

(** [UnixDuplex::connect_once_until]; Unix has no busy pipes. *)
Definition unix_connect_once_until (path : bytes) (deadline : Z) (w : W) : result ConnectError.t nat * W :=
  match check_socket_path platform path with
  | Err _ => (Err ConnectError.EndpointTooLong, w)
  | Ok _ => let '(r, w) := attempt path deadline w in (map_err (connect_error (λ _, false)) r, w)
  end.
End unix.

(** ** Named pipes *)

(** [connect_by_path_with_wait_mode] of the interprocess crate, with no waiting. *)
Class PipeCalls (W S : Type) : Type := {
  connect_by_path : list Z → W → io_result S * W;
}.

Section windows.
Context {W S : Type} `{Clock W, !PipeCalls W S}.

(** A UTF-16 string without NUL, which [U16CString] ends with one. *)
Definition wide (l : list Z) : option (list Z) := if bool_decide (0 ∈ l) then None else Some l.
Definition pipe_prefix : list Z := byte_val <$> bs "\\.\pipe\".

(** [busy_pipe]. *)
Definition ERROR_PIPE_BUSY : Z := 231.
Definition busy_pipe (e : io_error) : bool := bool_decide (raw_os_error e = Some ERROR_PIPE_BUSY).

(** [WindowsDuplex::connect_once_until]; [endpoint] is the name's UTF-16. *)
Definition windows_connect_once_until (endpoint : list Z) (deadline : Z) (w : W) : result ConnectError.t S * W :=
  match wide (pipe_prefix ++ endpoint) with
  | None => (Err (ConnectError.Failed InvalidInput), w)
  | Some path =>
      let '(t, w) := now w in
      if saturating_sub deadline t =? 0 then (Err ConnectError.ConnectTimeout, w) else
      let '(r, w) := connect_by_path path w in (map_err (connect_error busy_pipe) r, w)
  end.
End windows.

(** ** Who is on the other end, and how it is asked to stop *)

(** [visible_pid]: Linux reports 0 for a peer outside the PID namespace. *)
Definition visible_pid (raw : Z) : option Z := if 0 <? raw then Some raw else None.

(** [peer_credentials] and [fd_credentials] off macOS: [cred] is what
    [SO_PEERCRED] answers, a PID and a user. *)
Definition fd_credentials (cred : io_result (Z * Z)) (own_uid : Z) : io_result Credentials.t :=
  '(pid, uid) ← cred;
  Ok (Credentials.new (visible_pid pid ≫= ProcessId.new) (uid =? own_uid)).

(** [macos_peer_pid]: an answer that is no PID is the system's last error. *)
Definition macos_peer_pid (pid : io_result Z) (last : io_error) : io_result Z :=
  pid ← pid; if 0 <? pid then Ok pid else Err last.

(** [macos_credentials]. *)
Definition macos_credentials (uid : io_result Z) (pid : io_result Z) (last : io_error) (own_uid : Z) :
    io_result Credentials.t :=
  uid ← uid;
  pid ← macos_peer_pid pid last;
  Ok (Credentials.new (ProcessId.new pid) (uid =? own_uid)).

Definition SIGTERM : Z := 15.

(** [terminate_legacy_peer], over [kill]. A PID that is no [c_int] is refused. *)
Definition terminate_legacy_peer {W} (kill : Z → Z → W → io_result unit * W) (pid : Z) (w : W) : io_result unit * W :=
  if i32_max <? pid then (Err (error_new InvalidInput "PID out of range"), w) else kill pid SIGTERM w.

(** Whom [kill] signals: a positive PID names a process, 0 the caller's group, and
    a negative one every process or a group. *)
Inductive target := OneProcess (pid : Z) | OwnGroup | EveryProcess | Group (pgid : Z).
Definition target_of (pid : Z) : target :=
  if 0 <? pid then OneProcess pid else if pid =? 0 then OwnGroup else if pid =? -1 then EveryProcess else Group (- pid).

(** ** Attempts *)

Section attempts.
Context {W : Type} `{UnixLaws W}.

(** An attempt keeps the descriptors it had, and the one it returns. *)
Lemma attempt_keeps path deadline w r w' : attempt path deadline w = (r, w') →
  time w ≤ time w' ∧
  match r with
  | Ok f => f ∉ descriptors w ∧ descriptors w' = ({[ f ]} ∪ descriptors w) ∧ time w < deadline
  | Err _ => descriptors w' = descriptors w
  end.
Proof.
  unfold attempt. pose proof (now_keeps w) as Hn. destruct (now w) as [t w1] eqn:En. apply now_mono in En. simpl in Hn.
  unfold saturating_sub. destruct (Z.eqb_spec (Z.max 0 (deadline - t)) 0); [intros [= <- <-]; split; [lia|done]|].
  pose proof (socket_time w1) as Ht2. destruct (socket w1) as [[f|e] w2] eqn:Es; simpl in Ht2.
  2:{ intros [= <- <-]. apply socket_fails in Es. split; [lia|congruence]. }
  apply socket_opens in Es as [Hf Hd]. rewrite Hn in Hf, Hd.
  assert (∀ w3, descriptors w3 = descriptors w2 → descriptors (close f w3) = descriptors w) as Hclose.
  { intros w3 E. rewrite close_closes, E, Hd. set_solver. }
  destruct (sockaddr path); [|intros [= <- <-]; pose proof (close_time f w2); split; [lia|by apply Hclose]].
  pose proof (connect_keeps f path (Z.max 0 (deadline - t)) w2) as Hk. pose proof (connect_time f path (Z.max 0 (deadline - t)) w2).
  destruct (connect_timeout _ _ _ w2) as [[u|e] w3]; simpl in *.
  2:{ intros [= <- <-]. pose proof (close_time f w3). split; [lia|by apply Hclose]. }
  pose proof (peer_keeps f w3) as Hp. pose proof (peer_time f w3). destruct (peer_addr f w3) as [[[]|e] w4]; simpl in *.
  - intros [= <- <-]. split; [lia|]. split_and!; [done|congruence|lia].
  - intros [= <- <-]. pose proof (close_time f w4). split; [lia|]. apply Hclose. congruence.
Qed.
End attempts.

(** An attempt to connect keeps what it promises. On Unix an endpoint whose path
    does not fit is refused and nothing is tried; an attempt that fails leaves no
    descriptor, one that succeeds leaves the connection it returns and no other, and
    none starts at or after its deadline; so on Windows, where a name with a NUL is
    refused. A failure is worth retrying only if time ran out or the system's error
    says the endpoint may come, which a denial never does. *)
Theorem attempts_keep_their_promises {W S} `{UnixLaws W, !PipeCalls W S} platform path endpoint deadline (w : W) :
  (∀ r w', unix_connect_once_until platform path deadline w = (r, w') →
    (check_socket_path platform path ≠ Ok tt ↔ r = Err ConnectError.EndpointTooLong) ∧
    match r with
    | Ok f => f ∉ descriptors w ∧ descriptors w' = ({[ f ]} ∪ descriptors w) ∧ time w < deadline
    | Err e => descriptors w' = descriptors w ∧ (check_socket_path platform path ≠ Ok tt → w' = w) ∧
        (ConnectError.is_transient e = true → ∃ e', (attempt path deadline w).1 = Err e' ∧ is_transient (λ _, false) e' = true)
    end) ∧
  (∀ r w', windows_connect_once_until (S := S) endpoint deadline w = (r, w') →
    (0 ∈ endpoint → r = Err (ConnectError.Failed InvalidInput) ∧ w' = w) ∧
    (∀ s, r = Ok s → 0 ∉ endpoint ∧ time w < deadline)).
Proof.
  split.
  - intros r w'. unfold unix_connect_once_until. destruct (check_socket_path platform path) as [[]|e0] eqn:Ec.
    2:{ intros [= <- <-]. split; [done|]. split_and!; done. }
    destruct (attempt path deadline w) as [r1 w1] eqn:Ea. intros [= <- <-].
    pose proof (attempt_keeps _ _ _ _ _ Ea) as [_ Hk]. destruct r1 as [f|e1]; simpl.
    + split; [split; done|exact Hk].
    + unfold connect_error. split.
      * split; [done|]. case_decide; [done|]. by destruct (is_transient _ e1).
      * split_and!; [exact Hk|done|]. unfold ConnectError.is_transient.
        case_decide; [by case_bool_decide|]. destruct (is_transient _ e1) eqn:Et; [by eauto|by case_bool_decide].
  - intros r w'. unfold windows_connect_once_until, wide. case_bool_decide as Hz.
    { intros [= <- <-]. split; [done|]. by intros s [=]. }
    apply not_elem_of_app in Hz as [_ Hz]. destruct (now w) as [t w1] eqn:En. apply now_mono in En. unfold saturating_sub.
    destruct (Z.eqb_spec (Z.max 0 (deadline - t)) 0) as [|Hne]; [by intros [= <- <-]|].
    destruct (connect_by_path _ w1) as [r1 w2]. intros [= <- <-]. split; [done|]. intros s _. split; [done|lia].
Qed.

(** The PID of a Unix peer can be signalled and names that one process. The
    credentials of a connected socket give no PID, or the positive PID the system
    reported; asking a peer to terminate sends SIGTERM to the process with that PID,
    never to a process group and never to every process, and a PID that the system's
    type cannot hold is refused without a signal. *)
Theorem signals_reach_one_process {W} (kill : Z → Z → W → io_result unit * W) cred uid pid_answer last own cr pid (w : W) :
  (∀ p u, cred = Ok (p, u) → p ≤ i32_max) → (∀ p, pid_answer = Ok p → p ≤ i32_max) →
  fd_credentials cred own = Ok cr ∨ macos_credentials uid pid_answer last own = Ok cr →
  Credentials.pid cr = Some pid →
  target_of pid = OneProcess pid ∧ terminate_legacy_peer kill pid w = kill pid SIGTERM w ∧
  (∀ other, i32_max < other → terminate_legacy_peer kill other w = (Err (error_new InvalidInput "PID out of range"), w)).
Proof.
  intros Hc Hm Hcr Hp.
  assert (0 < pid ≤ i32_max) as Hpid.
  { destruct Hcr as [E|E].
    - unfold fd_credentials in E. apply result_bind_Ok in E as ([p u] & Hcred & [= <-]). simpl in Hp.
      specialize (Hc p u Hcred). unfold visible_pid, ProcessId.new in Hp.
      destruct (Z.ltb_spec 0 p); [|done]. simpl in Hp. destruct (p =? 0); [done|]. injection Hp as <-. lia.
    - unfold macos_credentials in E. apply result_bind_Ok in E as (u & _ & E).
      apply result_bind_Ok in E as (p & Hpeer & [= <-]). simpl in Hp.
      unfold macos_peer_pid in Hpeer. apply result_bind_Ok in Hpeer as (q & Hq & E). specialize (Hm q Hq).
      destruct (Z.ltb_spec 0 q); [|done]. injection E as ->. unfold ProcessId.new in Hp.
      destruct (p =? 0); [done|]. injection Hp as <-. lia. }
  unfold target_of, terminate_legacy_peer. split_and!.
  - by destruct (Z.ltb_spec 0 pid); [|lia].
  - by destruct (Z.ltb_spec i32_max pid); [lia|].
  - intros other Ho. by destruct (Z.ltb_spec i32_max other); [|lia].
Qed.

(** ** Witnesses *)

(** A host where one path is listened on, and its clock. *)
Module Host.
Record t := mk { clock : Z; fds : gset nat; listening : bytes }.
Definition later (w : t) : t := mk (clock w + 1) (fds w) (listening w).

#[global] Instance clock_ : Clock t := {
  now w := (clock w, w);
  sleep d w := mk (clock w + Z.max 0 d) (fds w) (listening w);
  sleep_until u w := mk (Z.max (clock w) u) (fds w) (listening w);
}.
#[global, refine] Instance clock_laws : ClockLaws t := { time := clock }.
Proof. all: intros; simpl; lia. Defined.

#[global] Instance calls : UnixCalls t := {
  descriptors := fds;
  socket w := let f := fresh (fds w) in (Ok f, mk (clock w + 1) ({[ f ]} ∪ fds w) (listening w));
  sockaddr path := Ok tt;
  connect_timeout f path d w := (if decide (path = listening w) then Ok tt else Err (error_of_kind NotFound), later w);
  peer_addr f w := (Ok tt, w);
  close f w := mk (clock w) (fds w ∖ {[ f ]}) (listening w);
}.
#[global, refine] Instance laws : UnixLaws t := {}.
Proof.
  all: try done.
  - intros w f w' [= <- <-]. split; [apply is_fresh|done].
  - intros w. simpl. lia.
  - intros f p d w. simpl. lia.
Defined.
#[global] Instance pipes : PipeCalls t nat := { connect_by_path path w := (Err (IoError Other (Some ERROR_PIPE_BUSY) ""), w) }.
End Host.

Definition host : Host.t := Host.mk 5 {[ 0%nat; 1%nat; 2%nat ]} (bs "/run/d.sock").

(** The listened path is connected to with one new descriptor; a path nobody listens
    on leaves none and is worth retrying, and a busy pipe is too. *)
Lemma attempts_keep_their_promises_witness :
  (∃ f w', unix_connect_once_until Linux (bs "/run/d.sock") 9 host = (Ok f, w') ∧ f ∉ Host.fds host ∧
     Host.fds w' = {[ f ]} ∪ Host.fds host) ∧
  (∃ w', unix_connect_once_until Linux (bs "/run/e.sock") 9 host = (Err ConnectError.ConnectTimeout, w') ∧
     Host.fds w' = Host.fds host) ∧
  (∃ w', windows_connect_once_until (S := nat) [0] 9 host = (Err (ConnectError.Failed InvalidInput), w') ∧ w' = host).
Proof.
  split_and!.
  - destruct (unix_connect_once_until Linux (bs "/run/d.sock") 9 host) as [[f|e] w'] eqn:E; [|by vm_compute in E].
    destruct (proj1 (attempts_keep_their_promises (S := nat) Linux (bs "/run/d.sock") [] 9 host) _ _ E) as (_ & Hf & Hd & _).
    exists f, w'. split; [reflexivity|]. split; [exact Hf|exact Hd].
  - destruct (unix_connect_once_until Linux (bs "/run/e.sock") 9 host) as [[f|e] w'] eqn:E; [by vm_compute in E|].
    assert (e = ConnectError.ConnectTimeout) as -> by (vm_compute in E; by injection E as <- _).
    destruct (proj1 (attempts_keep_their_promises (S := nat) Linux (bs "/run/e.sock") [] 9 host) _ _ E) as (_ & Hd & _).
    exists w'. split; [reflexivity|exact Hd].
  - destruct (windows_connect_once_until (S := nat) [0] 9 host) as [r w'] eqn:E.
    destruct (proj2 (attempts_keep_their_promises (S := nat) Linux [] [0] 9 host) r w' E) as [Hz _].
    destruct Hz as [-> ->]; [by left|]. by exists host.
Defined.

Lemma signals_reach_one_process_witness :
  target_of 77 = OneProcess 77 ∧
  terminate_legacy_peer (λ pid signal (w : list (Z * Z)), (Ok tt, (pid, signal) :: w)) 77 [] = (Ok tt, [(77, 15)]).
Proof.
  destruct (signals_reach_one_process (λ pid signal (w : list (Z * Z)), (Ok tt, (pid, signal) :: w)) (Ok (77, 1000))
    (Ok 1000) (Ok 77) (error_of_kind Other) 1000 (Credentials.new (Some 77) true) 77 []) as (Ht & Hk & _).
  - intros p u [= <- <-]. unfold i32_max. lia.
  - intros p [= <-]. unfold i32_max. lia.
  - left. reflexivity.
  - reflexivity.
  - split; [exact Ht|exact Hk].
Defined.
